(* ===== verification/_CoqProject ===== *)
-Q . S2P
Prelude.v
Types.v
Validation.v
LedgerState.v
Crc32.v
WalCodec.v
Posix.v
WalWriter.v
WalReader.v
Snapshot.v
SnapshotWrite.v
SnapshotAsync.v
Recovery.v
RecoverySafety.v
RecoveryHistory.v
Idempotency.v
RingBuffer.v
RingConcurrent.v
ReleaseAcquire.v
RingWeak.v
EngineWeak.v
Engine.v
ReadersWeak.v
EngineSpec.v
EngineRun.v
EngineFlush.v
EngineCrash.v
EngineLife.v
Demo.v
DemoSpec.v
TestPrograms.v
