(* ===== verification/Prelude.v ===== *)
(** * A verification library for the double-entry ledger engine

    ** The program

    A C++20 ledger.  Producer threads [submit] transactions into a bounded
    lock-free queue; one writer thread drains it and, for each request,
    deduplicates it by its idempotency key, validates it (shape, then against
    the balances), appends it to a binary write-ahead log, applies it to the
    in-memory accounts, publishes a copy of them for readers every so often, and
    answers in the completion slot of the caller.  Snapshots of the accounts are
    written to a file by write, fsync and rename.  After a restart, recovery loads
    the snapshot, replays the log from the snapshot's offset, cuts the log at the
    first record that is not complete and correct, and checks the trial balance.

    ** Files

    - [Prelude]: machine integers, byte buffers, sums, tactics, hint databases.
    - [Types]: include/ledger/types.hpp and result.hpp.
    - [Validation]: src/validation.cpp.  [validate_transaction_shape] and
      [validate_transaction_against_state] with their loops, and the declarative
      verdicts they compute.
    - [LedgerState]: src/ledger_state.cpp and ledger_state.hpp.  [LedgerState] is
      a finite map of accounts with the last applied id, [LedgerStateStore] the
      writer's copy with the published one.
    - [Crc32]: src/crc32.cpp.
    - [WalCodec]: wal_format.hpp, wal_codec.hpp and src/wal_codec.cpp.
    - [Posix]: the system calls the program makes, as the class [Posix] with the
      laws [PosixLaws] (POSIX behaviour over a view of the file system, failures
      and short transfers included), the monad of effectful code, [UniqueFd]
      (unique_fd.hpp), and [MemFs], an instance in memory with injected faults
      that satisfies the laws; every witness about effectful code runs on it.
    - [WalWriter], [WalReader]: src/wal_writer.cpp and src/wal_reader.cpp.
    - [Snapshot], [SnapshotWrite]: src/snapshot.cpp; the first has the code, the
      file format and loading, the second writing and crashes.
    - [SnapshotAsync]: [write_snapshot_async].  [snapshot_calls] is [write_snapshot] as
      the tree of its system calls ([snapshot_calls_run]: taken one after the other they
      are the function), [interleaved] that thread next to an engine that writes, cuts
      and synchronises its log, [run_threads] two such threads on one target.
    - [Recovery]: src/recovery.cpp.  [RecoveryLimits] has executions that show
      what recovery does not guarantee; [RecoverySafety] is about recovery when any
      of its calls may fail, [RecoveryHistory] about the disk while it runs.
    - [Idempotency]: src/idempotency_cache.cpp.
    - [RingBuffer], [RingConcurrent]: ring_buffer.hpp, used by one thread, and as
      atomic accesses of any number of producers and a consumer interleaved.
    - [ReleaseAcquire], [RingWeak], [EngineWeak]: the same code with the memory
      orders it is written with.  The first is a machine with views for relaxed,
      acquire and release accesses, read-modify-writes and data races; the second
      runs on it [try_push] and [try_pop], the construction of a [Completion], the
      reset in [submit] (src/engine.cpp), the wait of a producer (src/main.cpp) and
      [complete] (engine.hpp), with the invariant of the queue; the third has the
      invariant of the completion slots, an executable scheduler and the theorems.
    - [ReadersWeak]: on top of these, [LedgerStateStore] (ledger_state.hpp) with its
      release store and acquire load: the writer commits, constructs a copy, publishes it
      and answers ([rstep]), while any thread takes and reads snapshots.
    - [Engine]: src/engine.cpp and engine.hpp.  [EngineSpec] has the outcome of
      one request and the abstract ledger, [EngineRun] whole batches, crashes and
      recovery after them, [EngineCrash] crashes in the middle of a batch,
      [EngineFlush] a batch followed by [wal_writer().flush()].
    - [EngineLife]: an engine started on a recovered ledger ([resume]: [open] and an
      assignment through [state_working_copy]), given any sequence of submissions,
      runs of the event loop and snapshots ([handle]), cut short by a loss of power
      and recovered, again and again ([life]); recovery can be cut short as well
      ([boots]).
    - [Demo], [DemoSpec]: src/main.cpp.  [boot] and [finish] are [main] before the
      threads start and after they are joined, [demo_step] interleaves the
      producers and the writer at their calls on the engine.
    - [TestPrograms]: tests/test_validation.cpp, test_wal.cpp and
      fault_injection_test.cpp, check by check.  A failed [LEDGER_CHECK] ends the program;
      the C++ library calls with which they damage files are the class [StdFiles].

    ** How code is modelled

    Integers are [Z] with the range of their C++ type; unsigned arithmetic wraps,
    and undefined behaviour (signed overflow, an access outside an array, a null
    pointer) is the value [None] of the option monad, so that a theorem that a
    call returns also says that it has none.  Structures written with memcpy are
    byte lists in the little-endian layout of the supported hosts; the padding
    bytes of [SnapshotHeader] are an argument.  Calls of the operating system go
    through [Posix]: [M A] is a function from a world to an optional result and
    world.  [std::hash] and the iteration order of [std::unordered_map] are
    arguments ([hash64], [order], [visit]).  Loops are structural where the code
    counts; [replay], [find_loop], [remove_loop] and [reserve] have fuel.

    ** What is shown

    - Validation returns exactly the declarative verdict; applying a validated
      transaction moves each account by its net delta and keeps the books
      balanced and the overdraft floors respected.
    - Codec, record, snapshot: what is written is read back, of a transaction its id, key
      and legs, with the time of its append; a record or snapshot altered within four
      bytes anywhere, checksum included, is rejected if its size field is intact; the
      table-driven checksum is that of IEEE 802.3, by division of polynomials.
    - The log only grows by records or prefixes of records; success in
      [SyncEveryWrite] mode means durable.  Snapshots are replaced atomically
      under crashes at any point.
    - Recovery returns the replay of the complete records, whatever follows them that is
      not a record, and is idempotent, when no call fails; in every environment it ends,
      unless the replay overflows.
    - The cache refines a bounded LRU list; the ring refines a bounded queue, and
      under every interleaving is first-in-first-out, exclusive and not stuck.
    - With the memory orders of the code, and loads that may be stale, nothing races,
      items and answers arrive unchanged and in order, each producer reads the answer
      to its own request, and can always see it once it is given.
    - The engine refines an abstract ledger on every branch and in every
      environment, keeps the books, applies no key twice within the cache's
      window.  When no call fails and ids increase, what it acknowledged in
      [SyncEveryWrite] mode survives a crash, in [BatchSyncFlush] mode from the next flush
      on, and a crash in the middle of a batch, or of a write, is a crash between two
      transactions.
    - Readers of the published state race with nothing; each copy is the ledger after a
      number of transactions, a multiple of the interval of publication, that never goes
      back for a thread; of the transactions up to its own, a thread that has read its
      answer misses fewer than one interval.
    - One asynchronous snapshot next to the running engine is atomic and leaves the log
      alone; two of one target at a time are not ([async_overlap_corrupts]).
    - The three test programs pass in every environment without failures.
    - Over any number of restarts with snapshots in between, wherever a loss of power cuts
      each session short, and recoveries too, in [SyncEveryWrite] mode and when no call
      fails, the ledger is the first one after submitted
      transactions, each applied once and in the order of ids, and no ledger an engine
      had reached is rolled back.  This asks for ids above those of the recovered
      ledger; the engine's own counter starts again at one after a restart.
    - The demonstration, under every interleaving of its threads, has all its
      transactions accepted, can always run to its end, and reports the balances
      of the README.

    ** Fuel and bounds

    [replay] gets one iteration per record and one to stop; every record has at
    least 32 bytes, so the length of the log is enough ([parse_log_total]).
    [find_loop] and [remove_loop] get the number of nodes, the length of the
    longest chain.  [reserve] gets two rounds: alone, a producer succeeds or
    fails in the first.  The theorems about the ring ask that positions stay
    below 2^63 (nine quintillion pushes), those about the engine that the
    balances plus the amounts moved stay within 64 bits, those about the cache
    that its capacity is below 2^31, the range of its indices.  [plan_ok] collects
    what a session of [EngineLife] needs; a record has at most 321 bytes, so [room]
    bounds the log and is enough fuel for recovery.

    ** Crashes

    [crash] (SnapshotWrite) and [torn_crash], [power_cycle] (EngineCrash, EngineLife) say
    what a crash may leave.  A name refers to what it did at the crash or at the last
    synchronisation of its directory.  Bytes that were synchronised are there.  For the
    theorems about completed batches, snapshots and flushes nothing is assumed of a file
    that is not synchronised in full.  For crashes in the middle of writing the log, the
    bytes behind the synchronised ones may be missing, cut, or others, up to the length
    the file had; only, bytes that were not written do not pass for a record
    ([survives]), which is what the checksum is for.

    ** Not modelled

    Benchmarks, which only measure times of calls modelled here, and build files.
    Executions in which a load returns a value that is stored only later (load
    buffering), which a machine with views does not have.  The reference counts of the
    published pointer: it is one atomic location, and a copy stays.  The counters of the
    demonstration are interleaved only.  Allocation failure.  The text the demonstration
    prints, and its handling of the directory, are the arguments and results of [boot]
    and [finish]; the tests start where their files do not exist.  What remains of the
    headers is declarations, deleted copies and type aliases. *)

From stdpp Require Export base list gmap numbers strings.
From coqutil Require Export Byte Word.LittleEndianList.
From Stdlib Require Export Lia.
#[global] Open Scope Z_scope.

(** ** Machine integers

    Every integer of the program is a [Z] together with the range its C++
    type allows.  Unsigned arithmetic wraps ([wrap64]); signed arithmetic that
    leaves the range of [std::int64_t] is undefined behaviour, which the model
    keeps as a value: the partial operations below return [None] there. *)

Definition INT64_MAX : Z := 9223372036854775807.
Definition INT64_MIN : Z := -9223372036854775808.

Definition s64_ok (z : Z) : Prop := INT64_MIN ≤ z ≤ INT64_MAX.
Definition u64_ok (z : Z) : Prop := 0 ≤ z < 18446744073709551616.
Definition u32_ok (z : Z) : Prop := 0 ≤ z < 4294967296.
Definition u8_ok (z : Z) : Prop := 0 ≤ z < 256.

#[export] Instance s64_ok_dec z : Decision (s64_ok z).
Proof. unfold s64_ok. apply _. Defined.
#[export] Instance u64_ok_dec z : Decision (u64_ok z).
Proof. unfold u64_ok. apply _. Defined.
#[export] Instance u32_ok_dec z : Decision (u32_ok z).
Proof. unfold u32_ok. apply _. Defined.
#[export] Instance u8_ok_dec z : Decision (u8_ok z).
Proof. unfold u8_ok. apply _. Defined.

(** Arithmetic goals about the ranges above. *)
Ltac range_lia :=
  unfold s64_ok, u64_ok, u32_ok, u8_ok, INT64_MAX, INT64_MIN in *; lia.

Definition wrap32 (z : Z) : Z := z `mod` 4294967296.
Definition wrap64 (z : Z) : Z := z `mod` 18446744073709551616.

(** Reinterpretation of a 64-bit pattern as a signed integer
    ([static_cast<std::int64_t>] of a [std::uint64_t], and [memcpy] into an
    [std::int64_t]). *)
Definition to_s64 (z : Z) : Z :=
  let u := wrap64 z in
  if bool_decide (u ≤ INT64_MAX) then u else u - 18446744073709551616.

(** The same for [std::int32_t]. *)
Definition to_s32 (z : Z) : Z :=
  let u := wrap32 z in
  if bool_decide (u ≤ 2147483647) then u else u - 4294967296.

(** Signed addition and negation; [None] is undefined behaviour. *)
Definition sadd64 (x y : Z) : option Z :=
  if decide (s64_ok (x + y)) then Some (x + y) else None.
Definition sneg64 (x : Z) : option Z :=
  if decide (s64_ok (- x)) then Some (- x) else None.

Definition smul64 (x y : Z) : option Z :=
  if decide (s64_ok (x * y)) then Some (x * y) else None.

Lemma smul64_ok x y : s64_ok (x * y) → smul64 x y = Some (x * y).
Proof. intros ?. unfold smul64. by rewrite decide_True. Qed.
Lemma sadd64_Some x y z : sadd64 x y = Some z ↔ z = x + y ∧ s64_ok (x + y).
Proof. unfold sadd64. case_decide; naive_solver. Qed.
Lemma sadd64_ok x y : s64_ok (x + y) → sadd64 x y = Some (x + y).
Proof. intros ?. by apply sadd64_Some. Qed.
Lemma sneg64_Some x z : sneg64 x = Some z ↔ z = - x ∧ s64_ok (- x).
Proof. unfold sneg64. case_decide; naive_solver. Qed.
Lemma sneg64_ok x : s64_ok (- x) → sneg64 x = Some (- x).
Proof. intros ?. by apply sneg64_Some. Qed.

Lemma wrap64_id z : u64_ok z → wrap64 z = z.
Proof. intros ?. apply Z.mod_small. range_lia. Qed.
Lemma wrap64_range z : u64_ok (wrap64 z).
Proof. unfold u64_ok, wrap64. apply Z.mod_pos_bound. lia. Qed.
Lemma wrap32_id z : u32_ok z → wrap32 z = z.
Proof. intros ?. apply Z.mod_small. range_lia. Qed.
Lemma wrap32_range z : u32_ok (wrap32 z).
Proof. unfold u32_ok, wrap32. apply Z.mod_pos_bound. lia. Qed.

Lemma to_s64_range z : s64_ok (to_s64 z).
Proof.
  unfold to_s64. pose proof (wrap64_range z). case_bool_decide; range_lia.
Qed.

Lemma to_s64_wrap64 z : s64_ok z → to_s64 (wrap64 z) = z.
Proof.
  intros Hz. unfold to_s64.
  rewrite (wrap64_id (wrap64 z)) by apply wrap64_range.
  unfold wrap64. destruct (decide (0 ≤ z)).
  - rewrite Z.mod_small by range_lia. case_bool_decide; range_lia.
  - rewrite <- (Z.mod_add z 1), Z.mod_small by range_lia.
    case_bool_decide; range_lia.
Qed.

Lemma wrap64_to_s64 z : wrap64 (to_s64 z) = wrap64 z.
Proof.
  unfold to_s64. case_bool_decide.
  - apply wrap64_id, wrap64_range.
  - unfold wrap64. rewrite Zminus_mod, Z_mod_same_full, Z.sub_0_r.
    by rewrite !Zmod_mod.
Qed.

(** ** Byte buffers

    [mem_write] and [mem_read] are [std::memcpy] to and from a buffer of fixed
    size at an offset; an access outside the buffer is undefined behaviour. *)

Definition mem_write (dst : list byte) (off : nat) (bs : list byte) : option (list byte) :=
  if decide (off + length bs ≤ length dst)%nat
  then Some (take off dst ++ bs ++ drop (off + length bs) dst) else None.
Definition mem_read (src : list byte) (off n : nat) : option (list byte) :=
  if decide (off + n ≤ length src)%nat then Some (take n (drop off src)) else None.

Lemma mem_write_ok dst off bs :
  (off + length bs ≤ length dst)%nat →
  ∃ dst', mem_write dst off bs = Some dst' ∧ length dst' = length dst ∧
    take (off + length bs) dst' = take off dst ++ bs.
Proof.
  intros Hb. unfold mem_write. rewrite decide_True by done.
  eexists; split; [done|]. split.
  - rewrite !length_app, length_take, length_drop. lia.
  - rewrite app_assoc, take_app_length'; [done|].
    rewrite length_app, length_take. lia.
Qed.

(** [written dst offset bs]: the first [offset] bytes of the buffer are [bs]. *)
Definition written (dst : list byte) (offset : nat) (bs : list byte) : Prop :=
  take offset dst = bs ∧ offset = length bs.

Lemma mem_write_written dst offset bs v :
  written dst offset bs → (length bs + length v ≤ length dst)%nat →
  ∃ dst', mem_write dst offset v = Some dst' ∧
    length dst' = length dst ∧ written dst' (offset + length v) (bs ++ v).
Proof.
  intros [Ht ->] Hle. destruct (mem_write_ok dst (length bs) v Hle) as (dst' & Hw & Hl & Htake).
  exists dst'. split_and!; [done..|].
  split; [by rewrite Htake, Ht|by rewrite length_app].
Qed.

Lemma mem_read_ok src off n :
  (off + n ≤ length src)%nat → mem_read src off n = Some (take n (drop off src)).
Proof. intros. unfold mem_read. by rewrite decide_True. Qed.

Lemma mem_read_app l1 l2 l3 off n :
  off = length l1 → n = length l2 → mem_read (l1 ++ l2 ++ l3) off n = Some l2.
Proof.
  intros -> ->. rewrite mem_read_ok by (rewrite !length_app; lia).
  by rewrite drop_app_length, take_app_length.
Qed.

(** ** Sums *)

Definition zsum (l : list Z) : Z := foldr Z.add 0 l.

Lemma zsum_app l k : zsum (l ++ k) = zsum l + zsum k.
Proof. induction l; simpl in *; lia. Qed.
Lemma zsum_nonneg l : Forall (λ z, 0 ≤ z) l → 0 ≤ zsum l.
Proof. induction 1; simpl; lia. Qed.
#[export] Instance zsum_perm : Proper (Permutation ==> eq) zsum.
Proof. induction 1; simpl; lia. Qed.

(** ** Little-endian fields *)

Lemma le_combine_split_u (n : nat) z :
  0 ≤ z < 2 ^ (Z.of_nat n * 8) → le_combine (le_split n z) = z.
Proof. intros. rewrite le_combine_split. by apply Z.mod_small. Qed.

Lemma le_combine_split_64 z : le_combine (le_split 8 z) = wrap64 z.
Proof. by rewrite le_combine_split. Qed.

Lemma le_combine_range bs n :
  length bs = n → 0 ≤ le_combine bs < 2 ^ (8 * Z.of_nat n).
Proof. intros <-. apply le_combine_bound. Qed.

Lemma le_split_wrap64 z : le_split 8 (wrap64 z) = le_split 8 z.
Proof. symmetry. apply (le_split_mod z 8). Qed.

Lemma le_split_inj n x y :
  0 ≤ x < 2 ^ (Z.of_nat n * 8) → 0 ≤ y < 2 ^ (Z.of_nat n * 8) →
  le_split n x = le_split n y → x = y.
Proof.
  intros Hx Hy Heq%(f_equal le_combine).
  by rewrite !le_combine_split_u in Heq.
Qed.

(** Evaluates a bind whose first computation is known. *)
Ltac ubind := cbn [mbind option_bind].
Tactic Notation "ubind" "in" hyp(H) := cbn [mbind option_bind] in H.

Create HintDb ledger discriminated.
#[export] Hint Resolve wrap64_range wrap32_range to_s64_range : ledger.
Create Rewrite HintDb ledger_len.
#[export] Hint Rewrite @length_app @length_take @length_drop length_le_split
  @length_replicate @length_insert : ledger_len.

(** Goals about the length of buffers. *)
Ltac len := autorewrite with ledger_len in *; simpl length in *; lia.

(** Closes a decidable goal about concrete data by evaluation. *)
Ltac by_compute :=
  lazymatch goal with
  | |- ?P => refine (@bool_decide_unpack P _ _); vm_compute; exact I
  end.

(** ** Sums over finite maps *)

Section MapSum.
Context {K V : Type} `{Countable K} (f : V → Z).

(** The sum of [f] over the values of a finite map. *)
Definition map_zsum (m : gmap K V) : Z := zsum (f <$> (map_to_list m).*2).

Lemma map_zsum_perm (m : gmap K V) l :
  l ≡ₚ map_to_list m → zsum (f <$> l.*2) = map_zsum m.
Proof. unfold map_zsum. by intros ->. Qed.

Lemma map_zsum_empty : map_zsum ∅ = 0.
Proof. unfold map_zsum. by rewrite map_to_list_empty. Qed.

Lemma map_zsum_insert_new (m : gmap K V) i x :
  m !! i = None → map_zsum (<[i:=x]> m) = f x + map_zsum m.
Proof. intros Hi. unfold map_zsum. by rewrite map_to_list_insert by done. Qed.

Lemma map_zsum_insert_old (m : gmap K V) i x y :
  m !! i = Some x → map_zsum (<[i:=y]> m) = map_zsum m - f x + f y.
Proof.
  intros Hi. rewrite <- (insert_delete_id m i x) at 2 by done.
  rewrite <- insert_delete_eq.
  rewrite !map_zsum_insert_new by apply lookup_delete_eq. lia.
Qed.
End MapSum.

(** ** Cutting buffers into fields *)

Lemma field_split {A} (p : list A) o n : take n (drop o p) ++ drop (o + n) p = drop o p.
Proof. rewrite <- drop_drop. apply take_drop. Qed.

Lemma field_length {A} (p : list A) o n : (o + n ≤ length p)%nat → length (take n (drop o p)) = n.
Proof. intros. rewrite length_take, length_drop. lia. Qed.

Lemma le_split_combine (n : nat) bs : length bs = n → le_split n (le_combine bs) = bs.
Proof. apply split_le_combine'. Qed.

Lemma le_split_to_s64 z : le_split 8 (to_s64 z) = le_split 8 z.
Proof. by rewrite <- le_split_wrap64, wrap64_to_s64, le_split_wrap64. Qed.

Lemma le_combine_u64 bs : length bs = 8%nat → u64_ok (le_combine bs).
Proof. intros H. apply (le_combine_range bs 8 H). Qed.
Lemma le_combine_u8 bs : length bs = 1%nat → u8_ok (le_combine bs).
Proof. intros H. apply (le_combine_range bs 1 H). Qed.

Lemma to_s64_small z : 0 ≤ z ≤ INT64_MAX → to_s64 z = z.
Proof. intros Hz. unfold to_s64. rewrite wrap64_id by range_lia. by rewrite bool_decide_true by lia. Qed.

(** Two buffers that agree on their first [m] bytes agree on fields inside. *)
Lemma field_agree {A} (a b : list A) m o n :
  take m a = take m b → (o + n ≤ m)%nat → take n (drop o a) = take n (drop o b).
Proof.
  intros Hab Hle. rewrite !take_drop_commute.
  rewrite <- (Nat.min_l (o + n) m), <- !take_take by lia. by rewrite Hab.
Qed.

(** A field of the first [k] elements. *)
Lemma field_take {A} (l : list A) o n k :
  (o + n ≤ k)%nat → take n (drop o (take k l)) = take n (drop o l).
Proof. intros Hk. by rewrite !take_drop_commute, take_take, Nat.min_l. Qed.
