(* ===== verification/Types.v ===== *)
(** * Domain types

    [include/ledger/types.hpp] and [include/ledger/result.hpp]: the error
    codes, the two result types, account types and directions, the signed
    delta of a leg, the fixed-capacity leg list, transactions and accounts. *)

From S2P Require Import Prelude.

(** ** Errors and results ([result.hpp]) *)

Module LedgerError.
Inductive t :=
  | None | InvalidTransaction | UnbalancedTransaction | TooFewLegs
  | TooManyLegs | ZeroAmountLeg | AmountOverflow | AccountNotFound
  | InsufficientFunds | DuplicateTransaction | WalOpenFailed | WalWriteFailed
  | WalSyncFailed | WalCorruptRecord | WalTruncatedRecord | WalPayloadTooLarge
  | SnapshotOpenFailed | SnapshotWriteFailed | SnapshotReadFailed
  | SnapshotCorrupt | QueueFull | TrialBalanceMismatch | Unknown.

#[export] Instance t_eq_dec : EqDecision t.
Proof. solve_decision. Defined.

Definition to_string (e : t) : string :=
  match e with
  | None => "None"
  | InvalidTransaction => "InvalidTransaction"
  | UnbalancedTransaction => "UnbalancedTransaction"
  | TooFewLegs => "TooFewLegs"
  | TooManyLegs => "TooManyLegs"
  | ZeroAmountLeg => "ZeroAmountLeg"
  | AmountOverflow => "AmountOverflow"
  | AccountNotFound => "AccountNotFound"
  | InsufficientFunds => "InsufficientFunds"
  | DuplicateTransaction => "DuplicateTransaction"
  | WalOpenFailed => "WalOpenFailed"
  | WalWriteFailed => "WalWriteFailed"
  | WalSyncFailed => "WalSyncFailed"
  | WalCorruptRecord => "WalCorruptRecord"
  | WalTruncatedRecord => "WalTruncatedRecord"
  | WalPayloadTooLarge => "WalPayloadTooLarge"
  | SnapshotOpenFailed => "SnapshotOpenFailed"
  | SnapshotWriteFailed => "SnapshotWriteFailed"
  | SnapshotReadFailed => "SnapshotReadFailed"
  | SnapshotCorrupt => "SnapshotCorrupt"
  | QueueFull => "QueueFull"
  | TrialBalanceMismatch => "TrialBalanceMismatch"
  | Unknown => "Unknown"
  end%string.
End LedgerError.

#[global] Abbreviation LedgerError := LedgerError.t.
#[export] Existing Instance LedgerError.t_eq_dec.

(** [Result<T>] holds a value or an error. *)
Inductive Result (T : Type) : Type :=
  | Value (value : T)
  | Error (error : LedgerError).
Arguments Value {_} _.
Arguments Error {_} _.

(** [Result<void>] holds an error code whose value [None] means success. *)
#[global] Abbreviation ResultVoid := LedgerError.t (only parsing).
Definition has_value (r : ResultVoid) : bool := bool_decide (r = LedgerError.None).

(** ** Account types and directions *)

#[global] Abbreviation AccountId := Z (only parsing).
#[global] Abbreviation TransactionId := Z (only parsing).
#[global] Abbreviation Amount := Z (only parsing).

(** An enumeration with underlying type [std::uint8_t] can hold any byte:
    [UnnamedType] is a value that [static_cast] made of a byte that names no
    enumerator. *)
Inductive AccountType :=
  | Asset | Liability | Equity | Revenue | Expense
  | UnnamedType (v : Z).

Inductive Direction := Debit | Credit.

#[export] Instance AccountType_eq_dec : EqDecision AccountType.
Proof. solve_decision. Defined.
#[export] Instance Direction_eq_dec : EqDecision Direction.
Proof. solve_decision. Defined.

(** [static_cast] between the enumerations and their underlying byte. *)
Definition account_type_to_u8 (t : AccountType) : Z :=
  match t with
  | Asset => 0 | Liability => 1 | Equity => 2 | Revenue => 3 | Expense => 4
  | UnnamedType v => v
  end.
Definition account_type_of_u8 (v : Z) : AccountType :=
  if bool_decide (v = 0) then Asset
  else if bool_decide (v = 1) then Liability
  else if bool_decide (v = 2) then Equity
  else if bool_decide (v = 3) then Revenue
  else if bool_decide (v = 4) then Expense
  else UnnamedType v.

Definition AccountType_wf (t : AccountType) : Prop :=
  match t with UnnamedType v => 5 ≤ v < 256 | _ => True end.

Definition direction_to_u8 (d : Direction) : Z :=
  match d with Debit => 0 | Credit => 1 end.
Definition direction_of_u8 (v : Z) : Direction :=
  if bool_decide (v = 0) then Debit else Credit.

Definition to_string (t : AccountType) : string :=
  match t with
  | Asset => "Asset" | Liability => "Liability" | Equity => "Equity"
  | Revenue => "Revenue" | Expense => "Expense"
  | UnnamedType _ => "Unknown"
  end%string.

Definition direction_to_string (d : Direction) : string :=
  (if bool_decide (d = Debit) then "DEBIT" else "CREDIT")%string.

Definition is_debit_normal (t : AccountType) : bool :=
  bool_decide (t = Asset) || bool_decide (t = Expense).

(** The signed change of an account's balance for a leg; negating the most
    negative amount is undefined. *)
Definition signed_delta (type : AccountType) (dir : Direction) (amount : Amount) : option Amount :=
  let increases := eqb (bool_decide (dir = Debit)) (is_debit_normal type) in
  if increases then Some amount else sneg64 amount.

(** ** Legs, transactions, accounts *)

Record IdempotencyKey := mkKey { high : Z; low : Z }.
#[export] Instance IdempotencyKey_eq_dec : EqDecision IdempotencyKey.
Proof. solve_decision. Defined.

Definition key_ok (k : IdempotencyKey) : Prop := u64_ok (high k) ∧ u64_ok (low k).

(** [IdempotencyKeyHash]; [hash64] is [std::hash<std::uint64_t>], whose values
    the language leaves to the implementation. *)
Definition IdempotencyKeyHash (hash64 : Z → Z) (k : IdempotencyKey) : Z :=
  let h1 := hash64 (high k) in
  let h2 := hash64 (low k) in
  Z.lxor h1 (wrap64 (h2 + 0x9e3779b97f4a7c15 + wrap64 (Z.shiftl h1 6) + Z.shiftr h1 2)).

Record EntryLeg := mkLeg { account_id : AccountId; direction : Direction; amount : Amount }.
#[export] Instance EntryLeg_eq_dec : EqDecision EntryLeg.
Proof. solve_decision. Defined.

(** [EntryLeg{}]. *)
Definition default_leg : EntryLeg := mkLeg 0 Debit 0.

Definition kMaxLegsPerTransaction : nat := 16.

(** The class keeps an array of sixteen legs and a count; only the first
    [count_] legs are visible, through [span]. *)
Module LegList.
Record t := mk { legs_ : list EntryLeg; count_ : nat }.

Definition make : t := mk (replicate kMaxLegsPerTransaction default_leg) 0.

Definition push_back (l : t) (leg : EntryLeg) : bool * t :=
  if bool_decide (kMaxLegsPerTransaction ≤ count_ l)%nat then (false, l)
  else (true, mk (<[count_ l := leg]> (legs_ l)) (S (count_ l))).
Definition span (l : t) : list EntryLeg := take (count_ l) (legs_ l).
Definition size (l : t) : nat := count_ l.
Definition empty (l : t) : bool := bool_decide (count_ l = 0%nat).
Definition clear (l : t) : t := mk (legs_ l) 0.

(** The class invariant. *)
Definition wf (l : t) : Prop :=
  length (legs_ l) = kMaxLegsPerTransaction ∧ (count_ l ≤ kMaxLegsPerTransaction)%nat.

#[export] Instance wf_dec l : Decision (wf l).
Proof. unfold wf. apply _. Defined.

(** Two leg lists are equivalent when they show the same legs: what the array
    holds beyond [count_] (after [clear], say) cannot be observed. *)
#[export] Instance t_equiv : Equiv t := λ l k, span l = span k.
#[export] Instance t_equivalence : Equivalence (≡@{t}).
Proof. split; unfold equiv, t_equiv; congruence. Qed.
#[export] Instance span_proper : Proper ((≡@{t}) ==> eq) span.
Proof. by intros l k. Qed.

Lemma make_wf : wf make.
Proof. by split; [reflexivity | simpl; lia]. Qed.
Lemma clear_wf l : wf l → wf (clear l).
Proof. intros [? _]. split; simpl; [done | unfold kMaxLegsPerTransaction; lia]. Qed.
Lemma clear_span l : span (clear l) = [].
Proof. done. Qed.
Lemma size_span l : wf l → size l = length (span l).
Proof. intros [? ?]. unfold size, span. rewrite length_take. lia. Qed.
Lemma span_length l : wf l → (length (span l) ≤ kMaxLegsPerTransaction)%nat.
Proof. intros [? ?]. unfold span. rewrite length_take. lia. Qed.

Lemma push_back_full l leg :
  count_ l = kMaxLegsPerTransaction → push_back l leg = (false, l).
Proof. intros Hc. unfold push_back. by rewrite bool_decide_true by lia. Qed.

Lemma push_back_room l leg :
  wf l → (count_ l < kMaxLegsPerTransaction)%nat →
  ∃ l', push_back l leg = (true, l') ∧ wf l' ∧ span l' = span l ++ [leg].
Proof.
  intros [Hlen Hc] Hlt. unfold push_back. rewrite bool_decide_false by lia.
  eexists; split; [done|]. unfold wf, span; simpl. split.
  - rewrite length_insert. lia.
  - rewrite (take_S_r _ _ leg) by (apply list_lookup_insert_eq; lia).
    by rewrite take_insert_ge by lia.
Qed.

(** Builds a leg list from the legs of an initializer list, as the tests'
    [make_tx] does. *)
Definition of_list (ls : list EntryLeg) : t := foldl (λ l leg, (push_back l leg).2) make ls.

Lemma of_list_snoc ls leg : of_list (ls ++ [leg]) = (push_back (of_list ls) leg).2.
Proof. unfold of_list. by rewrite foldl_app. Qed.

Lemma of_list_spec ls :
  (length ls ≤ kMaxLegsPerTransaction)%nat → wf (of_list ls) ∧ span (of_list ls) = ls.
Proof.
  induction ls as [|leg ls IH] using rev_ind; intros Hle; [by split; [apply make_wf|]|].
  rewrite length_app in Hle; simpl in Hle.
  destruct IH as [Hwf Hspan]; [lia|].
  pose proof (size_span _ Hwf) as Hs. rewrite Hspan in Hs. unfold size in Hs.
  destruct (push_back_room _ leg Hwf) as (l' & Hpush & Hwf' & Hspan'); [lia|].
  rewrite of_list_snoc, Hpush; simpl. by rewrite Hspan', Hspan.
Qed.
End LegList.
#[global] Abbreviation LegList := LegList.t.
#[export] Existing Instances LegList.wf_dec LegList.t_equiv LegList.t_equivalence LegList.span_proper.

Record Transaction := mkTx {
  id : TransactionId;
  idempotency_key : IdempotencyKey;
  created_at_ns : Z;
  legs : LegList
}.

Record Account := mkAccount {
  acc_id : AccountId;
  type : AccountType;
  balance : Amount;
  overdraft_limit : Amount
}.
#[export] Instance Account_eq_dec : EqDecision Account.
Proof. solve_decision. Defined.

(** The fields are in the range of their C++ types. *)
Definition leg_ok (l : EntryLeg) : Prop := u64_ok (account_id l) ∧ s64_ok (amount l).
Definition tx_ok (tx : Transaction) : Prop :=
  u64_ok (id tx) ∧ key_ok (idempotency_key tx) ∧ s64_ok (created_at_ns tx) ∧
  LegList.wf (legs tx) ∧ Forall leg_ok (LegList.span (legs tx)).
Definition account_ok (a : Account) : Prop :=
  u64_ok (acc_id a) ∧ AccountType_wf (type a) ∧ s64_ok (balance a) ∧ s64_ok (overdraft_limit a).

#[export] Instance key_ok_dec k : Decision (key_ok k).
Proof. unfold key_ok. apply _. Defined.
#[export] Instance leg_ok_dec l : Decision (leg_ok l).
Proof. unfold leg_ok. apply _. Defined.
#[export] Instance tx_ok_dec tx : Decision (tx_ok tx).
Proof. unfold tx_ok. apply _. Defined.
#[export] Instance AccountType_wf_dec t : Decision (AccountType_wf t).
Proof. destruct t; simpl; apply _. Defined.
#[export] Instance account_ok_dec a : Decision (account_ok a).
Proof. unfold account_ok. apply _. Defined.

(** The legs a transaction shows. *)
Definition tx_legs (tx : Transaction) : list EntryLeg := LegList.span (legs tx).

(** ** Lemmas *)

Lemma account_type_of_to_u8 t :
  AccountType_wf t → account_type_of_u8 (account_type_to_u8 t) = t.
Proof.
  intros Hwf. unfold account_type_of_u8.
  destruct t; simpl in *; try done. by rewrite !bool_decide_false by lia.
Qed.
Lemma account_type_to_of_u8 v : account_type_to_u8 (account_type_of_u8 v) = v.
Proof. unfold account_type_of_u8. repeat case_bool_decide; simpl; lia. Qed.
Lemma account_type_of_u8_wf v : u8_ok v → AccountType_wf (account_type_of_u8 v).
Proof.
  intros Hv. unfold account_type_of_u8. repeat case_bool_decide; simpl; range_lia.
Qed.
Lemma account_type_to_u8_ok t : AccountType_wf t → u8_ok (account_type_to_u8 t).
Proof. destruct t; simpl; range_lia. Qed.

Lemma direction_of_to_u8 d : direction_of_u8 (direction_to_u8 d) = d.
Proof. by destruct d. Qed.
Lemma direction_to_of_u8 v : 0 ≤ v ≤ 1 → direction_to_u8 (direction_of_u8 v) = v.
Proof. intros. unfold direction_of_u8. case_bool_decide; simpl; lia. Qed.

(** *** Double-entry arithmetic

    The value of a leg is its amount, counted positively for a debit and
    negatively for a credit; an account's balance moves by that value, with
    the sign of the account's normal side. *)
Definition dir_sign (d : Direction) : Z := match d with Debit => 1 | Credit => -1 end.
Definition normal_sign (t : AccountType) : Z := if is_debit_normal t then 1 else -1.
Definition leg_value (l : EntryLeg) : Z := dir_sign (direction l) * amount l.

Definition net (ls : list EntryLeg) : Z := zsum (leg_value <$> ls).
Definition debits (ls : list EntryLeg) : Z :=
  zsum ((λ l, if direction l is Debit then amount l else 0) <$> ls).
Definition credits (ls : list EntryLeg) : Z :=
  zsum ((λ l, if direction l is Credit then amount l else 0) <$> ls).
Definition legs_on (i : AccountId) (ls : list EntryLeg) : list EntryLeg :=
  filter (λ l, account_id l = i) ls.

Lemma normal_sign_sq t : normal_sign t * normal_sign t = 1.
Proof. unfold normal_sign. by destruct (is_debit_normal t). Qed.

Lemma signed_delta_eq t l :
  0 ≤ amount l ≤ INT64_MAX →
  signed_delta t (direction l) (amount l) = Some (normal_sign t * leg_value l).
Proof.
  intros Ha. unfold signed_delta, normal_sign, leg_value.
  destruct (direction l), (is_debit_normal t); simpl;
    rewrite ?sneg64_ok by range_lia; f_equal; lia.
Qed.

Lemma signed_delta_Some t d a z :
  signed_delta t d a = Some z → z = normal_sign t * (dir_sign d * a).
Proof.
  unfold signed_delta, normal_sign. destruct d, (is_debit_normal t); simpl.
  all: try (intros [-> _]%sneg64_Some); try (intros [= <-]); lia.
Qed.

Lemma net_app ls ks : net (ls ++ ks) = net ls + net ks.
Proof. unfold net. by rewrite fmap_app, zsum_app. Qed.
Lemma net_cons l ls : net (l :: ls) = leg_value l + net ls.
Proof. done. Qed.
Lemma debits_app ls ks : debits (ls ++ ks) = debits ls + debits ks.
Proof. unfold debits. by rewrite fmap_app, zsum_app. Qed.
Lemma credits_app ls ks : credits (ls ++ ks) = credits ls + credits ks.
Proof. unfold credits. by rewrite fmap_app, zsum_app. Qed.
Lemma legs_on_app i ls ks : legs_on i (ls ++ ks) = legs_on i ls ++ legs_on i ks.
Proof. apply filter_app. Qed.

Lemma net_debits_credits ls : net ls = debits ls - credits ls.
Proof.
  unfold net, debits, credits. induction ls as [|l ls IH]; csimpl; [done|].
  rewrite IH. unfold leg_value. destruct (direction l); simpl; lia.
Qed.

(** All amounts of a list of legs are positive. *)
Definition positive_legs (ls : list EntryLeg) : Prop := Forall (λ l, 0 < amount l) ls.

Lemma debits_nonneg ls : positive_legs ls → 0 ≤ debits ls.
Proof.
  intros H. apply zsum_nonneg, Forall_fmap. eapply Forall_impl; [done|].
  intros l; simpl. destruct (direction l); lia.
Qed.
Lemma credits_nonneg ls : positive_legs ls → 0 ≤ credits ls.
Proof.
  intros H. apply zsum_nonneg, Forall_fmap. eapply Forall_impl; [done|].
  intros l; simpl. destruct (direction l); lia.
Qed.

Lemma positive_legs_on i ls : positive_legs ls → positive_legs (legs_on i ls).
Proof.
  unfold positive_legs, legs_on. rewrite !Forall_forall. intros H l.
  rewrite list_elem_of_filter. naive_solver.
Qed.

(** The part of the debits (credits) on one account is at most the whole. *)
Lemma debits_on_le i ls : positive_legs ls → debits (legs_on i ls) ≤ debits ls.
Proof.
  induction 1 as [|l ls Hl Hls IH]; [done|].
  unfold legs_on in *. rewrite filter_cons.
  pose proof (debits_nonneg [l] ltac:(repeat constructor; done)) as Hd.
  change (debits (l :: ls)) with (debits ([l] ++ ls)). rewrite debits_app.
  case_decide; [|lia].
  change (l :: filter _ ls) with ([l] ++ filter (λ k, account_id k = i) ls).
  rewrite debits_app. lia.
Qed.
Lemma credits_on_le i ls : positive_legs ls → credits (legs_on i ls) ≤ credits ls.
Proof.
  induction 1 as [|l ls Hl Hls IH]; [done|].
  unfold legs_on in *. rewrite filter_cons.
  pose proof (credits_nonneg [l] ltac:(repeat constructor; done)) as Hd.
  change (credits (l :: ls)) with (credits ([l] ++ ls)). rewrite credits_app.
  case_decide; [|lia].
  change (l :: filter _ ls) with ([l] ++ filter (λ k, account_id k = i) ls).
  rewrite credits_app. lia.
Qed.
