(* ===== verification/Validation.v ===== *)
(** * Validation

    [src/validation.cpp]: the overflow-checked accumulation, the shape check of
    a transaction and the check against the committed account state, with the
    specification each of them decides. *)

From S2P Require Import Prelude Types.

(** ** The code *)

(** [checked_add(total, delta)] returns false on overflow ([None]); otherwise
    it stores the sum in [total]. *)
Definition checked_add (total delta : Z) : option Z :=
  if bool_decide (delta > 0) && bool_decide (total > INT64_MAX - delta) then None
  else if bool_decide (delta < 0) && bool_decide (total < INT64_MIN - delta) then None
  else Some (total + delta).

(** The loop of [validate_transaction_shape] over the legs: an early return, or
    the final debit and credit totals. *)
Fixpoint shape_loop (ls : list EntryLeg) (debit_total credit_total : Z) : LedgerError + Z * Z :=
  match ls with
  | [] => inr (debit_total, credit_total)
  | leg :: rest =>
      if bool_decide (amount leg ≤ 0) then inl LedgerError.ZeroAmountLeg
      else if bool_decide (direction leg = Debit) then
        match checked_add debit_total (amount leg) with
        | None => inl LedgerError.AmountOverflow
        | Some debit_total' => shape_loop rest debit_total' credit_total
        end
      else
        match checked_add credit_total (amount leg) with
        | None => inl LedgerError.AmountOverflow
        | Some credit_total' => shape_loop rest debit_total credit_total'
        end
  end.

Definition validate_transaction_shape (tx : Transaction) : ResultVoid :=
  let ls := LegList.span (legs tx) in
  if bool_decide (length ls < 2)%nat then LedgerError.TooFewLegs
  else if bool_decide (kMaxLegsPerTransaction < length ls)%nat then LedgerError.TooManyLegs
  else
    match shape_loop ls 0 0 with
    | inl e => e
    | inr (debit_total, credit_total) =>
        if bool_decide (debit_total ≠ credit_total) then LedgerError.UnbalancedTransaction
        else LedgerError.None
    end.

Record PendingDelta := mkPending { pd_account : AccountId; pd_delta : Amount }.

(** [AccountLookup]: a pointer to the account, or [nullptr]. *)
#[global] Abbreviation AccountLookup := (AccountId → option Account).

(** The inner loop: add [delta] to the entry of the account, or append one. *)
Fixpoint merge_pending (pending : list PendingDelta) (i : AccountId) (delta : Amount) :
    option (list PendingDelta) :=
  match pending with
  | [] => Some [mkPending i delta]
  | p :: rest =>
      if bool_decide (pd_account p = i) then
        d ← sadd64 (pd_delta p) delta;
        Some (mkPending (pd_account p) d :: rest)
      else
        rest' ← merge_pending rest i delta;
        Some (p :: rest')
  end.

(** The first loop: collect the net delta per account. *)
Fixpoint collect_pending (lookup : AccountLookup) (ls : list EntryLeg)
    (pending : list PendingDelta) : option (LedgerError + list PendingDelta) :=
  match ls with
  | [] => Some (inr pending)
  | leg :: rest =>
      match lookup (account_id leg) with
      | None => Some (inl LedgerError.AccountNotFound)
      | Some account =>
          delta ← signed_delta (type account) (direction leg) (amount leg);
          pending' ← merge_pending pending (account_id leg) delta;
          collect_pending lookup rest pending'
      end
  end.

(** The second loop: check the bound of each account once.  The looked-up
    pointer is dereferenced without a test. *)
Fixpoint check_pending (lookup : AccountLookup) (pending : list PendingDelta) :
    option ResultVoid :=
  match pending with
  | [] => Some LedgerError.None
  | p :: rest =>
      account ← lookup (pd_account p);
      projected_balance ← sadd64 (balance account) (pd_delta p);
      if is_debit_normal (type account) then
        floor ← sneg64 (overdraft_limit account);
        if bool_decide (projected_balance < floor) then Some LedgerError.InsufficientFunds
        else check_pending lookup rest
      else check_pending lookup rest
  end.

Definition validate_transaction_against_state (tx : Transaction) (lookup : AccountLookup) :
    option ResultVoid :=
  r ← collect_pending lookup (LegList.span (legs tx)) [];
  match r with
  | inl e => Some e
  | inr pending => check_pending lookup pending
  end.

(** ** The shape check decides a declarative verdict *)

(** Every leg so far is positive and neither total has overflowed. *)
Definition totals_ok (ls : list EntryLeg) : Prop :=
  positive_legs ls ∧ debits ls ≤ INT64_MAX ∧ credits ls ≤ INT64_MAX.

Inductive shape_verdict (ls : list EntryLeg) : LedgerError → Prop :=
  | shape_too_few :
      (length ls < 2)%nat → shape_verdict ls LedgerError.TooFewLegs
  | shape_too_many :
      (kMaxLegsPerTransaction < length ls)%nat → shape_verdict ls LedgerError.TooManyLegs
  | shape_zero pre l post :
      (2 ≤ length ls ≤ kMaxLegsPerTransaction)%nat →
      ls = pre ++ l :: post → totals_ok pre → amount l ≤ 0 →
      shape_verdict ls LedgerError.ZeroAmountLeg
  | shape_overflow pre l post :
      (2 ≤ length ls ≤ kMaxLegsPerTransaction)%nat →
      ls = pre ++ l :: post → totals_ok pre → 0 < amount l → ¬ totals_ok (pre ++ [l]) →
      shape_verdict ls LedgerError.AmountOverflow
  | shape_unbalanced :
      (2 ≤ length ls ≤ kMaxLegsPerTransaction)%nat →
      totals_ok ls → debits ls ≠ credits ls →
      shape_verdict ls LedgerError.UnbalancedTransaction
  | shape_balanced :
      (2 ≤ length ls ≤ kMaxLegsPerTransaction)%nat →
      totals_ok ls → debits ls = credits ls →
      shape_verdict ls LedgerError.None.

Lemma checked_add_spec total delta :
  s64_ok total →
  checked_add total delta = if decide (s64_ok (total + delta)) then Some (total + delta) else None.
Proof.
  intros Ht. unfold checked_add.
  repeat case_bool_decide; simpl; case_decide; range_lia || done.
Qed.

Lemma totals_ok_snoc ls l :
  totals_ok (ls ++ [l]) ↔
  totals_ok ls ∧ 0 < amount l ∧
  (if direction l is Debit then debits ls + amount l ≤ INT64_MAX
   else credits ls + amount l ≤ INT64_MAX).
Proof.
  unfold totals_ok, positive_legs. rewrite Forall_app, Forall_singleton, debits_app, credits_app.
  change (debits [l]) with ((if direction l is Debit then amount l else 0) + 0).
  change (credits [l]) with ((if direction l is Credit then amount l else 0) + 0).
  destruct (direction l); intuition lia.
Qed.

Lemma totals_ok_app_l ls ks : totals_ok (ls ++ ks) → totals_ok ls.
Proof.
  induction ks as [|k ks IH] using rev_ind; [by rewrite app_nil_r|].
  rewrite app_assoc, totals_ok_snoc. naive_solver.
Qed.

Lemma totals_ok_range ls : totals_ok ls → s64_ok (debits ls) ∧ s64_ok (credits ls).
Proof.
  intros (Hp & ? & ?). pose proof (debits_nonneg _ Hp). pose proof (credits_nonneg _ Hp).
  range_lia.
Qed.

(** What [shape_loop] returns on [ls] after the legs [pre]. *)
Definition shape_post (pre ls : list EntryLeg) (r : LedgerError + Z * Z) : Prop :=
  match r with
  | inr (d, c) => d = debits (pre ++ ls) ∧ c = credits (pre ++ ls) ∧ totals_ok (pre ++ ls)
  | inl e => ∃ mid l post, ls = mid ++ l :: post ∧ totals_ok (pre ++ mid) ∧
      ((e = LedgerError.ZeroAmountLeg ∧ amount l ≤ 0) ∨
       (e = LedgerError.AmountOverflow ∧ 0 < amount l ∧ ¬ totals_ok (pre ++ mid ++ [l])))
  end.

Lemma shape_post_step pre l ls r : shape_post (pre ++ [l]) ls r → shape_post pre (l :: ls) r.
Proof.
  destruct r as [e|[d c]]; simpl.
  - intros (mid & k & post & -> & ? & ?). exists (l :: mid), k, post.
    rewrite <- !app_assoc in *. auto.
  - by rewrite <- !app_assoc.
Qed.

Lemma shape_post_overflow pre l ls :
  totals_ok pre → 0 < amount l → ¬ totals_ok (pre ++ [l]) →
  shape_post pre (l :: ls) (inl LedgerError.AmountOverflow).
Proof. intros. exists [], l, ls. rewrite app_nil_r. simpl. auto 8. Qed.

Lemma shape_loop_spec ls pre :
  totals_ok pre → shape_post pre ls (shape_loop ls (debits pre) (credits pre)).
Proof.
  revert pre. induction ls as [|l ls IH]; intros pre Hpre; cbn [shape_loop].
  { simpl. by rewrite app_nil_r. }
  case_bool_decide as Hamt.
  { exists [], l, ls. rewrite app_nil_r. auto. }
  destruct (totals_ok_range _ Hpre) as [Hd Hc].
  pose proof (debits_nonneg pre (proj1 Hpre)). pose proof (credits_nonneg pre (proj1 Hpre)).
  pose proof (totals_ok_snoc pre l) as Hsnoc. specialize (IH (pre ++ [l])).
  rewrite debits_app, credits_app in IH. cbn in IH.
  case_bool_decide as Hdir; [rewrite Hdir in *|destruct (direction l) eqn:Hcr; [done|]];
    rewrite checked_add_spec, !Z.add_0_r in * by done;
    (case_decide as Hr; [apply shape_post_step, IH, Hsnoc; split; [done|range_lia] |
      apply shape_post_overflow; [done|lia|rewrite Hsnoc; range_lia]]).
Qed.

Lemma validate_transaction_shape_verdict tx :
  shape_verdict (tx_legs tx) (validate_transaction_shape tx).
Proof.
  unfold validate_transaction_shape, tx_legs. set (ls := LegList.span (legs tx)).
  case_bool_decide; [by constructor|]. case_bool_decide; [by constructor|].
  pose proof (shape_loop_spec ls []) as Hspec. specialize (Hspec ltac:(by repeat constructor)).
  change (debits []) with 0 in Hspec. change (credits []) with 0 in Hspec.
  destruct (shape_loop ls 0 0) as [e|[d c]]; simpl in Hspec.
  - destruct Hspec as (pre & l & post & Hls & ? & [[-> ?]|[-> [? ?]]]).
    + eapply shape_zero; eauto with lia.
    + eapply shape_overflow; eauto with lia.
  - destruct Hspec as (-> & -> & ?). case_bool_decide; constructor; auto with lia.
Qed.

(** Two splits of a list at a leg where the totals first go wrong coincide. *)
Lemma first_bad_unique ls pre l post pre' l' post' :
  ls = pre ++ l :: post → ls = pre' ++ l' :: post' →
  totals_ok pre → ¬ totals_ok (pre ++ [l]) → totals_ok pre' → ¬ totals_ok (pre' ++ [l']) →
  pre = pre' ∧ l = l'.
Proof.
  assert (∀ (p q r s : list EntryLeg) a b, p ++ a :: q = r ++ b :: s →
    (length p < length r)%nat → ¬ totals_ok (p ++ [a]) → totals_ok r → False) as Haux.
  { intros p q r s a b Heq Hlt Hbad Hok. apply Hbad.
    replace (p ++ [a]) with (take (S (length p)) r).
    { eapply totals_ok_app_l. by rewrite take_drop. }
    apply (f_equal (take (S (length p)))) in Heq.
    rewrite (cons_middle a), app_assoc, take_app_length' in Heq by (len).
    by rewrite take_app_le in Heq by lia. }
  intros -> Heq Hp Hb Hp' Hb'.
  destruct (Nat.lt_total (length pre) (length pre')) as [?|[Hlen|?]].
  - exfalso; eauto.
  - apply app_inj_1 in Heq; [|done]. naive_solver.
  - exfalso; eauto.
Qed.

Lemma totals_ok_zero pre l : amount l ≤ 0 → ¬ totals_ok (pre ++ [l]).
Proof. rewrite totals_ok_snoc. lia. Qed.

Lemma totals_ok_whole ls pre l post :
  ls = pre ++ l :: post → ¬ totals_ok (pre ++ [l]) → ¬ totals_ok ls.
Proof.
  intros -> Hbad Hok. apply Hbad. rewrite cons_middle, app_assoc in Hok.
  by eapply totals_ok_app_l.
Qed.

Lemma shape_verdict_det ls e e' : shape_verdict ls e → shape_verdict ls e' → e = e'.
Proof.
  assert (∀ pre l post pre' l' post', ls = pre ++ l :: post → ls = pre' ++ l' :: post' →
    totals_ok pre → totals_ok pre' → amount l ≤ 0 → 0 < amount l' →
    ¬ totals_ok (pre' ++ [l']) → False) as Haux.
  { intros pre l post pre' l' post' H1 H2 ?????.
    destruct (first_bad_unique _ _ _ _ _ _ _ H1 H2) as [-> ->]; eauto using totals_ok_zero. lia. }
  intros H H'. destruct H, H'; try done; unfold kMaxLegsPerTransaction in *; try lia; exfalso;
    match goal with
    | Hz : amount ?k ≤ 0, Hb : ¬ totals_ok _ |- _ =>
        eapply Haux; [..|exact Hz| |exact Hb]; eassumption
    | Hls : ls = _, Hb : ¬ totals_ok _, Hok : totals_ok ls |- _ =>
        by eapply (totals_ok_whole _ _ _ _ Hls Hb)
    | Hls : ls = _, Hz : amount ?k ≤ 0, Hok : totals_ok ls |- _ =>
        by eapply (totals_ok_whole _ _ _ _ Hls (totals_ok_zero _ _ Hz))
    end.
Qed.

(** C21: The shape check computes exactly the verdict of the specification, on every
    branch: which legs count, which error wins, and when the transaction is
    accepted. *)
Theorem validate_transaction_shape_correct tx e :
  validate_transaction_shape tx = e ↔ shape_verdict (tx_legs tx) e.
Proof.
  split; [intros <-; apply validate_transaction_shape_verdict|].
  intros H. eapply shape_verdict_det; [apply validate_transaction_shape_verdict|done].
Qed.

(** A transaction whose shape was accepted. *)
Definition shape_valid (tx : Transaction) : Prop :=
  validate_transaction_shape tx = LedgerError.None.

Lemma shape_valid_inv tx :
  shape_valid tx →
  (2 ≤ length (tx_legs tx) ≤ kMaxLegsPerTransaction)%nat ∧
  totals_ok (tx_legs tx) ∧ debits (tx_legs tx) = credits (tx_legs tx).
Proof.
  intros H. pose proof (validate_transaction_shape_verdict tx) as Hv.
  rewrite H in Hv. by inversion Hv.
Qed.

Lemma shape_valid_net tx : shape_valid tx → net (tx_legs tx) = 0.
Proof. intros (_ & _ & H)%shape_valid_inv. rewrite net_debits_credits. lia. Qed.

Lemma totals_ok_leg ls l : totals_ok ls → l ∈ ls → 0 < amount l ≤ INT64_MAX.
Proof.
  intros Hok (pre & post & ->)%list_elem_of_split.
  rewrite cons_middle, app_assoc in Hok. apply totals_ok_app_l in Hok.
  pose proof (totals_ok_app_l _ _ Hok) as [Hp _].
  pose proof (debits_nonneg _ Hp). pose proof (credits_nonneg _ Hp).
  apply totals_ok_snoc in Hok. destruct (direction l); range_lia.
Qed.

(** The net movement of one account stays in the range of [Amount]: this is why
    accumulating the pending deltas never overflows. *)
Lemma net_on_range ls i : totals_ok ls → - INT64_MAX ≤ net (legs_on i ls) ≤ INT64_MAX.
Proof.
  intros (Hp & ? & ?). rewrite net_debits_credits.
  pose proof (debits_on_le i _ Hp). pose proof (credits_on_le i _ Hp).
  pose proof (debits_nonneg _ (positive_legs_on i _ Hp)).
  pose proof (credits_nonneg _ (positive_legs_on i _ Hp)). lia.
Qed.

(** ** The pending deltas *)

Section Pending.
Context (lookup : AccountLookup).

(** The pending table after the legs [ls]: one entry per account, in order of
    first appearance, holding the account's net movement. *)
Definition pending_inv (ls : list EntryLeg) (pending : list PendingDelta) : Prop :=
  NoDup (pd_account <$> pending) ∧
  (∀ i, i ∈ pd_account <$> pending ↔ i ∈ account_id <$> ls) ∧
  Forall (λ p, ∃ a, lookup (pd_account p) = Some a ∧
    pd_delta p = normal_sign (type a) * net (legs_on (pd_account p) ls)) pending ∧
  (length pending ≤ length ls)%nat.

Lemma legs_on_snoc i ls l :
  legs_on i (ls ++ [l]) = if decide (account_id l = i) then legs_on i ls ++ [l] else legs_on i ls.
Proof.
  rewrite legs_on_app. unfold legs_on at 2. rewrite filter_cons, filter_nil.
  case_decide; [done|]. by rewrite app_nil_r.
Qed.

Lemma legs_on_fresh i ls : i ∉ account_id <$> ls → legs_on i ls = [].
Proof.
  unfold legs_on. induction ls as [|l ls IH]; csimpl; [done|].
  intros [? ?]%not_elem_of_cons. rewrite filter_cons_False by congruence. auto.
Qed.

Lemma merge_pending_fresh pending i d :
  i ∉ pd_account <$> pending → merge_pending pending i d = Some (pending ++ [mkPending i d]).
Proof.
  induction pending as [|p rest IH]; csimpl; [done|]. intros [? ?]%not_elem_of_cons.
  rewrite bool_decide_false by congruence. by rewrite IH.
Qed.

Lemma merge_pending_found pre p post i d :
  i ∉ pd_account <$> pre → pd_account p = i → s64_ok (pd_delta p + d) →
  merge_pending (pre ++ p :: post) i d = Some (pre ++ mkPending i (pd_delta p + d) :: post).
Proof.
  intros Hni Hp Hr. induction pre as [|q pre IH]; csimpl in *.
  - rewrite bool_decide_true, sadd64_ok by done. simpl. by rewrite Hp.
  - apply not_elem_of_cons in Hni as [? ?]. rewrite bool_decide_false by congruence.
    by rewrite IH.
Qed.

Lemma Forall_pending_snoc ls l pending :
  account_id l ∉ pd_account <$> pending →
  Forall (λ p, ∃ a, lookup (pd_account p) = Some a ∧
    pd_delta p = normal_sign (type a) * net (legs_on (pd_account p) ls)) pending →
  Forall (λ p, ∃ a, lookup (pd_account p) = Some a ∧
    pd_delta p = normal_sign (type a) * net (legs_on (pd_account p) (ls ++ [l]))) pending.
Proof.
  intros Hni. rewrite !Forall_forall. intros H p Hp.
  destruct (H p Hp) as (a & ? & ?). exists a. split; [done|].
  rewrite legs_on_snoc, decide_False; [done|].
  intros Heq. apply Hni. rewrite Heq. by apply list_elem_of_fmap_2.
Qed.

Lemma merge_pending_inv_found ls l a pending :
  pending_inv ls pending → lookup (account_id l) = Some a → totals_ok (ls ++ [l]) →
  account_id l ∈ pd_account <$> pending →
  ∃ pending', merge_pending pending (account_id l) (normal_sign (type a) * leg_value l)
    = Some pending' ∧ pending_inv (ls ++ [l]) pending'.
Proof.
  intros (Hnd & Hdom & Hall & Hlen) Ha Hok Hin.
  apply list_elem_of_fmap in Hin as (p & Hpa & Hp).
  apply list_elem_of_split in Hp as (pre & post & ->).
  rewrite fmap_app in *; csimpl in *.
  apply NoDup_app in Hnd as (? & Hdisj & Hnd2). apply NoDup_cons in Hnd2 as [? ?].
  rewrite Forall_app, Forall_cons in Hall.
  destruct Hall as (Hpre & (a' & Ha' & Hd) & Hpost).
  rewrite <- Hpa, Ha in Ha'. injection Ha' as <-.
  pose proof (net_on_range _ (account_id l) Hok) as Hr.
  assert (pd_delta p + normal_sign (type a) * leg_value l =
    normal_sign (type a) * net (legs_on (account_id l) (ls ++ [l]))) as Heq.
  { rewrite Hd, <- Hpa, legs_on_snoc, decide_True, net_app by done.
    change (net [l]) with (leg_value l + 0). lia. }
  assert (account_id l ∉ pd_account <$> pre) as Hnpre.
  { rewrite Hpa. intros Hc. eapply Hdisj; [exact Hc|]. left. }
  eexists; split; [apply merge_pending_found; [done..|]|].
  { rewrite Heq. unfold normal_sign. case_match; range_lia. }
  split_and!.
  - rewrite fmap_app; csimpl. rewrite Hpa. apply NoDup_app. split_and!; [done..|].
    by apply NoDup_cons.
  - intros i. rewrite fmap_app, elem_of_app; csimpl.
    rewrite (fmap_app account_id), elem_of_app, <- Hdom, elem_of_app; csimpl.
    rewrite Hpa, !elem_of_cons. set_solver.
  - rewrite Forall_app, Forall_cons. split_and!; [by apply Forall_pending_snoc| |].
    + exists a. simpl. by rewrite Heq.
    + apply Forall_pending_snoc; [by rewrite Hpa|done].
  - rewrite !length_app in *; simpl in *. lia.
Qed.

Lemma merge_pending_inv_fresh ls l a pending :
  pending_inv ls pending → lookup (account_id l) = Some a →
  account_id l ∉ pd_account <$> pending →
  ∃ pending', merge_pending pending (account_id l) (normal_sign (type a) * leg_value l)
    = Some pending' ∧ pending_inv (ls ++ [l]) pending'.
Proof.
  intros (Hnd & Hdom & Hall & Hlen) Ha Hni.
  rewrite merge_pending_fresh by done. eexists; split; [done|]. split_and!.
  - rewrite fmap_app; csimpl. apply NoDup_app. split_and!; [done| |apply NoDup_singleton].
    intros i Hi ->%list_elem_of_singleton. done.
  - intros i. by rewrite !fmap_app, !elem_of_app, Hdom.
  - rewrite Forall_app, Forall_singleton. split; [by apply Forall_pending_snoc|].
    exists a. simpl. split; [done|].
    rewrite legs_on_snoc, decide_True, legs_on_fresh by (rewrite <- ?Hdom; done).
    unfold net; simpl. lia.
  - rewrite !length_app; simpl. lia.
Qed.

Lemma merge_pending_inv ls l a pending :
  pending_inv ls pending → lookup (account_id l) = Some a → totals_ok (ls ++ [l]) →
  ∃ pending', merge_pending pending (account_id l) (normal_sign (type a) * leg_value l)
    = Some pending' ∧ pending_inv (ls ++ [l]) pending'.
Proof.
  intros. destruct (decide (account_id l ∈ pd_account <$> pending));
    eauto using merge_pending_inv_found, merge_pending_inv_fresh.
Qed.

(** Every account a leg names exists. *)
Definition accounts_exist (ls : list EntryLeg) : Prop :=
  Forall (λ l, is_Some (lookup (account_id l))) ls.

#[export] Instance accounts_exist_dec ls : Decision (accounts_exist ls).
Proof. unfold accounts_exist. apply _. Defined.

Lemma collect_pending_spec ls pre pending :
  pending_inv pre pending → totals_ok (pre ++ ls) →
  if decide (accounts_exist ls)
  then ∃ pending', collect_pending lookup ls pending = Some (inr pending') ∧
    pending_inv (pre ++ ls) pending'
  else collect_pending lookup ls pending = Some (inl LedgerError.AccountNotFound).
Proof.
  revert pre pending. induction ls as [|l ls IH]; intros pre pending Hinv Hok.
  { rewrite decide_True by constructor. rewrite app_nil_r. eauto. }
  rewrite cons_middle, app_assoc in Hok.
  pose proof (totals_ok_leg _ l Hok ltac:(set_solver)) as Hamt.
  cbn [collect_pending]. unfold accounts_exist in *.
  destruct (lookup (account_id l)) as [a|] eqn:Ha;
    [|rewrite decide_False; [done|rewrite Forall_cons, Ha; intros [[? ?] ?]; done]].
  rewrite signed_delta_eq by lia. simpl.
  destruct (merge_pending_inv _ _ _ _ Hinv Ha (totals_ok_app_l _ _ Hok))
    as (pending' & -> & Hinv'). simpl.
  specialize (IH _ _ Hinv' Hok). rewrite <- app_assoc in IH. simpl in IH.
  repeat case_decide; rewrite ?Forall_cons, ?Ha in *; naive_solver.
Qed.

(** What the code calls the projected balance of an account. *)
Definition projected (ls : list EntryLeg) (i : AccountId) (a : Account) : Z :=
  balance a + normal_sign (type a) * net (legs_on i ls).

(** The projected balance respects the overdraft bound of the account. *)
Definition within_bounds (ls : list EntryLeg) (i : AccountId) (a : Account) : Prop :=
  is_debit_normal (type a) = true → - overdraft_limit a ≤ projected ls i a.

Lemma check_pending_cons p rest a :
  lookup (pd_account p) = Some a → INT64_MIN < overdraft_limit a ≤ INT64_MAX →
  check_pending lookup (p :: rest) =
    if decide (s64_ok (balance a + pd_delta p)) then
      if decide (is_debit_normal (type a) = true ∧ balance a + pd_delta p < - overdraft_limit a)
      then Some LedgerError.InsufficientFunds else check_pending lookup rest
    else None.
Proof.
  intros Ha Hl. cbn [check_pending]. rewrite Ha. cbn. unfold sadd64.
  destruct (decide (s64_ok (balance a + pd_delta p))) as [Hs|Hs]; [|done]. cbn.
  destruct (is_debit_normal (type a)) eqn:Hdn; [|by rewrite decide_False by naive_solver].
  rewrite sneg64_ok by range_lia. cbn. case_bool_decide; case_decide; naive_solver.
Qed.

(** Accounts as the engine keeps them: fields in range, and an overdraft limit
    that can be negated. *)
Definition lookup_ok : Prop :=
  ∀ i a, lookup i = Some a → account_ok a ∧ INT64_MIN < overdraft_limit a.

Lemma check_pending_accepts ls pending :
  lookup_ok →
  Forall (λ p, ∃ a, lookup (pd_account p) = Some a ∧
    pd_delta p = normal_sign (type a) * net (legs_on (pd_account p) ls)) pending →
  check_pending lookup pending = Some LedgerError.None ↔
  (∀ i a, i ∈ pd_account <$> pending → lookup i = Some a →
    s64_ok (projected ls i a) ∧ within_bounds ls i a).
Proof.
  intros Hok. induction 1 as [|p rest (a & Ha & Hd) Hrest IH].
  { split; [|done]. intros _ i a Hi. by apply elem_of_nil in Hi. }
  destruct (Hok _ _ Ha) as [(_ & _ & _ & Hl) Hl'].
  rewrite (check_pending_cons p rest a) by (done || range_lia).
  unfold within_bounds, projected in *. rewrite Hd. csimpl. split.
  - intros Hc i b Hi Hb.
    case_decide; [|done]. case_decide; [done|].
    apply elem_of_cons in Hi as [->|Hi]; [|by apply IH].
    rewrite Ha in Hb. injection Hb as <-. split; [done|].
    intros ?. apply Z.nlt_ge. naive_solver.
  - intros Hall. destruct (Hall (pd_account p) a) as [? Hw]; [left|done|].
    rewrite decide_True, decide_False by (done || (intros [Hdn ?]; specialize (Hw Hdn); lia)).
    apply IH. intros i b ? ?. apply Hall; [by right|done].
Qed.

Lemma check_pending_rejects ls pending :
  lookup_ok →
  Forall (λ p, ∃ a, lookup (pd_account p) = Some a ∧
    pd_delta p = normal_sign (type a) * net (legs_on (pd_account p) ls)) pending →
  (∀ i a, i ∈ pd_account <$> pending → lookup i = Some a → s64_ok (projected ls i a)) →
  check_pending lookup pending = Some LedgerError.InsufficientFunds ↔
  (∃ i a, i ∈ pd_account <$> pending ∧ lookup i = Some a ∧ ¬ within_bounds ls i a).
Proof.
  intros Hok. induction 1 as [|p rest (a & Ha & Hd) Hrest IH]; intros Hs.
  { split; [done|]. intros (i & a & Hi & _). by apply elem_of_nil in Hi. }
  destruct (Hok _ _ Ha) as [(_ & _ & _ & Hl) Hl'].
  rewrite (check_pending_cons p rest a) by (done || range_lia).
  pose proof (Hs (pd_account p) a ltac:(left) Ha) as Hp.
  unfold within_bounds, projected in *. rewrite Hd, decide_True by done. csimpl.
  assert (∀ i b, i ∈ pd_account <$> rest → lookup i = Some b →
    s64_ok (balance b + normal_sign (type b) * net (legs_on i ls))) as Hs'.
  { intros. apply Hs; [by right|done]. }
  case_decide as Hc.
  - split; [intros _|done]. exists (pd_account p), a. split_and!; [left|done|].
    intros Hw. specialize (Hw (proj1 Hc)). lia.
  - rewrite IH by done. split.
    + intros (i & b & ? & ?). exists i, b. split; [by right|done].
    + intros (i & b & [->|Hi]%elem_of_cons & Hb & Hw); [|eauto].
      exfalso. rewrite Ha in Hb. injection Hb as <-. apply Hw.
      intros ?. apply Z.nlt_ge. naive_solver.
Qed.

End Pending.

(** The answers of the check against the state. *)
Inductive against_verdict (lookup : AccountLookup) (ls : list EntryLeg) : LedgerError → Prop :=
  | against_not_found :
      ¬ accounts_exist lookup ls → against_verdict lookup ls LedgerError.AccountNotFound
  | against_insufficient i a :
      accounts_exist lookup ls → i ∈ account_id <$> ls → lookup i = Some a →
      ¬ within_bounds ls i a → against_verdict lookup ls LedgerError.InsufficientFunds
  | against_accepted :
      accounts_exist lookup ls →
      (∀ i a, i ∈ account_id <$> ls → lookup i = Some a → within_bounds ls i a) →
      against_verdict lookup ls LedgerError.None.

(** No projected balance overflows. *)
Definition projections_ok (lookup : AccountLookup) (ls : list EntryLeg) : Prop :=
  ∀ i a, i ∈ account_id <$> ls → lookup i = Some a → s64_ok (projected ls i a).

Lemma validate_against_state_pending tx lookup :
  shape_valid tx →
  if decide (accounts_exist lookup (tx_legs tx))
  then ∃ pending, pending_inv lookup (tx_legs tx) pending ∧
    validate_transaction_against_state tx lookup = check_pending lookup pending
  else validate_transaction_against_state tx lookup = Some LedgerError.AccountNotFound.
Proof.
  intros (_ & Hok & _)%shape_valid_inv.
  pose proof (collect_pending_spec lookup (tx_legs tx) [] []) as Hc.
  specialize (Hc ltac:(by repeat split; try constructor; rewrite ?elem_of_nil) Hok).
  unfold validate_transaction_against_state, tx_legs in *.
  case_decide; [|by rewrite Hc]. destruct Hc as (pending & -> & ?). eauto.
Qed.

#[export] Instance within_bounds_dec ls i a : Decision (within_bounds ls i a).
Proof. unfold within_bounds. apply _. Defined.

Lemma against_verdict_ex lookup ls : ∃ e, against_verdict lookup ls e.
Proof.
  destruct (decide (accounts_exist lookup ls)) as [Hac|]; [|by eexists; constructor].
  destruct (decide (Exists (λ i, match lookup i with
    Some a => bool_decide (¬ within_bounds ls i a) | None => false end = true)
    (account_id <$> ls))) as [Hex|Hall].
  - apply Exists_exists in Hex as (i & Hi & Hm). case_match eqn:Ha; [|done].
    apply bool_decide_eq_true in Hm. eexists. by eapply against_insufficient.
  - exists LedgerError.None. constructor; [done|]. intros i a Hi Ha.
    destruct (decide (within_bounds ls i a)); [done|]. destruct Hall.
    apply Exists_exists. exists i. by rewrite Ha, bool_decide_true.
Qed.

(** The accepting branch, without any assumption on the balances: a transaction
    of valid shape is accepted exactly when every account exists, every
    projected balance is representable, and every debit-normal account stays
    above its overdraft floor. *)
Lemma validate_against_state_accepts tx lookup :
  shape_valid tx → lookup_ok lookup →
  validate_transaction_against_state tx lookup = Some LedgerError.None ↔
  accounts_exist lookup (tx_legs tx) ∧ projections_ok lookup (tx_legs tx) ∧
  against_verdict lookup (tx_legs tx) LedgerError.None.
Proof.
  intros Hs Hl. pose proof (validate_against_state_pending tx lookup Hs) as Hv.
  case_decide as Hex; [|rewrite Hv; naive_solver].
  destruct Hv as (pending & (_ & Hdom & Hall & _) & ->).
  rewrite (check_pending_accepts lookup _ _ Hl Hall). setoid_rewrite Hdom.
  split.
  - intros H. split_and!; [done|intros i a ? ?; by eapply H|].
    constructor; [done|]. intros i a ? ?. by eapply H.
  - intros (_ & Hp & Hv) i a Hi Ha. inversion Hv; eauto.
Qed.

Lemma validate_against_state_verdict tx lookup e :
  shape_valid tx → lookup_ok lookup → projections_ok lookup (tx_legs tx) →
  validate_transaction_against_state tx lookup = Some e ↔ against_verdict lookup (tx_legs tx) e.
Proof.
  intros Hs Hl Hp.
  assert (∀ e', against_verdict lookup (tx_legs tx) e' →
    validate_transaction_against_state tx lookup = Some e') as Himp.
  { intros e' Hv. pose proof (validate_against_state_pending tx lookup Hs) as Hpend.
    inversion Hv as [Hno|i a Hex Hi Ha Hw|Hex Hall]; subst.
    - by rewrite decide_False in Hpend.
    - rewrite decide_True in Hpend by done.
      destruct Hpend as (pending & (_ & Hdom & Hall & _) & ->).
      apply (check_pending_rejects _ _ _ Hl Hall); setoid_rewrite Hdom; eauto.
    - by apply validate_against_state_accepts. }
  split; [|apply Himp]. intros He.
  destruct (against_verdict_ex lookup (tx_legs tx)) as [e' He'].
  pose proof (Himp _ He'). naive_solver.
Qed.

(** C20: For a transaction that passes the shape check, against accounts with fields in
    range, and when no projected balance overflows, the check returns (it runs into no
    undefined behaviour) and its answer is the specified one: [AccountNotFound] if an
    account is missing, else [InsufficientFunds] if a projected balance is below its
    floor, else success.  Without the bound it may overflow
    ([against_state_overflow_reachable]). *)
Theorem validate_transaction_against_state_correct tx lookup e :
  shape_valid tx → lookup_ok lookup → projections_ok lookup (tx_legs tx) →
  validate_transaction_against_state tx lookup = Some e ↔ against_verdict lookup (tx_legs tx) e.
Proof. apply validate_against_state_verdict. Qed.

(** *** A concrete instance: the overdraft scenario of [tests/test_validation.cpp] *)

Module OverdraftExample.
Definition checking : Account := mkAccount 1 Asset 500 200.
Definition revenue : Account := mkAccount 2 Revenue 0 0.
Definition lookup (i : AccountId) : option Account :=
  if bool_decide (i = 1) then Some checking
  else if bool_decide (i = 2) then Some revenue else None.
Definition withdraw (n : Amount) : Transaction :=
  mkTx 5 (mkKey 0 0) 0 (LegList.of_list [mkLeg 2 Debit n; mkLeg 1 Credit n]).

Lemma lookup_is_ok : lookup_ok lookup.
Proof.
  intros i a. unfold lookup. repeat case_bool_decide; intros [= <-]; vm_compute; intuition congruence.
Qed.
Lemma withdraw_legs n : tx_legs (withdraw n) = [mkLeg 2 Debit n; mkLeg 1 Credit n].
Proof. done. Qed.
Lemma withdraw_projections n :
  0 < n < 1000 → projections_ok lookup (tx_legs (withdraw n)).
Proof.
  intros Hn i a. rewrite withdraw_legs. unfold lookup, projected.
  repeat case_bool_decide; subst; intros _ [= <-]; unfold net, legs_on, normal_sign; simpl;
    unfold leg_value; simpl; range_lia.
Qed.
End OverdraftExample.

Lemma validate_transaction_against_state_correct_witness :
  validate_transaction_against_state (OverdraftExample.withdraw 800) OverdraftExample.lookup
    = Some LedgerError.InsufficientFunds ∧
  against_verdict OverdraftExample.lookup (tx_legs (OverdraftExample.withdraw 700)) LedgerError.None.
Proof.
  split; [done|].
  apply (validate_transaction_against_state_correct (OverdraftExample.withdraw 700)).
  - reflexivity.
  - apply OverdraftExample.lookup_is_ok.
  - apply OverdraftExample.withdraw_projections. lia.
  - reflexivity.
Defined.

(** The addition [account->balance + pending[i].delta] is not checked: a
    transaction that passes the shape check, against accounts whose fields are
    all in range, can drive it out of [std::int64_t]. *)
Theorem against_state_overflow_reachable :
  ∃ tx lookup, tx_ok tx ∧ shape_valid tx ∧ lookup_ok lookup ∧
    accounts_exist lookup (tx_legs tx) ∧
    validate_transaction_against_state tx lookup = None.
Proof.
  exists (mkTx 1 (mkKey 1 1) 0 (LegList.of_list [mkLeg 1 Debit 1; mkLeg 2 Credit 1])).
  exists (λ i, if bool_decide (i = 1) then Some (mkAccount 1 Asset INT64_MAX 0)
    else if bool_decide (i = 2) then Some (mkAccount 2 Revenue INT64_MAX 0) else None).
  split_and!; [by_compute|reflexivity| | |reflexivity].
  - intros i a. repeat case_bool_decide; intros [= <-]; vm_compute; intuition congruence.
  - by repeat constructor; eexists.
Qed.
