(* ===== verification/LedgerState.v ===== *)
(** * In-memory ledger state

    [include/ledger/ledger_state.hpp] and [src/ledger_state.cpp]: the account
    table, applying a transaction, the trial balance, and the store with its
    published snapshot. *)

From S2P Require Import Prelude Types Validation.

(** ** The code *)

(** [std::unordered_map<AccountId, Account>] as a finite map; what depends on
    the order of its iteration takes that order as an argument. *)
Record LedgerState := mkState {
  accounts_ : gmap Z Account;
  last_applied_id_ : TransactionId
}.

(** [LedgerState{}]. *)
Definition empty_state : LedgerState := mkState ∅ 0.

Definition add_account (st : LedgerState) (account : Account) : bool * LedgerState :=
  match accounts_ st !! acc_id account with
  | Some _ => (false, st)
  | None => (true, mkState (<[acc_id account := account]> (accounts_ st)) (last_applied_id_ st))
  end.

Definition find_account (st : LedgerState) (i : AccountId) : option Account := accounts_ st !! i.

Definition last_applied_id (st : LedgerState) : TransactionId := last_applied_id_ st.
Definition set_last_applied_id (st : LedgerState) (i : TransactionId) : LedgerState :=
  mkState (accounts_ st) i.

(** [account->balance = b] through the pointer [find_account_mut] returned. *)
Definition set_balance (a : Account) (b : Amount) : Account :=
  mkAccount (acc_id a) (type a) b (overdraft_limit a).
Definition update_account (st : LedgerState) (i : AccountId) (a : Account) : LedgerState :=
  mkState (<[i := a]> (accounts_ st)) (last_applied_id_ st).

(** The loop of [LedgerState::apply]: a missing account stops it with the
    earlier legs already applied. *)
Fixpoint apply_legs (st : LedgerState) (ls : list EntryLeg) : option (LedgerState * ResultVoid) :=
  match ls with
  | [] => Some (st, LedgerError.None)
  | leg :: rest =>
      match find_account st (account_id leg) with
      | None => Some (st, LedgerError.AccountNotFound)
      | Some account =>
          delta ← signed_delta (type account) (direction leg) (amount leg);
          b ← sadd64 (balance account) delta;
          apply_legs (update_account st (account_id leg) (set_balance account b)) rest
      end
  end.

Definition apply (st : LedgerState) (tx : Transaction) : option (LedgerState * ResultVoid) :=
  '(st', r) ← apply_legs st (LegList.span (legs tx));
  if has_value r then
    Some (if bool_decide (last_applied_id_ st' < id tx) then set_last_applied_id st' (id tx)
          else st', LedgerError.None)
  else Some (st', r).

(** The loop of [validate_trial_balance] over [order], the sequence in which
    the range-for visits the accounts. *)
Fixpoint trial_balance_loop (order : list (AccountId * Account)) (dn cn : Z) : option (Z * Z) :=
  match order with
  | [] => Some (dn, cn)
  | (_, account) :: rest =>
      if is_debit_normal (type account) then
        dn' ← sadd64 dn (balance account); trial_balance_loop rest dn' cn
      else
        cn' ← sadd64 cn (balance account); trial_balance_loop rest dn cn'
  end.

Definition validate_trial_balance (order : list (AccountId * Account)) : option ResultVoid :=
  '(debit_normal_total, credit_normal_total) ← trial_balance_loop order 0 0;
  Some (if bool_decide (debit_normal_total ≠ credit_normal_total)
        then LedgerError.TrialBalanceMismatch else LedgerError.None).

(** A sequence in which [state.accounts()] can be visited. *)
Definition iterates (st : LedgerState) (order : list (AccountId * Account)) : Prop :=
  order ≡ₚ map_to_list (accounts_ st).

#[export] Instance iterates_dec st order : Decision (iterates st order).
Proof. unfold iterates. apply _. Defined.

(** [LedgerStateStore]: the writer's working copy and the published snapshot.
    A published [shared_ptr<const LedgerState>] is immutable, so it is a value. *)
Record LedgerStateStore := mkStore { working_ : LedgerState; published_ : LedgerState }.
Definition new_store : LedgerStateStore := mkStore empty_state empty_state.
Definition working_copy (s : LedgerStateStore) : LedgerState := working_ s.
Definition set_working_copy (s : LedgerStateStore) (st : LedgerState) : LedgerStateStore :=
  mkStore st (published_ s).
Definition publish_snapshot (s : LedgerStateStore) : LedgerStateStore :=
  mkStore (working_ s) (working_ s).
Definition snapshot (s : LedgerStateStore) : LedgerState := published_ s.

(** ** Invariants *)

(** The class invariant: accounts are stored under their id, with fields in
    range and an overdraft limit that can be negated. *)
Definition state_wf (st : LedgerState) : Prop :=
  u64_ok (last_applied_id_ st) ∧
  map_Forall (λ i a, acc_id a = i ∧ account_ok a ∧ INT64_MIN < overdraft_limit a) (accounts_ st).

#[export] Instance state_wf_dec st : Decision (state_wf st).
Proof. unfold state_wf. apply _. Defined.

(** Debit-normal balances minus credit-normal balances, in exact arithmetic. *)
Definition imbalance (st : LedgerState) : Z :=
  map_zsum (λ a, normal_sign (type a) * balance a) (accounts_ st).

(** No debit-normal account is below its overdraft floor. *)
Definition solvent (st : LedgerState) : Prop :=
  map_Forall (λ _ a, is_debit_normal (type a) = true → - overdraft_limit a ≤ balance a)
    (accounts_ st).

#[export] Instance solvent_dec st : Decision (solvent st).
Proof. unfold solvent. apply _. Defined.

(** The state after the legs [ls] in exact arithmetic. *)
Definition post_account (ls : list EntryLeg) (i : AccountId) (a : Account) : Account :=
  set_balance a (projected ls i a).

(** The balances reached while the legs are applied one by one stay in range. *)
Definition prefixes_ok (st : LedgerState) (ls : list EntryLeg) : Prop :=
  ∀ n i a, i ∈ account_id <$> take n ls → accounts_ st !! i = Some a →
    s64_ok (projected (take n ls) i a).

(** ** Applying legs *)

Definition post_accounts (ls : list EntryLeg) (m : gmap Z Account) : gmap Z Account :=
  map_imap (λ i a, Some (post_account ls i a)) m.

Lemma lookup_post_accounts ls m i : post_accounts ls m !! i = post_account ls i <$> m !! i.
Proof. unfold post_accounts. rewrite map_lookup_imap. by destruct (m !! i). Qed.

Lemma post_accounts_nil m : post_accounts [] m = m.
Proof.
  apply map_eq. intros i. rewrite lookup_post_accounts.
  destruct (m !! i) as [[? ? b ?]|]; [|done]. simpl. do 2 f_equal.
  unfold post_account, set_balance, projected, net; simpl. f_equal. lia.
Qed.

Lemma legs_on_cons i l ls :
  legs_on i (l :: ls) = if decide (account_id l = i) then l :: legs_on i ls else legs_on i ls.
Proof. unfold legs_on. by rewrite filter_cons. Qed.

(** Moving an account by one leg and then by the others is moving it by all. *)
Definition leg_account (l : EntryLeg) (a : Account) : Account :=
  set_balance a (balance a + normal_sign (type a) * leg_value l).

Lemma projected_cons l ls a :
  projected ls (account_id l) (leg_account l a) = projected (l :: ls) (account_id l) a.
Proof. unfold projected. rewrite legs_on_cons, decide_True by done. simpl. rewrite net_cons. lia. Qed.

Lemma projected_cons_ne l ls i a :
  account_id l ≠ i → projected (l :: ls) i a = projected ls i a.
Proof. intros. unfold projected. by rewrite legs_on_cons, decide_False. Qed.

Lemma post_accounts_cons l ls m a :
  m !! account_id l = Some a →
  post_accounts ls (<[account_id l := leg_account l a]> m) = post_accounts (l :: ls) m.
Proof.
  intros Ha. apply map_eq. intros i. rewrite !lookup_post_accounts.
  destruct (decide (account_id l = i)) as [<-|Hne].
  - rewrite lookup_insert_eq, Ha. simpl. f_equal. unfold post_account.
    by rewrite projected_cons.
  - rewrite lookup_insert_ne by done. destruct (m !! i); [|done]. simpl.
    unfold post_account. by rewrite projected_cons_ne.
Qed.

Lemma find_update st i a j :
  find_account (update_account st i a) j = if decide (i = j) then Some a else find_account st j.
Proof. apply lookup_insert. Qed.

(** One step of the loop: which accounts exist, and the imbalance. *)
Lemma leg_step_exist st l a ks :
  find_account st (account_id l) = Some a →
  accounts_exist (find_account (update_account st (account_id l) (leg_account l a))) ks ↔
  accounts_exist (find_account st) ks.
Proof.
  intros Ha. apply Forall_iff. intros k. rewrite find_update.
  case_decide as Hk; [rewrite <- Hk, Ha; split; by eexists|done].
Qed.

Lemma leg_step_imbalance st l a :
  find_account st (account_id l) = Some a →
  imbalance (update_account st (account_id l) (leg_account l a)) = imbalance st + leg_value l.
Proof.
  intros Ha. unfold imbalance, update_account; simpl.
  rewrite (map_zsum_insert_old _ _ _ a) by done. unfold leg_account; simpl.
  rewrite Z.mul_add_distr_l, Z.mul_assoc, normal_sign_sq. lia.
Qed.

(** Every outcome of the loop that is not undefined behaviour: all legs were
    applied, or the loop stopped at the first leg whose account is missing. *)
Definition legs_outcome (st : LedgerState) (ls : list EntryLeg) (st' : LedgerState)
    (r : ResultVoid) : Prop :=
  last_applied_id_ st' = last_applied_id_ st ∧
  ∃ pre post, ls = pre ++ post ∧ accounts_exist (find_account st) pre ∧
    accounts_ st' = post_accounts pre (accounts_ st) ∧ imbalance st' = imbalance st + net pre ∧
    match post with
    | [] => r = LedgerError.None
    | l :: _ => r = LedgerError.AccountNotFound ∧ find_account st (account_id l) = None
    end.

Lemma apply_legs_inv ls st st' r :
  apply_legs st ls = Some (st', r) → legs_outcome st ls st' r.
Proof.
  revert st. induction ls as [|l ls IH]; intros st; cbn [apply_legs].
  { intros [= -> <-]. split; [done|]. exists [], []. rewrite post_accounts_nil.
    split_and!; try done; [constructor|unfold net; simpl; lia]. }
  destruct (find_account st (account_id l)) as [a|] eqn:Ha; cycle 1.
  { intros [= -> <-]. split; [done|]. exists [], (l :: ls). rewrite post_accounts_nil.
    split_and!; try done; [constructor|unfold net; simpl; lia]. }
  destruct (signed_delta _ _ _) as [d|] eqn:Hd; [|done]. apply signed_delta_Some in Hd.
  simpl. destruct (sadd64 _ _) as [b|] eqn:Hb; [|done]. apply sadd64_Some in Hb as [Hb _].
  simpl. intros Hrest. replace (set_balance a b) with (leg_account l a) in Hrest
    by (unfold leg_account, leg_value; rewrite Hb, Hd; done).
  apply IH in Hrest as (Hlast & pre & post & -> & He & Hacc & Hi & Hr). split; [done|].
  exists (l :: pre), post. rewrite leg_step_exist in He by done.
  rewrite leg_step_imbalance in Hi by done.
  split_and!; [done|by constructor; [eexists|]|by rewrite Hacc; apply post_accounts_cons
    |rewrite net_cons; lia|].
  destruct post as [|k post]; [done|]. destruct Hr as [-> Hk]. split; [done|].
  rewrite find_update in Hk. by case_decide.
Qed.

(** Under the conditions the balances reached on the way are in range, the loop
    runs to the end. *)
Lemma apply_legs_ok ls st :
  Forall (λ l, 0 < amount l ≤ INT64_MAX) ls →
  accounts_exist (find_account st) ls → prefixes_ok st ls →
  ∃ st', apply_legs st ls = Some (st', LedgerError.None).
Proof.
  intros Hamt. revert st. induction Hamt as [|l ls Hl Hls IH]; intros st Hex Hp; [by eexists|].
  pose proof Hex as [[a Ha] Hex']%Forall_cons. cbn [apply_legs]. rewrite Ha.
  rewrite signed_delta_eq by lia. simpl.
  pose proof (Hp 1%nat (account_id l) a) as H1. simpl in H1. unfold projected in H1.
  rewrite legs_on_cons, decide_True, net_cons in H1 by done. unfold net in H1. simpl in H1.
  rewrite Z.add_0_r in H1. rewrite sadd64_ok by (apply H1; [left|done]). simpl.
  apply IH; [by apply leg_step_exist|].
  intros n i b Hi Hb. specialize (Hp (S n) i).
  destruct (decide (account_id l = i)) as [<-|Hne].
  - simpl in Hb. rewrite lookup_insert_eq in Hb. injection Hb as <-.
    fold (leg_account l a). rewrite projected_cons. apply Hp; [left|done].
  - simpl in Hb. rewrite lookup_insert_ne in Hb by done.
    rewrite <- (projected_cons_ne l) by done. apply Hp; [by right|done].
Qed.

Lemma state_wf_lookup st : state_wf st → lookup_ok (find_account st).
Proof. intros [_ Hwf] i a Ha. destruct (Hwf i a Ha) as (_ & ? & ?). auto. Qed.

Lemma post_account_unmoved ls i a : i ∉ account_id <$> ls → post_account ls i a = a.
Proof.
  intros Hi. unfold post_account, projected. rewrite legs_on_fresh by done.
  destruct a; unfold set_balance, net; simpl. f_equal. lia.
Qed.

(** A property of accounts that holds before, and after on the moved accounts,
    holds of the whole table after. *)
Lemma post_accounts_Forall (P : Z → Account → Prop) ls m :
  map_Forall P m →
  (∀ i a, i ∈ account_id <$> ls → m !! i = Some a → P i (post_account ls i a)) →
  map_Forall P (post_accounts ls m).
Proof.
  intros Hm Hmoved i a. rewrite lookup_post_accounts.
  destruct (m !! i) as [b|] eqn:Hb; [|done]. intros [= <-].
  destruct (decide (i ∈ account_id <$> ls)); [by apply Hmoved|].
  rewrite post_account_unmoved by done. by apply Hm.
Qed.

(** ** Applying a validated transaction *)

Lemma apply_valid st tx :
  tx_ok tx → state_wf st → shape_valid tx →
  validate_transaction_against_state tx (find_account st) = Some LedgerError.None →
  prefixes_ok st (tx_legs tx) →
  ∃ st', apply st tx = Some (st', LedgerError.None) ∧
    accounts_ st' = post_accounts (tx_legs tx) (accounts_ st) ∧
    last_applied_id_ st' = Z.max (last_applied_id_ st) (id tx) ∧
    state_wf st' ∧ imbalance st' = imbalance st ∧ (solvent st → solvent st').
Proof.
  intros Htx Hwf Hs Hv Hp.
  apply validate_against_state_accepts in Hv as (Hex & Hproj & Hver);
    [|done|by apply state_wf_lookup].
  destruct (shape_valid_inv tx Hs) as (_ & Hok & _).
  destruct (apply_legs_ok (tx_legs tx) st) as [st1 H1]; [|done..|].
  { apply Forall_forall. intros l Hl. by eapply totals_ok_leg. }
  pose proof (apply_legs_inv _ _ _ _ H1) as (Hlast & pre & post & Heq & _ & Hacc & Himb & Hr).
  destruct post as [|k post]; [|by destruct Hr]. rewrite app_nil_r in Heq; subst pre.
  rewrite shape_valid_net, Z.add_0_r in Himb by done.
  unfold apply. fold (tx_legs tx). rewrite H1. simpl.
  change (has_value LedgerError.None) with true. cbv iota.
  eexists; split; [done|].
  set (st' := if bool_decide _ then _ else _).
  assert (accounts_ st' = accounts_ st1) as Hst' by (unfold st'; by case_bool_decide).
  assert (last_applied_id_ st' = Z.max (last_applied_id_ st) (id tx)) as Hl'.
  { unfold st'. case_bool_decide; simpl; lia. }
  split_and!; [congruence|done| | |].
  - split; [rewrite Hl'; destruct Hwf as [? _], Htx as [? _]; range_lia|].
    rewrite Hst', Hacc. apply post_accounts_Forall; [apply Hwf|].
    intros i a Hi Ha. destruct (proj2 Hwf i a Ha) as (? & (? & ? & ? & ?) & ?).
    split_and!; try done. split_and!; try done. by apply Hproj.
  - rewrite <- Himb. unfold imbalance. by rewrite Hst'.
  - intros Hsol. unfold solvent. rewrite Hst', Hacc. apply post_accounts_Forall; [apply Hsol|].
    intros i a Hi Ha Hdn. inversion Hver as [| |_ Hb]. by apply (Hb i a).
Qed.

(** C26: After both checks, and when the balances reached leg by leg are
    representable, [apply] succeeds; every account moves by its net delta and no
    other field changes, the last applied id becomes the maximum, the class
    invariant and the overdraft floors are kept, and the books stay balanced. *)
Theorem apply_validated st tx :
  tx_ok tx → state_wf st → shape_valid tx →
  validate_transaction_against_state tx (find_account st) = Some LedgerError.None →
  prefixes_ok st (tx_legs tx) →
  ∃ st', apply st tx = Some (st', LedgerError.None) ∧
    accounts_ st' = post_accounts (tx_legs tx) (accounts_ st) ∧
    last_applied_id_ st' = Z.max (last_applied_id_ st) (id tx) ∧
    state_wf st' ∧ imbalance st' = imbalance st ∧ (solvent st → solvent st').
Proof. apply apply_valid. Qed.

(** *** Enough headroom rules out overflow on the way *)

(** Every moved account can be moved by the transaction's whole volume in either
    direction. *)
Definition headroom (st : LedgerState) (ls : list EntryLeg) : Prop :=
  map_Forall (λ i a, i ∈ account_id <$> ls →
    INT64_MIN + Z.max (debits ls) (credits ls) ≤ balance a ∧
    balance a + Z.max (debits ls) (credits ls) ≤ INT64_MAX) (accounts_ st).

#[export] Instance headroom_dec st ls : Decision (headroom st ls).
Proof. unfold headroom. apply _. Defined.

Lemma net_on_volume ls i :
  positive_legs ls → - credits ls ≤ net (legs_on i ls) ≤ debits ls.
Proof.
  intros Hp. rewrite net_debits_credits.
  pose proof (debits_on_le i _ Hp). pose proof (credits_on_le i _ Hp).
  pose proof (debits_nonneg _ (positive_legs_on i _ Hp)).
  pose proof (credits_nonneg _ (positive_legs_on i _ Hp)). lia.
Qed.

Lemma headroom_prefixes_ok st ls : positive_legs ls → headroom st ls → prefixes_ok st ls.
Proof.
  intros Hpos Hh n i a Hi Ha. rewrite <- (take_drop n ls) in Hpos.
  apply Forall_app in Hpos as [Hpos1 Hpos2].
  assert (i ∈ account_id <$> ls) as Hi'.
  { rewrite <- (take_drop n ls), fmap_app. set_solver. }
  destruct (Hh i a Ha Hi') as [? ?]. unfold projected.
  pose proof (net_on_volume _ i Hpos1).
  pose proof (debits_app (take n ls) (drop n ls)) as Hd.
  pose proof (credits_app (take n ls) (drop n ls)) as Hc. rewrite take_drop in Hd, Hc.
  pose proof (debits_nonneg _ Hpos2). pose proof (credits_nonneg _ Hpos2).
  unfold normal_sign. case_match; range_lia.
Qed.

(** *** Concrete ledgers *)

Module ExampleLedger.
(** The chart of accounts of [src/main.cpp]. *)
Definition cash : Account := mkAccount 1 Asset 0 50000.
Definition revenue : Account := mkAccount 2 Revenue 0 0.
Definition state : LedgerState := (add_account (add_account empty_state cash).2 revenue).2.
Definition tx (i : TransactionId) (n : Amount) : Transaction :=
  mkTx i (mkKey i i) 0 (LegList.of_list [mkLeg 2 Debit n; mkLeg 1 Credit n]).
End ExampleLedger.

Lemma apply_validated_witness :
  ∃ st', apply ExampleLedger.state (ExampleLedger.tx 1 10) = Some (st', LedgerError.None) ∧
    accounts_ st' = post_accounts (tx_legs (ExampleLedger.tx 1 10)) (accounts_ ExampleLedger.state) ∧
    last_applied_id_ st' = 1 ∧ state_wf st' ∧ imbalance st' = 0 ∧
    (solvent ExampleLedger.state → solvent st').
Proof.
  apply (apply_validated ExampleLedger.state (ExampleLedger.tx 1 10));
    [by_compute|by_compute|reflexivity|reflexivity|].
  apply headroom_prefixes_ok; [by repeat constructor|by_compute].
Defined.

(** [apply] documents that it always succeeds on a validated transaction.  It
    adds leg by leg, while the check looks at the net delta only: a transaction
    with two opposite legs on one account passes both checks and still
    overflows on the way. *)
Theorem apply_intermediate_overflow :
  ∃ st tx, tx_ok tx ∧ state_wf st ∧ imbalance st = 0 ∧ shape_valid tx ∧
    validate_transaction_against_state tx (find_account st) = Some LedgerError.None ∧
    apply st tx = None.
Proof.
  exists (mkState {[1 := mkAccount 1 Asset INT64_MAX 0; 2 := mkAccount 2 Revenue INT64_MAX 0]} 0).
  exists (mkTx 1 (mkKey 1 1) 0 (LegList.of_list [mkLeg 1 Debit 5; mkLeg 1 Credit 5])).
  split_and!; [by_compute|by_compute|reflexivity..].
Qed.

(** A transaction that names a missing account is not refused as a whole: the
    legs before it have been applied when [apply] reports the error, and the
    last applied id is unchanged. *)
Theorem apply_missing_account st tx st' r :
  apply st tx = Some (st', r) →
  (r = LedgerError.None ∧ accounts_exist (find_account st) (tx_legs tx) ∧
   accounts_ st' = post_accounts (tx_legs tx) (accounts_ st) ∧
   last_applied_id_ st' = Z.max (last_applied_id_ st) (id tx) ∧
   imbalance st' = imbalance st + net (tx_legs tx)) ∨
  (r = LedgerError.AccountNotFound ∧ ∃ pre l post, tx_legs tx = pre ++ l :: post ∧
   find_account st (account_id l) = None ∧
   accounts_ st' = post_accounts pre (accounts_ st) ∧
   last_applied_id_ st' = last_applied_id_ st ∧
   imbalance st' = imbalance st + net pre).
Proof.
  unfold apply. fold (tx_legs tx).
  destruct (apply_legs st (tx_legs tx)) as [[st1 r1]|] eqn:H1; [|done]. simpl.
  apply apply_legs_inv in H1 as (Hlast & pre & post & Heq & Hex & Hacc & Himb & Hr).
  destruct post as [|l post].
  - subst r1. change (has_value LedgerError.None) with true. cbv iota. intros [= <- <-].
    rewrite app_nil_r in Heq. subst pre. left.
    case_bool_decide; simpl; split_and!; try done; lia.
  - destruct Hr as [-> Hl]. change (has_value LedgerError.AccountNotFound) with false.
    cbv iota. intros [= <- <-]. right. split; [done|]. by exists pre, l, post.
Qed.

Lemma apply_missing_account_witness :
  let tx := mkTx 1 (mkKey 1 1) 0 (LegList.of_list [mkLeg 1 Debit 5; mkLeg 9 Credit 5]) in
  ∃ st' r, apply ExampleLedger.state tx = Some (st', r) ∧
    ((r = LedgerError.None ∧ accounts_exist (find_account ExampleLedger.state) (tx_legs tx) ∧
      accounts_ st' = post_accounts (tx_legs tx) (accounts_ ExampleLedger.state) ∧
      last_applied_id_ st' = Z.max (last_applied_id_ ExampleLedger.state) (id tx) ∧
      imbalance st' = imbalance ExampleLedger.state + net (tx_legs tx)) ∨
     (r = LedgerError.AccountNotFound ∧ ∃ pre l post, tx_legs tx = pre ++ l :: post ∧
      find_account ExampleLedger.state (account_id l) = None ∧
      accounts_ st' = post_accounts pre (accounts_ ExampleLedger.state) ∧
      last_applied_id_ st' = last_applied_id_ ExampleLedger.state ∧
      imbalance st' = imbalance ExampleLedger.state + net pre)).
Proof.
  intros tx. destruct (apply ExampleLedger.state tx) as [[st' r]|] eqn:Ha;
    [|vm_compute in Ha; discriminate].
  exists st', r. split; [reflexivity|]. apply (apply_missing_account ExampleLedger.state tx st' r Ha).
Defined.

(** ** Registering accounts *)

(** [add_account] inserts a new account and refuses a known id, changing
    nothing; it keeps the class invariant and moves the books by the opening
    balance. *)
Theorem add_account_spec st a :
  state_wf st → account_ok a → INT64_MIN < overdraft_limit a →
  match find_account st (acc_id a) with
  | Some _ => add_account st a = (false, st)
  | None => ∃ st', add_account st a = (true, st') ∧ state_wf st' ∧
      (∀ i, find_account st' i = if decide (acc_id a = i) then Some a else find_account st i) ∧
      last_applied_id_ st' = last_applied_id_ st ∧
      imbalance st' = imbalance st + normal_sign (type a) * balance a
  end.
Proof.
  intros [Hl Hwf] Ha Hlim. unfold add_account, find_account.
  destruct (accounts_ st !! acc_id a) eqn:Hi; [done|].
  eexists; split; [done|]. split_and!.
  - split; [done|]. simpl. apply map_Forall_insert_2; auto.
  - intros i. apply lookup_insert.
  - done.
  - unfold imbalance; simpl. rewrite map_zsum_insert_new by done. lia.
Qed.

Lemma add_account_spec_witness :
  ∃ st', add_account empty_state ExampleLedger.cash = (true, st') ∧ state_wf st' ∧
    (∀ i, find_account st' i = if decide (1 = i) then Some ExampleLedger.cash else None) ∧
    last_applied_id_ st' = 0 ∧ imbalance st' = 0.
Proof.
  destruct (add_account_spec empty_state ExampleLedger.cash) as (st' & H1 & H2 & H3 & H4 & H5);
    [by_compute|by_compute|by_compute|].
  exists st'. split_and!; [exact H1|exact H2|exact H3|exact H4|exact H5].
Defined.

(** ** The trial balance *)

Lemma trial_balance_loop_diff order dn cn d c :
  trial_balance_loop order dn cn = Some (d, c) →
  d - c = dn - cn + zsum ((λ a, normal_sign (type a) * balance a) <$> order.*2).
Proof.
  revert dn cn. induction order as [|[i a] order IH]; intros dn cn; csimpl.
  { intros [= -> ->]. lia. }
  unfold normal_sign at 1. destruct (is_debit_normal (type a)).
  - destruct (sadd64 dn _) as [z|] eqn:Hz; [|done]. apply sadd64_Some in Hz as [-> _].
    intros H%IH. lia.
  - destruct (sadd64 cn _) as [z|] eqn:Hz; [|done]. apply sadd64_Some in Hz as [-> _].
    intros H%IH. lia.
Qed.

(** The answer the trial balance should give. *)
Definition trial_verdict (st : LedgerState) : ResultVoid :=
  if decide (imbalance st = 0) then LedgerError.None else LedgerError.TrialBalanceMismatch.

Lemma validate_trial_balance_value st order r :
  iterates st order → validate_trial_balance order = Some r → r = trial_verdict st.
Proof.
  intros Hit. unfold validate_trial_balance.
  destruct (trial_balance_loop order 0 0) as [[d c]|] eqn:Hl; [|done]. simpl.
  apply trial_balance_loop_diff in Hl. rewrite (map_zsum_perm _ _ _ Hit) in Hl.
  fold (imbalance st) in Hl. intros [= <-]. unfold trial_verdict.
  case_bool_decide; case_decide; try done; lia.
Qed.

(** Whatever the order in which the hash table is visited, an answer of the
    trial balance is the right one: success exactly when the exact imbalance is
    zero. *)
Theorem validate_trial_balance_sound st order r :
  iterates st order → validate_trial_balance order = Some r →
  (r = LedgerError.None ↔ imbalance st = 0) ∧
  (r = LedgerError.TrialBalanceMismatch ↔ imbalance st ≠ 0).
Proof.
  intros Hit Hr%(validate_trial_balance_value st); [subst r|done].
  unfold trial_verdict. case_decide; intuition congruence.
Qed.

Lemma validate_trial_balance_sound_witness :
  (LedgerError.None = LedgerError.None ↔ imbalance ExampleLedger.state = 0) ∧
  (LedgerError.None = LedgerError.TrialBalanceMismatch ↔ imbalance ExampleLedger.state ≠ 0).
Proof.
  apply (validate_trial_balance_sound ExampleLedger.state
    [(2, ExampleLedger.revenue); (1, ExampleLedger.cash)]); [by_compute|reflexivity].
Defined.

(** The sum of the magnitudes of all balances. *)
Definition volume (st : LedgerState) : Z := map_zsum (λ a, Z.abs (balance a)) (accounts_ st).

Lemma trial_balance_loop_total order dn cn :
  Z.abs dn + Z.abs cn + zsum ((λ a, Z.abs (balance a)) <$> order.*2) ≤ INT64_MAX →
  is_Some (trial_balance_loop order dn cn).
Proof.
  revert dn cn. induction order as [|[i a] order IH]; intros dn cn; csimpl; [by eexists|].
  intros Hb.
  assert (0 ≤ zsum ((λ a, Z.abs (balance a)) <$> order.*2)).
  { apply zsum_nonneg, Forall_fmap, Forall_forall. intros; simpl; lia. }
  case_match; rewrite sadd64_ok by range_lia; simpl; apply IH; lia.
Qed.

Lemma trial_balance_value st order :
  iterates st order → volume st ≤ INT64_MAX →
  validate_trial_balance order = Some (trial_verdict st).
Proof.
  intros Hit Hv. destruct (trial_balance_loop_total order 0 0) as [[d c] Hdc].
  { rewrite (map_zsum_perm _ _ _ Hit). fold (volume st). lia. }
  assert (is_Some (validate_trial_balance order)) as [r Hr].
  { unfold validate_trial_balance. rewrite Hdc. by eexists. }
  rewrite Hr. f_equal. by eapply validate_trial_balance_value.
Qed.

(** C40: When the balances together fit the width, the trial balance returns, for
    every iteration order. *)
Theorem validate_trial_balance_total st order :
  iterates st order → volume st ≤ INT64_MAX →
  validate_trial_balance order = Some (trial_verdict st).
Proof. apply trial_balance_value. Qed.

Lemma validate_trial_balance_total_witness :
  validate_trial_balance [(2, ExampleLedger.revenue); (1, ExampleLedger.cash)]
    = Some LedgerError.None.
Proof.
  apply (validate_trial_balance_total ExampleLedger.state); [by_compute|].
  vm_compute. discriminate.
Defined.

(** Without that bound the totals can overflow, and whether they do depends on
    the order in which the hash table is visited. *)
Theorem trial_balance_order_dependent :
  ∃ st order1 order2, state_wf st ∧ imbalance st = 0 ∧
    iterates st order1 ∧ iterates st order2 ∧
    validate_trial_balance order1 = Some LedgerError.None ∧
    validate_trial_balance order2 = None.
Proof.
  set (a := mkAccount 1 Asset INT64_MAX 0). set (b := mkAccount 2 Asset 1 0).
  set (c := mkAccount 3 Asset (-1) 1). set (d := mkAccount 4 Revenue INT64_MAX 0).
  exists (mkState {[1 := a; 2 := b; 3 := c; 4 := d]} 0),
    [(1, a); (3, c); (2, b); (4, d)], [(1, a); (2, b); (3, c); (4, d)].
  split_and!; [by_compute|reflexivity|by_compute|by_compute|reflexivity..].
Qed.

(** ** Reader isolation *)

(** Writer-side operations on the store. *)
Inductive store_op :=
  | OpMutate (f : LedgerState → LedgerState)
  | OpPublish.

Definition store_step (s : LedgerStateStore) (op : store_op) : LedgerStateStore :=
  match op with
  | OpMutate f => set_working_copy s (f (working_copy s))
  | OpPublish => publish_snapshot s
  end.

(** A reader sees the working copy as of the last publication, or the empty
    state: the writer's later mutations are invisible. *)
Theorem snapshot_is_last_published ops :
  let s := foldl store_step new_store ops in
  (snapshot s = empty_state ∧ (OpPublish ∉ ops)) ∨
  ∃ pre post, ops = pre ++ OpPublish :: post ∧ (OpPublish ∉ post) ∧
    snapshot s = working_copy (foldl store_step new_store pre).
Proof.
  induction ops as [|op ops IH] using rev_ind; [left; by split; [|apply not_elem_of_nil]|].
  rewrite foldl_app. destruct op as [f|]; simpl in *.
  - destruct IH as [[Hs Hni]|(pre & post & Heq & Hni & Hs)].
    + left. split; [done|]. rewrite elem_of_app, list_elem_of_singleton. naive_solver.
    + right. exists pre, (post ++ [OpMutate f]).
      split_and!; [by rewrite Heq, <- app_assoc| |done].
      rewrite elem_of_app, list_elem_of_singleton. naive_solver.
  - right. exists ops, []. split_and!; [done|apply not_elem_of_nil|done].
Qed.
