(* ===== verification/Crc32.v ===== *)
(** * CRC-32

    [src/crc32.cpp]: the lookup table and the table-driven checksum, proved
    equal to the code of IEEE 802.3 as division of polynomials, and the error
    detection the write-ahead log and the snapshots rely on. *)

From S2P Require Import Prelude.
From Stdlib Require Import Btauto.

(** ** The code *)

(** The body of the inner loop of [make_table]. *)
Definition crc_bit (c : Z) : Z :=
  if bool_decide (Z.land c 1 ≠ 0) then Z.lxor 0xEDB88320 (Z.shiftr c 1) else Z.shiftr c 1.

Definition make_table : list Z :=
  (λ i : nat, Nat.iter 8 crc_bit (Z.of_nat i)) <$> seq 0 256.

Definition kTable : list Z := make_table.

(** The body of the loop of [compute]. *)
Definition crc_step (crc : Z) (b : byte) : Z :=
  let idx := Z.land (Z.lxor crc (byte.unsigned b)) 0xFF in
  Z.lxor (kTable !!! Z.to_nat idx) (Z.shiftr crc 8).

Definition compute (data : list byte) : Z :=
  Z.lxor (foldl crc_step 0xFFFFFFFF data) 0xFFFFFFFF.

(** The check value of the code: the checksum of the ASCII digits 1 to 9. *)
Example compute_check_value :
  compute [Byte.x31; Byte.x32; Byte.x33; Byte.x34; Byte.x35; Byte.x36; Byte.x37; Byte.x38; Byte.x39]
  = 0xCBF43926.
Proof. vm_compute. reflexivity. Qed.

(** ** The standard

    The code of IEEE 802.3, by division of polynomials over GF(2).  A polynomial is the
    number whose bits are its coefficients. *)

(** The generator, by the exponents of its terms. *)
Definition generator : Z :=
  foldr (λ e, Z.lxor (2 ^ e)) 0 [32; 26; 23; 22; 16; 12; 11; 10; 8; 7; 5; 4; 2; 1; 0].

(** One step of long division: the next coefficient of the dividend is brought down,
    and the generator subtracted if it goes into the remainder. *)
Definition divide_step (r : Z) (b : bool) : Z :=
  let r := Z.lxor (Z.shiftl r 1) (Z.b2z b) in
  if Z.testbit r 32 then Z.lxor r generator else r.

Definition remainder (dividend : list bool) : Z := foldl divide_step 0 dividend.

(** The bits of a message in the order of transmission, low bit of each byte first. *)
Definition byte_bits (b : byte) : list bool := Z.testbit (byte.unsigned b) <$> [0; 1; 2; 3; 4; 5; 6; 7].
Definition message_bits (data : list byte) : list bool := data ≫= byte_bits.

(** The message followed by 32 zeros, its first 32 bits complemented. *)
Definition dividend (bits : list bool) : list bool :=
  zip_with xorb (bits ++ replicate 32 false) (replicate 32 true ++ replicate (length bits) false).

(** The bits of a 32-bit word in the opposite order. *)
Definition reflect_on (ks : list Z) (r : Z) : Z :=
  foldr (λ k, Z.lxor (Z.shiftl (Z.b2z (Z.testbit r k)) (31 - k))) 0 ks.
Definition reflect : Z → Z := reflect_on (Z.of_nat <$> seq 0 32).

(** The checksum is the complement of the remainder, highest coefficient first. *)
Definition reference (data : list byte) : Z :=
  Z.lxor (reflect (remainder (dividend (message_bits data)))) 0xFFFFFFFF.

(** ** The bit-serial register *)

(** Eight steps of the shift register on the message byte folded into the low
    end of the register. *)
Definition ref_step (crc : Z) (b : byte) : Z :=
  Nat.iter 8 crc_bit (Z.lxor crc (byte.unsigned b)).

(** One step on one bit of the message. *)
Definition serial (crc : Z) (b : bool) : Z := crc_bit (Z.lxor crc (Z.b2z b)).

(** ** Linearity of the shift register *)

(** Equality of two words by cases on every bit. *)
Ltac bitwise :=
  apply Z.bits_inj'; intros ?k ?Hk;
  repeat first [rewrite Z.lxor_spec | rewrite Z.land_spec | rewrite Z.lor_spec
               | rewrite Z.shiftr_spec by lia | rewrite Z.bits_0];
  btauto.

Lemma crc_bit_eq c :
  crc_bit c = Z.lxor (if Z.testbit c 0 then 0xEDB88320 else 0) (Z.shiftr c 1).
Proof.
  unfold crc_bit. replace (Z.land c 1) with (Z.b2z (Z.testbit c 0)).
  { destruct (Z.testbit c 0); simpl; [done|]. by rewrite Z.lxor_0_l. }
  change 1 with (Z.ones 1). rewrite Z.land_ones by lia. change (2 ^ 1) with 2.
  by rewrite Z.bit0_mod.
Qed.

Lemma crc_bit_lxor c d : crc_bit (Z.lxor c d) = Z.lxor (crc_bit c) (crc_bit d).
Proof.
  rewrite !crc_bit_eq, Z.lxor_spec, Z.shiftr_lxor.
  destruct (Z.testbit c 0), (Z.testbit d 0); simpl; bitwise.
Qed.

Lemma iter_crc_lxor n c d :
  Nat.iter n crc_bit (Z.lxor c d) = Z.lxor (Nat.iter n crc_bit c) (Nat.iter n crc_bit d).
Proof. induction n as [|n IH]; simpl; [done|]. by rewrite IH, crc_bit_lxor. Qed.

Lemma iter_crc_shift n c : Nat.iter n crc_bit (Z.shiftl c (Z.of_nat n)) = c.
Proof.
  revert c. induction n as [|n IH]; intros c; [apply Z.shiftl_0_r|].
  rewrite Nat.iter_succ_r. rewrite crc_bit_eq, Z.shiftl_spec_low by lia.
  rewrite Z.lxor_0_l. replace (Z.shiftr (Z.shiftl c (Z.of_nat (S n))) 1)
    with (Z.shiftl c (Z.of_nat n)); [apply IH|].
  rewrite Z.shiftr_shiftl_l by lia. f_equal. lia.
Qed.

Lemma split_low c n :
  0 ≤ n → Z.lxor (Z.land c (Z.ones n)) (Z.shiftl (Z.shiftr c n) n) = c.
Proof.
  intros Hn. apply Z.bits_inj'. intros k Hk.
  rewrite Z.lxor_spec, Z.land_spec, Z.shiftl_spec by lia.
  destruct (decide (k < n)).
  - rewrite Z.ones_spec_low, (Z.testbit_neg_r _ (k - n)) by lia. btauto.
  - rewrite Z.ones_spec_high, Z.shiftr_spec by lia.
    replace (k - n + n) with k by lia. btauto.
Qed.

Lemma fmap_seq_lookup (f : nat → Z) n k : (k < n)%nat → (f <$> seq 0 n) !!! k = f k.
Proof.
  intros Hk. apply list_lookup_total_correct. rewrite list_lookup_fmap.
  by rewrite (lookup_seq_lt 0 n k Hk).
Qed.

Lemma kTable_lookup i : 0 ≤ i < 256 → kTable !!! Z.to_nat i = Nat.iter 8 crc_bit i.
Proof.
  intros Hi. unfold kTable, make_table. rewrite fmap_seq_lookup by lia.
  rewrite Z2Nat.id by lia. reflexivity.
Qed.

Lemma crc_step_ref c b : crc_step c b = ref_step c b.
Proof.
  unfold crc_step, ref_step. set (x := Z.lxor c (byte.unsigned b)).
  pose proof (byte.unsigned_range b) as Hb.
  rewrite kTable_lookup; cycle 1.
  { change 0xFF with (Z.ones 8). rewrite Z.land_ones by lia. apply Z.mod_pos_bound. lia. }
  rewrite <- (split_low x 8) at 2 by lia.
  rewrite iter_crc_lxor, (iter_crc_shift 8). f_equal.
  unfold x. rewrite Z.shiftr_lxor. rewrite (Z.shiftr_div_pow2 (byte.unsigned b)) by lia.
  by rewrite Z.div_small, Z.lxor_0_r by lia.
Qed.

Lemma crc_steps_ref data c : foldl crc_step c data = foldl ref_step c data.
Proof.
  revert c. induction data as [|b data IH]; intros c; cbn [foldl]; [done|].
  by rewrite crc_step_ref, IH.
Qed.

(** ** Error detection *)

(** One step of the register, backwards: the top bit of the result tells which
    branch was taken, because the polynomial has its top bit set. *)
Definition crc_unbit (r : Z) : Z :=
  if Z.testbit r 31 then Z.lor (Z.shiftl (Z.lxor 0xEDB88320 r) 1) 1 else Z.shiftl r 1.

Lemma u32_testbit c k : u32_ok c → 32 ≤ k → Z.testbit c k = false.
Proof.
  intros Hc Hk. rewrite <- (Z.mod_small c (2 ^ 32)) by range_lia.
  apply Z.mod_pow2_bits_high. lia.
Qed.

Lemma u32_bits c : 0 ≤ c → (∀ k, 32 ≤ k → Z.testbit c k = false) → u32_ok c.
Proof.
  intros H0 Hb. assert (c = c `mod` 2 ^ 32) as ->.
  { apply Z.bits_inj'. intros k Hk. destruct (decide (k < 32)).
    - by rewrite Z.mod_pow2_bits_low by lia.
    - rewrite Hb by lia. by rewrite Z.mod_pow2_bits_high by lia. }
  unfold u32_ok. apply Z.mod_pos_bound. lia.
Qed.

Lemma u32_lxor c d : u32_ok c → u32_ok d → u32_ok (Z.lxor c d).
Proof.
  intros Hc Hd. apply u32_bits.
  - apply Z.lxor_nonneg. range_lia.
  - intros k Hk. by rewrite Z.lxor_spec, !u32_testbit.
Qed.

Lemma u32_shiftr c : u32_ok c → u32_ok (Z.shiftr c 1).
Proof.
  intros Hc. rewrite Z.shiftr_div_pow2 by lia. change (2 ^ 1) with 2.
  unfold u32_ok in *. split; [apply Z.div_pos; lia|]. apply Z.div_lt_upper_bound; lia.
Qed.

Lemma crc_bit_u32 c : u32_ok c → u32_ok (crc_bit c).
Proof.
  intros Hc. rewrite crc_bit_eq. apply u32_lxor; [|by apply u32_shiftr].
  destruct (Z.testbit c 0); range_lia.
Qed.

Lemma iter_crc_u32 n c : u32_ok c → u32_ok (Nat.iter n crc_bit c).
Proof. intros. induction n; simpl; [done|]. by apply crc_bit_u32. Qed.

Lemma crc_unbit_bit c : u32_ok c → crc_unbit (crc_bit c) = c.
Proof.
  intros Hc. unfold crc_unbit. rewrite crc_bit_eq.
  assert (Z.testbit (Z.shiftr c 1) 31 = false) as H31.
  { rewrite Z.shiftr_spec by lia. by apply u32_testbit. }
  assert (∀ k, 0 < k → Z.testbit (Z.shiftr c 1) (k - 1) = Z.testbit c k) as Hshift.
  { intros k Hk. rewrite Z.shiftr_spec by lia. f_equal. lia. }
  rewrite Z.lxor_spec, H31. destruct (Z.testbit c 0) eqn:H0; simpl.
  - rewrite <- Z.lxor_assoc, Z.lxor_nilpotent, Z.lxor_0_l.
    apply Z.bits_inj'. intros k Hk. rewrite Z.lor_spec, Z.shiftl_spec by lia.
    destruct (decide (k = 0)) as [->|].
    + by rewrite Z.testbit_neg_r by lia.
    + rewrite Hshift by lia. rewrite (Z.bits_above_log2 1) by (simpl; lia). btauto.
  - rewrite Z.lxor_0_l. apply Z.bits_inj'. intros k Hk. rewrite Z.shiftl_spec by lia.
    destruct (decide (k = 0)) as [->|]; [by rewrite Z.testbit_neg_r by lia|].
    apply Hshift. lia.
Qed.

Lemma iter_crc_inj n c d :
  u32_ok c → u32_ok d → Nat.iter n crc_bit c = Nat.iter n crc_bit d → c = d.
Proof.
  intros Hc Hd. induction n as [|n IH]; simpl; [done|].
  intros H. apply IH. apply (f_equal crc_unbit) in H.
  by rewrite !crc_unbit_bit in H by (by apply iter_crc_u32).
Qed.

Lemma byte_u32 b : u32_ok (byte.unsigned b).
Proof. pose proof (byte.unsigned_range b). range_lia. Qed.

Lemma ref_step_u32 c b : u32_ok c → u32_ok (ref_step c b).
Proof. intros. apply iter_crc_u32, u32_lxor; [done|apply byte_u32]. Qed.

Lemma ref_steps_u32 data c : u32_ok c → u32_ok (foldl ref_step c data).
Proof.
  revert c. induction data as [|b data IH]; intros c Hc; cbn [foldl]; [done|].
  by apply IH, ref_step_u32.
Qed.

Lemma lxor_inj_l c x y : Z.lxor c x = Z.lxor c y → x = y.
Proof.
  intros H%(f_equal (Z.lxor c)). by rewrite <- !Z.lxor_assoc, Z.lxor_nilpotent, !Z.lxor_0_l in H.
Qed.

Lemma ref_step_inj b c d : u32_ok c → u32_ok d → ref_step c b = ref_step d b → c = d.
Proof.
  intros Hc Hd. unfold ref_step. generalize 8%nat as n. intros n Hx.
  apply iter_crc_inj in Hx; [|apply u32_lxor; [done|apply byte_u32]..].
  rewrite !(Z.lxor_comm _ (byte.unsigned b)) in Hx. by eapply lxor_inj_l.
Qed.

(** Processing the same bytes keeps two registers apart. *)
Lemma ref_steps_inj data c d :
  u32_ok c → u32_ok d → foldl ref_step c data = foldl ref_step d data → c = d.
Proof.
  revert c d. induction data as [|b data IH]; intros c d Hc Hd H; [done|].
  apply (ref_step_inj b); [done..|]. apply IH; [by apply ref_step_u32..|]. exact H.
Qed.

(** A run of bytes enters the register as one little-endian word. *)
Lemma ref_steps_window w c :
  foldl ref_step c w = Nat.iter (8 * length w) crc_bit (Z.lxor c (le_combine w)).
Proof.
  revert c. induction w as [|b w IH]; intros c; [by rewrite le_combine_nil, Z.lxor_0_r|].
  cbn [foldl length]. rewrite IH. unfold ref_step.
  replace (8 * S (length w))%nat with (8 * length w + 8)%nat by lia.
  rewrite Nat.iter_add. f_equal.
  change (le_combine (b :: w)) with (Z.lor (byte.unsigned b) (Z.shiftl (le_combine w) 8)).
  rewrite <- (iter_crc_shift 8 (le_combine w)) at 1. rewrite <- iter_crc_lxor. f_equal.
  rewrite Z.lxor_assoc. f_equal. symmetry. change (Z.of_nat 8) with 8.
  apply Z.bits_inj'. intros k Hk. rewrite Z.lor_spec, Z.lxor_spec, Z.shiftl_spec by lia.
  pose proof (byte.unsigned_range b) as Hb. destruct (decide (k < 8)).
  - rewrite (Z.testbit_neg_r _ (k - 8)) by lia. btauto.
  - rewrite <- (Z.mod_small (byte.unsigned b) (2 ^ 8)) by lia.
    rewrite Z.mod_pow2_bits_high by lia. btauto.
Qed.

Lemma le_combine_u32 w : (length w ≤ 4)%nat → u32_ok (le_combine w).
Proof.
  intros Hw. pose proof (le_combine_bound w) as Hb. unfold u32_ok. split; [lia|].
  eapply Z.lt_le_trans; [apply Hb|]. change 4294967296 with (2 ^ 32).
  apply Z.pow_le_mono_r; lia.
Qed.

Lemma compute_u32 data : u32_ok (compute data).
Proof.
  unfold compute. rewrite crc_steps_ref. apply u32_lxor; [|range_lia].
  apply ref_steps_u32. range_lia.
Qed.

(** A window of at most four bytes is determined by the register behind it. *)
Lemma register_burst pre w w' post :
  length w = length w' → (length w ≤ 4)%nat →
  foldl ref_step 0xFFFFFFFF (pre ++ w ++ post) = foldl ref_step 0xFFFFFFFF (pre ++ w' ++ post) → w = w'.
Proof.
  intros Hlen Hle H. rewrite !foldl_app in H.
  set (c := foldl ref_step 0xFFFFFFFF pre) in H.
  assert (u32_ok c) as Hc by (apply ref_steps_u32; range_lia).
  apply ref_steps_inj in H; [|by apply ref_steps_u32..].
  rewrite !ref_steps_window, <- Hlen in H.
  apply iter_crc_inj in H; [|apply u32_lxor; [done|apply le_combine_u32; lia]..].
  apply lxor_inj_l in H. by apply le_combine_inj.
Qed.

Lemma compute_burst pre w w' post :
  length w = length w' → (length w ≤ 4)%nat →
  compute (pre ++ w ++ post) = compute (pre ++ w' ++ post) → w = w'.
Proof.
  intros Hlen Hle. unfold compute. rewrite !crc_steps_ref.
  rewrite !(Z.lxor_comm _ 0xFFFFFFFF). intros H%lxor_inj_l. by apply (register_burst pre w w' post).
Qed.

(** Behind a message and its checksum the register does not depend on the message. *)
Lemma register_residue body crc :
  length crc = 4%nat → le_combine crc = compute body →
  foldl ref_step 0xFFFFFFFF (body ++ crc) = Nat.iter 32 crc_bit 0xFFFFFFFF.
Proof.
  intros Hl Hc. rewrite foldl_app, ref_steps_window, Hl, Hc. unfold compute. rewrite crc_steps_ref.
  set (r := foldl ref_step 0xFFFFFFFF body). f_equal.
  by rewrite <- Z.lxor_assoc, Z.lxor_nilpotent, Z.lxor_0_l.
Qed.

(** A message with its checksum behind it, altered within four bytes, does not have its
    checksum behind it, wherever the window lies. *)
Lemma codeword_burst pre w w' post body crc body' crc' :
  length w = length w' → (length w ≤ 4)%nat → w ≠ w' →
  pre ++ w ++ post = body ++ crc → pre ++ w' ++ post = body' ++ crc' →
  length crc = 4%nat → length crc' = 4%nat → le_combine crc = compute body → le_combine crc' ≠ compute body'.
Proof.
  intros Hlen Hle Hne Heq Heq' Hl Hl' Hc Hc'. apply Hne, (register_burst pre w w' post Hlen Hle).
  by rewrite Heq, Heq', !register_residue.
Qed.

(** C32: Every error burst of at most 32 bits that is confined to four consecutive
    bytes changes the checksum: the corruption of a torn or damaged record of
    that kind cannot go unnoticed. *)
Theorem compute_detects_burst pre w w' post :
  length w = length w' → (length w ≤ 4)%nat → w ≠ w' →
  compute (pre ++ w ++ post) ≠ compute (pre ++ w' ++ post).
Proof. intros Hlen Hle Hne Heq. by apply Hne, (compute_burst pre _ _ post). Qed.

Lemma compute_detects_burst_witness :
  compute ([Byte.x01] ++ [Byte.x00; Byte.xff] ++ [Byte.x02]) ≠
  compute ([Byte.x01] ++ [Byte.x80; Byte.xfe] ++ [Byte.x02]).
Proof. apply compute_detects_burst; [reflexivity|simpl; lia|discriminate]. Defined.

(** ** The register divides by the generator *)

(** Linear maps of 32-bit words are equal if they agree on the powers of two. *)
Lemma linear_eq (f g : Z → Z) :
  (∀ r s, f (Z.lxor r s) = Z.lxor (f r) (f s)) → (∀ r s, g (Z.lxor r s) = Z.lxor (g r) (g s)) →
  (λ k, f (2 ^ Z.of_nat k)) <$> seq 0 32 = (λ k, g (2 ^ Z.of_nat k)) <$> seq 0 32 → ∀ r, u32_ok r → f r = g r.
Proof.
  intros Hf Hg Hall.
  assert (∀ n : nat, (n ≤ 32)%nat → ∀ r, 0 ≤ r < 2 ^ Z.of_nat n → f r = g r) as H.
  { induction n as [|n IH]; intros Hn r Hr.
    - change (2 ^ Z.of_nat 0) with 1 in Hr. assert (r = Z.lxor 0 0) as -> by (change (Z.lxor 0 0) with 0; lia). by rewrite Hf, Hg, !Z.lxor_nilpotent.
    - rewrite <- (split_low r (Z.of_nat n)), Hf, Hg by lia. f_equal.
      + apply IH; [lia|]. rewrite Z.land_ones by lia. apply Z.mod_pos_bound. lia.
      + rewrite Nat2Z.inj_succ, Z.pow_succ_r in Hr by lia.
        assert (0 ≤ Z.shiftr r (Z.of_nat n) < 2) as Hs.
        { rewrite Z.shiftr_div_pow2 by lia. split; [apply Z.div_pos; lia|apply Z.div_lt_upper_bound; lia]. }
        assert (Z.shiftr r (Z.of_nat n) = 0 ∨ Z.shiftr r (Z.of_nat n) = 1) as [-> | ->] by lia.
        * rewrite Z.shiftl_0_l. rewrite <- (Z.lxor_nilpotent 0), Hf, Hg. by rewrite !Z.lxor_nilpotent.
        * rewrite Z.shiftl_1_l. apply (f_equal (.!! n)) in Hall.
          rewrite !list_lookup_fmap, lookup_seq_lt in Hall by lia. by injection Hall. }
  intros r Hr. apply (H 32%nat); [lia|]. change (2 ^ Z.of_nat 32) with 4294967296. range_lia.
Qed.

Lemma b2z_xorb a b : Z.b2z (xorb a b) = Z.lxor (Z.b2z a) (Z.b2z b).
Proof. by destruct a, b. Qed.

Lemma divide_step_lxor r s a b :
  divide_step (Z.lxor r s) (xorb a b) = Z.lxor (divide_step r a) (divide_step s b).
Proof.
  unfold divide_step. rewrite Z.shiftl_lxor, b2z_xorb.
  set (x := Z.shiftl r 1). set (y := Z.shiftl s 1).
  replace (Z.lxor (Z.lxor x y) (Z.lxor (Z.b2z a) (Z.b2z b)))
    with (Z.lxor (Z.lxor x (Z.b2z a)) (Z.lxor y (Z.b2z b))) by bitwise.
  rewrite Z.lxor_spec. destruct (Z.testbit (Z.lxor x _) 32), (Z.testbit (Z.lxor y _) 32); simpl; bitwise.
Qed.

Lemma divide_step_u32 r b : u32_ok r → u32_ok (divide_step r b).
Proof.
  intros Hr. unfold divide_step. set (s := Z.lxor _ _).
  assert (∀ k, 32 < k → Z.testbit s k = false) as Hs.
  { intros k Hk. unfold s. rewrite Z.lxor_spec, Z.shiftl_spec by lia. rewrite (u32_testbit r) by (done || lia).
    destruct b; [|by rewrite Z.bits_0]. simpl. by rewrite (Z.bits_above_log2 1) by (simpl; lia). }
  assert (0 ≤ s) as H0.
  { apply Z.lxor_nonneg. rewrite Z.shiftl_nonneg. destruct b; simpl; range_lia. }
  destruct (Z.testbit s 32) eqn:H32; apply u32_bits.
  - apply Z.lxor_nonneg. by vm_compute (generator).
  - intros k Hk. rewrite Z.lxor_spec. destruct (decide (k = 32)) as [->|]; [by rewrite H32|].
    rewrite Hs by lia. rewrite (Z.bits_above_log2 generator); [done|by vm_compute|]. change (Z.log2 generator) with 32. lia.
  - done.
  - intros k Hk. destruct (decide (k = 32)) as [->|]; [done|]. apply Hs. lia.
Qed.

Lemma divide_u32 l r : u32_ok r → u32_ok (foldl divide_step r l).
Proof. revert r. induction l as [|b l IH]; intros r Hr; [done|]. by apply IH, divide_step_u32. Qed.

Lemma divide_lxor a b r s :
  length a = length b →
  foldl divide_step (Z.lxor r s) (zip_with xorb a b) = Z.lxor (foldl divide_step r a) (foldl divide_step s b).
Proof.
  revert b r s. induction a as [|x a IH]; intros [|y b] r s; intros [=]; [done|].
  cbn [zip_with foldl]. rewrite divide_step_lxor. by apply IH.
Qed.

Lemma reflect_lxor r s : reflect (Z.lxor r s) = Z.lxor (reflect r) (reflect s).
Proof.
  unfold reflect, reflect_on. generalize (Z.of_nat <$> seq 0 32). intros ks.
  induction ks as [|k ks IH]; [done|]. cbn [foldr]. rewrite IH, Z.lxor_spec, b2z_xorb, Z.shiftl_lxor. bitwise.
Qed.

(** A step of the register is a step of the division, with the bits reflected. *)
Lemma reflect_step r : u32_ok r → reflect (divide_step r false) = crc_bit (reflect r).
Proof.
  apply (linear_eq (λ r, reflect (divide_step r false)) (λ r, crc_bit (reflect r))).
  - intros x y. rewrite <- reflect_lxor, <- divide_step_lxor. done.
  - intros x y. by rewrite reflect_lxor, crc_bit_lxor.
  - vm_compute. reflexivity.
Qed.

Lemma zip_xorb_swap a b c : zip_with xorb (zip_with xorb a b) c = zip_with xorb (zip_with xorb a c) b.
Proof.
  revert b c. induction a as [|x a IH]; intros [|y b] [|z c]; cbn [zip_with]; [done..|].
  f_equal; [btauto|apply IH].
Qed.

Lemma zip_xorb_zeros a : zip_with xorb a (replicate (length a) false) = a.
Proof. induction a as [|x a IH]; [done|]. simpl. rewrite IH. f_equal. btauto. Qed.

(** One more bit of the message. *)
Lemma dividend_snoc bits b :
  dividend (bits ++ [b]) =
    zip_with xorb (dividend bits ++ [false]) (replicate (length bits) false ++ [b] ++ replicate 32 false).
Proof.
  unfold dividend. set (e := replicate (length bits) false ++ _).
  replace ((bits ++ [b]) ++ replicate 32 false) with (zip_with xorb ((bits ++ replicate 32 false) ++ [false]) e).
  - rewrite zip_xorb_swap. f_equal. rewrite length_app, replicate_add, app_assoc.
    rewrite zip_with_app by (rewrite !length_app, !length_replicate; lia). done.
  - unfold e. rewrite <- !app_assoc, zip_with_app by (by rewrite length_replicate). f_equal. apply zip_xorb_zeros.
Qed.

Lemma remainder_single n b :
  remainder (replicate n false ++ [b] ++ replicate 32 false) = if b then Z.lxor generator (2 ^ 32) else 0.
Proof.
  unfold remainder. rewrite foldl_app.
  replace (foldl divide_step 0 (replicate n false)) with 0 by (by induction n).
  destruct b; vm_compute; reflexivity.
Qed.

Lemma dividend_length bits : length (dividend bits) = (length bits + 32)%nat.
Proof. unfold dividend. rewrite length_zip_with, !length_app, !length_replicate. lia. Qed.

Lemma register_divides bits : reflect (remainder (dividend bits)) = foldl serial 0xFFFFFFFF bits.
Proof.
  induction bits as [|b bits IH] using rev_ind; [vm_compute; reflexivity|].
  rewrite foldl_snoc, <- IH, dividend_snoc. unfold serial. rewrite crc_bit_lxor, <- reflect_step by (by apply divide_u32).
  change (remainder (zip_with xorb (dividend bits ++ [false]) (replicate (length bits) false ++ [b] ++ replicate 32 false)))
    with (foldl divide_step (Z.lxor 0 0) (zip_with xorb (dividend bits ++ [false]) (replicate (length bits) false ++ [b] ++ replicate 32 false))).
  rewrite divide_lxor by (rewrite !length_app, dividend_length, !length_replicate; simpl; lia).
  fold (remainder (replicate (length bits) false ++ [b] ++ replicate 32 false)). rewrite remainder_single, foldl_snoc, reflect_lxor.
  f_equal. destruct b; vm_compute; reflexivity.
Qed.

Lemma serial_lxor bits c d :
  foldl serial (Z.lxor c d) bits = Z.lxor (Nat.iter (length bits) crc_bit c) (foldl serial d bits).
Proof.
  revert c d. induction bits as [|b bits IH]; intros c d; [done|]. cbn [foldl length].
  rewrite Nat.iter_succ_r, <- IH. f_equal. unfold serial. rewrite Z.lxor_assoc. apply crc_bit_lxor.
Qed.

Lemma ref_step_serial c b : ref_step c b = foldl serial c (byte_bits b).
Proof.
  unfold ref_step. rewrite iter_crc_lxor. rewrite <- (Z.lxor_0_r c) at 2. rewrite serial_lxor.
  change (length (byte_bits b)) with 8%nat. f_equal. destruct b; vm_compute; reflexivity.
Qed.

Lemma ref_steps_serial data c : foldl ref_step c data = foldl serial c (message_bits data).
Proof.
  revert c. induction data as [|b data IH]; intros c; [done|].
  unfold message_bits in *. cbn [foldl]. rewrite bind_cons, foldl_app, IH. by rewrite ref_step_serial.
Qed.

(** C31: The table-driven loop computes the CRC-32 of IEEE 802.3 on every input: the
    complemented and reflected remainder of the message, with 32 zeros behind it and its
    first 32 bits complemented, in the division by the standard's generator. *)
Theorem compute_reference data : compute data = reference data.
Proof. unfold compute, reference. by rewrite crc_steps_ref, ref_steps_serial, register_divides. Qed.
