(* ===== verification/WalCodec.v ===== *)
(** * The payload codec of the write-ahead log

    [include/ledger/wal_format.hpp] and [src/wal_codec.cpp]: the record layout
    constants, and the serialization of a transaction's idempotency key and legs
    into the static payload buffer and back. *)

From S2P Require Import Prelude Types.

(** ** Record layout ([wal_format.hpp]) *)

Definition kMagic : Z := 0x4C454447.
Definition kVersion : Z := 1.

(** [#pragma pack(1)] makes [RecordHeader] 4+2+2+4+8+8 bytes long. *)
Record RecordHeader := mkHeader {
  magic : Z; version : Z; flags : Z; payload_size : Z; transaction_id : Z; timestamp_ns : Z
}.
Definition kHeaderSize : nat := 28.
Definition kCrcSize : nat := 4.
Definition kMaxPayloadSize : nat := 512.
Definition kMaxRecordSize : nat := kHeaderSize + kMaxPayloadSize + kCrcSize.

Inductive SyncMode := SyncEveryWrite | BatchSyncFlush.
#[export] Instance SyncMode_eq_dec : EqDecision SyncMode.
Proof. solve_decision. Defined.

(** The object representation of a header on a little-endian host. *)
Definition header_bytes (h : RecordHeader) : list byte :=
  le_split 4 (magic h) ++ le_split 2 (version h) ++ le_split 2 (flags h) ++
  le_split 4 (payload_size h) ++ le_split 8 (transaction_id h) ++ le_split 8 (timestamp_ns h).
Definition header_of_bytes (bs : list byte) : RecordHeader :=
  mkHeader (le_combine (take 4 bs)) (le_combine (take 2 (drop 4 bs)))
    (le_combine (take 2 (drop 6 bs))) (le_combine (take 4 (drop 8 bs)))
    (le_combine (take 8 (drop 12 bs))) (to_s64 (le_combine (take 8 (drop 20 bs)))).

(** ** The code ([wal_codec.cpp]) *)

(** [put] and [get] copy the object representation of a value. *)
Definition put (dst : list byte) (offset : nat) (value : list byte) : option (list byte * nat) :=
  dst' ← mem_write dst offset value;
  Some (dst', (offset + length value)%nat).
Definition get (src : list byte) (offset size : nat) : option (list byte * nat) :=
  value ← mem_read src offset size;
  Some (value, (offset + size)%nat).

Record EncodedPayload := mkEncoded { bytes : list byte; size : Z }.
Definition payload_span (e : EncodedPayload) : list byte := take (Z.to_nat (size e)) (bytes e).

Fixpoint put_legs (ls : list EntryLeg) (dst : list byte) (offset : nat) : option (list byte * nat) :=
  match ls with
  | [] => Some (dst, offset)
  | leg :: rest =>
      '(dst, offset) ← put dst offset (le_split 8 (account_id leg));
      '(dst, offset) ← put dst offset (le_split 1 (direction_to_u8 (direction leg)));
      '(dst, offset) ← put dst offset (le_split 8 (amount leg));
      put_legs rest dst offset
  end.

Definition encode_transaction_payload (tx : Transaction) : option (Result EncodedPayload) :=
  let ls := LegList.span (legs tx) in
  let required := (8 * 2 + 1 + length ls * (8 + 1 + 8))%nat in
  if bool_decide (kMaxPayloadSize < required)%nat
  then Some (Error LedgerError.WalPayloadTooLarge)
  else
    let encoded := replicate kMaxPayloadSize Byte.x00 in
    '(dst, offset) ← put encoded 0 (le_split 8 (high (idempotency_key tx)));
    '(dst, offset) ← put dst offset (le_split 8 (low (idempotency_key tx)));
    '(dst, offset) ← put dst offset (le_split 1 (Z.of_nat (length ls)));
    '(dst, offset) ← put_legs ls dst offset;
    Some (Value (mkEncoded dst (wrap32 (Z.of_nat offset)))).

(** The loop over the legs, [n] of them left. *)
Fixpoint get_legs (n : nat) (payload : list byte) (offset : nat) (acc : LegList) :
    option (Result LegList) :=
  match n with
  | O => Some (Value acc)
  | S n' =>
      '(acc_bytes, offset) ← get payload offset 8;
      '(dir_bytes, offset) ← get payload offset 1;
      if bool_decide (1 < le_combine dir_bytes) then Some (Error LedgerError.WalCorruptRecord)
      else
        '(amt_bytes, offset) ← get payload offset 8;
        let leg := mkLeg (le_combine acc_bytes) (direction_of_u8 (le_combine dir_bytes))
                     (to_s64 (le_combine amt_bytes)) in
        match LegList.push_back acc leg with
        | (false, _) => Some (Error LedgerError.WalCorruptRecord)
        | (true, acc') => get_legs n' payload offset acc'
        end
  end.

Definition decode_transaction_payload (payload : list byte) (i : TransactionId) (ts : Z) :
    option (Result Transaction) :=
  let kMinSize := (8 * 2 + 1)%nat in
  if bool_decide (length payload < kMinSize)%nat then Some (Error LedgerError.WalCorruptRecord)
  else
    '(high_bytes, offset) ← get payload 0 8;
    '(low_bytes, offset) ← get payload offset 8;
    '(count_bytes, offset) ← get payload offset 1;
    let leg_count := Z.to_nat (le_combine count_bytes) in
    if bool_decide (kMaxLegsPerTransaction < leg_count)%nat
    then Some (Error LedgerError.WalCorruptRecord)
    else
      let expected_size := (offset + leg_count * (8 + 1 + 8))%nat in
      if bool_decide (length payload ≠ expected_size)
      then Some (Error LedgerError.WalCorruptRecord)
      else
        r ← get_legs leg_count payload offset LegList.make;
        match r with
        | Error e => Some (Error e)
        | Value ls =>
            Some (Value (mkTx i (mkKey (le_combine high_bytes) (le_combine low_bytes)) ts ls))
        end.

(** ** The layout as a specification *)

Definition leg_bytes (l : EntryLeg) : list byte :=
  le_split 8 (account_id l) ++ le_split 1 (direction_to_u8 (direction l)) ++ le_split 8 (amount l).
Definition payload_bytes (k : IdempotencyKey) (ls : list EntryLeg) : list byte :=
  le_split 8 (high k) ++ le_split 8 (low k) ++ le_split 1 (Z.of_nat (length ls)) ++
  (ls ≫= leg_bytes).

(** ** Writing *)

Lemma put_ok dst offset bs v :
  written dst offset bs → (length bs + length v ≤ length dst)%nat →
  ∃ dst', put dst offset v = Some (dst', (offset + length v)%nat) ∧
    length dst' = length dst ∧ written dst' (offset + length v) (bs ++ v).
Proof.
  intros Hw Hle. destruct (mem_write_written dst offset bs v Hw Hle) as (dst' & H & ? & ?).
  exists dst'. unfold put. by rewrite H.
Qed.

Lemma length_leg_bytes l : length (leg_bytes l) = 17%nat.
Proof. unfold leg_bytes. len. Qed.
Lemma length_legs_bytes ls : length (ls ≫= leg_bytes) = (length ls * 17)%nat.
Proof.
  induction ls as [|l ls IH]; [done|]. rewrite bind_cons, length_app, IH, length_leg_bytes.
  simpl. lia.
Qed.
Lemma length_payload_bytes k ls : length (payload_bytes k ls) = (17 + length ls * 17)%nat.
Proof. unfold payload_bytes. rewrite !length_app, length_legs_bytes, !length_le_split. lia. Qed.

#[export] Hint Rewrite length_leg_bytes length_legs_bytes length_payload_bytes : ledger_len.

Lemma put_legs_ok ls dst offset bs :
  written dst offset bs → (length bs + length ls * 17 ≤ length dst)%nat →
  ∃ dst' offset', put_legs ls dst offset = Some (dst', offset') ∧
    length dst' = length dst ∧ written dst' offset' (bs ++ (ls ≫= leg_bytes)).
Proof.
  revert dst offset bs. induction ls as [|l ls IH]; intros dst offset bs Hw Hle.
  { exists dst, offset. by rewrite app_nil_r. }
  cbn [put_legs length] in *.
  destruct (put_ok _ _ _ (le_split 8 (account_id l)) Hw) as (d1 & -> & Hl1 & Hw1); [len|].
  ubind.
  destruct (put_ok _ _ _ (le_split 1 (direction_to_u8 (direction l))) Hw1)
    as (d2 & -> & Hl2 & Hw2); [len|]. ubind.
  destruct (put_ok _ _ _ (le_split 8 (amount l)) Hw2) as (d3 & -> & Hl3 & Hw3); [len|].
  ubind. destruct (IH _ _ _ Hw3) as (d4 & o4 & -> & Hl4 & Hw4); [len|].
  exists d4, o4. split_and!; [done|lia|]. rewrite bind_cons. unfold leg_bytes at 1.
  by rewrite <- !app_assoc in *.
Qed.

(** A leg list has at most sixteen legs, so the payload always fits: encoding
    neither fails nor leaves its buffer, and produces the documented layout. *)
Lemma encode_ok tx :
  LegList.wf (legs tx) →
  ∃ e, encode_transaction_payload tx = Some (Value e) ∧
    length (bytes e) = kMaxPayloadSize ∧
    size e = Z.of_nat (length (payload_bytes (idempotency_key tx) (tx_legs tx))) ∧
    payload_span e = payload_bytes (idempotency_key tx) (tx_legs tx).
Proof.
  intros Hwf%LegList.span_length. fold (tx_legs tx) in Hwf.
  unfold encode_transaction_payload. fold (tx_legs tx). set (ls := tx_legs tx) in *.
  set (k := idempotency_key tx). unfold kMaxLegsPerTransaction in Hwf.
  rewrite bool_decide_false by (unfold kMaxPayloadSize; lia).
  set (buf := replicate kMaxPayloadSize Byte.x00).
  assert (length buf = kMaxPayloadSize) as Hbuf by apply length_replicate.
  unfold kMaxPayloadSize in *.
  destruct (put_ok buf 0 [] (le_split 8 (high k))) as (d1 & -> & Hl1 & Hw1); [done|len|].
  ubind.
  destruct (put_ok _ _ _ (le_split 8 (low k)) Hw1) as (d2 & -> & Hl2 & Hw2); [len|]. ubind.
  destruct (put_ok _ _ _ (le_split 1 (Z.of_nat (length ls))) Hw2) as (d3 & -> & Hl3 & Hw3); [len|].
  ubind.
  destruct (put_legs_ok ls _ _ _ Hw3) as (d4 & o4 & -> & Hl4 & Ht & Ho); [len|]. ubind.
  eexists; split; [done|].
  assert (o4 = length (payload_bytes k ls)) as Hlen.
  { rewrite Ho. unfold payload_bytes. by rewrite <- !app_assoc. }
  assert (wrap32 (Z.of_nat o4) = Z.of_nat o4) as Hwrap.
  { apply wrap32_id. rewrite Hlen, length_payload_bytes. range_lia. }
  unfold payload_span. cbn [bytes size]. rewrite Hwrap, Nat2Z.id. split_and!.
  - congruence.
  - by rewrite Hlen.
  - rewrite Ht. unfold payload_bytes. by rewrite <- !app_assoc.
Qed.

(** ** Reading *)

Lemma get_ok src offset n :
  (offset + n ≤ length src)%nat →
  get src offset n = Some (take n (drop offset src), (offset + n)%nat).
Proof. intros. unfold get. by rewrite mem_read_ok. Qed.

Lemma get_at payload pre v post offset n :
  payload = pre ++ v ++ post → offset = length pre → n = length v →
  get payload offset n = Some (v, (offset + n)%nat).
Proof. intros -> ??. unfold get. by rewrite mem_read_app. Qed.

Lemma le_combine_le_split_8 z : u64_ok z → le_combine (le_split 8 z) = z.
Proof. intros. rewrite le_combine_split_64. by apply wrap64_id. Qed.
Lemma le_combine_le_split_s8 z : s64_ok z → to_s64 (le_combine (le_split 8 z)) = z.
Proof. intros. rewrite le_combine_split_64. by apply to_s64_wrap64. Qed.
Lemma le_combine_le_split_1 z : u8_ok z → le_combine (le_split 1 z) = z.
Proof. intros. by apply le_combine_split_u. Qed.

(** Reading back legs that [put_legs] wrote appends them to the leg list. *)
Lemma get_legs_roundtrip ls payload pre post offset acc :
  Forall leg_ok ls → LegList.wf acc →
  (length (LegList.span acc) + length ls ≤ kMaxLegsPerTransaction)%nat →
  payload = pre ++ (ls ≫= leg_bytes) ++ post → offset = length pre →
  ∃ acc', get_legs (length ls) payload offset acc = Some (Value acc') ∧
    LegList.wf acc' ∧ LegList.span acc' = LegList.span acc ++ ls.
Proof.
  intros Hok. revert pre offset acc. induction Hok as [|l ls [Hid Ham] Hok IH];
    intros pre offset acc Hwf Hle Hp ->; [exists acc; by rewrite app_nil_r|].
  cbn [length get_legs]. rewrite bind_cons in Hp. unfold leg_bytes at 1 in Hp.
  rewrite <- !app_assoc in Hp.
  rewrite (get_at _ _ _ _ _ _ Hp) by len. ubind.
  rewrite (app_assoc pre) in Hp. rewrite (get_at _ _ _ _ _ _ Hp) by len. ubind.
  rewrite le_combine_le_split_1 by (destruct (direction l); simpl; range_lia).
  rewrite bool_decide_false by (destruct (direction l); simpl; lia).
  rewrite (app_assoc (pre ++ _)) in Hp. rewrite (get_at _ _ _ _ _ _ Hp) by len. ubind.
  rewrite le_combine_le_split_8, le_combine_le_split_s8, direction_of_to_u8 by done.
  destruct l as [i d a]; cbn [account_id direction amount] in *.
  pose proof (LegList.size_span _ Hwf) as Hsz. unfold LegList.size in Hsz.
  cbn [length] in Hle.
  destruct (LegList.push_back_room acc (mkLeg i d a) Hwf) as (acc1 & -> & Hwf1 & Hsp1); [lia|].
  rewrite (app_assoc ((pre ++ _) ++ _)) in Hp.
  edestruct IH as (acc' & Hget & Hwf' & Hsp'); [exact Hwf1| |exact Hp|reflexivity|].
  - rewrite Hsp1, length_app. simpl. lia.
  - exists acc'. split_and!; [|done|by rewrite Hsp', Hsp1, <- app_assoc].
    rewrite <- Hget. f_equal. len.
Qed.

(** Decoding what encoding wrote gives the transaction back: the idempotency key
    and the legs are those of the transaction, the id and the timestamp those of
    the record header. *)
Lemma decode_payload_bytes k ls i ts :
  key_ok k → Forall leg_ok ls → (length ls ≤ kMaxLegsPerTransaction)%nat →
  ∃ acc, decode_transaction_payload (payload_bytes k ls) i ts = Some (Value (mkTx i k ts acc)) ∧
    LegList.wf acc ∧ LegList.span acc = ls.
Proof.
  intros [Hhi Hlo] Hls Hle. unfold kMaxLegsPerTransaction in Hle.
  pose proof (length_payload_bytes k ls) as Hlen.
  assert (payload_bytes k ls = [] ++ payload_bytes k ls) as Hp by done.
  unfold payload_bytes in Hp at 2. set (p := payload_bytes k ls) in *.
  unfold decode_transaction_payload. rewrite bool_decide_false by lia.
  rewrite (get_at _ _ _ _ _ _ Hp) by len. ubind.
  rewrite (app_assoc []) in Hp. rewrite (get_at _ _ _ _ _ _ Hp) by len. ubind.
  rewrite (app_assoc ([] ++ _)) in Hp. rewrite (get_at _ _ _ _ _ _ Hp) by len. ubind.
  rewrite le_combine_le_split_1 by range_lia. rewrite Nat2Z.id.
  rewrite bool_decide_false by (unfold kMaxLegsPerTransaction; lia).
  rewrite bool_decide_false by lia.
  rewrite (app_assoc (([] ++ _) ++ _)) in Hp.
  rewrite <- (app_nil_r (ls ≫= leg_bytes)) in Hp.
  pose proof (λ Hr Ho, get_legs_roundtrip ls p _ _ (0 + 8 + 8 + 1) LegList.make Hls
    LegList.make_wf Hr Hp Ho) as Hrt. destruct Hrt as (acc & Hget & Hwf & Hsp); [|len|].
  - unfold kMaxLegsPerTransaction. simpl. lia.
  - exists acc. split_and!; [|done|by rewrite Hsp].
    rewrite Hget. ubind. rewrite !le_combine_le_split_8 by done. by destruct k.
Qed.

(** ** Every payload *)

(** On a payload of the announced length the loop returns; when it accepts, the
    payload is the encoding of the legs it built. *)
Lemma get_legs_total n payload offset acc :
  (offset + n * 17 = length payload)%nat → LegList.wf acc →
  (length (LegList.span acc) + n ≤ kMaxLegsPerTransaction)%nat →
  ∃ r, get_legs n payload offset acc = Some r ∧
    match r with
    | Error e => e = LedgerError.WalCorruptRecord
    | Value acc' => LegList.wf acc' ∧ ∃ ls, LegList.span acc' = LegList.span acc ++ ls ∧
        length ls = n ∧ Forall leg_ok ls ∧ (ls ≫= leg_bytes) = drop offset payload
    end.
Proof.
  revert offset acc. induction n as [|n IH]; intros offset acc Hlen Hwf Hle.
  { exists (Value acc). split; [done|]. split; [done|]. exists [].
    rewrite app_nil_r, drop_ge by lia. by repeat constructor. }
  cbn [get_legs]. rewrite !get_ok by lia. ubind. rewrite get_ok by lia. ubind.
  case_bool_decide as Hdir; [by eexists|]. rewrite get_ok by lia. ubind.
  pose proof (field_length payload offset 8 ltac:(lia)) as H1.
  pose proof (field_length payload (offset + 8) 1 ltac:(lia)) as H2.
  pose proof (field_length payload (offset + 8 + 1) 8 ltac:(lia)) as H3.
  set (b1 := take 8 (drop offset payload)) in *.
  set (b2 := take 1 (drop (offset + 8) payload)) in *.
  set (b3 := take 8 (drop (offset + 8 + 1) payload)) in *.
  set (l := mkLeg _ _ _).
  pose proof (LegList.size_span _ Hwf) as Hsz. unfold LegList.size in Hsz.
  destruct (LegList.push_back_room acc l Hwf) as (acc1 & -> & Hwf1 & Hsp1); [lia|].
  destruct (IH (offset + 8 + 1 + 8)%nat acc1) as (r & Hget & Hr); [lia|done| |].
  { rewrite Hsp1, length_app. simpl. lia. }
  exists r. split; [done|]. destruct r as [acc'|e]; [|done].
  destruct Hr as (Hwf' & ls & Hsp & Hn & Hok & Hbytes). split; [done|]. exists (l :: ls).
  split_and!; [by rewrite Hsp, Hsp1, <- app_assoc|by simpl; rewrite Hn| |].
  - constructor; [|done]. split; simpl; [by apply le_combine_u64|apply to_s64_range].
  - rewrite bind_cons, Hbytes. unfold leg_bytes, l; cbn [account_id direction amount].
    pose proof (le_combine_u8 _ H2) as Hu8.
    rewrite direction_to_of_u8, le_split_to_s64, !le_split_combine by (done || range_lia).
    rewrite <- !app_assoc. unfold b3. rewrite field_split. unfold b2. rewrite field_split.
    unfold b1. apply field_split.
Qed.

Lemma decode_total payload i ts :
  ∃ r, decode_transaction_payload payload i ts = Some r ∧
    match r with
    | Error e => e = LedgerError.WalCorruptRecord
    | Value tx => id tx = i ∧ created_at_ns tx = ts ∧ key_ok (idempotency_key tx) ∧
        LegList.wf (legs tx) ∧ Forall leg_ok (tx_legs tx) ∧
        payload_bytes (idempotency_key tx) (tx_legs tx) = payload
    end.
Proof.
  unfold decode_transaction_payload. case_bool_decide; [by eexists|].
  rewrite get_ok by lia. ubind. rewrite get_ok by lia. ubind. rewrite get_ok by lia. ubind.
  pose proof (field_length payload 0 8 ltac:(lia)) as H1.
  pose proof (field_length payload 8 8 ltac:(lia)) as H2.
  pose proof (field_length payload 16 1 ltac:(lia)) as H3.
  rewrite drop_0 in *. cbn [Nat.add] in *.
  case_bool_decide as Hcount; [by eexists|]. case_bool_decide as Hsize; [by eexists|].
  set (n := Z.to_nat (le_combine (take 1 (drop 16 payload)))) in *.
  destruct (get_legs_total n payload 17 LegList.make) as (r & Hget & Hr);
    [lia|apply LegList.make_wf|simpl; lia|]. rewrite Hget. ubind.
  destruct r as [acc|e]; [|by eexists]. eexists; split; [done|].
  destruct Hr as (Hwf & ls & Hsp & Hn & Hok & Hbytes). unfold tx_legs.
  cbn [id created_at_ns idempotency_key legs high low]. rewrite Hsp. simpl.
  split_and!; [done|done| |done|done|].
  - split; by apply le_combine_u64.
  - unfold payload_bytes. cbn [high low]. rewrite Hbytes, Hn. unfold n.
    pose proof (le_combine_u8 _ H3). rewrite Z2Nat.id by range_lia.
    rewrite !le_split_combine by done.
    change (drop 17 payload) with (drop (16 + 1) payload). rewrite (field_split payload 16 1).
    change (drop 16 payload) with (drop (8 + 8) payload). rewrite (field_split payload 8 8).
    apply take_drop.
Qed.

(** ** The codec's contract *)

(** Encoding always succeeds (the payload of at most sixteen legs fits the static
    buffer), and decoding its bytes returns the same idempotency key and the same
    legs, with the id and timestamp of the header. *)
Theorem encode_decode_roundtrip tx i ts :
  tx_ok tx →
  ∃ e tx', encode_transaction_payload tx = Some (Value e) ∧ size e ≤ Z.of_nat kMaxPayloadSize ∧
    decode_transaction_payload (payload_span e) i ts = Some (Value tx') ∧
    id tx' = i ∧ created_at_ns tx' = ts ∧ idempotency_key tx' = idempotency_key tx ∧
    legs tx' ≡ legs tx.
Proof.
  intros (_ & Hkey & _ & Hwf & Hlegs).
  destruct (encode_ok tx Hwf) as (e & He & Hlen & Hsz & Hspan).
  pose proof (LegList.span_length _ Hwf) as Hle. fold (tx_legs tx) in Hle.
  destruct (decode_payload_bytes (idempotency_key tx) (tx_legs tx) i ts) as (acc & Hd & _ & Hsp);
    [done..|].
  exists e, (mkTx i (idempotency_key tx) ts acc). rewrite Hspan. split_and!; try done.
  rewrite Hsz, length_payload_bytes.
  unfold kMaxPayloadSize, kMaxLegsPerTransaction in *. lia.
Qed.

Lemma encode_decode_roundtrip_witness :
  ∃ e tx', encode_transaction_payload (mkTx 7 (mkKey 3 4) 5
      (LegList.of_list [mkLeg 1 Debit 100; mkLeg 2 Credit 100])) = Some (Value e) ∧
    size e ≤ 512 ∧
    decode_transaction_payload (payload_span e) 7 9 = Some (Value tx') ∧
    id tx' = 7 ∧ created_at_ns tx' = 9 ∧ idempotency_key tx' = mkKey 3 4 ∧
    legs tx' ≡ LegList.of_list [mkLeg 1 Debit 100; mkLeg 2 Credit 100].
Proof.
  apply (encode_decode_roundtrip (mkTx 7 (mkKey 3 4) 5
      (LegList.of_list [mkLeg 1 Debit 100; mkLeg 2 Credit 100]))). by_compute.
Defined.

(** C30: Decoding is safe on arbitrary bytes: it never reads outside the payload, its
    only error is [WalCorruptRecord], and a payload it accepts is exactly the
    encoding of the transaction it returns. *)
Theorem decode_safe_and_canonical payload i ts :
  ∃ r, decode_transaction_payload payload i ts = Some r ∧
    match r with
    | Error e => e = LedgerError.WalCorruptRecord
    | Value tx => LegList.wf (legs tx) ∧ Forall leg_ok (tx_legs tx) ∧
        ∃ e, encode_transaction_payload tx = Some (Value e) ∧ payload_span e = payload
    end.
Proof.
  destruct (decode_total payload i ts) as (r & Hr & Hcase). exists r. split; [done|].
  destruct r as [tx|e]; [|done]. destruct Hcase as (_ & _ & _ & Hwf & Hok & <-).
  split_and!; [done..|]. destruct (encode_ok tx Hwf) as (e & He & _ & _ & Hspan). eauto.
Qed.
