(* ===== verification/Posix.v ===== *)
(** * The operating-system interface

    The engine works directly on POSIX file descriptors ([open], [write],
    [pread], [fsync], ...), which are not part of the repository.  They are a
    parameter of the model: the class [Posix] lists the calls the code makes over
    an abstract type of worlds, and [PosixLaws] states the documented behaviour
    the code relies on, relative to a view of the world as a file system.
    [include/ledger/unique_fd.hpp] is modelled at the end, and the module
    [MemFs] is a concrete in-memory instance with fault injection, on which the
    development's scenarios run. *)

From S2P Require Import Prelude.
From Stdlib Require Import Ascii.

(** ** Calls *)

Record OpenFlags := mkFlags {
  o_write : bool; o_creat : bool; o_append : bool; o_trunc : bool
}.
Definition O_RDONLY : OpenFlags := mkFlags false false false false.
Definition O_WRONLY : OpenFlags := mkFlags true false false false.
Definition O_CREAT_WRONLY_APPEND : OpenFlags := mkFlags true true true false.
Definition O_CREAT_WRONLY_TRUNC : OpenFlags := mkFlags true true false true.

(** Results are as in C: a negative descriptor or count, or a nonzero status, is
    an error.  [sys_fstat] returns [st_size] when the call succeeded. *)
Class Posix := {
  world : Type;
  sys_open : string → OpenFlags → world → Z * world;
  sys_close : Z → world → world;
  sys_fstat : Z → world → option Z * world;
  sys_write : Z → list byte → world → Z * world;
  sys_read : Z → Z → world → Z * list byte * world;
  sys_pread : Z → Z → Z → world → Z * list byte * world;
  sys_ftruncate : Z → Z → world → Z * world;
  sys_fsync : Z → world → Z * world;
  sys_rename : string → string → world → Z * world;
  sys_clock_monotonic : world → Z * Z * world
}.

(** ** Effectful computations

    A method that makes system calls is a function from worlds to a result and
    the world after it; [None] is undefined behaviour. *)
Section Monad.
Context `{Posix}.

Definition M (A : Type) : Type := world → option (A * world).

#[export] Instance M_ret : MRet M := λ A a w, Some (a, w).
#[export] Instance M_bind : MBind M := λ A B f m w,
  match m w with Some (a, w') => f a w' | None => None end.

(** A pure step that may be undefined. *)
Definition lift {A} (o : option A) : M A := λ w, (λ a, (a, w)) <$> o.
(** A system call. *)
Definition call {A} (f : world → A * world) : M A := λ w, Some (f w).

Lemma bind_unfold {A B} (f : A → M B) (m : M A) w :
  (m ≫= f) w = match m w with Some (a, w') => f a w' | None => None end.
Proof. done. Qed.
Lemma ret_unfold {A} (a : A) w : (mret a : M A) w = Some (a, w).
Proof. done. Qed.
Lemma call_unfold {A} (f : world → A * world) w : call f w = Some (f w).
Proof. done. Qed.
Lemma lift_unfold {A} (o : option A) w :
  lift o w = match o with Some a => Some (a, w) | None => None end.
Proof. by destruct o. Qed.
End Monad.

(** ** File systems

    What a world looks like to a process: names, files with their current
    contents and the contents that have reached stable storage, and open
    descriptors. *)

Record inode := mkInode { cur : list byte; stable : list byte }.

Inductive ofd :=
  | FdFile (i : Z) (writable append : bool) (pos : nat)
  | FdDir (p : string).

Record fs := mkFs {
  dir : gmap string Z;
  sdir : gmap string Z;
  dirs : gset string;
  files : gmap Z inode;
  fds : gmap Z ofd
}.

Definition file_at (f : fs) (p : string) : option inode := dir f !! p ≫= λ i, files f !! i.
Definition contents (f : fs) (p : string) : option (list byte) := cur <$> file_at f p.

Definition set_fd (f : fs) (d : Z) (o : ofd) : fs :=
  mkFs (dir f) (sdir f) (dirs f) (files f) (<[d := o]> (fds f)).
Definition del_fd (f : fs) (d : Z) : fs :=
  mkFs (dir f) (sdir f) (dirs f) (files f) (delete d (fds f)).
Definition set_file (f : fs) (i : Z) (nd : inode) : fs :=
  mkFs (dir f) (sdir f) (dirs f) (<[i := nd]> (files f)) (fds f).
Definition set_dir (f : fs) (p : string) (i : Z) : fs :=
  mkFs (<[p := i]> (dir f)) (sdir f) (dirs f) (files f) (fds f).

(** [write_at c pos bs]: the contents after writing [bs] at position [pos]. *)
Definition write_at (c : list byte) (pos : nat) (bs : list byte) : list byte :=
  take pos c ++ replicate (pos - length c) Byte.x00 ++ bs ++ drop (pos + length bs) c.
(** [resize c n]: the contents after [ftruncate] to [n] bytes. *)
Definition resize (c : list byte) (n : nat) : list byte :=
  take n c ++ replicate (n - length c) Byte.x00.

(** The position of the last slash of a name. *)
Fixpoint last_slash (p : string) : option nat :=
  match p with
  | EmptyString => None
  | String c p' =>
      match last_slash p' with
      | Some n => Some (S n)
      | None => if bool_decide (c = "/"%char) then Some O else None
      end
  end.

(** The directory that holds a name; [fsync] of it makes the name durable. *)
Definition dirname (p : string) : string :=
  match last_slash p with
  | None => "."
  | Some O => "/"
  | Some n => String.substring 0 n p
  end.
Definition in_dir (parent p : string) : Prop := dirname p = parent.

(** Effects of successful calls. *)
Inductive open_effect (p : string) (fl : OpenFlags) (d : Z) (f : fs) : fs → Prop :=
  | open_existing i nd :
      dir f !! p = Some i → files f !! i = Some nd →
      open_effect p fl d f
        (set_fd (set_file f i (if o_trunc fl then mkInode [] (stable nd) else nd)) d
          (FdFile i (o_write fl) (o_append fl) 0))
  | open_create i :
      dir f !! p = None → o_creat fl = true → files f !! i = None →
      open_effect p fl d f
        (set_fd (set_dir (set_file f i (mkInode [] [])) p i) d
          (FdFile i (o_write fl) (o_append fl) 0))
  | open_directory :
      p ∈ dirs f → dir f !! p = None → o_write fl = false → o_creat fl = false →
      open_effect p fl d f (set_fd f d (FdDir p)).

Definition write_effect (d : Z) (bs : list byte) (f : fs) : fs :=
  match fds f !! d with
  | Some (FdFile i w app pos) =>
      match files f !! i with
      | Some nd =>
          let pos' := if app then length (cur nd) else pos in
          set_fd (set_file f i (mkInode (write_at (cur nd) pos' bs) (stable nd))) d
            (FdFile i w app (pos' + length bs))
      | None => f
      end
  | _ => f
  end.

Definition rename_effect (p q : string) (f : fs) : fs :=
  match dir f !! p with
  | Some i => mkFs (<[q := i]> (delete p (dir f))) (sdir f) (dirs f) (files f) (fds f)
  | None => f
  end.

(** [fsync] of a file makes its contents durable, of a directory the names in
    it. *)
Inductive fsync_effect (d : Z) (f : fs) : fs → Prop :=
  | fsync_file i w app pos nd :
      fds f !! d = Some (FdFile i w app pos) → files f !! i = Some nd →
      fsync_effect d f (set_file f i (mkInode (cur nd) (cur nd)))
  | fsync_directory p sd :
      fds f !! d = Some (FdDir p) →
      (∀ q, in_dir p q → sd !! q = dir f !! q) →
      (∀ q, ¬ in_dir p q → sd !! q = sdir f !! q) →
      fsync_effect d f (mkFs (dir f) sd (dirs f) (files f) (fds f)).

(** The descriptor is open on a file or a directory. *)
Definition fd_live (f : fs) (d : Z) : Prop :=
  match fds f !! d with
  | Some (FdFile i _ _ _) => files f !! i ≠ None
  | Some (FdDir _) => True
  | None => False
  end.

(** ** Documented behaviour *)

Class PosixLaws (P : Posix) := {
  (** What the process sees, and every view it has gone through. *)
  view : world → fs;
  history : world → list fs;
  (** From here on no call fails for a reason outside the program. *)
  reliable : world → Prop;

  open_law p fl w d w' : sys_open p fl w = (d, w') →
    (d < 0 ∧ view w' = view w ∧ history w' = history w ++ [view w']) ∨
    (0 ≤ d ∧ fds (view w) !! d = None ∧ open_effect p fl d (view w) (view w') ∧
     history w' = history w ++ [view w']);
  open_reliable p fl w : reliable w →
    (contents (view w) p ≠ None ∨ (dir (view w) !! p = None ∧ o_creat fl = true)) →
    0 ≤ (sys_open p fl w).1;
  close_law d w :
    view (sys_close d w) = del_fd (view w) d ∧
    history (sys_close d w) = history w ++ [view (sys_close d w)];
  fstat_law d w r w' i wr app pos nd : sys_fstat d w = (r, w') →
    fds (view w) !! d = Some (FdFile i wr app pos) → files (view w) !! i = Some nd →
    view w' = view w ∧ history w' = history w ++ [view w'] ∧
    (r = None ∨ r = Some (Z.of_nat (length (cur nd)))) ∧
    (reliable w → r ≠ None);
  write_law d bs w n w' i app pos : sys_write d bs w = (n, w') →
    fds (view w) !! d = Some (FdFile i true app pos) →
    history w' = history w ++ [view w'] ∧
    ((n < 0 ∧ view w' = view w) ∨
     (0 ≤ n ≤ Z.of_nat (length bs) ∧
      view w' = write_effect d (take (Z.to_nat n) bs) (view w))) ∧
    (reliable w → n = Z.of_nat (length bs));
  read_law d count w n bs w' i wr app pos nd : sys_read d count w = (n, bs, w') →
    fds (view w) !! d = Some (FdFile i wr app pos) → files (view w) !! i = Some nd →
    history w' = history w ++ [view w'] ∧
    ((n < 0 ∧ view w' = view w) ∨
     (n = Z.of_nat (length bs) ∧ n ≤ count ∧ bs = take (length bs) (drop pos (cur nd)) ∧
      (n = 0 → count = 0 ∨ (length (cur nd) ≤ pos)%nat) ∧
      view w' = set_fd (view w) d (FdFile i wr app (pos + length bs)))) ∧
    (reliable w → 0 ≤ count → n = Z.of_nat (length bs) ∧
      bs = take (Z.to_nat count) (drop pos (cur nd)));
  pread_law d count off w n bs w' i wr app pos nd : sys_pread d count off w = (n, bs, w') →
    fds (view w) !! d = Some (FdFile i wr app pos) → files (view w) !! i = Some nd →
    view w' = view w ∧ history w' = history w ++ [view w'] ∧
    (n < 0 ∨
     (n = Z.of_nat (length bs) ∧ n ≤ count ∧ 0 ≤ off ∧
      bs = take (length bs) (drop (Z.to_nat off) (cur nd)) ∧
      (n = 0 → count = 0 ∨ (length (cur nd) ≤ Z.to_nat off)%nat))) ∧
    (reliable w → 0 ≤ count → 0 ≤ off → n = Z.of_nat (length bs) ∧
      bs = take (Z.to_nat count) (drop (Z.to_nat off) (cur nd)));
  ftruncate_law d len w r w' i app pos nd : sys_ftruncate d len w = (r, w') →
    fds (view w) !! d = Some (FdFile i true app pos) → files (view w) !! i = Some nd →
    history w' = history w ++ [view w'] ∧
    ((r ≠ 0 ∧ view w' = view w) ∨
     (r = 0 ∧ 0 ≤ len ∧
      view w' = set_file (view w) i (mkInode (resize (cur nd) (Z.to_nat len)) (stable nd)))) ∧
    (reliable w → 0 ≤ len → r = 0);
  fsync_law d w r w' : sys_fsync d w = (r, w') → fd_live (view w) d →
    history w' = history w ++ [view w'] ∧
    ((r ≠ 0 ∧ view w' = view w) ∨ (r = 0 ∧ fsync_effect d (view w) (view w'))) ∧
    (reliable w → r = 0);
  rename_law p q w r w' : sys_rename p q w = (r, w') →
    history w' = history w ++ [view w'] ∧
    ((r ≠ 0 ∧ view w' = view w) ∨
     (r = 0 ∧ dir (view w) !! p ≠ None ∧ view w' = rename_effect p q (view w))) ∧
    (reliable w → dir (view w) !! p ≠ None → r = 0);
  clock_law w s ns w' : sys_clock_monotonic w = (s, ns, w') →
    view w' = view w ∧ history w' = history w ++ [view w'] ∧
    0 ≤ s < 8589934592 ∧ 0 ≤ ns < 1000000000;
  (** Reliability persists. *)
  reliable_open p fl w : reliable w → reliable (sys_open p fl w).2;
  reliable_close d w : reliable w → reliable (sys_close d w);
  reliable_fstat d w : reliable w → reliable (sys_fstat d w).2;
  reliable_write d bs w : reliable w → reliable (sys_write d bs w).2;
  reliable_read d count w : reliable w → reliable (sys_read d count w).2;
  reliable_pread d count off w : reliable w → reliable (sys_pread d count off w).2;
  reliable_ftruncate d len w : reliable w → reliable (sys_ftruncate d len w).2;
  reliable_fsync d w : reliable w → reliable (sys_fsync d w).2;
  reliable_rename p q w : reliable w → reliable (sys_rename p q w).2;
  reliable_clock w : reliable w → reliable (sys_clock_monotonic w).2
}.

(** Evaluates the head of an effectful computation. *)
Ltac msimpl :=
  cbv beta iota delta [negb orb andb];
  repeat (first [rewrite bind_unfold | rewrite ret_unfold | rewrite call_unfold
                | rewrite lift_unfold]; cbv beta iota delta [negb orb andb]).
Tactic Notation "msimpl" "in" hyp(H) :=
  cbv beta iota delta [negb orb andb] in H;
  repeat (first [rewrite bind_unfold in H | rewrite ret_unfold in H | rewrite call_unfold in H
                | rewrite lift_unfold in H]; cbv beta iota delta [negb orb andb] in H).

(** *** Descriptors open on a file *)

(** Descriptor [d] is open on file [i], whose node is [nd]. *)
Definition open_on (f : fs) (d : Z) (wr app : bool) (i : Z) (nd : inode) : Prop :=
  ∃ pos, fds f !! d = Some (FdFile i wr app pos) ∧ files f !! i = Some nd.

(** Only file [i] and descriptor [d] differ between two views. *)
Definition frame (i d : Z) (f f' : fs) : Prop :=
  dir f' = dir f ∧ sdir f' = sdir f ∧ dirs f' = dirs f ∧
  (∀ j, j ≠ i → files f' !! j = files f !! j) ∧
  (∀ e, e ≠ d → fds f' !! e = fds f !! e).

#[export] Instance frame_preorder i d : PreOrder (frame i d).
Proof.
  split.
  - intros f. by repeat split.
  - intros f g h (?&?&?&Hf&Hd) (?&?&?&Hf'&Hd'). repeat split; try congruence.
    + intros j Hj. by rewrite Hf', Hf.
    + intros e He. by rewrite Hd', Hd.
Qed.

(** The contents only grow at the end, and what is durable stays so. *)
Definition grows (nd nd' : inode) : Prop :=
  cur nd `prefix_of` cur nd' ∧
  (stable nd `prefix_of` cur nd → stable nd `prefix_of` stable nd' ∧ stable nd' `prefix_of` cur nd').

#[export] Instance grows_preorder : PreOrder grows.
Proof.
  split; [by intros nd|]. intros x y z [Hc Hs] [Hc' Hs']. split; [by etrans|]. intros Hx.
  destruct (Hs Hx) as [Hxy Hy]. destruct (Hs' Hy) as [Hyz Hz]. split; [by etrans|done].
Qed.

Lemma grows_append nd bs : grows nd (mkInode (cur nd ++ bs) (stable nd)).
Proof. split; simpl; [by apply prefix_app_r|]. intros Hs. split; [done|by apply prefix_app_r]. Qed.
Lemma grows_sync nd : grows nd (mkInode (cur nd) (cur nd)).
Proof. done. Qed.

(** *** The history of a run *)
Section History.
Context {P : Posix} {L : PosixLaws P}.

(** From [w] to [w'], every view the process went through satisfies [Q]. *)
Definition through (Q : fs → Prop) (w w' : world) : Prop :=
  ∃ hs, history w' = history w ++ hs ∧ Forall Q hs.

Lemma through_refl Q w : through Q w w.
Proof. exists []. by rewrite app_nil_r. Qed.
Lemma through_trans Q w1 w2 w3 : through Q w1 w2 → through Q w2 w3 → through Q w1 w3.
Proof.
  intros (h1 & H1 & Hq1) (h2 & H2 & Hq2). exists (h1 ++ h2).
  split; [by rewrite H2, H1, app_assoc|]. by apply Forall_app.
Qed.
Lemma through_step (Q : fs → Prop) w w' :
  history w' = history w ++ [view w'] → Q (view w') → through Q w w'.
Proof. intros Hh HQ. exists [view w']. split; [done|]. by apply Forall_singleton. Qed.
Lemma through_impl (Q Q' : fs → Prop) w w' :
  (∀ f, Q f → Q' f) → through Q w w' → through Q' w w'.
Proof. intros HQ (hs & ? & ?). exists hs. split; [done|]. by eapply Forall_impl. Qed.

(** From [w] to [w'] nothing but the file [i] and the descriptor [d] changed, and
    the file grew from [nd] to [nd']. *)
Definition logged (i d : Z) (w : world) (nd : inode) (w' : world) (nd' : inode) : Prop :=
  frame i d (view w) (view w') ∧ grows nd nd' ∧
  through (λ f, frame i d (view w) f ∧
    ∃ nf, files f !! i = Some nf ∧ grows nd nf ∧ grows nf nd') w w'.

Lemma logged_refl i d w nd : logged i d w nd w nd.
Proof. split_and!; [done|done|apply through_refl]. Qed.
Lemma logged_trans i d w1 nd1 w2 nd2 w3 nd3 :
  logged i d w1 nd1 w2 nd2 → logged i d w2 nd2 w3 nd3 → logged i d w1 nd1 w3 nd3.
Proof.
  intros (Hf & Hg & Ht) (Hf' & Hg' & Ht'). split_and!; [by etrans|by etrans|].
  eapply through_trans; (eapply through_impl; [|done]); intros f (Hff & nf & Hnf & Hg1 & Hg2).
  - split; [done|]. exists nf. split_and!; [done|done|by etrans].
  - split; [by etrans|]. exists nf. split_and!; [done|by etrans|done].
Qed.
Lemma logged_step i d w nd w' nd' :
  history w' = history w ++ [view w'] → frame i d (view w) (view w') →
  files (view w') !! i = Some nd' → grows nd nd' → logged i d w nd w' nd'.
Proof. intros Hh Hf Hi Hg. split_and!; [done|done|]. apply through_step; [done|]. split; [done|]. by exists nd'. Qed.
Lemma logged_same i d w nd w' :
  history w' = history w ++ [view w'] → view w' = view w → files (view w) !! i = Some nd →
  logged i d w nd w' nd.
Proof. intros Hh Hv Hi. apply logged_step; [done|by rewrite Hv|by rewrite Hv|done]. Qed.
End History.

Lemma write_at_end c bs : write_at c (length c) bs = c ++ bs.
Proof.
  unfold write_at. rewrite take_ge, Nat.sub_diag, drop_ge by lia. simpl. by rewrite app_nil_r.
Qed.

Lemma write_effect_append f d i nd bs :
  open_on f d true true i nd →
  open_on (write_effect d bs f) d true true i (mkInode (cur nd ++ bs) (stable nd)) ∧
  frame i d f (write_effect d bs f).
Proof.
  intros (pos & Hd & Hi). unfold write_effect. rewrite Hd, Hi, write_at_end. split.
  - eexists; simpl. by rewrite !lookup_insert_eq.
  - repeat split; simpl; intros; by rewrite lookup_insert_ne.
Qed.

Lemma fsync_effect_file f f' d wr app i nd :
  open_on f d wr app i nd → fsync_effect d f f' →
  open_on f' d wr app i (mkInode (cur nd) (cur nd)) ∧ frame i d f f'.
Proof.
  intros (pos & Hd & Hi) He. destruct He as [? ? ? ? ? Hd' Hi'|? ? Hd']; simplify_eq.
  split.
  - eexists; simpl. by rewrite lookup_insert_eq.
  - repeat split; simpl; intros; by rewrite lookup_insert_ne.
Qed.

Lemma open_on_live f d wr app i nd : open_on f d wr app i nd → fd_live f d.
Proof. intros (pos & Hd & Hi). unfold fd_live. by rewrite Hd, Hi. Qed.

Lemma fs_eq f g :
  dir f = dir g → sdir f = sdir g → dirs f = dirs g → files f = files g → fds f = fds g → f = g.
Proof. destruct f, g; simpl; congruence. Qed.

Lemma set_file_id f i nd : files f !! i = Some nd → set_file f i nd = f.
Proof. intros Hi. apply fs_eq; simpl; try done. by apply insert_id. Qed.
Lemma set_file_set_file f i nd nd' : set_file (set_file f i nd) i nd' = set_file f i nd'.
Proof. apply fs_eq; simpl; try done. apply insert_insert_eq. Qed.
Lemma del_fd_set_fd f d o : fds f !! d = None → del_fd (set_fd f d o) d = f.
Proof. intros Hd. apply fs_eq; simpl; try done. rewrite delete_insert_eq. by apply delete_id. Qed.
Lemma set_file_set_fd f i nd d o : set_file (set_fd f d o) i nd = set_fd (set_file f i nd) d o.
Proof. done. Qed.

Lemma set_fd_set_fd f d o o' : set_fd (set_fd f d o) d o' = set_fd f d o'.
Proof. apply fs_eq; simpl; try done. apply insert_insert_eq. Qed.

Lemma open_on_set_fd f d wr app i nd pos :
  files f !! i = Some nd → open_on (set_fd f d (FdFile i wr app pos)) d wr app i nd.
Proof. intros Hi. exists pos. simpl. by rewrite lookup_insert_eq. Qed.

Lemma fsync_effect_eq f f' d wr app i nd :
  open_on f d wr app i nd → fsync_effect d f f' → f' = set_file f i (mkInode (cur nd) (cur nd)).
Proof. intros (pos & Hd & Hi) He. by destruct He; simplify_eq. Qed.

Section OpenFile.
Context {P : Posix} {L : PosixLaws P}.

(** Opening a file that exists, without truncation. *)
Lemma open_file p fl w i nd :
  dir (view w) !! p = Some i → files (view w) !! i = Some nd → o_trunc fl = false →
  ∃ d w', sys_open p fl w = (d, w') ∧ (reliable w → reliable w' ∧ 0 ≤ d) ∧
    (d < 0 ∧ view w' = view w ∨
     0 ≤ d ∧ fds (view w) !! d = None ∧
     view w' = set_fd (view w) d (FdFile i (o_write fl) (o_append fl) 0)).
Proof.
  intros Hp Hi Ht. pose proof (reliable_open p fl w) as Hr. pose proof (open_reliable p fl w) as Ho.
  destruct (sys_open p fl w) as [d w'] eqn:Hop. simpl in *. exists d, w'. split_and!; [done| |].
  { intros Hw. split; [auto|]. apply Ho; [done|left]. unfold contents, file_at.
    rewrite Hp. simpl. by rewrite Hi. }
  destruct (open_law _ _ _ _ _ Hop) as [(? & ? & _)|(Hd & Hf & He & _)]; [by left|right].
  split_and!; [done|done|]. destruct He as [i' nd' Hp' Hi'| |]; simplify_eq.
  rewrite Ht. by rewrite set_file_id.
Qed.

(** Opening a name that does not exist, without creating it, when it names no
    directory either. *)
Lemma open_missing p fl w :
  dir (view w) !! p = None → p ∉ dirs (view w) → o_creat fl = false →
  ∃ d w', sys_open p fl w = (d, w') ∧ d < 0 ∧ view w' = view w ∧ (reliable w → reliable w').
Proof.
  intros Hp Hdirs Hc. pose proof (reliable_open p fl w) as Hr.
  destruct (sys_open p fl w) as [d w'] eqn:Hop. exists d, w'.
  destruct (open_law _ _ _ _ _ Hop) as [(? & ? & _)|(Hd & Hf & He & _)]; [done|].
  destruct He; simplify_eq; congruence || done.
Qed.

(** A [read] on a descriptor opened for reading at [pos]: it delivers the [count]
    bytes there, or not that many. *)
Lemma read_at w f d i nd pos count :
  view w = set_fd f d (FdFile i false false pos) → files f !! i = Some nd →
  ∃ n bs w' pos', sys_read d (Z.of_nat count) w = (n, bs, w') ∧ (reliable w → reliable w') ∧
    view w' = set_fd f d (FdFile i false false pos') ∧
    (n = Z.of_nat count ∧ bs = take count (drop pos (cur nd)) ∧ pos' = (pos + count)%nat ∧
       (count ≤ length (drop pos (cur nd)))%nat ∨
     n ≠ Z.of_nat count ∧ (reliable w → (length (drop pos (cur nd)) < count)%nat)).
Proof.
  intros Hv Hi. pose proof (reliable_read d (Z.of_nat count) w) as Hr.
  destruct (sys_read d (Z.of_nat count) w) as [[n bs] w'] eqn:Hread. simpl in Hr.
  destruct (read_law _ _ _ _ _ _ i false false pos nd Hread) as (_ & Hcase & Hrel);
    [rewrite Hv; simpl; by rewrite lookup_insert_eq|by rewrite Hv|].
  exists n, bs, w'. destruct Hcase as [[Hneg Hv']|(Hn & Hle & Hbs & _ & Hv')].
  - exists pos. split_and!; [done|done|by rewrite Hv'|right]. split; [lia|].
    intros [? _]%Hrel; lia.
  - exists (pos + length bs)%nat. split_and!; [done|done|by rewrite Hv', Hv, set_fd_set_fd|].
    destruct (decide (n = Z.of_nat count)) as [->|Hne]; [left|right]; split; try done.
    + assert (length bs = count) as Hlen by lia. rewrite Hlen in *. split_and!; [done..|].
      apply (f_equal length) in Hbs. rewrite length_take in Hbs. lia.
    + intros [? Hb]%Hrel; [|lia]. rewrite Nat2Z.id in Hb. apply (f_equal length) in Hb.
      rewrite length_take in Hb. lia.
Qed.
End OpenFile.

(** ** [UniqueFd] ([unique_fd.hpp])

    The wrapper is its descriptor; -1 when it owns none. *)
Module UniqueFd.
Section UniqueFd.
Context `{Posix}.

Definition valid (fd_ : Z) : bool := bool_decide (0 ≤ fd_).

(** [reset(new_fd)] closes the owned descriptor; the destructor is [reset()]. *)
Definition reset (fd_ new_fd : Z) : M Z := λ w,
  Some (new_fd, if valid fd_ then sys_close fd_ w else w).

(** [release()] gives the descriptor away without closing it. *)
Definition release (fd_ : Z) : Z * Z := (fd_, -1).

(** Move assignment [*this = std::move(other)] for two distinct objects: returns
    the descriptors of [*this] and [other] afterwards. *)
Definition move_assign (this_fd other_fd : Z) : M (Z * Z) :=
  _ ← reset this_fd (-1);
  let '(taken, other') := release other_fd in
  mret (taken, other').
End UniqueFd.
End UniqueFd.

(** ** An in-memory instance *)

Module MemFs.

(** What the environment does to the next call: nothing, make it fail, or let a
    [write] transfer only some of its bytes. *)
Inductive fault := Fine | Fail | Short (n : nat).

Record mem := mkMem { mfs : fs; hist : list fs; faults : list fault; clk : Z }.

Definition next (w : mem) : fault * list fault :=
  match faults w with [] => (Fine, []) | x :: xs => (x, xs) end.
Definition goto (w : mem) (f : fs) : mem :=
  mkMem f (hist w ++ [f]) (next w).2 (clk w).
Definition failed (w : mem) : bool := match (next w).1 with Fail => true | _ => false end.

(** A descriptor number above all those in use. *)
Definition new_fd (f : fs) : Z := map_fold (λ d _ m, Z.max m (d + 1)) 3 (fds f).

Lemma new_fd_above (m : gmap Z ofd) :
  3 ≤ map_fold (λ d _ m, Z.max m (d + 1)) 3 m ∧
  ∀ d, m !! d ≠ None → d < map_fold (λ d _ m, Z.max m (d + 1)) 3 m.
Proof.
  apply (map_fold_weak_ind (λ r (m : gmap Z ofd), 3 ≤ r ∧ ∀ d, m !! d ≠ None → d < r)).
  - split; [lia|]. intros d. by rewrite lookup_empty.
  - intros i x m' r Hi [H3 Hr]. split; [lia|]. intros d. rewrite lookup_insert.
    case_decide; [lia|]. intros Hd%Hr. lia.
Qed.

Lemma new_fd_fresh f : 0 ≤ new_fd f ∧ fds f !! new_fd f = None.
Proof.
  destruct (new_fd_above (fds f)) as [H3 Hlt]. unfold new_fd. split; [lia|].
  destruct (fds f !! _) eqn:Hd; [|done]. specialize (Hlt _ ltac:(by rewrite Hd)). lia.
Qed.

Definition m_open (p : string) (fl : OpenFlags) (w : mem) : Z * mem :=
  let f := mfs w in
  let d := new_fd f in
  if failed w then (-1, goto w f) else
  match dir f !! p with
  | Some i =>
      match files f !! i with
      | Some nd =>
          (d, goto w (set_fd (set_file f i (if o_trunc fl then mkInode [] (stable nd) else nd)) d
                (FdFile i (o_write fl) (o_append fl) 0)))
      | None => (-1, goto w f)
      end
  | None =>
      if o_creat fl then
        let i := fresh (dom (files f)) in
        (d, goto w (set_fd (set_dir (set_file f i (mkInode [] [])) p i) d
              (FdFile i (o_write fl) (o_append fl) 0)))
      else if bool_decide (p ∈ dirs f) && negb (o_write fl)
      then (d, goto w (set_fd f d (FdDir p)))
      else (-1, goto w f)
  end.

Definition m_close (d : Z) (w : mem) : mem := goto w (del_fd (mfs w) d).

(** The file behind a descriptor. *)
Definition fd_file (f : fs) (d : Z) : option (Z * bool * bool * nat * inode) :=
  match fds f !! d with
  | Some (FdFile i w app pos) => (λ nd, (i, w, app, pos, nd)) <$> files f !! i
  | _ => None
  end.

Definition m_fstat (d : Z) (w : mem) : option Z * mem :=
  (if failed w then None
   else (λ '(_, _, _, _, nd), Z.of_nat (length (cur nd))) <$> fd_file (mfs w) d, goto w (mfs w)).

Definition m_write (d : Z) (bs : list byte) (w : mem) : Z * mem :=
  match fds (mfs w) !! d, (next w).1 with
  | Some (FdFile _ true _ _), Fine =>
      (Z.of_nat (length bs), goto w (write_effect d bs (mfs w)))
  | Some (FdFile _ true _ _), Short n =>
      (Z.of_nat (length (take n bs)), goto w (write_effect d (take n bs) (mfs w)))
  | _, _ => (-1, goto w (mfs w))
  end.

Definition m_read (d count : Z) (w : mem) : Z * list byte * mem :=
  match fd_file (mfs w) d with
  | Some (i, wr, app, pos, nd) =>
      if failed w || bool_decide (count < 0) then (-1, [], goto w (mfs w)) else
      let bs := take (Z.to_nat count) (drop pos (cur nd)) in
      (Z.of_nat (length bs), bs, goto w (set_fd (mfs w) d (FdFile i wr app (pos + length bs))))
  | None => (-1, [], goto w (mfs w))
  end.

Definition m_pread (d count off : Z) (w : mem) : Z * list byte * mem :=
  match fd_file (mfs w) d with
  | Some (i, wr, app, pos, nd) =>
      if failed w || bool_decide (count < 0) || bool_decide (off < 0)
      then (-1, [], goto w (mfs w)) else
      let bs := take (Z.to_nat count) (drop (Z.to_nat off) (cur nd)) in
      (Z.of_nat (length bs), bs, goto w (mfs w))
  | None => (-1, [], goto w (mfs w))
  end.

Definition m_ftruncate (d len : Z) (w : mem) : Z * mem :=
  match fd_file (mfs w) d with
  | Some (i, true, app, pos, nd) =>
      if failed w || bool_decide (len < 0) then (-1, goto w (mfs w))
      else (0, goto w (set_file (mfs w) i (mkInode (resize (cur nd) (Z.to_nat len)) (stable nd))))
  | _ => (-1, goto w (mfs w))
  end.

Definition m_fsync (d : Z) (w : mem) : Z * mem :=
  let f := mfs w in
  if failed w then (-1, goto w f) else
  match fds f !! d with
  | Some (FdFile i _ _ _) =>
      match files f !! i with
      | Some nd => (0, goto w (set_file f i (mkInode (cur nd) (cur nd))))
      | None => (-1, goto w f)
      end
  | Some (FdDir p) =>
      (0, goto w (mkFs (dir f)
            (filter (λ e, dirname e.1 = p) (dir f) ∪ filter (λ e, dirname e.1 ≠ p) (sdir f))
            (dirs f) (files f) (fds f)))
  | None => (-1, goto w f)
  end.

Definition m_rename (p q : string) (w : mem) : Z * mem :=
  match dir (mfs w) !! p with
  | Some _ => if failed w then (-1, goto w (mfs w)) else (0, goto w (rename_effect p q (mfs w)))
  | None => (-1, goto w (mfs w))
  end.

(** The clock advances by a nanosecond per reading. *)
Definition m_clock (w : mem) : Z * Z * mem :=
  (0, clk w `mod` 1000000000,
   mkMem (mfs w) (hist w ++ [mfs w]) (faults w) (clk w + 1)).

Instance posix : Posix := {|
  world := mem; sys_open := m_open; sys_close := m_close; sys_fstat := m_fstat;
  sys_write := m_write; sys_read := m_read; sys_pread := m_pread;
  sys_ftruncate := m_ftruncate; sys_fsync := m_fsync; sys_rename := m_rename;
  sys_clock_monotonic := m_clock
|}.

Lemma goto_faults w f : faults w = [] → faults (goto w f) = [].
Proof. intros H. unfold goto, next; simpl. by rewrite H. Qed.
Lemma failed_reliable w : faults w = [] → failed w = false.
Proof. intros H. unfold failed, next. by rewrite H. Qed.

Lemma m_open_law p fl w d w' : m_open p fl w = (d, w') →
  (d < 0 ∧ mfs w' = mfs w ∧ hist w' = hist w ++ [mfs w']) ∨
  (0 ≤ d ∧ fds (mfs w) !! d = None ∧ open_effect p fl d (mfs w) (mfs w') ∧
   hist w' = hist w ++ [mfs w']).
Proof.
  destruct (new_fd_fresh (mfs w)) as [Hd Hf]. unfold m_open. intros H.
  destruct (failed w); [left; simplify_eq/=; auto with lia|].
  destruct (dir (mfs w) !! p) as [i|] eqn:Hp.
  - destruct (files (mfs w) !! i) as [nd|] eqn:Hi; simplify_eq/=; [right|left; auto with lia].
    split_and!; try done. by apply open_existing.
  - destruct (o_creat fl) eqn:Hc; simplify_eq/=.
    + right. split_and!; try done. apply open_create; [done..|].
      apply not_elem_of_dom, is_fresh.
    + case_bool_decide as Hdir; destruct (o_write fl) eqn:Hw; simplify_eq/=;
        try (left; split_and!; [lia|done..]).
      right. split_and!; try done. by apply open_directory.
Qed.

Lemma m_fsync_law d w r w' : m_fsync d w = (r, w') → fd_live (mfs w) d →
  hist w' = hist w ++ [mfs w'] ∧
  ((r ≠ 0 ∧ mfs w' = mfs w) ∨ (r = 0 ∧ fsync_effect d (mfs w) (mfs w'))) ∧
  (faults w = [] → r = 0).
Proof.
  unfold m_fsync, fd_live. destruct (failed w) eqn:Hfail.
  { intros [= <- <-] _. split_and!; [done|by left|]. intros H%failed_reliable. congruence. }
  destruct (fds (mfs w) !! d) as [[i wr app pos|p]|] eqn:Hd; [|..|done].
  - destruct (files (mfs w) !! i) as [nd|] eqn:Hi; [|done]. intros [= <- <-] _.
    split_and!; [done|right|done]. split; [done|]. by eapply fsync_file.
  - intros [= <- <-] _. split_and!; [done|right|done]. split; [done|].
    eapply fsync_directory; [done|..]; unfold in_dir; intros q Hq.
    + destruct (dir (mfs w) !! q) eqn:Hdq.
      * apply lookup_union_Some_l. by apply map_lookup_filter_Some.
      * apply lookup_union_None. split; apply map_lookup_filter_None; [by left|right].
        naive_solver.
    + rewrite lookup_union_r by (apply map_lookup_filter_None; right; naive_solver).
      destruct (sdir (mfs w) !! q) eqn:Hsq.
      * by apply map_lookup_filter_Some.
      * apply map_lookup_filter_None. by left.
Qed.

Lemma fd_file_Some f d i wr app pos nd :
  fds f !! d = Some (FdFile i wr app pos) → files f !! i = Some nd →
  fd_file f d = Some (i, wr, app, pos, nd).
Proof. intros Hd Hi. unfold fd_file. by rewrite Hd, Hi. Qed.

Lemma take_take_length {A} n (l : list A) : take (length (take n l)) l = take n l.
Proof. rewrite length_take. destruct (decide (n ≤ length l)%nat).
  - by rewrite Nat.min_l. - by rewrite Nat.min_r, !take_ge by lia. Qed.

Lemma m_write_law d bs w n w' i app pos : m_write d bs w = (n, w') →
  fds (mfs w) !! d = Some (FdFile i true app pos) →
  hist w' = hist w ++ [mfs w'] ∧
  ((n < 0 ∧ mfs w' = mfs w) ∨
   (0 ≤ n ≤ Z.of_nat (length bs) ∧
    mfs w' = write_effect d (take (Z.to_nat n) bs) (mfs w))) ∧
  (faults w = [] → n = Z.of_nat (length bs)).
Proof.
  unfold m_write. intros H Hd. rewrite Hd in H. unfold next in *.
  destruct (faults w) as [|[| |k] rest]; simplify_eq/=; split_and!; try done.
  - right. rewrite Nat2Z.id, take_ge by lia. auto with lia.
  - right. rewrite Nat2Z.id, take_ge by lia. auto with lia.
  - left. auto with lia.
  - right. rewrite Nat2Z.id, take_take_length. split; [|done]. rewrite length_take. lia.
Qed.

(** A disk that holds the given files, all durable, in directory ["/d"]. *)
Definition disk (l : list (string * list byte)) : fs :=
  let d : gmap string Z := list_to_map (imap (λ k e, (e.1, Z.of_nat k)) l) in
  mkFs d d {["/d"]} (list_to_map (imap (λ k e, (Z.of_nat k, mkInode e.2 e.2)) l)) ∅.
(** The world on [disk l] whose next calls meet the given faults. *)
Definition boot (l : list (string * list byte)) (flt : list fault) : mem :=
  mkMem (disk l) [disk l] flt 1.

#[refine] Instance posix_laws : PosixLaws posix := {|
  view := mfs; history := hist; reliable w := faults w = []
|}.
Proof.
  - exact m_open_law.
  - intros p fl w Hr Hc. simpl. unfold m_open. rewrite failed_reliable by done.
    destruct (new_fd_fresh (mfs w)) as [Hd _]. unfold contents, file_at in Hc.
    destruct (dir (mfs w) !! p) as [i|]; simpl in *.
    + destruct (files (mfs w) !! i); [done|]. simpl in Hc. naive_solver.
    + destruct Hc as [?|[_ ->]]; done.
  - done.
  - intros d w r w' i wr app pos nd H Hd Hi. simpl in *. unfold m_fstat in H.
    rewrite (fd_file_Some _ _ _ _ _ _ _ Hd Hi) in H.
    destruct (failed w) eqn:Hf; simplify_eq/=; split_and!; auto.
    intros Hr%failed_reliable. congruence.
  - exact m_write_law.
  - intros d count w n bs w' i wr app pos nd H Hd Hi. simpl in *. unfold m_read in H.
    rewrite (fd_file_Some _ _ _ _ _ _ _ Hd Hi) in H.
    destruct (failed w) eqn:Hf; [|case_bool_decide as Hc]; simplify_eq/=; split_and!; try done;
      try (by left); try (intros Hr%failed_reliable; (congruence || lia)).
    right. rewrite take_take_length, length_take, length_drop. split_and!; try done; try lia.
  - intros d count off w n bs w' i wr app pos nd H Hd Hi. simpl in *. unfold m_pread in H.
    rewrite (fd_file_Some _ _ _ _ _ _ _ Hd Hi) in H.
    destruct (failed w) eqn:Hf; [|case_bool_decide as Hc; [|case_bool_decide as Ho]];
      simplify_eq/=; split_and!; try done; try (by left);
      try (intros Hr%failed_reliable; (congruence || lia)).
    right. rewrite take_take_length, length_take, length_drop. split_and!; try done; try lia.
  - intros d len w r w' i app pos nd H Hd Hi. simpl in *. unfold m_ftruncate in H.
    rewrite (fd_file_Some _ _ _ _ _ _ _ Hd Hi) in H.
    destruct (failed w) eqn:Hf; [|case_bool_decide as Hc]; simplify_eq/=; split_and!; try done;
      try (by left); try (intros Hr%failed_reliable; (congruence || lia)).
    right. split_and!; [done|lia|done].
  - exact m_fsync_law.
  - intros p q w r w' H. simpl in *. unfold m_rename in H.
    destruct (dir (mfs w) !! p) eqn:Hp; [destruct (failed w) eqn:Hf|]; simplify_eq/=;
      split_and!; try done; try (by left); try (by right).
    intros Hr%failed_reliable. congruence.
  - intros w s ns w' H. simpl in *. unfold m_clock in H. simplify_eq/=.
    pose proof (Z.mod_pos_bound (clk w) 1000000000). auto with lia.
  - intros p fl w Hr. simpl. unfold m_open.
    repeat case_match; by eapply goto_faults.
  - intros d w. apply goto_faults.
  - intros d w. apply goto_faults.
  - intros d bs w Hr. simpl. unfold m_write. repeat case_match; by eapply goto_faults.
  - intros d count w Hr. simpl. unfold m_read. repeat case_match; by eapply goto_faults.
  - intros d count off w Hr. simpl. unfold m_pread.
    repeat case_match; by eapply goto_faults.
  - intros d len w Hr. simpl. unfold m_ftruncate.
    repeat case_match; by eapply goto_faults.
  - intros d w Hr. simpl. unfold m_fsync. repeat case_match; by eapply goto_faults.
  - intros p q w Hr. simpl. unfold m_rename. repeat case_match; by eapply goto_faults.
  - done.
Defined.
End MemFs.
