(* ===== verification/WalWriter.v ===== *)
(** * The write-ahead log writer

    [src/wal_writer.cpp] and [include/ledger/wal_writer.hpp]: opening the log,
    appending a record (header, payload, CRC trailer) with one [write] call,
    flushing and closing. *)

From S2P Require Import Prelude Types Crc32 WalCodec Posix.

(** ** The code *)

Record BinaryWalWriter := mkWriter {
  fd_ : Z;
  sync_mode_ : SyncMode;
  offset_ : Z;
  dirty_since_sync_ : bool
}.

(** [BinaryWalWriter{}]. *)
Definition new_writer : BinaryWalWriter := mkWriter (-1) SyncEveryWrite 0 false.

Section Code.
Context `{Posix}.

Definition monotonic_now_ns : M Z :=
  '(tv_sec, tv_nsec) ← call sys_clock_monotonic;
  s ← lift (smul64 tv_sec 1000000000);
  lift (sadd64 s tv_nsec).

Definition writer_close (wr : BinaryWalWriter) : M BinaryWalWriter :=
  fd' ← (if UniqueFd.valid (fd_ wr) then
           _ ← call (sys_fsync (fd_ wr));
           UniqueFd.reset (fd_ wr) (-1)
         else mret (fd_ wr));
  mret (mkWriter fd' (sync_mode_ wr) 0 false).

Definition writer_open (path : string) (mode : SyncMode) (wr : BinaryWalWriter) :
    M (ResultVoid * BinaryWalWriter) :=
  wr ← writer_close wr;
  fd ← call (sys_open path O_CREAT_WRONLY_APPEND);
  if bool_decide (fd < 0) then mret (LedgerError.WalOpenFailed, wr)
  else
    st ← call (sys_fstat fd);
    match st with
    | None =>
        _ ← call (λ w, (tt, sys_close fd w));
        mret (LedgerError.WalOpenFailed, wr)
    | Some st_size =>
        fd' ← UniqueFd.reset (fd_ wr) fd;
        mret (LedgerError.None, mkWriter fd' mode (wrap64 st_size) false)
    end.

Definition flush (wr : BinaryWalWriter) : M (ResultVoid * BinaryWalWriter) :=
  if negb (UniqueFd.valid (fd_ wr)) then mret (LedgerError.WalOpenFailed, wr)
  else if negb (dirty_since_sync_ wr) then mret (LedgerError.None, wr)
  else
    r ← call (sys_fsync (fd_ wr));
    if bool_decide (r ≠ 0) then mret (LedgerError.WalSyncFailed, wr)
    else mret (LedgerError.None, mkWriter (fd_ wr) (sync_mode_ wr) (offset_ wr) false).

(** The bytes [append] assembles in its record buffer. *)
Definition build_record (header : RecordHeader) (payload : EncodedPayload) : option (list byte) :=
  let record := replicate kMaxRecordSize Byte.x00 in
  record ← mem_write record 0 (header_bytes header);
  let offset := kHeaderSize in
  record ← mem_write record offset (take (Z.to_nat (size payload)) (bytes payload));
  let offset := (offset + Z.to_nat (size payload))%nat in
  let crc := compute (take offset record) in
  record ← mem_write record offset (le_split 4 crc);
  let offset := (offset + kCrcSize)%nat in
  Some (take offset record).

Definition append (tx : Transaction) (wr : BinaryWalWriter) : M (ResultVoid * BinaryWalWriter) :=
  if negb (UniqueFd.valid (fd_ wr)) then mret (LedgerError.WalOpenFailed, wr)
  else
    payload ← lift (encode_transaction_payload tx);
    match payload with
    | Error e => mret (e, wr)
    | Value payload =>
        now ← monotonic_now_ns;
        let header := mkHeader kMagic kVersion 0 (size payload) (id tx) now in
        record ← lift (build_record header payload);
        let offset := Z.of_nat (length record) in
        written ← call (sys_write (fd_ wr) record);
        if bool_decide (written < 0) || bool_decide (written ≠ offset)
        then mret (LedgerError.WalWriteFailed, wr)
        else
          let wr := mkWriter (fd_ wr) (sync_mode_ wr) (wrap64 (offset_ wr + offset)) true in
          if bool_decide (sync_mode_ wr = SyncEveryWrite) then flush wr
          else mret (LedgerError.None, wr)
    end.

Definition size_bytes (wr : BinaryWalWriter) : Z := offset_ wr.
Definition is_open (wr : BinaryWalWriter) : bool := UniqueFd.valid (fd_ wr).
End Code.

(** ** The record layout *)

Definition tx_header (tx : Transaction) (ts : Z) : RecordHeader :=
  mkHeader kMagic kVersion 0
    (Z.of_nat (length (payload_bytes (idempotency_key tx) (tx_legs tx)))) (id tx) ts.

(** Header and payload, the part the checksum covers. *)
Definition record_body (tx : Transaction) (ts : Z) : list byte :=
  header_bytes (tx_header tx ts) ++ payload_bytes (idempotency_key tx) (tx_legs tx).
Definition record_bytes (tx : Transaction) (ts : Z) : list byte :=
  record_body tx ts ++ le_split 4 (compute (record_body tx ts)).

Lemma length_header_bytes h : length (header_bytes h) = 28%nat.
Proof. unfold header_bytes. len. Qed.
#[export] Hint Rewrite length_header_bytes : ledger_len.

Lemma length_record_body tx ts : length (record_body tx ts) = (45 + length (tx_legs tx) * 17)%nat.
Proof. unfold record_body. len. Qed.
Lemma length_record_bytes tx ts : length (record_bytes tx ts) = (49 + length (tx_legs tx) * 17)%nat.
Proof. unfold record_bytes. rewrite length_app, length_record_body. len. Qed.
#[export] Hint Rewrite length_record_body length_record_bytes : ledger_len.

Lemma record_bytes_bound tx ts :
  LegList.wf (legs tx) → (0 < length (record_bytes tx ts) ≤ kMaxRecordSize)%nat.
Proof.
  intros Hwf%LegList.span_length. rewrite length_record_bytes. unfold tx_legs in *.
  unfold kMaxRecordSize, kHeaderSize, kMaxPayloadSize, kCrcSize, kMaxLegsPerTransaction in *. lia.
Qed.

Lemma build_record_ok tx e ts :
  LegList.wf (legs tx) → encode_transaction_payload tx = Some (Value e) →
  build_record (mkHeader kMagic kVersion 0 (size e) (id tx) ts) e = Some (record_bytes tx ts).
Proof.
  intros Hwf He. destruct (encode_ok tx Hwf) as (e' & He' & Hlen & Hsz & Hspan).
  rewrite He in He'. injection He' as <-.
  pose proof (LegList.span_length _ Hwf) as Hle. fold (tx_legs tx) in Hle.
  unfold kMaxLegsPerTransaction in Hle. set (p := payload_bytes _ _) in *.
  assert (length p = 17 + length (tx_legs tx) * 17)%nat as Hp by apply length_payload_bytes.
  unfold payload_span in Hspan. unfold build_record. rewrite Hspan, Hsz, Nat2Z.id.
  change (mkHeader _ _ _ _ _ _) with (tx_header tx ts). set (h := tx_header tx ts).
  set (buf := replicate kMaxRecordSize Byte.x00).
  assert (length buf = 544%nat) as Hb by apply length_replicate.
  destruct (mem_write_written buf 0 [] (header_bytes h)) as (d1 & -> & Hl1 & Hw1); [done|len|].
  ubind. change kHeaderSize with 28%nat.
  rewrite length_header_bytes in Hw1. change (0 + 28)%nat with 28%nat in Hw1.
  destruct (mem_write_written d1 _ _ p Hw1) as (d2 & -> & Hl2 & Hw2); [len|]. ubind.
  destruct Hw2 as [Ht2 Ho2]. rewrite Ht2.
  change ([] ++ header_bytes h) with (header_bytes h) in *.
  change (header_bytes h ++ p) with (record_body tx ts) in *.
  destruct (mem_write_written d2 (28 + length p) (record_body tx ts)
    (le_split 4 (compute (record_body tx ts)))) as (d3 & -> & Hl3 & Ht3 & _); [done|len|].
  ubind. rewrite length_le_split in Ht3. by f_equal.
Qed.

(** ** What [append] does *)

(** The writer after a complete record of [n] bytes. *)
Definition advanced (wr : BinaryWalWriter) (n : nat) (dirty : bool) : BinaryWalWriter :=
  mkWriter (fd_ wr) (sync_mode_ wr) (wrap64 (offset_ wr + Z.of_nat n)) dirty.

(** The four ways an append can end, with what it leaves in the file: nothing or
    a proper prefix of the record; the whole record, not known to be durable
    because [fsync] failed; the whole record made durable; the whole record left
    to a later flush. *)
Inductive append_result (wr : BinaryWalWriter) (nd : inode) (rec : list byte) :
    ResultVoid → BinaryWalWriter → inode → Prop :=
  | append_write_failed k :
      (k < length rec)%nat →
      append_result wr nd rec LedgerError.WalWriteFailed wr
        (mkInode (cur nd ++ take k rec) (stable nd))
  | append_sync_failed :
      sync_mode_ wr = SyncEveryWrite →
      append_result wr nd rec LedgerError.WalSyncFailed (advanced wr (length rec) true)
        (mkInode (cur nd ++ rec) (stable nd))
  | append_synced :
      sync_mode_ wr = SyncEveryWrite →
      append_result wr nd rec LedgerError.None (advanced wr (length rec) false)
        (mkInode (cur nd ++ rec) (cur nd ++ rec))
  | append_buffered :
      sync_mode_ wr = BatchSyncFlush →
      append_result wr nd rec LedgerError.None (advanced wr (length rec) true)
        (mkInode (cur nd ++ rec) (stable nd)).

Lemma append_result_inv wr nd rec r wr' nd' :
  append_result wr nd rec r wr' nd' →
  ∃ k, fd_ wr' = fd_ wr ∧ cur nd' = cur nd ++ take k rec ∧
    (r = LedgerError.None → cur nd' = cur nd ++ rec ∧
      offset_ wr' = wrap64 (offset_ wr + Z.of_nat (length rec)) ∧
      (sync_mode_ wr = SyncEveryWrite → stable nd' = cur nd')) ∧
    (r ≠ LedgerError.None →
      r = LedgerError.WalWriteFailed ∧ wr' = wr ∧ (k < length rec)%nat ∨
      r = LedgerError.WalSyncFailed ∧ (length rec ≤ k)%nat).
Proof.
  intros [k Hk|Hm|Hm|Hm]; [exists k|exists (length rec)..]; rewrite ?take_ge by lia; simpl;
    split_and!; try done; naive_solver congruence.
Qed.

Section Spec.
Context {P : Posix} {L : PosixLaws P}.

Lemma monotonic_now_ok w :
  ∃ ts w', monotonic_now_ns w = Some (ts, w') ∧ s64_ok ts ∧ view w' = view w ∧
    (reliable w → reliable w') ∧ history w' = history w ++ [view w'].
Proof.
  unfold monotonic_now_ns. msimpl. pose proof (reliable_clock w) as Hr.
  destruct (sys_clock_monotonic w) as [[s ns] w'] eqn:Hc.
  apply clock_law in Hc as (Hv & Hh & Hs & Hns). msimpl.
  rewrite smul64_ok by range_lia. msimpl. rewrite sadd64_ok by range_lia.
  exists (s * 1000000000 + ns), w'. split_and!; [done|range_lia|done..].
Qed.

Lemma flush_dirty wr w i nd :
  0 ≤ fd_ wr → dirty_since_sync_ wr = true → open_on (view w) (fd_ wr) true true i nd →
  ∃ r wr' w' nd', flush wr w = Some (r, wr', w') ∧
    ((r = LedgerError.WalSyncFailed ∧ wr' = wr ∧ nd' = nd) ∨
     (r = LedgerError.None ∧ nd' = mkInode (cur nd) (cur nd) ∧
      wr' = mkWriter (fd_ wr) (sync_mode_ wr) (offset_ wr) false)) ∧
    open_on (view w') (fd_ wr) true true i nd' ∧ logged i (fd_ wr) w nd w' nd' ∧
    (reliable w → reliable w' ∧ r = LedgerError.None).
Proof.
  intros Hfd Hdirty Hon. unfold flush, UniqueFd.valid. rewrite bool_decide_true, Hdirty by done.
  msimpl. pose proof (reliable_fsync (fd_ wr) w) as Hr.
  destruct (sys_fsync (fd_ wr) w) as [s w'] eqn:Hs. simpl in Hr.
  destruct (fsync_law _ _ _ _ Hs (open_on_live _ _ _ _ _ _ Hon)) as (Hh & Hcase & Hrel). pose proof Hon as (pos & _ & Hi).
  destruct Hcase as [[Hne Hv]|[-> He]].
  - rewrite bool_decide_true by done. msimpl. exists LedgerError.WalSyncFailed, wr, w', nd.
    split_and!; [done|by left|by rewrite Hv|by apply logged_same|]. intros ?%Hrel. done.
  - rewrite bool_decide_false by lia. msimpl.
    destruct (fsync_effect_file _ _ _ _ _ _ _ Hon He) as [Hon' Hfr].
    pose proof Hon' as (pos' & _ & Hi').
    eexists LedgerError.None, _, w', _. split_and!; [done|by right|done|by apply logged_step|]. auto.
Qed.

(** The time the clock gives in world [w]. *)
Definition clock_gives (w : world) (ts : Z) : Prop := s64_ok ts ∧ ∃ w', monotonic_now_ns w = Some (ts, w').

(** Every call of [append] on an open log returns, and ends in one of the four
    ways above; when the environment does not fail it succeeds. *)
Lemma append_spec tx wr w i nd :
  tx_ok tx → 0 ≤ fd_ wr → open_on (view w) (fd_ wr) true true i nd →
  ∃ r wr' w' ts nd', append tx wr w = Some (r, wr', w') ∧ clock_gives w ts ∧
    append_result wr nd (record_bytes tx ts) r wr' nd' ∧
    open_on (view w') (fd_ wr) true true i nd' ∧ logged i (fd_ wr) w nd w' nd' ∧
    (reliable w → reliable w' ∧ r = LedgerError.None).
Proof.
  intros Htx Hfd Hon. pose proof Htx as (_ & _ & _ & Hwf & _). unfold append.
  unfold UniqueFd.valid. rewrite bool_decide_true by done.
  destruct (encode_ok tx Hwf) as (e & He & _). rewrite He. msimpl.
  destruct (monotonic_now_ok w) as (ts & w1 & Hnow & Hts' & Hv1 & Hr1 & Hh1).
  assert (clock_gives w ts) as Hts by (split; [done|by exists w1]). rewrite Hnow. msimpl.
  rewrite (build_record_ok tx e ts Hwf He). msimpl.
  set (rec := record_bytes tx ts).
  assert (logged i (fd_ wr) w nd w1 nd) as Hlog1.
  { destruct Hon as (pos & _ & Hi). by apply logged_same. }
  rewrite <- Hv1 in Hon.
  pose proof (record_bytes_bound tx ts Hwf) as [Hpos _]. fold rec in Hpos.
  pose proof (reliable_write (fd_ wr) rec w1) as Hr2.
  destruct (sys_write (fd_ wr) rec w1) as [n w2] eqn:Hwrite. simpl in Hr2. msimpl.
  pose proof Hon as (pos & Hd & Hi).
  destruct (write_law _ _ _ _ _ _ _ _ Hwrite Hd) as (Hh2 & Hcase & Hrel).
  destruct Hcase as [[Hneg Hv2]|[Hn Hv2]].
  { rewrite (bool_decide_true (n < 0)) by done. msimpl.
    exists LedgerError.WalWriteFailed, wr, w2, ts, (mkInode (cur nd ++ take 0 rec) (stable nd)).
    split_and!; [done|done|by constructor|rewrite Hv2, take_0, app_nil_r; by destruct nd| |].
    { eapply logged_trans; [exact Hlog1|]. rewrite take_0, app_nil_r.
      destruct nd. by apply logged_same. }
    intros Hw. rewrite Hrel in Hneg by auto. lia. }
  destruct (write_effect_append _ _ _ _ (take (Z.to_nat n) rec) Hon) as [Hon2 Hfr2].
  rewrite <- Hv2 in Hon2, Hfr2.
  assert (logged i (fd_ wr) w nd w2 (mkInode (cur nd ++ take (Z.to_nat n) rec) (stable nd))) as Hlog2.
  { eapply logged_trans; [exact Hlog1|]. destruct Hon2 as (pos2 & _ & Hi2).
    apply logged_step; auto using grows_append. }
  rewrite (bool_decide_false (n < 0)) by lia. msimpl.
  case_bool_decide as Hshort; msimpl.
  { exists LedgerError.WalWriteFailed, wr, w2, ts,
      (mkInode (cur nd ++ take (Z.to_nat n) rec) (stable nd)).
    split_and!; [done|done|apply append_write_failed; lia|exact Hon2|done|].
    intros Hw. rewrite Hrel in Hshort by auto. done. }
  subst n. rewrite Nat2Z.id, take_ge in Hon2, Hlog2 by lia.
  change (mkWriter (fd_ wr) (sync_mode_ wr) _ true) with (advanced wr (length rec) true).
  case_bool_decide as Hmode; simpl in Hmode; msimpl; cycle 1.
  { exists LedgerError.None, (advanced wr (length rec) true), w2, ts,
      (mkInode (cur nd ++ rec) (stable nd)). split_and!; [done|done| |exact Hon2|done|auto].
    apply append_buffered. by destruct (sync_mode_ wr). }
  destruct (flush_dirty (advanced wr (length rec) true) w2 i _ Hfd eq_refl Hon2)
    as (r & wr' & w3 & nd' & -> & Hres & Hon3 & Hfr3 & Hr3).
  exists r, wr', w3, ts, nd'. split_and!; [done|done| |exact Hon3|by eapply logged_trans|auto].
  destruct Hres as [(-> & -> & ->)|(-> & -> & ->)]; by constructor.
Qed.

(** Opening a writer that is not open, on a name whose file exists or can be
    created. *)
Lemma writer_open_spec path mode wr w :
  fd_ wr < 0 →
  ∃ r wr' w', writer_open path mode wr w = Some (r, wr', w') ∧
    (reliable w → reliable w' ∧
      (contents (view w) path ≠ None ∨ dir (view w) !! path = None → r = LedgerError.None)) ∧
    (r = LedgerError.WalOpenFailed ∧ wr' = mkWriter (fd_ wr) (sync_mode_ wr) 0 false ∨
     r = LedgerError.None ∧ 0 ≤ fd_ wr' ∧ ∃ i nd,
       wr' = mkWriter (fd_ wr') mode (wrap64 (Z.of_nat (length (cur nd)))) false ∧
       open_on (view w') (fd_ wr') true true i nd ∧ dir (view w') !! path = Some i ∧
       sdir (view w') = sdir (view w) ∧ (∀ q, q ≠ path → dir (view w') !! q = dir (view w) !! q) ∧
       (dir (view w) !! path = Some i ∧ files (view w) !! i = Some nd ∨
        dir (view w) !! path = None ∧ nd = mkInode [] [])).
Proof.
  intros Hfd. unfold writer_open, writer_close, UniqueFd.reset, UniqueFd.valid.
  rewrite (bool_decide_false (0 ≤ fd_ wr)) by lia. msimpl.
  pose proof (reliable_open path O_CREAT_WRONLY_APPEND w) as Hr.
  pose proof (open_reliable path O_CREAT_WRONLY_APPEND w) as Ho.
  destruct (sys_open path O_CREAT_WRONLY_APPEND w) as [d w1] eqn:Hop. simpl in Hr, Ho. msimpl.
  case_bool_decide as Hd.
  { msimpl. do 3 eexists. split; [done|]. split; [|by left]. intros Hw. split; [auto|].
    intros Hc. assert (0 ≤ d) by (apply Ho; naive_solver). lia. }
  destruct (open_law _ _ _ _ _ Hop) as [(? & _)|(_ & _ & He & _)]; [lia|].
  assert (∃ i nd, open_on (view w1) d true true i nd ∧ dir (view w1) !! path = Some i ∧
    sdir (view w1) = sdir (view w) ∧ (∀ q, q ≠ path → dir (view w1) !! q = dir (view w) !! q) ∧
    (dir (view w) !! path = Some i ∧ files (view w) !! i = Some nd ∨
     dir (view w) !! path = None ∧ nd = mkInode [] [])) as (i & nd & Hon & Hdir & Hsd & Hdo & Hcase).
  { destruct He as [i nd Hp Hi|i Hp _ Hi|_ _ ? _]; [| |done]; simpl.
    - exists i, nd. split_and!; [exists 0%nat; simpl; by rewrite !lookup_insert_eq|done|done|done|by left].
    - exists i, (mkInode [] []). rewrite lookup_insert_eq.
      split_and!; [exists 0%nat; simpl; by rewrite !lookup_insert_eq|done|done| |by right].
      intros q Hq. by rewrite lookup_insert_ne. }
  msimpl. pose proof (reliable_fstat d w1) as Hr1. destruct Hon as (pos & Hfd1 & Hi).
  destruct (sys_fstat d w1) as [st w2] eqn:Hst. simpl in Hr1. msimpl.
  destruct (fstat_law _ _ _ _ _ _ _ _ _ Hst Hfd1 Hi) as (Hv2 & _ & Hsz & Hrel).
  destruct st as [sz|]; msimpl.
  - destruct Hsz as [|[= ->]]; [done|]. cbn [fd_].
    rewrite ?(bool_decide_false (0 ≤ fd_ wr)) by lia. do 3 eexists. split; [done|]. split; [by auto|right].
    simpl. split_and!; [done|lia|]. exists i, nd. rewrite Hv2. split_and!; try done. by exists pos.
  - do 3 eexists. split; [done|]. split; [|by left]. intros Hw. exfalso. by apply Hrel; auto.
Qed.

(** [flush] always returns; it does nothing to a writer without unsynchronised
    data, and otherwise it either makes the whole log durable and remembers so, or
    reports [WalSyncFailed] and changes nothing.  Without failures of the
    environment it succeeds. *)
Theorem flush_durable wr w i nd :
  0 ≤ fd_ wr → open_on (view w) (fd_ wr) true true i nd →
  ∃ r wr' w' nd', flush wr w = Some (r, wr', w') ∧
    open_on (view w') (fd_ wr) true true i nd' ∧ frame i (fd_ wr) (view w) (view w') ∧
    cur nd' = cur nd ∧ fd_ wr' = fd_ wr ∧ offset_ wr' = offset_ wr ∧
    (r = LedgerError.None ∧ dirty_since_sync_ wr' = false ∧
       stable nd' = (if dirty_since_sync_ wr then cur nd else stable nd) ∨
     r = LedgerError.WalSyncFailed ∧ dirty_since_sync_ wr = true ∧ wr' = wr ∧ nd' = nd) ∧
    (reliable w → r = LedgerError.None).
Proof.
  intros Hfd Hon. destruct (dirty_since_sync_ wr) eqn:Hdirty; cycle 1.
  { unfold flush, UniqueFd.valid. rewrite bool_decide_true, Hdirty by done. msimpl.
    exists LedgerError.None, wr, w, nd. split_and!; try done. by left. }
  destruct (flush_dirty wr w i nd Hfd Hdirty Hon) as (r & wr' & w' & nd' & Hrun & Hres & Hon' & [Hfr _] & Hrel).
  exists r, wr', w', nd'. destruct Hres as [(-> & -> & ->)|(-> & -> & ->)]; split_and!; try done; auto.
  intros Hw. by apply Hrel.
Qed.

(** C34: [append] always returns and only ever extends the log.  If it reports
    success, the file ends with the complete record, the writer's offset has
    moved by its length, and in [SyncEveryWrite] mode the whole log is on stable
    storage.  If it fails, the error says whether a proper prefix of the record
    ([WalWriteFailed]) or all of it ([WalSyncFailed]) is in the file.  Without
    failures of the environment it succeeds. *)
Theorem append_durable tx wr w i nd :
  tx_ok tx → 0 ≤ fd_ wr → open_on (view w) (fd_ wr) true true i nd →
  ∃ r wr' w' ts nd' k, append tx wr w = Some (r, wr', w') ∧
    open_on (view w') (fd_ wr) true true i nd' ∧ frame i (fd_ wr) (view w) (view w') ∧
    fd_ wr' = fd_ wr ∧ cur nd' = cur nd ++ take k (record_bytes tx ts) ∧
    (r = LedgerError.None →
      cur nd' = cur nd ++ record_bytes tx ts ∧
      offset_ wr' = wrap64 (offset_ wr + Z.of_nat (length (record_bytes tx ts))) ∧
      (sync_mode_ wr = SyncEveryWrite → stable nd' = cur nd')) ∧
    (r ≠ LedgerError.None →
      r = LedgerError.WalWriteFailed ∧ wr' = wr ∧ (k < length (record_bytes tx ts))%nat ∨
      r = LedgerError.WalSyncFailed ∧ (length (record_bytes tx ts) ≤ k)%nat) ∧
    (reliable w → r = LedgerError.None).
Proof.
  intros Htx Hfd Hon.
  destruct (append_spec tx wr w i nd Htx Hfd Hon)
    as (r & wr' & w' & ts & nd' & Hrun & _ & Hres & Hon' & [Hfr _] & Hrel).
  destruct (append_result_inv _ _ _ _ _ _ Hres) as (k & Hk).
  exists r, wr', w', ts, nd', k. naive_solver.
Qed.
End Spec.

Lemma flush_durable_witness :
  let wr := mkWriter 3 BatchSyncFlush 0 true in
  let w := MemFs.m_write 3 [Byte.x01]
    (MemFs.m_open "/d/wal" O_CREAT_WRONLY_APPEND (MemFs.boot [] [])).2 in
  ∃ r wr' w' nd', flush (H := MemFs.posix) wr w.2 = Some (r, wr', w') ∧
    open_on (MemFs.mfs w') 3 true true 0 nd' ∧ frame 0 3 (MemFs.mfs w.2) (MemFs.mfs w') ∧
    cur nd' = [Byte.x01] ∧ fd_ wr' = 3 ∧ offset_ wr' = 0 ∧
    (r = LedgerError.None ∧ dirty_since_sync_ wr' = false ∧ stable nd' = [Byte.x01] ∨
     r = LedgerError.WalSyncFailed ∧ true = true ∧ wr' = wr ∧ nd' = mkInode [Byte.x01] []) ∧
    (MemFs.faults w.2 = [] → r = LedgerError.None).
Proof.
  intros wr w. apply (flush_durable (L := MemFs.posix_laws) wr w.2 0 (mkInode [Byte.x01] [])).
  - by_compute.
  - exists 1%nat. split; reflexivity.
Defined.

Lemma append_durable_witness :
  let tx := mkTx 7 (mkKey 3 4) 5 (LegList.of_list [mkLeg 1 Debit 100; mkLeg 2 Credit 100]) in
  let wr := mkWriter 3 SyncEveryWrite 0 false in
  let w := (MemFs.m_open "/d/wal" O_CREAT_WRONLY_APPEND (MemFs.boot [] [MemFs.Fine; MemFs.Short 5])).2 in
  ∃ r wr' w' ts nd' k, append (H := MemFs.posix) tx wr w = Some (r, wr', w') ∧
    open_on (MemFs.mfs w') 3 true true 0 nd' ∧ frame 0 3 (MemFs.mfs w) (MemFs.mfs w') ∧
    fd_ wr' = 3 ∧ cur nd' = take k (record_bytes tx ts) ∧
    (r = LedgerError.None →
      cur nd' = record_bytes tx ts ∧
      offset_ wr' = wrap64 (0 + Z.of_nat (length (record_bytes tx ts))) ∧
      (SyncEveryWrite = SyncEveryWrite → stable nd' = cur nd')) ∧
    (r ≠ LedgerError.None →
      r = LedgerError.WalWriteFailed ∧ wr' = wr ∧ (k < length (record_bytes tx ts))%nat ∨
      r = LedgerError.WalSyncFailed ∧ (length (record_bytes tx ts) ≤ k)%nat) ∧
    (MemFs.faults w = [] → r = LedgerError.None).
Proof.
  intros tx wr w. apply (append_durable (L := MemFs.posix_laws) tx wr w 0 (mkInode [] [])).
  - by_compute.
  - by_compute.
  - exists 0%nat. split; reflexivity.
Defined.
