(* ===== verification/WalReader.v ===== *)
(** * The write-ahead log reader

    [src/wal_reader.cpp] and [include/ledger/wal_reader.hpp]: reading the next
    record with its checks, and truncating the log.  [parse_next] is the reader
    as a function of the bytes that remain; the code is proved to follow it. *)

From S2P Require Import Prelude Types Crc32 WalCodec Posix WalWriter.

(** ** The code *)

Module ReadOutcome.
Inductive t := Ok | EndOfLog | Corrupt | Truncated.
#[export] Instance t_eq_dec : EqDecision t.
Proof. solve_decision. Defined.
End ReadOutcome.
#[export] Existing Instance ReadOutcome.t_eq_dec.

Record ReadResult := mkRead { outcome : ReadOutcome.t; transaction : Transaction }.

(** [Transaction{}], the value of the field when the outcome is not [Ok]. *)
Definition default_tx : Transaction := mkTx 0 (mkKey 0 0) 0 LegList.make.

Record BinaryWalReader := mkReader { rd_fd : Z; cursor_ : Z; last_valid_offset_ : Z }.
Definition new_reader : BinaryWalReader := mkReader (-1) 0 0.

Section Code.
Context `{Posix}.

Definition reader_close (rd : BinaryWalReader) : M BinaryWalReader :=
  fd' ← UniqueFd.reset (rd_fd rd) (-1);
  mret (mkReader fd' 0 0).

Definition reader_open (path : string) (rd : BinaryWalReader) : M (ResultVoid * BinaryWalReader) :=
  rd ← reader_close rd;
  fd ← call (sys_open path O_RDONLY);
  if bool_decide (fd < 0) then mret (LedgerError.WalOpenFailed, rd)
  else
    fd' ← UniqueFd.reset (rd_fd rd) fd;
    mret (LedgerError.None, mkReader fd' 0 0).

Definition seek (offset : Z) (rd : BinaryWalReader) : BinaryWalReader :=
  mkReader (rd_fd rd) offset offset.

Definition last_valid_offset (rd : BinaryWalReader) : Z := last_valid_offset_ rd.

(** The second half of [read_next]: [header], read from the bytes [bs], has
    passed its checks; read and check the rest of the record. *)
Definition read_record (rd : BinaryWalReader) (header : RecordHeader) (bs : list byte) :
    M (ReadResult * BinaryWalReader) :=
  let stop o := mret (mkRead o default_tx, rd) in
  let record_size := Z.of_nat kHeaderSize + payload_size header + Z.of_nat kCrcSize in
  let psz := Z.to_nat (payload_size header) in
  buffer ← lift (mem_write (replicate kMaxRecordSize Byte.x00) 0 bs);
  '(n, bs) ← call (sys_pread (rd_fd rd) (payload_size header + Z.of_nat kCrcSize)
                     (to_s64 (wrap64 (cursor_ rd + Z.of_nat kHeaderSize))));
  if bool_decide (n < 0) || bool_decide (n < payload_size header + Z.of_nat kCrcSize)
  then stop ReadOutcome.Truncated
  else
    buffer ← lift (mem_write buffer kHeaderSize bs);
    crc_bytes ← lift (mem_read buffer (kHeaderSize + psz) kCrcSize);
    let stored_crc := le_combine crc_bytes in
    let computed_crc := compute (take (kHeaderSize + psz) buffer) in
    if bool_decide (stored_crc ≠ computed_crc) then stop ReadOutcome.Corrupt
    else
      payload_span ← lift (mem_read buffer kHeaderSize psz);
      tx ← lift (decode_transaction_payload payload_span (transaction_id header)
                   (timestamp_ns header));
      match tx with
      | Error _ => stop ReadOutcome.Corrupt
      | Value tx =>
          let cursor := wrap64 (cursor_ rd + record_size) in
          mret (mkRead ReadOutcome.Ok tx, mkReader (rd_fd rd) cursor cursor)
      end.

Definition read_next (rd : BinaryWalReader) : M (ReadResult * BinaryWalReader) :=
  let stop o := mret (mkRead o default_tx, rd) in
  if negb (UniqueFd.valid (rd_fd rd)) then stop ReadOutcome.EndOfLog
  else
    '(n, bs) ← call (sys_pread (rd_fd rd) (Z.of_nat kHeaderSize) (to_s64 (cursor_ rd)));
    if bool_decide (n = 0) then stop ReadOutcome.EndOfLog
    else if bool_decide (n < 0) || bool_decide (n < Z.of_nat kHeaderSize)
    then stop ReadOutcome.Truncated
    else
      let header := header_of_bytes bs in
      if bool_decide (magic header ≠ kMagic) || bool_decide (version header ≠ kVersion) ||
         bool_decide (payload_size header > Z.of_nat kMaxPayloadSize)
      then stop ReadOutcome.Corrupt
      else read_record rd header bs.

Definition truncate_wal (path : string) (valid_offset : Z) : M ResultVoid :=
  fd ← call (sys_open path O_WRONLY);
  if bool_decide (fd < 0) then mret LedgerError.WalOpenFailed
  else
    r ← call (sys_ftruncate fd (to_s64 valid_offset));
    if bool_decide (r ≠ 0) then _ ← UniqueFd.reset fd (-1); mret LedgerError.WalWriteFailed
    else
      r ← call (sys_fsync fd);
      if bool_decide (r ≠ 0) then _ ← UniqueFd.reset fd (-1); mret LedgerError.WalSyncFailed
      else _ ← UniqueFd.reset fd (-1); mret LedgerError.None.
End Code.

(** ** The reader as a function of the remaining bytes *)

Inductive parsed :=
  | POk (tx : Transaction) (n : nat)
  | PEndOfLog | PCorrupt | PTruncated.

Definition parse_next (rest : list byte) : parsed :=
  let h := header_of_bytes (take kHeaderSize rest) in
  let psz := Z.to_nat (payload_size h) in
  if bool_decide (rest = []) then PEndOfLog
  else if bool_decide (length rest < kHeaderSize)%nat then PTruncated
  else if bool_decide (magic h = kMagic ∧ version h = kVersion ∧ (psz ≤ kMaxPayloadSize)%nat) then
    if bool_decide (length rest < kHeaderSize + psz + kCrcSize)%nat then PTruncated
    else if bool_decide (le_combine (take kCrcSize (drop (kHeaderSize + psz) rest)) =
                         compute (take (kHeaderSize + psz) rest)) then
      match decode_transaction_payload (take psz (drop kHeaderSize rest)) (transaction_id h)
              (timestamp_ns h) with
      | Some (Value tx) => POk tx (kHeaderSize + psz + kCrcSize)
      | _ => PCorrupt
      end
    else PCorrupt
  else PCorrupt.

Definition parsed_outcome (p : parsed) : ReadOutcome.t :=
  match p with
  | POk _ _ => ReadOutcome.Ok
  | PEndOfLog => ReadOutcome.EndOfLog
  | PCorrupt => ReadOutcome.Corrupt
  | PTruncated => ReadOutcome.Truncated
  end.

(** Bytes that do not begin with a correct record: nothing, a record cut short, or
    anything its checks do not let pass. *)
Definition refused (rest : list byte) : Prop :=
  match parse_next rest with POk _ _ => False | _ => True end.
#[export] Instance refused_dec rest : Decision (refused rest).
Proof. unfold refused. destruct (parse_next rest); apply _. Defined.

Lemma refused_not_ok rest : refused rest ↔ ∀ tx n, parse_next rest ≠ POk tx n.
Proof. unfold refused. destruct (parse_next rest); naive_solver. Qed.

(** Only the bytes of a record decide that it is one. *)
Lemma parse_next_local a b tx n :
  parse_next a = POk tx n → take n a = take n b → parse_next b = POk tx n ∧ (32 ≤ n ≤ length b)%nat.
Proof.
  unfold parse_next. change kHeaderSize with 28%nat. change kCrcSize with 4%nat. cbv zeta.
  case_bool_decide; [done|]. case_bool_decide as H28; [done|]. case_bool_decide as Hgood; [|done].
  set (psz := Z.to_nat _) in *. case_bool_decide as Hlen; [done|]. case_bool_decide as Hcrc; [|done].
  destruct (decode_transaction_payload _ _ _) as [[tx'|]|] eqn:Hd; [|done..]. intros [= -> <-] Hab.
  assert (28 + psz + 4 ≤ length b)%nat as Hlb.
  { apply (f_equal length) in Hab. rewrite !length_take in Hab. lia. }
  assert (take 28 b = take 28 a) as Hhd by (symmetry; apply (field_agree a b _ 0 28 Hab); lia).
  rewrite Hhd. fold psz. rewrite (bool_decide_false (b = [])) by (intros ->; simpl in Hlb; lia).
  rewrite (bool_decide_false (length b < 28)%nat), (bool_decide_true _ Hgood) by lia.
  rewrite (bool_decide_false (length b < 28 + psz + 4)%nat) by lia.
  rewrite <- (field_agree a b _ (28 + psz) 4 Hab), <- (field_agree a b _ 28 psz Hab) by lia.
  assert (take (28 + psz) b = take (28 + psz) a) as -> by (symmetry; apply (field_agree a b _ 0 (28 + psz) Hab); lia).
  rewrite (bool_decide_true _ Hcrc), Hd. split; [done|lia].
Qed.

(** ** Records *)

Lemma take_app_exact {A} n (l1 l2 : list A) : length l1 = n → take n (l1 ++ l2) = l1.
Proof. intros <-. apply take_app_length. Qed.
Lemma drop_app_exact {A} n (l1 l2 : list A) : length l1 = n → drop n (l1 ++ l2) = l2.
Proof. intros <-. apply drop_app_length. Qed.

Definition header_ok (h : RecordHeader) : Prop :=
  u32_ok (magic h) ∧ 0 ≤ version h < 65536 ∧ 0 ≤ flags h < 65536 ∧ u32_ok (payload_size h) ∧
  u64_ok (transaction_id h) ∧ s64_ok (timestamp_ns h).

(** Cutting the first field off a concatenation. *)
Lemma cut_field {A} k n (f rest : list A) :
  length f = n → take k (drop n (f ++ rest)) = take k rest.
Proof. intros. by rewrite drop_app_exact. Qed.

Lemma header_roundtrip h : header_ok h → header_of_bytes (header_bytes h) = h.
Proof.
  intros (Hm & Hv & Hf & Hp & Ht & Hs). destruct h as [m v f p t s]; simpl in *.
  unfold header_of_bytes, header_bytes; cbn [magic version flags payload_size transaction_id timestamp_ns].
  rewrite take_app_exact by len.
  rewrite (drop_app_exact 4), take_app_exact by len.
  rewrite (app_assoc (le_split 4 m)), (drop_app_exact 6), take_app_exact by len.
  rewrite (app_assoc (le_split 4 m ++ _)), (drop_app_exact 8), take_app_exact by len.
  rewrite (app_assoc ((le_split 4 m ++ _) ++ _)), (drop_app_exact 12), take_app_exact by len.
  rewrite (app_assoc (((le_split 4 m ++ _) ++ _) ++ _)), (drop_app_exact 20) by len.
  rewrite take_ge by len.
  rewrite le_combine_le_split_s8, !le_combine_split_u by (simpl; range_lia). done.
Qed.

(** What reading a record back yields: the id, key and legs of the transaction,
    with the timestamp of the record. *)
Definition same_tx (tx : Transaction) (ts : Z) (tx' : Transaction) : Prop :=
  id tx' = id tx ∧ idempotency_key tx' = idempotency_key tx ∧ created_at_ns tx' = ts ∧
  LegList.wf (legs tx') ∧ tx_legs tx' = tx_legs tx.

Lemma tx_header_ok tx ts : tx_ok tx → s64_ok ts → header_ok (tx_header tx ts).
Proof.
  intros (Hid & _ & _ & Hwf%LegList.span_length & _) Hts.
  unfold tx_header, header_ok; cbn [magic version flags payload_size transaction_id timestamp_ns].
  rewrite length_payload_bytes. fold (tx_legs tx) in Hwf.
  unfold kMaxLegsPerTransaction, kMagic, kVersion in *. range_lia.
Qed.

Lemma parse_next_record tx ts rest :
  tx_ok tx → s64_ok ts →
  ∃ tx', parse_next (record_bytes tx ts ++ rest) = POk tx' (length (record_bytes tx ts)) ∧
    same_tx tx ts tx'.
Proof.
  intros Htx Hts. pose proof Htx as (_ & Hkey & _ & Hwf & Hlegs).
  pose proof (tx_header_ok tx ts Htx Hts) as Hh.
  pose proof (LegList.span_length _ Hwf) as Hle. fold (tx_legs tx) in Hle.
  unfold kMaxLegsPerTransaction in Hle.
  pose proof (length_record_bytes tx ts) as Hlen. rewrite Hlen.
  set (p := payload_bytes (idempotency_key tx) (tx_legs tx)).
  assert (length p = 17 + length (tx_legs tx) * 17)%nat as Hp by apply length_payload_bytes.
  assert (record_bytes tx ts ++ rest = header_bytes (tx_header tx ts) ++ p ++
    le_split 4 (compute (record_body tx ts)) ++ rest) as Hrec.
  { unfold record_bytes, record_body. fold p. by rewrite <- !app_assoc. }
  assert (header_of_bytes (take 28 (record_bytes tx ts ++ rest)) = tx_header tx ts) as Hhd.
  { rewrite Hrec, take_app_exact by len. by apply header_roundtrip. }
  unfold parse_next. change kHeaderSize with 28%nat. change kCrcSize with 4%nat.
  cbv zeta. rewrite !Hhd. cbn [magic version payload_size transaction_id timestamp_ns tx_header]. fold p.
  rewrite Nat2Z.id.
  rewrite bool_decide_false by (intros Hnil%(f_equal length); len).
  rewrite bool_decide_false by len.
  rewrite bool_decide_true by (split_and!; [done..|]; unfold kMaxPayloadSize; lia).
  rewrite bool_decide_false by len.
  rewrite Hrec. rewrite (app_assoc (header_bytes _)), drop_app_exact, !take_app_exact by len.
  change (header_bytes (tx_header tx ts) ++ p) with (record_body tx ts) at 1 2.
  rewrite bool_decide_true; [|apply le_combine_split_u; pose proof (compute_u32 (record_body tx ts)); range_lia].
  rewrite <- app_assoc, drop_app_exact, take_app_exact by len.
  destruct (decode_payload_bytes (idempotency_key tx) (tx_legs tx) (id tx) ts)
    as (acc & Hd & Hwf' & Hsp); [done..|]. fold p in Hd. rewrite Hd.
  eexists; split; [f_equal; lia|]. repeat split; try done; apply Hwf'.
Qed.

(** A record cut short anywhere is recognised: nothing of it is the end of the
    log, anything else is a truncated record. *)
Lemma parse_next_torn tx ts k :
  tx_ok tx → s64_ok ts → (k < length (record_bytes tx ts))%nat →
  parse_next (take k (record_bytes tx ts)) = if decide (k = 0%nat) then PEndOfLog else PTruncated.
Proof.
  intros Htx Hts Hk. pose proof Htx as (_ & _ & _ & Hwf & _).
  pose proof (LegList.span_length _ Hwf) as Hle. fold (tx_legs tx) in Hle.
  unfold kMaxLegsPerTransaction in Hle. pose proof (length_record_bytes tx ts) as Hlen.
  unfold parse_next. change kHeaderSize with 28%nat. change kCrcSize with 4%nat. cbv zeta.
  case_decide as H0; [subst k; by rewrite bool_decide_true|].
  rewrite bool_decide_false by (intros Hnil%(f_equal length); len).
  case_bool_decide as Hshort; [done|].
  rewrite length_take in Hshort.
  assert (header_of_bytes (take 28 (take k (record_bytes tx ts))) = tx_header tx ts) as Hhd.
  { rewrite take_take, Nat.min_l by lia. unfold record_bytes, record_body.
    rewrite <- app_assoc, take_app_exact by len. by apply header_roundtrip, tx_header_ok. }
  rewrite !Hhd. cbn [magic version payload_size tx_header]. rewrite Nat2Z.id.
  rewrite bool_decide_true
    by (split_and!; [done..|]; rewrite length_payload_bytes; unfold kMaxPayloadSize; lia).
  rewrite bool_decide_true; [done|]. rewrite length_take, length_payload_bytes. lia.
Qed.

(** ** The code follows [parse_next] *)

(** The result of one call, relative to what the remaining bytes parse to. *)
Definition read_matches (rd : BinaryWalReader) (p : parsed) (res : ReadResult)
    (rd' : BinaryWalReader) : Prop :=
  outcome res = parsed_outcome p ∧
  match p with
  | POk tx n => transaction res = tx ∧
      rd' = mkReader (rd_fd rd) (cursor_ rd + Z.of_nat n) (cursor_ rd + Z.of_nat n)
  | _ => rd' = rd
  end.

(** What one call may answer: what the remaining bytes parse to, or, when a read
    failed or came up short, a truncated record. *)
Definition read_answer (rd : BinaryWalReader) (p : parsed) (rel : Prop) (res : ReadResult)
    (rd' : BinaryWalReader) : Prop :=
  (read_matches rd p res rd' ∨ outcome res = ReadOutcome.Truncated ∧ rd' = rd) ∧
  (rel → read_matches rd p res rd').

Lemma answer_stop rd p (rel : Prop) o :
  match p with POk _ _ => False | _ => parsed_outcome p = o end →
  read_answer rd p rel (mkRead o default_tx) rd.
Proof. unfold read_answer, read_matches. destruct p; naive_solver. Qed.
Lemma answer_truncated rd p (rel : Prop) :
  (rel → p = PTruncated) → read_answer rd p rel (mkRead ReadOutcome.Truncated default_tx) rd.
Proof. intros H. split; [by right|]. by intros ->%H. Qed.
Lemma answer_ok rd tx n (rel : Prop) :
  read_answer rd (POk tx n) rel (mkRead ReadOutcome.Ok tx)
    (mkReader (rd_fd rd) (cursor_ rd + Z.of_nat n) (cursor_ rd + Z.of_nat n)).
Proof. split; [left|intros _]; done. Qed.

Lemma header_of_bytes_u32 bs : (12 ≤ length bs)%nat → u32_ok (payload_size (header_of_bytes bs)).
Proof. intros. apply (le_combine_range _ 4). len. Qed.

(** [parse_next] by cases on the length and the header. *)
Section ParseCases.
Variables (rest : list byte) (psz : nat).
Let h := header_of_bytes (take 28 rest).
Hypothesis Hpsz : psz = Z.to_nat (payload_size h).
Let good := magic h = kMagic ∧ version h = kVersion ∧ (psz ≤ 512)%nat.

Local Ltac start :=
  unfold parse_next; change kHeaderSize with 28%nat; change kCrcSize with 4%nat;
  change kMaxPayloadSize with 512%nat; cbv zeta; fold h; rewrite <- Hpsz.

Lemma parse_next_short : (0 < length rest < 28)%nat → parse_next rest = PTruncated.
Proof.
  intros Hl. start. rewrite bool_decide_false by (intros E; rewrite E in Hl; simpl in Hl; lia).
  by rewrite bool_decide_true by lia.
Qed.

Lemma parse_next_long : (28 ≤ length rest)%nat →
  parse_next rest =
    if bool_decide good then
      if bool_decide (length rest < 28 + psz + 4)%nat then PTruncated
      else if bool_decide (le_combine (take 4 (drop (28 + psz) rest)) =
                           compute (take (28 + psz) rest)) then
        match decode_transaction_payload (take psz (drop 28 rest)) (transaction_id h)
                (timestamp_ns h) with
        | Some (Value tx) => POk tx (28 + psz + 4)
        | _ => PCorrupt
        end
      else PCorrupt
    else PCorrupt.
Proof.
  intros Hl. start. rewrite bool_decide_false by (intros E; rewrite E in Hl; simpl in Hl; lia).
  by rewrite bool_decide_false by lia.
Qed.
End ParseCases.

(** *** Damaged records *)

(** [damaged good bad]: [bad] is [good] with a nonempty window of at most four
    consecutive bytes altered, anywhere but in the four bytes from the eighth on, which
    in a record are the size and in a snapshot the number of accounts, and decide where
    the checksum is looked for. *)
Definition damaged (good bad : list byte) : Prop :=
  ∃ pre w w' post, good = pre ++ w ++ post ∧ bad = pre ++ w' ++ post ∧
    length w = length w' ∧ (length w ≤ 4)%nat ∧ w ≠ w' ∧
    take 4 (drop 8 bad) = take 4 (drop 8 good).

Lemma damaged_length good bad : damaged good bad → length bad = length good.
Proof. intros (pre & w & w' & post & -> & -> & Hl & _). rewrite !length_app. lia. Qed.

(** What was a body with its checksum is a body of the same length and another four
    bytes, which are not its checksum. *)
Lemma damaged_codeword body bad :
  damaged (body ++ le_split 4 (compute body)) bad →
  ∃ body' crc', bad = body' ++ crc' ∧ length body' = length body ∧ length crc' = 4%nat ∧
    le_combine crc' ≠ compute body'.
Proof.
  intros Hd. pose proof (damaged_length _ _ Hd) as Hl. rewrite length_app, length_le_split in Hl.
  exists (take (length body) bad), (drop (length body) bad). rewrite take_drop, length_take, length_drop.
  split_and!; [done|lia|lia|]. destruct Hd as (pre & w & w' & post & Hg & -> & Hlen & Hle & Hne & _).
  eapply (codeword_burst pre w w' post body (le_split 4 (compute body))); try done.
  - by rewrite take_drop.
  - rewrite length_drop. lia.
  - apply le_combine_split_u, (compute_u32 body).
Qed.

(** The size the reader trusts before it has the checksum. *)
Lemma payload_size_bytes a :
  payload_size (header_of_bytes (take 28 a)) = le_combine (take 4 (drop 8 a)).
Proof. unfold header_of_bytes; cbn [payload_size]. f_equal. apply field_take. lia. Qed.

(** A record whose checksum does not match is corrupt. *)
Lemma parse_next_mismatch tx ts body crc rest :
  tx_ok tx → s64_ok ts → length body = length (record_body tx ts) →
  take 4 (drop 8 body) = take 4 (drop 8 (record_body tx ts)) → length crc = 4%nat →
  le_combine crc ≠ compute body →
  parse_next (body ++ crc ++ rest) = PCorrupt.
Proof.
  intros Htx Hts Hlb Hpre Hlc Hne. pose proof (length_record_body tx ts) as Hlr.
  assert (payload_size (header_of_bytes (take 28 (body ++ crc ++ rest))) = payload_size (tx_header tx ts)) as Hp.
  { rewrite payload_size_bytes, drop_app_le, take_app_le, Hpre by len. rewrite <- payload_size_bytes. f_equal.
    unfold record_body. rewrite take_app_exact by apply length_header_bytes.
    by apply header_roundtrip, tx_header_ok. }
  cbn [payload_size tx_header] in Hp.
  apply (f_equal Z.to_nat) in Hp. rewrite Nat2Z.id in Hp.
  rewrite (parse_next_long _ _ (eq_sym Hp)) by len. rewrite length_payload_bytes.
  case_bool_decide as Hgood; [|done].
  rewrite bool_decide_false by len.
  replace (28 + _)%nat with (length body) by lia.
  rewrite (take_app_exact (length body)), drop_app_exact, take_app_exact by done.
  by rewrite bool_decide_false.
Qed.

Lemma parse_next_damaged tx ts bad rest :
  tx_ok tx → s64_ok ts → damaged (record_bytes tx ts) bad → parse_next (bad ++ rest) = PCorrupt.
Proof.
  intros Htx Hts Hd. pose proof (length_record_body tx ts) as Hl.
  destruct (damaged_codeword (record_body tx ts) bad Hd) as (body & crc & -> & Hlb & Hlc & Hne).
  rewrite <- app_assoc. apply (parse_next_mismatch tx ts); try done.
  destruct Hd as (_ & _ & _ & _ & _ & _ & _ & _ & _ & Hsz). unfold record_bytes in Hsz.
  by rewrite !drop_app_le, !take_app_le in Hsz by len.
Qed.

Section Spec.
Context {P : Posix} {L : PosixLaws P}.

(** One [pread] of the reader, in terms of the bytes after an offset. *)
Lemma pread_rest d count off w wr app i nd :
  open_on (view w) d wr app i nd → 0 ≤ count → 0 ≤ off →
  ∃ n bs w', sys_pread d count off w = (n, bs, w') ∧ view w' = view w ∧
    (reliable w → reliable w') ∧
    let rest := drop (Z.to_nat off) (cur nd) in
    (n < 0 ∨ n = Z.of_nat (length bs) ∧ bs = take (length bs) rest ∧
       (length bs ≤ Z.to_nat count)%nat ∧ (length bs = 0%nat → count = 0 ∨ rest = [])) ∧
    (reliable w → n = Z.of_nat (length bs) ∧ bs = take (Z.to_nat count) rest).
Proof.
  intros (pos & Hd & Hi) Hc Ho. pose proof (reliable_pread d count off w) as Hr.
  destruct (sys_pread d count off w) as [[n bs] w'] eqn:Hp. exists n, bs, w'.
  destruct (pread_law _ _ _ _ _ _ _ _ _ _ _ _ Hp Hd Hi) as (Hv & _ & Hcase & Hrel).
  cbv zeta. split_and!; [done|done|done| |auto].
  destruct Hcase as [|(-> & Hcount & _ & Hbs & Hz)]; [by left|right].
  split_and!; [done|done|lia|]. intros Hnil. destruct Hz as [?|?]; [lia|by left|right]. apply drop_ge. lia.
Qed.

(** The reader's buffer after its two reads holds the record. *)
Lemma read_buffer rest n :
  (28 ≤ n ≤ 544)%nat → (n ≤ length rest)%nat →
  ∃ b b', mem_write (replicate kMaxRecordSize Byte.x00) 0 (take 28 rest) = Some b ∧
    mem_write b 28 (take (n - 28) (drop 28 rest)) = Some b' ∧
    length b' = 544%nat ∧ take n b' = take n rest.
Proof.
  intros Hn Hlen. set (buf := replicate kMaxRecordSize Byte.x00).
  assert (length buf = 544%nat) as Hb by apply length_replicate.
  destruct (mem_write_written buf 0 [] (take 28 rest)) as (b & Hw1 & Hl1 & Hwr1); [done|len|].
  exists b. rewrite length_take, Nat.min_l in Hwr1 by lia. simpl in Hwr1.
  destruct (mem_write_written b 28 (take 28 rest) (take (n - 28) (drop 28 rest)) Hwr1)
    as (b' & Hw2 & Hl2 & Ht & _); [len|].
  exists b'. split_and!; [done|done|lia|].
  rewrite length_take, length_drop, Nat.min_l in Ht by lia.
  replace (28 + (n - 28))%nat with n in Ht by lia. rewrite Ht.
  rewrite take_drop_commute. replace (28 + (n - 28))%nat with n by lia.
  rewrite <- (take_drop 28 (take n rest)) at 2. by rewrite take_take, Nat.min_l by lia.
Qed.

(** The header is good: the rest of the record decides. *)
Lemma read_record_spec rd w wr app i nd rest h :
  open_on (view w) (rd_fd rd) wr app i nd →
  0 ≤ cursor_ rd → cursor_ rd + 1024 ≤ INT64_MAX →
  rest = drop (Z.to_nat (cursor_ rd)) (cur nd) → (28 ≤ length rest)%nat →
  h = header_of_bytes (take 28 rest) →
  magic h = kMagic → version h = kVersion → 0 ≤ payload_size h ≤ 512 →
  ∃ res rd' w', read_record rd h (take 28 rest) w = Some (res, rd', w') ∧ view w' = view w ∧
    (reliable w → reliable w') ∧ read_answer rd (parse_next rest) (reliable w) res rd'.
Proof.
  intros Hon Hc Hmax Hrest Hlen Hh Hm Hv Hp.
  rewrite (parse_next_long rest _ eq_refl Hlen). rewrite <- Hh.
  rewrite bool_decide_true by (split_and!; [done..|lia]).
  set (psz := Z.to_nat (payload_size h)). assert (payload_size h = Z.of_nat psz) as Epsz by lia.
  unfold read_record. cbv zeta. fold psz. rewrite Epsz.
  change (Z.of_nat kHeaderSize) with 28. change (Z.of_nat kCrcSize) with 4.
  change kHeaderSize with 28%nat. change kCrcSize with 4%nat.
  rewrite (wrap64_id (cursor_ rd + 28)), to_s64_small by range_lia.
  destruct (pread_rest (rd_fd rd) (Z.of_nat psz + 4) (cursor_ rd + 28) _ _ _ _ _ Hon)
    as (n & bs & w1 & Hread & Hv1 & Hr1 & Hcase & Hrel); [lia..|]. cbv zeta in Hcase, Hrel.
  replace (Z.to_nat (cursor_ rd + 28)) with (Z.to_nat (cursor_ rd) + 28)%nat in * by lia.
  rewrite <- drop_drop, <- Hrest in Hcase, Hrel.
  replace (Z.to_nat (Z.of_nat psz + 4)) with (psz + 4)%nat in * by lia.
  destruct (mem_write_ok (replicate kMaxRecordSize Byte.x00) 0 (take 28 rest))
    as (b0 & Hb0 & _); [unfold kMaxRecordSize, kHeaderSize, kMaxPayloadSize, kCrcSize; len|].
  rewrite Hb0. msimpl. rewrite Hread. msimpl.
  case_bool_decide as Hneg; [|case_bool_decide as Hlt]; msimpl.
  { do 3 eexists. split_and!; [done..|]. apply answer_truncated. intros [? _]%Hrel. lia. }
  { do 3 eexists. split_and!; [done..|]. apply answer_truncated. intros [-> ->]%Hrel.
    rewrite bool_decide_true; [done|]. len. }
  destruct Hcase as [|(-> & Hbs & Hle & _)]; [lia|].
  replace (length bs) with (psz + 4)%nat in Hbs by lia.
  assert (28 + psz + 4 ≤ length rest)%nat as Hfull by (apply (f_equal length) in Hbs; len).
  destruct (read_buffer rest (28 + psz + 4)) as (b & b' & Hb & Hb' & Hl' & Hag); [lia..|].
  replace (28 + psz + 4 - 28)%nat with (psz + 4)%nat in Hb' by lia.
  rewrite Hb in Hb0. injection Hb0 as <-. rewrite Hbs, Hb'. msimpl.
  rewrite !mem_read_ok by lia. msimpl.
  rewrite (field_agree b' rest _ (28 + psz) 4 Hag) by lia.
  rewrite (field_agree b' rest _ 28 psz Hag) by lia.
  assert (take (28 + psz) b' = take (28 + psz) rest) as -> by (apply (field_agree b' rest _ 0 _ Hag); lia).
  rewrite (bool_decide_false (length rest < _)%nat) by lia.
  case_bool_decide as Hcrc; case_bool_decide; try done; msimpl.
  { do 3 eexists. split_and!; [done..|]. by apply answer_stop. }
  destruct (decode_total (take psz (drop 28 rest)) (transaction_id h) (timestamp_ns h)) as (r & Hr & _).
  rewrite Hr. msimpl. destruct r as [tx|e]; msimpl.
  - do 3 eexists. split_and!; [done..|].
    replace (wrap64 (cursor_ rd + (28 + Z.of_nat psz + 4))) with (cursor_ rd + Z.of_nat (28 + psz + 4)).
    + apply answer_ok.
    + rewrite wrap64_id; range_lia.
  - do 3 eexists. split_and!; [done..|]. by apply answer_stop.
Qed.
(** [read_next] on an open log always returns.  Its answer is what the bytes
    after the cursor parse to, except that a failed or short [pread] is
    reported as a truncated record; the reader moves only past a good record. *)
Lemma read_next_spec rd w wr app i nd :
  0 ≤ rd_fd rd → open_on (view w) (rd_fd rd) wr app i nd →
  0 ≤ cursor_ rd → cursor_ rd + 1024 ≤ INT64_MAX →
  ∃ res rd' w', read_next rd w = Some (res, rd', w') ∧ view w' = view w ∧
    (reliable w → reliable w') ∧
    read_answer rd (parse_next (drop (Z.to_nat (cursor_ rd)) (cur nd))) (reliable w) res rd'.
Proof.
  intros Hfd Hon Hc Hmax. unfold read_next, UniqueFd.valid. rewrite bool_decide_true by done.
  msimpl. change (Z.of_nat kHeaderSize) with 28. change (Z.of_nat kCrcSize) with 4.
  change (Z.of_nat kMaxPayloadSize) with 512. change kHeaderSize with 28%nat. change kCrcSize with 4%nat.
  rewrite (to_s64_small (cursor_ rd)) by range_lia.
  destruct (pread_rest _ 28 (cursor_ rd) _ _ _ _ _ Hon)
    as (n & bs & w1 & -> & Hv1 & Hr1 & Hcase & Hrel); [lia..|].
  cbv zeta in Hcase, Hrel. msimpl. set (rest := drop (Z.to_nat (cursor_ rd)) (cur nd)) in *.
  rewrite <- Hv1 in Hon.
  case_bool_decide as Hn0; msimpl.
  { do 3 eexists. split_and!; [done..|]. apply answer_stop.
    destruct Hcase as [|(-> & _ & _ & Hz)]; [lia|]. destruct Hz as [?| ->]; [lia..|done]. }
  case_bool_decide as Hneg; [|case_bool_decide as Hlt]; msimpl.
  { do 3 eexists. split_and!; [done..|]. apply answer_truncated. intros [? _]%Hrel. lia. }
  { do 3 eexists. split_and!; [done..|]. apply answer_truncated. intros [-> ->]%Hrel.
    eapply parse_next_short; [done|]. rewrite length_take in *. lia. }
  destruct Hcase as [|(-> & Hbs & Hle & _)]; [lia|].
  replace (length bs) with 28%nat in Hbs by lia.
  assert (28 ≤ length rest)%nat as Hlen by (apply (f_equal length) in Hbs; len).
  subst bs. clear Hn0 Hneg Hlt Hle Hrel.
  set (h := header_of_bytes (take 28 rest)).
  assert (u32_ok (payload_size h)) as Hp by (apply header_of_bytes_u32; len).
  case_bool_decide as Hm; [|case_bool_decide as Hv; [|case_bool_decide as Hbig]]; msimpl; cycle 3.
  { rewrite <- Hv1. destruct (read_record_spec rd w1 wr app i nd rest h)
      as (res & rd' & w2 & Hrun & Hv2 & Hr2 & Hans); try done; [range_lia|].
    exists res, rd', w2. split_and!; [done|done|auto|]. destruct Hans as [Ha Hb]. split; auto. }
  all: do 3 eexists; split_and!; [done..|]; apply answer_stop;
    rewrite (parse_next_long rest _ eq_refl Hlen), bool_decide_false; [done|];
    fold h; intros (? & ? & ?); first [done|lia].
Qed.

(** Opening the log for reading, when the file exists. *)
Lemma reader_open_spec path rd w i nd :
  rd_fd rd < 0 → dir (view w) !! path = Some i → files (view w) !! i = Some nd →
  ∃ r rd' w', reader_open path rd w = Some (r, rd', w') ∧
    (reliable w → reliable w' ∧ r = LedgerError.None) ∧
    (r = LedgerError.WalOpenFailed ∧ rd' = new_reader ∧ view w' = view w ∨
     r = LedgerError.None ∧ 0 ≤ rd_fd rd' ∧ rd' = mkReader (rd_fd rd') 0 0 ∧
     fds (view w) !! rd_fd rd' = None ∧
     view w' = set_fd (view w) (rd_fd rd') (FdFile i false false 0)).
Proof.
  intros Hrd Hp Hi. unfold reader_open, reader_close, UniqueFd.reset, UniqueFd.valid.
  rewrite bool_decide_false by lia. msimpl.
  destruct (open_file path O_RDONLY w i nd Hp Hi eq_refl) as (d & w1 & -> & Hr & Hcase). msimpl.
  destruct Hcase as [[Hd Hv]|(Hd & Hf & Hv)].
  - rewrite bool_decide_true by done. msimpl. do 3 eexists. split_and!; [done| |by left].
    intros Hw%Hr. lia.
  - rewrite bool_decide_false by lia. msimpl. cbn [rd_fd]. rewrite bool_decide_false by lia.
    msimpl. do 3 eexists. split_and!; [done| |right; done]. intros Hw%Hr. tauto.
Qed.

Lemma reader_open_missing path rd w :
  rd_fd rd < 0 → dir (view w) !! path = None → path ∉ dirs (view w) →
  ∃ w', reader_open path rd w = Some (LedgerError.WalOpenFailed, new_reader, w') ∧
    view w' = view w ∧ (reliable w → reliable w').
Proof.
  intros Hrd Hp Hdir. unfold reader_open, reader_close, UniqueFd.reset, UniqueFd.valid.
  rewrite bool_decide_false by lia. msimpl.
  destruct (open_missing path O_RDONLY w Hp Hdir eq_refl) as (d & w1 & -> & Hd & Hv & Hr). msimpl.
  rewrite bool_decide_true by done. msimpl. by eexists.
Qed.

(** [truncate_wal]: the file the log's name refers to is cut (or extended with
    zeros) to the requested length and made durable, or one of three errors says
    how far it got.  No other file, name or descriptor changes. *)
Definition truncated (r : ResultVoid) (nd : inode) (n : nat) : option inode :=
  match r with
  | LedgerError.None => Some (mkInode (resize (cur nd) n) (resize (cur nd) n))
  | LedgerError.WalSyncFailed => Some (mkInode (resize (cur nd) n) (stable nd))
  | LedgerError.WalOpenFailed | LedgerError.WalWriteFailed => Some nd
  | _ => None
  end.

Lemma truncate_wal_spec path n w i nd :
  dir (view w) !! path = Some i → files (view w) !! i = Some nd → 0 ≤ n ≤ INT64_MAX →
  ∃ r w' nd', truncate_wal path n w = Some (r, w') ∧ truncated r nd (Z.to_nat n) = Some nd' ∧
    view w' = set_file (view w) i nd' ∧ (reliable w → reliable w' ∧ r = LedgerError.None).
Proof.
  intros Hp Hi Hn. unfold truncate_wal, UniqueFd.reset, UniqueFd.valid. msimpl.
  destruct (open_file path O_WRONLY w i nd Hp Hi eq_refl) as (d & w1 & -> & Hr & Hcase). msimpl.
  destruct Hcase as [[Hd Hv]|(Hd & Hf & Hv)].
  { rewrite bool_decide_true by done. msimpl. do 3 eexists.
    split_and!; [done..|by rewrite set_file_id|]. intros Hw%Hr. lia. }
  rewrite (bool_decide_false (d < 0)), (bool_decide_true (0 ≤ d)), to_s64_small by lia. msimpl.
  pose proof (reliable_ftruncate d n w1) as Hr2.
  destruct (sys_ftruncate d n w1) as [r2 w2] eqn:H2. simpl in Hr2. msimpl.
  destruct (ftruncate_law _ _ _ _ _ i false 0 nd H2) as (_ & Hc2 & Hrel2);
    [rewrite Hv; simpl; by rewrite lookup_insert_eq|by rewrite Hv|].
  assert (∀ nd' w', view w' = set_file (view w1) i nd' →
    view (sys_close d w') = set_file (view w) i nd') as Hclose.
  { intros nd' w' Hw'. destruct (close_law d w') as [-> _]. rewrite Hw', Hv, set_file_set_fd.
    by apply del_fd_set_fd. }
  destruct Hc2 as [[Hne Hv2]|(-> & _ & Hv2)].
  { rewrite bool_decide_true by done. msimpl. do 3 eexists. split_and!; [done..| |].
    - apply Hclose. rewrite Hv2, set_file_id; [done|]. by rewrite Hv.
    - intros [Hw _]%Hr. destruct Hne. apply Hrel2; [done|lia]. }
  rewrite (bool_decide_false (0 ≠ 0)) by lia. msimpl.
  set (c := resize (cur nd) (Z.to_nat n)) in *.
  pose proof (reliable_fsync d w2) as Hr3.
  destruct (sys_fsync d w2) as [r3 w3] eqn:H3. simpl in Hr3. msimpl.
  assert (open_on (view w2) d true false i (mkInode c (stable nd))) as Hon2.
  { rewrite Hv2, Hv, set_file_set_fd. apply open_on_set_fd. simpl. by rewrite lookup_insert_eq. }
  destruct (fsync_law _ _ _ _ H3 (open_on_live _ _ _ _ _ _ Hon2)) as (_ & Hc3 & Hrel3).
  destruct Hc3 as [[Hne Hv3]|[-> He]].
  { rewrite bool_decide_true by done. msimpl. do 3 eexists. split_and!; [done..| |].
    - apply Hclose. by rewrite Hv3, Hv2.
    - intros [Hw _]%Hr. destruct Hne. auto. }
  rewrite (bool_decide_false (0 ≠ 0)) by lia. msimpl. do 3 eexists. split_and!; [done..| |].
  - apply Hclose. rewrite (fsync_effect_eq _ _ _ _ _ _ _ Hon2 He), Hv2. apply set_file_set_file.
  - intros [Hw _]%Hr. split; [|done]. apply reliable_close. auto.
Qed.

(** C28: A record altered in a window of at most four bytes, in its header, its payload
    or its checksum or across them, is never accepted, provided that the header's size
    field is intact: whatever the environment does, [read_next] returns without a
    transaction and does not move, and it answers [Corrupt] when the reads themselves
    succeed. *)
Theorem read_next_rejects_damage rd w wr app i nd tx ts bad c rest :
  tx_ok tx → s64_ok ts → damaged (record_bytes tx ts) bad →
  0 ≤ rd_fd rd → open_on (view w) (rd_fd rd) wr app i nd →
  cur nd = c ++ bad ++ rest →
  cursor_ rd = Z.of_nat (length c) → cursor_ rd + 1024 ≤ INT64_MAX →
  ∃ res w', read_next rd w = Some (res, rd, w') ∧ view w' = view w ∧
    outcome res ≠ ReadOutcome.Ok ∧ (reliable w → outcome res = ReadOutcome.Corrupt).
Proof.
  intros Htx Hts Hd Hfd Hon Hcur Hc Hmax.
  destruct (read_next_spec rd w wr app i nd Hfd Hon) as (res & rd' & w' & Hrun & Hv & _ & Hans);
    [lia..|].
  rewrite Hcur, Hc, Nat2Z.id, drop_app_length, (parse_next_damaged tx ts) in Hans by done.
  destruct Hans as [Hor Hrel]. unfold read_matches in *. simpl in *.
  assert (rd' = rd) as -> by tauto. exists res, w'. split_and!; [done|done| |tauto].
  destruct Hor as [[-> _]|[-> _]]; done.
Qed.

(** C27: What the writer appends, the reader reads: after a successful [append] a
    reader of the same file, positioned where the log ended before, gets the id, the key
    and the legs of the transaction back, with the time the clock gave to [append] in
    the place of its own timestamp, and moves to the new end.  The only other answer is
    [Truncated], and only if a read fails. *)
Theorem append_read_roundtrip tx wr w wr' w' i nd rd :
  tx_ok tx → 0 ≤ fd_ wr → open_on (view w) (fd_ wr) true true i nd →
  append tx wr w = Some (LedgerError.None, wr', w') →
  0 ≤ rd_fd rd → rd_fd rd ≠ fd_ wr → open_on (view w) (rd_fd rd) false false i nd →
  cursor_ rd = Z.of_nat (length (cur nd)) → cursor_ rd + 1024 ≤ INT64_MAX →
  ∃ ts res rd' w'' nd', clock_gives w ts ∧ read_next rd w' = Some (res, rd', w'') ∧ view w'' = view w' ∧
    files (view w') !! i = Some nd' ∧
    (reliable w' → outcome res = ReadOutcome.Ok) ∧
    (outcome res = ReadOutcome.Ok → same_tx tx ts (transaction res) ∧
       cursor_ rd' = Z.of_nat (length (cur nd')) ∧ last_valid_offset rd' = cursor_ rd') ∧
    (outcome res ≠ ReadOutcome.Ok → outcome res = ReadOutcome.Truncated ∧ rd' = rd).
Proof.
  intros Htx Hfd Hon Happ Hrfd Hne Hron Hc Hmax.
  destruct (append_spec tx wr w i nd Htx Hfd Hon)
    as (r & wr1 & w1 & ts & nd' & Hrun & Hts & Hres & (pos & Hwfd & Hi') & [Hfr _] & _). simplify_eq.
  destruct (append_result_inv _ _ _ _ _ _ Hres) as (_ & _ & _ & Hok & _).
  destruct (Hok eq_refl) as (Hcur & _ & _).
  assert (open_on (view w') (rd_fd rd) false false i nd') as Hron'.
  { destruct Hron as (rpos & Hrd & _). exists rpos. split; [|done].
    destruct Hfr as (_ & _ & _ & _ & Hfds). by rewrite Hfds. }
  destruct (read_next_spec rd w' _ _ i nd' Hrfd Hron') as (res & rd' & w2 & Hread & Hv & _ & Hans);
    [lia..|].
  destruct (parse_next_record tx ts [] Htx (proj1 Hts)) as (tx' & Hparse & Hsame).
  rewrite Hcur, Hc, Nat2Z.id, drop_app_length, <- (app_nil_r (record_bytes tx ts)), Hparse in Hans.
  destruct Hans as [Hor Hrel]. unfold read_matches in *; cbn [parsed_outcome] in *.
  exists ts, res, rd', w2, nd'. split_and!; [done..|tauto| |].
  - intros Ho. destruct Hor as [(_ & Ht & ->)|[? _]]; [|congruence].
    rewrite Ht. split; [done|]. split; [|done]. cbn [cursor_]. rewrite Hcur, length_app. lia.
  - intros Ho. destruct Hor as [[? _]|?]; [congruence|done].
Qed.
End Spec.

(** A two-leg transaction and its record with three bytes altered. *)
Module ExampleRecord.
Definition tx : Transaction :=
  mkTx 7 (mkKey 3 4) 5 (LegList.of_list [mkLeg 1 Debit 100; mkLeg 2 Credit 100]).
(** The last byte of the payload and the first two of the checksum are altered. *)
Definition bad : list byte := take 78 (record_bytes tx 9) ++ [Byte.xff; Byte.xfe; Byte.xfd] ++ drop 81 (record_bytes tx 9).
Definition world (log : list byte) : MemFs.mem :=
  (MemFs.m_open "/d/wal" O_RDONLY (MemFs.boot [("/d/wal", log)] [])).2.
End ExampleRecord.

Lemma read_next_rejects_damage_witness :
  let log := [] ++ ExampleRecord.bad ++ [] in
  ∃ res w', read_next (H := MemFs.posix) (mkReader 3 0 0) (ExampleRecord.world log) =
      Some (res, mkReader 3 0 0, w') ∧
    MemFs.mfs w' = MemFs.mfs (ExampleRecord.world log) ∧
    outcome res ≠ ReadOutcome.Ok ∧ (MemFs.faults (ExampleRecord.world log) = [] →
      outcome res = ReadOutcome.Corrupt).
Proof.
  set (log := [] ++ _ ++ []). intros log'.
  apply (read_next_rejects_damage (L := MemFs.posix_laws) (mkReader 3 0 0)
    (ExampleRecord.world log) false false 0 (mkInode log log) ExampleRecord.tx 9
    ExampleRecord.bad [] []); try by_compute; try reflexivity.
  - exists (take 78 (record_bytes ExampleRecord.tx 9)), (take 3 (drop 78 (record_bytes ExampleRecord.tx 9))),
      [Byte.xff; Byte.xfe; Byte.xfd], (drop 81 (record_bytes ExampleRecord.tx 9)).
    split_and!; [reflexivity|reflexivity|reflexivity|by_compute|vm_compute; discriminate|reflexivity].
  - exists 0%nat. split; reflexivity.
Defined.

Lemma append_read_roundtrip_witness :
  let wr := mkWriter 3 SyncEveryWrite 0 false in
  let w0 := (MemFs.m_open "/d/wal" O_CREAT_WRONLY_APPEND (MemFs.boot [] [])).2 in
  let w := (MemFs.m_open "/d/wal" O_RDONLY w0).2 in
  let '(wr', w') := match append (H := MemFs.posix) ExampleRecord.tx wr w with
                    | Some (_, wr', w') => (wr', w') | None => (wr, w) end in
  ∃ ts res rd' w'' nd', clock_gives (P := MemFs.posix) w ts ∧
    read_next (H := MemFs.posix) (mkReader 4 0 0) w' = Some (res, rd', w'') ∧
    MemFs.mfs w'' = MemFs.mfs w' ∧ files (MemFs.mfs w') !! 0 = Some nd' ∧
    (MemFs.faults w' = [] → outcome res = ReadOutcome.Ok) ∧
    (outcome res = ReadOutcome.Ok → same_tx ExampleRecord.tx ts (transaction res) ∧
       cursor_ rd' = Z.of_nat (length (cur nd')) ∧ last_valid_offset rd' = cursor_ rd') ∧
    (outcome res ≠ ReadOutcome.Ok → outcome res = ReadOutcome.Truncated ∧ rd' = mkReader 4 0 0).
Proof.
  intros wr w0 w. destruct (append (H := MemFs.posix) ExampleRecord.tx wr w) as [[[r wr'] w']|] eqn:Happ;
    [|vm_compute in Happ; discriminate].
  assert (r = LedgerError.None) as -> by (vm_compute in Happ; congruence).
  apply (append_read_roundtrip (L := MemFs.posix_laws) ExampleRecord.tx wr w wr' w' 0
    (mkInode [] []) (mkReader 4 0 0));
    [by_compute|by_compute|exists 0%nat; split; reflexivity|exact Happ|by_compute|discriminate
    |exists 0%nat; split; reflexivity|reflexivity|by_compute].
Defined.
