(* ===== verification/Snapshot.v ===== *)
(** * State snapshots

    [include/ledger/snapshot.hpp] and [src/snapshot.cpp]: serialising the account
    table to a temporary file that is renamed into place, and loading it back.
    [snapshot_bytes] is the format, [parse_snapshot] the loader as a function of
    the file's contents.  The theorems are the round trip, detection of damage,
    and atomicity: whatever the environment does and wherever a crash happens,
    the name holds the complete old or the complete new snapshot. *)

From S2P Require Import Prelude Types Validation LedgerState Crc32 WalCodec Posix WalWriter WalReader.

(** ** The code *)

Record SnapshotHeader := mkSnapshotHeader {
  s_magic : Z;
  s_version : Z;
  s_reserved : Z;
  account_count : Z;
  last_applied_tx_id : Z;
  s_wal_offset : Z
}.

Definition snapshot_kMagic : Z := 0x534E4150.
Definition snapshot_kVersion : Z := 1.

Record LoadedSnapshot := mkLoaded { loaded_state : LedgerState; wal_offset : Z }.

(** [SnapshotHeader] is not packed: four bytes of padding, whose value the
    language leaves open ([pad]), precede the 64-bit fields. *)
Definition sizeof_SnapshotHeader : nat := 32.
Definition snapshot_header_bytes (pad : list byte) (h : SnapshotHeader) : list byte :=
  le_split 4 (s_magic h) ++ le_split 2 (s_version h) ++ le_split 2 (s_reserved h) ++
  le_split 4 (account_count h) ++ pad ++
  le_split 8 (last_applied_tx_id h) ++ le_split 8 (s_wal_offset h).
Definition snapshot_header_of_bytes (bs : list byte) : SnapshotHeader :=
  mkSnapshotHeader (le_combine (take 4 bs)) (le_combine (take 2 (drop 4 bs)))
    (le_combine (take 2 (drop 6 bs))) (le_combine (take 4 (drop 8 bs)))
    (le_combine (take 8 (drop 16 bs))) (le_combine (take 8 (drop 24 bs))).

(** [AccountRecord], packed. *)
Record AccountRecord := mkAccountRecord {
  r_id : Z; r_type : Z; r_balance : Z; r_overdraft_limit : Z
}.
Definition sizeof_AccountRecord : nat := 25.
Definition account_record_bytes (r : AccountRecord) : list byte :=
  le_split 8 (r_id r) ++ le_split 1 (r_type r) ++ le_split 8 (r_balance r) ++
  le_split 8 (r_overdraft_limit r).
Definition account_record_of_bytes (bs : list byte) : AccountRecord :=
  mkAccountRecord (le_combine (take 8 bs)) (le_combine (take 1 (drop 8 bs)))
    (to_s64 (le_combine (take 8 (drop 9 bs)))) (to_s64 (le_combine (take 8 (drop 17 bs)))).

(** The record of an account in [write_snapshot], and the account of a record in
    [load_snapshot]. *)
Definition to_record (a : Account) : AccountRecord :=
  mkAccountRecord (acc_id a) (account_type_to_u8 (type a)) (balance a) (overdraft_limit a).
Definition of_record (r : AccountRecord) : Account :=
  mkAccount (r_id r) (account_type_of_u8 (r_type r)) (r_balance r) (r_overdraft_limit r).

(** The range-for of [write_snapshot] over the accounts, in the order [order]. *)
Fixpoint put_accounts (buffer : list byte) (offset : nat) (order : list (AccountId * Account)) :
    option (list byte) :=
  match order with
  | [] => Some buffer
  | (_, account) :: rest =>
      buffer ← mem_write buffer offset (account_record_bytes (to_record account));
      put_accounts buffer (offset + sizeof_AccountRecord) rest
  end.

(** The buffer [write_snapshot] fills. *)
Definition build_snapshot (pad : list byte) (order : list (AccountId * Account))
    (state : LedgerState) (off : Z) : option (list byte) :=
  let n := base.size (accounts_ state) in
  let header := mkSnapshotHeader snapshot_kMagic snapshot_kVersion 0 (wrap32 (Z.of_nat n))
                  (last_applied_id state) off in
  let buffer := replicate (sizeof_SnapshotHeader + n * sizeof_AccountRecord) Byte.x00 in
  buffer ← mem_write buffer 0 (snapshot_header_bytes pad header);
  put_accounts buffer sizeof_SnapshotHeader order.

(** The last loop of [load_snapshot]: [count] records from index [i] on. *)
Fixpoint load_accounts (buffer : list byte) (i count : nat) (st : LedgerState) :
    option LedgerState :=
  match count with
  | O => Some st
  | S count =>
      bs ← mem_read buffer (sizeof_SnapshotHeader + i * sizeof_AccountRecord) sizeof_AccountRecord;
      load_accounts buffer (S i) count (add_account st (of_record (account_record_of_bytes bs))).2
  end.

Definition tmp_path_of (path : string) : string := (path +:+ ".tmp")%string.

(** The argument of [open] in [fsync_parent_dir]. *)
Definition parent_dir (path : string) : string :=
  match last_slash path with
  | None => "."
  | Some slash => String.substring 0 slash path
  end.

Section Code.
Context `{Posix}.

Definition fsync_parent_dir (path : string) : M unit :=
  dir_fd ← call (sys_open (parent_dir path) O_RDONLY);
  if bool_decide (0 ≤ dir_fd) then
    _ ← call (sys_fsync dir_fd);
    call (λ w, (tt, sys_close dir_fd w))
  else mret tt.

Definition write_snapshot (pad : list byte) (order : list (AccountId * Account))
    (path : string) (state : LedgerState) (off : Z) : M ResultVoid :=
  let tmp_path := tmp_path_of path in
  fd ← call (sys_open tmp_path O_CREAT_WRONLY_TRUNC);
  if bool_decide (fd < 0) then mret LedgerError.SnapshotOpenFailed
  else
    let fail := _ ← UniqueFd.reset fd (-1); mret LedgerError.SnapshotWriteFailed in
    buffer ← lift (build_snapshot pad order state off);
    let crc := compute buffer in
    n ← call (sys_write fd buffer);
    if bool_decide (n ≠ Z.of_nat (length buffer)) then fail
    else
      n ← call (sys_write fd (le_split 4 crc));
      if bool_decide (n ≠ 4) then fail
      else
        r ← call (sys_fsync fd);
        if bool_decide (r ≠ 0) then fail
        else
          _ ← UniqueFd.reset fd (-1);
          r ← call (sys_rename tmp_path path);
          if bool_decide (r ≠ 0) then mret LedgerError.SnapshotWriteFailed
          else
            _ ← fsync_parent_dir path;
            mret LedgerError.None.

(** The body of the detached thread [write_snapshot_async] starts; the result is
    dropped. *)
Definition write_snapshot_async (pad : list byte) (order : list (AccountId * Account))
    (path : string) (state : LedgerState) (off : Z) : M unit :=
  _ ← write_snapshot pad order path state off; mret tt.

(** Allocating and filling the buffer of [load_snapshot]; [false] when the
    records could not be read in full. *)
Definition read_records (fd records_size : Z) (hbytes : list byte) : M (bool * list byte) :=
  buffer ← lift (mem_write (replicate (sizeof_SnapshotHeader + Z.to_nat records_size) Byte.x00)
                   0 hbytes);
  if bool_decide (records_size > 0) then
    '(n, bs) ← call (sys_read fd records_size);
    if bool_decide (n < 0) || bool_decide (n ≠ records_size) then mret (false, buffer)
    else buffer ← lift (mem_write buffer sizeof_SnapshotHeader bs); mret (true, buffer)
  else mret (true, buffer).

(** [load_snapshot] after the header has been read and checked. *)
Definition load_records (fd : Z) (header : SnapshotHeader) (hbytes : list byte) :
    M (Result LoadedSnapshot) :=
  let finish r := _ ← UniqueFd.reset fd (-1); mret r in
  let corrupt := finish (Error LedgerError.SnapshotCorrupt) in
  let records_size := account_count header * Z.of_nat sizeof_AccountRecord in
  '(ok, buffer) ← read_records fd records_size hbytes;
  if negb ok then corrupt
  else
    '(n, crc_bytes) ← call (sys_read fd 4);
    if bool_decide (n ≠ 4) then corrupt
    else
      let stored_crc := le_combine crc_bytes in
      let computed_crc := compute buffer in
      if bool_decide (computed_crc ≠ stored_crc) then corrupt
      else
        let st := set_last_applied_id empty_state (last_applied_tx_id header) in
        st ← lift (load_accounts buffer 0 (Z.to_nat (account_count header)) st);
        finish (Value (mkLoaded st (s_wal_offset header))).

Definition load_snapshot (path : string) : M (Result LoadedSnapshot) :=
  fd ← call (sys_open path O_RDONLY);
  if bool_decide (fd < 0) then mret (Error LedgerError.SnapshotReadFailed)
  else
    let corrupt := _ ← UniqueFd.reset fd (-1); mret (Error LedgerError.SnapshotCorrupt) in
    '(n, hbytes) ← call (sys_read fd (Z.of_nat sizeof_SnapshotHeader));
    if bool_decide (n ≠ Z.of_nat sizeof_SnapshotHeader) then corrupt
    else
      let header := snapshot_header_of_bytes hbytes in
      if bool_decide (s_magic header ≠ snapshot_kMagic) ||
         bool_decide (s_version header ≠ snapshot_kVersion) then corrupt
      else load_records fd header hbytes.
End Code.

(** ** The format *)

Definition snapshot_header (st : LedgerState) (off : Z) : SnapshotHeader :=
  mkSnapshotHeader snapshot_kMagic snapshot_kVersion 0
    (wrap32 (Z.of_nat (base.size (accounts_ st)))) (last_applied_id_ st) off.
Definition account_bytes (a : Account) : list byte := account_record_bytes (to_record a).
Definition snapshot_body (pad : list byte) (order : list (AccountId * Account))
    (st : LedgerState) (off : Z) : list byte :=
  snapshot_header_bytes pad (snapshot_header st off) ++ concat (account_bytes <$> order.*2).
Definition snapshot_bytes (pad : list byte) (order : list (AccountId * Account))
    (st : LedgerState) (off : Z) : list byte :=
  snapshot_body pad order st off ++ le_split 4 (compute (snapshot_body pad order st off)).

Lemma length_account_bytes a : length (account_bytes a) = 25%nat.
Proof. unfold account_bytes, account_record_bytes. len. Qed.
Lemma length_snapshot_header_bytes pad h :
  length pad = 4%nat → length (snapshot_header_bytes pad h) = 32%nat.
Proof. intros. unfold snapshot_header_bytes. len. Qed.
Lemma length_accounts_bytes accs : length (concat (account_bytes <$> accs)) = (length accs * 25)%nat.
Proof.
  induction accs as [|a accs IH]; cbn [fmap list_fmap concat length]; [done|].
  rewrite length_app, IH, length_account_bytes. lia.
Qed.

Lemma put_accounts_ok order buffer offset bs :
  written buffer offset bs → (length bs + length order * 25 ≤ length buffer)%nat →
  ∃ buffer', put_accounts buffer offset order = Some buffer' ∧ length buffer' = length buffer ∧
    written buffer' (offset + length order * 25) (bs ++ concat (account_bytes <$> order.*2)).
Proof.
  revert buffer offset bs. induction order as [|[i a] order IH]; intros buffer offset bs Hw Hle;
    cbn [put_accounts fmap list_fmap concat length snd] in *.
  { exists buffer. by rewrite app_nil_r, Nat.mul_0_l, Nat.add_0_r. }
  pose proof (length_account_bytes a) as Hla.
  destruct (mem_write_written buffer offset bs (account_bytes a) Hw) as (b1 & Hb1 & Hl1 & Hw1); [lia|].
  fold (account_bytes a). rewrite Hb1. ubind. rewrite Hla in Hw1.
  destruct (IH b1 (offset + sizeof_AccountRecord)%nat (bs ++ account_bytes a)) as (b2 & Hb2 & Hl2 & Hw2);
    [exact Hw1|rewrite length_app; lia|].
  exists b2. rewrite <- app_assoc in Hw2. split_and!; [done|lia|].
  by replace (offset + S (length order) * 25)%nat
    with (offset + sizeof_AccountRecord + length order * 25)%nat by (unfold sizeof_AccountRecord; lia).
Qed.

Lemma build_snapshot_ok pad order st off :
  length pad = 4%nat → iterates st order →
  build_snapshot pad order st off = Some (snapshot_body pad order st off).
Proof.
  intros Hpad Hit. assert (length order = base.size (accounts_ st)) as Hlen.
  { rewrite Hit. apply length_map_to_list. }
  unfold build_snapshot, last_applied_id. cbv zeta. fold (snapshot_header st off).
  set (n := base.size (accounts_ st)) in *. set (h := snapshot_header st off).
  pose proof (length_snapshot_header_bytes pad h Hpad) as Hlh.
  destruct (mem_write_written (replicate (sizeof_SnapshotHeader + n * sizeof_AccountRecord) Byte.x00)
    0 [] (snapshot_header_bytes pad h)) as (b1 & -> & Hl1 & Hw1); [done|..].
  { rewrite Hlh, length_replicate. unfold sizeof_SnapshotHeader. simpl. lia. }
  ubind. rewrite length_replicate in Hl1. rewrite Hlh in Hw1.
  destruct (put_accounts_ok order b1 32 (snapshot_header_bytes pad h)) as (b2 & Hb2 & Hl2 & Ht & _);
    [done|rewrite Hlh, Hl1; unfold sizeof_SnapshotHeader, sizeof_AccountRecord; lia|].
  unfold sizeof_SnapshotHeader in *. rewrite Hb2. f_equal.
  rewrite take_ge in Ht by (unfold sizeof_AccountRecord in *; lia). done.
Qed.

(** ** The loader as a function of the contents *)

(** The [k]-th account record of a snapshot. *)
Definition nth_account (c : list byte) (k : nat) : Account :=
  of_record (account_record_of_bytes (take 25 (drop (32 + k * 25) c))).
(** The state the loader builds from a header and a list of accounts: the first
    record of an id wins. *)
Definition load_state (last : Z) (accs : list Account) : LedgerState :=
  foldl (λ st a, (add_account st a).2) (mkState ∅ last) accs.

Definition parse_snapshot (c : list byte) : Result LoadedSnapshot :=
  let h := snapshot_header_of_bytes (take 32 c) in
  let n := Z.to_nat (account_count h) in
  if bool_decide ((32 ≤ length c)%nat ∧ s_magic h = snapshot_kMagic ∧
                  s_version h = snapshot_kVersion ∧ (32 + n * 25 + 4 ≤ length c)%nat ∧
                  compute (take (32 + n * 25) c) = le_combine (take 4 (drop (32 + n * 25) c)))
  then Value (mkLoaded (load_state (last_applied_tx_id h) (nth_account c <$> seq 0 n))
                (s_wal_offset h))
  else Error LedgerError.SnapshotCorrupt.

Lemma load_accounts_ok buffer c i n st :
  (32 + (i + n) * 25 ≤ length buffer)%nat →
  take (32 + (i + n) * 25) buffer = take (32 + (i + n) * 25) c →
  load_accounts buffer i n st =
    Some (foldl (λ st a, (add_account st a).2) st (nth_account c <$> seq i n)).
Proof.
  revert i st. induction n as [|n IH]; intros i st Hl Hag; [done|].
  cbn [load_accounts seq fmap list_fmap foldl].
  change (sizeof_SnapshotHeader) with 32%nat. change sizeof_AccountRecord with 25%nat.
  rewrite mem_read_ok by lia. ubind.
  rewrite (field_agree buffer c _ (32 + i * 25) 25 Hag) by lia. fold (nth_account c i).
  rewrite IH; [done|..]; replace (S i + n)%nat with (i + S n)%nat by lia; done.
Qed.

Section LoadSpec.
Context {P : Posix} {L : PosixLaws P}.

(** What a call of the loader may answer: what the contents parse to, or an
    error when a call failed or came up short. *)
Definition load_answer (c : list byte) (rel : Prop) (r : Result LoadedSnapshot) : Prop :=
  (r = parse_snapshot c ∨ r = Error LedgerError.SnapshotCorrupt) ∧ (rel → r = parse_snapshot c).

Lemma load_answer_corrupt c (rel : Prop) :
  (rel → parse_snapshot c = Error LedgerError.SnapshotCorrupt) →
  load_answer c rel (Error LedgerError.SnapshotCorrupt).
Proof. intros H. split; [by right|]. intros Hr. by rewrite H. Qed.

(** Closing the descriptor restores the view. *)
Lemma close_reading d f w o :
  fds f !! d = None → view w = set_fd f d o → view (sys_close d w) = f.
Proof. intros Hd Hv. destruct (close_law d w) as [-> _]. rewrite Hv. by apply del_fd_set_fd. Qed.

(** The second read of the loader, which is skipped when there are no records. *)
Lemma read_records_spec d f w i nd n :
  view w = set_fd f d (FdFile i false false 32) → files f !! i = Some nd →
  (32 ≤ length (cur nd))%nat →
  ∃ ok buffer w' pos,
    read_records d (Z.of_nat (n * 25)) (take 32 (cur nd)) w = Some (ok, buffer, w') ∧
    (reliable w → reliable w') ∧ view w' = set_fd f d (FdFile i false false pos) ∧
    (ok = true ∧ pos = (32 + n * 25)%nat ∧ buffer = take (32 + n * 25) (cur nd) ∧
       (32 + n * 25 ≤ length (cur nd))%nat ∨
     ok = false ∧ (reliable w → (length (cur nd) < 32 + n * 25)%nat)).
Proof.
  intros Hv Hi Hlen. unfold read_records. change sizeof_SnapshotHeader with 32%nat.
  rewrite Nat2Z.id. msimpl.
  destruct (mem_write_written (replicate (32 + n * 25) Byte.x00) 0 [] (take 32 (cur nd)))
    as (b1 & -> & Hl1 & Hw1); [done|len|].
  rewrite length_take, Nat.min_l in Hw1 by lia. rewrite length_replicate in Hl1. msimpl.
  case_bool_decide as Hn; msimpl.
  - destruct (read_at w f d i nd 32 (n * 25) Hv Hi) as (r & bs & w' & pos & -> & Hr & Hv' & Hcase).
    msimpl. destruct Hcase as [(-> & -> & -> & Hfull)|[Hne Hshort]].
    + rewrite (bool_decide_false (_ < 0)), (bool_decide_false (_ ≠ _)) by lia. msimpl.
      destruct (mem_write_written b1 32 (take 32 (cur nd)) (take (n * 25) (drop 32 (cur nd))) Hw1)
        as (b2 & -> & Hl2 & Ht & _); [len|]. msimpl.
      rewrite length_drop in Hfull.
      exists true, b2, w', (32 + n * 25)%nat. split_and!; [done..|left]. split_and!; [done..| |lia].
      rewrite (field_length (cur nd)) in Ht by lia. rewrite (take_ge b2) in Ht by lia.
      rewrite Ht, <- (take_take_drop (cur nd)). done.
    + exists false, b1, w', pos. split_and!; [|done|done|right].
      { destruct (bool_decide (r < 0)); msimpl; [done|]. by rewrite bool_decide_true. }
      split; [done|]. intros Hw%Hshort. rewrite length_drop in Hw. lia.
  - assert (n = 0%nat) as -> by lia. exists true, b1, w, 32%nat. split_and!; [done..|left].
    split_and!; [done|lia| |lia]. destruct Hw1 as [Ht _]. by rewrite (take_ge b1) in Ht by lia.
Qed.

Lemma parse_snapshot_corrupt c :
  (let h := snapshot_header_of_bytes (take 32 c) in
   let n := Z.to_nat (account_count h) in
   (length c < 32)%nat ∨ s_magic h ≠ snapshot_kMagic ∨ s_version h ≠ snapshot_kVersion ∨
   (length c < 32 + n * 25 + 4)%nat ∨
   compute (take (32 + n * 25) c) ≠ le_combine (take 4 (drop (32 + n * 25) c))) →
  parse_snapshot c = Error LedgerError.SnapshotCorrupt.
Proof.
  cbv zeta. intros H. unfold parse_snapshot. rewrite bool_decide_false; [done|].
  intros (? & ? & ? & ? & ?). destruct H as [?|[?|[?|[?|?]]]]; (done || lia).
Qed.

Lemma parse_snapshot_good c h n :
  h = snapshot_header_of_bytes (take 32 c) → n = Z.to_nat (account_count h) →
  s_magic h = snapshot_kMagic → s_version h = snapshot_kVersion →
  (32 + n * 25 + 4 ≤ length c)%nat →
  compute (take (32 + n * 25) c) = le_combine (take 4 (drop (32 + n * 25) c)) →
  parse_snapshot c =
    Value (mkLoaded (load_state (last_applied_tx_id h) (nth_account c <$> seq 0 n)) (s_wal_offset h)).
Proof.
  intros -> -> ? ? ? ?. unfold parse_snapshot. rewrite bool_decide_true; [done|].
  split_and!; (done || lia).
Qed.

Lemma load_records_spec d f w i nd h :
  0 ≤ d → fds f !! d = None →
  view w = set_fd f d (FdFile i false false 32) → files f !! i = Some nd →
  (32 ≤ length (cur nd))%nat → h = snapshot_header_of_bytes (take 32 (cur nd)) →
  s_magic h = snapshot_kMagic → s_version h = snapshot_kVersion → 0 ≤ account_count h →
  ∃ r w', load_records d h (take 32 (cur nd)) w = Some (r, w') ∧ view w' = f ∧
    (reliable w → reliable w') ∧ load_answer (cur nd) (reliable w) r.
Proof.
  intros Hd Hfd Hv Hi Hlen Hh Hm Hver Hc. unfold load_records. msimpl.
  set (n := Z.to_nat (account_count h)). change sizeof_AccountRecord with 25%nat.
  replace (account_count h * Z.of_nat 25) with (Z.of_nat (n * 25)) by lia.
  unfold UniqueFd.reset, UniqueFd.valid. rewrite (bool_decide_true (0 ≤ d)) by done.
  destruct (read_records_spec d f w i nd n Hv Hi Hlen) as (ok & buf & w1 & pos & -> & Hr1 & Hv1 & Hc1).
  msimpl. destruct Hc1 as [(-> & -> & Hbuf & Hl1)|[-> Hshort]]; msimpl; cycle 1.
  { do 2 eexists. split_and!; [done|by eapply close_reading|auto using reliable_close|].
    apply load_answer_corrupt. intros Hw%Hshort. apply parse_snapshot_corrupt.
    rewrite <- Hh. fold n. cbv zeta. do 3 right. left. lia. }
  destruct (read_at w1 f d i nd (32 + n * 25) 4 Hv1 Hi) as (r & bs & w2 & pos & Hread & Hr2 & Hv2 & Hc2).
  change (Z.of_nat 4) with 4 in *. rewrite Hread. msimpl.
  destruct Hc2 as [(-> & -> & -> & Hl2)|[Hne Hshort]]; cycle 1.
  { rewrite bool_decide_true by done. msimpl.
    do 2 eexists. split_and!; [done|by eapply close_reading|auto using reliable_close|].
    apply load_answer_corrupt. intros Hw%Hr1%Hshort. apply parse_snapshot_corrupt.
    rewrite <- Hh. fold n. cbv zeta. do 3 right. left. rewrite length_drop in Hw. lia. }
  rewrite (bool_decide_false (4 ≠ 4)) by lia. msimpl. rewrite length_drop in Hl2.
  rewrite Hbuf. case_bool_decide as Hcrc; msimpl.
  { do 2 eexists. split_and!; [done|by eapply close_reading|auto using reliable_close|].
    apply load_answer_corrupt. intros _. apply parse_snapshot_corrupt.
    rewrite <- Hh. fold n. cbv zeta. by do 4 right. }
  rewrite (load_accounts_ok _ (cur nd)) by (rewrite ?length_take, ?take_take, ?Nat.min_id; (done || lia)).
  msimpl. do 2 eexists. split_and!; [done|by eapply close_reading|auto using reliable_close|].
  unfold load_answer. rewrite (parse_snapshot_good (cur nd) h n Hh) by (done || lia).
  split; [by left|done].
Qed.

Lemma load_snapshot_spec path w i nd :
  dir (view w) !! path = Some i → files (view w) !! i = Some nd →
  ∃ r w', load_snapshot path w = Some (r, w') ∧ view w' = view w ∧ (reliable w → reliable w') ∧
    (r = Error LedgerError.SnapshotReadFailed ∨ load_answer (cur nd) (reliable w) r) ∧
    (reliable w → r = parse_snapshot (cur nd)).
Proof.
  intros Hp Hi. unfold load_snapshot. msimpl.
  destruct (open_file path O_RDONLY w i nd Hp Hi eq_refl) as (d & w1 & -> & Hr & Hcase). msimpl.
  destruct Hcase as [[Hd Hv]|(Hd & Hfd & Hv)].
  { rewrite bool_decide_true by done. msimpl. do 2 eexists. split_and!; [done..|tauto|by left|].
    intros Hw%Hr. lia. }
  rewrite (bool_decide_false (d < 0)) by lia. msimpl. change sizeof_SnapshotHeader with 32%nat.
  cbn [o_write o_append O_RDONLY] in Hv.
  unfold UniqueFd.reset, UniqueFd.valid. rewrite (bool_decide_true (0 ≤ d)) by done.
  destruct (read_at w1 (view w) d i nd 0 32 Hv Hi) as (n & bs & w2 & pos & Hread & Hr2 & Hv2 & Hc2).
  rewrite Hread. msimpl. rewrite drop_0 in Hc2.
  assert (∀ r w', (reliable w1 → reliable w') ∧ load_answer (cur nd) (reliable w1) r →
    (reliable w → reliable w') ∧
    (r = Error LedgerError.SnapshotReadFailed ∨ load_answer (cur nd) (reliable w) r) ∧
    (reliable w → r = parse_snapshot (cur nd))) as Hfin.
  { unfold load_answer. intros r w' (? & ? & ?). split_and!; [tauto|right|tauto]. tauto. }
  destruct Hc2 as [(-> & -> & -> & Hlen)|[Hne Hshort]]; cycle 1.
  { rewrite bool_decide_true by done. msimpl. do 2 eexists.
    split; [done|]. split; [by eapply close_reading|]. apply Hfin. split; [auto using reliable_close|].
    apply load_answer_corrupt. intros Hw%Hshort. apply parse_snapshot_corrupt. left. lia. }
  rewrite (bool_decide_false (_ ≠ _)) by lia. msimpl.
  set (h := snapshot_header_of_bytes (take 32 (cur nd))).
  case_bool_decide as Hm; [|case_bool_decide as Hver]; msimpl.
  1,2: do 2 eexists; (split; [done|]); (split; [by eapply close_reading|]); apply Hfin;
    (split; [auto using reliable_close|]);
    apply load_answer_corrupt; intros _; apply parse_snapshot_corrupt; fold h; cbv zeta; tauto.
  destruct (load_records_spec d (view w) w2 i nd h) as (r & w' & Hrun & Hv' & Hr' & Hans); try done.
  { apply (le_combine_range _ 4). rewrite length_take, length_drop, length_take. lia. }
  exists r, w'. split; [done|]. split; [done|]. apply Hfin. split; [auto|]. destruct Hans. split; auto.
Qed.
End LoadSpec.

(** ** Round trip *)

Lemma snapshot_header_roundtrip pad h :
  length pad = 4%nat → u32_ok (s_magic h) → 0 ≤ s_version h < 65536 → 0 ≤ s_reserved h < 65536 →
  u32_ok (account_count h) → u64_ok (last_applied_tx_id h) → u64_ok (s_wal_offset h) →
  snapshot_header_of_bytes (snapshot_header_bytes pad h) = h.
Proof.
  intros Hpad Hm Hv Hr Hc Hl Ho. destruct h as [m v r c l o]; simpl in *.
  unfold snapshot_header_of_bytes, snapshot_header_bytes;
    cbn [s_magic s_version s_reserved account_count last_applied_tx_id s_wal_offset].
  rewrite take_app_exact by len.
  rewrite (drop_app_exact 4), take_app_exact by len.
  rewrite (app_assoc (le_split 4 m)), (drop_app_exact 6), take_app_exact by len.
  rewrite (app_assoc (le_split 4 m ++ _)), (drop_app_exact 8), take_app_exact by len.
  rewrite (app_assoc ((le_split 4 m ++ _) ++ _)), (app_assoc (((le_split 4 m ++ _) ++ _) ++ _)),
    (drop_app_exact 16), take_app_exact by len.
  rewrite (app_assoc ((((le_split 4 m ++ _) ++ _) ++ _) ++ _)), (drop_app_exact 24) by len.
  rewrite take_ge by len.
  by rewrite !le_combine_split_u by (simpl; range_lia).
Qed.

Lemma account_roundtrip a :
  account_ok a → of_record (account_record_of_bytes (account_bytes a)) = a.
Proof.
  intros (Hi & Ht & Hb & Ho). pose proof (account_type_to_u8_ok _ Ht) as Hu.
  destruct a as [i t b o]; simpl in *.
  unfold account_bytes, account_record_of_bytes, account_record_bytes, to_record;
    cbn [r_id r_type r_balance r_overdraft_limit acc_id type balance overdraft_limit].
  rewrite take_app_exact by len.
  rewrite (drop_app_exact 8), take_app_exact by len.
  rewrite (app_assoc (le_split 8 i)), (drop_app_exact 9), take_app_exact by len.
  rewrite (app_assoc (le_split 8 i ++ _)), (drop_app_exact 17), take_ge by len.
  rewrite !le_combine_le_split_s8, !le_combine_split_u by (simpl; range_lia).
  unfold of_record; simpl. by rewrite account_type_of_to_u8.
Qed.

Lemma nth_accounts pre accs post k :
  length pre = (32 + k * 25)%nat → Forall account_ok accs →
  nth_account (pre ++ concat (account_bytes <$> accs) ++ post) <$> seq k (length accs) = accs.
Proof.
  intros Hpre Hok. revert pre k Hpre. induction Hok as [|a accs Ha Hok IH]; intros pre k Hpre; [done|].
  pose proof (length_account_bytes a) as Hla.
  cbn [fmap list_fmap concat length seq]. f_equal.
  - unfold nth_account. rewrite <- app_assoc, drop_app_exact, take_app_exact by done.
    by apply account_roundtrip.
  - rewrite <- app_assoc, app_assoc. apply IH. rewrite length_app. lia.
Qed.

Lemma load_state_fold accs m last :
  NoDup (acc_id <$> accs) → Forall (λ a, m !! acc_id a = None) accs →
  foldl (λ st a, (add_account st a).2) (mkState m last) accs =
    mkState (list_to_map ((λ a, (acc_id a, a)) <$> accs) ∪ m) last.
Proof.
  revert m. induction accs as [|a accs IH]; intros m Hnd Hm; csimpl in *.
  { by rewrite (left_id_L ∅ _). }
  apply NoDup_cons in Hnd as [Hni Hnd]. apply Forall_cons in Hm as [Ha Hm].
  unfold add_account at 2. cbn [accounts_]. rewrite Ha. simpl. rewrite IH; [|done|].
  - f_equal. rewrite <- insert_union_r, insert_union_l; [done|].
    apply not_elem_of_list_to_map_1. rewrite <- list_fmap_compose. done.
  - eapply Forall_impl; [apply Forall_and; split; [exact Hm|]|].
    + apply Forall_forall. intros b Hb. exact (list_elem_of_fmap_2 acc_id _ _ Hb).
    + simpl. intros b [Hb Hin]. rewrite lookup_insert_ne; [done|]. intros E. apply Hni. by rewrite E.
Qed.

Lemma iterates_accounts st order :
  state_wf st → iterates st order →
  order = (λ a, (acc_id a, a)) <$> order.*2 ∧ Forall account_ok order.*2 ∧
  NoDup (acc_id <$> order.*2).
Proof.
  intros [_ Hwf] Hit.
  assert (Forall (λ e, acc_id e.2 = e.1 ∧ account_ok e.2) order) as Hok.
  { apply Forall_forall. intros [i a] Hin. rewrite Hit in Hin. apply elem_of_map_to_list in Hin.
    destruct (Hwf i a Hin) as (? & ? & _). done. }
  assert (order = (λ a, (acc_id a, a)) <$> order.*2) as Hord.
  { clear Hit. induction Hok as [|[i a] order [Hi _] _ IH]; csimpl; [done|].
    simpl in Hi. by rewrite Hi, <- IH. }
  split_and!; [done| |].
  - apply Forall_fmap. eapply Forall_impl; [exact Hok|]. by intros e [_ ?].
  - assert (acc_id <$> order.*2 = order.*1) as ->.
    { clear -Hok. induction Hok as [|[i a] order [Hi _] _ IH]; csimpl; [done|].
      simpl in Hi. by rewrite Hi, IH. }
    rewrite Hit. apply NoDup_fst_map_to_list.
Qed.

Lemma load_state_iterates st order last :
  state_wf st → iterates st order → load_state last order.*2 = mkState (accounts_ st) last.
Proof.
  intros Hwf Hit. destruct (iterates_accounts st order Hwf Hit) as (Hord & _ & Hnd).
  unfold load_state. rewrite load_state_fold; [|done|].
  - rewrite (right_id_L ∅ _), <- Hord. f_equal.
    rewrite <- (list_to_map_to_list (accounts_ st)). apply list_to_map_proper; [|done].
    rewrite Hit. apply NoDup_fst_map_to_list.
  - apply Forall_forall. intros a _. apply lookup_empty.
Qed.

(** A snapshot the format can hold: the account count fits 32 bits. *)
Definition snapshot_ok (pad : list byte) (order : list (AccountId * Account)) (st : LedgerState)
    (off : Z) : Prop :=
  length pad = 4%nat ∧ iterates st order ∧ state_wf st ∧
  Z.of_nat (base.size (accounts_ st)) < 4294967296 ∧ u64_ok off.

#[export] Instance snapshot_ok_dec pad order st off : Decision (snapshot_ok pad order st off).
Proof. unfold snapshot_ok. apply _. Defined.

Section Parse.
Variables (pad : list byte) (order : list (AccountId * Account)) (st : LedgerState) (off : Z).
Hypothesis Hok : snapshot_ok pad order st off.

Lemma length_snapshot_body :
  length (snapshot_body pad order st off) = (32 + base.size (accounts_ st) * 25)%nat.
Proof.
  destruct Hok as (Hpad & Hit & _). unfold snapshot_body.
  rewrite length_app, length_snapshot_header_bytes, length_accounts_bytes, length_fmap by done.
  rewrite Hit, length_map_to_list. done.
Qed.

Lemma snapshot_header_read rest :
  snapshot_header_of_bytes (take 32 (snapshot_body pad order st off ++ rest)) =
    snapshot_header st off.
Proof.
  destruct Hok as (Hpad & _ & [Hl _] & Hn & Ho). unfold snapshot_body.
  rewrite <- app_assoc, take_app_exact by (by apply length_snapshot_header_bytes).
  apply snapshot_header_roundtrip; unfold snapshot_header, snapshot_kMagic, snapshot_kVersion;
    cbn [s_magic s_version s_reserved account_count last_applied_tx_id s_wal_offset];
    try done; apply wrap32_range.
Qed.

Lemma snapshot_count :
  Z.to_nat (account_count (snapshot_header st off)) = base.size (accounts_ st).
Proof.
  destruct Hok as (_ & _ & _ & Hn & _). simpl. rewrite wrap32_id by range_lia. lia.
Qed.

Lemma parse_snapshot_bytes rest :
  parse_snapshot (snapshot_bytes pad order st off ++ rest) = Value (mkLoaded st off).
Proof.
  pose proof length_snapshot_body as Hlb. pose proof Hok as (Hpad & Hit & Hwf & Hn & Ho).
  destruct (iterates_accounts st order Hwf Hit) as (_ & Haccs & _).
  assert (base.size (accounts_ st) = length order.*2) as Hsz
    by (rewrite length_fmap, Hit; symmetry; apply length_map_to_list).
  unfold snapshot_bytes. rewrite <- app_assoc.
  rewrite (parse_snapshot_good _ (snapshot_header st off) (base.size (accounts_ st)));
    [|symmetry; apply snapshot_header_read|symmetry; apply snapshot_count|done|done| |].
  - f_equal. f_equal. rewrite Hsz. unfold snapshot_body.
    rewrite <- app_assoc, nth_accounts; [|by apply length_snapshot_header_bytes|done].
    rewrite (load_state_iterates st) by done. by destruct st.
  - rewrite !length_app, length_le_split. lia.
  - rewrite <- Hlb, take_app_length, drop_app_length, take_app_exact by apply length_le_split.
    rewrite le_combine_split_u; [done|]. apply (compute_u32 (snapshot_body pad order st off)).
Qed.

(** Damage outside the account count makes the checksum fail, or an earlier check. *)
Lemma parse_snapshot_damaged bad rest :
  damaged (snapshot_bytes pad order st off) bad →
  parse_snapshot (bad ++ rest) = Error LedgerError.SnapshotCorrupt.
Proof.
  intros Hd. pose proof length_snapshot_body as Hl.
  destruct (damaged_codeword _ _ Hd) as (body & crc & -> & Hlb & Hlc & Hne). rewrite <- app_assoc.
  apply parse_snapshot_corrupt. cbv zeta.
  assert (account_count (snapshot_header_of_bytes (take 32 (body ++ crc ++ rest))) =
    account_count (snapshot_header st off)) as ->.
  { rewrite <- (snapshot_header_read []). unfold snapshot_header_of_bytes; cbn [account_count]. f_equal.
    destruct Hd as (_ & _ & _ & _ & _ & _ & _ & _ & _ & Hsz). unfold snapshot_bytes in Hsz.
    rewrite !drop_app_le, !take_app_le in Hsz by len.
    rewrite app_nil_r, !field_take by lia. by rewrite drop_app_le, take_app_le by len. }
  rewrite snapshot_count. do 4 right. rewrite <- Hl, <- Hlb.
  rewrite take_app_length, drop_app_length, take_app_exact by done. done.
Qed.
End Parse.
