(* ===== verification/SnapshotWrite.v ===== *)
(** * Writing snapshots: crashes and atomicity

    [write_snapshot] writes a temporary file, makes it durable and renames it
    over the target.  This file states what a crash can leave on disk and proves
    that, whatever the environment answers and wherever a crash strikes, the
    target name holds the complete old or the complete new snapshot. *)

From S2P Require Import Prelude Types Validation LedgerState Crc32 WalCodec Posix WalWriter.
From S2P Require Import WalReader Snapshot.

(** ** Crashes *)

(** What may be found after a crash in view [f]: a name refers to what it did at
    the crash or at the last [fsync] of its directory; a file whose contents had
    all reached stable storage has them, any other file may hold anything. *)
Definition crash (f f' : fs) : Prop :=
  (∀ p, dir f' !! p = dir f !! p ∨ dir f' !! p = sdir f !! p) ∧
  (∀ i c, files f !! i = Some (mkInode c c) → files f' !! i = Some (mkInode c c)) ∧
  fds f' = ∅.

#[export] Instance in_dir_dec q p : Decision (in_dir q p).
Proof. unfold in_dir. apply _. Defined.

Lemma tmp_path_ne path : tmp_path_of path ≠ path.
Proof.
  unfold tmp_path_of. induction path as [|c path IH]; [done|]. simpl. by intros [= H].
Qed.

(** The temporary name is in the same directory. *)
Lemma last_slash_app p q : last_slash q = None → last_slash (p +:+ q)%string = last_slash p.
Proof. intros Hq. induction p as [|c p IH]; [done|]. simpl. by rewrite IH. Qed.
Lemma last_slash_lt p k : last_slash p = Some k → (k < String.length p)%nat.
Proof.
  revert k. induction p as [|c p IH]; intros k; [done|]. simpl. destruct (last_slash p) as [m|].
  - intros [= <-]. specialize (IH m eq_refl). lia.
  - case_bool_decide; [|done]. intros [= <-]. lia.
Qed.
Lemma substring_app p q k : (k ≤ String.length p)%nat → String.substring 0 k (p +:+ q)%string = String.substring 0 k p.
Proof.
  revert k. induction p as [|c p IH]; intros [|k] Hk; simpl in *; try done; [by destruct q|lia|].
  by rewrite IH by lia.
Qed.
Lemma tmp_path_dirname path : dirname (tmp_path_of path) = dirname path.
Proof.
  unfold dirname, tmp_path_of. rewrite last_slash_app by done.
  destruct (last_slash path) as [[|k]|] eqn:Hs; [done| |done]. apply last_slash_lt in Hs.
  by rewrite substring_app by lia.
Qed.

Section Atomic.
Variables (path : string) (f0 : fs) (bytes : list byte).
Let tmp := tmp_path_of path.

(** At the start the target's contents are durable, and the temporary name is not
    a hard link to the same file. *)
Definition apart : Prop :=
  ∀ i, dir f0 !! path = Some i →
    dir f0 !! tmp ≠ Some i ∧ ∃ c, files f0 !! i = Some (mkInode c c).
(** The target's name is durable as well. *)
Definition settled : Prop := sdir f0 !! path = dir f0 !! path ∧ apart.

(** The file the name referred to at the start is untouched. *)
Definition old_kept (f : fs) : Prop :=
  ∀ i, dir f0 !! path = Some i → files f !! i = files f0 !! i.

(** Any other name of an existing file the temporary name is no link to, and what
    such names still refer to. *)
Definition bystander (p : string) (j : Z) : Prop :=
  p ≠ path ∧ p ≠ tmp ∧ dir f0 !! p = Some j ∧ dir f0 !! tmp ≠ Some j ∧ is_Some (files f0 !! j).
Definition others_kept (f : fs) : Prop :=
  (∀ p j, bystander p j → dir f !! p = Some j ∧ cur <$> files f !! j = cur <$> files f0 !! j ∧
    (sdir f !! p = sdir f0 !! p ∨ sdir f !! p = Some j)) ∧
  (∀ p, p ≠ path → p ≠ tmp → dir f !! p = dir f0 !! p).
(** A durable file that the temporary name does not refer to. *)
Definition durable (j : Z) (c : list byte) : Prop :=
  files f0 !! j = Some (mkInode c c) ∧ dir f0 !! tmp ≠ Some j.
Definition durable_kept (f : fs) : Prop := ∀ j c, durable j c → files f !! j = Some (mkInode c c).
(** The descriptors open at the start. *)
Definition fds_kept (f : fs) : Prop := ∀ d o, fds f0 !! d = Some o → fds f !! d = Some o.

(** Before the rename: the name is as at the start. *)
Definition before (f : fs) : Prop :=
  old_kept f ∧ dir f !! path = dir f0 !! path ∧ sdir f !! path = sdir f0 !! path ∧
  (∀ i, dir f0 !! path = Some i → dir f !! tmp ≠ Some i) ∧
  others_kept f ∧ (∀ p j, bystander p j → dir f !! tmp ≠ Some j) ∧ fds_kept f ∧
  sdir f !! tmp = sdir f0 !! tmp ∧ durable_kept f ∧ (∀ j c, durable j c → dir f !! tmp ≠ Some j).

(** After it: the name refers to a durable file with the new contents, and the
    temporary name is gone. *)
Definition after (f : fs) : Prop :=
  old_kept f ∧ others_kept f ∧ fds_kept f ∧ ∃ i, dir f !! path = Some i ∧ files f !! i = Some (mkInode bytes bytes) ∧
    (sdir f !! path = sdir f0 !! path ∧ sdir f !! tmp = sdir f0 !! tmp ∨
     sdir f !! path = Some i ∧ sdir f !! tmp = None) ∧
    dir f !! tmp = None ∧ durable_kept f ∧ (∀ j c, durable j c → j ≠ i).

Hypothesis Hap : apart.

Lemma before_start : before f0.
Proof.
  split_and!; try done; [intros i Hp; by apply Hap| | | | |].
  - split; [|done]. intros p j (_ & _ & Hp & _). split_and!; [done|done|by left].
  - by intros p j (_ & _ & _ & Ht & _).
  - by intros d o.
  - by intros j c [? _].
  - by intros j c [_ ?].
Qed.

Lemma fds_kept_new f d : fds_kept f → fds f !! d = None → fds f0 !! d = None.
Proof. intros Hk Hd. destruct (fds f0 !! d) as [o|] eqn:Ho; [|done]. apply Hk in Ho. congruence. Qed.
Lemma fds_kept_insert f d o : fds_kept f → fds f0 !! d = None → fds_kept (set_fd f d o).
Proof. intros Hk Hd d' o' Ho. simpl. rewrite lookup_insert_ne by congruence. by apply Hk. Qed.
Lemma fds_kept_delete f d : fds_kept f → fds f0 !! d = None → fds_kept (del_fd f d).
Proof. intros Hk Hd d' o' Ho. simpl. rewrite lookup_delete_ne by congruence. by apply Hk. Qed.

(** A bystander's file exists throughout. *)
Lemma bystander_file f p j : others_kept f → bystander p j → is_Some (files f !! j).
Proof.
  intros [Ho _] Hb. destruct (Ho p j Hb) as (_ & Hc & _). destruct Hb as (_ & _ & _ & _ & nd & Hnd).
  rewrite Hnd in Hc. destruct (files f !! j); [by eexists|done].
Qed.

Lemma others_contents f p j : others_kept f → bystander p j → contents f p = contents f0 p.
Proof.
  intros [Ho _] Hb. destruct (Ho p j Hb) as (Hd & Hc & _). destruct Hb as (_ & _ & Hp & _).
  unfold contents, file_at. by rewrite Hd, Hp.
Qed.

Lemma others_kept_set f i nd :
  others_kept f → (∀ p j, bystander p j → j ≠ i) → others_kept (set_file f i nd).
Proof.
  intros [Ho Hn] Hi. split; [|done]. intros p j Hb. destruct (Ho p j Hb) as (Hd & Hc & Hs). simpl.
  rewrite lookup_insert_ne; [done|]. intros ->. by apply (Hi p j Hb).
Qed.

(** Whatever a crash leaves, the name holds the old or the new contents. *)
Lemma crash_old_or_new f f' :
  sdir f0 !! path = dir f0 !! path → before f ∨ after f → crash f f' →
  contents f' path = contents f0 path ∨ contents f' path = Some bytes.
Proof.
  intros Hs0 Hf (Hdir & Hfiles & _).
  assert (old_kept f → dir f' !! path = dir f0 !! path → contents f' path = contents f0 path) as Hold.
  { intros Hk Hd. unfold contents, file_at. rewrite Hd.
    destruct (dir f0 !! path) as [i|] eqn:Hp; [|done]. simpl.
    destruct (Hap i Hp) as (_ & c & Hc). rewrite Hc.
    rewrite (Hfiles i c); [done|]. by rewrite (Hk i). }
  destruct Hf as [(Hk & Hd & Hs & _)|(Hk & _ & _ & i & Hd & Hnew & Hs & _)].
  - left. apply Hold; [done|]. destruct (Hdir path) as [->| ->]; congruence.
  - assert (dir f' !! path = Some i → contents f' path = Some bytes) as Hn.
    { intros Hp. unfold contents, file_at. rewrite Hp. simpl. by rewrite (Hfiles i bytes). }
    destruct (Hdir path) as [Hp|Hp]; [right; apply Hn; congruence|].
    destruct Hs as [[Hs _]|[Hs _]]; [left|right]; [apply Hold; [done|]|apply Hn]; congruence.
Qed.

(** The state while the temporary file is written: descriptor [d] is at the end
    of file [i], which the temporary name refers to. *)
Definition writing (f : fs) (d i : Z) (nd : inode) : Prop :=
  before f ∧ dir f !! tmp = Some i ∧ files f !! i = Some nd ∧
  fds f !! d = Some (FdFile i true false (length (cur nd))) ∧ fds f0 !! d = None.

(** A view that differs in a file other than the target's, or in descriptors. *)
Lemma before_set_file f i nd : before f → dir f !! tmp = Some i → before (set_file f i nd).
Proof.
  intros (Hk & Hd & Hs & Ht & Ho & Hto & Hfd & Hst & Hdk & Hdt) Hi. split_and!; try done.
  - intros j Hj. simpl. rewrite lookup_insert_ne; [by apply Hk|]. intros ->. by destruct (Ht j Hj).
  - apply others_kept_set; [done|]. intros p j Hb ->. by apply (Hto p i).
  - intros j c Hj. simpl. rewrite lookup_insert_ne; [by apply Hdk|]. intros ->. by apply (Hdt j c Hj).
Qed.

Lemma before_set_fd f d o : before f → fds f0 !! d = None → before (set_fd f d o).
Proof.
  intros (Hk & Hd & Hs & Ht & Ho & Hto & Hfd & Hst & Hdk & Hdt) Hn. split_and!; try done. by apply fds_kept_insert.
Qed.

Context {P : Posix} {L : PosixLaws P}.

Lemma write_open w :
  before (view w) →
  ∃ d w', sys_open tmp O_CREAT_WRONLY_TRUNC w = (d, w') ∧ through before w w' ∧
    (reliable w → reliable w' ∧
      (contents (view w) tmp ≠ None ∨ dir (view w) !! tmp = None → 0 ≤ d)) ∧
    (d < 0 ∧ view w' = view w ∨
     0 ≤ d ∧ ∃ i s, writing (view w') d i (mkInode [] s)).
Proof.
  intros Hb. pose proof (reliable_open tmp O_CREAT_WRONLY_TRUNC w) as Hr.
  pose proof (open_reliable tmp O_CREAT_WRONLY_TRUNC w) as Ho.
  destruct (sys_open tmp O_CREAT_WRONLY_TRUNC w) as [d w'] eqn:Hop. simpl in *. exists d, w'.
  assert (d < 0 ∧ view w' = view w ∨ 0 ≤ d ∧ ∃ i s, writing (view w') d i (mkInode [] s)) as Hcase.
  { destruct (open_law _ _ _ _ _ Hop) as [(? & ? & _)|(Hd & Hfree & He & _)]; [by left|right].
    assert (fds f0 !! d = None) as Hfree0 by (eapply fds_kept_new; [apply Hb|done]).
    split; [done|]. inversion He as [i nd Hp Hi|i Hp _ Hi|]; [|..|done]; simpl in *.
    - exists i, (stable nd). split_and!; simpl; [|done|by rewrite lookup_insert_eq..|done].
      apply before_set_fd, Hfree0. apply (before_set_file _ i (mkInode [] (stable nd)) Hb Hp).
    - exists i, []. split_and!; simpl; [|by rewrite lookup_insert_eq..|done].
      destruct Hb as (Hk & Hdp & Hs & Ht & Ho' & Hto & Hfd & Hst & Hdk & Hdt).
      apply before_set_fd; [|done].
      assert (∀ p j, bystander p j → j ≠ i) as Hne.
      { intros p j Hby ->. destruct (bystander_file _ _ _ Ho' Hby) as [nd Hnd]. congruence. }
      split_and!; simpl.
      + intros j Hj. simpl. rewrite lookup_insert_ne; [by apply Hk|]. intros ->.
        destruct (Hap j Hj) as (_ & c & Hc). rewrite (Hk j Hj) in Hi. congruence.
      + rewrite lookup_insert_ne; [done|]. apply tmp_path_ne.
      + done.
      + intros j Hj. rewrite lookup_insert_eq. intros [= ->].
        destruct (Hap j Hj) as (_ & c & Hc). rewrite (Hk j Hj) in Hi. congruence.
      + split; [|intros p Hp1 Hp2; simpl; rewrite lookup_insert_ne by (intros Heq; by apply Hp2); by apply Ho'].
        intros p j Hby. destruct (proj1 Ho' p j Hby) as (Hdj & Hcj & Hsj). pose proof (Hne p j Hby).
        destruct Hby as (_ & Hpt & _). simpl.
        rewrite lookup_insert_ne by (intros Heq; by apply Hpt). by rewrite !lookup_insert_ne by done.
      + intros p j Hby. rewrite lookup_insert_eq. intros [= ->]. by apply (Hne p j Hby).
      + done.
      + done.
      + intros j c Hj. simpl. rewrite lookup_insert_ne; [by apply Hdk|]. intros ->. rewrite (Hdk j c Hj) in Hi. done.
      + intros j c Hj. rewrite lookup_insert_eq. intros [= ->]. rewrite (Hdk j c Hj) in Hi. done. }
  split_and!; [done| | |done].
  - apply through_step; [by destruct (open_law _ _ _ _ _ Hop) as [(_ & _ & ?)|(_ & _ & _ & ?)]|].
    destruct Hcase as [[_ ->]|(_ & i & s & Hw & _)]; done.
  - intros Hw. split; [auto|]. intros Hc. apply Ho; tauto.
Qed.

Lemma write_write w d i nd bs :
  writing (view w) d i nd →
  ∃ n w', sys_write d bs w = (n, w') ∧ through before w w' ∧ before (view w') ∧
    (reliable w → reliable w' ∧ n = Z.of_nat (length bs)) ∧
    (n = Z.of_nat (length bs) → writing (view w') d i (mkInode (cur nd ++ bs) (stable nd))).
Proof.
  intros (Hb & Ht & Hi & Hd & Hd0). pose proof (reliable_write d bs w) as Hr.
  destruct (sys_write d bs w) as [n w'] eqn:Hw. simpl in Hr. exists n, w'.
  destruct (write_law _ _ _ _ _ _ _ _ Hw Hd) as (Hh & Hcase & Hrel).
  assert (before (view w') ∧
    (n = Z.of_nat (length bs) → writing (view w') d i (mkInode (cur nd ++ bs) (stable nd)))) as [Hb' Hw'].
  { destruct Hcase as [[Hneg Hv]|[Hn Hv]]; rewrite Hv; [split; [done|lia]|].
    unfold write_effect. rewrite Hd, Hi, write_at_end.
    pose proof (before_set_file _ i (mkInode (cur nd ++ take (Z.to_nat n) bs) (stable nd)) Hb Ht) as Hb2.
    split; [by apply before_set_fd|]. intros Hfull. rewrite Hfull, Nat2Z.id, take_ge in * by lia.
    split_and!; simpl; [by apply before_set_fd|done|by rewrite lookup_insert_eq| |done].
    by rewrite lookup_insert_eq, length_app. }
  split_and!; [done|by apply through_step|done|auto|done].
Qed.

Lemma write_fsync w d i nd :
  writing (view w) d i nd →
  ∃ r w', sys_fsync d w = (r, w') ∧ through before w w' ∧ before (view w') ∧
    (reliable w → reliable w' ∧ r = 0) ∧
    (r = 0 → writing (view w') d i (mkInode (cur nd) (cur nd))).
Proof.
  intros Hw. pose proof Hw as (Hb & Ht & Hi & Hd & Hd0). pose proof (reliable_fsync d w) as Hr.
  destruct (sys_fsync d w) as [r w'] eqn:Hs. simpl in Hr. exists r, w'.
  assert (open_on (view w) d true false i nd) as Hon by (by eexists).
  destruct (fsync_law _ _ _ _ Hs (open_on_live _ _ _ _ _ _ Hon)) as (Hh & Hcase & Hrel).
  pose proof (before_set_file _ i (mkInode (cur nd) (cur nd)) Hb Ht) as Hb2.
  assert (before (view w') ∧ (r = 0 → writing (view w') d i (mkInode (cur nd) (cur nd)))) as [Hb' Hw'].
  { destruct Hcase as [[Hne Hv]|[-> He]]; [by rewrite Hv|].
    rewrite (fsync_effect_eq _ _ _ _ _ _ _ Hon He). split; [done|]. intros _.
    split_and!; simpl; [done|done|by rewrite lookup_insert_eq|done|done]. }
  split_and!; [done|by apply through_step|done|auto|done].
Qed.

Lemma write_close w d :
  before (view w) → fds f0 !! d = None →
  through before w (sys_close d w) ∧ before (view (sys_close d w)).
Proof.
  intros Hb Hd0. destruct (close_law d w) as [Hv Hh].
  assert (before (view (sys_close d w))) as Hb'.
  { rewrite Hv. destruct Hb as (Hk & Hd & Hs & Ht & Ho & Hto & Hfd & Hst & Hdk & Hdt).
    split_and!; try done. by apply fds_kept_delete. }
  split; [|done]. by apply through_step.
Qed.

(** The rename publishes a durable file. *)
Lemma write_rename w i :
  before (view w) → dir (view w) !! tmp = Some i → files (view w) !! i = Some (mkInode bytes bytes) →
  ∃ r w', sys_rename tmp path w = (r, w') ∧ through (λ f, before f ∨ after f) w w' ∧
    (reliable w → reliable w' ∧ r = 0) ∧
    (r ≠ 0 ∧ before (view w') ∨ r = 0 ∧ after (view w')).
Proof.
  intros Hb Ht Hi. pose proof (reliable_rename tmp path w) as Hr.
  destruct (sys_rename tmp path w) as [r w'] eqn:Hren. simpl in Hr. exists r, w'.
  destruct (rename_law _ _ _ _ _ Hren) as (Hh & Hcase & Hrel).
  assert (r ≠ 0 ∧ before (view w') ∨ r = 0 ∧ after (view w')) as Hres.
  { destruct Hcase as [[Hne Hv]|(-> & _ & Hv)]; rewrite Hv; [by left|right]. split; [done|].
    destruct Hb as (Hk & Hd & Hs & _ & Ho & _ & Hfd & Hst & Hdk & Hdt). unfold rename_effect. rewrite Ht. split; [done|].
    split; [|split; [done|]].
    { assert (∀ p, p ≠ path → p ≠ tmp → <[path := i]> (delete tmp (dir (view w))) !! p = dir (view w) !! p) as Hnm.
      { intros p Hp1 Hp2. by rewrite lookup_insert_ne, lookup_delete_ne by congruence. }
      destruct Ho as [Ho Hnames]. split; [|intros p Hp1 Hp2; simpl; rewrite Hnm by done; by apply Hnames].
      intros p j Hby. destruct (Ho p j Hby) as (Hdj & Hcj & Hsj). destruct Hby as (Hpp & Hpt & _). split; [|done].
      simpl. by rewrite Hnm. }
    exists i. split_and!; simpl; [by rewrite lookup_insert_eq|done|by left| | |].
    - rewrite lookup_insert_ne by (intros Heq; by apply (tmp_path_ne path)). by rewrite lookup_delete_eq.
    - done.
    - intros j c Hj ->. by apply (Hdt i c Hj). }
  split_and!; [done| | |done].
  - apply through_step; [done|]. tauto.
  - intros Hw. split; [auto|]. apply Hrel; [done|]. by rewrite Ht.
Qed.

(** Syncing any file keeps what has been published. *)
Lemma after_sync f k nd :
  after f → files f !! k = Some nd → after (set_file f k (mkInode (cur nd) (cur nd))).
Proof.
  intros (Hk & Ho & Hfd & i & Hd & Hi & Hs & Ht & Hdk & Hdt) Hnd. split; [|split; [|split; [done|]]].
  - intros j Hj. simpl. destruct (decide (k = j)) as [->|]; [|rewrite lookup_insert_ne by done; by apply Hk].
    destruct (Hap j Hj) as (_ & c & Hc). rewrite lookup_insert_eq. rewrite (Hk j Hj) in Hnd.
    rewrite Hc in *. by simplify_eq.
  - split; [|apply Ho]. intros p j Hby. destruct (proj1 Ho p j Hby) as (Hdj & Hcj & Hsj). split; [done|]. simpl. rewrite <- Hcj.
    destruct (decide (k = j)) as [->|]; [|by rewrite lookup_insert_ne].
    by rewrite lookup_insert_eq, Hnd.
  - exists i. split_and!; [done| |done|done| |done]; simpl.
    + destruct (decide (k = i)) as [->|]; [|by rewrite lookup_insert_ne].
      rewrite lookup_insert_eq. by simplify_eq.
    + intros j c Hj%Hdk. simpl. destruct (decide (k = j)) as [->|]; [|by rewrite lookup_insert_ne].
      rewrite lookup_insert_eq. by simplify_eq.
Qed.

Lemma after_fsync f f' d : after f → fsync_effect d f f' → after f'.
Proof.
  intros Ha He. destruct He as [k w app pos nd Hd Hk|q sd Hd Hin Hout]; [by apply after_sync|].
  destruct Ha as (Hk & Ho & Hfd & i & Hdp & Hi & Hs & Ht & Hne). split; [done|]. split; [|split; [done|]].
  { split; [|apply Ho]. intros p j Hby. destruct (proj1 Ho p j Hby) as (Hdj & Hcj & Hsj). split_and!; [done|done|]. simpl.
    destruct (decide (in_dir q p)) as [Hq|Hq]; [rewrite Hin by done; by right|by rewrite Hout]. }
  exists i. split_and!; [done..| |done|apply Hne|apply Hne]. simpl.
  assert (in_dir q tmp ↔ in_dir q path) as Hsame by (unfold in_dir, tmp; by rewrite tmp_path_dirname).
  destruct (decide (in_dir q path)) as [Hq|Hq].
  - right. rewrite !Hin by tauto. done.
  - rewrite !Hout by tauto. done.
Qed.

Lemma parent_dir_step w :
  after (view w) →
  ∃ w', fsync_parent_dir path w = Some (tt, w') ∧ through after w w' ∧ after (view w') ∧
    (reliable w → reliable w').
Proof.
  intros Ha. unfold fsync_parent_dir. msimpl.
  pose proof (reliable_open (parent_dir path) O_RDONLY w) as Hr1.
  destruct (sys_open (parent_dir path) O_RDONLY w) as [d w1] eqn:Hop. simpl in Hr1. msimpl.
  destruct (open_law _ _ _ _ _ Hop) as [(Hd & Hv & Hh)|(Hd & Hfree & He & Hh)].
  { rewrite bool_decide_false by lia. msimpl. exists w1. rewrite Hv.
    split_and!; [done| |done|done]. apply through_step; [done|]. by rewrite Hv. }
  rewrite bool_decide_true by done. msimpl.
  assert (fds f0 !! d = None) as Hfree0 by (eapply fds_kept_new; [apply Ha|done]).
  assert (∀ o, after (set_fd (view w) d o)) as Haset.
  { intros o. destruct Ha as (? & ? & Hfd & ?). split_and!; try done. by apply fds_kept_insert. }
  assert (after (view w1) ∧ fd_live (view w1) d) as [Ha1 Hlive].
  { inversion He as [i nd Hp Hi| |Hp Hn]; simpl in *; [|done|].
    - rewrite set_file_id by done. split; [done|]. unfold fd_live; simpl.
      by rewrite lookup_insert_eq, Hi.
    - split; [done|]. unfold fd_live; simpl. by rewrite lookup_insert_eq. }
  pose proof (reliable_fsync d w1) as Hr2.
  destruct (sys_fsync d w1) as [r w2] eqn:Hs. simpl in Hr2. msimpl.
  destruct (fsync_law _ _ _ _ Hs Hlive) as (Hh2 & Hcase & _).
  assert (after (view w2)) as Ha2.
  { destruct Hcase as [[_ ->]|[_ ?]]; [done|by eapply after_fsync]. }
  destruct (close_law d w2) as [Hv3 Hh3].
  assert (after (view (sys_close d w2))) as Ha3.
  { rewrite Hv3. destruct Ha2 as (? & ? & Hfd & ?). split_and!; try done. by apply fds_kept_delete. }
  eexists. split_and!; [done| |done|auto using reliable_close].
  eapply through_trans; [by apply through_step|].
  eapply through_trans; by apply through_step.
Qed.
End Atomic.

(** ** The whole of [write_snapshot] *)

Section WriteSnapshot.
Context {P : Posix} {L : PosixLaws P}.
Variables (pad : list byte) (order : list (AccountId * Account)) (path : string)
  (st : LedgerState) (off : Z).
Let bytes := snapshot_bytes pad order st off.
Let tmp := tmp_path_of path.

(** What a run of [write_snapshot] from [w] may end in. *)
Definition write_outcome (w : world) (r : ResultVoid) (w' : world) : Prop :=
  let bef := before path (view w) in let aft := after path (view w) bytes in
  through (λ f, bef f ∨ aft f) w w' ∧
  (r = LedgerError.None ∧ aft (view w') ∨
   (r = LedgerError.SnapshotOpenFailed ∨ r = LedgerError.SnapshotWriteFailed) ∧ bef (view w')) ∧
  (reliable w → contents (view w) tmp ≠ None ∨ dir (view w) !! tmp = None →
    reliable w' ∧ r = LedgerError.None).

Lemma write_outcome_fail w w' r :
  r = LedgerError.SnapshotOpenFailed ∨ r = LedgerError.SnapshotWriteFailed →
  through (before path (view w)) w w' → before path (view w) (view w') →
  (reliable w → contents (view w) tmp ≠ None ∨ dir (view w) !! tmp = None → False) →
  write_outcome w r w'.
Proof.
  intros Hr Ht Hb Hno. split_and!; [|by right|by intros H1 H2; destruct Hno].
  eapply through_impl; [|done]. by left.
Qed.

(** The tail of [write_snapshot] once the temporary file is complete and durable. *)
Lemma write_publish w0 w d i :
  apart path (view w0) → writing path (view w0) (view w) d i (mkInode bytes bytes) →
  through (before path (view w0)) w0 w →
  (reliable w0 → contents (view w0) tmp ≠ None ∨ dir (view w0) !! tmp = None → reliable w) →
  ∃ r w', (r ← call (sys_rename tmp path);
           if bool_decide (r ≠ 0) then mret LedgerError.SnapshotWriteFailed
           else _ ← fsync_parent_dir path; mret LedgerError.None : M ResultVoid) (sys_close d w)
          = Some (r, w') ∧ write_outcome w0 r w'.
Proof.
  intros Hap (Hb & Ht & Hi & Hd & Hd0) Hth Hrel. set (bef := before path (view w0)) in *.
  destruct (write_close path (view w0) w d Hb Hd0) as [Hth1 Hb1]. destruct (close_law d w) as [Hv1 _].
  destruct (write_rename path (view w0) bytes (sys_close d w) i Hb1)
    as (r & w2 & Hren & Hth2 & Hr2 & Hc2); [by rewrite Hv1..|].
  msimpl. fold tmp in Hren. rewrite Hren. msimpl.
  assert (through (λ f, bef f ∨ after path (view w0) bytes f) w0 w2) as Hthru.
  { eapply through_trans; [|exact Hth2]. eapply through_impl; [by intros f; left|].
    by eapply through_trans. }
  destruct Hc2 as [[Hne Hb2]|[-> Ha2]].
  - rewrite bool_decide_true by done. msimpl. do 2 eexists. split; [done|].
    split_and!; [done|right; auto|]. intros H1 H2. destruct Hne.
    apply Hr2, reliable_close. auto.
  - rewrite bool_decide_false by lia. msimpl.
    destruct (parent_dir_step path (view w0) bytes Hap w2 Ha2) as (w3 & -> & Hth3 & Ha3 & Hr3).
    msimpl. do 2 eexists. split; [done|]. split_and!; [|by left|].
    + eapply through_trans; [done|]. eapply through_impl; [|done]. by right.
    + intros H1 H2. split; [|done]. apply Hr3, Hr2, reliable_close. auto.
Qed.

Lemma write_snapshot_spec w :
  length pad = 4%nat → iterates st order → apart path (view w) →
  ∃ r w', write_snapshot pad order path st off w = Some (r, w') ∧ write_outcome w r w'.
Proof.
  intros Hpad Hit Hap. pose proof (before_start _ _ Hap) as Hb0.
  unfold write_snapshot. msimpl. fold tmp.
  destruct (write_open _ _ Hap w Hb0) as (d & w1 & Hop & Ht1 & Hr1 & Hc1). fold tmp in Hop, Hr1.
  rewrite Hop. msimpl. destruct Hc1 as [[Hd Hv]|(Hd & i & s & Hw1)].
  { rewrite bool_decide_true by done. msimpl. do 2 eexists. split; [done|].
    apply write_outcome_fail; [by left|done|by rewrite Hv|]. intros [_ Hge]%Hr1 Hcon%Hge. lia. }
  rewrite (bool_decide_false (d < 0)) by lia. msimpl.
  rewrite build_snapshot_ok by done. msimpl. set (body := snapshot_body pad order st off).
  unfold UniqueFd.reset, UniqueFd.valid. rewrite (bool_decide_true (0 ≤ d)) by done.
  (* a failing call: close and report *)
  assert (∀ w', through (before path (view w)) w w' → before path (view w) (view w') →
    (reliable w → contents (view w) tmp ≠ None ∨ dir (view w) !! tmp = None → False) →
    ∃ r w'', Some (LedgerError.SnapshotWriteFailed, sys_close d w') = Some (r, w'') ∧
      write_outcome w r w'') as Hfail.
  { intros w' Hth Hb Hno. do 2 eexists. split; [done|].
    destruct (write_close path (view w) w' d Hb (proj2 (proj2 (proj2 (proj2 Hw1))))) as [Hth' Hb'].
    apply write_outcome_fail; [by right|by eapply through_trans|done..]. }
  destruct (write_write path (view w) w1 d i _ body Hw1) as (n & w2 & -> & Ht2 & Hb2 & Hr2 & Hn2).
  msimpl. assert (through (before path (view w)) w w2) as Hth2 by by eapply through_trans.
  case_bool_decide as Hne2; msimpl.
  { apply Hfail; [done..|]. intros [H1 _]%Hr1 _. by apply Hne2, Hr2. }
  specialize (Hn2 Hne2). cbn [cur stable] in Hn2. change ([] ++ body) with body in Hn2.
  destruct (write_write path (view w) w2 d i _ (le_split 4 (compute body)) Hn2)
    as (n3 & w3 & -> & Ht3 & Hb3 & Hr3 & Hn3).
  msimpl. assert (through (before path (view w)) w w3) as Hth3 by by eapply through_trans.
  rewrite length_le_split in Hr3, Hn3. change (Z.of_nat 4) with 4 in *.
  case_bool_decide as Hne3; msimpl.
  { apply Hfail; [done..|]. intros [H1 _]%Hr1 _. by apply Hne3, Hr3, Hr2. }
  specialize (Hn3 Hne3). cbn [cur stable] in Hn3.
  destruct (write_fsync path (view w) w3 d i _ Hn3) as (r4 & w4 & -> & Ht4 & Hb4 & Hr4 & Hn4).
  msimpl. assert (through (before path (view w)) w w4) as Hth4 by by eapply through_trans.
  case_bool_decide as Hne4; msimpl.
  { apply Hfail; [done..|]. intros [H1 _]%Hr1 _. by apply Hne4, Hr4, Hr3, Hr2. }
  destruct (write_publish w w4 d i Hap (Hn4 Hne4) Hth4) as (r & w' & Hrun & Hout).
  { intros [H1 _]%Hr1 _. by apply Hr4, Hr3, Hr2. }
  msimpl in Hrun. eauto.
Qed.

(** C9: A snapshot is written atomically.  Whatever the environment answers,
    [write_snapshot] returns, and if the process crashes at any point on the way
    (in any view [f] of the run's history), the target name afterwards holds
    either exactly what it held before the call or the complete new snapshot.
    Success means the new one is in place, an error that the old one still is.
    Every other file that the temporary name is no link to keeps its name and
    contents. *)
Theorem write_snapshot_atomic w :
  length pad = 4%nat → iterates st order → settled path (view w) →
  ∃ r w' hs, write_snapshot pad order path st off w = Some (r, w') ∧
    history w' = history w ++ hs ∧
    (∀ f f', f ∈ hs → crash f f' →
      contents f' path = contents (view w) path ∨
      contents f' path = Some (snapshot_bytes pad order st off)) ∧
    (r = LedgerError.None → contents (view w') path = Some (snapshot_bytes pad order st off)) ∧
    (r ≠ LedgerError.None → contents (view w') path = contents (view w) path) ∧
    (∀ p j, bystander path (view w) p j → contents (view w') p = contents (view w) p).
Proof.
  intros Hpad Hit [Hs Hap]. destruct (write_snapshot_spec w Hpad Hit Hap) as (r & w' & Hrun & Hout).
  destruct Hout as ((hs & Hh & Hall) & Hres & _). exists r, w', hs. split_and!; [done..| | | |].
  - intros f f' Hf Hcr. rewrite Forall_forall in Hall. eapply crash_old_or_new; eauto.
  - intros ->. destruct Hres as [[_ (_ & _ & _ & i & Hd & Hi & _)]|[[?|?] _]]; [|done..].
    unfold contents, file_at. rewrite Hd. simpl. by rewrite Hi.
  - intros Hne. destruct Hres as [[? _]|[_ (Hk & Hd & _)]]; [done|].
    unfold contents, file_at. rewrite Hd. destruct (dir (view w) !! path) as [i|] eqn:Hp; [|done].
    simpl. by rewrite (Hk i Hp).
  - intros p j Hby. eapply others_contents; [|exact Hby].
    by destruct Hres as [[_ (_ & Ho & _)]|[_ (_ & _ & _ & _ & Ho & _)]].
Qed.

(** C29: Without failures of the environment a snapshot is written, and loading it
    gives back the same account table, last applied id and log offset. *)
Theorem snapshot_roundtrip w :
  snapshot_ok pad order st off → settled path (view w) → reliable w →
  dir (view w) !! tmp_path_of path = None →
  ∃ w' w'', write_snapshot pad order path st off w = Some (LedgerError.None, w') ∧
    load_snapshot path w' = Some (Value (mkLoaded st off), w'').
Proof.
  intros Hok [_ Hap] Hrel Htmp. pose proof Hok as (Hpad & Hit & _).
  destruct (write_snapshot_spec w Hpad Hit Hap) as (r & w' & Hrun & _ & Hres & Hr).
  destruct Hr as [Hr' ->]; [done|by right|].
  destruct Hres as [[_ (_ & _ & _ & i & Hd & Hi & _)]|[[?|?] _]]; [|done..].
  destruct (load_snapshot_spec path w' i _ Hd Hi) as (r & w'' & Hload & _ & _ & _ & Heq).
  exists w', w''. split; [done|]. rewrite Hload, (Heq Hr'). cbn [cur].
  rewrite <- (app_nil_r bytes). unfold bytes. by rewrite parse_snapshot_bytes.
Qed.
End WriteSnapshot.

(** C36: A snapshot altered in a window of at most four bytes, in its header, its records
    or its checksum or across them, is never loaded, provided that its account count is
    intact: the answer is an error in every environment, and [SnapshotCorrupt] when the
    calls succeed. *)
Theorem load_snapshot_rejects_damage {P : Posix} {L : PosixLaws P} pad order path st off w i nd :
  snapshot_ok pad order st off → damaged (snapshot_bytes pad order st off) (cur nd) →
  dir (view w) !! path = Some i → files (view w) !! i = Some nd →
  ∃ e w', load_snapshot path w = Some (Error e, w') ∧ view w' = view w ∧
    (reliable w → e = LedgerError.SnapshotCorrupt).
Proof.
  intros Hok Hd Hp Hi.
  destruct (load_snapshot_spec path w i nd Hp Hi) as (r & w' & Hload & Hv & _ & Hans & Hrel).
  assert (parse_snapshot (cur nd) = Error LedgerError.SnapshotCorrupt) as Hc.
  { rewrite <- (app_nil_r (cur nd)). by eapply parse_snapshot_damaged. }
  unfold load_answer in Hans. rewrite Hc in Hans, Hrel.
  destruct Hans as [->|[[->| ->] _]]; do 2 eexists; (split_and!; [done|done|]); try done.
  intros Hw%Hrel. congruence.
Qed.

(** *** The chart of accounts of [src/main.cpp] *)
Module ExampleSnapshot.
Definition pad : list byte := replicate 4 Byte.x00.
Definition order : list (AccountId * Account) :=
  [(2, ExampleLedger.revenue); (1, ExampleLedger.cash)].
End ExampleSnapshot.

Lemma write_snapshot_atomic_witness :
  let w := MemFs.boot [("/d/s", [Byte.x01])] [MemFs.Fine; MemFs.Short 7] in
  ∃ r w' hs, write_snapshot (H := MemFs.posix) ExampleSnapshot.pad ExampleSnapshot.order "/d/s"
      ExampleLedger.state 0 w = Some (r, w') ∧
    MemFs.hist w' = MemFs.hist w ++ hs ∧
    (∀ f f', f ∈ hs → crash f f' →
      contents f' "/d/s" = Some [Byte.x01] ∨
      contents f' "/d/s" = Some (snapshot_bytes ExampleSnapshot.pad ExampleSnapshot.order
        ExampleLedger.state 0)) ∧
    (r = LedgerError.None → contents (MemFs.mfs w') "/d/s" =
      Some (snapshot_bytes ExampleSnapshot.pad ExampleSnapshot.order ExampleLedger.state 0)) ∧
    (r ≠ LedgerError.None → contents (MemFs.mfs w') "/d/s" = Some [Byte.x01]) ∧
    (∀ p j, bystander "/d/s" (MemFs.mfs w) p j → contents (MemFs.mfs w') p = contents (MemFs.mfs w) p).
Proof.
  intros w. apply (write_snapshot_atomic (L := MemFs.posix_laws) ExampleSnapshot.pad
    ExampleSnapshot.order "/d/s" ExampleLedger.state 0 w).
  - reflexivity.
  - by_compute.
  - split; [reflexivity|]. intros i Hi. vm_compute in Hi. injection Hi as <-.
    split; [discriminate|]. exists [Byte.x01]. reflexivity.
Defined.

Lemma snapshot_roundtrip_witness :
  let w := MemFs.boot [] [] in
  ∃ w' w'', write_snapshot (H := MemFs.posix) ExampleSnapshot.pad ExampleSnapshot.order "/d/s"
      ExampleLedger.state 0 w = Some (LedgerError.None, w') ∧
    load_snapshot (H := MemFs.posix) "/d/s" w' = Some (Value (mkLoaded ExampleLedger.state 0), w'').
Proof.
  intros w. apply (snapshot_roundtrip (L := MemFs.posix_laws) ExampleSnapshot.pad
    ExampleSnapshot.order "/d/s" ExampleLedger.state 0 w).
  - by_compute.
  - split; [reflexivity|]. intros i Hi. vm_compute in Hi. discriminate.
  - reflexivity.
  - reflexivity.
Defined.

Lemma load_snapshot_rejects_damage_witness :
  let good := snapshot_bytes ExampleSnapshot.pad ExampleSnapshot.order ExampleLedger.state 0 in
  let bad := take 80 good ++ [Byte.xff; Byte.xfe; Byte.xfd; Byte.xfc] ++ drop 84 good in
  let w := MemFs.boot [("/d/s", bad)] [] in
  ∃ e w', load_snapshot (H := MemFs.posix) "/d/s" w = Some (Error e, w') ∧
    MemFs.mfs w' = MemFs.mfs w ∧ (MemFs.faults w = [] → e = LedgerError.SnapshotCorrupt).
Proof.
  intros good bad w.
  apply (load_snapshot_rejects_damage (L := MemFs.posix_laws) ExampleSnapshot.pad
    ExampleSnapshot.order "/d/s" ExampleLedger.state 0 w 0 (mkInode bad bad)).
  - by_compute.
  - exists (take 80 good), (take 4 (drop 80 good)), [Byte.xff; Byte.xfe; Byte.xfd; Byte.xfc], (drop 84 good).
    split_and!; [reflexivity|reflexivity|reflexivity|by_compute|vm_compute; discriminate|reflexivity].
  - reflexivity.
  - reflexivity.
Defined.
