(* ===== verification/SnapshotAsync.v ===== *)
(** * Snapshots from a detached thread

    [write_snapshot_async] hands a copy of the ledger to a detached thread that calls
    [write_snapshot] while the engine goes on (src/snapshot.cpp 86-92).  Here
    [write_snapshot] is taken apart into its system calls, so that those of other
    threads can come in between.  Next to the engine's calls on the log, one such
    thread is as good as [SnapshotWrite] says; two of them for the same target share
    the temporary name. *)

From stdpp Require Import relations.
From S2P Require Import Prelude Types LedgerState Crc32 WalCodec Posix Snapshot SnapshotWrite.

(** ** Programs, one system call at a time *)

Section Calls.
Context `{Posix}.

Inductive calls :=
  | Done (r : ResultVoid)
  | Undefined
  | Call (f : world → Z * world) (k : Z → calls).

Fixpoint run_calls (t : calls) : M ResultVoid :=
  match t with
  | Done r => mret r
  | Undefined => λ _, None
  | Call f k => r ← call f; run_calls (k r)
  end.

Definition close (d : Z) (w : world) : Z * world := (0, sys_close d w).

(** [write_snapshot] from its end to its beginning. *)
Definition dir_close (d : Z) : calls := Call (close d) (λ _, Done LedgerError.None).
Definition dir_sync (d : Z) : calls := Call (sys_fsync d) (λ _, dir_close d).
Definition dir_open (path : string) : calls :=
  Call (sys_open (parent_dir path) O_RDONLY)
    (λ d, if bool_decide (0 ≤ d) then dir_sync d else Done LedgerError.None).
Definition rename_tmp (path : string) : calls :=
  Call (sys_rename (tmp_path_of path) path)
    (λ r, if bool_decide (r ≠ 0) then Done LedgerError.SnapshotWriteFailed else dir_open path).
Definition close_tmp (path : string) (fd : Z) : calls := Call (close fd) (λ _, rename_tmp path).
Definition abandon_tmp (fd : Z) : calls := Call (close fd) (λ _, Done LedgerError.SnapshotWriteFailed).
Definition sync_tmp (path : string) (fd : Z) : calls :=
  Call (sys_fsync fd) (λ r, if bool_decide (r ≠ 0) then abandon_tmp fd else close_tmp path fd).
Definition write_crc (path : string) (fd : Z) (buffer : list byte) : calls :=
  Call (sys_write fd (le_split 4 (compute buffer)))
    (λ n, if bool_decide (n ≠ 4) then abandon_tmp fd else sync_tmp path fd).
Definition write_body (path : string) (fd : Z) (buffer : list byte) : calls :=
  Call (sys_write fd buffer)
    (λ n, if bool_decide (n ≠ Z.of_nat (length buffer)) then abandon_tmp fd else write_crc path fd buffer).
Definition snapshot_calls (pad : list byte) (order : list (AccountId * Account))
    (path : string) (state : LedgerState) (off : Z) : calls :=
  Call (sys_open (tmp_path_of path) O_CREAT_WRONLY_TRUNC)
    (λ fd, if bool_decide (fd < 0) then Done LedgerError.SnapshotOpenFailed
           else match build_snapshot pad order state off with
                | Some buffer => write_body path fd buffer
                | None => Undefined
                end).

(** What a program that has ended returns. *)
Definition result (t : calls) : option ResultVoid := match t with Done r => Some r | _ => None end.

Lemma result_done t r : result t = Some r → t = Done r.
Proof. destruct t; simpl; congruence. Qed.

(** Threads that run such programs: the one scheduled makes its next call. *)
Fixpoint run_threads (schedule : list nat) (ts : list calls) (w : world) : list calls * world :=
  match schedule with
  | [] => (ts, w)
  | i :: rest =>
      match ts !! i with
      | Some (Call f k) => let '(r, w') := f w in run_threads rest (<[i := k r]> ts) w'
      | _ => run_threads rest ts w
      end
  end.

Lemma reset_close fd new w : 0 ≤ fd → UniqueFd.reset fd new w = Some (new, sys_close fd w).
Proof. intros Hfd. unfold UniqueFd.reset, UniqueFd.valid. by rewrite bool_decide_true. Qed.

Lemma run_calls_call f k w : run_calls (Call f k) w = let '(r, w') := f w in run_calls (k r) w'.
Proof. simpl. msimpl. by destruct (f w). Qed.

Lemma run_dir_open path w :
  run_calls (dir_open path) w = (_ ← fsync_parent_dir path; mret LedgerError.None) w.
Proof.
  unfold dir_open, fsync_parent_dir. rewrite run_calls_call. msimpl. destruct (sys_open _ _ w) as [d w1]. msimpl.
  case_bool_decide; [|done]. unfold dir_sync, dir_close, close. rewrite run_calls_call. msimpl.
  by destruct (sys_fsync d w1).
Qed.

(** Taken one system call at a time, [write_snapshot] is the same program: running
    its calls without anything in between gives, in every environment and on every
    branch, the result and the effects of [write_snapshot]. *)
Theorem snapshot_calls_run pad order path st off w :
  run_calls (snapshot_calls pad order path st off) w = write_snapshot pad order path st off w.
Proof.
  unfold snapshot_calls, write_snapshot. rewrite run_calls_call. msimpl. destruct (sys_open _ _ w) as [fd w1]. msimpl.
  case_bool_decide as Hfd; [done|]. assert (0 ≤ fd) as Hfd' by lia.
  destruct (build_snapshot pad order st off) as [buffer|]; [|done].
  assert (∀ w', run_calls (abandon_tmp fd) w' = Some (LedgerError.SnapshotWriteFailed, sys_close fd w')) as Hab by done.
  unfold write_body. rewrite run_calls_call. msimpl. destruct (sys_write fd buffer w1) as [n w2]. msimpl.
  case_bool_decide; [by rewrite Hab; msimpl; rewrite reset_close|].
  unfold write_crc. rewrite run_calls_call. msimpl. destruct (sys_write fd _ w2) as [n' w3]. msimpl.
  case_bool_decide; [by rewrite Hab; msimpl; rewrite reset_close|].
  unfold sync_tmp. rewrite run_calls_call. msimpl. destruct (sys_fsync fd w3) as [r w4]. msimpl.
  case_bool_decide; [by rewrite Hab; msimpl; rewrite reset_close|].
  unfold close_tmp, rename_tmp, close. rewrite run_calls_call. msimpl. rewrite reset_close by done. msimpl.
  rewrite run_calls_call. msimpl. destruct (sys_rename _ _ _) as [r' w5]. msimpl. case_bool_decide; [done|]. by rewrite run_dir_open.
Qed.
End Calls.

(** ** One snapshot next to the engine *)

Section Concurrent.
Context {P : Posix} {L : PosixLaws P}.

(** The calls the engine makes on its log ([append], [flush]), with the bytes they put
    there. *)
Inductive engine_call (dw : Z) (w : world) : list byte → world → Prop :=
  | e_write bs n w' : sys_write dw bs w = (n, w') → engine_call dw w (take (Z.to_nat n) bs) w'
  | e_fsync r w' : sys_fsync dw w = (r, w') → engine_call dw w [] w'
  | e_fstat r w' : sys_fstat dw w = (r, w') → engine_call dw w [] w'.

(** The calls of the thread and those of the engine in any order; the bytes logged
    meanwhile. *)
Inductive interleaved (dw : Z) : calls * world * list byte → calls * world * list byte → Prop :=
  | i_thread f k w out r w' : f w = (r, w') → interleaved dw (Call f k, w, out) (k r, w', out)
  | i_engine t w out bs w' : engine_call dw w bs w' → interleaved dw (t, w, out) (t, w', out ++ bs).

(** The same, with the order chosen. *)
Inductive turn := ThreadTurn | EngineTurn (bs : list byte).
Fixpoint run_interleaved (dw : Z) (turns : list turn) (c : calls * world * list byte) : calls * world * list byte :=
  match turns, c with
  | [], _ => c
  | ThreadTurn :: rest, (Call f k, w, new) => let '(r, w') := f w in run_interleaved dw rest (k r, w', new)
  | ThreadTurn :: rest, _ => run_interleaved dw rest c
  | EngineTurn bs :: rest, (t, w, new) =>
      let '(n, w') := sys_write dw bs w in run_interleaved dw rest (t, w', new ++ take (Z.to_nat n) bs)
  end.

Lemma run_interleaved_steps dw turns c : rtc (interleaved dw) c (run_interleaved dw turns c).
Proof.
  revert c. induction turns as [|[|bs] rest IH]; intros [[t w] new]; simpl; [done| |].
  - destruct t as [r| |f k]; [apply IH..|]. destruct (f w) as [r w'] eqn:Hf. eapply rtc_l; [by apply i_thread|apply IH].
  - destruct (sys_write dw bs w) as [n w'] eqn:Hw. eapply rtc_l; [apply i_engine; by eapply e_write|apply IH].
Qed.

(** What a call of the engine does to a view. *)
Definition relog (iw dw : Z) (nd : inode) (pos : nat) (f : fs) : fs :=
  set_fd (set_file f iw nd) dw (FdFile iw true true pos).

Lemma relog_id iw dw nd pos f :
  files f !! iw = Some nd → fds f !! dw = Some (FdFile iw true true pos) → relog iw dw nd pos f = f.
Proof. intros Hi Hd. apply fs_eq; simpl; try done; by apply insert_id. Qed.

Lemma engine_view dw iw nd w bs w' :
  open_on (view w) dw true true iw nd → engine_call dw w bs w' →
  ∃ nd' pos, cur nd' = cur nd ++ bs ∧ view w' = relog iw dw nd' pos (view w).
Proof.
  intros Hon Hc. pose proof Hon as (pos & Hd & Hi).
  assert (∀ bs, bs = [] → view w' = view w → ∃ nd' pos, cur nd' = cur nd ++ bs ∧ view w' = relog iw dw nd' pos (view w)) as Hsame.
  { intros bs' -> Hv. exists nd, pos. by rewrite app_nil_r, relog_id. }
  destruct Hc as [bs n w' Hw|r w' Hw|r w' Hw].
  - destruct (write_law _ _ _ _ _ _ _ _ Hw Hd) as (_ & [[Hn Hv]|[Hn Hv]] & _).
    + apply Hsame; [|done]. by rewrite Z2Nat.inj_neg || (replace (Z.to_nat n) with 0%nat by lia).
    + rewrite Hv. unfold write_effect. rewrite Hd, Hi, write_at_end. by eexists (mkInode _ _), _.
  - destruct (fsync_law _ _ _ _ Hw (open_on_live _ _ _ _ _ _ Hon)) as (_ & [[_ Hv]|[_ He]] & _); [by apply Hsame|].
    rewrite (fsync_effect_eq _ _ _ _ _ _ _ Hon He). exists (mkInode (cur nd) (cur nd)), pos.
    rewrite app_nil_r. split; [done|]. apply fs_eq; simpl; try done. by rewrite insert_id.
  - destruct (fstat_law _ _ _ _ _ _ _ _ _ Hw Hd Hi) as (Hv & _). by apply Hsame.
Qed.

Section Target.
Variables (path log : string) (iw dw : Z) (bytes : list byte).
Let tmp := tmp_path_of path.

(** The log: open, under a name of its own, and neither the target nor the temporary
    file. *)
Definition log_apart (f0 : fs) : Prop :=
  log ≠ path ∧ log ≠ tmp ∧ dir f0 !! log = Some iw ∧ dir f0 !! tmp ≠ Some iw ∧ dir f0 !! path ≠ Some iw ∧
  is_Some (files f0 !! iw) ∧ ∃ pos, fds f0 !! dw = Some (FdFile iw true true pos).

Lemma log_bystander f0 : log_apart f0 → bystander path f0 log iw.
Proof. by intros (? & ? & ? & ? & _ & ? & _). Qed.

Lemma log_apart_relog f0 nd pos : log_apart f0 → log_apart (relog iw dw nd pos f0).
Proof.
  intros (H1 & H2 & H3 & H4 & H5 & _). split_and!; try done; simpl; [by rewrite lookup_insert_eq|].
  exists pos. by rewrite lookup_insert_eq.
Qed.

(** Names, and what the target holds, are not the engine's business. *)
Lemma settled_relog f0 nd pos : log_apart f0 → settled path f0 → settled path (relog iw dw nd pos f0).
Proof.
  intros (_ & _ & _ & _ & Hne & _) [Hs Hap]. split; [done|]. intros i Hi. destruct (Hap i Hi) as (Ht & c & Hc).
  split; [done|]. exists c. simpl. rewrite lookup_insert_ne; [done|]. intros ->. by apply Hne.
Qed.
Lemma target_relog f0 nd pos : log_apart f0 → contents (relog iw dw nd pos f0) path = contents f0 path.
Proof.
  intros (_ & _ & _ & _ & Hne & _). unfold contents, file_at. simpl. destruct (dir f0 !! path) as [i|] eqn:Hi; [|done].
  simpl. rewrite lookup_insert_ne; [done|]. intros ->. by apply Hne.
Qed.

Lemma kept_relog f0 f nd pos :
  log_apart f0 → old_kept path f0 f → others_kept path f0 f → durable_kept path f0 f → fds_kept f0 f →
  let f0' := relog iw dw nd pos f0 in let f' := relog iw dw nd pos f in
  old_kept path f0' f' ∧ others_kept path f0' f' ∧ durable_kept path f0' f' ∧ fds_kept f0' f'.
Proof.
  intros Hla Hk Ho Hdk Hfd. split_and!.
  - intros i Hi. simpl. destruct (decide (iw = i)) as [<-|Hne]; [by rewrite !lookup_insert_eq|].
    rewrite !lookup_insert_ne by done. by apply Hk.
  - split; [|apply Ho]. intros p j (H1 & H2 & H3 & H4 & H5). simpl in *. destruct (decide (iw = j)) as [<-|Hne].
    + rewrite !lookup_insert_eq in *. assert (bystander path f0 p iw) as Hby by (split_and!; [done..|apply Hla]).
      destruct (proj1 Ho p iw Hby) as (? & _ & ?). done.
    + rewrite !lookup_insert_ne in * by done. by apply Ho.
  - intros j c [Hj Ht]. simpl in *. destruct (decide (iw = j)) as [<-|Hne]; [by rewrite !lookup_insert_eq in *|].
    rewrite !lookup_insert_ne in * by done. by apply Hdk.
  - intros d o. simpl. destruct (decide (dw = d)) as [<-|Hne]; [by rewrite !lookup_insert_eq|].
    rewrite !lookup_insert_ne by done. apply Hfd.
Qed.

(** Before the rename and after it, the engine's calls change nothing. *)
Lemma before_relog f0 f nd pos :
  log_apart f0 → before path f0 f → before path (relog iw dw nd pos f0) (relog iw dw nd pos f).
Proof.
  intros Hla (Hk & Hd & Hs & Ht & Ho & Hto & Hfd & Hst & Hdk & Hdt).
  destruct (kept_relog f0 f nd pos Hla Hk Ho Hdk Hfd) as (Hk' & Ho' & Hdk' & Hfd'). pose proof (log_bystander f0 Hla) as Hby.
  split_and!; try done; simpl.
  - intros p j (H1 & H2 & H3 & H4 & H5). simpl in *. destruct (decide (iw = j)) as [<-|Hne]; [by apply (Hto log)|].
    rewrite lookup_insert_ne in H5 by done. by apply (Hto p).
  - intros j c [Hj Htj]. simpl in *. destruct (decide (iw = j)) as [<-|Hne]; [by apply (Hto log)|].
    rewrite lookup_insert_ne in Hj by done. by apply (Hdt j c).
Qed.

Definition published (f0 f : fs) : Prop := after path f0 bytes f ∧ dir f !! path ≠ Some iw.

Lemma published_relog f0 f nd pos :
  log_apart f0 → published f0 f → published (relog iw dw nd pos f0) (relog iw dw nd pos f).
Proof.
  intros Hla [(Hk & Ho & Hfd & i & Hd & Hi & Hs & Ht & Hdk & Hdt) Hne].
  destruct (kept_relog f0 f nd pos Hla Hk Ho Hdk Hfd) as (Hk' & Ho' & Hdk' & Hfd'). split; [|done].
  split_and!; try done. exists i. simpl. assert (iw ≠ i) by congruence. rewrite lookup_insert_ne by done.
  split_and!; try done. intros j c [Hj Htj]. simpl in *. destruct (decide (iw = j)) as [<-|Hne']; [done|].
  rewrite lookup_insert_ne in Hj by done. by apply (Hdt j c).
Qed.

Lemma writing_relog f0 f d i nd nd' pos :
  log_apart f0 → writing path f0 f d i nd → writing path (relog iw dw nd' pos f0) (relog iw dw nd' pos f) d i nd.
Proof.
  intros Hla (Hb & Ht & Hi & Hd & Hd0). pose proof (before_relog f0 f nd' pos Hla Hb) as Hb'.
  assert (iw ≠ i) as Hne.
  { intros <-. destruct Hb as (_ & _ & _ & _ & _ & Hto & _). by apply (Hto log iw); [apply log_bystander|]. }
  assert (dw ≠ d) as Hne' by (intros <-; destruct Hla as (_ & _ & _ & _ & _ & _ & p' & Hp'); congruence).
  split_and!; simpl; rewrite ?lookup_insert_ne by done; done.
Qed.

(** The calls of [fsync_parent_dir]. *)
Lemma published_fd f0 f d o : published f0 f → fds f0 !! d = None → published f0 (set_fd f d o).
Proof. intros [(? & ? & Hfd & ?) ?] Hd. split; [|done]. split_and!; try done. by apply fds_kept_insert. Qed.
Lemma published_close f0 w d : published f0 (view w) → fds f0 !! d = None → published f0 (view (sys_close d w)).
Proof.
  intros [(? & ? & Hfd & ?) ?] Hd. destruct (close_law d w) as [-> _]. split; [|done].
  split_and!; try done. by apply fds_kept_delete.
Qed.
Lemma published_open f0 p w d w' :
  published f0 (view w) → sys_open p O_RDONLY w = (d, w') →
  published f0 (view w') ∧ (0 ≤ d → fd_live (view w') d ∧ fds f0 !! d = None).
Proof.
  intros Hp Hop. destruct (open_law _ _ _ _ _ Hop) as [(Hd & -> & _)|(Hd & Hfree & He & _)]; [split; [done|lia]|].
  assert (fds f0 !! d = None) as Hfree0 by (eapply fds_kept_new; [apply Hp|done]).
  unfold fd_live. inversion He as [i nd Hdir Hi| |]; simpl in *; [|done|].
  - rewrite set_file_id by done. split; [by apply published_fd|]. intros _. simpl. by rewrite !lookup_insert_eq.
  - split; [by apply published_fd|]. intros _. by rewrite lookup_insert_eq.
Qed.
Lemma published_fsync f0 w d r w' :
  apart path f0 → published f0 (view w) → fd_live (view w) d → sys_fsync d w = (r, w') → published f0 (view w').
Proof.
  intros Hap Hp Hl Hs. destruct (fsync_law _ _ _ _ Hs Hl) as (_ & [[_ ->]|[_ He]] & _); [done|].
  destruct Hp as [Ha Hne]. split; [by eapply after_fsync|]. by destruct He.
Qed.
End Target.

(** ** Where the thread is *)

Section Thread.
Variables (pad : list byte) (order : list (AccountId * Account)) (path log : string) (st : LedgerState) (off iw dw : Z).
Let body := snapshot_body pad order st off.
Let bytes := snapshot_bytes pad order st off.
Abbreviation apart_log := (log_apart path log iw dw).
Abbreviation out := (published path iw bytes).

(** The thread before each of its calls, and what it relies on there; [f0] is the view
    it started from, with the engine's calls since. *)
Inductive thread_at (f0 f : fs) : calls → Prop :=
  | at_start : before path f0 f → thread_at f0 f (snapshot_calls pad order path st off)
  | at_body d i s : writing path f0 f d i (mkInode [] s) → thread_at f0 f (write_body path d body)
  | at_crc d i s : writing path f0 f d i (mkInode body s) → thread_at f0 f (write_crc path d body)
  | at_sync d i s : writing path f0 f d i (mkInode bytes s) → thread_at f0 f (sync_tmp path d)
  | at_close d i : writing path f0 f d i (mkInode bytes bytes) → thread_at f0 f (close_tmp path d)
  | at_rename i :
      before path f0 f → dir f !! tmp_path_of path = Some i → files f !! i = Some (mkInode bytes bytes) →
      thread_at f0 f (rename_tmp path)
  | at_abandon d : before path f0 f → fds f0 !! d = None → thread_at f0 f (abandon_tmp d)
  | at_failed r : before path f0 f → r ≠ LedgerError.None → thread_at f0 f (Done r)
  | at_dir : out f0 f → thread_at f0 f (dir_open path)
  | at_dir_sync d : out f0 f → fds f0 !! d = None → fd_live f d → thread_at f0 f (dir_sync d)
  | at_dir_close d : out f0 f → fds f0 !! d = None → thread_at f0 f (dir_close d)
  | at_end : out f0 f → thread_at f0 f (Done LedgerError.None).

(** The engine makes a call. *)
Lemma thread_engine f0 f t nd pos :
  apart_log f0 → thread_at f0 f t → thread_at (relog iw dw nd pos f0) (relog iw dw nd pos f) t.
Proof.
  intros Hla Ht. pose proof (before_relog path log iw dw f0 f nd pos Hla) as Hb.
  pose proof (published_relog path log iw dw bytes f0 f nd pos Hla) as Hpu.
  pose proof (λ d i nd', writing_relog path log iw dw f0 f d i nd' nd pos Hla) as Hw.
  assert (∀ d, fds f0 !! d = None → dw ≠ d) as Hdw.
  { intros d Hd <-. destruct Hla as (_ & _ & _ & _ & _ & _ & p' & Hp'). congruence. }
  destruct Ht; try (econstructor; by eauto).
  - eapply at_rename; [by apply Hb|done|]. simpl. rewrite lookup_insert_ne; [done|]. intros <-.
    destruct H as (_ & _ & _ & _ & _ & Hto & _). by apply (Hto log iw); [apply (log_bystander path log iw dw)|].
  - apply at_abandon; [by apply Hb|]. simpl. by rewrite lookup_insert_ne by eauto.
  - apply at_dir_sync; [by apply Hpu|simpl; by rewrite lookup_insert_ne by eauto|]. unfold fd_live in *. simpl.
    rewrite lookup_insert_ne by eauto. destruct (fds f !! d) as [[j ? ? ?|]|]; try done.
    destruct (decide (iw = j)) as [<-|Hne]; [by rewrite lookup_insert_eq|by rewrite lookup_insert_ne].
  - apply at_dir_close; [by apply Hpu|]. simpl. by rewrite lookup_insert_ne by eauto.
Qed.

Hypothesis Hpad : length pad = 4%nat.
Hypothesis Hit : iterates st order.

(** What has been renamed is not the log. *)
Lemma renamed_apart f0 w r w' :
  apart_log f0 → before path f0 (view w) → sys_rename (tmp_path_of path) path w = (r, w') → r = 0 →
  dir (view w') !! path ≠ Some iw.
Proof.
  intros Hla Hb Hr ->. destruct (rename_law _ _ _ _ _ Hr) as (_ & [[? _]|(_ & Hex & ->)] & _); [done|].
  destruct Hb as (_ & _ & _ & _ & _ & Hto & _). pose proof (Hto log iw (log_bystander path log iw dw f0 Hla)) as Hne.
  unfold rename_effect. destruct (dir (view w) !! tmp_path_of path) as [i|] eqn:Hi; [|done].
  simpl. by rewrite lookup_insert_eq.
Qed.

(** The thread makes a call. *)
Lemma thread_step f0 w g k r w' :
  apart path f0 → apart_log f0 → thread_at f0 (view w) (Call g k) → g w = (r, w') → thread_at f0 (view w') (k r).
Proof.
  intros Hap Hla Ht Hg.
  inversion Ht as [Hb|d i s Hw|d i s Hw|d i s Hw|d i Hw|i Hb Htmp Hi|d Hb Hd|?|Ho|d Ho Hd Hl|d Ho Hd|]; subst; simpl in Hg.
  - destruct (write_open path f0 Hap w Hb) as (d & w1 & Hop & _ & _ & Hc). rewrite Hop in Hg. injection Hg as <- <-.
    destruct Hc as [[Hd Hv]|(Hd & i & s & Hw)].
    + rewrite bool_decide_true by done. apply at_failed; [by rewrite Hv|done].
    + rewrite bool_decide_false by lia. rewrite build_snapshot_ok by done. by eapply at_body.
  - destruct (write_write path f0 w d i _ body Hw) as (n & w1 & Hc & _ & Hb & _ & Hn).
    rewrite Hc in Hg. injection Hg as <- <-. case_bool_decide; [|eapply at_crc; by apply Hn].
    apply at_abandon; [done|apply Hw].
  - destruct (write_write path f0 w d i _ (le_split 4 (compute body)) Hw) as (n & w1 & Hc & _ & Hb & _ & Hn).
    rewrite Hc in Hg. injection Hg as <- <-. rewrite length_le_split in Hn. case_bool_decide; [|eapply at_sync; by apply Hn].
    apply at_abandon; [done|apply Hw].
  - destruct (write_fsync path f0 w d i _ Hw) as (n & w1 & Hc & _ & Hb & _ & Hn).
    rewrite Hc in Hg. injection Hg as <- <-. case_bool_decide; [|eapply at_close, Hn; lia].
    apply at_abandon; [done|apply Hw].
  - injection Hg as <- <-. destruct Hw as (Hb & Htmp & Hi & Hd & Hd0). destruct (write_close path f0 w d Hb Hd0) as [_ Hb'].
    destruct (close_law d w) as [Hv _]. eapply at_rename; [done|by rewrite Hv|by rewrite Hv].
  - destruct (write_rename path f0 bytes w i Hb Htmp Hi) as (n & w1 & Hc & _ & _ & Hr).
    rewrite Hc in Hg. injection Hg as <- <-. destruct Hr as [[Hne Hb']|[-> Ha]].
    + rewrite bool_decide_true by done. by apply at_failed.
    + apply at_dir. split; [done|]. by eapply renamed_apart.
  - injection Hg as <- <-. destruct (write_close path f0 w d Hb Hd) as [_ Hb']. by apply at_failed.
  - destruct (published_open path iw bytes f0 _ w r w' Ho Hg) as [Hp Hl].
    case_bool_decide as Hd; [|by apply at_end]. destruct (Hl Hd). by apply at_dir_sync.
  - apply at_dir_close; [|done]. by eapply published_fsync.
  - injection Hg as <- <-. apply at_end. by apply published_close.
Qed.

(** ** Every interleaving *)

(** What holds at any time, [c0] and [l0] being the contents of target and log at the
    start. *)
Definition in_order (c0 : option (list byte)) (l0 : list byte) (c : calls * world * list byte) : Prop :=
  let '(t, w, new) := c in
  ∃ f0, settled path f0 ∧ apart_log f0 ∧ contents f0 path = c0 ∧ contents f0 log = Some (l0 ++ new) ∧
    thread_at f0 (view w) t.

Lemma thread_phase f0 f t : thread_at f0 f t → before path f0 f ∨ after path f0 bytes f.
Proof.
  destruct 1; try (by left); try (left; by match goal with Hw : writing _ _ _ _ _ _ |- _ => apply Hw end);
    right; by match goal with Ho : out _ _ |- _ => apply Ho end.
Qed.

(** The thread leaves the log alone. *)
Lemma thread_log f0 f t : apart_log f0 → thread_at f0 f t →
  contents f log = contents f0 log ∧ ∃ nd, open_on f dw true true iw nd ∧ contents f log = Some (cur nd).
Proof.
  intros Hla Ht%thread_phase. pose proof (log_bystander _ _ _ _ _ Hla) as Hby.
  assert (others_kept path f0 f ∧ fds_kept f0 f) as [Ho Hfd] by (destruct Ht as [H|H]; by split; apply H).
  split; [by eapply others_contents|]. destruct (bystander_file path f0 f log iw Ho Hby) as [nd Hnd]. exists nd.
  destruct (proj1 Ho log iw Hby) as (Hd & _). destruct Hla as (_ & _ & _ & _ & _ & _ & pos & Hpos).
  split; [exists pos; by split; [apply Hfd|]|]. unfold contents, file_at. rewrite Hd. simpl. by rewrite Hnd.
Qed.

Lemma in_order_step c0 l0 c c' : interleaved dw c c' → in_order c0 l0 c → in_order c0 l0 c'.
Proof.
  intros Hs Hin. destruct Hs as [g k w new r w' Hg|t w new bs w' He]; destruct Hin as (f0 & Hset & Hla & Hc & Hl & Ht).
  - exists f0. split_and!; try done. eapply thread_step; [apply Hset|done|done|done].
  - destruct (thread_log f0 _ t Hla Ht) as (Heq & nd & Hon & Hcur).
    destruct (engine_view dw iw nd w bs w' Hon He) as (nd' & pos & Hnd' & Hv).
    exists (relog iw dw nd' pos f0). split_and!.
    + by eapply settled_relog.
    + by apply log_apart_relog.
    + by rewrite (target_relog path log).
    + unfold contents, file_at. destruct Hla as (_ & _ & Hd & _). simpl. rewrite Hd. simpl. rewrite lookup_insert_eq. simpl.
      rewrite Hnd'. rewrite Heq, Hl in Hcur. injection Hcur as <-. by rewrite app_assoc.
    + rewrite Hv. by apply thread_engine.
Qed.

(** C18: A snapshot written by the detached thread is atomic also while the engine keeps
    logging.  However the thread's system calls and the engine's interleave, and whatever
    the environment answers: a crash at any point leaves the target with exactly what it
    held before or with the complete new snapshot; the log holds what it held plus
    exactly the bytes the engine's calls put there; and when the thread is done, the
    target is the new snapshot if the answer was success, and the old one otherwise. *)
Theorem async_snapshot_atomic w l0 t w' new :
  settled path (view w) → apart_log (view w) → contents (view w) log = Some l0 →
  rtc (interleaved dw) (snapshot_calls pad order path st off, w, []) (t, w', new) →
  (∀ f, crash (view w') f → contents f path = contents (view w) path ∨ contents f path = Some bytes) ∧
  contents (view w') log = Some (l0 ++ new) ∧
  (∀ r, t = Done r → contents (view w') path =
     if bool_decide (r = LedgerError.None) then Some bytes else contents (view w) path).
Proof.
  intros Hset Hla Hl Hrun.
  assert (in_order (contents (view w) path) l0 (t, w', new)) as (f0 & Hs0 & Hla0 & Hc0 & Hl0 & Ht).
  { eapply (rtc_ind_l (λ c, in_order _ _ c → in_order _ _ _)); [done| |exact Hrun|].
    - intros c c' Hst _ IH Hin. apply IH. by eapply in_order_step.
    - exists (view w). rewrite app_nil_r. split_and!; try done. apply at_start, before_start, Hset. }
  split_and!.
  - intros f Hcr. rewrite <- Hc0. eapply crash_old_or_new; [apply Hs0|apply Hs0|by eapply thread_phase|done].
  - destruct (thread_log f0 _ t Hla0 Ht) as [-> _]. done.
  - intros r ->. rewrite <- Hc0. inversion Ht as [| | | | | | |? Hb Hne| | | |Ho]; subst.
    + rewrite bool_decide_false by done. destruct Hb as (Hk & Hd & _). unfold contents, file_at. rewrite Hd.
      destruct (dir f0 !! path) as [i|] eqn:Hi; [|done]. simpl. by rewrite (Hk i Hi).
    + destruct Ho as [(_ & _ & _ & i & Hd & Hi & _) _]. unfold contents, file_at. rewrite Hd. simpl. by rewrite Hi.
Qed.
End Thread.
End Concurrent.

(** ** Two at a time *)

#[local] Existing Instance MemFs.posix.
#[local] Existing Instance MemFs.posix_laws.

Module Overlap.
Definition path : string := "snap".
Definition ledger (b : Z) : LedgerState :=
  mkState {[1 := mkAccount 1 Asset b 0; 2 := mkAccount 2 Revenue b 0]} 1.
Definition rows (b : Z) : list (AccountId * Account) :=
  [(1, mkAccount 1 Asset b 0); (2, mkAccount 2 Revenue b 0)].
Definition pad : list byte := replicate 4 Byte.x00.
Definition good : list byte := snapshot_bytes pad (rows 10) (ledger 10) 0.
(** A log and a snapshot that is in place. *)
Definition disk : fs :=
  mkFs {["wal" := 1; "snap" := 2]} {["wal" := 1; "snap" := 2]} {["."]}
    {[1 := mkInode [Byte.x01] []; 2 := mkInode good good]} {[3 := FdFile 1 true true 0]}.
Definition start : MemFs.mem := MemFs.mkMem disk [] [] 0.

Definition snapshot_of (b : Z) : calls := snapshot_calls pad (rows b) path (ledger b) 0.
(** Both open the temporary file; the first writes its body, the second its body and
    checksum, then the first its checksum; both go on to the end. *)
Definition schedule : list nat := [0; 1; 0; 1; 1; 0; 0; 0; 0; 0; 0; 0; 1; 1; 1]%nat.
Definition outcome : list calls * MemFs.mem := run_threads schedule [snapshot_of 20; snapshot_of 30] start.
End Overlap.

(** Two snapshots of the same target at a time can destroy it: they write through
    the same temporary name, and there is a schedule of two threads of
    [write_snapshot_async] in which every call before the last rename succeeds, the
    first thread reports success, the second one's failure goes unnoticed, and the target,
    which held a valid snapshot, holds one that [load_snapshot] rejects as corrupt. *)
Theorem async_overlap_corrupts :
  fst <$> load_snapshot Overlap.path Overlap.start = Some (Value (mkLoaded (Overlap.ledger 10) 0)) ∧
  result <$> Overlap.outcome.1 = [Some LedgerError.None; Some LedgerError.SnapshotWriteFailed] ∧
  fst <$> load_snapshot Overlap.path Overlap.outcome.2 = Some (Error LedgerError.SnapshotCorrupt).
Proof. split; [|split]; vm_compute; reflexivity. Qed.

Module Alone.
Import Overlap.
Definition turns : list turn :=
  [ThreadTurn; EngineTurn [Byte.x02]; ThreadTurn; ThreadTurn; EngineTurn [Byte.x03; Byte.x04]] ++ replicate 6 ThreadTurn.
Definition finish : calls * MemFs.mem * list byte := run_interleaved 3 turns (snapshot_of 20, start, []).
End Alone.

Lemma async_snapshot_atomic_witness :
  result Alone.finish.1.1 = Some LedgerError.None ∧
  contents (MemFs.mfs Alone.finish.1.2) "wal" = Some ([Byte.x01] ++ Alone.finish.2) ∧
  contents (MemFs.mfs Alone.finish.1.2) "snap" = Some (snapshot_bytes Overlap.pad (Overlap.rows 20) (Overlap.ledger 20) 0).
Proof.
  assert (result Alone.finish.1.1 = Some LedgerError.None) as Hr by (vm_compute; reflexivity).
  destruct (async_snapshot_atomic (L := MemFs.posix_laws) Overlap.pad (Overlap.rows 20) "snap" "wal" (Overlap.ledger 20) 0 1 3)
    with (w := Overlap.start) (l0 := [Byte.x01]) (t := Alone.finish.1.1) (w' := Alone.finish.1.2) (new := Alone.finish.2)
    as (_ & Hlog & Hend).
  - reflexivity.
  - by_compute.
  - split; [reflexivity|]. intros i Hi. vm_compute in Hi. injection Hi as <-. split; [by vm_compute|].
    exists Overlap.good. vm_compute. reflexivity.
  - repeat split; try (by vm_compute); eexists; vm_compute; reflexivity.
  - vm_compute. reflexivity.
  - rewrite <- !surjective_pairing. apply run_interleaved_steps.
  - split; [exact Hr|]. split; [exact Hlog|]. apply (Hend LedgerError.None). by apply result_done.
Defined.
