(* ===== verification/Recovery.v ===== *)
(** * Crash recovery

    [include/ledger/recovery.hpp] and [src/recovery.cpp]: load the last snapshot,
    replay the log from its offset up to the first record that is not complete
    and correct, cut the log there, and check the books.  [parse_log] reads a
    whole log as a function of its bytes, [replay_txs] is the replay as a fold;
    [recover] is proved to compute them. *)

From S2P Require Import Prelude Types Validation LedgerState Crc32 WalCodec Posix WalWriter.
From S2P Require Import WalReader Snapshot SnapshotWrite.

(** ** The code *)

Record RecoveredState := mkRecovered { rec_state : LedgerState; wal_valid_length : Z }.

(** One iteration's effect on the state when a record was read; the result of
    [apply] is dropped. *)
Definition replay_one (st : LedgerState) (tx : Transaction) : option LedgerState :=
  if bool_decide (id tx > last_applied_id st) then
    '(st', _) ← apply st tx; Some st'
  else Some st.

Section Code.
Context `{Posix}.

(** The loop of [recover] up to the first outcome that is not [Ok]; [None] when
    [fuel] iterations were not enough. *)
Fixpoint replay (fuel : nat) (reader : BinaryWalReader) (st : LedgerState) :
    M (option (ReadOutcome.t * BinaryWalReader * LedgerState)) :=
  match fuel with
  | O => mret None
  | S fuel =>
      '(read, reader) ← read_next reader;
      if bool_decide (outcome read = ReadOutcome.Ok) then
        st ← lift (replay_one st (transaction read));
        replay fuel reader st
      else mret (Some (outcome read, reader, st))
  end.

(** [recover].  [visit] is the order in which the hash table of the recovered
    state is iterated; the reader's destructor closes its descriptor. *)
Definition recover (fuel : nat) (visit : LedgerState → list (AccountId * Account))
    (wal_path snapshot_path : string) : M (option (Result RecoveredState)) :=
  loaded ← load_snapshot snapshot_path;
  if (match loaded with
      | Value _ => false
      | Error e => bool_decide (e = LedgerError.SnapshotCorrupt)
      end)
  then mret (Some (Error LedgerError.SnapshotCorrupt))
  else
    let '(state, replay_from_offset) :=
      match loaded with
      | Value l => (loaded_state l, wal_offset l)
      | Error _ => (empty_state, 0)
      end in
    '(opened, reader) ← reader_open wal_path new_reader;
    if negb (has_value opened) then
      if bool_decide (replay_from_offset ≠ 0) then mret (Some (Error LedgerError.WalOpenFailed))
      else
        trial ← lift (validate_trial_balance (visit state));
        if negb (has_value trial) then mret (Some (Error trial))
        else mret (Some (Value (mkRecovered state 0)))
    else
      let reader := seek replay_from_offset reader in
      replayed ← replay fuel reader state;
      match replayed with
      | None => mret None
      | Some (o, reader, state) =>
          let finish r := _ ← UniqueFd.reset (rd_fd reader) (-1); mret (Some r) in
          let valid_length := last_valid_offset reader in
          truncated ← (if bool_decide (o = ReadOutcome.EndOfLog) then mret LedgerError.None
                       else truncate_wal wal_path valid_length);
          if negb (has_value truncated) then finish (Error truncated)
          else
            trial ← lift (validate_trial_balance (visit state));
            if negb (has_value trial) then finish (Error trial)
            else finish (Value (mkRecovered state valid_length))
      end.
End Code.

(** ** The log as a function of its bytes *)

(** The records up to the first that is not complete and correct, each with its
    size, and what stopped the reader. *)
Fixpoint parse_log (fuel : nat) (rest : list byte) : option (list (Transaction * nat) * parsed) :=
  match fuel with
  | O => None
  | S fuel =>
      match parse_next rest with
      | POk tx n => '(recs, e) ← parse_log fuel (drop n rest); Some ((tx, n) :: recs, e)
      | e => Some ([], e)
      end
  end.

Definition recs_size (recs : list (Transaction * nat)) : nat := foldr (λ r s, r.2 + s)%nat 0%nat recs.

(** The replay as a fold. *)
Definition replay_txs (st : LedgerState) (txs : list Transaction) : option LedgerState :=
  foldl (λ acc tx, acc ≫= λ st, replay_one st tx) (Some st) txs.

Lemma parse_next_bound rest tx n : parse_next rest = POk tx n → (32 ≤ n ≤ length rest)%nat.
Proof.
  unfold parse_next. change kHeaderSize with 28%nat. change kCrcSize with 4%nat. cbv zeta.
  set (psz := Z.to_nat _). case_bool_decide; [done|]. case_bool_decide; [done|].
  case_bool_decide; [|done]. case_bool_decide; [done|]. case_bool_decide; [|done].
  destruct (decode_transaction_payload _ _ _) as [[]|]; intros [= _ <-]; lia.
Qed.

(** Each record has at least 32 bytes, so the length of the log is fuel enough. *)
Lemma parse_log_total fuel rest :
  (length rest < fuel)%nat → ∃ recs e, parse_log fuel rest = Some (recs, e) ∧
    (recs_size recs ≤ length rest)%nat ∧ ∀ tx n, e ≠ POk tx n.
Proof.
  revert rest. induction fuel as [|fuel IH]; intros rest Hf; [lia|]. cbn [parse_log].
  destruct (parse_next rest) as [tx n| | |] eqn:Hp; try by (eexists [], _; split_and!; [done|simpl; lia|]).
  apply parse_next_bound in Hp. destruct (IH (drop n rest)) as (recs & e & -> & Hs & He); [len|].
  ubind. do 2 eexists. split_and!; [done| |done]. cbn [recs_size foldr snd]. fold (recs_size recs). len.
Qed.

Lemma replay_txs_cons st tx txs :
  replay_txs st (tx :: txs) = replay_one st tx ≫= λ st, replay_txs st txs.
Proof.
  unfold replay_txs. simpl. destruct (replay_one st tx) as [st'|]; [done|]. simpl.
  by induction txs.
Qed.

(** ** The replay loop computes them *)

Section ReplaySpec.
Context {P : Posix} {L : PosixLaws P}.

(** In every environment the loop ends, having replayed some number [k] of the
    log's records; it stops early only by taking a failed read for a truncated
    record, and not at all when the environment is reliable. *)
Lemma replay_spec fuel rd st w i nd recs e st_all :
  0 ≤ rd_fd rd → open_on (view w) (rd_fd rd) false false i nd →
  0 ≤ cursor_ rd → Z.of_nat (length (cur nd)) + 2048 ≤ INT64_MAX →
  cursor_ rd ≤ Z.of_nat (length (cur nd)) → last_valid_offset_ rd = cursor_ rd →
  parse_log fuel (drop (Z.to_nat (cursor_ rd)) (cur nd)) = Some (recs, e) →
  replay_txs st recs.*1 = Some st_all →
  ∃ k o st' w', (k ≤ length recs)%nat ∧ replay_txs st (take k recs).*1 = Some st' ∧
    (let pos := cursor_ rd + Z.of_nat (recs_size (take k recs)) in
     replay fuel rd st w = Some (Some (o, mkReader (rd_fd rd) pos pos, st'), w')) ∧
    view w' = view w ∧
    (k = length recs ∧ o = parsed_outcome e ∨ o = ReadOutcome.Truncated) ∧
    (reliable w → reliable w' ∧ k = length recs ∧ o = parsed_outcome e).
Proof.
  revert rd st w recs. induction fuel as [|fuel IH]; intros rd st w recs Hfd Hon Hc Hlen Hcl Hlv Hpl Hall;
    [done|]. cbn [parse_log replay] in *. msimpl.
  destruct (read_next_spec rd w _ _ i nd Hfd Hon Hc) as (res & rd' & w1 & -> & Hv1 & Hr1 & Hor & Hrel);
    [lia|]. msimpl. set (rest := drop (Z.to_nat (cursor_ rd)) (cur nd)) in *.
  assert (rd = mkReader (rd_fd rd) (cursor_ rd + Z.of_nat 0) (cursor_ rd + Z.of_nat 0)) as Hrd0.
  { destruct rd; simpl in *. by rewrite Hlv, Z.add_0_r. }
  destruct (decide (outcome res = ReadOutcome.Ok)) as [Hok|Hnok].
  - destruct Hor as [[Ho Hm]|[? _]]; [|congruence]. rewrite Hok in Ho.
    destruct (parse_next rest) as [tx n| | |] eqn:Hp; [|done..]. destruct Hm as [-> ->].
    apply parse_next_bound in Hp. unfold rest in Hp. rewrite length_drop in Hp.
    destruct (parse_log fuel (drop n rest)) as [[recs' e']|] eqn:Hpl'; [|done].
    ubind in Hpl. simplify_eq. cbn [fmap list_fmap fst] in Hall.
    rewrite replay_txs_cons in Hall.
    destruct (replay_one st tx) as [st1|] eqn:H1; [|done]. ubind in Hall.
    rewrite bool_decide_true by done. msimpl. rewrite ?H1. msimpl.
    destruct (IH (mkReader (rd_fd rd) (cursor_ rd + Z.of_nat n) (cursor_ rd + Z.of_nat n)) st1 w1 recs')
      as (k & o & st' & w' & Hk & Hst' & Hrun & Hv' & Ho' & Hr'); cbn [rd_fd cursor_ last_valid_offset_];
      try done; try lia; [by rewrite Hv1| |].
    { unfold rest in Hpl'. rewrite drop_drop in Hpl'. rewrite <- Hpl'. do 2 f_equal. lia. }
    exists (S k), o, st', w'. split_and!; [simpl; lia| | |congruence| |].
    + cbn [take fmap list_fmap fst]. rewrite replay_txs_cons, H1. done.
    + cbv zeta in *. cbn [rd_fd cursor_] in Hrun. rewrite Hrun.
      cbn [take recs_size foldr snd]. fold (recs_size (take k recs')).
      by rewrite Nat2Z.inj_add, Z.add_assoc.
    + destruct Ho' as [[-> ->]|]; [by left|by right].
    + intros Hw. destruct (Hr' (Hr1 Hw)) as (? & -> & ->). done.
  - rewrite bool_decide_false by done. msimpl.
    assert (rd' = rd) as ->.
    { destruct Hor as [[Ho Hm]|[_ ?]]; [|done]. by destruct (parse_next rest). }
    exists 0%nat, (outcome res), st, w1. split_and!; 
      [lia|done|change (recs_size (take 0 recs)) with 0%nat; by rewrite <- Hrd0|done| |].
    + destruct Hor as [[Ho Hm]|[? _]]; [left|by right].
      destruct (parse_next rest) eqn:Hp; simplify_eq; [by rewrite Ho in Hnok|done..].
    + intros Hw. destruct (Hrel Hw) as [Ho _]. split; [auto|].
      destruct (parse_next rest) eqn:Hp; simplify_eq; [by rewrite Ho in Hnok|done..].
Qed.
End ReplaySpec.

(** ** Logs written by the writer *)

Definition entry_ok (e : Transaction * Z) : Prop := tx_ok e.1 ∧ s64_ok e.2.
Definition entry_bytes (e : Transaction * Z) : list byte := record_bytes e.1 e.2.
(** The log that holds the given transactions with their record timestamps. *)
Definition log_bytes (l : list (Transaction * Z)) : list byte := concat (entry_bytes <$> l).

#[export] Instance entry_ok_dec e : Decision (entry_ok e).
Proof. unfold entry_ok. apply _. Defined.

Lemma length_log_bytes_le l : (length l ≤ length (log_bytes l))%nat.
Proof.
  induction l as [|e l IH]; [done|]. unfold log_bytes in *. cbn [fmap list_fmap concat length].
  rewrite length_app. unfold entry_bytes at 1. rewrite length_record_bytes. lia.
Qed.

Lemma log_bytes_bound l : Forall entry_ok l → (length (log_bytes l) ≤ 321 * length l)%nat.
Proof.
  induction 1 as [|en l [(_ & _ & _ & Hwf & _) _] Hl IH]; [done|].
  change (log_bytes (en :: l)) with (entry_bytes en ++ log_bytes l). rewrite length_app. cbn [length].
  unfold entry_bytes. rewrite length_record_bytes. apply LegList.span_length in Hwf.
  unfold tx_legs, kMaxLegsPerTransaction in *. lia.
Qed.

Lemma log_bytes_app l1 l2 : log_bytes (l1 ++ l2) = log_bytes l1 ++ log_bytes l2.
Proof. unfold log_bytes. by rewrite fmap_app, concat_app. Qed.

(** Reading such a log, followed by bytes that do not start with a record, gives
    the transactions back. *)
Lemma parse_log_records l tail e fuel :
  Forall entry_ok l → parse_next tail = e → (∀ tx n, e ≠ POk tx n) → (length l < fuel)%nat →
  ∃ recs, parse_log fuel (log_bytes l ++ tail) = Some (recs, e) ∧
    Forall2 (λ en r, same_tx en.1 en.2 r.1 ∧ r.2 = length (entry_bytes en)) l recs ∧
    recs_size recs = length (log_bytes l).
Proof.
  intros Hok He Hno. revert fuel. induction Hok as [|[tx ts] l [Htx Hts] Hok IH]; intros fuel Hf;
    (destruct fuel as [|fuel]; [simpl in Hf; lia|]); cbn [parse_log].
  { exists []. unfold log_bytes. simpl. rewrite He. split_and!; [|done..].
    destruct e; [by edestruct Hno|done..]. }
  unfold log_bytes in *. cbn [fmap list_fmap concat].
  change (entry_bytes (tx, ts)) with (record_bytes tx ts). rewrite <- app_assoc.
  destruct (parse_next_record tx ts (concat (entry_bytes <$> l) ++ tail) Htx Hts) as (tx' & -> & Hs).
  rewrite drop_app_length. destruct (IH fuel) as (recs & -> & Hall & Hsz); [simpl in Hf; lia|].
  ubind. exists ((tx', length (record_bytes tx ts)) :: recs). split_and!; [done| |].
  - constructor; done.
  - cbn [recs_size foldr snd]. fold (recs_size recs). rewrite Hsz, length_app. done.
Qed.

(** What replaying depends on. *)
Lemma replay_one_same st tx ts tx' : same_tx tx ts tx' → replay_one st tx' = replay_one st tx.
Proof.
  intros (Hid & _ & _ & _ & Hl). unfold replay_one, apply. fold (tx_legs tx') (tx_legs tx).
  by rewrite Hid, Hl.
Qed.

Lemma replay_txs_same st (l : list (Transaction * Z)) (recs : list (Transaction * nat)) :
  Forall2 (λ en r, same_tx en.1 en.2 r.1 ∧ r.2 = length (entry_bytes en)) l recs →
  replay_txs st recs.*1 = replay_txs st l.*1.
Proof.
  intros Hall. revert st. induction Hall as [|[tx ts] [tx' n] l recs [Hs _] _ IH]; intros st; [done|].
  cbn [fmap list_fmap fst]. rewrite !replay_txs_cons. cbn [fst snd] in Hs.
  rewrite (replay_one_same st _ _ _ Hs). destruct (replay_one st tx); [apply IH|done].
Qed.

(** ** Recovery without failures of the environment *)

(** What the snapshot name provides: nothing yet, or a complete snapshot. *)
Definition snapshot_says (f : fs) (path : string) (st : LedgerState) (off : Z) : Prop :=
  (dir f !! path = None ∧ (path ∉ dirs f) ∧ st = empty_state ∧ off = 0) ∨
  ∃ i nd, dir f !! path = Some i ∧ files f !! i = Some nd ∧
    parse_snapshot (cur nd) = Value (mkLoaded st off).

Section RecoverSpec.
Context {P : Posix} {L : PosixLaws P}.

Lemma load_says w path st off :
  reliable w → snapshot_says (view w) path st off →
  ∃ loaded w', load_snapshot path w = Some (loaded, w') ∧ view w' = view w ∧ reliable w' ∧
    match loaded with
    | Value _ => false
    | Error e => bool_decide (e = LedgerError.SnapshotCorrupt)
    end = false ∧
    match loaded with Value l => (loaded_state l, wal_offset l) | Error _ => (empty_state, 0) end
      = (st, off).
Proof.
  intros Hrel [(Hp & Hd & -> & ->)|(i & nd & Hp & Hi & Hparse)].
  - unfold load_snapshot. msimpl.
    destruct (open_missing path O_RDONLY w Hp Hd eq_refl) as (d & w' & -> & Hneg & Hv & Hr). msimpl.
    rewrite bool_decide_true by done. msimpl. do 2 eexists. by split_and!; [done|done|auto|..].
  - destruct (load_snapshot_spec path w i nd Hp Hi) as (r & w' & Hrun & Hv & Hr & _ & Heq).
    exists r, w'. rewrite Heq, Hparse by done. split_and!; [by rewrite Hrun, Heq, Hparse|done|auto|done..].
Qed.

(** The end of [recover], after the replay loop. *)
Lemma recover_finish w f d i nd wal o pos st r visit o' :
  reliable w → 0 ≤ d → fds f !! d = None → view w = set_fd f d o' →
  dir f !! wal = Some i → files f !! i = Some nd →
  0 ≤ pos ≤ Z.of_nat (length (cur nd)) → Z.of_nat (length (cur nd)) ≤ INT64_MAX →
  validate_trial_balance (visit st) = Some r →
  ∃ w', (let reader := mkReader d pos pos in
         let finish x := _ ← UniqueFd.reset (rd_fd reader) (-1); mret (Some x) in
         truncated ← (if bool_decide (o = ReadOutcome.EndOfLog) then mret LedgerError.None
                      else truncate_wal wal (last_valid_offset reader));
         if negb (has_value truncated) then finish (Error truncated)
         else
           trial ← lift (validate_trial_balance (visit st));
           if negb (has_value trial) then finish (Error trial)
           else finish (Value (mkRecovered st (last_valid_offset reader)))
         : M (option (Result RecoveredState))) w
    = Some (Some (if has_value r then Value (mkRecovered st pos) else Error r), w') ∧
    reliable w' ∧
    view w' = if bool_decide (o = ReadOutcome.EndOfLog) then f
              else let c := take (Z.to_nat pos) (cur nd) in set_file f i (mkInode c c).
Proof.
  intros Hrel Hd Hfd Hv Hp Hi Hpos Hlen Htrial. cbn [rd_fd last_valid_offset last_valid_offset_].
  unfold last_valid_offset. cbn [last_valid_offset_]. msimpl.
  unfold UniqueFd.reset, UniqueFd.valid. rewrite (bool_decide_true (0 ≤ d)) by done.
  rewrite Htrial. case_bool_decide as Ho; msimpl.
  - change (has_value LedgerError.None) with true. msimpl.
    destruct (has_value r); msimpl; (eexists; split_and!; [done|by apply reliable_close|]);
      (destruct (close_law d w) as [-> _]; rewrite Hv; by apply del_fd_set_fd).
  - destruct (truncate_wal_spec wal pos w i nd) as (t & w1 & nd' & -> & Ht & Hv1 & Hr1);
      [by rewrite Hv|by rewrite Hv|lia|]. destruct (Hr1 Hrel) as [Hrel1 ->].
    msimpl. change (has_value LedgerError.None) with true. msimpl. cbn [truncated] in Ht.
    unfold resize in Ht. replace (Z.to_nat pos - length (cur nd))%nat with 0%nat in Ht by lia.
    cbn [replicate] in Ht. rewrite app_nil_r in Ht. injection Ht as <-.
    destruct (has_value r); msimpl; (eexists; split_and!; [done|by apply reliable_close|]);
      (destruct (close_law d w1) as [-> _]; rewrite Hv1, Hv, set_file_set_fd; by apply del_fd_set_fd).
Qed.

Lemma recover_log_spec fuel visit wal sp w st0 off i nd recs e st' r :
  reliable w → snapshot_says (view w) sp st0 off →
  dir (view w) !! wal = Some i → files (view w) !! i = Some nd →
  0 ≤ off ≤ Z.of_nat (length (cur nd)) → Z.of_nat (length (cur nd)) + 2048 ≤ INT64_MAX →
  parse_log fuel (drop (Z.to_nat off) (cur nd)) = Some (recs, e) →
  off + Z.of_nat (recs_size recs) ≤ Z.of_nat (length (cur nd)) →
  replay_txs st0 recs.*1 = Some st' → validate_trial_balance (visit st') = Some r →
  let pos := off + Z.of_nat (recs_size recs) in
  ∃ w', recover fuel visit wal sp w =
      Some (Some (if has_value r then Value (mkRecovered st' pos) else Error r), w') ∧
    reliable w' ∧
    view w' = if bool_decide (parsed_outcome e = ReadOutcome.EndOfLog) then view w
              else let c := take (Z.to_nat pos) (cur nd) in set_file (view w) i (mkInode c c).
Proof.
  intros Hrel Hsays Hp Hi Hoff Hlen Hpl Hsz Hreplay Htrial pos. unfold recover. msimpl.
  destruct (load_says w sp st0 off Hrel Hsays) as (loaded & w1 & -> & Hv1 & Hrel1 & Hc & Hst).
  rewrite Hc, Hst. msimpl. destruct (reader_open_spec wal new_reader w1 i nd) as (ro & rd & w2 & -> & Hro & Hopen);
    [done|by rewrite Hv1..|]. destruct (Hro Hrel1) as [Hrel2 ->]. msimpl.
  destruct Hopen as [[? _]|(_ & Hfd & Hrd & Hfree & Hv2)]; [done|]. rewrite Hv1 in Hfree, Hv2.
  change (has_value LedgerError.None) with true. msimpl.
  destruct (replay_spec fuel (seek off rd) st0 w2 i nd recs e st')
    as (k & o & st1 & w3 & _ & Hst1 & Hrun & Hv3 & _ & Hr3); try done; simpl; try lia.
  { rewrite Hv2. by apply open_on_set_fd. }
  destruct (Hr3 Hrel2) as (Hrel3 & -> & ->). rewrite take_ge in Hst1, Hrun by lia.
  assert (st1 = st') as -> by congruence. cbv zeta in Hrun. cbn [seek rd_fd cursor_] in Hrun. fold pos in Hrun.
  rewrite Hrun. msimpl.
  destruct (recover_finish w3 (view w) (rd_fd rd) i nd wal (parsed_outcome e) pos st' r visit
    (FdFile i false false 0)) as (w4 & Hfin & Hrel4 & Hv4); try done; try lia; [by rewrite Hv3|].
  exists w4. split_and!; [|done|done]. rewrite <- Hfin. by msimpl.
Qed.

(** A torn tail: any proper prefix of a record, possibly empty. *)
Definition torn_tail (torn : list byte) : Prop :=
  ∃ tx ts k, tx_ok tx ∧ s64_ok ts ∧ (k < length (record_bytes tx ts))%nat ∧
    torn = take k (record_bytes tx ts).

Lemma parse_next_end tail : parse_next tail = PEndOfLog ↔ tail = [].
Proof.
  split; [|by intros ->]. unfold parse_next. case_bool_decide; [done|].
  repeat (case_bool_decide; try done). by destruct (decode_transaction_payload _ _ _) as [[]|].
Qed.

Lemma torn_tail_refused torn : torn_tail torn → refused torn.
Proof.
  intros (tx' & ts & k & Htx & Hts & Hk & ->). unfold refused. rewrite parse_next_torn by done. by case_decide.
Qed.

(** Recovery of a log whose records [l] are followed by bytes that do not start
    with a correct record. *)
Lemma recover_records visit wal sp w st0 off i nd pre l tail st' fuel :
  reliable w → snapshot_says (view w) sp st0 off →
  dir (view w) !! wal = Some i → files (view w) !! i = Some nd →
  cur nd = pre ++ log_bytes l ++ tail → off = Z.of_nat (length pre) →
  Forall entry_ok l → refused tail →
  Z.of_nat (length (cur nd)) + 2048 ≤ INT64_MAX → (length l < fuel)%nat →
  replay_txs st0 l.*1 = Some st' → validate_trial_balance (visit st') = Some LedgerError.None →
  ∃ w' nd', recover fuel visit wal sp w =
      Some (Some (Value (mkRecovered st' (Z.of_nat (length (pre ++ log_bytes l))))), w') ∧
    reliable w' ∧ view w' = set_file (view w) i nd' ∧ cur nd' = pre ++ log_bytes l ∧
    (tail ≠ [] → stable nd' = cur nd') ∧ (tail = [] → nd' = nd).
Proof.
  intros Hrel Hsays Hp Hi Hcur -> Hok Href Hlen Hfuel Hreplay Htrial.
  pose proof (proj1 (refused_not_ok tail) Href) as Hno.
  destruct (parse_log_records l tail _ fuel Hok eq_refl Hno Hfuel) as (recs & Hpl & Hsame & Hsz).
  rewrite <- (replay_txs_same _ _ _ Hsame) in Hreplay.
  assert (length (cur nd) = length pre + length (log_bytes l) + length tail)%nat as Hl
    by (rewrite Hcur, !length_app; lia).
  destruct (recover_log_spec fuel visit wal sp w st0 (Z.of_nat (length pre)) i nd recs
    (parse_next tail) st' LedgerError.None Hrel Hsays Hp Hi) as (w' & Hrun & Hrel' & Hv');
    [lia|lia|by rewrite Nat2Z.id, Hcur, drop_app_length|lia|done|done|].
  change (has_value LedgerError.None) with true in Hrun. cbv iota in Hrun.
  rewrite Hsz, <- Nat2Z.inj_add in Hrun, Hv'. rewrite Nat2Z.id in Hv'. rewrite <- length_app in Hrun, Hv'.
  assert (take (length (pre ++ log_bytes l)) (cur nd) = pre ++ log_bytes l) as Htake
    by (rewrite Hcur, app_assoc; apply take_app_length).
  rewrite Htake in Hv'. case_bool_decide as Ho.
  - assert (tail = []) as ->.
    { apply parse_next_end. destruct (parse_next tail); [by edestruct Hno|done..]. }
    exists w', nd. split_and!; [done|done|by rewrite set_file_id| |done|done].
    by rewrite Hcur, app_nil_r.
  - assert (tail ≠ []) as Hne by (intros ->; by apply Ho).
    cbv zeta in Hv'. eexists w', _. split_and!; [done|done|exact Hv'|done|done|done].
Qed.

(** C8: Recovery restores the ledger, when the calls it makes do not fail.  The snapshot
    is absent or complete, and its offset is not behind the end of the log.  The log
    consists of the bytes the snapshot covers, the records of the transactions [l], and a
    tail that does not begin with a correct record: nothing, a record cut short or
    damaged, or any other bytes its checks refuse.  If replaying [l] on the snapshot's
    state overflows nowhere and gives [st'], and the books of [st'] balance, then
    [recover] returns [st'] with the length of the complete records; the log's file is
    cut back, durably, to exactly those records and nothing else on disk changes; and
    recovering once more gives the same answer and changes nothing. *)
Theorem recover_restores visit wal sp w st0 off i nd pre l tail st' fuel :
  reliable w → snapshot_says (view w) sp st0 off → dir (view w) !! sp ≠ Some i →
  dir (view w) !! wal = Some i → files (view w) !! i = Some nd →
  cur nd = pre ++ log_bytes l ++ tail → off = Z.of_nat (length pre) →
  Forall entry_ok l → refused tail →
  Z.of_nat (length (cur nd)) + 2048 ≤ INT64_MAX → (length l < fuel)%nat →
  replay_txs st0 l.*1 = Some st' → validate_trial_balance (visit st') = Some LedgerError.None →
  let answer := Some (Value (mkRecovered st' (Z.of_nat (length (pre ++ log_bytes l))))) in
  ∃ w' w'' nd', recover fuel visit wal sp w = Some (answer, w') ∧
    view w' = set_file (view w) i nd' ∧ cur nd' = pre ++ log_bytes l ∧
    (tail ≠ [] → stable nd' = cur nd') ∧
    recover fuel visit wal sp w' = Some (answer, w'') ∧ view w'' = view w'.
Proof.
  intros Hrel Hsays Hsp Hp Hi Hcur Hoff Hok Htail Hlen Hfuel Hreplay Htrial answer.
  destruct (recover_records visit wal sp w st0 off i nd pre l tail st' fuel)
    as (w' & nd' & Hrun & Hrel' & Hv' & Hcur' & Hst & _);
    try done.
  destruct (recover_records visit wal sp w' st0 off i nd' pre l [] st' fuel)
    as (w'' & nd'' & Hrun' & _ & Hv'' & _ & _ & Hnd); rewrite ?Hv'; try done.
  - destruct Hsays as [Hmiss|(j & ndj & Hj & Hfj & Hps)]; [by left|right].
    exists j, ndj. split_and!; [done| |done]. simpl. rewrite lookup_insert_ne; [done|]. congruence.
  - simpl. by rewrite lookup_insert_eq.
  - by rewrite Hcur', app_nil_r.
  - rewrite Hcur', length_app. rewrite Hcur, !length_app in Hlen. lia.
  - exists w', w'', nd'. split_and!; [done..|]. rewrite Hv'', Hnd, Hv' by done. apply set_file_set_file.
Qed.

(** C35: A damaged record ends the replay.  The log has, behind the records [l], one that is
    altered in a window of at most four bytes, in its header (its size field apart), its
    payload or its checksum, and more behind it.  If the calls do not fail, and replaying
    [l] on the snapshot's state gives a balanced state, that state is recovered, and the
    damaged record is cut off the log, durably, together with everything behind it,
    however much that is. *)
Theorem recover_stops_at_damage visit wal sp w st0 off i nd pre l tx ts bad rest st' fuel :
  reliable w → snapshot_says (view w) sp st0 off →
  dir (view w) !! wal = Some i → files (view w) !! i = Some nd →
  cur nd = pre ++ log_bytes l ++ bad ++ rest →
  off = Z.of_nat (length pre) → Forall entry_ok l →
  tx_ok tx → s64_ok ts → damaged (record_bytes tx ts) bad →
  Z.of_nat (length (cur nd)) + 2048 ≤ INT64_MAX → (length l < fuel)%nat →
  replay_txs st0 l.*1 = Some st' → validate_trial_balance (visit st') = Some LedgerError.None →
  ∃ w' nd', recover fuel visit wal sp w =
      Some (Some (Value (mkRecovered st' (Z.of_nat (length (pre ++ log_bytes l))))), w') ∧
    view w' = set_file (view w) i nd' ∧ cur nd' = pre ++ log_bytes l ∧ stable nd' = cur nd'.
Proof.
  intros Hrel Hsays Hp Hi Hcur Hoff Hok Htx Hts Hd Hlen Hfuel Hreplay Htrial.
  pose proof (parse_next_damaged tx ts bad rest Htx Hts Hd) as Hcorrupt.
  destruct (recover_records visit wal sp w st0 off i nd pre l _ st' fuel Hrel Hsays Hp Hi Hcur Hoff Hok)
    as (w' & nd' & Hrun & _ & Hv' & Hcur' & Hst & _); [unfold refused; by rewrite Hcorrupt|done..|].
  exists w', nd'. split_and!; [done..|]. apply Hst. intros Hnil. by rewrite Hnil in Hcorrupt.
Qed.

(** The cases in which there is no log to replay.  A snapshot that is present
    but does not check out stops recovery with [SnapshotCorrupt]; a missing log
    is an error exactly when the snapshot refers into it, and otherwise the
    snapshot's state is the answer if its books balance.  None of these touches
    the disk. *)
Theorem recover_without_log visit wal sp w fuel :
  reliable w → dir (view w) !! wal = None → (wal ∉ dirs (view w)) →
  (∀ i nd, dir (view w) !! sp = Some i → files (view w) !! i = Some nd →
     parse_snapshot (cur nd) = Error LedgerError.SnapshotCorrupt →
     ∃ w', recover fuel visit wal sp w = Some (Some (Error LedgerError.SnapshotCorrupt), w') ∧
       view w' = view w) ∧
  (∀ st0 off, snapshot_says (view w) sp st0 off → off ≠ 0 →
     ∃ w', recover fuel visit wal sp w = Some (Some (Error LedgerError.WalOpenFailed), w') ∧
       view w' = view w) ∧
  (∀ st0 r, snapshot_says (view w) sp st0 0 → validate_trial_balance (visit st0) = Some r →
     ∃ w', recover fuel visit wal sp w =
         Some (Some (if has_value r then Value (mkRecovered st0 0) else Error r), w') ∧
       view w' = view w).
Proof.
  intros Hrel Hp Hdir. split.
  { intros i nd Hsp Hi Hc. unfold recover. msimpl.
    destruct (load_snapshot_spec sp w i nd Hsp Hi) as (r & w' & -> & Hv & _ & _ & Heq).
    rewrite (Heq Hrel), Hc. msimpl. exists w'. by rewrite bool_decide_true. }
  assert (∀ st0 off, snapshot_says (view w) sp st0 off →
    ∃ w', view w' = view w ∧ recover fuel visit wal sp w =
      (if bool_decide (off ≠ 0) then mret (Some (Error LedgerError.WalOpenFailed))
       else trial ← lift (validate_trial_balance (visit st0));
            if negb (has_value trial) then mret (Some (Error trial))
            else mret (Some (Value (mkRecovered st0 0))) : M (option (Result RecoveredState))) w') as Hmain.
  { intros st0 off Hsays. unfold recover. msimpl.
    destruct (load_says w sp st0 off Hrel Hsays) as (loaded & w1 & -> & Hv1 & _ & Hc & Hst).
    rewrite Hc, Hst. msimpl. destruct (reader_open_missing wal new_reader w1) as (w2 & -> & Hv2 & _);
      [done|by rewrite Hv1..|].
    msimpl. change (has_value LedgerError.WalOpenFailed) with false. exists w2.
    split; [congruence|]. by msimpl. }
  split.
  - intros st0 off Hsays Hne. destruct (Hmain st0 off Hsays) as (w' & Hv & ->). exists w'.
    by rewrite bool_decide_true.
  - intros st0 r Hsays Htrial. destruct (Hmain st0 0 Hsays) as (w' & Hv & ->). exists w'.
    rewrite bool_decide_false by lia. msimpl. rewrite Htrial. msimpl.
    split; [by destruct (has_value r)|done].
Qed.
End RecoverSpec.

(** ** Scenarios *)

Module ExampleRecovery.
(** The chart of accounts of [src/main.cpp], saved before any transaction. *)
Definition chart : list byte :=
  snapshot_bytes ExampleSnapshot.pad ExampleSnapshot.order ExampleLedger.state 0.
Definition visit (st : LedgerState) : list (AccountId * Account) := map_to_list (accounts_ st).
Definition tx1 : Transaction := ExampleLedger.tx 1 10.
Definition tx2 : Transaction := ExampleLedger.tx 2 20.
Definition boot (wal : list byte) (flt : list MemFs.fault) : MemFs.mem :=
  MemFs.boot [("/d/wal", wal); ("/d/snap", chart)] flt.
Definition run (w : MemFs.mem) := recover (H := MemFs.posix) 8 visit "/d/wal" "/d/snap" w.
(** The cash balance and valid length a recovery reports, and the log it leaves. *)
Definition report (o : option (option (Result RecoveredState) * MemFs.mem)) :
    option (option Amount * Z * option nat) :=
  match o with
  | Some (Some (Value rs), w) =>
      Some (balance <$> find_account (rec_state rs) 1, wal_valid_length rs,
            length <$> contents (MemFs.mfs w) "/d/wal")
  | _ => None
  end.
End ExampleRecovery.

Lemma recover_restores_witness :
  let l := [(ExampleRecovery.tx1, 5); (ExampleRecovery.tx2, 6)] in
  let wal := [] ++ log_bytes l ++ take 30 (record_bytes (ExampleLedger.tx 3 1) 7) in
  let st' := mkState {[1 := mkAccount 1 Asset (-30) 50000; 2 := mkAccount 2 Revenue (-30) 0]} 2 in
  let w := ExampleRecovery.boot wal [] in
  let answer := Some (Value (mkRecovered st' (Z.of_nat (length ([] ++ log_bytes l))))) in
  ∃ w' w'' nd', ExampleRecovery.run w = Some (answer, w') ∧
    MemFs.mfs w' = set_file (MemFs.mfs w) 0 nd' ∧ cur nd' = [] ++ log_bytes l ∧
    (take 30 (record_bytes (ExampleLedger.tx 3 1) 7) ≠ [] → stable nd' = cur nd') ∧
    ExampleRecovery.run w' = Some (answer, w'') ∧ MemFs.mfs w'' = MemFs.mfs w'.
Proof.
  intros l wal st' w answer.
  apply (recover_restores (L := MemFs.posix_laws) ExampleRecovery.visit "/d/wal" "/d/snap" w
    ExampleLedger.state 0 0 (mkInode wal wal) [] l
    (take 30 (record_bytes (ExampleLedger.tx 3 1) 7)) st' 8).
  - reflexivity.
  - right. exists 1, (mkInode ExampleRecovery.chart ExampleRecovery.chart).
    split_and!; [reflexivity|reflexivity|vm_compute; reflexivity].
  - discriminate.
  - reflexivity.
  - reflexivity.
  - reflexivity.
  - reflexivity.
  - by_compute.
  - by_compute.
  - by_compute.
  - by_compute.
  - vm_compute; reflexivity.
  - vm_compute; reflexivity.
Defined.

Lemma recover_stops_at_damage_witness :
  let l := [(ExampleRecovery.tx1, 5)] in
  let good := record_bytes ExampleRecovery.tx2 6 in
  let bad := take 78 good ++ [Byte.xff; Byte.xfe; Byte.xfd] ++ drop 81 good in
  let rest := record_bytes (ExampleLedger.tx 3 1) 7 in
  let wal := [] ++ log_bytes l ++ bad ++ rest in
  let st' := mkState {[1 := mkAccount 1 Asset (-10) 50000; 2 := mkAccount 2 Revenue (-10) 0]} 1 in
  let w := ExampleRecovery.boot wal [] in
  ∃ w' nd', ExampleRecovery.run w =
      Some (Some (Value (mkRecovered st' (Z.of_nat (length ([] ++ log_bytes l))))), w') ∧
    MemFs.mfs w' = set_file (MemFs.mfs w) 0 nd' ∧ cur nd' = [] ++ log_bytes l ∧
    stable nd' = cur nd'.
Proof.
  intros l good bad rest wal st' w.
  apply (recover_stops_at_damage (L := MemFs.posix_laws) ExampleRecovery.visit "/d/wal" "/d/snap" w
    ExampleLedger.state 0 0 (mkInode wal wal) [] l ExampleRecovery.tx2 6 bad rest st' 8).
  - reflexivity.
  - right. exists 1, (mkInode ExampleRecovery.chart ExampleRecovery.chart).
    split_and!; [reflexivity|reflexivity|vm_compute; reflexivity].
  - reflexivity.
  - reflexivity.
  - reflexivity.
  - reflexivity.
  - by_compute.
  - by_compute.
  - by_compute.
  - exists (take 78 good), (take 3 (drop 78 good)), [Byte.xff; Byte.xfe; Byte.xfd], (drop 81 good).
    split_and!; [reflexivity|reflexivity|reflexivity|by_compute|vm_compute; discriminate|reflexivity].
  - by_compute.
  - by_compute.
  - vm_compute; reflexivity.
  - vm_compute; reflexivity.
Defined.

Lemma recover_without_log_witness :
  let w := MemFs.boot [("/d/snap", ExampleRecovery.chart)] [] in
  ∃ w', ExampleRecovery.run w =
      Some (Some (if has_value LedgerError.None then Value (mkRecovered ExampleLedger.state 0)
                  else Error LedgerError.None), w') ∧ MemFs.mfs w' = MemFs.mfs w.
Proof.
  intros w. refine (proj2 (proj2 (recover_without_log (L := MemFs.posix_laws) ExampleRecovery.visit
    "/d/wal" "/d/snap" w 8 _ _ _)) ExampleLedger.state LedgerError.None _ _).
  - reflexivity.
  - reflexivity.
  - by_compute.
  - right. exists 0, (mkInode ExampleRecovery.chart ExampleRecovery.chart).
    split_and!; [reflexivity|reflexivity|vm_compute; reflexivity].
  - vm_compute; reflexivity.
Defined.

(** ** Where durability ends

    Runs in which the guarantees above are not to be had. *)
Module RecoveryLimits.
Import ExampleRecovery.

Definition open_wal (w : MemFs.mem) : MemFs.mem := (MemFs.m_open "/d/wal" O_CREAT_WRONLY_APPEND w).2.
(** Appends transactions with one writer. *)
Definition append_all (txs : list Transaction) (w : MemFs.mem) :
    option (list ResultVoid * MemFs.mem) :=
  '(rs, _, w) ← foldl (λ acc tx,
      '(rs, wr, w) ← acc; '(r, wr, w) ← append (H := MemFs.posix) tx wr w; Some (rs ++ [r], wr, w))
    (Some ([], mkWriter 3 SyncEveryWrite 0 false, open_wal w)) txs;
  Some (rs, w).

(** After a short write the torn bytes stay in the log, and the next append,
    acknowledged and synced, lands behind them: recovery stops at the torn record
    and cuts the acknowledged one off. *)
Theorem short_write_loses_later_records :
  match append_all [tx1; tx2] (boot [] [MemFs.Fine; MemFs.Short 10]) with
  | Some (rs, w) =>
      rs = [LedgerError.WalWriteFailed; LedgerError.None] ∧
      report (run w) = Some (Some 0, 0, Some 0%nat)
  | None => False
  end.
Proof. vm_compute. split; reflexivity. Qed.

(** When [fsync] fails the transaction is reported as failed, but its record is in
    the log and recovery applies it. *)
Theorem failed_sync_is_replayed :
  match append_all [tx1] (boot [] [MemFs.Fine; MemFs.Fine; MemFs.Fail]) with
  | Some (rs, w) =>
      rs = [LedgerError.WalSyncFailed] ∧ report (run w) = Some (Some (-10), 83, Some 83%nat)
  | None => False
  end.
Proof. vm_compute. split; reflexivity. Qed.

(** A read error during replay is taken for a torn record: recovery succeeds and
    cuts off records that are intact. *)
Theorem read_error_truncates :
  report (run (boot (record_bytes tx1 5 ++ record_bytes tx2 6)
    (replicate 8 MemFs.Fine ++ [MemFs.Fail]))) = Some (Some (-10), 83, Some 83%nat).
Proof. vm_compute. reflexivity. Qed.

(** When the snapshot exists but cannot be opened, recovery takes it for a first
    boot: it succeeds with no accounts, every record being skipped. *)
Theorem unreadable_snapshot_is_first_boot :
  report (run (boot (record_bytes tx1 5) [MemFs.Fail])) = Some (None, 83, Some 83%nat).
Proof. vm_compute. reflexivity. Qed.

(** Records are skipped unless their ids increase along the log: of two
    acknowledged transactions logged in the order 2, 1 only the first is
    recovered. *)
Theorem out_of_order_ids_are_skipped :
  match append_all [tx2; tx1] (boot [] []) with
  | Some (rs, w) =>
      rs = [LedgerError.None; LedgerError.None] ∧
      report (run w) = Some (Some (-20), 166, Some 166%nat)
  | None => False
  end.
Proof. vm_compute. split; reflexivity. Qed.

(** A snapshot whose offset lies beyond the end of the log is accepted, and the
    reported length is not the length of the log. *)
Theorem offset_beyond_log :
  report (run (MemFs.boot [("/d/wal", record_bytes tx1 5);
      ("/d/snap", snapshot_bytes ExampleSnapshot.pad ExampleSnapshot.order ExampleLedger.state 1000)] []))
    = Some (Some 0, 1000, Some 83%nat).
Proof. vm_compute. reflexivity. Qed.
End RecoveryLimits.
