(* ===== verification/RecoverySafety.v ===== *)
(** * Recovery in every environment

    [recover] when any of its system calls may fail or come up short: it ends,
    changes nothing but the tail of the log, and a state it returns is balanced
    and is the replay of some prefix of the log's records. *)

From S2P Require Import Prelude Types Validation LedgerState Crc32 WalCodec Posix WalWriter.
From S2P Require Import WalReader Snapshot SnapshotWrite Recovery.

(** ** Replaying on a ledger without accounts *)

Lemma replay_one_empty st tx :
  accounts_ st = ∅ → ∃ st', replay_one st tx = Some st' ∧ accounts_ st' = ∅.
Proof.
  intros Hst. unfold replay_one. case_bool_decide; [|by exists st].
  unfold apply. destruct (LegList.span (legs tx)) as [|leg ls]; cbn [apply_legs]; ubind.
  - change (has_value LedgerError.None) with true. cbv iota. ubind.
    eexists. split; [done|]. by case_bool_decide.
  - unfold find_account. rewrite Hst, lookup_empty. ubind.
    change (has_value LedgerError.AccountNotFound) with false. cbv iota. ubind. by exists st.
Qed.

Lemma replay_txs_empty st txs :
  accounts_ st = ∅ → ∃ st', replay_txs st txs = Some st' ∧ accounts_ st' = ∅.
Proof.
  revert st. induction txs as [|tx txs IH]; intros st Hst; [by exists st|].
  rewrite replay_txs_cons. destruct (replay_one_empty st tx Hst) as (st' & -> & Hst'). by apply IH.
Qed.

Lemma volume_empty st : accounts_ st = ∅ → volume st = 0.
Proof. intros Hst. unfold volume. by rewrite Hst, map_zsum_empty. Qed.

(** ** Everything after the snapshot has been loaded *)

Section Tail.
Context {P : Posix} {L : PosixLaws P}.
Variable visit : LedgerState → list (AccountId * Account).
Hypothesis Hvisit : ∀ st, iterates st (visit st).

(** The replays of all prefixes of [recs] are defined and their totals fit. *)
Definition replayable (st : LedgerState) (recs : list (Transaction * nat)) : Prop :=
  ∀ k, (k ≤ length recs)%nat →
    ∃ st', replay_txs st (take k recs).*1 = Some st' ∧ volume st' ≤ INT64_MAX.

(** [rs] is the replay of the first records of the log behind [off]. *)
Definition replayed (st : LedgerState) (off : Z) (recs : list (Transaction * nat))
    (rs : RecoveredState) : Prop :=
  ∃ k, (k ≤ length recs)%nat ∧ replay_txs st (take k recs).*1 = Some (rec_state rs) ∧
    wal_valid_length rs = off + Z.of_nat (recs_size (take k recs)).

(** [recover] from the point where state and offset are known. *)
Definition recover_tail (fuel : nat) (wal : string) (st : LedgerState) (off : Z) :
    M (option (Result RecoveredState)) :=
  '(opened, reader) ← reader_open wal new_reader;
  if negb (has_value opened) then
    if bool_decide (off ≠ 0) then mret (Some (Error LedgerError.WalOpenFailed))
    else
      trial ← lift (validate_trial_balance (visit st));
      if negb (has_value trial) then mret (Some (Error trial))
      else mret (Some (Value (mkRecovered st 0)))
  else
    let reader := seek off reader in
    replayed ← replay fuel reader st;
    match replayed with
    | None => mret None
    | Some (o, reader, st) =>
        let finish r := _ ← UniqueFd.reset (rd_fd reader) (-1); mret (Some r) in
        let valid_length := last_valid_offset reader in
        truncated ← (if bool_decide (o = ReadOutcome.EndOfLog) then mret LedgerError.None
                     else truncate_wal wal valid_length);
        if negb (has_value truncated) then finish (Error truncated)
        else
          trial ← lift (validate_trial_balance (visit st));
          if negb (has_value trial) then finish (Error trial)
          else finish (Value (mkRecovered st valid_length))
    end.

Lemma trial_checked st :
  volume st ≤ INT64_MAX → ∃ r, validate_trial_balance (visit st) = Some r ∧
    (has_value r = true → imbalance st = 0).
Proof.
  intros Hv. exists (trial_verdict st). split; [by apply trial_balance_value|].
  unfold trial_verdict, has_value. by case_decide.
Qed.

Lemma truncated_prefix r nd n nd' :
  (n ≤ length (cur nd))%nat → truncated r nd n = Some nd' → cur nd' `prefix_of` cur nd.
Proof.
  intros Hn. unfold truncated, resize.
  replace (n - length (cur nd))%nat with 0%nat by lia. cbn [replicate]. rewrite app_nil_r.
  destruct r; intros [= <-]; simpl; try done; apply prefix_take.
Qed.

(** Cutting the log, the trial balance, and closing the reader. *)
Lemma finish_any w f d i nd wal o pos st o' :
  0 ≤ d → fds f !! d = None → view w = set_fd f d o' →
  dir f !! wal = Some i → files f !! i = Some nd →
  0 ≤ pos ≤ Z.of_nat (length (cur nd)) → Z.of_nat (length (cur nd)) ≤ INT64_MAX →
  volume st ≤ INT64_MAX →
  ∃ a w' nd', (let finish x := _ ← UniqueFd.reset d (-1); mret (Some x) in
         truncated ← (if bool_decide (o = ReadOutcome.EndOfLog) then mret LedgerError.None
                      else truncate_wal wal pos);
         if negb (has_value truncated) then finish (Error truncated)
         else
           trial ← lift (validate_trial_balance (visit st));
           if negb (has_value trial) then finish (Error trial)
           else finish (Value (mkRecovered st pos))
         : M (option (Result RecoveredState))) w = Some (Some a, w') ∧
    view w' = set_file f i nd' ∧ cur nd' `prefix_of` cur nd ∧
    (∀ rs, a = Value rs → rs = mkRecovered st pos ∧ imbalance st = 0).
Proof.
  intros Hd Hfd Hv Hp Hi Hpos Hlen Hvol.
  destruct (trial_checked st Hvol) as (tr & Htr & Htr').
  assert (∀ w1 nd1, view w1 = set_file (view w) i nd1 → view (sys_close d w1) = set_file f i nd1) as Hclose.
  { intros w1 nd1 Hv1. destruct (close_law d w1) as [-> _].
    rewrite Hv1, Hv, set_file_set_fd. by apply del_fd_set_fd. }
  assert (∃ t w1 nd1, (if bool_decide (o = ReadOutcome.EndOfLog) then mret LedgerError.None
      else truncate_wal wal pos : M ResultVoid) w = Some (t, w1) ∧
    view w1 = set_file (view w) i nd1 ∧ cur nd1 `prefix_of` cur nd) as (t & w1 & nd1 & Ht & Hv1 & Hpre).
  { case_bool_decide; msimpl.
    - exists LedgerError.None, w, nd. rewrite set_file_id by by rewrite Hv. done.
    - destruct (truncate_wal_spec wal pos w i nd) as (t & w1 & nd1 & Ht & Htr1 & Hv1 & _);
        [by rewrite Hv|by rewrite Hv|lia|]. exists t, w1, nd1. split_and!; [done|done|].
      eapply truncated_prefix; [|done]. lia. }
  cbv zeta. msimpl. rewrite Ht. msimpl. unfold UniqueFd.reset, UniqueFd.valid.
  rewrite (bool_decide_true (0 ≤ d)) by done. rewrite Htr.
  destruct (has_value t); msimpl; [destruct (has_value tr) eqn:Hok; msimpl|];
    (do 3 eexists; split_and!; [done|by apply Hclose|done|]); naive_solver.
Qed.

Lemma recover_tail_any fuel wal st off w i nd recs e :
  dir (view w) !! wal = Some i → files (view w) !! i = Some nd →
  0 ≤ off ≤ Z.of_nat (length (cur nd)) → Z.of_nat (length (cur nd)) + 2048 ≤ INT64_MAX →
  parse_log fuel (drop (Z.to_nat off) (cur nd)) = Some (recs, e) →
  off + Z.of_nat (recs_size recs) ≤ Z.of_nat (length (cur nd)) → replayable st recs →
  ∃ a w' nd', recover_tail fuel wal st off w = Some (Some a, w') ∧
    view w' = set_file (view w) i nd' ∧ cur nd' `prefix_of` cur nd ∧
    (∀ rs, a = Value rs → replayed st off recs rs ∧ imbalance (rec_state rs) = 0).
Proof.
  intros Hp Hi Hoff Hlen Hpl Hsz Hreplay. unfold recover_tail. msimpl.
  destruct (reader_open_spec wal new_reader w i nd) as (ro & rd & w1 & -> & _ & Hopen); [done..|]. msimpl.
  destruct Hopen as [(-> & -> & Hv1)|(-> & Hfd & Hrd & Hfree & Hv1)].
  { change (has_value LedgerError.WalOpenFailed) with false. msimpl.
    assert (view w1 = set_file (view w) i nd) as Hv1' by by rewrite set_file_id.
    case_bool_decide as Hoff0; msimpl; [by do 3 eexists; split_and!|].
    destruct (Hreplay 0%nat) as (st' & Hst' & Hvol); [lia|]. rewrite take_0 in Hst'. injection Hst' as <-.
    destruct (trial_checked st Hvol) as (tr & -> & Htr). msimpl.
    destruct (has_value tr) eqn:Hok; msimpl; do 3 eexists; split_and!; try done.
    intros rs [= <-]. split; [|auto]. exists 0%nat. rewrite take_0. split_and!; [lia|done|simpl; lia]. }
  change (has_value LedgerError.None) with true. msimpl. cbv zeta.
  destruct (Hreplay (length recs)) as (st_all & Hall & _); [lia|]. rewrite take_ge in Hall by lia.
  destruct (replay_spec fuel (seek off rd) st w1 i nd recs e st_all)
    as (k & o & st' & w2 & Hk & Hst' & Hrun & Hv2 & _ & _); try done; simpl; try lia.
  { rewrite Hv1. by apply open_on_set_fd. }
  cbv zeta in Hrun. cbn [seek rd_fd cursor_] in Hrun. set (pos := off + _) in Hrun.
  msimpl. rewrite Hrun. msimpl. unfold last_valid_offset. cbn [last_valid_offset_ rd_fd].
  destruct (Hreplay k Hk) as (st2 & Hst2 & Hvol). assert (st2 = st') as -> by congruence.
  assert (recs_size (take k recs) ≤ recs_size recs)%nat as Hsz'.
  { clear. revert k. induction recs as [|r recs IH]; intros [|k]; cbn [take recs_size foldr]; try lia.
    fold (recs_size (take k recs)) (recs_size recs). specialize (IH k). lia. }
  destruct (finish_any w2 (view w) (rd_fd rd) i nd wal o pos st' (FdFile i false false 0))
    as (a & w3 & nd' & Hfin & Hv3 & Hpre & Ha); try done; try (unfold pos; lia); [by rewrite Hv2|].
  exists a, w3, nd'. split_and!; [exact Hfin|done|done|].
  intros rs Hrs. destruct (Ha rs Hrs) as [-> Himb]. split; [|done]. by exists k.
Qed.

(** C25: Recovery in every environment, whichever system calls fail or come up
    short.  The snapshot is absent or complete, with its offset within the log, and
    replaying first records of the log on it overflows nowhere.  Then [recover] ends, and
    of everything on disk it changes at most the log, of which it keeps a prefix.  A
    state it returns has a zero trial balance, and either it is the replay of the first
    so many complete records behind the snapshot's offset, which it reports as the valid
    length, or the snapshot could not be read and it is a state without accounts. *)
Theorem recover_any_environment fuel wal sp w i nd st0 off :
  snapshot_says (view w) sp st0 off →
  dir (view w) !! wal = Some i → files (view w) !! i = Some nd →
  0 ≤ off ≤ Z.of_nat (length (cur nd)) → Z.of_nat (length (cur nd)) + 2048 ≤ INT64_MAX →
  (length (cur nd) < fuel)%nat →
  (∀ recs e, parse_log fuel (drop (Z.to_nat off) (cur nd)) = Some (recs, e) → replayable st0 recs) →
  ∃ a w' nd', recover fuel visit wal sp w = Some (Some a, w') ∧
    view w' = set_file (view w) i nd' ∧ cur nd' `prefix_of` cur nd ∧
    (∀ rs, a = Value rs → imbalance (rec_state rs) = 0 ∧
      ((∃ recs e, parse_log fuel (drop (Z.to_nat off) (cur nd)) = Some (recs, e) ∧
          replayed st0 off recs rs) ∨
       accounts_ (rec_state rs) = ∅)).
Proof.
  intros Hsays Hp Hi Hoff Hlen Hfuel Hreplay.
  destruct (parse_log_total fuel (drop (Z.to_nat off) (cur nd))) as (recs & e & Hpl & Hsz & _); [len|].
  rewrite length_drop in Hsz.
  destruct (parse_log_total fuel (drop (Z.to_nat 0) (cur nd))) as (recs0 & e0 & Hpl0 & Hsz0 & _); [len|].
  rewrite drop_0 in Hsz0.
  assert (∃ loaded w1, load_snapshot sp w = Some (loaded, w1) ∧ view w1 = view w ∧
    (loaded = Error LedgerError.SnapshotReadFailed ∨ loaded = Error LedgerError.SnapshotCorrupt ∨
     loaded = Value (mkLoaded st0 off))) as (loaded & w1 & Hload & Hv1 & Hcase).
  { destruct Hsays as [(Hsp & Hd & -> & ->)|(j & ndj & Hsp & Hj & Hparse)].
    - unfold load_snapshot. msimpl.
      destruct (open_missing sp O_RDONLY w Hsp Hd eq_refl) as (d & w' & -> & Hneg & Hv & _). msimpl.
      rewrite bool_decide_true by done. msimpl. do 2 eexists. split_and!; [done|done|by left].
    - destruct (load_snapshot_spec sp w j ndj Hsp Hj) as (r & w' & -> & Hv & _ & Hans & _).
      exists r, w'. split_and!; [done|done|]. unfold load_answer in Hans. rewrite Hparse in Hans. tauto. }
  rewrite <- Hv1 in Hp, Hi |- *. unfold recover. msimpl. rewrite Hload. msimpl.
  destruct Hcase as [->|[->| ->]]; cbv iota beta.
  - rewrite bool_decide_false by done.
    destruct (recover_tail_any fuel wal empty_state 0 w1 i nd recs0 e0) as (a & w' & nd' & Hrun & Hv & Hpre & Ha);
      try done; try lia.
    { intros k Hk. destruct (replay_txs_empty empty_state (take k recs0).*1) as (st' & Hst' & He); [done|].
      exists st'. split; [done|]. rewrite volume_empty by done. by compute. }
    exists a, w', nd'. split_and!; [exact Hrun|done|done|].
    intros rs (Hrs & Himb)%Ha. split; [done|right]. destruct Hrs as (k & _ & Hk & _).
    destruct (replay_txs_empty empty_state (take k recs0).*1) as (st' & Hst' & He); [done|].
    congruence.
  - rewrite bool_decide_true by done. msimpl. exists (Error LedgerError.SnapshotCorrupt), w1, nd.
    split_and!; [done|by rewrite set_file_id|done|done].
  - destruct (recover_tail_any fuel wal st0 off w1 i nd recs e) as (a & w' & nd' & Hrun & Hv & Hpre & Ha);
      try done; [lia|by eapply Hreplay|].
    exists a, w', nd'. split_and!; [exact Hrun|done|done|].
    intros rs (Hrs & Himb)%Ha. split; [done|left]. by exists recs, e.
Qed.
End Tail.

(** ** A run with a failing read *)

Module ExampleFault.
Definition log : list byte := record_bytes ExampleRecovery.tx1 5 ++ record_bytes ExampleRecovery.tx2 6.
(** The first read of the second record fails. *)
Definition world : MemFs.mem := ExampleRecovery.boot log (replicate 8 MemFs.Fine ++ [MemFs.Fail]).
Definition fits (st : LedgerState) (l : list Transaction) : bool :=
  match replay_txs st l with Some st' => bool_decide (volume st' ≤ INT64_MAX) | None => false end.
End ExampleFault.

Lemma replayable_fits st recs :
  Forall (λ k, ExampleFault.fits st (take k recs).*1 = true) (seq 0 (S (length recs))) →
  replayable st recs.
Proof.
  intros Hall k Hk. rewrite Forall_forall in Hall. specialize (Hall k).
  unfold ExampleFault.fits in Hall. destruct (replay_txs st (take k recs).*1) as [st'|].
  - exists st'. split; [done|]. apply (bool_decide_unpack _), Is_true_true, Hall, elem_of_seq. lia.
  - assert (false = true) by (apply Hall, elem_of_seq; lia). done.
Qed.

Lemma recover_any_environment_witness :
  let w := ExampleFault.world in
  ∃ a w' nd', recover (H := MemFs.posix) 200 ExampleRecovery.visit "/d/wal" "/d/snap" w = Some (Some a, w') ∧
    MemFs.mfs w' = set_file (MemFs.mfs w) 0 nd' ∧ cur nd' `prefix_of` ExampleFault.log ∧
    (∀ rs, a = Value rs → imbalance (rec_state rs) = 0 ∧
      ((∃ recs e, parse_log 200 (drop (Z.to_nat 0) ExampleFault.log) = Some (recs, e) ∧
          replayed ExampleLedger.state 0 recs rs) ∨
       accounts_ (rec_state rs) = ∅)).
Proof.
  apply (recover_any_environment (L := MemFs.posix_laws) ExampleRecovery.visit
    (λ st, Permutation_refl _) 200 "/d/wal" "/d/snap" ExampleFault.world 0
    (mkInode ExampleFault.log ExampleFault.log) ExampleLedger.state 0).
  - right. exists 1, (mkInode ExampleRecovery.chart ExampleRecovery.chart).
    split_and!; [reflexivity|reflexivity|vm_compute; reflexivity].
  - reflexivity.
  - reflexivity.
  - by_compute.
  - by_compute.
  - by_compute.
  - intros recs e Hpl. apply replayable_fits. vm_compute in Hpl. injection Hpl as <- <-.
    repeat constructor; vm_compute; reflexivity.
Defined.
