(* ===== verification/RecoveryHistory.v ===== *)
(** * The disk while recovery runs

    Everything a process that dies during [recover] can leave behind: until the log
    is cut the disk is as it was found, and then the log has its old or its new
    contents, in the cache and on stable storage. *)

From S2P Require Import Prelude Types Validation LedgerState Crc32 WalCodec Posix WalWriter.
From S2P Require Import WalReader Snapshot Recovery.

(** Two views of one disk, with different descriptors. *)
Definition same_disk (f g : fs) : Prop :=
  dir g = dir f ∧ sdir g = sdir f ∧ dirs g = dirs f ∧ files g = files f.

#[export] Instance same_disk_equiv : Equivalence same_disk.
Proof.
  split; [by intros f| |]; unfold same_disk; [intros f g|intros f g h]; intuition congruence.
Qed.

Lemma same_disk_set_fd f d o : same_disk f (set_fd f d o).
Proof. done. Qed.
Lemma same_disk_del_fd f d : same_disk f (del_fd f d).
Proof. done. Qed.

(** The disk [f0] with the log [i], once [nd], cut to [c] or about to be. *)
Definition cutting (f0 : fs) (i : Z) (nd : inode) (c : list byte) (f : fs) : Prop :=
  dir f = dir f0 ∧ sdir f = sdir f0 ∧ (∀ j, j ≠ i → files f !! j = files f0 !! j) ∧
  ∃ nf, files f !! i = Some nf ∧ (cur nf = cur nd ∨ cur nf = c) ∧ (stable nf = stable nd ∨ stable nf = c).

#[export] Instance cutting_proper f0 i nd c : Proper (same_disk ==> iff) (cutting f0 i nd c).
Proof.
  intros f g (Hd & Hs & _ & Hf). unfold cutting. by rewrite Hd, Hs, Hf.
Qed.

Section History.
Context {P : Posix} {L : PosixLaws P}.

(** *** Computations that only read *)

Section Reading.
Variable f0 : fs.

Definition reading {A} (I : fs → Prop) (m : M A) (J : A → fs → Prop) : Prop :=
  ∀ w a w', same_disk f0 (view w) → I (view w) → m w = Some (a, w') →
    same_disk f0 (view w') ∧ through (same_disk f0) w w' ∧ J a (view w').

Lemma reading_ret {A} (a : A) (I : fs → Prop) (J : A → fs → Prop) :
  (∀ f, I f → J a f) → reading I (mret a) J.
Proof. intros HJ w b w' Hf HI [= <- <-]. split_and!; [done|apply through_refl|by apply HJ]. Qed.

Lemma reading_bind {A B} (m : M A) (k : A → M B) I J R :
  reading I m J → (∀ a, reading (J a) (k a) R) → reading I (m ≫= k) R.
Proof.
  intros Hm Hk w b w' Hf HI. rewrite bind_unfold. destruct (m w) as [[a w1]|] eqn:Ha; [|done]. intros Hb.
  destruct (Hm w a w1 Hf HI Ha) as (Hf1 & Ht1 & HJ). destruct (Hk a w1 b w' Hf1 HJ Hb) as (Hf2 & Ht2 & HR).
  split_and!; [done|by eapply through_trans|done].
Qed.

Lemma reading_lift {A} (o : option A) (I : fs → Prop) : reading I (lift o) (λ _, I).
Proof.
  intros w a w' Hf HI. rewrite lift_unfold. destruct o; [|done]. intros [= <- <-].
  split_and!; [done|apply through_refl|done].
Qed.

Lemma reading_weaken {A} (m : M A) (I I' : fs → Prop) (J J' : A → fs → Prop) :
  reading I' m J' → (∀ f, I f → I' f) → (∀ a f, J' a f → J a f) → reading I m J.
Proof.
  intros Hm HI HJ w a w' Hf Hi Ha. destruct (Hm w a w' Hf (HI _ Hi) Ha) as (? & ? & ?). split_and!; auto.
Qed.

(** A call that changes descriptors at most. *)
Lemma reading_call {A} (c : world → A * world) (I : fs → Prop) (J : A → fs → Prop) :
  (∀ w a w', same_disk f0 (view w) → I (view w) → c w = (a, w') →
    same_disk (view w) (view w') ∧ history w' = history w ++ [view w'] ∧ J a (view w')) →
  reading I (call c) J.
Proof.
  intros Hc w a w' Hf HI. rewrite call_unfold. intros [= Ha]. destruct (Hc w a w' Hf HI Ha) as (Hs & Hh & HJ).
  assert (same_disk f0 (view w')) by by etrans. split_and!; [done|by apply through_step|done].
Qed.

(** Descriptor [d] is open on a file. *)
Definition open_file_fd (d : Z) (f : fs) : Prop :=
  ∃ i wr app pos, fds f !! d = Some (FdFile i wr app pos) ∧ is_Some (files f !! i).

Lemma reading_open p fl I :
  is_Some (file_at f0 p) → o_creat fl = false → o_trunc fl = false →
  reading I (call (sys_open p fl)) (λ d f, 0 ≤ d → open_file_fd d f).
Proof.
  intros [nd Hnd] Hcr Htr. apply reading_call. intros w d w' (Hd & _ & _ & Hf) _ Ha. unfold file_at in Hnd.
  destruct (dir f0 !! p) as [i|] eqn:Hp; [|done]. simpl in Hnd.
  rewrite <- Hf in Hnd. rewrite <- Hd in Hp.
  assert (history w' = history w ++ [view w']) as Hh by (destruct (open_law _ _ _ _ _ Ha) as [(_ & _ & ?)|(_ & _ & _ & ?)]; done).
  destruct (open_file p fl w i nd Hp Hnd Htr) as (d' & w'' & Ha' & _ & Hcase). rewrite Ha in Ha'. injection Ha' as <- <-.
  destruct Hcase as [[Hneg Hv]|(_ & _ & Hv)]; rewrite Hv in *; split_and!; try done; [lia|].
  intros _. exists i, (o_write fl), (o_append fl), 0%nat. simpl. by rewrite lookup_insert_eq.
Qed.

Lemma reading_read d n : reading (open_file_fd d) (call (sys_read d n)) (λ _, open_file_fd d).
Proof.
  apply reading_call. intros w [r bs] w' _ (i & wr & app & pos & Hd & [nd Hi]) Ha.
  destruct (read_law _ _ _ _ _ _ _ _ _ _ _ Ha Hd Hi) as (Hh & [[_ Hv]|(_ & _ & _ & _ & Hv)] & _); rewrite Hv in *.
  - split_and!; [done|done|by exists i, wr, app, pos].
  - split_and!; [done|done|]. exists i, wr, app, (pos + length bs)%nat. simpl. by rewrite lookup_insert_eq.
Qed.

Lemma reading_pread d n off : reading (open_file_fd d) (call (sys_pread d n off)) (λ _, open_file_fd d).
Proof.
  apply reading_call. intros w [r bs] w' _ (i & wr & app & pos & Hd & [nd Hi]) Ha.
  destruct (pread_law _ _ _ _ _ _ _ _ _ _ _ _ Ha Hd Hi) as (Hv & Hh & _). rewrite Hv in *.
  split_and!; [done|done|by exists i, wr, app, pos].
Qed.

Lemma reading_reset d n I : reading I (UniqueFd.reset d n) (λ r _, r = n).
Proof.
  intros w r w' Hf _ [= <- <-]. destruct (UniqueFd.valid d); [|split_and!; [done|apply through_refl|done]].
  destruct (close_law d w) as [Hv Hh]. assert (same_disk f0 (view (sys_close d w))) by (rewrite Hv; by etrans).
  split_and!; [done|by apply through_step|done].
Qed.
Lemma reading_reset_none n I : reading I (UniqueFd.reset (-1) n) (λ r f, r = n ∧ I f).
Proof. intros w r w' Hf HI [= <- <-]. split_and!; [done|apply through_refl|done|done]. Qed.

Ltac reads tac := eapply reading_bind; [tac|].
Ltac rbranch := lazymatch goal with |- reading _ (if ?b then _ else _) _ => destruct b eqn:? end.

Lemma reading_stop {A} (a : A) d I : reading I (_ ← UniqueFd.reset d (-1); mret a) (λ _ _, True).
Proof. reads ltac:(apply reading_reset). intros r. by apply reading_ret. Qed.

Lemma reading_records fd size bs :
  reading (open_file_fd fd) (read_records fd size bs) (λ _, open_file_fd fd).
Proof.
  unfold read_records. reads ltac:(apply reading_lift). intros buffer. rbranch; [|by apply reading_ret].
  reads ltac:(apply reading_read). intros [n bs']. rbranch; [by apply reading_ret|].
  reads ltac:(apply reading_lift). intros b. by apply reading_ret.
Qed.

Lemma reading_load_snapshot sp :
  is_Some (file_at f0 sp) → reading (λ _, True) (load_snapshot sp) (λ _ _, True).
Proof.
  intros Hsp. unfold load_snapshot. reads ltac:(by apply reading_open). intros fd.
  rbranch; [by apply reading_ret|]. apply bool_decide_eq_false in Heqb. cbv zeta.
  apply (reading_weaken _ _ (open_file_fd fd) _ (λ _ _, True)); [|intros f Hf; apply Hf; lia|done].
  reads ltac:(apply reading_read). intros [n bs]. rbranch; [apply reading_stop|]. rbranch; [apply reading_stop|].
  unfold load_records. cbv zeta. reads ltac:(apply reading_records). intros [ok buffer].
  rbranch; [apply reading_stop|]. reads ltac:(apply reading_read). intros [m crc].
  rbranch; [apply reading_stop|]. rbranch; [apply reading_stop|]. reads ltac:(apply reading_lift). intros st.
  apply reading_stop.
Qed.

Lemma reading_reader_open wal :
  is_Some (file_at f0 wal) →
  reading (λ _, True) (reader_open wal new_reader)
    (λ r f, has_value r.1 = true → open_file_fd (rd_fd r.2) f).
Proof.
  intros Hwal. unfold reader_open, reader_close. eapply reading_bind with (J := λ rd _, rd_fd rd = -1).
  { reads ltac:(apply reading_reset_none). intros fd. apply reading_ret. by intros f [-> _]. }
  intros rd. eapply reading_bind with (J := λ fd f, rd_fd rd = -1 ∧ (0 ≤ fd → open_file_fd fd f)).
  { intros w fd w' Hf Hrd Ha. destruct (reading_open wal O_RDONLY (λ _, True) Hwal eq_refl eq_refl w fd w' Hf I Ha) as (? & ? & ?).
    by split_and!. }
  intros fd. rbranch; [by apply reading_ret|]. apply bool_decide_eq_false in Heqb.
  intros w r w' Hf [Hrd Hfd]. rewrite Hrd, bind_unfold. intros Ha.
  assert (w' = w ∧ r = (LedgerError.None, mkReader fd 0 0)) as [-> ->].
  { unfold UniqueFd.reset in Ha. simpl in Ha. by injection Ha as <- <-. }
  split_and!; [done|apply through_refl|]. intros _. apply Hfd. lia.
Qed.

Lemma reading_next rd :
  reading (open_file_fd (rd_fd rd)) (read_next rd) (λ r, open_file_fd (rd_fd r.2)).
Proof.
  unfold read_next. rbranch; [by apply reading_ret|]. reads ltac:(apply reading_pread). intros [n bs].
  do 2 (rbranch; [by apply reading_ret|]). cbv zeta. rbranch; [by apply reading_ret|].
  unfold read_record. cbv zeta. reads ltac:(apply reading_lift). intros buffer.
  reads ltac:(apply reading_pread). intros [m bs']. rbranch; [by apply reading_ret|].
  do 2 (reads ltac:(apply reading_lift); intros ?). rbranch; [by apply reading_ret|].
  do 2 (reads ltac:(apply reading_lift); intros ?). case_match; by apply reading_ret.
Qed.

Lemma reading_replay fuel rd st :
  reading (open_file_fd (rd_fd rd)) (replay fuel rd st) (λ _ _, True).
Proof.
  revert rd st. induction fuel as [|fuel IH]; intros rd st; cbn [replay]; [by apply reading_ret|].
  reads ltac:(apply reading_next). intros [r rd']. rbranch; [|by apply reading_ret].
  reads ltac:(apply reading_lift). intros st'. apply IH.
Qed.
End Reading.

(** *** Cutting the log *)

Lemma cutting_same f0 i nd c f : files f0 !! i = Some nd → same_disk f0 f → cutting f0 i nd c f.
Proof. intros Hi Hs. rewrite <- Hs. split_and!; [done|done|done|]. exists nd. auto. Qed.

Lemma cutting_set f0 i nd c nf f :
  same_disk (set_file f0 i nf) f → (cur nf = cur nd ∨ cur nf = c) → (stable nf = stable nd ∨ stable nf = c) →
  cutting f0 i nd c f.
Proof.
  intros Hs Hc Hst. rewrite <- Hs. split_and!; [done|done| |].
  - intros j Hj. simpl. by rewrite lookup_insert_ne.
  - exists nf. simpl. by rewrite lookup_insert_eq.
Qed.

(** Reading while the log is being cut. *)
Lemma reading_cutting {A} f0 i nd c nf (m : M A) I J w a w' :
  reading (set_file f0 i nf) I m J → same_disk (set_file f0 i nf) (view w) → I (view w) → m w = Some (a, w') →
  (cur nf = cur nd ∨ cur nf = c) → (stable nf = stable nd ∨ stable nf = c) →
  same_disk (set_file f0 i nf) (view w') ∧ through (cutting f0 i nd c) w w' ∧ J a (view w').
Proof.
  intros Hm Hs HI Ha Hc Hst. destruct (Hm w a w' Hs HI Ha) as (Hs' & Ht & HJ). split_and!; [done| |done].
  eapply through_impl; [|exact Ht]. intros f Hf. by eapply cutting_set.
Qed.

Lemma ftruncate_step f0 d len w r w' i nd :
  same_disk f0 (view w) → files f0 !! i = Some nd → fds (view w) !! d = Some (FdFile i true false 0) →
  sys_ftruncate d len w = (r, w') →
  history w' = history w ++ [view w'] ∧ fds (view w') !! d = Some (FdFile i true false 0) ∧
  ∃ c, same_disk (set_file f0 i (mkInode c (stable nd))) (view w') ∧ (r ≠ 0 → c = cur nd).
Proof.
  intros Hs Hi Hd Ha. pose proof Hs as (Hdir & Hsd & Hds & Hf). rewrite <- Hf in Hi.
  destruct (ftruncate_law _ _ _ _ _ _ _ _ _ Ha Hd Hi) as (Hh & [[Hr Hv]|(Hr & _ & Hv)] & _); rewrite Hv in *.
  - split_and!; [done|done|]. exists (cur nd). split; [|done]. destruct nd as [c s]. simpl.
    rewrite set_file_id by by rewrite <- Hf. done.
  - split_and!; [done|done|]. exists (resize (cur nd) (Z.to_nat len)). split; [|done]. unfold same_disk. simpl. by rewrite Hdir, Hsd, Hds, Hf.
Qed.

Lemma fsync_step f0 d w r w' i nd :
  same_disk f0 (view w) → files f0 !! i = Some nd → fds (view w) !! d = Some (FdFile i true false 0) →
  sys_fsync d w = (r, w') →
  history w' = history w ++ [view w'] ∧
  ∃ s, same_disk (set_file f0 i (mkInode (cur nd) s)) (view w') ∧ (s = stable nd ∨ s = cur nd).
Proof.
  intros Hs Hi Hd Ha. pose proof Hs as (Hdir & Hsd & Hds & Hf). rewrite <- Hf in Hi.
  assert (open_on (view w) d true false i nd) as Hon by (by exists 0%nat).
  destruct (fsync_law _ _ _ _ Ha (open_on_live _ _ _ _ _ _ Hon)) as (Hh & [[_ Hv]|[_ He]] & _); split; try done.
  - exists (stable nd). rewrite Hv. split; [|by left]. destruct nd as [c s]. simpl.
    rewrite set_file_id by by rewrite <- Hf. done.
  - exists (cur nd). rewrite (fsync_effect_eq _ _ _ _ _ _ _ Hon He). split; [|by right].
    unfold same_disk. simpl. by rewrite Hdir, Hsd, Hds, Hf.
Qed.

(** Cutting: of the views on the way, and of the last one. *)
Definition cut_done (f0 : fs) (i : Z) (nd : inode) (w w' : world) : Prop :=
  ∃ nd', same_disk (set_file f0 i nd') (view w') ∧ through (cutting f0 i nd (cur nd')) w w' ∧
    (stable nd' = stable nd ∨ stable nd' = cur nd').

Lemma cut_done_reading {A} f0 i nd (m : M A) J w1 w2 a w3 :
  cut_done f0 i nd w1 w2 → (∀ f, reading f (λ _, True) m J) → m w2 = Some (a, w3) → cut_done f0 i nd w1 w3.
Proof.
  intros (nd' & Hs & Ht & Hst) Hm Ha.
  destruct (reading_cutting f0 i nd (cur nd') nd' m _ _ w2 a w3 (Hm _) Hs I Ha) as (Hs' & Ht' & _); [by right|done|].
  exists nd'. split_and!; [done|by eapply through_trans|done].
Qed.

Lemma truncate_views f0 wal pos w r w' i nd :
  same_disk f0 (view w) → dir f0 !! wal = Some i → files f0 !! i = Some nd →
  truncate_wal wal pos w = Some (r, w') → cut_done f0 i nd w w'.
Proof.
  intros Hs Hp Hi. pose proof Hs as (Hdir & _ & _ & Hf). unfold truncate_wal. msimpl.
  destruct (sys_open wal O_WRONLY w) as [d w1] eqn:Ho. msimpl.
  assert (same_disk (set_file f0 i nd) f0) as Hid by by rewrite set_file_id.
  destruct (reading_open f0 wal O_WRONLY (λ _, True)) with (w := w) (a := d) (w' := w1) as (Hs1 & Ht1 & _); try done.
  { exists nd. unfold file_at. rewrite Hp. done. } { by rewrite call_unfold, Ho. }
  assert (∀ c, through (cutting f0 i nd c) w w1) as Ht1'.
  { intros c. eapply through_impl; [|exact Ht1]. intros f. by apply cutting_same. }
  case_bool_decide as Hneg; msimpl.
  { intros [= <- <-]. exists nd. split_and!; [by rewrite Hid|done|by left]. }
  assert (fds (view w1) !! d = Some (FdFile i true false 0)) as Hd.
  { destruct (open_file wal O_WRONLY w i nd) as (d' & w'' & Ha & _ & Hcase); [by rewrite Hdir|by rewrite Hf|done|].
    rewrite Ho in Ha. injection Ha as <- <-. destruct Hcase as [[? _]|(_ & _ & ->)]; [lia|]. simpl. by rewrite lookup_insert_eq. }
  destruct (sys_ftruncate d (to_s64 pos) w1) as [r2 w2] eqn:H2. msimpl.
  destruct (ftruncate_step f0 d _ w1 r2 w2 i nd Hs1 Hi Hd H2) as (Hh2 & Hd2 & c & Hs2 & Hc).
  assert (through (cutting f0 i nd c) w w2) as Ht2.
  { eapply through_trans; [apply Ht1'|]. apply through_step; [done|]. eapply cutting_set; [exact Hs2|by right|by left]. }
  assert (cut_done f0 i nd w w2) as Hcut2 by (exists (mkInode c (stable nd)); split_and!; [done|done|by left]).
  case_bool_decide; [intros Ha; by eapply cut_done_reading; [exact Hcut2|intros f; apply reading_stop|exact Ha]|].
  msimpl. destruct (sys_fsync d w2) as [r3 w3] eqn:H3. msimpl.
  destruct (fsync_step _ d w2 r3 w3 i (mkInode c (stable nd)) Hs2) as (Hh3 & s & Hs3 & Hst); [simpl; by rewrite lookup_insert_eq|done|done|].
  assert (cut_done f0 i nd w w3) as Hcut3.
  { simpl in *. rewrite set_file_set_file in Hs3. exists (mkInode c s). split_and!; [done| |done].
    eapply through_trans; [exact Ht2|]. apply through_step; [done|]. eapply cutting_set; [exact Hs3|by right|done]. }
  case_bool_decide; intros Ha; by eapply cut_done_reading; [exact Hcut3|intros f; apply reading_stop|exact Ha].
Qed.

Lemma cut_done_before f0 i nd w w1 w' :
  files f0 !! i = Some nd → through (same_disk f0) w w1 → cut_done f0 i nd w1 w' → cut_done f0 i nd w w'.
Proof.
  intros Hi Ht (nd' & Hs & Ht' & Hst). exists nd'. split_and!; [done| |done].
  eapply through_trans; [|exact Ht']. eapply through_impl; [|exact Ht]. intros f. by apply cutting_same.
Qed.
Lemma cut_done_none f0 i nd w : files f0 !! i = Some nd → same_disk f0 (view w) → cut_done f0 i nd w w.
Proof. intros Hi Hs. exists nd. rewrite set_file_id by done. split_and!; [done|apply through_refl|by left]. Qed.

(** A step of [recover] that only reads. *)
Lemma cut_done_step {A B} f0 i nd (m : M A) (k : A → M B) I J w b w' :
  files f0 !! i = Some nd → same_disk f0 (view w) → I (view w) → reading f0 I m J →
  (∀ a w1, same_disk f0 (view w1) → J a (view w1) → k a w1 = Some (b, w') → cut_done f0 i nd w1 w') →
  (m ≫= k) w = Some (b, w') → cut_done f0 i nd w w'.
Proof.
  intros Hi Hs HI Hm Hk. rewrite bind_unfold. destruct (m w) as [[a w1]|] eqn:Ha; [|done]. intros Hb.
  destruct (Hm w a w1 Hs HI Ha) as (Hs1 & Ht & HJ). eapply cut_done_before; [done|exact Ht|by eapply Hk].
Qed.

Lemma reading_finish {A} f I d (t : option ResultVoid) (bad : ResultVoid → A) (good : A) :
  reading f I (trial ← lift t; if negb (has_value trial) then _ ← UniqueFd.reset d (-1); mret (bad trial)
               else _ ← UniqueFd.reset d (-1); mret good) (λ _ _, True).
Proof. eapply reading_bind; [apply reading_lift|]. intros tr. destruct (negb _); apply reading_stop. Qed.

(** Whatever the environment answers, a process that dies during recovery leaves the
    disk as it found it, but for the log, which has its contents before or after. *)
Lemma recover_views fuel visit wal sp w r w' i nd :
  is_Some (file_at (view w) sp) → dir (view w) !! wal = Some i → files (view w) !! i = Some nd →
  recover fuel visit wal sp w = Some (r, w') → cut_done (view w) i nd w w'.
Proof.
  intros Hsp Hp Hi. set (f0 := view w) in *. assert (same_disk f0 (view w)) as Hs by done.
  assert (is_Some (file_at f0 wal)) as Hwal by (unfold file_at; rewrite Hp; by exists nd).
  unfold recover. eapply (cut_done_step _ _ _ _ _ (λ _, True)); [done|done|exact I|by apply reading_load_snapshot|].
  intros loaded w1 Hs1 _.
  lazymatch goal with |- (if ?b then _ else _) _ = _ → _ => destruct b end; [intros [= <- <-]; by apply cut_done_none|].
  destruct (match loaded with Value l => _ | Error _ => _ end) as [st off].
  eapply (cut_done_step _ _ _ _ _ (λ _, True)); [done|done|exact I|by apply reading_reader_open|]. intros [opened rd] w2 Hs2 Hrd. simpl in Hrd.
  destruct (has_value opened) eqn:Hop; cbv beta iota delta [negb].
  - cbv zeta. eapply cut_done_step; [done|done|by apply Hrd|apply (reading_replay f0 fuel (seek off rd) st)|].
    intros [[[o rd'] st']|] w3 Hs3 _; [|intros [= <- <-]; by apply cut_done_none].
    rewrite bind_unfold. destruct ((if bool_decide _ then _ else _ : M ResultVoid) w3) as [[t w4]|] eqn:Ht; [|done].
    assert (cut_done f0 i nd w3 w4) as Hcut.
    { case_bool_decide; [injection Ht as <- <-; by apply cut_done_none|by eapply truncate_views]. }
    intros Ha. eapply cut_done_reading; [exact Hcut| |exact Ha]. intros f.
    destruct (has_value t); cbv beta iota delta [negb]; [apply reading_finish|apply reading_stop].
  - case_bool_decide; [intros [= <- <-]; by apply cut_done_none|].
    eapply (cut_done_step _ _ _ _ _ (λ _, True)); [done|done|exact I|apply reading_lift|]. intros tr w3 Hs3 _.
    destruct (has_value tr); intros [= <- <-]; by apply cut_done_none.
Qed.
End History.
