(* ===== verification/Idempotency.v ===== *)
(** * The idempotency cache

    [include/ledger/idempotency_cache.hpp] and [src/idempotency_cache.cpp]: a
    fixed array of nodes that carries a doubly linked recency list, a free list
    and the chains of a hash table, all as 32-bit indices.  The model keeps the
    array and every link; an index outside the array is undefined behaviour.  The
    representation predicate [rep] ties it to the abstract cache, a list of keys
    with the most recent first, and [check_and_insert] is proved to implement the
    abstract operation for every hash function. *)

From S2P Require Import Prelude Types.

(** ** The code *)

Definition kInvalid : Z := -1.

Record Node := mkNode {
  key : IdempotencyKey; prev : Z; next : Z; hash_next : Z; occupied : bool
}.
Definition default_node : Node := mkNode (mkKey 0 0) kInvalid kInvalid kInvalid false.

Record IdempotencyCache := mkCache {
  nodes_ : list Node;
  buckets_ : list Z;
  bucket_mask_ : Z;
  lru_head_ : Z;
  lru_tail_ : Z;
  free_head_ : Z;
  size_ : Z
}.

(** The members [size] and [capacity]. *)
Definition cache_size (c : IdempotencyCache) : Z := size_ c.
Definition cache_capacity (c : IdempotencyCache) : Z := Z.of_nat (length (nodes_ c)).

(** [nodes_[i]] and assignments to its fields. *)
Definition node_at (ns : list Node) (i : Z) : option Node :=
  if bool_decide (0 ≤ i) then ns !! Z.to_nat i else None.
Definition upd_node (f : Node → Node) (i : Z) (ns : list Node) : option (list Node) :=
  n ← node_at ns i; Some (<[Z.to_nat i := f n]> ns).
Definition set_prev (v : Z) (n : Node) : Node := mkNode (key n) v (next n) (hash_next n) (occupied n).
Definition set_next (v : Z) (n : Node) : Node := mkNode (key n) (prev n) v (hash_next n) (occupied n).
Definition set_hash_next (v : Z) (n : Node) : Node := mkNode (key n) (prev n) (next n) v (occupied n).
Definition set_entry (k : IdempotencyKey) (n : Node) : Node :=
  mkNode k (prev n) (next n) (hash_next n) true.

(** [buckets_[b]]. *)
Definition bucket_at (bs : list Z) (b : Z) : option Z :=
  if bool_decide (0 ≤ b) then bs !! Z.to_nat b else None.

(** Assignments to the fields of the cache. *)
Definition with_nodes (ns : list Node) (c : IdempotencyCache) : IdempotencyCache :=
  mkCache ns (buckets_ c) (bucket_mask_ c) (lru_head_ c) (lru_tail_ c) (free_head_ c) (size_ c).
Definition with_buckets (bs : list Z) (c : IdempotencyCache) : IdempotencyCache :=
  mkCache (nodes_ c) bs (bucket_mask_ c) (lru_head_ c) (lru_tail_ c) (free_head_ c) (size_ c).
Definition with_head (h : Z) (c : IdempotencyCache) : IdempotencyCache :=
  mkCache (nodes_ c) (buckets_ c) (bucket_mask_ c) h (lru_tail_ c) (free_head_ c) (size_ c).
Definition with_tail (t : Z) (c : IdempotencyCache) : IdempotencyCache :=
  mkCache (nodes_ c) (buckets_ c) (bucket_mask_ c) (lru_head_ c) t (free_head_ c) (size_ c).
Definition with_free (f s : Z) (c : IdempotencyCache) : IdempotencyCache :=
  mkCache (nodes_ c) (buckets_ c) (bucket_mask_ c) (lru_head_ c) (lru_tail_ c) f s.
Definition upd (f : Node → Node) (i : Z) (c : IdempotencyCache) : option IdempotencyCache :=
  ns ← upd_node f i (nodes_ c); Some (with_nodes ns c).

(** [std::bit_ceil]. *)
Definition bit_ceil (n : Z) : Z := if bool_decide (n ≤ 1) then 1 else 2 ^ Z.log2_up n.

(** The constructor. *)
Definition make_cache (capacity : Z) : IdempotencyCache :=
  let capacity := Z.max capacity 1 in
  let nodes := (λ i : nat,
      set_next (if bool_decide (Z.of_nat i + 1 < capacity) then to_s32 (Z.of_nat i + 1) else kInvalid)
        default_node) <$> seq 0 (Z.to_nat capacity) in
  let bucket_count := bit_ceil (Z.max (wrap64 (capacity * 2)) 2) in
  mkCache nodes (replicate (Z.to_nat bucket_count) kInvalid) (bucket_count - 1)
    kInvalid kInvalid 0 0.

Definition unlink_lru (node_idx : Z) (c : IdempotencyCache) : option IdempotencyCache :=
  node ← node_at (nodes_ c) node_idx;
  c ← (if bool_decide (prev node ≠ kInvalid) then upd (set_next (next node)) (prev node) c
       else Some (with_head (next node) c));
  node ← node_at (nodes_ c) node_idx;
  c ← (if bool_decide (next node ≠ kInvalid) then upd (set_prev (prev node)) (next node) c
       else Some (with_tail (prev node) c));
  c ← upd (set_prev kInvalid) node_idx c;
  upd (set_next kInvalid) node_idx c.

Definition push_front_lru (node_idx : Z) (c : IdempotencyCache) : option IdempotencyCache :=
  c ← upd (set_prev kInvalid) node_idx c;
  c ← upd (set_next (lru_head_ c)) node_idx c;
  c ← (if bool_decide (lru_head_ c ≠ kInvalid) then upd (set_prev node_idx) (lru_head_ c) c
       else Some c);
  let c := with_head node_idx c in
  Some (if bool_decide (lru_tail_ c = kInvalid) then with_tail node_idx c else c).

Section Hash.
(** [std::hash<std::uint64_t>]. *)
Variable hash64 : Z → Z.

Definition bucket_for (k : IdempotencyKey) (c : IdempotencyCache) : Z :=
  Z.land (IdempotencyKeyHash hash64 k) (bucket_mask_ c).

(** The loop of [remove_from_bucket]; [None] when the chain is longer than
    [fuel]. *)
Fixpoint remove_loop (fuel : nat) (bucket node_idx prv cur : Z) (c : IdempotencyCache) :
    option IdempotencyCache :=
  match fuel with
  | O => None
  | S fuel =>
      if bool_decide (cur ≠ kInvalid) then
        node ← node_at (nodes_ c) cur;
        if bool_decide (cur = node_idx) then
          c ← (if bool_decide (prv = kInvalid)
               then Some (with_buckets (<[Z.to_nat bucket := hash_next node]> (buckets_ c)) c)
               else upd (set_hash_next (hash_next node)) prv c);
          upd (set_hash_next kInvalid) cur c
        else remove_loop fuel bucket node_idx cur (hash_next node) c
      else Some c
  end.

Definition remove_from_bucket (node_idx : Z) (c : IdempotencyCache) : option IdempotencyCache :=
  node ← node_at (nodes_ c) node_idx;
  let bucket := bucket_for (key node) c in
  cur ← bucket_at (buckets_ c) bucket;
  remove_loop (S (length (nodes_ c))) bucket node_idx kInvalid cur c.

(** The search of [check_and_insert] along a chain. *)
Fixpoint find_loop (fuel : nat) (k : IdempotencyKey) (cur : Z) (ns : list Node) : option (option Z) :=
  match fuel with
  | O => None
  | S fuel =>
      if bool_decide (cur ≠ kInvalid) then
        node ← node_at ns cur;
        if occupied node && bool_decide (key node = k) then Some (Some cur)
        else find_loop fuel k (hash_next node) ns
      else Some None
  end.

Definition check_and_insert (k : IdempotencyKey) (c : IdempotencyCache) :
    option (bool * IdempotencyCache) :=
  let bucket := bucket_for k c in
  cur ← bucket_at (buckets_ c) bucket;
  found ← find_loop (S (length (nodes_ c))) k cur (nodes_ c);
  match found with
  | Some cur =>
      c ← unlink_lru cur c;
      c ← push_front_lru cur c;
      Some (true, c)
  | None =>
      '(idx, c) ←
        (if bool_decide (free_head_ c ≠ kInvalid) then
           let idx := free_head_ c in
           node ← node_at (nodes_ c) idx;
           let c := with_free (next node) (wrap64 (size_ c + 1)) c in
           c ← upd (set_next kInvalid) idx c;
           Some (idx, c)
         else
           let idx := lru_tail_ c in
           c ← remove_from_bucket idx c;
           c ← unlink_lru idx c;
           Some (idx, c));
      c ← upd (set_entry k) idx c;
      head ← bucket_at (buckets_ c) bucket;
      c ← upd (set_hash_next head) idx c;
      let c := with_buckets (<[Z.to_nat bucket := idx]> (buckets_ c)) c in
      c ← push_front_lru idx c;
      Some (false, c)
  end.
End Hash.

(** ** The abstract cache *)

(** The keys remembered, most recent first: a known key moves to the front, a new
    one is put there and the oldest dropped when there are more than [cap]. *)
Definition lru_check (cap : nat) (k : IdempotencyKey) (l : list IdempotencyKey) :
    bool * list IdempotencyKey :=
  if decide (k ∈ l) then (true, k :: filter (λ k', k' ≠ k) l) else (false, take cap (k :: l)).

(** ** The node array *)

Lemma node_at_nonneg ns i n : node_at ns i = Some n → 0 ≤ i < Z.of_nat (length ns).
Proof.
  unfold node_at. case_bool_decide; [|done]. intros ?%lookup_lt_Some. lia.
Qed.

(** [ns'] is [ns] with node [i] changed by [f]. *)
Definition stored (f : Node → Node) (i : Z) (ns ns' : list Node) : Prop :=
  length ns' = length ns ∧
  ∀ j, node_at ns' j = if decide (j = i) then f <$> node_at ns i else node_at ns j.

Lemma upd_ok f i c n :
  node_at (nodes_ c) i = Some n →
  ∃ ns', upd f i c = Some (with_nodes ns' c) ∧ stored f i (nodes_ c) ns'.
Proof.
  intros Hn. unfold upd, upd_node. rewrite Hn. ubind. eexists. split; [done|].
  split; [apply length_insert|]. pose proof (node_at_nonneg _ _ _ Hn) as Hi.
  intros j. destruct (decide (j = i)) as [->|Hj].
  - rewrite Hn. unfold node_at. rewrite bool_decide_true by lia. apply list_lookup_insert_eq. lia.
  - unfold node_at. case_bool_decide; [|done]. apply list_lookup_insert_ne. lia.
Qed.

(** ** Linked lists *)

Definition hd_or (q : Z) (l : list Z) : Z := default q (head l).
Definition last_or (p : Z) (l : list Z) : Z := default p (last l).

(** The nodes [l] are doubly linked, between [p] and [q]. *)
Fixpoint links (ns : list Node) (p : Z) (l : list Z) (q : Z) : Prop :=
  match l with
  | [] => True
  | x :: l' => (∃ n, node_at ns x = Some n ∧ prev n = p ∧ next n = hd_or q l') ∧ links ns x l' q
  end.

(** The nodes [l] are linked by the field [f], from [h] to [m]. *)
Fixpoint seg (f : Node → Z) (ns : list Node) (h : Z) (l : list Z) (m : Z) : Prop :=
  match l with
  | [] => h = m
  | x :: l' => h = x ∧ ∃ n, node_at ns x = Some n ∧ seg f ns (f n) l' m
  end.
Definition chain (f : Node → Z) (ns : list Node) (h : Z) (l : list Z) : Prop := seg f ns h l kInvalid.

Lemma hd_or_app q l1 l2 : hd_or q (l1 ++ l2) = hd_or (hd_or q l2) l1.
Proof. by destruct l1. Qed.
Lemma last_or_cons p x l : last_or p (x :: l) = last_or x l.
Proof. unfold last_or. rewrite last_cons. by destruct (last l). Qed.
Lemma last_or_app p l x : last_or p (l ++ [x]) = x.
Proof. unfold last_or. by rewrite last_snoc. Qed.

Lemma links_app ns p l1 l2 q :
  links ns p (l1 ++ l2) q ↔ links ns p l1 (hd_or q l2) ∧ links ns (last_or p l1) l2 q.
Proof.
  revert p. induction l1 as [|x l1 IH]; intros p; simpl; [tauto|].
  rewrite IH, hd_or_app, last_or_cons. tauto.
Qed.

Lemma links_in ns p l q x : links ns p l q → x ∈ l → ∃ n, node_at ns x = Some n.
Proof.
  revert p. induction l as [|y l IH]; intros p; [by intros _ ?%not_elem_of_nil|].
  intros [(n & Hn & _) Hl] [->|Hx]%elem_of_cons; [by eexists|eauto].
Qed.

Lemma links_frame ns ns' p l q :
  (∀ x n, x ∈ l → node_at ns x = Some n →
    ∃ n', node_at ns' x = Some n' ∧ prev n' = prev n ∧ next n' = next n) →
  links ns p l q → links ns' p l q.
Proof.
  revert p. induction l as [|y l IH]; intros p Hf; [done|]. intros [(n & Hn & Hp & Hq) Hl]. split.
  - destruct (Hf y n) as (n' & Hn' & Hp' & Hq'); [left|done|]. exists n'. split_and!; congruence.
  - apply IH; [|done]. intros x n' Hx. apply Hf. by right.
Qed.

(** Changing a node outside the list. *)
Lemma links_stored f i ns ns' p l q :
  stored f i ns ns' → i ∉ l → links ns p l q → links ns' p l q.
Proof.
  intros [_ Hs] Hi. apply links_frame. intros x n Hx Hn. exists n. rewrite Hs, decide_False; [done|].
  by intros ->.
Qed.

Lemma links_set_last ns ns' p l y q q' :
  stored (set_next q') y ns ns' → NoDup (l ++ [y]) →
  links ns p (l ++ [y]) q → links ns' p (l ++ [y]) q'.
Proof.
  intros Hs (_ & Hni & _)%NoDup_app. rewrite !links_app. simpl. intros (Hl & (n & Hn & Hp & _) & _).
  split_and!; [|..|done].
  - apply (links_stored _ _ _ _ _ _ _ Hs); [|done]. intros Hy. by apply (Hni y Hy), list_elem_of_singleton.
  - exists (set_next q' n). destruct Hs as [_ ->]. by rewrite decide_True, Hn.
Qed.

Lemma links_set_first ns ns' p p' y l q :
  stored (set_prev p') y ns ns' → y ∉ l →
  links ns p (y :: l) q → links ns' p' (y :: l) q.
Proof.
  intros Hs Hni [(n & Hn & _ & Hq) Hl]. split.
  - exists (set_prev p' n). pose proof Hs as [_ ->]. by rewrite decide_True, Hn.
  - by eapply links_stored.
Qed.

Lemma seg_app f ns h l1 l2 m :
  seg f ns h (l1 ++ l2) m ↔ ∃ j, seg f ns h l1 j ∧ seg f ns j l2 m.
Proof.
  revert h. induction l1 as [|x l1 IH]; intros h; simpl.
  { split; [eauto|]. by intros (j & -> & ?). }
  split.
  - intros (-> & n & Hn & (j & H1 & H2)%IH). exists j. eauto.
  - intros (j & (-> & n & Hn & H1) & H2). split; [done|]. exists n. rewrite IH. eauto.
Qed.

Lemma seg_frame f ns ns' h l m :
  (∀ x n, x ∈ l → node_at ns x = Some n → ∃ n', node_at ns' x = Some n' ∧ f n' = f n) →
  seg f ns h l m → seg f ns' h l m.
Proof.
  revert h. induction l as [|y l IH]; intros h Hf; [done|]. intros (-> & n & Hn & Hl). split; [done|].
  destruct (Hf y n) as (n' & Hn' & Hf'); [left|done|]. exists n'. rewrite Hf'. split; [done|].
  apply IH; [|done]. intros x k Hx. apply Hf. by right.
Qed.

Lemma seg_stored g i f ns ns' h l m :
  stored g i ns ns' → i ∉ l → seg f ns h l m → seg f ns' h l m.
Proof.
  intros [_ Hs] Hi. apply seg_frame. intros x n Hx Hn. exists n. rewrite Hs, decide_False; [done|].
  by intros ->.
Qed.

Lemma seg_in f ns h l m x : seg f ns h l m → x ∈ l → ∃ n, node_at ns x = Some n.
Proof.
  revert h. induction l as [|y l IH]; intros h; [by intros _ ?%not_elem_of_nil|].
  intros (-> & n & Hn & Hl) [->|Hx]%elem_of_cons; [by eexists|eauto].
Qed.

(** Distinct valid indices are at most as many as there are nodes. *)
Lemma indices_bound (ns : list Node) l :
  NoDup l → (∀ x, x ∈ l → ∃ n, node_at ns x = Some n) → (length l ≤ length ns)%nat.
Proof.
  intros Hnd Hin.
  rewrite <- (length_fmap Z.to_nat l), <- (length_seq (length ns) 0).
  apply submseteq_length, NoDup_submseteq.
  - apply NoDup_fmap_2_strong; [|done]. intros x y Hx Hy Heq.
    destruct (Hin x Hx) as [? ?%node_at_nonneg]. destruct (Hin y Hy) as [? ?%node_at_nonneg]. lia.
  - intros i Hi. apply list_elem_of_fmap in Hi as (x & -> & Hx).
    destruct (Hin x Hx) as [? ?%node_at_nonneg]. apply elem_of_seq. lia.
Qed.

(** ** The recency list *)

Definition dll (c : IdempotencyCache) (l : list Z) : Prop :=
  links (nodes_ c) kInvalid l kInvalid ∧
  lru_head_ c = hd_or kInvalid l ∧ lru_tail_ c = last_or kInvalid l.

(** Only recency links of the nodes [S], and the ends of the list, differ. *)
Definition relinked (S : list Z) (c c' : IdempotencyCache) : Prop :=
  buckets_ c' = buckets_ c ∧ bucket_mask_ c' = bucket_mask_ c ∧ free_head_ c' = free_head_ c ∧
  size_ c' = size_ c ∧ length (nodes_ c') = length (nodes_ c) ∧
  (∀ y, y ∉ S → node_at (nodes_ c') y = node_at (nodes_ c) y) ∧
  (∀ y n, node_at (nodes_ c) y = Some n → ∃ n', node_at (nodes_ c') y = Some n' ∧
    key n' = key n ∧ hash_next n' = hash_next n ∧ occupied n' = occupied n).

#[export] Instance relinked_preorder S : PreOrder (relinked S).
Proof.
  split.
  - intros c. repeat split; eauto.
  - intros c1 c2 c3 (?&?&?&?&?&Hf&Hd) (?&?&?&?&?&Hf'&Hd'). split_and!; try congruence.
    + intros y Hy. by rewrite Hf', Hf.
    + intros y n (n' & Hn' & ? & ? & ?)%Hd. destruct (Hd' y n' Hn') as (n'' & ? & ? & ? & ?).
      exists n''. split_and!; congruence.
Qed.

Lemma relinked_upd S f i c ns' :
  stored f i (nodes_ c) ns' → i ∈ S → (∃ v, f = set_prev v ∨ f = set_next v) →
  relinked S c (with_nodes ns' c).
Proof.
  intros [Hl Hs] Hi (v & Hf). split_and!; try done; simpl.
  - intros y Hy. rewrite Hs, decide_False; [done|]. by intros ->.
  - intros y n Hn. rewrite Hs. case_decide as Hyi; [subst y|by exists n].
    exists (f n). rewrite Hn. by destruct Hf; subst f.
Qed.

Lemma relinked_head S h c : relinked S c (with_head h c).
Proof. repeat split; simpl; eauto. Qed.
Lemma relinked_tail S t c : relinked S c (with_tail t c).
Proof. repeat split; simpl; eauto. Qed.

Lemma links_ends ns p l q x : links ns p l q → x ∈ l → x ≠ kInvalid.
Proof. intros Hl Hx. destruct (links_in _ _ _ _ _ Hl Hx) as [n Hn%node_at_nonneg]. unfold kInvalid. lia. Qed.

(** The two halves of [unlink_lru]. *)
Lemma unlink_before c l1 x l2 n :
  dll c (l1 ++ x :: l2) → NoDup (l1 ++ x :: l2) → node_at (nodes_ c) x = Some n →
  prev n = last_or kInvalid l1 → next n = hd_or kInvalid l2 →
  ∃ c1, (if bool_decide (prev n ≠ kInvalid) then upd (set_next (next n)) (prev n) c
         else Some (with_head (next n) c)) = Some c1 ∧
    relinked (l1 ++ x :: l2) c c1 ∧ node_at (nodes_ c1) x = Some n ∧
    links (nodes_ c1) kInvalid l1 (hd_or kInvalid l2) ∧ links (nodes_ c1) x l2 kInvalid ∧
    lru_head_ c1 = hd_or kInvalid (l1 ++ l2) ∧ lru_tail_ c1 = lru_tail_ c.
Proof.
  intros (Hl & Hh & Ht) Hnd Hn Hp Hq. rewrite links_app in Hl. destruct Hl as [Hl1 [_ Hl2]].
  pose proof (NoDup_app l1 (x :: l2)) as [(Hnd1 & Hdis & Hnd2) _]; [done|].
  apply NoDup_cons in Hnd2 as [Hx2 _].
  destruct l1 as [|y l1' _] using rev_ind.
  - rewrite Hp, bool_decide_false by (unfold last_or; simpl; lia). eexists. split; [done|].
    split_and!; [apply relinked_head|done..].
  - rewrite last_or_app in Hp. rewrite Hp, Hq.
    assert (y ∈ l1' ++ [y]) as Hy by (apply elem_of_app; right; by apply list_elem_of_singleton).
    rewrite bool_decide_true by exact (links_ends _ _ _ _ _ Hl1 Hy).
    destruct (links_in _ _ _ _ _ Hl1 Hy) as [m Hm].
    destruct (upd_ok (set_next (hd_or kInvalid l2)) y c m Hm) as (ns' & -> & Hs).
    assert (y ≠ x ∧ y ∉ l2) as [Hyx Hy2].
    { pose proof (Hdis y Hy) as H. rewrite elem_of_cons in H. tauto. }
    eexists. split; [done|]. split_and!.
    + apply (relinked_upd _ _ _ _ _ Hs); [|eauto]. apply elem_of_app. by left.
    + destruct Hs as [_ Hs]. simpl. by rewrite Hs, decide_False by done.
    + by eapply links_set_last.
    + by eapply links_stored.
    + simpl. rewrite Hh, !hd_or_app. by destruct l1'.
    + done.
Qed.

Lemma unlink_after c l1 x l2 n :
  links (nodes_ c) kInvalid l1 (hd_or kInvalid l2) → links (nodes_ c) x l2 kInvalid →
  lru_tail_ c = last_or kInvalid (l1 ++ x :: l2) → NoDup (l1 ++ x :: l2) →
  node_at (nodes_ c) x = Some n → prev n = last_or kInvalid l1 → next n = hd_or kInvalid l2 →
  ∃ c1, (if bool_decide (next n ≠ kInvalid) then upd (set_prev (prev n)) (next n) c
         else Some (with_tail (prev n) c)) = Some c1 ∧
    relinked (l1 ++ x :: l2) c c1 ∧ node_at (nodes_ c1) x = Some n ∧
    links (nodes_ c1) kInvalid (l1 ++ l2) kInvalid ∧
    lru_head_ c1 = lru_head_ c ∧ lru_tail_ c1 = last_or kInvalid (l1 ++ l2).
Proof.
  intros Hl1 Hl2 Ht Hnd Hn Hp Hq. rewrite Hp, Hq.
  apply NoDup_app in Hnd as (_ & Hdis & [Hx2 Hnd2]%NoDup_cons).
  destruct l2 as [|y l2'].
  - rewrite bool_decide_false by (unfold hd_or; simpl; lia). eexists. split; [done|].
    rewrite app_nil_r. split_and!; [apply relinked_tail|done..].
  - change (hd_or kInvalid (y :: l2')) with y in *.
    rewrite bool_decide_true by (eapply links_ends; [exact Hl2|left]).
    destruct (links_in _ _ _ _ y Hl2) as [m Hm]; [left|].
    destruct (upd_ok (set_prev (last_or kInvalid l1)) y c m Hm) as (ns' & -> & Hs).
    apply not_elem_of_cons in Hx2 as [Hxy Hx2]. apply NoDup_cons in Hnd2 as [Hy2 _].
    eexists. split; [done|]. split_and!; [..|done|].
    + apply (relinked_upd _ _ _ _ _ Hs); [|eauto]. apply elem_of_app. right. right. left.
    + destruct Hs as [_ Hs]. simpl. by rewrite Hs, decide_False by done.
    + apply links_app. split; [|by eapply links_set_first].
      apply (links_stored _ _ _ _ _ _ _ Hs); [|done]. intros Hy1. apply (Hdis y Hy1). right. left.
    + simpl. rewrite Ht. unfold last_or. rewrite !last_app, !last_cons. by destruct (last l2').
Qed.

Lemma unlink_lru_ok c l1 x l2 :
  dll c (l1 ++ x :: l2) → NoDup (l1 ++ x :: l2) →
  ∃ c', unlink_lru x c = Some c' ∧ dll c' (l1 ++ l2) ∧ relinked (l1 ++ x :: l2) c c'.
Proof.
  intros Hd Hnd. pose proof Hd as (Hl & _ & Ht). rewrite links_app in Hl.
  destruct Hl as (_ & (n & Hn & Hp & Hq) & _).
  unfold unlink_lru. rewrite Hn. ubind.
  destruct (unlink_before c l1 x l2 n Hd Hnd Hn Hp Hq) as (c1 & -> & Hr1 & Hn1 & Hl1 & Hl2 & Hh1 & Ht1).
  ubind. rewrite Hn1. ubind.
  destruct (unlink_after c1 l1 x l2 n Hl1 Hl2) as (c2 & -> & Hr2 & Hn2 & Hl & Hh2 & Ht2); [congruence|done..|].
  ubind. destruct (upd_ok (set_prev kInvalid) x c2 n Hn2) as (ns3 & -> & Hs3). ubind.
  assert (node_at ns3 x = Some (set_prev kInvalid n)) as Hn3.
  { destruct Hs3 as [_ Hs3]. by rewrite Hs3, decide_True, Hn2. }
  destruct (upd_ok (set_next kInvalid) x (with_nodes ns3 c2) _ Hn3) as (ns4 & -> & Hs4).
  apply NoDup_app in Hnd as (_ & Hdis & [Hx2 _]%NoDup_cons).
  assert (x ∉ l1 ++ l2) as Hx.
  { intros [Hx|?]%elem_of_app; [|done]. apply (Hdis x Hx). left. }
  assert (x ∈ l1 ++ x :: l2) as Hin by (apply elem_of_app; right; left).
  eexists. split; [done|]. split.
  - split_and!; simpl; [|congruence|done].
    apply (links_stored _ _ _ _ _ _ _ Hs4 Hx), (links_stored _ _ _ _ _ _ _ Hs3 Hx), Hl.
  - etrans; [exact Hr1|]. etrans; [exact Hr2|].
    etrans; [by eapply (relinked_upd _ _ _ _ _ Hs3); eauto|].
    eapply (relinked_upd _ _ _ _ _ Hs4); eauto.
Qed.

Lemma push_front_lru_ok c x l n :
  dll c l → NoDup l → x ∉ l → node_at (nodes_ c) x = Some n →
  ∃ c', push_front_lru x c = Some c' ∧ dll c' (x :: l) ∧ relinked (x :: l) c c'.
Proof.
  intros (Hl & Hh & Ht) Hnd Hx Hn. unfold push_front_lru.
  destruct (upd_ok (set_prev kInvalid) x c n Hn) as (ns1 & -> & Hs1). ubind.
  assert (node_at ns1 x = Some (set_prev kInvalid n)) as Hn1.
  { destruct Hs1 as [_ ->]. by rewrite decide_True, Hn. }
  destruct (upd_ok (set_next (lru_head_ (with_nodes ns1 c))) x (with_nodes ns1 c) _ Hn1)
    as (ns2 & -> & Hs2). ubind. cbn [nodes_ with_nodes lru_head_] in Hs2.
  change (with_nodes ns2 (with_nodes ns1 c)) with (with_nodes ns2 c).
  change (lru_head_ (with_nodes ns2 c)) with (lru_head_ c).
  assert (node_at ns2 x = Some (set_next (lru_head_ c) (set_prev kInvalid n))) as Hn2.
  { destruct Hs2 as [_ ->]. by rewrite decide_True, Hn1. }
  assert (links ns2 kInvalid l kInvalid) as Hl2
    by exact (links_stored _ _ _ _ _ _ _ Hs2 Hx (links_stored _ _ _ _ _ _ _ Hs1 Hx Hl)).
  assert (relinked (x :: l) c (with_nodes ns2 c)) as Hr2.
  { etrans; [apply (relinked_upd _ _ _ _ _ Hs1); [left|eauto]|].
    apply (relinked_upd _ _ _ (with_nodes ns1 c) _ Hs2); [left|eauto]. }
  rewrite Hh in Hn2 |- *. destruct l as [|y l].
  - rewrite bool_decide_false by (unfold hd_or; simpl; lia). ubind. eexists. split; [done|].
    cbn [lru_tail_ with_head with_nodes]. rewrite Ht. rewrite bool_decide_true by done.
    split; [|etrans; [exact Hr2|etrans; [apply relinked_head|apply relinked_tail]]].
    split_and!; [|done|done]. split; [|done]. by eexists.
  - change (hd_or kInvalid (y :: l)) with y in *.
    rewrite bool_decide_true by (eapply (links_ends _ _ _ _ _ Hl); left).
    destruct (links_in _ _ _ _ y Hl2) as [m Hm]; [left|].
    destruct (upd_ok (set_prev x) y (with_nodes ns2 c) m Hm) as (ns3 & -> & Hs3). ubind.
    cbn [nodes_ with_nodes] in Hs3. eexists. split; [done|].
    cbn [lru_tail_ with_head with_nodes]. rewrite Ht.
    assert (last_or kInvalid (y :: l) ≠ kInvalid) as Hlast.
    { apply (links_ends _ _ _ _ _ Hl). rewrite last_or_cons. unfold last_or.
      destruct (last l) as [z|] eqn:Hz; [right; by apply last_Some_elem_of in Hz|left]. }
    rewrite bool_decide_false by done.
    split; [|etrans; [exact Hr2|]; etrans; [|apply relinked_head]].
    + apply not_elem_of_cons in Hx as [Hxy Hx].
      split_and!; [|done|simpl; by rewrite Ht]. split.
      * eexists. split; [destruct Hs3 as [_ ->]; by rewrite decide_False|done].
      * eapply links_set_first; [exact Hs3|by apply NoDup_cons in Hnd as [? _]|exact Hl2].
    + apply (relinked_upd _ _ _ (with_nodes ns2 c) _ Hs3); [right; left|eauto].
Qed.

(** ** The hash chains *)

(** The search along a chain returns the first node that holds the key. *)
Lemma find_loop_ok fuel k ns h ch :
  chain hash_next ns h ch → (length ch < fuel)%nat →
  ∃ r, find_loop fuel k h ns = Some r ∧
    match r with
    | Some x => x ∈ ch ∧ ∃ n, node_at ns x = Some n ∧ occupied n = true ∧ key n = k
    | None => ∀ x n, x ∈ ch → node_at ns x = Some n → occupied n = true → key n ≠ k
    end.
Proof.
  unfold chain. revert h ch. induction fuel as [|fuel IH]; intros h ch Hch Hf; [lia|].
  cbn [find_loop]. destruct ch as [|x ch]; simpl in Hch.
  { subst h. rewrite bool_decide_false by tauto. exists None. split; [done|].
    by intros x n ?%not_elem_of_nil. }
  destruct Hch as (-> & n & Hn & Hch). pose proof (node_at_nonneg _ _ _ Hn).
  rewrite bool_decide_true by (unfold kInvalid; lia). rewrite Hn. ubind.
  destruct (occupied n && bool_decide (key n = k)) eqn:Hhit.
  - apply andb_true_iff in Hhit as [Ho Hk%bool_decide_eq_true].
    exists (Some x). split; [done|]. split; [left|eauto].
  - destruct (IH (hash_next n) ch Hch) as (r & -> & Hr); [simpl in Hf; lia|]. exists r. split; [done|].
    destruct r as [y|].
    + destruct Hr as [Hy Hn']. split; [by right|done].
    + intros y m [->|Hy]%elem_of_cons Hm Ho; [|by eapply Hr]. simplify_eq.
      rewrite Ho in Hhit. by apply bool_decide_eq_false in Hhit.
Qed.

(** Only hash links of the nodes [S], and bucket [b], differ. *)
Definition rechained (S : list Z) (b : Z) (c c' : IdempotencyCache) : Prop :=
  bucket_mask_ c' = bucket_mask_ c ∧ lru_head_ c' = lru_head_ c ∧ lru_tail_ c' = lru_tail_ c ∧
  free_head_ c' = free_head_ c ∧ size_ c' = size_ c ∧
  length (nodes_ c') = length (nodes_ c) ∧ length (buckets_ c') = length (buckets_ c) ∧
  (∀ d, d ≠ b → bucket_at (buckets_ c') d = bucket_at (buckets_ c) d) ∧
  (∀ y, y ∉ S → node_at (nodes_ c') y = node_at (nodes_ c) y) ∧
  (∀ y n, node_at (nodes_ c) y = Some n → ∃ n', node_at (nodes_ c') y = Some n' ∧
    key n' = key n ∧ prev n' = prev n ∧ next n' = next n ∧ occupied n' = occupied n).

#[export] Instance rechained_preorder S b : PreOrder (rechained S b).
Proof.
  split.
  - intros c. repeat split; eauto 10.
  - intros c1 c2 c3 (?&?&?&?&?&?&?&Hb&Hf&Hd) (?&?&?&?&?&?&?&Hb'&Hf'&Hd'). split_and!; try congruence.
    + intros d Hdb. by rewrite Hb', Hb.
    + intros y Hy. by rewrite Hf', Hf.
    + intros y n (n' & Hn' & ? & ? & ? & ?)%Hd. destruct (Hd' y n' Hn') as (n'' & ? & ? & ? & ? & ?).
      exists n''. split_and!; congruence.
Qed.

Lemma rechained_upd S b v i c ns' :
  stored (set_hash_next v) i (nodes_ c) ns' → i ∈ S → rechained S b c (with_nodes ns' c).
Proof.
  intros [Hl Hs] Hi. split_and!; try done; simpl.
  - intros y Hy. rewrite Hs, decide_False; [done|]. by intros ->.
  - intros y n Hn. rewrite Hs. case_decide as Hyi; [subst y; rewrite Hn|]; eexists; split_and!; try done.
Qed.

Lemma bucket_at_insert bs b v d x :
  bucket_at bs b = Some x →
  bucket_at (<[Z.to_nat b := v]> bs) d = if decide (d = b) then Some v else bucket_at bs d.
Proof.
  unfold bucket_at. case_bool_decide as Hb; [|done]. intros Hl%lookup_lt_Some.
  destruct (decide (d = b)) as [->|Hne].
  - rewrite bool_decide_true by done. by apply list_lookup_insert_eq.
  - case_bool_decide; [|done]. apply list_lookup_insert_ne. lia.
Qed.

Lemma rechained_bucket S b v c x :
  bucket_at (buckets_ c) b = Some x →
  rechained S b c (with_buckets (<[Z.to_nat b := v]> (buckets_ c)) c).
Proof.
  intros Hb. split_and!; try done; simpl.
  - apply length_insert.
  - intros d Hd. rewrite (bucket_at_insert _ _ _ _ _ Hb). by rewrite decide_False.
  - intros y n Hn. by exists n.
Qed.

Lemma seg_set_last ns ns' h l y m m' :
  stored (set_hash_next m') y ns ns' → y ∉ l →
  seg hash_next ns h (l ++ [y]) m → seg hash_next ns' h (l ++ [y]) m'.
Proof.
  intros Hs Hy. rewrite !seg_app. intros (j & Hl & -> & n & Hn & _). exists y. split.
  - by eapply seg_stored.
  - split; [done|]. exists (set_hash_next m' n). destruct Hs as [_ ->]. by rewrite decide_True, Hn.
Qed.

(** Taking node [x] out of its chain, once the walk has reached it. *)
Lemma remove_here b x c h dn n ch2 :
  bucket_at (buckets_ c) b = Some h → seg hash_next (nodes_ c) h dn x →
  node_at (nodes_ c) x = Some n → chain hash_next (nodes_ c) (hash_next n) ch2 →
  NoDup (dn ++ x :: ch2) →
  ∃ c', (c ← (if bool_decide (last_or kInvalid dn = kInvalid)
              then Some (with_buckets (<[Z.to_nat b := hash_next n]> (buckets_ c)) c)
              else upd (set_hash_next (hash_next n)) (last_or kInvalid dn) c);
         upd (set_hash_next kInvalid) x c) = Some c' ∧
    rechained (dn ++ x :: ch2) b c c' ∧
    ∃ h', bucket_at (buckets_ c') b = Some h' ∧ chain hash_next (nodes_ c') h' (dn ++ ch2).
Proof.
  intros Hb Hdn Hn Hch Hnd. apply NoDup_app in Hnd as (Hnd1 & Hdis & [Hx2 _]%NoDup_cons).
  assert (x ∈ dn ++ x :: ch2) as Hin by (apply elem_of_app; right; left).
  destruct dn as [|p dn' _] using rev_ind.
  - rewrite bool_decide_true by done. ubind.
    destruct (upd_ok (set_hash_next kInvalid) x
      (with_buckets (<[Z.to_nat b := hash_next n]> (buckets_ c)) c) n Hn) as (ns' & -> & Hs).
    eexists. split; [done|]. split.
    + etrans; [by apply (rechained_bucket _ _ (hash_next n) _ h Hb)|]. by apply (rechained_upd _ _ _ _ _ _ Hs).
    + exists (hash_next n). split; [simpl; by rewrite (bucket_at_insert _ _ _ _ _ Hb), decide_True|].
      by apply (seg_stored _ _ _ _ _ _ _ _ Hs).
  - rewrite last_or_app. assert (p ∈ dn' ++ [p]) as Hp by (apply elem_of_app; right; left).
    destruct (seg_in _ _ _ _ _ _ Hdn Hp) as [np Hnp]. pose proof (node_at_nonneg _ _ _ Hnp).
    rewrite bool_decide_false by (unfold kInvalid; lia).
    destruct (upd_ok (set_hash_next (hash_next n)) p c np Hnp) as (ns1 & -> & Hs1). ubind.
    pose proof (Hdis p Hp) as [Hpx Hp2]%not_elem_of_cons.
    assert (node_at ns1 x = Some n) as Hn1.
    { destruct Hs1 as [_ ->]. by rewrite decide_False by congruence. }
    destruct (upd_ok (set_hash_next kInvalid) x (with_nodes ns1 c) n Hn1) as (ns2 & -> & Hs2).
    eexists. split; [done|]. split.
    + etrans; [apply (rechained_upd _ b _ _ _ _ Hs1); by apply elem_of_app; left|].
      by apply (rechained_upd _ _ _ _ (with_nodes ns1 c) _ Hs2).
    + exists h. split; [done|]. simpl. eapply seg_stored; [exact Hs2| |].
      { intros [Hx|?]%elem_of_app; [|done]. apply (Hdis x Hx). left. }
      apply seg_app. exists (hash_next n). split.
      * eapply seg_set_last; [exact Hs1| |exact Hdn].
        apply NoDup_app in Hnd1 as (_ & Hd & _). intros Hy. apply (Hd p Hy). left.
      * by eapply seg_stored.
Qed.

Lemma remove_loop_ok fuel b x c h dn cur ch1 ch2 :
  bucket_at (buckets_ c) b = Some h → seg hash_next (nodes_ c) h dn cur →
  chain hash_next (nodes_ c) cur (ch1 ++ x :: ch2) → NoDup (dn ++ ch1 ++ x :: ch2) →
  (length ch1 < fuel)%nat →
  ∃ c', remove_loop fuel b x (last_or kInvalid dn) cur c = Some c' ∧
    rechained (dn ++ ch1 ++ x :: ch2) b c c' ∧
    ∃ h', bucket_at (buckets_ c') b = Some h' ∧ chain hash_next (nodes_ c') h' (dn ++ ch1 ++ ch2).
Proof.
  revert dn cur ch1. induction fuel as [|fuel IH]; intros dn cur ch1 Hb Hdn Hch Hnd Hf; [lia|].
  cbn [remove_loop]. destruct ch1 as [|y ch1]; destruct Hch as (-> & n & Hn & Hch);
    pose proof (node_at_nonneg _ _ _ Hn); rewrite bool_decide_true by (unfold kInvalid; lia);
    rewrite Hn; ubind.
  - rewrite (bool_decide_true (x = x)) by done. simpl in *. by apply (remove_here b x c h dn n ch2).
  - assert (y ≠ x) as Hyx.
    { intros ->. apply NoDup_app in Hnd as (_ & _ & Hnd). simpl in Hnd.
      apply NoDup_cons in Hnd as [Hni _]. apply Hni, elem_of_app. right. left. }
    rewrite (bool_decide_false (y = x)) by done.
    assert (∀ l, dn ++ (y :: ch1) ++ l = (dn ++ [y]) ++ ch1 ++ l) as Hmid
      by (intros l; by rewrite <- app_assoc).
    rewrite !Hmid in *. destruct (IH (dn ++ [y]) (hash_next n) ch1) as (c' & Hrun & Hr & Hc'); try done.
    { apply seg_app. exists y. split; [done|]. split; [done|]. by exists n. }
    { simpl in Hf. lia. }
    rewrite last_or_app in Hrun. by exists c'.
Qed.

(** ** Representation *)

Section Refinement.
Variable hash64 : Z → Z.
#[local] Abbreviation bucket := (bucket_for hash64).

(** Every bucket's chain holds exactly the nodes whose keys belong there. *)
Definition hashed (c : IdempotencyCache) (lru : list (Z * IdempotencyKey)) : Prop :=
  ∀ k, ∃ h ch, bucket_at (buckets_ c) (bucket k c) = Some h ∧ chain hash_next (nodes_ c) h ch ∧
    NoDup ch ∧ ∀ i, i ∈ ch ↔ ∃ k', (i, k') ∈ lru ∧ bucket k' c = bucket k c.

(** The cache [c] of capacity [cap] represents the entries [lru] (node and key,
    most recent first), with the free nodes [free]; [held] are nodes taken out of
    both lists in the middle of an operation. *)
Record rep (cap : nat) (c : IdempotencyCache) (lru : list (Z * IdempotencyKey))
    (free held : list Z) : Prop := mkRep {
  rep_len : length (nodes_ c) = cap;
  rep_count : (length lru + length free + length held = cap)%nat;
  rep_size : size_ c = Z.of_nat (length lru + length held);
  rep_cap : Z.of_nat cap < 2147483648;
  rep_dll : dll c lru.*1;
  rep_free : chain next (nodes_ c) (free_head_ c) free;
  rep_held : ∀ x, x ∈ held → ∃ n, node_at (nodes_ c) x = Some n;
  rep_nodup : NoDup (lru.*1 ++ free ++ held);
  rep_nodes : ∀ i k, (i, k) ∈ lru → ∃ n, node_at (nodes_ c) i = Some n ∧ occupied n = true ∧ key n = k;
  rep_keys : NoDup lru.*2;
  rep_hashed : hashed c lru
}.

Lemma entry_in (i : Z) k (lru : list (Z * IdempotencyKey)) : (i, k) ∈ lru → i ∈ lru.*1.
Proof. intros H. apply list_elem_of_fmap. by exists (i, k). Qed.

(** An index determines its entry. *)
Lemma entry_unique (i : Z) k k' (lru : list (Z * IdempotencyKey)) :
  NoDup lru.*1 → (i, k) ∈ lru → (i, k') ∈ lru → k = k'.
Proof.
  induction lru as [|[j kj] lru IH]; csimpl; [by intros _ ?%not_elem_of_nil|].
  intros [Hj Hnd]%NoDup_cons [H1|H1]%elem_of_cons [H2|H2]%elem_of_cons; simplify_eq; auto;
    exfalso; eauto using entry_in.
Qed.

Lemma hashed_frame c c' lru :
  buckets_ c' = buckets_ c → bucket_mask_ c' = bucket_mask_ c →
  (∀ i n, i ∈ lru.*1 → node_at (nodes_ c) i = Some n →
    ∃ n', node_at (nodes_ c') i = Some n' ∧ hash_next n' = hash_next n) →
  hashed c lru → hashed c' lru.
Proof.
  intros Hb Hm Hf Hh k. assert (∀ k, bucket k c' = bucket k c) as Hbk
    by (intros; unfold bucket_for; by rewrite Hm).
  destruct (Hh k) as (h & ch & Hbh & Hch & Hnd & Hin). exists h, ch. rewrite Hb, Hbk.
  split_and!; [done| |done|].
  - eapply seg_frame; [|exact Hch]. intros x n (k' & Hx & _)%Hin. apply Hf. by eapply entry_in.
  - intros i. rewrite Hin. by setoid_rewrite Hbk.
Qed.

Lemma hashed_perm c lru lru' : lru ≡ₚ lru' → hashed c lru → hashed c lru'.
Proof.
  intros Hp Hh k. destruct (Hh k) as (h & ch & Hb & Hch & Hnd & Hin).
  exists h, ch. split_and!; try done. intros i. rewrite Hin. by setoid_rewrite Hp.
Qed.

(** Rearranging the recency list of represented nodes. *)
Lemma rep_relink cap c c' lru lru' free held S :
  rep cap c lru free held → lru' ≡ₚ lru → dll c' lru'.*1 → relinked S c c' →
  (∀ y, y ∈ S → y ∈ lru.*1) → rep cap c' lru' free held.
Proof.
  intros [Hlen Hcnt Hsz Hcap _ Hfree Hheld Hnd Hnodes Hkeys Hh] Hp Hd
    (Hb & Hm & Hfh & Hs & Hl & Hfr & Hdata) HS.
  assert (∀ y, y ∈ free ++ held → node_at (nodes_ c') y = node_at (nodes_ c) y) as Hout.
  { intros y Hy. apply Hfr. intros HyS%HS. apply NoDup_app in Hnd as (_ & Hdis & _).
    by apply (Hdis y HyS). }
  split; try done.
  - congruence.
  - by rewrite Hp.
  - rewrite Hs, Hsz. by rewrite Hp.
  - rewrite Hfh. eapply seg_frame; [|exact Hfree]. intros x n Hx Hn. exists n. split; [|done].
    rewrite Hout; [done|]. apply elem_of_app. by left.
  - intros x Hx. rewrite Hout; [by apply Hheld|]. apply elem_of_app. by right.
  - by rewrite Hp.
  - intros i k Hik. rewrite Hp in Hik. destruct (Hnodes i k Hik) as (n & Hn & Ho & Hk).
    destruct (Hdata i n Hn) as (n' & Hn' & ? & ? & ?). exists n'. split_and!; congruence.
  - by rewrite Hp.
  - eapply hashed_perm; [symmetry; exact Hp|]. eapply hashed_frame; [done..| |exact Hh].
    intros i n _ Hn. destruct (Hdata i n Hn) as (n' & ? & ? & ? & ?). eauto.
Qed.

(** Moving an entry to the front. *)
Lemma touch_ok cap c l1 x k l2 free :
  rep cap c (l1 ++ (x, k) :: l2) free [] →
  ∃ c1 c2, unlink_lru x c = Some c1 ∧ push_front_lru x c1 = Some c2 ∧
    rep cap c2 ((x, k) :: l1 ++ l2) free [].
Proof.
  intros Hrep. pose proof (rep_dll _ _ _ _ _ Hrep) as Hd. pose proof (rep_nodup _ _ _ _ _ Hrep) as Hnd.
  rewrite fmap_app, fmap_cons in Hd, Hnd. cbn [fst] in Hd, Hnd.
  apply NoDup_app in Hnd as (Hnd & _ & _).
  destruct (unlink_lru_ok c l1.*1 x l2.*1 Hd Hnd) as (c1 & Hun & Hd1 & Hr1).
  assert ((x ∉ l1.*1 ++ l2.*1) ∧ NoDup (l1.*1 ++ l2.*1)) as [Hx Hnd1].
  { rewrite <- Permutation_middle in Hnd. by apply NoDup_cons in Hnd. }
  destruct (rep_nodes _ _ _ _ _ Hrep x k) as (n & Hn & _); [apply elem_of_app; right; left|].
  destruct Hr1 as (Hb & Hm & Hfh & Hs & Hl & Hfr & Hdata). destruct (Hdata x n Hn) as (n1 & Hn1 & _).
  destruct (push_front_lru_ok c1 x _ n1 Hd1 Hnd1 Hx Hn1) as (c2 & Hpush & Hd2 & Hr2).
  exists c1, c2. split_and!; [done..|].
  eapply (rep_relink cap c c2 _ _ _ _ (l1.*1 ++ x :: l2.*1) Hrep).
  - by rewrite Permutation_middle.
  - by rewrite fmap_cons, fmap_app.
  - etrans; [by split_and!|]. destruct Hr2 as (?&?&?&?&?&Hfr2&?). split_and!; try done.
    intros y Hy. apply Hfr2. by rewrite Permutation_middle.
  - by rewrite fmap_app, fmap_cons.
Qed.

(** Taking a node from the free list. *)
Lemma take_free_ok cap c lru x free :
  rep cap c lru (x :: free) [] →
  ∃ n c', free_head_ c = x ∧ node_at (nodes_ c) x = Some n ∧
    upd (set_next kInvalid) x (with_free (next n) (wrap64 (size_ c + 1)) c) = Some c' ∧
    bucket_mask_ c' = bucket_mask_ c ∧ rep cap c' lru free [x].
Proof.
  intros [Hlen Hcnt Hsz Hcap (Hl & Hh & Ht) (Hfx & n & Hn & Hfree) Hheld Hnd Hnodes Hkeys Hhs].
  rewrite app_nil_r in Hnd. exists n.
  destruct (upd_ok (set_next kInvalid) x (with_free (next n) (wrap64 (size_ c + 1)) c) n Hn)
    as (ns' & Hupd & Hst). exists (with_nodes ns' (with_free (next n) (wrap64 (size_ c + 1)) c)).
  split_and!; [done..|].
  pose proof Hnd as (_ & Hdis & [Hxf _]%NoDup_cons)%NoDup_app. pose proof Hst as [Hl' Hs]. simpl in Hl', Hs.
  assert (x ∉ lru.*1) as Hxl by (intros Hx; apply (Hdis x Hx); left).
  simpl in Hcnt. split; simpl; try done.
  - lia.
  - lia.
  - rewrite Hsz, wrap64_id; simpl; range_lia.
  - split_and!; [|done..]. by apply (links_stored _ _ _ _ _ _ _ Hst).
  - by apply (seg_stored _ _ _ _ _ _ _ _ Hst).
  - intros y [->|?%not_elem_of_nil]%elem_of_cons; [|done]. rewrite Hs, decide_True, Hn by done. by eexists.
  - by rewrite <- Permutation_cons_append.
  - intros i k Hik. rewrite Hs, decide_False; [by apply Hnodes|]. intros ->. by eapply Hxl, entry_in.
  - apply (hashed_frame c); [done|done| |exact Hhs]. intros i m Hi Hm. exists m. simpl. rewrite Hs.
    rewrite decide_False; [done|]. by intros ->.
Qed.

(** Dropping the chain entry of the last node of the recency list. *)
Lemma evict_chain_ok cap c l x k0 :
  rep cap c (l ++ [(x, k0)]) [] [] →
  ∃ c1, remove_from_bucket hash64 x c = Some c1 ∧ hashed c1 l ∧
    rechained (l.*1 ++ [x]) (bucket k0 c) c c1.
Proof.
  intros [Hlen Hcnt Hsz Hcap Hd Hfree Hheld Hnd Hnodes Hkeys Hhs].
  rewrite !app_nil_r, fmap_app in Hnd. cbn [fmap list_fmap fst] in Hnd.
  assert (NoDup (l ++ [(x, k0)]).*1) as Hnd' by by rewrite fmap_app.
  assert ((x, k0) ∈ l ++ [(x, k0)]) as Hin by (apply elem_of_app; right; left).
  destruct (Hnodes x k0 Hin) as (n & Hn & _ & Hk).
  destruct (Hhs k0) as (h & ch & Hb & Hch & Hndc & Hinc).
  assert (x ∈ ch) as (ch1 & ch2 & ->)%list_elem_of_split by (apply Hinc; eauto).
  unfold remove_from_bucket. rewrite Hn. ubind. rewrite Hk, Hb. ubind.
  destruct (remove_loop_ok (S (length (nodes_ c))) (bucket k0 c) x c h [] h ch1 ch2)
    as (c1 & Hrun & Hr & h' & Hb' & Hch'); try done.
  { pose proof (indices_bound (nodes_ c) _ Hndc (λ y Hy, seg_in _ _ _ _ _ y Hch Hy)) as Hle.
    rewrite length_app in Hle. lia. }
  exists c1. split; [done|]. simpl in Hr.
  assert ((x ∉ ch1 ++ ch2) ∧ NoDup (ch1 ++ ch2)) as [Hx12 Hnd12].
  { rewrite <- Permutation_middle in Hndc. by apply NoDup_cons in Hndc. }
  pose proof Hr as (Hm & _ & _ & _ & _ & _ & _ & Hother & Hfr & _).
  assert (∀ k, bucket k c1 = bucket k c) as Hbk by (intros; unfold bucket_for; by rewrite Hm).
  assert (∀ i k, (i, k) ∈ l ↔ (i, k) ∈ l ++ [(x, k0)] ∧ i ≠ x) as Hl.
  { intros i k. rewrite elem_of_app, list_elem_of_singleton. split; [|naive_solver].
    intros Hi. split; [by left|]. intros ->. apply NoDup_app in Hnd as (_ & Hdis & _).
    apply (Hdis x); [by eapply entry_in|left]. }
  split.
  - intros k. rewrite !Hbk. destruct (decide (bucket k c = bucket k0 c)) as [->|Hne].
    + exists h', (ch1 ++ ch2). split_and!; [done..|]. intros i.
      setoid_rewrite Hl. setoid_rewrite Hbk. specialize (Hinc i).
      rewrite elem_of_app, elem_of_cons in Hinc. rewrite elem_of_app. split.
      * intros Hi. destruct Hinc as [(k' & Hk' & Hbk') _]; [tauto|]. exists k'. split_and!; try done.
        intros ->. apply Hx12, elem_of_app. tauto.
      * intros (k' & (Hk' & Hix) & Hbk'). destruct Hinc as [_ [?|[?|?]]]; eauto. done.
    + destruct (Hhs k) as (hk & chk & Hbk1 & Hchk & Hndk & Hink). exists hk, chk.
      rewrite Hother by done. split_and!; [done| |done|].
      * eapply seg_frame; [|exact Hchk]. intros y m Hy Hm'. exists m. split; [|done]. rewrite Hfr; [done|].
        intros Hyc%Hinc. apply Hink in Hy as (ky & Hky & Hbky). destruct Hyc as (ky' & Hky' & Hbky').
        rewrite (entry_unique _ _ _ _ Hnd' Hky Hky') in Hbky. congruence.
      * intros i. rewrite Hink. setoid_rewrite Hl. setoid_rewrite Hbk. split.
        -- intros (k' & Hk' & Hbk'). exists k'. split_and!; try done. intros ->.
           rewrite (entry_unique _ _ _ _ Hnd' Hk' Hin) in Hbk'. congruence.
        -- intros (k' & (Hk' & _) & Hbk'). eauto.
  - destruct Hr as (?&?&?&?&?&?&?&?&_&?). split_and!; try done.
    intros y Hy. apply Hfr. intros (k' & Hk' & _)%Hinc. apply Hy. apply entry_in in Hk'.
    by rewrite fmap_app in Hk'.
Qed.

(** Evicting the least recently used entry. *)
Lemma evict_ok cap c l x k0 :
  rep cap c (l ++ [(x, k0)]) [] [] →
  ∃ c1 c2, lru_tail_ c = x ∧ remove_from_bucket hash64 x c = Some c1 ∧ unlink_lru x c1 = Some c2 ∧
    free_head_ c = kInvalid ∧ bucket_mask_ c2 = bucket_mask_ c ∧ rep cap c2 l [] [x].
Proof.
  intros Hrep. destruct (evict_chain_ok cap c l x k0 Hrep) as (c1 & Hrm & Hh1 & Hr1).
  destruct Hrep as [Hlen Hcnt Hsz Hcap (Hl & Hh & Ht) Hfree Hheld Hnd Hnodes Hkeys Hhs].
  rewrite !app_nil_r in Hnd. rewrite (fmap_app fst) in Hl, Hh, Ht, Hnd.
  rewrite (fmap_app snd) in Hkeys. cbn [fmap list_fmap fst snd] in *.
  destruct Hr1 as (Hm & Hhd & Htl & Hfh & Hs & Hlen1 & _ & _ & _ & Hdata).
  assert (dll c1 (l.*1 ++ [x])) as Hd1.
  { split_and!; [|congruence..]. eapply links_frame; [|exact Hl]. intros y m _ Hm1.
    destruct (Hdata y m Hm1) as (m' & ? & ? & ? & ? & ?). eauto. }
  destruct (unlink_lru_ok c1 l.*1 x [] Hd1 Hnd) as (c2 & Hun & Hd2 & Hr2).
  rewrite app_nil_r in Hd2. destruct Hr2 as (Hb2 & Hm2 & Hfh2 & Hs2 & Hlen2 & _ & Hdata2).
  assert (∀ y n, node_at (nodes_ c) y = Some n → ∃ n', node_at (nodes_ c2) y = Some n' ∧
    key n' = key n ∧ occupied n' = occupied n) as Hdata3.
  { intros y n Hn. destruct (Hdata y n Hn) as (n' & Hn' & ? & _ & _ & ?).
    destruct (Hdata2 y n' Hn') as (n'' & ? & ? & _ & ?). exists n''. split_and!; congruence. }
  exists c1, c2. rewrite length_app in Hcnt, Hsz. simpl in Hcnt, Hsz.
  split_and!; [rewrite Ht; apply last_or_app|done|done|exact Hfree|congruence|]. split; simpl; try done.
  - congruence.
  - lia.
  - rewrite Hs2, Hs, Hsz. lia.
  - unfold chain in *. simpl in *. congruence.
  - intros y [->|?%not_elem_of_nil]%elem_of_cons; [|done].
    destruct (Hnodes x k0) as (n & Hn & _); [apply elem_of_app; right; left|].
    destruct (Hdata3 x n Hn) as (n' & ? & _). eauto.
  - intros i k Hik. destruct (Hnodes i k) as (n & Hn & Ho & Hk); [apply elem_of_app; by left|].
    destruct (Hdata3 i n Hn) as (n' & ? & ? & ?). exists n'. split_and!; congruence.
  - by apply NoDup_app in Hkeys as (? & _).
  - apply (hashed_frame c1); [done|done| |done]. intros i n _ Hn.
    destruct (Hdata2 i n Hn) as (n' & ? & ? & ? & ?). eauto.
Qed.

(** Entering a key at a held node: the chain part. *)
Lemma install_chain_ok cap c lru free x k :
  rep cap c lru free [x] →
  ∃ c1 h c2, upd (set_entry k) x c = Some c1 ∧ bucket_at (buckets_ c1) (bucket k c) = Some h ∧
    upd (set_hash_next h) x c1 = Some c2 ∧
    let c3 := with_buckets (<[Z.to_nat (bucket k c) := x]> (buckets_ c2)) c2 in
    hashed c3 ((x, k) :: lru) ∧ length (nodes_ c3) = length (nodes_ c) ∧
    lru_head_ c3 = lru_head_ c ∧ lru_tail_ c3 = lru_tail_ c ∧ free_head_ c3 = free_head_ c ∧
    size_ c3 = size_ c ∧
    (∀ y, y ≠ x → node_at (nodes_ c3) y = node_at (nodes_ c) y) ∧
    ∃ n, node_at (nodes_ c3) x = Some n ∧ occupied n = true ∧ key n = k.
Proof.
  intros [Hlen Hcnt Hsz Hcap Hd Hfree Hheld Hnd Hnodes Hkeys Hhs].
  destruct (Hheld x) as [n Hn]; [left|]. destruct (Hhs k) as (h & ch & Hb & Hch & Hndc & Hinc).
  assert (x ∉ lru.*1) as Hxl.
  { intros Hx. apply NoDup_app in Hnd as (_ & Hdis & _). apply (Hdis x Hx), elem_of_app. right. left. }
  destruct (upd_ok (set_entry k) x c n Hn) as (ns1 & Hu1 & Hl1 & Hs1).
  assert (node_at ns1 x = Some (set_entry k n)) as Hn1 by by rewrite Hs1, decide_True, Hn.
  destruct (upd_ok (set_hash_next h) x (with_nodes ns1 c) _ Hn1) as (ns2 & Hu2 & Hl2 & Hs2).
  simpl in Hl2, Hs2.
  exists (with_nodes ns1 c), h, (with_nodes ns2 (with_nodes ns1 c)). cbv zeta. split_and!; try done; simpl.
  - intros k'. change (bucket k' (with_buckets _ _)) with (bucket k' c). simpl.
    destruct (Hhs k') as (h' & ch' & Hb' & Hch' & Hndc' & Hinc').
    assert (∀ y m, y ∈ lru.*1 → node_at (nodes_ c) y = Some m →
      ∃ m', node_at ns2 y = Some m' ∧ hash_next m' = hash_next m) as Hfr.
    { intros y m Hy Hm. exists m. rewrite Hs2, decide_False, Hs1, decide_False; naive_solver. }
    destruct (decide (bucket k' c = bucket k c)) as [->|Hne].
    + exists x, (x :: ch). rewrite (bucket_at_insert _ _ _ _ _ Hb), decide_True by done.
      split_and!; [done| | |].
      * split; [done|]. exists (set_hash_next h (set_entry k n)).
        split; [by rewrite Hs2, decide_True, Hn1|]. eapply seg_frame; [|exact Hch].
        intros y m (k1 & Hk1 & _)%Hinc. apply Hfr. by eapply entry_in.
      * apply NoDup_cons. split; [|done]. intros (k1 & Hk1 & _)%Hinc. by eapply Hxl, entry_in.
      * intros i. rewrite elem_of_cons, Hinc. setoid_rewrite elem_of_cons. split.
        -- intros [->|(k1 & ? & ?)]; [by exists k; auto|exists k1; auto].
        -- intros (k1 & [?|?] & ?); [left; congruence|eauto].
    + exists h', ch'. rewrite (bucket_at_insert _ _ _ _ _ Hb), decide_False by done.
      split_and!; [done| |done|].
      * eapply seg_frame; [|exact Hch']. intros y m (k1 & Hk1 & _)%Hinc'. apply Hfr. by eapply entry_in.
      * intros i. rewrite Hinc'. setoid_rewrite elem_of_cons. split; [naive_solver|].
        intros (k1 & [Hk1|Hk1] & Hb1); [|eauto]. simplify_eq.
  - congruence.
  - intros y Hy. by rewrite Hs2, decide_False, Hs1, decide_False.
  - exists (set_hash_next h (set_entry k n)). by rewrite Hs2, decide_True, Hn1.
Qed.

Lemma install_ok cap c lru free x k :
  rep cap c lru free [x] → k ∉ lru.*2 →
  ∃ c1 h c2 c3, upd (set_entry k) x c = Some c1 ∧ bucket_at (buckets_ c1) (bucket k c) = Some h ∧
    upd (set_hash_next h) x c1 = Some c2 ∧
    push_front_lru x (with_buckets (<[Z.to_nat (bucket k c) := x]> (buckets_ c2)) c2) = Some c3 ∧
    rep cap c3 ((x, k) :: lru) free [].
Proof.
  intros Hrep Hk. destruct (install_chain_ok cap c lru free x k Hrep)
    as (c1 & h & c2 & Hu1 & Hb & Hu2 & Hall). cbv zeta in Hall.
  set (c3 := with_buckets _ c2) in *.
  destruct Hall as (Hh3 & Hlen3 & Hhd3 & Htl3 & Hfh3 & Hsz3 & Hfr3 & n3 & Hn3 & Ho3 & Hk3).
  destruct Hrep as [Hlen Hcnt Hsz Hcap (Hl & Hh & Ht) Hfree Hheld Hnd Hnodes Hkeys Hhs].
  pose proof Hnd as (Hndl & Hdis & (_ & Hdisf & _)%NoDup_app)%NoDup_app.
  assert (x ∉ lru.*1) as Hxl by (intros Hx; apply (Hdis x Hx), elem_of_app; right; left).
  assert (x ∉ free) as Hxf by (intros Hx; apply (Hdisf x Hx); left).
  assert (dll c3 lru.*1) as Hd3.
  { split_and!; [|congruence..]. eapply links_frame; [|exact Hl]. intros y m Hy Hm. exists m.
    rewrite Hfr3; [done|]. by intros ->. }
  destruct (push_front_lru_ok c3 x lru.*1 n3 Hd3 Hndl Hxl Hn3) as (c4 & Hpush & Hd4 & Hr4).
  exists c1, h, c2, c4. split_and!; try done.
  destruct Hr4 as (Hb4 & Hm4 & Hfh4 & Hs4 & Hlen4 & Hfr4 & Hdata4).
  simpl in Hcnt, Hsz. split; simpl; try done.
  - congruence.
  - lia.
  - rewrite Hs4, Hsz3, Hsz. lia.
  - rewrite Hfh4, Hfh3. eapply seg_frame; [|exact Hfree]. intros y m Hy Hm. exists m. split; [|done].
    rewrite Hfr4, Hfr3; [done|by intros ->|]. rewrite not_elem_of_cons. split; [by intros ->|].
    intros Hyl. apply (Hdis y Hyl), elem_of_app. by left.
  - by intros y ?%not_elem_of_nil.
  - rewrite app_nil_r. rewrite (app_assoc lru.*1), <- Permutation_cons_append in Hnd. done.
  - intros i ki [Hik|Hik]%elem_of_cons.
    + simplify_eq. destruct (Hdata4 x n3 Hn3) as (m & Hm & ? & ? & ?). exists m. split_and!; congruence.
    + destruct (Hnodes i ki Hik) as (m & Hm & Ho & Hkm).
      destruct (Hdata4 i m) as (m' & ? & ? & ? & ?).
      { rewrite Hfr3; [done|]. intros ->. by eapply Hxl, entry_in. }
      exists m'. split_and!; congruence.
  - by apply NoDup_cons.
  - apply (hashed_frame c3); [done|done| |done]. intros i m _ Hm.
    destruct (Hdata4 i m Hm) as (m' & ? & ? & ? & ?). eauto.
Qed.

Lemma filter_ne_id (k : IdempotencyKey) (l : list IdempotencyKey) : k ∉ l → filter (λ k', k' ≠ k) l = l.
Proof.
  induction l as [|y l IH]; [done|]. intros [Hy Hl]%not_elem_of_cons.
  rewrite filter_cons_True by done. by rewrite IH.
Qed.

Lemma filter_ne_middle (k : IdempotencyKey) l1 l2 :
  NoDup (l1 ++ k :: l2) → filter (λ k', k' ≠ k) (l1 ++ k :: l2) = l1 ++ l2.
Proof.
  intros (_ & Hdis & [Hk2 _]%NoDup_cons)%NoDup_app.
  rewrite filter_app, filter_cons_False by tauto. rewrite !filter_ne_id; [done|done|].
  intros Hk. apply (Hdis k Hk). left.
Qed.

(** One operation refines the abstract one. *)
Lemma check_and_insert_refines cap c lru free k :
  (0 < cap)%nat → rep cap c lru free [] →
  ∃ b c' lru' free', check_and_insert hash64 k c = Some (b, c') ∧ rep cap c' lru' free' [] ∧
    lru_check cap k lru.*2 = (b, lru'.*2).
Proof.
  intros Hpos Hrep. pose proof Hrep as [Hlen Hcnt _ _ _ Hfree _ Hnd Hnodes Hkeys Hhs].
  destruct (Hhs k) as (h & ch & Hb & Hch & Hndc & Hinc). unfold check_and_insert. rewrite Hb. ubind.
  destruct (find_loop_ok (S (length (nodes_ c))) k (nodes_ c) h ch Hch) as (r & -> & Hr).
  { apply Nat.lt_succ_r, (indices_bound _ _ Hndc). intros y. by apply (seg_in _ _ _ _ _ y Hch). }
  ubind. destruct r as [x|].
  - destruct Hr as (Hx & n & Hn & _ & Hk). apply Hinc in Hx as (k' & Hx & _).
    destruct (Hnodes x k' Hx) as (n' & Hn' & _ & Hk').
    assert (k' = k) as -> by congruence.
    apply list_elem_of_split in Hx as (l1 & l2 & ->).
    destruct (touch_ok cap c l1 x k l2 free Hrep) as (c1 & c2 & -> & Hpush & Hrep2).
    ubind. rewrite Hpush. ubind. do 4 eexists. split_and!; [done|exact Hrep2|].
    unfold lru_check. rewrite fmap_app, fmap_cons in Hkeys |- *. cbn [snd] in *.
    rewrite decide_True by (apply elem_of_app; right; left).
    by rewrite filter_ne_middle, fmap_cons, fmap_app.
  - assert (k ∉ lru.*2) as Hk.
    { intros ([i k'] & -> & Hi)%list_elem_of_fmap. destruct (Hnodes i k' Hi) as (n & Hn & Ho & Hk).
      by apply (Hr i n); [apply Hinc; eauto|..]. }
    unfold lru_check. rewrite decide_False by done. destruct free as [|x free].
    + destruct lru as [|[x k0] l _] using rev_ind; [simpl in Hcnt; lia|].
      destruct (evict_ok cap c l x k0 Hrep) as (c1 & c2 & Ht & Hrm & Hun & Hf & Hm & Hrep2).
      rewrite Hf, bool_decide_false, Ht, Hrm by tauto. ubind. rewrite Hun. ubind.
      rewrite fmap_app, elem_of_app in Hk.
      destruct (install_ok cap c2 l [] x k Hrep2) as (c3 & hb & c4 & c5 & Hu1 & Hb3 & Hu2 & Hp & Hrep5);
        [tauto|]. assert (bucket k c2 = bucket k c) as Hbk by (unfold bucket_for; by rewrite Hm).
      rewrite Hbk in Hb3, Hp. rewrite Hu1. ubind. rewrite Hb3. ubind. rewrite Hu2. ubind. rewrite Hp. ubind.
      do 4 eexists. split_and!; [done|exact Hrep5|]. f_equal.
      rewrite length_app in Hcnt. simpl in Hcnt. rewrite !fmap_cons, fmap_app. simpl.
      destruct cap as [|cap]; [lia|]. simpl. f_equal. rewrite take_app_length'; [done|].
      rewrite length_fmap. lia.
    + destruct (take_free_ok cap c lru x free Hrep) as (n & c1 & Hfx & Hn & Hu & Hm & Hrep1).
      rewrite Hfx. pose proof (node_at_nonneg _ _ _ Hn).
      rewrite bool_decide_true, Hn by (unfold kInvalid; lia). ubind. rewrite Hu. ubind.
      destruct (install_ok cap c1 lru free x k Hrep1 Hk)
        as (c3 & hb & c4 & c5 & Hu1 & Hb3 & Hu2 & Hp & Hrep5).
      assert (bucket k c1 = bucket k c) as Hbk by (unfold bucket_for; by rewrite Hm).
      rewrite Hbk in Hb3, Hp. rewrite Hu1. ubind. rewrite Hb3. ubind. rewrite Hu2. ubind. rewrite Hp. ubind.
      do 4 eexists. split_and!; [done|exact Hrep5|]. f_equal. simpl in Hcnt.
      rewrite take_ge; [done|]. simpl. rewrite length_fmap. lia.
Qed.
End Refinement.

(** ** The constructor *)

Definition cache_cap (capacity : Z) : nat := Z.to_nat (Z.max capacity 1).

Lemma make_node capacity i :
  (i < cache_cap capacity)%nat →
  node_at (nodes_ (make_cache capacity)) (Z.of_nat i) =
    Some (set_next (if bool_decide (Z.of_nat i + 1 < Z.max capacity 1)
                    then to_s32 (Z.of_nat i + 1) else kInvalid) default_node).
Proof.
  intros Hi. unfold node_at, make_cache. cbn [nodes_]. rewrite bool_decide_true, Nat2Z.id by lia.
  rewrite list_lookup_fmap, lookup_seq_lt by done. done.
Qed.

Lemma to_s32_small z : 0 ≤ z < 2147483648 → to_s32 z = z.
Proof.
  intros. unfold to_s32. rewrite wrap32_id by range_lia. by rewrite bool_decide_true by lia.
Qed.

Lemma make_free_chain capacity i m :
  Z.max capacity 1 < 2147483648 → (i + m = cache_cap capacity)%nat →
  chain next (nodes_ (make_cache capacity))
    (if bool_decide (Z.of_nat i < Z.max capacity 1) then Z.of_nat i else kInvalid)
    (Z.of_nat <$> seq i m).
Proof.
  intros Hc. unfold chain. revert i. induction m as [|m IH]; intros i Him.
  { simpl. unfold cache_cap in Him. by rewrite bool_decide_false by lia. }
  cbn [seq fmap list_fmap seg]. unfold cache_cap in *. rewrite bool_decide_true by lia.
  split; [done|]. eexists. split; [apply make_node; unfold cache_cap; lia|]. simpl.
  specialize (IH (S i)). replace (Z.of_nat (S i)) with (Z.of_nat i + 1) in IH by lia.
  case_bool_decide; [rewrite to_s32_small by lia|]; apply IH; lia.
Qed.

Lemma land_mask h p : 0 ≤ p → 0 ≤ Z.land h (2 ^ p - 1) < 2 ^ p.
Proof.
  intros Hp. replace (2 ^ p - 1) with (Z.ones p) by (rewrite Z.ones_equiv; lia).
  rewrite Z.land_ones by done. apply Z.mod_pos_bound. by apply Z.pow_pos_nonneg.
Qed.

Lemma make_cache_rep hash64 capacity :
  capacity < 2147483648 →
  rep hash64 (cache_cap capacity) (make_cache capacity) []
    (Z.of_nat <$> seq 0 (cache_cap capacity)) [].
Proof.
  intros Hc. split; try done; simpl.
  - unfold make_cache. cbn [nodes_]. by rewrite length_fmap, length_seq.
  - rewrite length_fmap, length_seq. lia.
  - unfold cache_cap. lia.
  - pose proof (make_free_chain capacity 0 (cache_cap capacity)) as H.
    rewrite bool_decide_true in H by lia. apply H; lia.
  - by intros x ?%not_elem_of_nil.
  - rewrite app_nil_r. apply NoDup_fmap_2; [|apply NoDup_seq]. intros x y. apply Nat2Z.inj.
  - by intros i k ?%not_elem_of_nil.
  - by apply NoDup_nil.
  - intros k. exists kInvalid, []. split_and!; [|done|by apply NoDup_nil|].
    + unfold bucket_for, make_cache. cbn [bucket_mask_ buckets_].
      set (n := Z.max (wrap64 (Z.max capacity 1 * 2)) 2).
      unfold bit_ceil. rewrite bool_decide_false by lia.
      pose proof (land_mask (IdempotencyKeyHash hash64 k) (Z.log2_up n) (Z.log2_up_nonneg n)) as Hb.
      unfold bucket_at. rewrite bool_decide_true by lia. apply lookup_replicate_2. lia.
    + intros i. split; [by intros ?%not_elem_of_nil|]. by intros (k' & ?%not_elem_of_nil & _).
Qed.

(** ** The cache's contract *)

(** The answers to a sequence of requests, by the code and by the abstract
    cache. *)
Fixpoint answers (hash64 : Z → Z) (ks : list IdempotencyKey) (c : IdempotencyCache) :
    option (list bool * IdempotencyCache) :=
  match ks with
  | [] => Some ([], c)
  | k :: ks =>
      '(b, c) ← check_and_insert hash64 k c;
      '(bs, c) ← answers hash64 ks c;
      Some (b :: bs, c)
  end.
Fixpoint lru_answers (cap : nat) (ks l : list IdempotencyKey) : list bool * list IdempotencyKey :=
  match ks with
  | [] => ([], l)
  | k :: ks =>
      let '(b, l) := lru_check cap k l in
      let '(bs, l) := lru_answers cap ks l in
      (b :: bs, l)
  end.

Lemma answers_refine hash64 cap ks c lru free :
  (0 < cap)%nat → rep hash64 cap c lru free [] →
  ∃ c' lru' free', answers hash64 ks c = Some ((lru_answers cap ks lru.*2).1, c') ∧
    rep hash64 cap c' lru' free' [] ∧ lru'.*2 = (lru_answers cap ks lru.*2).2.
Proof.
  intros Hpos. revert c lru free. induction ks as [|k ks IH]; intros c lru free Hrep.
  { by exists c, lru, free. }
  destruct (check_and_insert_refines hash64 cap c lru free k Hpos Hrep)
    as (b & c1 & lru1 & free1 & Hrun & Hrep1 & Hspec).
  destruct (IH c1 lru1 free1 Hrep1) as (c2 & lru2 & free2 & Hrun2 & Hrep2 & Hspec2).
  exists c2, lru2, free2. cbn [answers lru_answers]. rewrite Hrun, Hspec. ubind. rewrite Hrun2. ubind.
  by destruct (lru_answers cap ks lru1.*2).
Qed.

(** C10: For every hash function and every sequence of requests the cache answers
    as the abstract one, a list of keys in order of recency cut to the capacity:
    no index leaves the node array, no walk along a chain runs on, the capacity
    reported never changes and is at least one, and the size reported is the number
    of keys remembered. *)
Theorem cache_refines_lru hash64 capacity ks :
  capacity < 2147483648 →
  ∃ c, answers hash64 ks (make_cache capacity) =
      Some ((lru_answers (cache_cap capacity) ks []).1, c) ∧
    cache_capacity c = capacity `max` 1 ∧
    cache_size c = Z.of_nat (length (lru_answers (cache_cap capacity) ks []).2) ∧ cache_size c ≤ cache_capacity c.
Proof.
  intros Hc. destruct (answers_refine hash64 (cache_cap capacity) ks _ _ _
    ltac:(unfold cache_cap; lia) (make_cache_rep hash64 capacity Hc))
    as (c & lru & free & Hrun & Hrep & Hl). simpl in Hrun, Hl.
  exists c. split; [done|]. rewrite <- Hl, length_fmap.
  destruct Hrep as [Hn Hcnt Hs _ _ _ _ _ _ _ _]. simpl in Hcnt, Hs. unfold cache_capacity, cache_size.
  rewrite Hn, Hs. unfold cache_cap in *. split_and!; lia.
Qed.

Lemma cache_refines_lru_witness :
  let ks := [mkKey 0 1; mkKey 0 2; mkKey 0 1; mkKey 0 3; mkKey 0 2; mkKey 0 1] in
  ∃ c, answers (λ z, z) ks (make_cache 2) = Some ([false; false; true; false; false; false], c) ∧
    cache_capacity c = 2 ∧
    cache_size c = Z.of_nat (length (lru_answers 2 ks []).2) ∧ cache_size c ≤ cache_capacity c.
Proof. intros ks. apply (cache_refines_lru (λ z, z) 2 ks). lia. Defined.

Lemma filter_take_mono (k k' : IdempotencyKey) (l : list IdempotencyKey) n :
  k ≠ k' → k ∈ take n l → k ∈ take n (filter (λ y, y ≠ k') l).
Proof.
  intros Hne. revert n. induction l as [|y l IH]; intros n Hk.
  { rewrite take_nil in Hk. by apply not_elem_of_nil in Hk. }
  destruct n as [|n]; [by apply not_elem_of_nil in Hk|]. simpl in Hk.
  apply elem_of_cons in Hk as [<-|Hk].
  - rewrite filter_cons_True by done. left.
  - destruct (decide (y = k')).
    + rewrite filter_cons_False by tauto.
      apply IH, elem_of_take in Hk as (i & Hi & Hlt). apply elem_of_take. exists i. split; [done|lia].
    + rewrite filter_cons_True by done. right. by apply IH.
Qed.

(** A key among the [n] most recent stays among the [n + 1] most recent. *)
Lemma lru_check_window cap k k' l n :
  k ∈ take n l → (n < cap)%nat → k ∈ take (S n) (lru_check cap k' l).2.
Proof.
  intros Hk Hn. unfold lru_check. destruct (decide (k' ∈ l)); cbn [snd take].
  - destruct (decide (k = k')) as [->|Hne]; [left|right]. by apply filter_take_mono.
  - rewrite take_take, Nat.min_l by lia. by right.
Qed.

Lemma lru_answers_app cap ks1 ks2 l :
  lru_answers cap (ks1 ++ ks2) l =
    let '(b1, l1) := lru_answers cap ks1 l in
    let '(b2, l2) := lru_answers cap ks2 l1 in (b1 ++ b2, l2).
Proof.
  revert l. induction ks1 as [|k ks1 IH]; intros l; simpl; [by destruct (lru_answers cap ks2 l)|].
  destruct (lru_check cap k l) as [b l']. rewrite IH.
  destruct (lru_answers cap ks1 l') as [b1 l1]. by destruct (lru_answers cap ks2 l1).
Qed.

Lemma lru_answers_window cap k ks l n :
  k ∈ take n l → (n + length ks ≤ cap)%nat → k ∈ (lru_answers cap ks l).2.
Proof.
  revert l n. induction ks as [|k' ks IH]; intros l n Hk Hn; cbn [lru_answers length] in *.
  { by eapply subseteq_take. }
  pose proof (lru_check_window cap k k' l n Hk ltac:(lia)) as Hk1.
  destruct (lru_check cap k' l) as [b l']. specialize (IH l' (S n) Hk1 ltac:(lia)).
  by destruct (lru_answers cap ks l').
Qed.

Lemma lru_check_head cap k l : (0 < cap)%nat → k ∈ take 1 (lru_check cap k l).2.
Proof.
  intros Hc. unfold lru_check. destruct cap as [|cap]; [lia|].
  destruct (decide (k ∈ l)); cbn [snd take]; left.
Qed.

(** The deduplication window.  A request for a key that was requested before,
    with fewer than [capacity] requests in between, is always reported as a
    duplicate. *)
Theorem duplicate_within_window hash64 capacity ks1 k ks2 :
  capacity < 2147483648 → (length ks2 < cache_cap capacity)%nat →
  ∃ bs c, answers hash64 (ks1 ++ k :: ks2 ++ [k]) (make_cache capacity) = Some (bs ++ [true], c).
Proof.
  intros Hc Hlen. set (cap := cache_cap capacity) in *.
  destruct (answers_refine hash64 cap (ks1 ++ k :: ks2 ++ [k]) _ _ _
    ltac:(lia) (make_cache_rep hash64 capacity Hc)) as (c & _ & _ & Hrun & _ & _).
  rewrite Hrun, lru_answers_app.
  destruct (lru_answers cap ks1 _) as [b1 l1]. cbn [lru_answers].
  pose proof (lru_check_head cap k l1 ltac:(lia)) as Hk.
  destruct (lru_check cap k l1) as [b2 l2]. cbn [snd] in Hk. rewrite lru_answers_app.
  pose proof (lru_answers_window cap k ks2 l2 1 Hk ltac:(lia)) as Hk3.
  destruct (lru_answers cap ks2 l2) as [b3 l3]. cbn [snd] in Hk3. cbn [lru_answers].
  unfold lru_check. rewrite decide_True by done.
  exists (b1 ++ b2 :: b3), c. cbn [fst]. by rewrite <- app_assoc.
Qed.

Lemma duplicate_within_window_witness :
  ∃ bs c, answers (λ z, z * 7) ([mkKey 1 1] ++ mkKey 2 2 :: [mkKey 3 3; mkKey 4 4] ++ [mkKey 2 2])
    (make_cache 3) = Some (bs ++ [true], c).
Proof.
  apply (duplicate_within_window (λ z, z * 7) 3 [mkKey 1 1] (mkKey 2 2) [mkKey 3 3; mkKey 4 4]).
  - lia.
  - by_compute.
Defined.

Lemma lru_answers_keys cap ks l k : k ∈ (lru_answers cap ks l).2 → k ∈ ks ∨ k ∈ l.
Proof.
  revert l. induction ks as [|k' ks IH]; intros l; cbn [lru_answers]; [by right|].
  assert (∀ y, y ∈ (lru_check cap k' l).2 → y = k' ∨ y ∈ l) as Hl.
  { intros y. unfold lru_check. destruct (decide (k' ∈ l)); cbn [snd].
    - rewrite elem_of_cons, list_elem_of_filter. tauto.
    - intros Hy%subseteq_take. by apply elem_of_cons. }
  destruct (lru_check cap k' l) as [b l']. specialize (IH l').
  destruct (lru_answers cap ks l') as [bs l'']. cbn [snd] in *. rewrite elem_of_cons.
  intros [?|?%Hl]%IH; tauto.
Qed.

(** No false duplicates: a key that was never requested before is reported as
    new. *)
Theorem fresh_key_is_new hash64 capacity ks k :
  capacity < 2147483648 → k ∉ ks →
  ∃ bs c, answers hash64 (ks ++ [k]) (make_cache capacity) = Some (bs ++ [false], c).
Proof.
  intros Hc Hk. set (cap := cache_cap capacity) in *.
  destruct (answers_refine hash64 cap (ks ++ [k]) _ _ _
    ltac:(unfold cap, cache_cap; lia) (make_cache_rep hash64 capacity Hc)) as (c & _ & _ & Hrun & _ & _).
  rewrite Hrun, lru_answers_app. pose proof (lru_answers_keys cap ks [] k) as Hkeys.
  change ([].*2) with (@nil IdempotencyKey). destruct (lru_answers cap ks []) as [b1 l1].
  cbn [snd] in Hkeys. cbn [lru_answers]. unfold lru_check. rewrite decide_False.
  - by exists b1, c.
  - intros [?|?%not_elem_of_nil]%Hkeys; done.
Qed.

Lemma fresh_key_is_new_witness :
  ∃ bs c, answers (λ z, 0) ([mkKey 1 1; mkKey 2 2] ++ [mkKey 5 5]) (make_cache 0) =
    Some (bs ++ [false], c).
Proof. apply (fresh_key_is_new (λ z, 0) 0 [mkKey 1 1; mkKey 2 2] (mkKey 5 5)); [lia|by_compute]. Defined.
