(* ===== verification/RingBuffer.v ===== *)
(** * The ring buffer

    [include/ledger/ring_buffer.hpp]: the bounded queue of sequence-numbered
    cells between the producers and the writer thread.  This file models its
    operations as one thread executes them and proves them a bounded
    first-in-first-out queue; [RingConcurrent.v] interleaves their atomic steps. *)

From S2P Require Import Prelude.

(** ** The code *)

Section Ring.
Context {T : Type}.

Record Cell := mkCell { sequence : Z; data : T }.

Record MpscRingBuffer := mkRing {
  mask_ : Z;
  buffer_ : list Cell;
  enqueue_pos_ : Z;
  dequeue_pos_ : Z
}.

(** The constructor; [dflt] is [T{}]. *)
Definition make_ring (dflt : T) (capacity_pow2 : Z) : MpscRingBuffer :=
  mkRing (wrap64 (capacity_pow2 - 1))
    ((λ i : nat, mkCell (Z.of_nat i) dflt) <$> seq 0 (Z.to_nat capacity_pow2)) 0 0.

(** [buffer_[pos & mask_]]; outside the vector the access is undefined. *)
Definition cell_index (rb : MpscRingBuffer) (pos : Z) : nat := Z.to_nat (Z.land pos (mask_ rb)).
Definition cell_at (rb : MpscRingBuffer) (pos : Z) : option Cell := buffer_ rb !! cell_index rb pos.
Definition set_cell (rb : MpscRingBuffer) (pos : Z) (c : Cell) : MpscRingBuffer :=
  mkRing (mask_ rb) (<[cell_index rb pos := c]> (buffer_ rb)) (enqueue_pos_ rb) (dequeue_pos_ rb).
Definition set_enqueue (rb : MpscRingBuffer) (pos : Z) : MpscRingBuffer :=
  mkRing (mask_ rb) (buffer_ rb) pos (dequeue_pos_ rb).
Definition set_dequeue (rb : MpscRingBuffer) (pos : Z) : MpscRingBuffer :=
  mkRing (mask_ rb) (buffer_ rb) (enqueue_pos_ rb) pos.

(** The difference of two positions as signed integers. *)
Definition seq_diff (s pos : Z) : option Z := sadd64 (to_s64 s) (- to_s64 pos).

(** The retry loop of [try_push], without interference: the position reserved,
    or no position when the queue is full; [None] when [fuel] iterations were not
    enough. *)
Fixpoint reserve (fuel : nat) (pos : Z) (rb : MpscRingBuffer) :
    option (option Z * MpscRingBuffer) :=
  match fuel with
  | O => None
  | S fuel =>
      cell ← cell_at rb pos;
      diff ← seq_diff (sequence cell) pos;
      if bool_decide (diff = 0) then
        if bool_decide (enqueue_pos_ rb = pos) then Some (Some pos, set_enqueue rb (wrap64 (pos + 1)))
        else reserve fuel (enqueue_pos_ rb) rb
      else if bool_decide (diff < 0) then Some (None, rb)
      else reserve fuel (enqueue_pos_ rb) rb
  end.

Definition try_push (item : T) (rb : MpscRingBuffer) : option (bool * MpscRingBuffer) :=
  '(reserved, rb) ← reserve 2 (enqueue_pos_ rb) rb;
  match reserved with
  | None => Some (false, rb)
  | Some pos =>
      cell ← cell_at rb pos;
      let rb := set_cell rb pos (mkCell (sequence cell) item) in
      let rb := set_cell rb pos (mkCell (wrap64 (pos + 1)) item) in
      Some (true, rb)
  end.

Definition try_pop (rb : MpscRingBuffer) : option (option T * MpscRingBuffer) :=
  cell ← cell_at rb (dequeue_pos_ rb);
  diff ← seq_diff (sequence cell) (wrap64 (dequeue_pos_ rb + 1));
  if bool_decide (diff ≠ 0) then Some (None, rb)
  else
    let out := data cell in
    let rb := set_cell rb (dequeue_pos_ rb)
                (mkCell (wrap64 (wrap64 (dequeue_pos_ rb + mask_ rb) + 1)) (data cell)) in
    Some (Some out, set_dequeue rb (wrap64 (dequeue_pos_ rb + 1))).
End Ring.
Arguments Cell : clear implicits.
Arguments MpscRingBuffer : clear implicits.

(** ** Positions *)

Lemma mod_window a b n : 0 < n → a `mod` n = b `mod` n → - n < a - b < n → a = b.
Proof.
  intros Hn Hm Hd. pose proof (Z.div_mod a n ltac:(lia)). pose proof (Z.div_mod b n ltac:(lia)).
  assert (a - b = n * (a `div` n - b `div` n)) by lia.
  assert (a `div` n - b `div` n = 0) by nia. nia.
Qed.

Lemma land_pow2_mask pos p : 0 ≤ p → Z.land pos (2 ^ p - 1) = pos `mod` 2 ^ p.
Proof.
  intros Hp. replace (2 ^ p - 1) with (Z.ones p) by (rewrite Z.ones_equiv; lia).
  by apply Z.land_ones.
Qed.

(** ** Representation *)

Section Rep.
Context {T : Type}.
Implicit Types (rb : MpscRingBuffer T) (q : list T).

(** A quiescent ring of [2 ^ p] cells holds the queue [q]: the cells from the
    dequeue position on are filled and stamped one past their position, the
    remaining ones are stamped with the next position they will take. *)
Record ring_rep (p : Z) (rb : MpscRingBuffer T) (q : list T) : Prop := mkRingRep {
  ring_p : 1 ≤ p ≤ 62;
  ring_mask : mask_ rb = 2 ^ p - 1;
  ring_len : length (buffer_ rb) = Z.to_nat (2 ^ p);
  ring_deq : 0 ≤ dequeue_pos_ rb;
  ring_enq : enqueue_pos_ rb = dequeue_pos_ rb + Z.of_nat (length q);
  ring_size : Z.of_nat (length q) ≤ 2 ^ p;
  ring_cells : ∀ pos, dequeue_pos_ rb ≤ pos < dequeue_pos_ rb + 2 ^ p →
    ∃ c, cell_at rb pos = Some c ∧
      if bool_decide (pos < enqueue_pos_ rb)
      then sequence c = pos + 1 ∧ q !! Z.to_nat (pos - dequeue_pos_ rb) = Some (data c)
      else sequence c = pos
}.

(** Far enough from the end of the counters for another operation. *)
Definition ring_headroom (p : Z) (rb : MpscRingBuffer T) : Prop :=
  enqueue_pos_ rb + 2 ^ p < INT64_MAX.

Lemma cell_index_mod p rb pos :
  0 ≤ p → mask_ rb = 2 ^ p - 1 → cell_index rb pos = Z.to_nat (pos `mod` 2 ^ p).
Proof. intros Hp Hm. unfold cell_index. by rewrite Hm, land_pow2_mask. Qed.

(** Writing the cell of one position of a window leaves the others alone. *)
Lemma cell_at_set p rb c0 pos pos' c :
  0 ≤ p → mask_ rb = 2 ^ p - 1 → cell_at rb pos = Some c0 → - 2 ^ p < pos - pos' < 2 ^ p →
  cell_at (set_cell rb pos c) pos' = if decide (pos = pos') then Some c else cell_at rb pos'.
Proof.
  intros Hp Hm H0 Hw. pose proof (Z.pow_pos_nonneg 2 p ltac:(lia) Hp) as Hpos.
  unfold cell_at in *. change (cell_index (set_cell rb pos c) pos') with (cell_index rb pos').
  cbn [set_cell buffer_]. rewrite !(cell_index_mod p) in * by done. case_decide as Heq.
  - subst pos'. apply list_lookup_insert_eq. by apply lookup_lt_Some in H0.
  - apply list_lookup_insert_ne. intros Hmod. apply Heq, (mod_window _ _ (2 ^ p)); [done| |done].
    pose proof (Z.mod_pos_bound pos (2 ^ p) Hpos). pose proof (Z.mod_pos_bound pos' (2 ^ p) Hpos). lia.
Qed.

(** A cell belongs to every position congruent to its index. *)
Lemma cell_at_shift p rb pos : 0 ≤ p → mask_ rb = 2 ^ p - 1 → cell_at rb (pos + 2 ^ p) = cell_at rb pos.
Proof.
  intros Hp Hm. unfold cell_at. rewrite !(cell_index_mod p) by done.
  pose proof (Z.pow_pos_nonneg 2 p ltac:(lia) Hp).
  by rewrite <- Z.add_mod_idemp_r, Z_mod_same_full, Z.add_0_r by lia.
Qed.

Lemma seq_diff_small s pos :
  0 ≤ s ≤ INT64_MAX → 0 ≤ pos ≤ INT64_MAX → seq_diff s pos = Some (s - pos).
Proof.
  intros Hs Hp. unfold seq_diff. rewrite !to_s64_small by done. rewrite sadd64_ok by range_lia.
  f_equal; lia.
Qed.

Lemma try_push_rep p rb q item :
  ring_rep p rb q → ring_headroom p rb →
  ∃ rb', try_push item rb = Some (bool_decide (Z.of_nat (length q) < 2 ^ p), rb') ∧
    ring_rep p rb' (if bool_decide (Z.of_nat (length q) < 2 ^ p) then q ++ [item] else q) ∧
    dequeue_pos_ rb' = dequeue_pos_ rb.
Proof.
  intros [Hp Hm Hlen Hd He Hsz Hcells] Hroom. unfold ring_headroom in Hroom.
  pose proof (Z.pow_le_mono_r 2 1 p ltac:(lia) ltac:(lia)) as H2. change (2 ^ 1) with 2 in H2.
  set (E := enqueue_pos_ rb) in *. set (D := dequeue_pos_ rb) in *. set (n := 2 ^ p) in *.
  unfold try_push. cbn [reserve]. fold E.
  destruct (decide (Z.of_nat (length q) < n)) as [Hfull|Hfull];
    [rewrite !(bool_decide_true (_ < n)) by done|rewrite !(bool_decide_false (_ < n)) by done].
  - destruct (Hcells E) as (c & Hc & Hseq); [lia|]. rewrite bool_decide_false in Hseq by lia.
    rewrite Hc. ubind. rewrite seq_diff_small by (rewrite ?Hseq; lia). ubind.
    rewrite !bool_decide_true by lia. ubind.
    set (rb1 := set_enqueue rb (wrap64 (E + 1))).
    change (cell_at rb1 E) with (cell_at rb E). rewrite Hc. ubind. eexists. split; [done|].
    split; [|done]. rewrite wrap64_id by range_lia.
    set (c1 := mkCell (sequence c) item). set (c2 := mkCell (E + 1) item).
    assert (∀ pos, D ≤ pos < D + n → cell_at (set_cell (set_cell rb1 E c1) E c2) pos =
      if decide (E = pos) then Some c2 else cell_at rb pos) as Hset.
    { intros pos Hpos.
      rewrite (cell_at_set p (set_cell rb1 E c1) c1), (cell_at_set p rb1 c); try done; try lia.
      - by case_decide.
      - rewrite (cell_at_set p rb1 c); try done; try lia. by rewrite decide_True. }
    assert (enqueue_pos_ (set_cell (set_cell rb1 E c1) E c2) = E + 1) as HE1
      by (simpl; apply wrap64_id; range_lia).
    split; try done; rewrite ?HE1.
    + simpl. by rewrite !length_insert.
    + simpl. fold D. rewrite length_app. simpl. lia.
    + rewrite length_app. simpl. lia.
    + change (dequeue_pos_ _) with D. intros pos Hpos. rewrite Hset by done. case_decide as Hpe.
      * subst pos. exists c2. split; [done|]. rewrite bool_decide_true by lia. split; [done|].
        rewrite lookup_app_r by lia. replace (Z.to_nat (E - D) - length q)%nat with 0%nat by lia. done.
      * destruct (Hcells pos Hpos) as (c' & Hc' & Hseq'). exists c'. split; [done|].
        case_bool_decide as Hlt; [rewrite bool_decide_true by lia|by rewrite bool_decide_false by lia].
        destruct Hseq' as [Hs' Hq']. split; [done|]. rewrite lookup_app_l; [done|].
        by apply lookup_lt_Some in Hq'.
  - destruct (Hcells D) as (c & Hc & Hseq); [lia|]. rewrite bool_decide_true in Hseq by lia.
    destruct Hseq as [Hseq _].
    assert (cell_at rb E = Some c) as HcE.
    { replace E with (D + 2 ^ p) by (unfold n in *; lia). by rewrite cell_at_shift by (done || lia). }
    rewrite HcE. ubind. rewrite seq_diff_small by (rewrite ?Hseq; lia). ubind.
    rewrite (bool_decide_false (_ = 0)), bool_decide_true by lia. ubind. by exists rb.
Qed.

Lemma try_pop_rep p rb q :
  ring_rep p rb q → ring_headroom p rb →
  ∃ rb', try_pop rb = Some (head q, rb') ∧ ring_rep p rb' (tail q) ∧
    enqueue_pos_ rb' = enqueue_pos_ rb.
Proof.
  intros [Hp Hm Hlen Hd He Hsz Hcells] Hroom. unfold ring_headroom in Hroom.
  pose proof (Z.pow_le_mono_r 2 1 p ltac:(lia) ltac:(lia)) as H2. change (2 ^ 1) with 2 in H2.
  set (E := enqueue_pos_ rb) in *. set (D := dequeue_pos_ rb) in *. set (n := 2 ^ p) in *.
  destruct (Hcells D) as (c & Hc & Hseq); [lia|].
  unfold try_pop. fold D. rewrite Hc. ubind. rewrite (wrap64_id (D + 1)) by range_lia.
  destruct q as [|x q]; simpl in He, Hsz.
  - rewrite bool_decide_false in Hseq by lia. rewrite seq_diff_small by (rewrite ?Hseq; lia). ubind.
    rewrite bool_decide_true by lia. by exists rb.
  - rewrite bool_decide_true in Hseq by lia. destruct Hseq as [Hseq Hx].
    rewrite Z.sub_diag in Hx. injection Hx as Hx.
    rewrite seq_diff_small by (rewrite ?Hseq; lia). ubind. rewrite bool_decide_false by lia.
    rewrite <- Hx. eexists. split; [done|]. split; [|done].
    rewrite Hm, !wrap64_id by (rewrite ?wrap64_id; range_lia).
    set (c1 := mkCell _ _). assert (wrap64 (D + 1) = D + 1) as HD1 by (apply wrap64_id; range_lia).
    split; try done; simpl; fold D; fold E; rewrite ?HD1.
    + by rewrite length_insert.
    + lia.
    + lia.
    + lia.
    + intros pos Hpos. change (cell_at _ pos) with (cell_at (set_cell rb D c1) pos).
      destruct (decide (pos = D + n)) as [->|Hne].
      * exists c1. rewrite bool_decide_false by lia. split; [|simpl; lia].
        unfold n. rewrite cell_at_shift by (done || lia).
        rewrite (cell_at_set p rb c) by (done || lia). by rewrite decide_True.
      * destruct (Hcells pos) as (c' & Hc' & Hseq'); [lia|]. exists c'.
        rewrite (cell_at_set p rb c), decide_False by (done || lia). split; [done|].
        case_bool_decide; [|done]. destruct Hseq' as [Hs' Hq']. split; [done|].
        replace (Z.to_nat (pos - D)) with (S (Z.to_nat (pos - (D + 1)))) in Hq' by lia. done.
Qed.

Lemma make_ring_rep (dflt : T) p : 1 ≤ p ≤ 62 → ring_rep p (make_ring dflt (2 ^ p)) [].
Proof.
  intros Hp. pose proof (Z.pow_le_mono_r 2 1 p ltac:(lia) ltac:(lia)) as H2.
  pose proof (Z.pow_le_mono_r 2 p 62 ltac:(lia) ltac:(lia)) as H62.
  change (2 ^ 1) with 2 in H2. change (2 ^ 62) with 4611686018427387904 in H62.
  assert (mask_ (make_ring dflt (2 ^ p)) = 2 ^ p - 1) as Hm by (apply wrap64_id; range_lia).
  split; try done; simpl.
  - by rewrite length_fmap, length_seq.
  - lia.
  - intros pos Hpos. unfold cell_at. rewrite (cell_index_mod p), Z.mod_small by (done || lia).
    exists (mkCell pos dflt). rewrite bool_decide_false by lia. split; [|done].
    cbn [make_ring buffer_]. rewrite list_lookup_fmap, lookup_seq_lt by lia. simpl. do 2 f_equal. lia.
Qed.
End Rep.

(** ** The queue's contract *)

Inductive ring_op (T : Type) := Push (x : T) | Pop.
Arguments Push {T} _.
Arguments Pop {T}.
Inductive ring_answer (T : Type) := Pushed (ok : bool) | Popped (x : option T).
Arguments Pushed {T} _.
Arguments Popped {T} _.

(** A sequence of operations on the ring, and on a queue of at most [cap] items. *)
Fixpoint ring_run {T} (ops : list (ring_op T)) (rb : MpscRingBuffer T) :
    option (list (ring_answer T)) :=
  match ops with
  | [] => Some []
  | Push x :: ops => '(ok, rb) ← try_push x rb; rs ← ring_run ops rb; Some (Pushed ok :: rs)
  | Pop :: ops => '(x, rb) ← try_pop rb; rs ← ring_run ops rb; Some (Popped x :: rs)
  end.
Fixpoint queue_run {T} (cap : Z) (ops : list (ring_op T)) (q : list T) : list (ring_answer T) :=
  match ops with
  | [] => []
  | Push x :: ops =>
      let ok := bool_decide (Z.of_nat (length q) < cap) in
      Pushed ok :: queue_run cap ops (if ok then q ++ [x] else q)
  | Pop :: ops => Popped (head q) :: queue_run cap ops (tail q)
  end.

Lemma ring_run_refines {T} p ops (rb : MpscRingBuffer T) q :
  ring_rep p rb q → enqueue_pos_ rb + Z.of_nat (length ops) + 2 ^ p < INT64_MAX →
  ring_run ops rb = Some (queue_run (2 ^ p) ops q).
Proof.
  revert rb q. induction ops as [|op ops IH]; intros rb q Hrep Hroom; [done|].
  cbn [length] in Hroom. assert (ring_headroom p rb) as Hh by (unfold ring_headroom; lia).
  destruct op as [x|]; cbn [ring_run queue_run].
  - destruct (try_push_rep p rb q x Hrep Hh) as (rb' & -> & Hrep' & Hd). ubind.
    rewrite (IH rb' _ Hrep'); [done|].
    destruct Hrep as [_ _ _ _ He _ _], Hrep' as [_ _ _ _ He' _ _].
    case_bool_decide; rewrite ?length_app in He'; simpl in He'; lia.
  - destruct (try_pop_rep p rb q Hrep Hh) as (rb' & -> & Hrep' & He). ubind.
    rewrite (IH rb' _ Hrep'); [done|]. lia.
Qed.

(** C33: Used by one thread, a ring whose capacity is a power of two of at least two
    is a bounded first-in-first-out queue: every sequence of operations gets the
    answers the queue gives (pushes fail exactly when it is full), as long as the
    64-bit positions have room left. *)
Theorem ring_refines_queue {T} (dflt : T) p ops :
  1 ≤ p ≤ 62 → Z.of_nat (length ops) + 2 ^ p < INT64_MAX →
  ring_run ops (make_ring dflt (2 ^ p)) = Some (queue_run (2 ^ p) ops []).
Proof.
  intros Hp Hroom. apply ring_run_refines; [by apply make_ring_rep|]. simpl. lia.
Qed.

Lemma ring_refines_queue_witness :
  ring_run [Push 1; Push 2; Push 3; Pop; Push 4; Pop; Pop; Pop] (make_ring 0 (2 ^ 1)) =
    Some [Pushed true; Pushed true; Pushed false; Popped (Some 1); Pushed true;
          Popped (Some 2); Popped (Some 4); Popped None].
Proof.
  apply (ring_refines_queue 0 1 [Push 1; Push 2; Push 3; Pop; Push 4; Pop; Pop; Pop]).
  - lia.
  - by_compute.
Defined.

(** One is a power of two as well, but a ring of one cell is not a queue: a second
    push succeeds and overwrites the first item, and no pop ever succeeds again. *)
Theorem capacity_one_loses_items :
  ring_run [Push 1; Push 2; Pop; Pop] (make_ring 0 1) =
    Some [Pushed true; Pushed true; Popped None; Popped None].
Proof. vm_compute. reflexivity. Qed.
