(* ===== verification/RingConcurrent.v ===== *)
(** * The ring buffer under concurrency

    The same code as in [RingBuffer.v], cut at its atomic accesses and run by any
    number of producers and one consumer in any interleaving.  The weak
    compare-exchange may fail for no reason.  Accesses are interleaved one at a
    time and see the latest value; [RingWeak] has the code with its memory orders.
    [pushed] and [popped] record the items in the order of the
    successful compare-exchanges and of the releases of cells. *)

From stdpp Require Import functions relations.
From S2P Require Import Prelude RingBuffer.

(** ** Threads *)

(** Where a producer is in [try_push]. *)
Inductive pstate (T : Type) :=
  | PIdle
  | PLoop (pos : Z) (item : T)      (* top of the loop *)
  | PCas (pos : Z) (item : T)       (* about to compare and exchange *)
  | PReload (item : T)              (* about to load the position again *)
  | PWrite (pos : Z) (item : T)     (* position reserved, about to write the item *)
  | PPublish (pos : Z) (item : T).  (* about to store the sequence number *)
Arguments PIdle {T}.
Arguments PLoop {T} _ _.
Arguments PCas {T} _ _.
Arguments PReload {T} _.
Arguments PWrite {T} _ _.
Arguments PPublish {T} _ _.

(** Where the consumer is in [try_pop]. *)
Inductive cstate (T : Type) :=
  | CIdle
  | CTake            (* about to read the item *)
  | CStore (out : T) (* about to store the sequence number *)
  | CInc.            (* about to advance the position *)
Arguments CIdle {T}.
Arguments CTake {T}.
Arguments CStore {T} _.
Arguments CInc {T}.

Inductive event (T : Type) :=
  | Tau | PushOk (x : T) | PushFull | PopSome (x : T) | PopNone.
Arguments Tau {T}.
Arguments PushOk {T} _.
Arguments PushFull {T}.
Arguments PopSome {T} _.
Arguments PopNone {T}.

Section Conc.
Context {T : Type}.

Record conc := mkConc {
  ring : MpscRingBuffer T;
  prods : nat → pstate T;
  consumer : cstate T;
  pushed : list T;
  popped : list T
}.

Definition start (dflt : T) (capacity : Z) : conc :=
  mkConc (make_ring dflt capacity) (λ _, PIdle) CIdle [] [].

(** Producer [i] moves to [st], the ring becoming [rb]. *)
Definition move (s : conc) (i : nat) (st : pstate T) (rb : MpscRingBuffer T) : conc :=
  mkConc rb (<[i := st]> (prods s)) (consumer s) (pushed s) (popped s).

Inductive step : conc → event T → conc → Prop :=
  | push_begin s i x :
      prods s i = PIdle →
      step s Tau (move s i (PLoop (enqueue_pos_ (ring s)) x) (ring s))
  | push_look s i pos x c diff :
      prods s i = PLoop pos x → cell_at (ring s) pos = Some c →
      seq_diff (sequence c) pos = Some diff →
      step s (if bool_decide (diff < 0) then PushFull else Tau)
        (move s i (if bool_decide (diff = 0) then PCas pos x
                   else if bool_decide (diff < 0) then PIdle else PReload x) (ring s))
  | push_cas_ok s i pos x :
      prods s i = PCas pos x → enqueue_pos_ (ring s) = pos →
      step s Tau
        (mkConc (set_enqueue (ring s) (wrap64 (pos + 1))) (<[i := PWrite pos x]> (prods s))
           (consumer s) (pushed s ++ [x]) (popped s))
  | push_cas_fail s i pos x :
      prods s i = PCas pos x →
      step s Tau (move s i (PLoop (enqueue_pos_ (ring s)) x) (ring s))
  | push_reload s i x :
      prods s i = PReload x →
      step s Tau (move s i (PLoop (enqueue_pos_ (ring s)) x) (ring s))
  | push_write s i pos x c :
      prods s i = PWrite pos x → cell_at (ring s) pos = Some c →
      step s Tau (move s i (PPublish pos x) (set_cell (ring s) pos (mkCell (sequence c) x)))
  | push_publish s i pos x c :
      prods s i = PPublish pos x → cell_at (ring s) pos = Some c →
      step s (PushOk x)
        (move s i PIdle (set_cell (ring s) pos (mkCell (wrap64 (pos + 1)) (data c))))
  | pop_look s c diff :
      consumer s = CIdle → cell_at (ring s) (dequeue_pos_ (ring s)) = Some c →
      seq_diff (sequence c) (wrap64 (dequeue_pos_ (ring s) + 1)) = Some diff →
      step s (if bool_decide (diff ≠ 0) then PopNone else Tau)
        (mkConc (ring s) (prods s) (if bool_decide (diff ≠ 0) then CIdle else CTake)
           (pushed s) (popped s))
  | pop_read s c :
      consumer s = CTake → cell_at (ring s) (dequeue_pos_ (ring s)) = Some c →
      step s Tau (mkConc (ring s) (prods s) (CStore (data c)) (pushed s) (popped s))
  | pop_release s c out :
      consumer s = CStore out → cell_at (ring s) (dequeue_pos_ (ring s)) = Some c →
      step s (PopSome out)
        (mkConc (set_cell (ring s) (dequeue_pos_ (ring s))
                   (mkCell (wrap64 (wrap64 (dequeue_pos_ (ring s) + mask_ (ring s)) + 1)) (data c)))
           (prods s) CInc (pushed s) (popped s ++ [out]))
  | pop_inc s :
      consumer s = CInc →
      step s Tau
        (mkConc (set_dequeue (ring s) (wrap64 (dequeue_pos_ (ring s) + 1))) (prods s) CIdle
           (pushed s) (popped s)).

Definition reachable (dflt : T) (capacity : Z) (s : conc) : Prop :=
  rtc (λ s s', ∃ e, step s e s') (start dflt capacity) s.

(** ** Invariant *)

(** The producer has reserved [pos] and not yet published it. *)
Definition claims (st : pstate T) (pos : Z) : Prop :=
  match st with
  | PWrite pos' _ | PPublish pos' _ => pos' = pos
  | _ => False
  end.

Definition pushes (s : conc) : Z := Z.of_nat (length (pushed s)).
Definition pops (s : conc) : Z := Z.of_nat (length (popped s)).

(** A cell of the window: published with the item of its position, or reserved
    and not yet published, or free. *)
Definition cell_inv (s : conc) (pos : Z) : Prop :=
  ∃ c, cell_at (ring s) pos = Some c ∧
    (pos < pushes s →
      (sequence c = pos + 1 ∧ pushed s !! Z.to_nat pos = Some (data c)) ∨
      (sequence c = pos ∧ ∃ i, claims (prods s i) pos)) ∧
    (pushes s ≤ pos → sequence c = pos).

Definition thread_inv (cap : Z) (s : conc) (st : pstate T) : Prop :=
  match st with
  | PIdle | PReload _ => True
  | PLoop pos _ => 0 ≤ pos ≤ pushes s
  | PCas pos _ => 0 ≤ pos ≤ pushes s ∧ pos < pops s + cap
  | PWrite pos x => pops s ≤ pos < pushes s ∧ pushed s !! Z.to_nat pos = Some x ∧
      ∃ c, cell_at (ring s) pos = Some c ∧ sequence c = pos
  | PPublish pos x => pops s ≤ pos < pushes s ∧ pushed s !! Z.to_nat pos = Some x ∧
      ∃ c, cell_at (ring s) pos = Some c ∧ sequence c = pos ∧ data c = x
  end.

Definition consumer_inv (s : conc) : Prop :=
  match consumer s with
  | CIdle => dequeue_pos_ (ring s) = pops s
  | CTake => dequeue_pos_ (ring s) = pops s ∧ pops s < pushes s ∧
      ∃ c, cell_at (ring s) (pops s) = Some c ∧ sequence c = pops s + 1
  | CStore out => dequeue_pos_ (ring s) = pops s ∧ pops s < pushes s ∧
      pushed s !! length (popped s) = Some out ∧
      ∃ c, cell_at (ring s) (pops s) = Some c ∧ sequence c = pops s + 1
  | CInc => dequeue_pos_ (ring s) + 1 = pops s ∧ 0 ≤ dequeue_pos_ (ring s)
  end.

Record inv (p : Z) (s : conc) : Prop := mkInv {
  inv_p : 1 ≤ p ≤ 62;
  inv_mask : mask_ (ring s) = 2 ^ p - 1;
  inv_enq : enqueue_pos_ (ring s) = pushes s;
  inv_fifo : popped s `prefix_of` pushed s;
  inv_bound : pushes s ≤ pops s + 2 ^ p;
  inv_cells : ∀ pos, pops s ≤ pos < pops s + 2 ^ p → cell_inv s pos;
  inv_threads : ∀ i, thread_inv (2 ^ p) s (prods s i);
  inv_unique : ∀ i j pos, claims (prods s i) pos → claims (prods s j) pos → i = j;
  inv_consumer : consumer_inv s
}.

(** Far enough from the end of the 64-bit positions. *)
Definition headroom (p : Z) (s : conc) : Prop := pushes s + 2 ^ p + 2 < INT64_MAX.
#[export] Instance headroom_dec p s : Decision (headroom p s).
Proof. unfold headroom. apply _. Defined.

(** ** Preservation *)

Lemma inv_pow p s : inv p s → 2 ≤ 2 ^ p.
Proof. intros [Hp _ _ _ _ _ _ _ _]. apply (Z.pow_le_mono_r 2 1 p); lia. Qed.

Lemma inv_deq p s : inv p s → 0 ≤ dequeue_pos_ (ring s) ≤ pops s.
Proof.
  intros Hinv. pose proof (inv_consumer p s Hinv) as Hc. unfold consumer_inv, pops in *.
  destruct (consumer s); lia.
Qed.

(** A producer that holds no reservation may change its own state. *)
Lemma inv_move p s i st :
  inv p s → (∀ pos, ¬ claims (prods s i) pos) → (∀ pos, ¬ claims st pos) →
  thread_inv (2 ^ p) s st → inv p (move s i st (ring s)).
Proof.
  intros [Hp Hm He Hf Hb Hcells Hth Hu Hc] Hno Hno' Hst.
  assert (∀ j pos, claims (<[i := st]> (prods s) j) pos ↔ claims (prods s j) pos) as Hcl.
  { intros j pos. destruct (decide (i = j)) as [<-|Hij].
    - rewrite fn_lookup_insert. split; intros H; exfalso; [by eapply Hno'|by eapply Hno].
    - by rewrite fn_lookup_insert_ne. }
  split; try done.
  - intros pos Hpos. destruct (Hcells pos Hpos) as (c & Hc' & Hlt & Hge). exists c. split_and!; try done.
    intros Hl. destruct (Hlt Hl) as [?|[? (j & Hj)]]; [by left|right]. split; [done|]. exists j.
    by apply Hcl.
  - intros j. simpl. destruct (decide (i = j)) as [<-|Hij].
    + by rewrite fn_lookup_insert.
    + rewrite fn_lookup_insert_ne by done. apply Hth.
  - intros j k pos. simpl. rewrite !Hcl. apply Hu.
Qed.

(** Every position has a cell, and its stamp is that of the position of the
    window it stands for, or one more. *)
Lemma cell_stamp p s pos :
  inv p s → 0 ≤ pos →
  ∃ c q, cell_at (ring s) pos = Some c ∧ pops s ≤ q < pops s + 2 ^ p ∧
    q `mod` 2 ^ p = pos `mod` 2 ^ p ∧ (sequence c = q ∨ sequence c = q + 1 ∧ q < pushes s).
Proof.
  intros Hinv Hpos. pose proof (inv_pow p s Hinv) as H2. pose proof Hinv as [Hp Hm _ _ _ Hcells _ _ _].
  set (n := 2 ^ p) in *. set (q := pops s + (pos - pops s) `mod` n).
  pose proof (Z.mod_pos_bound (pos - pops s) n ltac:(lia)) as Hq.
  assert (q `mod` n = pos `mod` n) as Hmod.
  { unfold q. rewrite Z.add_mod_idemp_r by lia. f_equal. lia. }
  destruct (Hcells q) as (c & Hc & Hlt & Hge); [unfold q; lia|]. exists c, q. split_and!; try done.
  - unfold cell_at in *. rewrite !(cell_index_mod p) in * by (done || lia). fold n in Hc |- *. by rewrite <- Hmod.
  - unfold q. lia.
  - unfold q. lia.
  - destruct (decide (q < pushes s)) as [Hl|Hl]; [|left; apply Hge; lia].
    destruct (Hlt Hl) as [[? _]|[? _]]; auto.
Qed.

Lemma look_diff p s pos c d :
  inv p s → headroom p s → 0 ≤ pos ≤ pushes s + 1 → cell_at (ring s) pos = Some c →
  seq_diff (sequence c) pos = Some d → d = sequence c - pos.
Proof.
  intros Hinv Hh Hpos Hc Hd. destruct (cell_stamp p s pos Hinv ltac:(lia)) as (c' & q & Hc' & Hq & _ & Hs).
  simplify_eq. unfold headroom, pops in *. pose proof (inv_bound p s Hinv) as Hb. unfold pops in Hb.
  assert (0 ≤ sequence c ≤ INT64_MAX ∧ pos ≤ INT64_MAX) as [Hseq Hp'].
  { pose proof (inv_fifo p s Hinv) as Hpre%prefix_length. unfold pushes in *. lia. }
  rewrite seq_diff_small in Hd by lia. congruence.
Qed.

Lemma look_ok p s i pos x c d :
  inv p s → headroom p s → prods s i = PLoop pos x → cell_at (ring s) pos = Some c →
  seq_diff (sequence c) pos = Some d →
  inv p (move s i (if bool_decide (d = 0) then PCas pos x
                   else if bool_decide (d < 0) then PIdle else PReload x) (ring s)) ∧
  (d < 0 → pushes s = pops s + 2 ^ p).
Proof.
  intros Hinv Hh Hi Hc Hd. pose proof (inv_threads p s Hinv i) as Ht. rewrite Hi in Ht. simpl in Ht.
  pose proof (inv_pow p s Hinv) as H2. pose proof (inv_bound p s Hinv) as Hb.
  apply (look_diff p s pos c d Hinv Hh) in Hd; [|lia|done].
  destruct (cell_stamp p s pos Hinv ltac:(lia)) as (c' & q & Hc' & Hq & Hmod & Hs). simplify_eq.
  pose proof (mod_window pos q (2 ^ p) ltac:(lia) ltac:(done)) as Hw.
  split.
  - apply inv_move; [done|intros pos'; rewrite Hi; simpl; tauto| |].
    + intros pos'. repeat case_bool_decide; simpl; tauto.
    + case_bool_decide as H0; [|by case_bool_decide]. split; [lia|]. destruct Hs as [Hs|[Hs _]]; [lia|].
      exfalso. lia.
  - intros Hneg. destruct (decide (pos - q < 2 ^ p)); lia.
Qed.

Lemma prefix_lookup_app (l : list T) x k y : l !! k = Some y → (l ++ [x]) !! k = Some y.
Proof. intros H. rewrite lookup_app_l; [done|]. by apply lookup_lt_Some in H. Qed.

Lemma cas_ok p s i pos x :
  inv p s → headroom p s → prods s i = PCas pos x → enqueue_pos_ (ring s) = pos →
  inv p (mkConc (set_enqueue (ring s) (wrap64 (pos + 1))) (<[i := PWrite pos x]> (prods s))
           (consumer s) (pushed s ++ [x]) (popped s)).
Proof.
  intros Hinv Hh Hi Hpos. pose proof Hinv as [Hp Hm He Hf Hb Hcells Hth Hu Hc].
  pose proof (Hth i) as Ht. rewrite Hi in Ht. simpl in Ht. rewrite He in Hpos. subst pos.
  unfold headroom in Hh. set (s' := mkConc _ _ _ _ _).
  assert (pushes s' = pushes s + 1) as HE by (unfold pushes; simpl; rewrite length_app; simpl; lia).
  assert (pops s' = pops s) as HD by done.
  destruct (Hcells (pushes s)) as (cE & HcE & _ & HgE); [unfold pops, pushes in *; apply prefix_length in Hf; lia|].
  assert (pushed s' !! Z.to_nat (pushes s) = Some x) as Hnew.
  { unfold pushes. rewrite Nat2Z.id. simpl. by rewrite lookup_app_r, Nat.sub_diag. }
  assert (∀ j pos, j ≠ i → claims (prods s j) pos → pos < pushes s) as Hold.
  { intros j pos _ Hj. pose proof (Hth j) as Hj'. destruct (prods s j); simpl in *; try done; lia. }
  split; try done.
  - simpl. rewrite HE. apply wrap64_id. unfold pushes in *. range_lia.
  - simpl. by apply prefix_app_r.
  - rewrite HE, HD. lia.
  - rewrite HD. intros pos Hpos. destruct (decide (pos = pushes s)) as [->|Hne].
    + exists cE. split_and!; [done| |lia]. intros _. right. split; [by apply HgE|].
      exists i. simpl. by rewrite fn_lookup_insert.
    + destruct (Hcells pos Hpos) as (c & Hc' & Hlt & Hge). exists c. split_and!; [done| |intros; apply Hge; lia].
      intros Hl. destruct Hlt as [[? Hq]|[? (j & Hj)]]; [lia|left|right].
      * split; [done|]. simpl. by apply prefix_lookup_app.
      * split; [done|]. exists j. simpl. rewrite fn_lookup_insert_ne; [done|]. intros <-. by rewrite Hi in Hj.
  - intros j. simpl. destruct (decide (i = j)) as [<-|Hij].
    + rewrite fn_lookup_insert. simpl. rewrite HE, HD. split_and!; [unfold pops, pushes in *; apply prefix_length in Hf; lia|lia|done|].
      exists cE. split; [done|]. by apply HgE.
    + rewrite fn_lookup_insert_ne by done. specialize (Hth j). destruct (prods s j); simpl in *;
        rewrite ?HE, ?HD; try done; try lia; destruct Hth as (? & ? & ?); split_and!;
        first [lia|by apply prefix_lookup_app|done].
  - intros j k pos. simpl. destruct (decide (i = j)) as [<-|Hij], (decide (i = k)) as [<-|Hik];
      rewrite ?fn_lookup_insert, ?fn_lookup_insert_ne by done; simpl; try done.
    + intros <- Hk. apply Hold in Hk; [lia|done].
    + intros Hj <-. apply Hold in Hj; [lia|done].
    + apply Hu.
  - unfold consumer_inv in *. simpl. destruct (consumer s); simpl in *; rewrite ?HE, ?HD; try done.
    + destruct Hc as (? & ? & ?). split_and!; [done|lia|done].
    + destruct Hc as (? & ? & ? & ?). split_and!; [done|lia|by apply prefix_lookup_app|done].
Qed.

(** A producer writes its reserved cell: the item, or the stamp that publishes it. *)
Lemma store_ok p s i pos x c c' st :
  inv p s → claims (prods s i) pos → pops s ≤ pos < pushes s →
  pushed s !! Z.to_nat pos = Some x → cell_at (ring s) pos = Some c → sequence c = pos →
  (st = PPublish pos x ∧ c' = mkCell pos x ∨ st = PIdle ∧ c' = mkCell (pos + 1) x) →
  inv p (move s i st (set_cell (ring s) pos c')).
Proof.
  intros Hinv Hcl Hpos Hx Hc Hseq Hst. pose proof Hinv as [Hp Hm He Hf Hb Hcells Hth Hu Hcon].
  set (s' := move _ _ _ _). assert (pushes s' = pushes s ∧ pops s' = pops s) as [HE HD] by done.
  assert (∀ pos', pops s ≤ pos' < pops s + 2 ^ p → cell_at (ring s') pos' =
    if decide (pos = pos') then Some c' else cell_at (ring s) pos') as Hset.
  { intros pos' Hpos'. by apply (cell_at_set p (ring s) c); try lia. }
  assert (∀ j, i ≠ j → ¬ claims (prods s j) pos) as Hother.
  { intros j Hij Hj. by apply Hij, (Hu i j pos). }
  split; try done; rewrite ?HD.
  - intros pos' Hpos'. unfold cell_inv. rewrite Hset, HE by done. case_decide as Heq.
    + subst pos'. exists c'. split_and!; [done| |lia]. intros _.
      destruct Hst as [[-> ->]|[-> ->]]; [right|by left]. split; [done|]. exists i. simpl.
      by rewrite fn_lookup_insert.
    + destruct (Hcells pos' Hpos') as (c0 & Hc0 & Hlt & Hge). exists c0. split_and!; try done.
      intros Hl. destruct (Hlt Hl) as [?|[? (j & Hj)]]; [by left|right]. split; [done|]. exists j. simpl.
      destruct (decide (i = j)) as [<-|Hij]; [|by rewrite fn_lookup_insert_ne].
      exfalso. apply Heq. destruct (prods s i); simpl in *; (done || congruence).
  - intros j. simpl. destruct (decide (i = j)) as [<-|Hij].
    + rewrite fn_lookup_insert. destruct Hst as [[-> ->]|[-> ->]]; [|done]. simpl. rewrite HE, HD.
      split_and!; [lia|lia|done|]. exists (mkCell pos x). split; [|done].
      rewrite Hset by lia. by rewrite decide_True.
    + rewrite fn_lookup_insert_ne by done. specialize (Hth j). specialize (Hother j Hij).
      destruct (prods s j); simpl in *; rewrite ?HE, ?HD; try done;
        (rewrite Hset by lia; by rewrite decide_False by congruence).
  - intros j k pos'. simpl. assert (∀ j', claims (<[i := st]> (prods s) j') pos' → claims (prods s j') pos') as Hback.
    { intros j'. destruct (decide (i = j')) as [<-|Hij]; [|by rewrite fn_lookup_insert_ne].
      rewrite fn_lookup_insert. destruct Hst as [[-> _]|[-> _]]; simpl; [by intros <-|done]. }
    intros Hj%Hback Hk%Hback. by apply (Hu j k pos').
  - unfold consumer_inv in *. change (consumer s') with (consumer s). rewrite ?HE, ?HD.
    change (dequeue_pos_ (ring s')) with (dequeue_pos_ (ring s)). change (pushed s') with (pushed s).
    change (popped s') with (popped s).
    assert (∀ cD, cell_at (ring s) (pops s) = Some cD → sequence cD = pops s + 1 →
      cell_at (ring s') (pops s) = Some cD) as HcD.
    { intros cD HcD HsD. rewrite Hset by (pose proof (inv_pow p s Hinv); lia). rewrite decide_False; [done|].
      intros ->. rewrite Hc in HcD. injection HcD as ->. lia. }
    destruct (consumer s); try done; naive_solver.
Qed.

(** The consumer hands a cell back. *)
Lemma release_ok p s c out :
  inv p s → headroom p s → consumer s = CStore out →
  cell_at (ring s) (dequeue_pos_ (ring s)) = Some c →
  inv p (mkConc (set_cell (ring s) (dequeue_pos_ (ring s))
                   (mkCell (wrap64 (wrap64 (dequeue_pos_ (ring s) + mask_ (ring s)) + 1)) (data c)))
           (prods s) CInc (pushed s) (popped s ++ [out])).
Proof.
  intros Hinv Hh Hcs Hc. pose proof Hinv as [Hp Hm He Hf Hb Hcells Hth Hu Hcon].
  pose proof (inv_pow p s Hinv) as H2. unfold headroom in Hh.
  unfold consumer_inv in Hcon. rewrite Hcs in Hcon.
  destruct Hcon as (Hd & Hlt & Hout & cD & HcD & HsD). rewrite Hd in *.
  rewrite Hc in HcD. injection HcD as <-.
  assert (0 ≤ pops s) as H0 by (unfold pops; lia).
  rewrite Hm, (wrap64_id (pops s + _)), wrap64_id by range_lia.
  set (c' := mkCell _ _). set (s' := mkConc _ _ _ _ _).
  assert (pushes s' = pushes s) as HE by done.
  assert (pops s' = pops s + 1) as HD by (unfold pops; simpl; rewrite length_app; simpl; lia).
  assert (∀ pos', pops s < pos' < pops s + 2 ^ p → cell_at (ring s') pos' = cell_at (ring s) pos') as Hset.
  { intros pos' Hpos'. simpl. rewrite (cell_at_set p (ring s) c) by (done || lia).
    by rewrite decide_False by lia. }
  assert (∀ j pos, claims (prods s j) pos → pops s < pos < pops s + 2 ^ p) as Hclaim.
  { intros j pos Hj. pose proof (Hth j) as Htj. destruct (prods s j); simpl in *; try done; subst;
      destruct Htj as (? & _ & cj & Hcj & Hsj);
      (destruct (decide (pos = pops s)) as [->|]; [exfalso|lia]); simplify_eq; (lia || destruct Hsj; lia). }
  split; try done.
  - destruct Hf as [k Hk]. simpl. rewrite Hk in Hout |- *.
    rewrite lookup_app_r, Nat.sub_diag in Hout by done. destruct k as [|y k]; [done|].
    injection Hout as ->. exists k. by rewrite <- app_assoc.
  - rewrite HE, HD. lia.
  - rewrite HD. intros pos Hpos. unfold cell_inv. rewrite HE.
    destruct (decide (pos = pops s + 2 ^ p)) as [->|Hne].
    + exists c'. split_and!; [|lia|simpl; lia]. rewrite cell_at_shift by (done || lia). simpl.
      rewrite (cell_at_set p (ring s) c) by (done || lia). by rewrite decide_True.
    + rewrite Hset by lia. apply Hcells. lia.
  - intros j. change (prods s' j) with (prods s j). specialize (Hth j). pose proof (Hclaim j) as Hcj.
    destruct (prods s j) as [|q y|q y|y|q y|q y]; simpl in *; rewrite ?HE, ?HD; try done; try lia;
      specialize (Hcj q eq_refl); destruct Hth as (? & ? & ?); (split_and!; [lia|lia|done|]);
      by rewrite Hset.
  - unfold consumer_inv. simpl. rewrite HD, Hd. lia.
Qed.

Lemma pop_look_ok p s c d :
  inv p s → headroom p s → consumer s = CIdle →
  cell_at (ring s) (dequeue_pos_ (ring s)) = Some c →
  seq_diff (sequence c) (wrap64 (dequeue_pos_ (ring s) + 1)) = Some d →
  inv p (mkConc (ring s) (prods s) (if bool_decide (d ≠ 0) then CIdle else CTake)
           (pushed s) (popped s)) ∧
  (d ≠ 0 → pushes s = pops s ∨ ∃ i, claims (prods s i) (pops s)).
Proof.
  intros Hinv Hh Hcs Hc Hd. pose proof Hinv as [Hp Hm He Hf Hb Hcells Hth Hu Hcon].
  pose proof (inv_pow p s Hinv) as H2. unfold headroom in Hh.
  unfold consumer_inv in Hcon. rewrite Hcs in Hcon. rewrite Hcon in *.
  destruct (Hcells (pops s)) as (c0 & Hc0 & Hlt & Hge); [lia|]. rewrite Hc in Hc0. injection Hc0 as <-.
  assert (0 ≤ pops s ≤ pushes s) as Hle by (unfold pops, pushes; apply prefix_length in Hf; lia).
  assert (sequence c = pops s ∨ sequence c = pops s + 1 ∧ pops s < pushes s) as Hs.
  { destruct (decide (pops s < pushes s)) as [Hl|]; [|left; apply Hge; lia].
    destruct (Hlt Hl) as [[? _]|[? _]]; auto. }
  rewrite wrap64_id in Hd by range_lia. rewrite seq_diff_small in Hd by lia. injection Hd as <-. split.
  - split; try done. unfold consumer_inv. simpl. case_bool_decide; simpl; [done|].
    split_and!; [done|unfold pushes, pops in *; simpl; lia|]. exists c. split; [done|]. change (sequence c = pops s + 1). lia.
  - intros Hne. destruct (decide (pops s < pushes s)) as [Hl|]; [right|left; lia].
    destruct (Hlt Hl) as [[? _]|[_ ?]]; [lia|done].
Qed.

Lemma pop_read_ok p s c :
  inv p s → consumer s = CTake → cell_at (ring s) (dequeue_pos_ (ring s)) = Some c →
  inv p (mkConc (ring s) (prods s) (CStore (data c)) (pushed s) (popped s)).
Proof.
  intros Hinv Hcs Hc. pose proof Hinv as [Hp Hm He Hf Hb Hcells Hth Hu Hcon].
  pose proof (inv_pow p s Hinv) as H2.
  unfold consumer_inv in Hcon. rewrite Hcs in Hcon. destruct Hcon as (Hd & Hlt & c0 & Hc0 & Hs0).
  rewrite Hd, Hc0 in Hc. injection Hc as ->.
  destruct (Hcells (pops s)) as (c1 & Hc1 & Hl & _); [lia|]. rewrite Hc0 in Hc1. injection Hc1 as <-.
  split; try done. unfold consumer_inv. simpl. split_and!; [done|done| |by exists c].
  destruct (Hl Hlt) as [[_ Hq]|[? _]]; [|lia]. unfold pops in Hq. by rewrite Nat2Z.id in Hq.
Qed.

Lemma step_inv p s e s' : inv p s → headroom p s → step s e s' → inv p s'.
Proof.
  intros Hinv Hh Hstep. pose proof (inv_enq p s Hinv) as He.
  assert (∀ i x, (∀ pos, ¬ claims (prods s i) pos) →
    inv p (move s i (PLoop (enqueue_pos_ (ring s)) x) (ring s))) as Hloop.
  { intros i x Hno. apply inv_move; [done|done|by intros pos []|]. simpl. rewrite He. unfold pushes. lia. }
  destruct Hstep as [s i x Hi|s i pos x c d Hi Hc Hd|s i pos x Hi Hpos|s i pos x Hi|s i x Hi
    |s i pos x c Hi Hc|s i pos x c Hi Hc|s c d Hcs Hc Hd|s c Hcs Hc|s c out Hcs Hc|s Hcs].
  - apply Hloop. by rewrite Hi; intros ? [].
  - by apply (look_ok p s i pos x c d).
  - by apply cas_ok.
  - apply Hloop. by rewrite Hi; intros ? [].
  - apply Hloop. by rewrite Hi; intros ? [].
  - pose proof (inv_threads p s Hinv i) as Ht. rewrite Hi in Ht. destruct Ht as (? & ? & c0 & Hc0 & Hs).
    rewrite Hc in Hc0. injection Hc0 as <-. rewrite Hs.
    eapply store_ok; try done; [by rewrite Hi|by left].
  - pose proof (inv_threads p s Hinv i) as Ht. rewrite Hi in Ht.
    destruct Ht as (Hr & ? & c0 & Hc0 & Hs & Hx). rewrite Hc in Hc0. injection Hc0 as <-. rewrite Hx.
    unfold headroom, pops in *. rewrite wrap64_id by range_lia.
    eapply store_ok; try done; [by rewrite Hi|by right].
  - by apply (pop_look_ok p s c d).
  - by apply pop_read_ok.
  - by apply release_ok.
  - destruct Hinv as [Hp Hm _ Hf Hb Hcells Hth Hu Hcon]. unfold consumer_inv in Hcon. rewrite Hcs in Hcon.
    split; try done. unfold consumer_inv. simpl. unfold headroom, pops, pushes in *.
    apply prefix_length in Hf. rewrite wrap64_id; [simpl; lia|range_lia].
Qed.

Lemma step_pushes s e s' : step s e s' → pushes s ≤ pushes s'.
Proof. destruct 1; unfold pushes; simpl; rewrite ?length_app; lia. Qed.

Lemma start_inv dflt p : 1 ≤ p ≤ 62 → inv p (start dflt (2 ^ p)).
Proof.
  intros Hp. pose proof (make_ring_rep dflt p Hp) as [_ Hm _ _ _ _ Hcells].
  split; try done.
  - unfold pushes, pops. simpl. pose proof (Z.pow_pos_nonneg 2 p). lia.
  - intros pos Hpos. unfold pops in Hpos. simpl in Hpos.
    destruct (Hcells pos Hpos) as (c & Hc & Hs). exists c. split_and!; [done| |].
    + unfold pushes. simpl. lia.
    + intros _. by rewrite bool_decide_false in Hs by (simpl; lia).
Qed.

Lemma reachable_inv dflt p s :
  1 ≤ p ≤ 62 → reachable dflt (2 ^ p) s → headroom p s → inv p s.
Proof.
  intros Hp. revert s. apply (rtc_ind_r (λ s, headroom p s → inv p s)).
  - intros _. by apply start_inv.
  - intros s s' _ (e & Hstep) IH Hh. pose proof (step_pushes s e s' Hstep). apply (step_inv p s e); [apply IH| |done]; unfold headroom in *; lia.
Qed.
End Conc.
Arguments conc : clear implicits.

(** ** What the interleavings guarantee *)

Section Guarantees.
Context {T : Type}.
Implicit Types s : conc T.

(** Under every interleaving of any number of producers and one consumer, the
    items come out in the order in which positions were reserved, none lost,
    none twice: what has been popped is a prefix of what has been pushed, and at
    most [capacity] items are in between. *)
Theorem ring_fifo (dflt : T) p s :
  1 ≤ p ≤ 62 → reachable dflt (2 ^ p) s → headroom p s →
  popped s `prefix_of` pushed s ∧ pushes s ≤ pops s + 2 ^ p.
Proof. intros Hp Hr Hh. by destruct (reachable_inv dflt p s Hp Hr Hh). Qed.


(** Items are never accessed by two threads at once: while a producer is
    writing or about to publish an item, no other producer and not the consumer
    is at the same cell. *)
Theorem ring_exclusive (dflt : T) p s i pos :
  1 ≤ p ≤ 62 → reachable dflt (2 ^ p) s → headroom p s → claims (prods s i) pos →
  (∀ j pos', j ≠ i → claims (prods s j) pos' → cell_index (ring s) pos' ≠ cell_index (ring s) pos) ∧
  (consumer s = CTake ∨ (∃ out, consumer s = CStore out) →
    cell_index (ring s) (dequeue_pos_ (ring s)) ≠ cell_index (ring s) pos).
Proof.
  intros Hp Hr Hh Hi. pose proof (reachable_inv dflt p s Hp Hr Hh) as Hinv.
  pose proof (inv_pow p s Hinv) as H2. pose proof Hinv as [_ Hm _ Hf Hb _ Hth Hu Hcon].
  assert (∀ j q, claims (prods s j) q → 0 ≤ pops s ≤ q ∧ q < pops s + 2 ^ p ∧
    ∃ c, cell_at (ring s) q = Some c ∧ sequence c = q) as Hcl.
  { intros j q Hj. specialize (Hth j). assert (0 ≤ pops s) by (unfold pops; lia).
    destruct (prods s j); simpl in *; try done; subst; destruct Hth as (? & _ & c & ? & ?);
      (split_and!; [lia|lia|lia|]); exists c; naive_solver. }
  assert (∀ a b, 0 ≤ pops s ≤ a → a < pops s + 2 ^ p → 0 ≤ pops s ≤ b → b < pops s + 2 ^ p →
    cell_index (ring s) a = cell_index (ring s) b → a = b) as Hinj.
  { intros a b Ha Ha' Hb1 Hb2. rewrite !(cell_index_mod p) by (done || lia). intros Heq.
    apply (mod_window _ _ (2 ^ p)); [lia| |lia].
    pose proof (Z.mod_pos_bound a (2 ^ p) ltac:(lia)). pose proof (Z.mod_pos_bound b (2 ^ p) ltac:(lia)). lia. }
  destruct (Hcl i pos Hi) as (Hi1 & Hi2 & ci & Hci & Hsi). split.
  - intros j q Hji Hj Heq. destruct (Hcl j q Hj) as (Hj1 & Hj2 & _).
    apply Hinj in Heq; [|done..]. subst q. by apply Hji, (Hu j i pos).
  - intros Hc Heq.
    assert (dequeue_pos_ (ring s) = pops s ∧ ∃ c, cell_at (ring s) (pops s) = Some c ∧ sequence c = pops s + 1)
      as (Hd & c & HcD & HsD).
    { unfold consumer_inv in Hcon. destruct Hc as [Hc|[out Hc]]; rewrite Hc in Hcon; naive_solver. }
    rewrite Hd in Heq. apply Hinj in Heq; [|lia..]. rewrite <- Heq, HcD in Hci. injection Hci as ->. lia.
Qed.

(** No interleaving gets stuck: every access is to a cell of the buffer and no
    difference of positions overflows, so each producer inside [try_push], and the
    consumer, can always take its next step. *)
Theorem ring_progress (dflt : T) p s :
  1 ≤ p ≤ 62 → reachable dflt (2 ^ p) s → headroom p s →
  (∀ i, prods s i ≠ PIdle → ∃ e rb st l,
     step s e (mkConc rb (<[i := st]> (prods s)) (consumer s) l (popped s))) ∧
  (∃ e rb st l, step s e (mkConc rb (prods s) st (pushed s) l)).
Proof.
  intros Hp Hr Hh. pose proof (reachable_inv dflt p s Hp Hr Hh) as Hinv.
  assert (∀ pos q, 0 ≤ pos → 0 ≤ q ≤ pushes s + 1 →
    ∃ c d, cell_at (ring s) pos = Some c ∧ seq_diff (sequence c) q = Some d) as Hcell.
  { intros pos q Hpos Hq. destruct (cell_stamp p s pos Hinv Hpos) as (c & r & Hc & Hr' & _ & Hs).
    exists c, (sequence c - q). split; [done|]. unfold headroom, pops in *.
    pose proof (inv_fifo p s Hinv) as Hf%prefix_length. unfold pushes in *.
    apply seq_diff_small; lia. }
  assert (0 ≤ pops s ≤ pushes s) as Hle.
  { pose proof (inv_fifo p s Hinv) as Hf%prefix_length. unfold pops, pushes. lia. }
  split.
  - intros i Hi. pose proof (inv_threads p s Hinv i) as Ht.
    destruct (prods s i) as [|pos x|pos x|x|pos x|pos x] eqn:Hst; [done|..]; simpl in Ht.
    + destruct (Hcell pos pos) as (c & d & Hc & Hd); [lia..|]. do 4 eexists. by eapply push_look.
    + do 4 eexists. by eapply push_cas_fail.
    + do 4 eexists. by eapply push_reload.
    + destruct Ht as (_ & _ & c & Hc & _). do 4 eexists. by eapply push_write.
    + destruct Ht as (_ & _ & c & Hc & _). do 4 eexists. by eapply push_publish.
  - pose proof (inv_consumer p s Hinv) as Hc. pose proof (inv_deq p s Hinv) as Hd.
    unfold consumer_inv in Hc. destruct (consumer s) eqn:Hcs.
    + destruct (Hcell (dequeue_pos_ (ring s)) (wrap64 (dequeue_pos_ (ring s) + 1))) as (c & d & Hc' & Hd').
      { lia. } { unfold headroom in Hh. rewrite wrap64_id by range_lia. lia. }
      do 4 eexists. by eapply pop_look.
    + destruct Hc as (Hd' & _ & c & Hc & _). do 4 eexists. eapply pop_read; [done|by rewrite Hd'].
    + destruct Hc as (Hd' & _ & _ & c & Hc & _). do 4 eexists. eapply pop_release; [done|by rewrite Hd'].
    + do 4 eexists. by eapply pop_inc.
Qed.
End Guarantees.

(** *** A run of two producers *)

Module ExampleRing.
Definition s0 : conc Z := start 0 (2 ^ 1).
(** Producer 5 has reserved a position for item 7, producer 6 is about to. *)
Definition s1 : conc Z := move s0 5 (PLoop 0 7) (ring s0).
Definition s2 : conc Z := move s1 5 (PCas 0 7) (ring s1).
Definition s3 : conc Z :=
  mkConc (set_enqueue (ring s2) (wrap64 (0 + 1))) (<[5%nat := PWrite 0 7]> (prods s2))
    (consumer s2) (pushed s2 ++ [7]) (popped s2).
Definition s4 : conc Z := move s3 6 (PLoop 1 8) (ring s3).

Lemma s4_reachable : reachable 0 (2 ^ 1) s4.
Proof.
  unfold reachable. apply (rtc_l _ _ s1); [exists Tau; by apply (push_begin s0 5 7)|].
  apply (rtc_l _ _ s2); [exists Tau; by apply (push_look s1 5 0 7 (mkCell 0 0) 0)|].
  apply (rtc_l _ _ s3); [exists Tau; by apply (push_cas_ok s2 5 0 7)|].
  apply (rtc_l _ _ s4); [exists Tau; by apply (push_begin s3 6 8)|]. apply rtc_refl.
Qed.
End ExampleRing.

Lemma ring_fifo_witness :
  popped ExampleRing.s4 `prefix_of` pushed ExampleRing.s4 ∧
  pushes ExampleRing.s4 ≤ pops ExampleRing.s4 + 2 ^ 1.
Proof. apply (ring_fifo 0 1); [lia|apply ExampleRing.s4_reachable|by_compute]. Defined.


Lemma ring_exclusive_witness :
  let s := ExampleRing.s4 in
  (∀ j pos', j ≠ 5%nat → claims (prods s j) pos' → cell_index (ring s) pos' ≠ cell_index (ring s) 0) ∧
  (consumer s = CTake ∨ (∃ out, consumer s = CStore out) →
    cell_index (ring s) (dequeue_pos_ (ring s)) ≠ cell_index (ring s) 0).
Proof.
  intros s. apply (ring_exclusive 0 1 s 5 0); [lia|apply ExampleRing.s4_reachable|by_compute|reflexivity].
Defined.

Lemma ring_progress_witness :
  let s := ExampleRing.s4 in
  (∀ i, prods s i ≠ PIdle → ∃ e rb st l,
     step s e (mkConc rb (<[i := st]> (prods s)) (consumer s) l (popped s))) ∧
  (∃ e rb st l, step s e (mkConc rb (prods s) st (pushed s) l)).
Proof. intros s. apply (ring_progress 0 1); [lia|apply ExampleRing.s4_reachable|by_compute]. Defined.
