(* ===== verification/ReleaseAcquire.v ===== *)
(** * Release and acquire

    The fragment of the C++ memory model the program relies on, as a machine with
    views: an atomic location is the set of the messages written to it, ordered by
    timestamps; a thread's view says how much of each location it is bound to have
    seen, and which earlier accesses happen before whatever it does next.  A load
    may return any message that is not older than the view; an acquire load adds
    the view that came with the message, a release store sends the thread's view
    along.  A read-modify-write takes the timestamp next to the one it reads, so
    that nothing comes between.  Relaxed accesses send and take no view.  Accesses
    that can take part in a data race are entered in a log. *)

From stdpp Require Import functions.
From S2P Require Import Prelude.

Section Views.
Context {A : Type} `{EqDecision A}.

(** Timestamps of atomic locations, and the numbers of logged accesses. *)
Record view := mkView { v_at : A → Z; v_seen : gset nat }.

Definition bottom : view := mkView (λ _, 0) ∅.
Definition join (V W : view) : view := mkView (λ a, v_at V a `max` v_at W a) (v_seen V ∪ v_seen W).
(** The view that has also seen the message at [t]. *)
Definition see (a : A) (t : Z) (V : view) : view := mkView (<[a := v_at V a `max` t]> (v_at V)) (v_seen V).

Definition vle (V W : view) : Prop := (∀ a, v_at V a ≤ v_at W a) ∧ v_seen V ⊆ v_seen W.

#[export] Instance vle_preorder : PreOrder vle.
Proof.
  split; [by intros V|]. intros V W X [Ha Hs] [Ha' Hs']. split; [|set_solver].
  intros a. specialize (Ha a). specialize (Ha' a). lia.
Qed.

Lemma join_l V W : vle V (join V W).
Proof. split; [intros a; simpl; lia|simpl; set_solver]. Qed.
Lemma join_r V W : vle W (join V W).
Proof. split; [intros a; simpl; lia|simpl; set_solver]. Qed.

Lemma see_at a t V : v_at (see a t V) a = v_at V a `max` t.
Proof. simpl. by rewrite fn_lookup_insert. Qed.
Lemma see_other a b t V : a ≠ b → v_at (see a t V) b = v_at V b.
Proof. intros Hne. simpl. by rewrite fn_lookup_insert_ne. Qed.
Lemma see_le a t V : vle V (see a t V).
Proof.
  split; [|done]. intros b. destruct (decide (a = b)) as [<-|Hne]; [rewrite see_at; lia|by rewrite see_other].
Qed.
End Views.
Arguments view : clear implicits.

(** ** Memory *)

(** An access to the location [a_loc] that may race. *)
Record access (N : Type) := mkAccess { a_loc : N; a_write : bool; a_atomic : bool }.
Arguments mkAccess {N} _ _ _.
Arguments a_loc {N} _.
Arguments a_write {N} _.
Arguments a_atomic {N} _.

(** Two accesses to one location, one of them a write and not both atomic. *)
Definition conflict {N} (x y : access N) : Prop :=
  a_loc x = a_loc y ∧ (a_write x = true ∨ a_write y = true) ∧ (a_atomic x = false ∨ a_atomic y = false).

Section Memory.
Context {A N : Type} `{EqDecision A}.
Implicit Types (V W U : view A).

Record memory := mkMemory {
  messages : A → gmap Z (Z * view A);
  log : list (access N)
}.

Definition send (m : memory) (a : A) (t : Z) (v : Z) (W : view A) : memory :=
  mkMemory (<[a := <[t := (v, W)]> (messages m a)]> (messages m)) (log m).

Inductive load (m : memory) V (a : A) (acquire : bool) : Z → view A → Prop :=
  | load_message t v W :
      messages m a !! t = Some (v, W) → v_at V a ≤ t →
      load m V a acquire v (see a t (if acquire then join V W else V)).

Inductive store (m : memory) V (a : A) (v : Z) (release : bool) : memory → view A → Prop :=
  | store_message t :
      messages m a !! t = None → v_at V a < t →
      store m V a v release (send m a t v (see a t (if release then V else bottom))) (see a t V).

(** A relaxed compare-exchange that succeeds. *)
Inductive exchange (m : memory) V (a : A) (v v' : Z) : memory → view A → Prop :=
  | exchange_message t W :
      messages m a !! t = Some (v, W) → v_at V a ≤ t → messages m a !! (t + 1) = None →
      exchange m V a v v' (send m a (t + 1) v' (see a (t + 1) W)) (see a (t + 1) V).

(** Entering an access in the log; it happens before what the thread does next. *)
Definition enter (m : memory) (x : access N) : memory := mkMemory (messages m) (log m ++ [x]).
Definition entered (m : memory) V : view A := mkView (v_at V) ({[length (log m)]} ∪ v_seen V).

(** Every logged access of the kind [Q] happens before what a thread with view
    [V] does next. *)
Definition knows (m : memory) (Q : access N → Prop) V : Prop :=
  ∀ n x, log m !! n = Some x → Q x → n ∈ v_seen V.

(** An access that races with no earlier one. *)
Definition ordered (m : memory) V (x : access N) : Prop := knows m (λ y, conflict y x) V.

(** [V] has seen the last message of [a]. *)
Definition latest (m : memory) (a : A) (t : Z) : Prop := ∀ t' msg, messages m a !! t' = Some msg → t' ≤ t.

Lemma knows_le m Q V W : knows m Q V → vle V W → knows m Q W.
Proof. intros Hk [_ Hs] n x Hn HQ. apply Hs. by eapply Hk. Qed.
Lemma knows_impl m (Q Q' : access N → Prop) V : knows m Q V → (∀ x, Q' x → Q x) → knows m Q' V.
Proof. intros Hk HQ n x Hn Hx. eapply Hk; eauto. Qed.
Lemma knows_nil m Q V : log m = [] → knows m Q V.
Proof. intros Hl k x. by rewrite Hl, lookup_nil. Qed.
Lemma knows_send m a t v W Q V : knows m Q V → knows (send m a t v W) Q V.
Proof. done. Qed.
(** An access of another kind is entered. *)
Lemma knows_enter_other m x Q V : knows m Q V → ¬ Q x → knows (enter m x) Q V.
Proof.
  intros Hk Hx n y [[_ Hn]|[_ <-]]%lookup_snoc_Some Hy; [by eapply Hk|done].
Qed.
(** The thread enters the access itself. *)
Lemma knows_enter m x Q V : knows m Q V → knows (enter m x) Q (entered m V).
Proof.
  intros Hk n y [[_ Hn]|[-> _]]%lookup_snoc_Some Hy; simpl; [|set_solver].
  assert (n ∈ v_seen V) by (by eapply Hk). set_solver.
Qed.
Lemma entered_le m V : vle V (entered m V).
Proof. split; [done|simpl; set_solver]. Qed.

Lemma load_le m V a acq v V' : load m V a acq v V' → vle V V'.
Proof.
  intros [t w W _ _]. etrans; [|apply see_le]. destruct acq; [apply join_l|done].
Qed.
Lemma store_le m V a v r m' V' : store m V a v r m' V' → vle V V'.
Proof. intros [t _ _]. apply see_le. Qed.

Lemma send_eq m a t v W : messages (send m a t v W) a = <[t := (v, W)]> (messages m a).
Proof. simpl. by rewrite fn_lookup_insert. Qed.
Lemma send_ne m a b t v W : a ≠ b → messages (send m a t v W) b = messages m b.
Proof. intros Hne. simpl. by rewrite fn_lookup_insert_ne. Qed.

Lemma latest_send m a t v W : latest m a t → ∀ t', t < t' → latest (send m a t' v W) a t'.
Proof.
  intros Hl t' Ht u msg. rewrite send_eq. intros [[<- _]|[_ Hu]]%lookup_insert_Some; [lia|].
  apply Hl in Hu. lia.
Qed.
Lemma latest_send_ne m a b t u v W : a ≠ b → latest m b t → latest (send m a u v W) b t.
Proof. intros Hne Hl u' msg. rewrite send_ne by done. apply Hl. Qed.

(** *** No view is ahead of memory *)

Definition bounded (m : memory) V : Prop :=
  ∀ a, 0 ≤ v_at V a ∧ (v_at V a = 0 ∨ ∃ t msg, messages m a !! t = Some msg ∧ v_at V a ≤ t).
Definition closed (m : memory) : Prop :=
  ∀ a t v W, messages m a !! t = Some (v, W) → 0 ≤ t ∧ bounded m W.

Lemma bounded_bottom m : bounded m bottom.
Proof. intros a. simpl. auto with lia. Qed.
Lemma bounded_join m V W : bounded m V → bounded m W → bounded m (join V W).
Proof.
  intros HV HW a. simpl. destruct (HV a), (HW a). destruct (Z.max_spec (v_at V a) (v_at W a)) as [[_ ->]|[_ ->]]; done.
Qed.
Lemma bounded_see m a t msg V : bounded m V → messages m a !! t = Some msg → 0 ≤ t → bounded m (see a t V).
Proof.
  intros HV Hm Ht b. destruct (decide (a = b)) as [<-|Hne]; [|rewrite see_other by done; apply HV].
  rewrite see_at. destruct (HV a) as [H0 Hb]. split; [lia|right].
  destruct Hb as [Hz|(u & msg' & Hu & Hle)]; [exists t, msg; split; [done|lia]|].
  destruct (decide (t ≤ u)); [exists u, msg'; split; [done|lia]|exists t, msg; split; [done|lia]].
Qed.
Lemma bounded_send m a t v W V : bounded m V → messages m a !! t = None → bounded (send m a t v W) V.
Proof.
  intros HV Hf b. destruct (HV b) as [H0 Hb]. split; [done|]. destruct Hb as [|(u & msg & Hu & Hle)]; [by left|].
  right. exists u, msg. split; [|done]. destruct (decide (a = b)) as [<-|Hne]; [|by rewrite send_ne].
  rewrite send_eq, lookup_insert_ne by congruence. done.
Qed.
Lemma closed_send m a t v W :
  closed m → messages m a !! t = None → 0 ≤ t → bounded (send m a t v W) W → closed (send m a t v W).
Proof.
  intros Hc Hf Ht HW b u w X. destruct (decide (a = b)) as [<-|Hne].
  - rewrite send_eq. intros [[<- H]|[_ Hu]]%lookup_insert_Some; [by injection H as <- <-|].
    destruct (Hc a u w X Hu). split; [done|by apply bounded_send].
  - rewrite send_ne by done. intros Hu. destruct (Hc b u w X Hu). split; [done|by apply bounded_send].
Qed.

Lemma bounded_sent m a t v W V :
  bounded m V → messages m a !! t = None → 0 ≤ t → bounded (send m a t v W) (see a t V).
Proof.
  intros HV Hf Ht. apply (bounded_see _ a t (v, W)); [by apply bounded_send| |done].
  by rewrite send_eq, lookup_insert_eq.
Qed.

Lemma load_bounded m V a acq v V' : closed m → bounded m V → load m V a acq v V' → bounded m V'.
Proof.
  intros Hc HV [t w W Hm Ht]. destruct (Hc a t w W Hm) as [H0 HW].
  eapply bounded_see; [|done|done]. destruct acq; [by apply bounded_join|done].
Qed.
Lemma store_bounded m V a v r m' V' : closed m → bounded m V → store m V a v r m' V' →
  closed m' ∧ bounded m' V' ∧ ∀ U, bounded m U → bounded m' U.
Proof.
  intros Hc HV [t Hf Ht]. destruct (HV a) as [H0 _]. split_and!; [|apply bounded_sent; [done|done|lia]|].
  - apply closed_send; [done|done|lia|]. apply bounded_sent; [by destruct r; [|apply bounded_bottom]|done|lia].
  - intros U HU. by apply bounded_send.
Qed.
Lemma exchange_bounded m V a v v' m' V' : closed m → bounded m V → exchange m V a v v' m' V' →
  closed m' ∧ bounded m' V' ∧ ∀ U, bounded m U → bounded m' U.
Proof.
  intros Hc HV [t W Hm Ht Hf]. destruct (Hc a t v W Hm) as [Ht0 HW].
  split_and!; [|apply bounded_sent; [done|done|lia]|].
  - apply closed_send; [done|done|lia|]. apply bounded_sent; [done|done|lia].
  - intros U HU. by apply bounded_send.
Qed.

(** A view can always see the last message. *)
Lemma bounded_latest m V a t msg : closed m → bounded m V → messages m a !! t = Some msg → latest m a t → v_at V a ≤ t.
Proof.
  intros Hc HV Hm Hl. destruct msg as [v W]. destruct (Hc a t v W Hm) as [H0 _].
  destruct (HV a) as [_ [->|(u & msg & Hu & Hle)]]; [done|]. apply Hl in Hu. lia.
Qed.
End Memory.
Arguments memory : clear implicits.
Create HintDb views.
#[export] Hint Resolve knows_send knows_enter entered_le see_le join_l join_r : views.
