(* ===== verification/RingWeak.v ===== *)
(** * The queue and the completion slots under the C++ memory model

    The code that producers and the writer run concurrently, with the memory orders
    it is written with: constructing a [Completion], [submit] with [try_push],
    waiting for [done] and reading [error] (src/main.cpp, src/engine.cpp,
    ring_buffer.hpp) on one side, [try_pop] and [complete] on the other.  The
    accesses are those of [ReleaseAcquire]; loads may return stale values.  Shown
    are the absence of data races, that every item arrives unchanged and in order,
    and that a producer reads the answer to its own request. *)

From stdpp Require Import functions relations.
From S2P Require Import Prelude Types RingBuffer ReleaseAcquire.

(** ** Locations *)

(** [enqueue_pos_], the [sequence] of a cell, the [done] of a thread's completion, and
    [published_], which [ReadersWeak] uses. *)
Inductive aloc := Enqueue | Sequence (k : nat) | Flag (i : nat) | Published.
(** The [data] of a cell, the [error] of a completion, its [done] as an object that is
    constructed, and the states that have been published. *)
Inductive nloc := Data (k : nat) | Answer (i : nat) | Done (i : nat) | Object (k : nat).

#[export] Instance aloc_eq_dec : EqDecision aloc.
Proof. solve_decision. Defined.
#[export] Instance nloc_eq_dec : EqDecision nloc.
Proof. solve_decision. Defined.

Section Machine.
Context {T : Type}.

(** A request: the thread whose completion it points to, and the transaction. *)
Abbreviation item := (nat * T)%type.

(** Where a producer is. *)
Inductive pstate :=
  | PIdle
  | PInit (x : T)                (* [done] constructed, [error] to be *)
  | PReset (x : T)               (* [submit], about to clear [done] *)
  | PLoad (x : T)                (* about to load the position *)
  | PLoop (pos : Z) (x : T)      (* top of the loop of [try_push] *)
  | PCas (pos : Z) (x : T)
  | PWrite (pos : Z) (x : T)     (* position reserved *)
  | PPublish (pos : Z) (x : T)
  | PWait (pos : Z)              (* submitted at [pos], which it no longer knows *)
  | PRead (pos : Z)              (* [done] was true *)
  | PGot (pos : Z) (e : LedgerError).

(** Where the writer is. *)
Inductive cstate :=
  | CIdle
  | CTake                        (* about to read the item *)
  | CStore (out : item)
  | CInc (out : item)
  | CServe (out : item)          (* the request is processed *)
  | CSignal (out : item).        (* [error] is written, [done] not yet *)

Record weak := mkWeak {
  mem : memory aloc nloc;
  items : nat → item;
  errors : nat → LedgerError;
  pview : nat → view aloc;
  cview : view aloc;
  prods : nat → pstate;
  cons : cstate;
  dequeue_pos : Z;
  (* what has happened: reservations and pops in their order, answers *)
  pushed : list item;
  popped : list item;
  answers : list LedgerError
}.

(** [mask_] of the ring. *)
Variable mask : Z.
Definition cell_of (pos : Z) : nat := Z.to_nat (Z.land pos mask).

(** Every cell stamped with its index, which all threads have seen. *)
Definition start (dflt : item) : weak :=
  mkWeak (mkMemory (λ a, match a with
                         | Enqueue => {[0 := (0, bottom)]}
                         | Sequence k => {[0 := (Z.of_nat k, bottom)]}
                         | Flag _ => ∅
                         | Published => {[0 := (0, bottom)]}
                         end) [])
    (λ _, dflt) (λ _, LedgerError.None) (λ _, bottom) bottom (λ _, PIdle) CIdle 0 [] [] [].

(** Producer [i] moves on. *)
Definition move (s : weak) (i : nat) (st : pstate) (m : memory aloc nloc) (V : view aloc) : weak :=
  mkWeak m (items s) (errors s) (<[i := V]> (pview s)) (cview s) (<[i := st]> (prods s)) (cons s)
    (dequeue_pos s) (pushed s) (popped s) (answers s).
(** The writer moves on. *)
Definition turn (s : weak) (st : cstate) (m : memory aloc nloc) (V : view aloc) : weak :=
  mkWeak m (items s) (errors s) (pview s) V (prods s) st (dequeue_pos s) (pushed s) (popped s) (answers s).

(** Writes to memory that is not atomic. *)
Definition write_item (s : weak) (k : nat) (it : item) : weak :=
  mkWeak (mem s) (<[k := it]> (items s)) (errors s) (pview s) (cview s) (prods s) (cons s)
    (dequeue_pos s) (pushed s) (popped s) (answers s).
Definition write_error (s : weak) (i : nat) (e : LedgerError) : weak :=
  mkWeak (mem s) (items s) (<[i := e]> (errors s)) (pview s) (cview s) (prods s) (cons s)
    (dequeue_pos s) (pushed s) (popped s) (answers s).
(** What has happened. *)
Definition note (s : weak) (push pop : list item) (answer : list LedgerError) : weak :=
  mkWeak (mem s) (items s) (errors s) (pview s) (cview s) (prods s) (cons s) (dequeue_pos s)
    (pushed s ++ push) (popped s ++ pop) (answers s ++ answer).
Definition advance (s : weak) : weak :=
  mkWeak (mem s) (items s) (errors s) (pview s) (cview s) (prods s) (cons s) (wrap64 (dequeue_pos s + 1))
    (pushed s) (popped s) (answers s).

(** The accesses that may race. *)
Definition write_na (l : nloc) : access nloc := mkAccess l true false.
Definition read_na (l : nloc) : access nloc := mkAccess l false false.
Definition write_at (l : nloc) : access nloc := mkAccess l true true.
Definition read_at (l : nloc) : access nloc := mkAccess l false true.

Inductive step (s : weak) : weak → Prop :=
  (* Completion completion{}; *)
  | p_construct_done i x m V :
      prods s i = PIdle →
      store (enter (mem s) (write_na (Done i))) (entered (mem s) (pview s i)) (Flag i) 0 false m V →
      step s (move s i (PInit x) m V)
  | p_construct_error i x :
      prods s i = PInit x →
      step s (write_error (move s i (PReset x) (enter (mem s) (write_na (Answer i))) (entered (mem s) (pview s i)))
                i LedgerError.None)
  (* submit: completion.done.store(false, relaxed) *)
  | p_reset i x m V :
      prods s i = PReset x →
      store (enter (mem s) (write_at (Done i))) (entered (mem s) (pview s i)) (Flag i) 0 false m V →
      step s (move s i (PLoad x) m V)
  (* try_push *)
  | p_load i x pos V :
      prods s i = PLoad x → load (mem s) (pview s i) Enqueue false pos V →
      step s (move s i (PLoop pos x) (mem s) V)
  | p_look i pos x v V diff :
      prods s i = PLoop pos x → load (mem s) (pview s i) (Sequence (cell_of pos)) true v V →
      seq_diff v pos = Some diff →
      step s (move s i (if bool_decide (diff = 0) then PCas pos x
                        else if bool_decide (diff < 0) then PIdle else PLoad x) (mem s) V)
  | p_cas_ok i pos x m V :
      prods s i = PCas pos x → exchange (mem s) (pview s i) Enqueue pos (wrap64 (pos + 1)) m V →
      step s (note (move s i (PWrite pos x) m V) [(i, x)] [] [])
  | p_cas_fail i pos x pos' V :
      prods s i = PCas pos x → load (mem s) (pview s i) Enqueue false pos' V →
      step s (move s i (PLoop pos' x) (mem s) V)
  | p_write i pos x :
      prods s i = PWrite pos x →
      step s (write_item (move s i (PPublish pos x) (enter (mem s) (write_na (Data (cell_of pos))))
                            (entered (mem s) (pview s i))) (cell_of pos) (i, x))
  | p_publish i pos x m V :
      prods s i = PPublish pos x →
      store (mem s) (pview s i) (Sequence (cell_of pos)) (wrap64 (pos + 1)) true m V →
      step s (move s i (PWait pos) m V)
  (* while (!completion.done.load(acquire)) *)
  | p_poll i pos v V :
      prods s i = PWait pos →
      load (enter (mem s) (read_at (Done i))) (entered (mem s) (pview s i)) (Flag i) true v V →
      step s (move s i (if bool_decide (v = 0) then PWait pos else PRead pos)
                (enter (mem s) (read_at (Done i))) V)
  | p_read i pos :
      prods s i = PRead pos →
      step s (move s i (PGot pos (errors s i)) (enter (mem s) (read_na (Answer i)))
                (entered (mem s) (pview s i)))
  | p_leave i pos e :
      prods s i = PGot pos e →
      step s (move s i PIdle (mem s) (pview s i))
  (* try_pop *)
  | c_look v V diff :
      cons s = CIdle → load (mem s) (cview s) (Sequence (cell_of (dequeue_pos s))) true v V →
      seq_diff v (wrap64 (dequeue_pos s + 1)) = Some diff →
      step s (turn s (if bool_decide (diff ≠ 0) then CIdle else CTake) (mem s) V)
  | c_take :
      cons s = CTake →
      step s (turn s (CStore (items s (cell_of (dequeue_pos s))))
                (enter (mem s) (read_na (Data (cell_of (dequeue_pos s))))) (entered (mem s) (cview s)))
  | c_release out m V :
      cons s = CStore out →
      store (mem s) (cview s) (Sequence (cell_of (dequeue_pos s)))
        (wrap64 (wrap64 (dequeue_pos s + mask) + 1)) true m V →
      step s (note (turn s (CInc out) m V) [] [out] [])
  | c_inc out :
      cons s = CInc out →
      step s (advance (turn s (CServe out) (mem s) (cview s)))
  (* complete: completion.error = error; completion.done.store(true, release) *)
  | c_answer out e :
      cons s = CServe out →
      step s (note (write_error (turn s (CSignal out) (enter (mem s) (write_na (Answer out.1)))
                                   (entered (mem s) (cview s))) out.1 e) [] [] [e])
  | c_signal out m V :
      cons s = CSignal out →
      store (enter (mem s) (write_at (Done out.1))) (entered (mem s) (cview s)) (Flag out.1) 1 true m V →
      step s (turn s CIdle m V).

Definition reachable (dflt : item) (s : weak) : Prop := rtc step (start dflt) s.

(** The access a thread is about to make, and the view it makes it with. *)
Inductive next_access (s : weak) : view aloc → access nloc → Prop :=
  | next_construct_done i : prods s i = PIdle → next_access s (pview s i) (write_na (Done i))
  | next_construct_error i x : prods s i = PInit x → next_access s (pview s i) (write_na (Answer i))
  | next_reset i x : prods s i = PReset x → next_access s (pview s i) (write_at (Done i))
  | next_write i pos x :
      prods s i = PWrite pos x → next_access s (pview s i) (write_na (Data (cell_of pos)))
  | next_poll i pos : prods s i = PWait pos → next_access s (pview s i) (read_at (Done i))
  | next_read i pos : prods s i = PRead pos → next_access s (pview s i) (read_na (Answer i))
  | next_take : cons s = CTake → next_access s (cview s) (read_na (Data (cell_of (dequeue_pos s))))
  | next_answer out : cons s = CServe out → next_access s (cview s) (write_na (Answer out.1))
  | next_signal out : cons s = CSignal out → next_access s (cview s) (write_at (Done out.1)).

(** Some thread is about to race with an earlier access. *)
Definition racy (s : weak) : Prop := ∃ V x, next_access s V x ∧ ¬ ordered (mem s) V x.
End Machine.
Arguments pstate : clear implicits.
Arguments cstate : clear implicits.
Arguments weak : clear implicits.

(** ** Positions and cells *)

Section Positions.
Variable p : Z.
Hypothesis Hp : 1 ≤ p ≤ 62.
Abbreviation n := (2 ^ p).
Abbreviation cell := (cell_of (2 ^ p - 1)).

Lemma size_two : 2 ≤ n.
Proof. apply (Z.pow_le_mono_r 2 1 p); lia. Qed.

Lemma cell_mod pos : cell pos = Z.to_nat (pos `mod` n).
Proof. unfold cell_of. by rewrite land_pow2_mask by lia. Qed.

Lemma cell_window a b : cell a = cell b → - n < a - b < n → a = b.
Proof.
  pose proof size_two as H2. rewrite !cell_mod. intros Hc Hw. apply (mod_window a b n); [lia| |done].
  pose proof (Z.mod_pos_bound a n ltac:(lia)). pose proof (Z.mod_pos_bound b n ltac:(lia)). lia.
Qed.

Lemma cell_next pos : cell (pos + n) = cell pos.
Proof.
  pose proof size_two. rewrite !cell_mod. f_equal. rewrite <- (Z.mul_1_l n) at 1. by apply Z_mod_plus_full.
Qed.

(** Every position has the cell of one position of the window. *)
Lemma cell_stands d pos : ∃ q, d ≤ q < d + n ∧ cell q = cell pos.
Proof.
  pose proof size_two as H2. exists (d + (pos - d) `mod` n).
  pose proof (Z.mod_pos_bound (pos - d) n ltac:(lia)). split; [lia|].
  rewrite !cell_mod. f_equal. rewrite Z.add_mod_idemp_r by lia. f_equal. lia.
Qed.
End Positions.

(** ** The queue *)

(** Accesses by what they touch. *)
Definition on_data (k : nat) (x : access nloc) : Prop := a_loc x = Data k.
Definition data_write (k : nat) (x : access nloc) : Prop := a_loc x = Data k ∧ a_write x = true.
Definition data_read (x : access nloc) : Prop := (∃ k, a_loc x = Data k) ∧ a_write x = false.
Definition on_slot (i : nat) (x : access nloc) : Prop := a_loc x = Answer i ∨ a_loc x = Done i.

Section Queue.
Context {T : Type}.
Variable p : Z.
Hypothesis Hp : 1 ≤ p ≤ 62.
Abbreviation n := (2 ^ p).
Abbreviation cell := (cell_of (2 ^ p - 1)).
Implicit Types (s : weak T) (pos : Z).

Definition pushes s : Z := Z.of_nat (length (pushed s)).
Definition pops s : Z := Z.of_nat (length (popped s)).

(** Far enough from the end of the 64-bit positions. *)
Definition headroom s : Prop := pushes s + n + 2 < INT64_MAX.

Definition claims (st : pstate T) (pos : Z) : Prop :=
  match st with PWrite pos' _ | PPublish pos' _ => pos' = pos | _ => False end.

(** A thread without a reservation. *)
Ltac unclaimed H := intros ?pos; rewrite ?H; repeat case_bool_decide; simpl; tauto.

(** The last message of a location. *)
Definition last_message (m : memory aloc nloc) (a : aloc) (t v : Z) (W : view aloc) : Prop :=
  messages m a !! t = Some (v, W) ∧ latest m a t.

(** The cell of a position of the window: free, known by the message that frees it
    to be unused; reserved and not yet published; published with its item. *)
Definition cell_ok s pos : Prop :=
  ∃ t v W, last_message (mem s) (Sequence (cell pos)) t v W ∧
    ((pushes s ≤ pos ∧ v = pos ∧ knows (mem s) (on_data (cell pos)) W) ∨
     (pos < pushes s ∧ v = pos ∧ ∃ i, claims (prods s i) pos) ∨
     (pos < pushes s ∧ v = pos + 1 ∧ pushed s !! Z.to_nat pos = Some (items s (cell pos)) ∧
      knows (mem s) (data_write (cell pos)) W)).

(** A producer that holds the reservation [pos]. *)
Definition owns s (V : view aloc) pos (it : nat * T) : Prop :=
  pops s ≤ pos < pushes s ∧ pushed s !! Z.to_nat pos = Some it ∧
  (∃ t W, last_message (mem s) (Sequence (cell pos)) t pos W ∧ t ≤ v_at V (Sequence (cell pos))) ∧
  knows (mem s) (on_data (cell pos)) V.

Definition push_ok s (i : nat) (V : view aloc) (st : pstate T) : Prop :=
  match st with
  | PLoop pos _ => 0 ≤ pos ≤ pushes s
  | PCas pos _ => 0 ≤ pos ≤ pushes s ∧ ∃ t W,
      messages (mem s) (Sequence (cell pos)) !! t = Some (pos, W) ∧ vle W V ∧
      t ≤ v_at V (Sequence (cell pos))
  | PWrite pos x => owns s V pos (i, x)
  | PPublish pos x => owns s V pos (i, x) ∧ items s (cell pos) = (i, x)
  | _ => True
  end.

(** The writer has seen the item at the head published. *)
Definition head_seen s : Prop :=
  pops s < pushes s ∧ ∃ t W, last_message (mem s) (Sequence (cell (pops s))) t (pops s + 1) W ∧
    vle W (cview s) ∧ t ≤ v_at (cview s) (Sequence (cell (pops s))).

Definition pop_ok s : Prop :=
  match cons s with
  | CIdle => dequeue_pos s = pops s
  | CTake => dequeue_pos s = pops s ∧ head_seen s
  | CStore out => dequeue_pos s = pops s ∧ head_seen s ∧ pushed s !! length (popped s) = Some out
  | CInc _ => dequeue_pos s + 1 = pops s ∧ 0 ≤ dequeue_pos s
  | CServe _ | CSignal _ => dequeue_pos s = pops s
  end.

Record ring_inv s : Prop := mkRingInv {
  r_enqueue t v W : messages (mem s) Enqueue !! t = Some (v, W) → 0 ≤ t ≤ pushes s ∧ v = t;
  r_enqueue_all t : 0 ≤ t ≤ pushes s → is_Some (messages (mem s) Enqueue !! t);
  r_fifo : popped s `prefix_of` pushed s;
  r_bound : pushes s ≤ pops s + n;
  r_values pos t v W : 0 ≤ pos → messages (mem s) (Sequence (cell pos)) !! t = Some (v, W) →
    ∃ q, 0 ≤ q ∧ cell q = cell pos ∧ (v = q ∧ q < pops s + n ∨ v = q + 1 ∧ q < pushes s);
  r_rising pos t v W t' v' W' : 0 ≤ pos → messages (mem s) (Sequence (cell pos)) !! t = Some (v, W) →
    messages (mem s) (Sequence (cell pos)) !! t' = Some (v', W') → t < t' → v < v';
  r_cells pos : pops s ≤ pos < pops s + n → cell_ok s pos;
  r_reads : knows (mem s) data_read (cview s);
  r_push i : push_ok s i (pview s i) (prods s i);
  r_unique i j pos : claims (prods s i) pos → claims (prods s j) pos → i = j;
  r_pop : pop_ok s
}.

Lemma last_unique m a t v W t' v' W' :
  last_message m a t v W → last_message m a t' v' W' → t = t' ∧ v = v' ∧ W = W'.
Proof.
  intros [Hm Hl] [Hm' Hl']. assert (t = t') as -> by (apply Hl in Hm'; apply Hl' in Hm; lia).
  rewrite Hm in Hm'. by injection Hm' as -> ->.
Qed.

Lemma pops_le s : ring_inv s → 0 ≤ pops s ≤ pushes s.
Proof. intros H. pose proof (r_fifo s H) as Hf%prefix_length. unfold pops, pushes. lia. Qed.

Lemma ring_start dflt : ring_inv (start dflt).
Proof.
  pose proof (size_two p Hp) as H2.
  assert (∀ k t v W, messages (mem (start (T := T) dflt)) (Sequence k) !! t = Some (v, W) → t = 0 ∧ v = Z.of_nat k) as Hseq.
  { intros k t v W Hm. simpl in Hm. apply lookup_singleton_Some in Hm as [<- Hm]. by injection Hm as <- _. }
  split; try done.
  - intros t v W Hm. simpl in Hm. apply lookup_singleton_Some in Hm as [<- Hm]. injection Hm as <- _. done.
  - intros t Ht. replace t with 0 by (unfold pushes in Ht; simpl in Ht; lia). by eexists.
  - unfold pushes, pops. simpl. lia.
  - intros pos t v W Hpos [_ ->]%Hseq. exists (pos `mod` n). pose proof (Z.mod_pos_bound pos n ltac:(lia)).
    rewrite !cell_mod by done. rewrite Z.mod_mod by lia. split_and!; [lia|done|].
    left. unfold pops. simpl. lia.
  - intros pos t v W t' v' W' _ [-> _]%Hseq [-> _]%Hseq. lia.
  - intros pos Hpos. unfold pops in Hpos. simpl in Hpos. exists 0, pos, bottom. split.
    + split; [|by intros t' [v W] [-> _]%Hseq]. simpl. rewrite lookup_singleton_Some. split; [done|]. f_equal.
      rewrite cell_mod, Z.mod_small by (done || lia). lia.
    + left. unfold pushes. simpl. split_and!; [lia|done|by apply knows_nil].
Qed.

(** *** Steps that do not touch the queue *)

(** The atomics of the queue. *)
Definition ring_loc (a : aloc) : bool := match a with Enqueue | Sequence _ => true | _ => false end.

Record ring_same s s' : Prop := mkRingSame {
  rs_messages a : ring_loc a = true → messages (mem s') a = messages (mem s) a;
  rs_log Q V : (∀ x, Q x → ∃ k, a_loc x = Data k) → knows (mem s) Q V → knows (mem s') Q V;
  rs_items : items s' = items s;
  rs_pushed : pushed s' = pushed s;
  rs_popped : popped s' = popped s;
  rs_pview j : vle (pview s j) (pview s' j);
  rs_cview : vle (cview s) (cview s')
}.

Section Same.
Variables s s' : weak T.
Hypothesis Hsame : ring_same s s'.

Lemma same_sizes : pushes s' = pushes s ∧ pops s' = pops s.
Proof. unfold pushes, pops. by rewrite (rs_pushed _ _ Hsame), (rs_popped _ _ Hsame). Qed.

Lemma same_last k t v W : last_message (mem s) (Sequence k) t v W → last_message (mem s') (Sequence k) t v W.
Proof.
  unfold last_message, latest. by rewrite (rs_messages _ _ Hsame (Sequence k)) by done.
Qed.

Lemma same_data k V : knows (mem s) (on_data k) V → knows (mem s') (on_data k) V.
Proof. apply (rs_log _ _ Hsame). by intros x ->; exists k. Qed.
Lemma same_writes k V : knows (mem s) (data_write k) V → knows (mem s') (data_write k) V.
Proof. apply (rs_log _ _ Hsame). by intros x [-> _]; exists k. Qed.

Lemma owns_same V V' pos it : owns s V pos it → vle V V' → owns s' V' pos it.
Proof.
  destruct same_sizes as [HE HD]. intros (Hpos & Hit & (t & W & Hl & Ht) & Hk) HV.
  unfold owns. rewrite HE, HD, (rs_pushed _ _ Hsame). split_and!; [lia|lia|done| |].
  - exists t, W. split; [by apply same_last|]. destruct HV as [Ha _]. specialize (Ha (Sequence (cell pos))). lia.
  - apply same_data. by eapply knows_le.
Qed.

Lemma push_ok_same i V V' st : push_ok s i V st → vle V V' → push_ok s' i V' st.
Proof.
  destruct same_sizes as [HE HD]. intros Hok HV. destruct st; simpl in *; rewrite ?HE; try done.
  - destruct Hok as (Hpos & t & W & Hm & HW & Ht). split; [done|]. exists t, W.
    rewrite (rs_messages _ _ Hsame) by done. split_and!; [done|by etrans|].
    destruct HV as [Ha _]. specialize (Ha (Sequence (cell pos))). lia.
  - by eapply owns_same.
  - destruct Hok as [Hok Hi]. split; [by eapply owns_same|]. by rewrite (rs_items _ _ Hsame).
Qed.

Lemma head_seen_same : head_seen s → head_seen s'.
Proof.
  destruct same_sizes as [HE HD]. intros (Hlt & t & W & Hl & HW & Ht). unfold head_seen. rewrite HE, HD.
  split; [done|]. exists t, W. pose proof (rs_cview _ _ Hsame) as HV. split_and!; [by apply same_last|by etrans|].
  destruct HV as [Ha _]. specialize (Ha (Sequence (cell (pops s)))). lia.
Qed.

Lemma pop_ok_same : pop_ok s → cons s' = cons s → dequeue_pos s' = dequeue_pos s → pop_ok s'.
Proof.
  destruct same_sizes as [HE HD]. unfold pop_ok. intros Hok -> ->. rewrite HD, (rs_pushed _ _ Hsame), (rs_popped _ _ Hsame).
  pose proof head_seen_same. destruct (cons s); naive_solver.
Qed.

Lemma ring_inv_same :
  ring_inv s →
  (∀ j, prods s' j = prods s j ∨
    (∀ pos, ¬ claims (prods s j) pos) ∧ (∀ pos, ¬ claims (prods s' j) pos) ∧
    push_ok s' j (pview s' j) (prods s' j)) →
  pop_ok s' → ring_inv s'.
Proof.
  intros [He Hea Hf Hb Hv Hr Hc Hrd Hpu Hu Hpo] Hth Hpop. destruct same_sizes as [HE HD].
  assert (∀ j pos, claims (prods s' j) pos ↔ claims (prods s j) pos) as Hcl.
  { intros j pos. destruct (Hth j) as [->|(H1 & H2 & _)]; [done|]. split; intros H; [by destruct (H2 pos)|by destruct (H1 pos)]. }
  split; rewrite ?HE, ?HD, ?(rs_pushed _ _ Hsame), ?(rs_popped _ _ Hsame); try done.
  - intros t v W. rewrite (rs_messages _ _ Hsame) by done. apply He.
  - intros t. rewrite (rs_messages _ _ Hsame) by done. apply Hea.
  - intros pos t v W. rewrite (rs_messages _ _ Hsame) by done. apply Hv.
  - intros pos t v W t' v' W'. rewrite (rs_messages _ _ Hsame) by done. apply Hr.
  - intros pos Hpos. destruct (Hc pos Hpos) as (t & v & W & Hl & Hst). exists t, v, W.
    split; [by apply same_last|]. rewrite HE, (rs_pushed _ _ Hsame), (rs_items _ _ Hsame).
    destruct Hst as [(? & ? & Hk)|[(? & ? & i & Hi)|(? & ? & ? & Hk)]]; [left|right; left|right; right].
    + split_and!; [done|done|by apply same_data].
    + split_and!; [done|done|]. exists i. by apply Hcl.
    + split_and!; [done|done|done|by apply same_writes].
  - apply (knows_le _ _ (cview s)); [|apply Hsame]. apply (rs_log _ _ Hsame); [|done]. by intros x [? _].
  - intros j. destruct (Hth j) as [->|(_ & _ & ?)]; [|done]. eapply push_ok_same; [done|apply Hsame].
  - intros i j pos. rewrite !Hcl. apply Hu.
Qed.
End Same.

(** Memory that differs in the completion of thread [i]. *)
Definition slot_memory (i : nat) (m m' : memory aloc nloc) : Prop :=
  (∀ a, a ≠ Flag i → messages m' a = messages m a) ∧
  (log m' = log m ∨ ∃ x, on_slot i x ∧ log m' = log m ++ [x]).

Lemma slot_refl i m : slot_memory i m m.
Proof. split; auto. Qed.
Lemma slot_enter i m x : on_slot i x → slot_memory i m (enter m x).
Proof. intros Hx. split; [done|]. right. by exists x. Qed.
Lemma slot_store i m x V v r m' V' :
  on_slot i x → store (enter m x) V (Flag i) v r m' V' → slot_memory i m m'.
Proof.
  intros Hx [t _ _]. split; [|right; by exists x]. intros a Ha. by rewrite send_ne.
Qed.

Lemma slot_knows i m m' (Q : access nloc → Prop) V :
  slot_memory i m m' → (∀ x, Q x → ¬ on_slot i x) → knows m Q V → knows m' Q V.
Proof.
  intros [_ [Hl|(x & Hx & Hl)]] HQ Hk; unfold knows in *; rewrite Hl; [done|].
  apply (knows_enter_other m x Q V Hk). intros HQx. by apply (HQ x).
Qed.

Lemma slot_data i m m' (Q : access nloc → Prop) V :
  slot_memory i m m' → (∀ x, Q x → ∃ k, a_loc x = Data k) → knows m Q V → knows m' Q V.
Proof.
  intros Hm HQ. apply (slot_knows i m m' Q V Hm). intros x [k Hk]%HQ. unfold on_slot. rewrite Hk. by intros [?|?].
Qed.

Lemma fn_insert_cases {B} (f : nat → B) i x j : <[i := x]> f j = if decide (i = j) then x else f j.
Proof. case_decide as H; [subst; apply fn_lookup_insert|by apply fn_lookup_insert_ne]. Qed.

Lemma ring_same_move s i st m V :
  slot_memory i (mem s) m → vle (pview s i) V → ring_same s (move s i st m V).
Proof.
  intros Hm HV. split; try done; simpl.
  - intros a Ha. apply Hm. by destruct a.
  - intros Q U. apply (slot_data i _ _ _ _ Hm).
  - intros j. rewrite fn_insert_cases. by case_decide as H; [subst|].
Qed.

Lemma ring_move s i st m V :
  ring_inv s → slot_memory i (mem s) m → vle (pview s i) V →
  (∀ pos, ¬ claims (prods s i) pos) → (∀ pos, ¬ claims st pos) → push_ok s i V st →
  ring_inv (move s i st m V).
Proof.
  intros Hinv Hm HV Hno Hno' Hst. pose proof (ring_same_move s i st m V Hm HV) as Hsame.
  apply (ring_inv_same s); [done|done| |].
  - intros j. simpl. rewrite !fn_insert_cases. case_decide as H; [subst j|by left]. right.
    split_and!; [done|done|]. by apply (push_ok_same s _ Hsame i V).
  - apply (pop_ok_same s); [done|apply Hinv|done|done].
Qed.

Lemma ring_same_turn s i st m V :
  slot_memory i (mem s) m → vle (cview s) V → ring_same s (turn s st m V).
Proof.
  intros Hm HV. split; try done; simpl.
  - intros a Ha. apply Hm. by destruct a.
  - intros Q U. apply (slot_data i _ _ _ _ Hm).
Qed.

Lemma ring_turn s i st m V :
  ring_inv s → slot_memory i (mem s) m → vle (cview s) V → pop_ok (turn s st m V) →
  ring_inv (turn s st m V).
Proof.
  intros Hinv Hm HV Hst. apply (ring_inv_same s); [by apply (ring_same_turn s i)|done| |done].
  intros j. by left.
Qed.

Lemma ring_error s i e : ring_inv s → ring_inv (write_error s i e).
Proof. by intros []; split. Qed.
Lemma ring_note s es : ring_inv s → ring_inv (note s [] [] es).
Proof.
  intros []. unfold note. rewrite !app_nil_r. by split.
Qed.

(** *** Looking at a cell *)

Lemma last_by_value s pos t v W t' v' W' :
  ring_inv s → 0 ≤ pos → messages (mem s) (Sequence (cell pos)) !! t = Some (v, W) →
  last_message (mem s) (Sequence (cell pos)) t' v' W' → v' ≤ v → t = t' ∧ v = v' ∧ W = W'.
Proof.
  intros Hinv Hpos Hm [Hm' Hl] Hv. assert (t = t') as ->.
  { pose proof (Hl _ _ Hm). destruct (decide (t < t')); [|lia].
    pose proof (r_rising s Hinv pos t v W t' v' W' Hpos Hm Hm'). lia. }
  rewrite Hm in Hm'. by injection Hm' as -> ->.
Qed.

Lemma look_defined s pos t v W pos' :
  ring_inv s → headroom s → 0 ≤ pos → messages (mem s) (Sequence (cell pos)) !! t = Some (v, W) →
  0 ≤ pos' ≤ pushes s + 1 → seq_diff v pos' = Some (v - pos').
Proof.
  intros Hinv Hh Hpos Hm Hpos'. destruct (r_values s Hinv pos t v W Hpos Hm) as (q & Hq & _ & Hv).
  pose proof (pops_le s Hinv). pose proof (size_two p Hp). unfold headroom in Hh.
  apply seq_diff_small; lia.
Qed.

Lemma stamp_diff s pos t v W pos' d :
  ring_inv s → headroom s → 0 ≤ pos → messages (mem s) (Sequence (cell pos)) !! t = Some (v, W) →
  0 ≤ pos' ≤ pushes s + 1 → seq_diff v pos' = Some d → d = v - pos'.
Proof.
  intros Hinv Hh Hpos Hm Hpos' Hd. rewrite (look_defined s pos t v W pos') in Hd by done. congruence.
Qed.

(** A stamp that is one past a position is not that of a free cell. *)
Lemma stamp_published s pos t W :
  ring_inv s → 0 ≤ pos → messages (mem s) (Sequence (cell pos)) !! t = Some (pos + 1, W) → pos < pushes s.
Proof.
  intros Hinv Hpos Hm. destruct (r_values s Hinv pos t _ W Hpos Hm) as (q & Hq & Hc & [[Hv _]|[Hv Hlt]]); [|lia].
  pose proof (size_two p Hp). apply (cell_window p Hp) in Hc; lia.
Qed.
Lemma stamp_free s pos t W :
  ring_inv s → 0 ≤ pos → messages (mem s) (Sequence (cell pos)) !! t = Some (pos, W) → pos < pops s + n.
Proof.
  intros Hinv Hpos Hm. destruct (r_values s Hinv pos t _ W Hpos Hm) as (q & Hq & Hc & [[Hv Hlt]|[Hv _]]); [lia|].
  pose proof (size_two p Hp). apply (cell_window p Hp) in Hc; lia.
Qed.

Lemma ring_look s i pos x v V d :
  ring_inv s → headroom s → prods s i = PLoop pos x →
  load (mem s) (pview s i) (Sequence (cell pos)) true v V → seq_diff v pos = Some d →
  ring_inv (move s i (if bool_decide (d = 0) then PCas pos x
                      else if bool_decide (d < 0) then PIdle else PLoad x) (mem s) V).
Proof.
  intros Hinv Hh Hi Hload Hd. pose proof (r_push s Hinv i) as Hpu. rewrite Hi in Hpu. simpl in Hpu.
  destruct Hload as [t v W Hm Ht].
  apply (stamp_diff s pos t v W) in Hd; [|done|done|lia|done|lia].
  assert (vle (pview s i) (see (Sequence (cell pos)) t (join (pview s i) W))) as HV by (etrans; [apply join_l|apply see_le]).
  apply ring_move; [done|apply slot_refl|done|unclaimed Hi| |].
  - unclaimed Hi.
  - case_bool_decide as H0; [|by case_bool_decide]. split; [done|]. exists t, W.
    replace v with pos in Hm by lia. split_and!; [done|etrans; [apply join_r|apply see_le]|].
    rewrite see_at. lia.
Qed.

Lemma ring_pop_look s v V d :
  ring_inv s → headroom s → cons s = CIdle →
  load (mem s) (cview s) (Sequence (cell (dequeue_pos s))) true v V →
  seq_diff v (wrap64 (dequeue_pos s + 1)) = Some d →
  ring_inv (turn s (if bool_decide (d ≠ 0) then CIdle else CTake) (mem s) V).
Proof.
  intros Hinv Hh Hc Hload Hd. pose proof (r_pop s Hinv) as Hpo. unfold pop_ok in Hpo. rewrite Hc in Hpo.
  rewrite Hpo in *. pose proof (pops_le s Hinv) as Hle. destruct Hload as [t v W Hm Ht].
  pose proof (size_two p Hp) as H2. unfold headroom in Hh. rewrite wrap64_id in Hd by range_lia.
  apply (stamp_diff s (pops s) t v W) in Hd; [|done|done|lia|done|lia].
  assert (vle (cview s) (see (Sequence (cell (pops s))) t (join (cview s) W))) as HV by (etrans; [apply join_l|apply see_le]).
  apply (ring_turn s 0); [done|apply slot_refl|done|]. unfold pop_ok. simpl.
  case_bool_decide as H0; [done|]. split; [done|]. replace v with (pops s + 1) in Hm by lia.
  pose proof (stamp_published s (pops s) t W Hinv ltac:(lia) Hm) as Hlt.
  destruct (r_cells s Hinv (pops s) ltac:(lia)) as (t' & v' & W' & Hl & Hst).
  destruct (last_by_value s (pops s) t (pops s + 1) W t' v' W' Hinv ltac:(lia) Hm Hl) as (-> & <- & <-); [lia|].
  split; [done|]. exists t', W. split_and!; [done|etrans; [apply join_r|apply see_le]|].
  simpl cview. change (pops (turn s CTake (mem s) _)) with (pops s). rewrite see_at. lia.
Qed.

(** *** Reserving a position *)

Lemma claims_bound s i pos : ring_inv s → claims (prods s i) pos → pops s ≤ pos < pushes s.
Proof.
  intros Hinv Hc. pose proof (r_push s Hinv i) as Hpu. destruct (prods s i); simpl in *; try done; subst;
    unfold owns in Hpu; tauto.
Qed.

Lemma lookup_grow (l : list (nat * T)) k it x : l !! k = Some it → (l ++ [x]) !! k = Some it.
Proof. intros Hk. rewrite lookup_app_l; [done|]. by eapply lookup_lt_Some. Qed.

(** The position a successful exchange reserves, and what its owner knows. *)
Lemma exchange_owner s i pos x m V :
  ring_inv s → prods s i = PCas pos x →
  exchange (mem s) (pview s i) Enqueue pos (wrap64 (pos + 1)) m V →
  pos = pushes s ∧ pos < pops s + n ∧
  m = send (mem s) Enqueue (pos + 1) (wrap64 (pos + 1)) (see Enqueue (pos + 1) (default (0, bottom) (messages (mem s) Enqueue !! pos)).2) ∧
  vle (pview s i) V ∧
  (∃ t W, last_message (mem s) (Sequence (cell pos)) t pos W ∧ t ≤ v_at V (Sequence (cell pos))) ∧
  knows (mem s) (on_data (cell pos)) V.
Proof.
  intros Hinv Hi [t W Hm Ht Hfree]. pose proof (r_push s Hinv i) as Hpu. rewrite Hi in Hpu.
  destruct Hpu as (Hpos & t0 & W0 & Hm0 & HW0 & Ht0).
  destruct (r_enqueue s Hinv t pos W Hm) as [Hb ->].
  assert (t = pushes s) as Heq.
  { destruct (decide (t = pushes s)); [done|]. destruct (r_enqueue_all s Hinv (t + 1)) as [? Hx]; [lia|congruence]. }
  pose proof (stamp_free s t t0 W0 Hinv ltac:(lia) Hm0) as Hwin. pose proof (pops_le s Hinv) as Hle.
  destruct (r_cells s Hinv t) as (t1 & v1 & W1 & Hl & Hst); [lia|].
  destruct Hst as [(_ & -> & Hk)|[(? & _)|(? & _)]]; [|lia|lia].
  destruct (last_by_value s t t0 t W0 t1 t W1 Hinv ltac:(lia) Hm0 Hl) as (-> & _ & <-); [lia|].
  assert (vle (pview s i) (see Enqueue (t + 1) (pview s i))) as HV by apply see_le.
  split_and!; [done|done|by rewrite Hm|done| |].
  - exists t1, W0. split; [done|]. by rewrite see_other by done.
  - eapply knows_le; [exact Hk|]. by etrans.
Qed.

Section Reserve.
Variables (s : weak T) (i : nat) (x : T) (m : memory aloc nloc) (V : view aloc).
Let s' := note (move s i (PWrite (pushes s) x) m V) [(i, x)] [] [].
Hypothesis Hinv : ring_inv s.
Hypothesis Hmem : ∀ k, messages m (Sequence k) = messages (mem s) (Sequence k).
Hypothesis Hlog : log m = log (mem s).

Lemma reserve_sizes : pushes s' = pushes s + 1 ∧ pops s' = pops s.
Proof. unfold pushes, pops. simpl. rewrite !length_app. simpl. split; lia. Qed.

Lemma reserve_last k t v W : last_message (mem s') (Sequence k) t v W ↔ last_message (mem s) (Sequence k) t v W.
Proof. unfold last_message, latest. simpl. by rewrite Hmem. Qed.
Lemma reserve_knows Q U : knows (mem s') Q U ↔ knows (mem s) Q U.
Proof. unfold knows. simpl. by rewrite Hlog. Qed.

Lemma reserve_owns U pos it : owns s U pos it → owns s' U pos it.
Proof.
  destruct reserve_sizes as [HE HD]. intros (Hpos & Hit & (t & W & Hl & Ht) & Hk). unfold owns. rewrite HE, HD.
  split_and!; [lia|lia|by apply lookup_grow| |by apply reserve_knows].
  exists t, W. by rewrite reserve_last.
Qed.

Lemma reserve_push_ok j U st : push_ok s j U st → push_ok s' j U st.
Proof.
  destruct reserve_sizes as [HE HD]. intros Hok. destruct st; simpl in *; rewrite ?HE, ?Hmem; try done; [lia| | |].
  - destruct Hok as (? & ?). split; [lia|done].
  - by apply reserve_owns.
  - destruct Hok. split; [by apply reserve_owns|done].
Qed.

Lemma reserve_pop_ok : pop_ok s → pop_ok s'.
Proof.
  destruct reserve_sizes as [HE HD]. unfold pop_ok. change (cons s') with (cons s).
  change (dequeue_pos s') with (dequeue_pos s). rewrite HD. change (popped s') with (popped s ++ []). rewrite app_nil_r.
  assert (head_seen s → head_seen s') as Hh.
  { intros (? & t & W & Hl & ?). unfold head_seen. rewrite HE, HD. split; [lia|]. exists t, W. by rewrite reserve_last. }
  destruct (cons s); try tauto. intros (? & ? & ?). split_and!; [done|auto|by apply lookup_grow].
Qed.
End Reserve.

Lemma ring_reserve s i pos x m V :
  ring_inv s → headroom s → prods s i = PCas pos x →
  exchange (mem s) (pview s i) Enqueue pos (wrap64 (pos + 1)) m V →
  ring_inv (note (move s i (PWrite pos x) m V) [(i, x)] [] []).
Proof.
  intros Hinv Hh Hi Hex. destruct (exchange_owner s i pos x m V Hinv Hi Hex) as (-> & Hwin & Hm & HV & Hlast & Hk).
  pose proof (pops_le s Hinv) as Hle. pose proof (size_two p Hp) as H2. unfold headroom in Hh.
  rewrite wrap64_id in Hm by range_lia. set (s' := note _ _ _ _).
  assert (∀ k, messages m (Sequence k) = messages (mem s) (Sequence k)) as Hmem by (intros k; by rewrite Hm, send_ne).
  assert (log m = log (mem s)) as Hlog by (by rewrite Hm).
  destruct (reserve_sizes s i x m V) as [HE HD]. fold s' in HE, HD.
  assert (pushed s' !! Z.to_nat (pushes s) = Some (i, x)) as Hnew.
  { unfold pushes. rewrite Nat2Z.id. simpl. by rewrite lookup_app_r, Nat.sub_diag. }
  split; rewrite ?HE, ?HD.
  - intros t v W. simpl. rewrite Hm, send_eq. intros [[<- [= <- _]]|[_ Hx]]%lookup_insert_Some; [lia|].
    destruct (r_enqueue s Hinv t v W Hx). lia.
  - intros t Ht. simpl. rewrite Hm, send_eq. destruct (decide (t = pushes s + 1)) as [->|Hne].
    + rewrite lookup_insert_eq. by eexists.
    + rewrite lookup_insert_ne by lia. apply (r_enqueue_all s Hinv). lia.
  - simpl. rewrite app_nil_r. apply prefix_app_r, Hinv.
  - lia.
  - intros q t v W Hq. simpl. rewrite Hmem. intros Hx. destruct (r_values s Hinv q t v W Hq Hx) as (q' & ? & ? & Hv).
    exists q'. split_and!; [done|done|]. lia.
  - intros q t v W t' v' W' Hq. simpl. rewrite Hmem. by apply (r_rising s Hinv).
  - intros q Hq. destruct (decide (q = pushes s)) as [->|Hne].
    + destruct Hlast as (t & W & Hl & _). exists t, (pushes s), W. split; [by apply reserve_last|]. right; left.
      rewrite HE. split_and!; [lia|done|]. exists i. simpl. by rewrite fn_lookup_insert.
    + destruct (r_cells s Hinv q Hq) as (t & v & W & Hl & Hst). exists t, v, W. split; [by apply reserve_last|]. rewrite HE.
      destruct Hst as [(? & ? & ?)|[(? & ? & j & Hj)|(? & ? & ? & ?)]]; [left|right; left|right; right].
      * split_and!; [lia|done|by apply reserve_knows].
      * split_and!; [lia|done|]. exists j. simpl. rewrite fn_lookup_insert_ne; [done|]. intros <-. by rewrite Hi in Hj.
      * split_and!; [lia|done|by apply lookup_grow|by apply reserve_knows].
  - apply reserve_knows; [done|]. apply Hinv.
  - intros j. simpl. rewrite !fn_insert_cases. case_decide as Hj; [subst j|by apply reserve_push_ok; [..|apply Hinv]].
    unfold push_ok, owns. fold s'. rewrite HE, HD. split_and!; [lia|lia|done| |by apply reserve_knows].
    destruct Hlast as (t & W & ? & ?). exists t, W. split; [by apply reserve_last|done].
  - intros j k q. simpl. rewrite !fn_insert_cases. do 2 case_decide; subst; simpl; try done.
    + intros <- Hk'%(claims_bound s); [lia|done].
    + intros Hk'%(claims_bound s) <-; [lia|done].
    + apply (r_unique s Hinv).
  - apply reserve_pop_ok; [done|]. apply Hinv.
Qed.

(** *** Writing the item *)

Lemma enter_data_other (m : memory aloc nloc) k k' b (Q : access nloc → Prop) V :
  knows m Q V → (∀ x, Q x → a_loc x = Data k') → k ≠ k' → knows (enter m (mkAccess (Data k) b false)) Q V.
Proof. intros Hk HQ Hne. apply knows_enter_other; [done|]. intros Hx%HQ. simpl in Hx. congruence. Qed.

Lemma ring_write s i pos x :
  ring_inv s → prods s i = PWrite pos x →
  ring_inv (write_item (move s i (PPublish pos x) (enter (mem s) (write_na (Data (cell pos))))
              (entered (mem s) (pview s i))) (cell pos) (i, x)).
Proof.
  intros Hinv Hi. pose proof (r_push s Hinv i) as Hown. rewrite Hi in Hown. simpl in Hown.
  pose proof Hown as (Hpos & _ & _ & _). pose proof (r_bound s Hinv) as Hb. set (s' := write_item _ _ _).
  assert (pushes s' = pushes s ∧ pops s' = pops s) as [HE HD] by done.
  assert (∀ q, pops s ≤ q < pops s + n → q ≠ pos → cell pos ≠ cell q) as Hcell.
  { intros q Hq Hne Hc. apply Hne. symmetry. apply (cell_window p Hp); [done|lia]. }
  assert (∀ q, pops s ≤ q < pops s + n → q ≠ pos → items s' (cell q) = items s (cell q)) as Hit.
  { intros q Hq Hne. simpl. by rewrite fn_lookup_insert_ne by auto. }
  assert (∀ j pos', claims (prods s j) pos' → j ≠ i → pos' ≠ pos) as Hothers.
  { intros j pos' Hj Hne ->. apply Hne, (r_unique s Hinv j i pos); [done|]. by rewrite Hi. }
  destruct Hinv as [He Hea Hf _ Hv Hr Hc Hrd Hpu Hu Hpo]. split; try done.
  - intros q Hq. destruct (Hc q Hq) as (t & v & W & Hl & Hst). exists t, v, W. split; [done|].
    destruct (decide (q = pos)) as [->|Hne].
    + destruct Hst as [(? & _)|[(? & -> & _)|(? & -> & _)]].
      * lia.
      * right; left. split_and!; [done|done|]. exists i. simpl. by rewrite fn_lookup_insert.
      * destruct Hown as (_ & _ & (t' & W' & Hl' & _) & _). destruct (last_unique _ _ _ _ _ _ _ _ Hl Hl') as (_ & ? & _). lia.
    + destruct Hst as [(? & ? & ?)|[(? & ? & j & Hj)|(? & ? & ? & ?)]]; [left|right; left|right; right].
      * split_and!; [done|done|]. eapply enter_data_other; [done|by intros y|by apply Hcell].
      * split_and!; [done|done|]. exists j. simpl. rewrite fn_lookup_insert_ne; [done|]. intros <-. rewrite Hi in Hj. by apply Hne.
      * rewrite Hit by done. split_and!; [done|done|done|]. eapply enter_data_other; [done|by intros y [? _]|by apply Hcell].
  - apply knows_enter_other; [done|]. by intros [_ ?].
  - intros j. simpl. rewrite !fn_insert_cases. case_decide as Hj; [subst j|].
    + split; [|simpl; by rewrite fn_lookup_insert]. destruct Hown as (? & ? & (t & W & Hl & Ht) & Hk).
      unfold owns. rewrite HE, HD. split_and!; [lia|lia|done|by exists t, W|]. by apply knows_enter.
    + specialize (Hpu j). assert (∀ U q it, claims (prods s j) q → owns s U q it → owns s' U q it) as Ho.
      { intros U q it Hcl (Hq & ? & ? & Hk). unfold owns. rewrite HE, HD. split_and!; [lia|lia|done|done|].
        eapply enter_data_other; [done|by intros y|]. apply Hcell; [lia|]. by apply (Hothers j). }
      destruct (prods s j) eqn:Hs; simpl in *; try done; [by apply Ho|]. destruct Hpu as [Hpu Hx].
      split; [by apply Ho|]. rewrite fn_lookup_insert_ne; [done|].
      destruct Hpu as (Hq & _). apply Hcell; [lia|]. apply (Hothers j); [by rewrite Hs|done].
  - intros j k q. simpl. rewrite !fn_insert_cases. intros Hj Hk. apply (Hu j k q).
    + clear Hk. case_decide; [subst; by rewrite Hi|done].
    + clear Hj. case_decide; [subst; by rewrite Hi|done].
Qed.

(** *** Stamping a cell *)

(** A new last message on the cell of [pos], with a higher stamp. *)
Section Stamp.
Variables (s : weak T) (pos t v t0 v0 : Z) (W W0 : view aloc).
Let m := send (mem s) (Sequence (cell pos)) t v W.
Hypothesis Hinv : ring_inv s.
Hypothesis Hpos : 0 ≤ pos.
Hypothesis Hold : last_message (mem s) (Sequence (cell pos)) t0 v0 W0.
Hypothesis Hlater : t0 < t.
Hypothesis Hhigher : v0 < v.

Lemma stamp_last : last_message m (Sequence (cell pos)) t v W.
Proof.
  split; [|by apply (latest_send _ _ t0); [apply Hold|]]. unfold m. by rewrite send_eq, lookup_insert_eq.
Qed.

Lemma stamp_other k u v1 W1 :
  k ≠ cell pos → last_message (mem s) (Sequence k) u v1 W1 → last_message m (Sequence k) u v1 W1.
Proof.
  intros Hne [Hm Hl]. split; [|by apply latest_send_ne; [congruence|]]. unfold m. rewrite send_ne by congruence. done.
Qed.

Lemma stamp_keeps k u msg : messages (mem s) (Sequence k) !! u = Some msg → messages m (Sequence k) !! u = Some msg.
Proof.
  intros Hu. destruct (decide (k = cell pos)) as [->|Hne]; unfold m; [|by rewrite send_ne by congruence].
  rewrite send_eq, lookup_insert_ne; [done|]. intros <-. apply Hold in Hu. lia.
Qed.

Lemma stamp_cases q u v1 W1 :
  messages m (Sequence (cell q)) !! u = Some (v1, W1) →
  messages (mem s) (Sequence (cell q)) !! u = Some (v1, W1) ∨ (cell q = cell pos ∧ u = t ∧ v1 = v ∧ W1 = W).
Proof.
  destruct (decide (cell q = cell pos)) as [Hq|Hne]; unfold m.
  - rewrite Hq, send_eq. intros [[<- [= <- <-]]|[_ Hu]]%lookup_insert_Some; auto.
  - rewrite send_ne by congruence. auto.
Qed.

Lemma stamp_rising q u v1 W1 u' v2 W2 :
  0 ≤ q → messages m (Sequence (cell q)) !! u = Some (v1, W1) →
  messages m (Sequence (cell q)) !! u' = Some (v2, W2) → u < u' → v1 < v2.
Proof.
  intros Hq [H1|(Hc1 & -> & -> & ->)]%stamp_cases [H2|(Hc2 & -> & -> & ->)]%stamp_cases Hlt; [|..|lia].
  - by apply (r_rising s Hinv q u v1 W1 u' v2 W2).
  - rewrite Hc2 in H1. destruct Hold as [Hm0 Hl0]. pose proof (Hl0 _ _ H1).
    destruct (decide (u = t0)) as [->|]; [rewrite Hm0 in H1; injection H1 as <- <-; lia|].
    pose proof (r_rising s Hinv pos u v1 W1 t0 v0 W0 Hpos H1 Hm0). lia.
  - rewrite Hc1 in H2. apply Hold in H2. lia.
Qed.

Lemma stamp_owns U q it :
  owns s U q it → cell q ≠ cell pos → ∀ s'', mem s'' = m → pushed s'' = pushed s →
  pops s'' ≤ q → owns s'' U q it.
Proof.
  intros (Hq & Hit & (u & W1 & Hl & Hu) & Hk) Hne s'' Hmem Hpush Hpop. unfold owns, pushes in *.
  rewrite Hmem, Hpush. split_and!; [done|lia|done| |done]. exists u, W1. split; [by apply stamp_other|done].
Qed.
End Stamp.

Lemma ring_publish s i pos x m V :
  ring_inv s → headroom s → prods s i = PPublish pos x →
  store (mem s) (pview s i) (Sequence (cell pos)) (wrap64 (pos + 1)) true m V →
  ring_inv (move s i (PWait pos) m V).
Proof.
  intros Hinv Hh Hi [t Hfree Ht]. pose proof (r_push s Hinv i) as Hown. rewrite Hi in Hown.
  destruct Hown as [(Hpos & Hpush & (t0 & W0 & Hl0 & Ht0) & Hk) Hitem].
  pose proof (pops_le s Hinv) as Hle. pose proof (r_bound s Hinv) as Hb. unfold headroom in Hh.
  rewrite wrap64_id by range_lia. set (W := see _ _ _). set (s' := move _ _ _ _ _).
  assert (pushes s' = pushes s ∧ pops s' = pops s) as [HE HD] by done.
  assert (0 ≤ pos) as H0 by lia. assert (t0 < t) as Hlt by lia. assert (pos < pos + 1) as Hhi by lia.
  assert (∀ q, pops s ≤ q < pops s + n → q ≠ pos → cell q ≠ cell pos) as Hcell.
  { intros q Hq Hne Hc. apply Hne. apply (cell_window p Hp); [done|lia]. }
  assert (∀ j pos', claims (prods s j) pos' → j ≠ i → pos' ≠ pos) as Hothers.
  { intros j pos' Hj Hne ->. apply Hne, (r_unique s Hinv j i pos); [done|]. by rewrite Hi. }
  split; rewrite ?HE, ?HD; try apply Hinv.
  - intros q u v1 W1 Hq [Hx|(Hc & -> & -> & ->)]%stamp_cases; [by apply (r_values s Hinv q u v1 W1)|].
    exists pos. split_and!; [lia|done|]. right. lia.
  - intros q u v1 W1 u' v2 W2. by apply (stamp_rising s pos t (pos + 1) t0 pos W W0).
  - intros q Hq. destruct (decide (q = pos)) as [->|Hne].
    + exists t, (pos + 1), W. split; [by apply (stamp_last s pos t (pos + 1) t0 pos W W0)|]. right; right.
      change (items s') with (items s). rewrite Hitem. split_and!; [lia|done|done|]. apply (knows_le _ _ (pview s i)); [|apply see_le].
      by apply (knows_impl _ (on_data (cell pos))); [|intros y [? _]].
    + destruct (r_cells s Hinv q Hq) as (u & v1 & W1 & Hl & Hst). exists u, v1, W1.
      split; [by apply (stamp_other s pos t (pos + 1)); [apply Hcell|]|].
      destruct Hst as [?|[(? & ? & j & Hj)|?]]; [by left|right; left|by right; right].
      split_and!; [done|done|]. exists j. simpl. rewrite fn_lookup_insert_ne; [done|]. intros <-. rewrite Hi in Hj. by apply Hne.
  - intros j. simpl. rewrite !fn_insert_cases. case_decide as Hj; [done|].
    pose proof (r_push s Hinv j) as Hpu.
    assert (∀ U q it, claims (prods s j) q → owns s U q it → owns s' U q it) as Ho.
    { intros U q it Hcl Ho. pose proof Ho as (Hq & _). apply (stamp_owns s pos t (pos + 1) W U q it Ho); [|done|done|rewrite HD; lia].
      apply Hcell; [lia|]. by apply (Hothers j). }
    destruct (prods s j) eqn:Hs; simpl in *; try done.
    + destruct Hpu as (? & u & W1 & Hm & ?). split; [done|]. exists u, W1. split; [|done].
      by apply (stamp_keeps s pos t (pos + 1) t0 pos W W0).
    + by apply Ho.
    + destruct Hpu. split; [by apply Ho|done].
  - intros j k q. simpl. rewrite !fn_insert_cases. do 2 case_decide; subst; simpl; try done. apply (r_unique s Hinv).
  - pose proof (r_pop s Hinv) as Hpo. unfold pop_ok in *. change (cons s') with (cons s). change (popped s') with (popped s).
    change (dequeue_pos s') with (dequeue_pos s). change (pushed s') with (pushed s). rewrite HD.
    assert (head_seen s → head_seen s') as Hhead.
    { intros (? & u & W1 & Hl & ?). unfold head_seen. rewrite HE, HD. split; [done|]. exists u, W1. split; [|done].
      apply (stamp_other s pos t (pos + 1)); [|done]. apply Hcell; [lia|]. intros Heq. rewrite Heq in Hl.
      destruct (last_unique _ _ _ _ _ _ _ _ Hl Hl0) as (_ & ? & _). lia. }
    destruct (cons s); naive_solver.
Qed.

(** *** Taking the item *)

(** What the writer has in front of it once it has seen the head published. *)
Lemma head_item s :
  ring_inv s → head_seen s →
  pushed s !! length (popped s) = Some (items s (cell (pops s))) ∧
  knows (mem s) (data_write (cell (pops s))) (cview s) ∧ (∀ i, ¬ claims (prods s i) (pops s)).
Proof.
  intros Hinv (Hlt & t & W & Hl & HW & Ht). pose proof (pops_le s Hinv) as Hle. pose proof (size_two p Hp).
  destruct (r_cells s Hinv (pops s) ltac:(lia)) as (t' & v & W' & Hl' & Hst).
  destruct (last_unique _ _ _ _ _ _ _ _ Hl Hl') as (<- & <- & <-).
  destruct Hst as [(? & _)|[(_ & ? & _)|(_ & _ & Hit & Hk)]]; [lia|lia|].
  split_and!; [by unfold pops in Hit; rewrite Nat2Z.id in Hit|by eapply knows_le|].
  intros i Hi. pose proof (r_push s Hinv i) as Hpu.
  assert (∃ it, owns s (pview s i) (pops s) it) as (it & _ & _ & (u & W1 & Hl1 & _) & _).
  { destruct (prods s i); simpl in *; try done; subst; [by eexists|destruct Hpu; by eexists]. }
  destruct (last_unique _ _ _ _ _ _ _ _ Hl Hl1) as (_ & ? & _). lia.
Qed.

Lemma ring_take s :
  ring_inv s → cons s = CTake →
  ring_inv (turn s (CStore (items s (cell (dequeue_pos s))))
              (enter (mem s) (read_na (Data (cell (dequeue_pos s))))) (entered (mem s) (cview s))).
Proof.
  intros Hinv Hc. pose proof (r_pop s Hinv) as Hpo. unfold pop_ok in Hpo. rewrite Hc in Hpo.
  destruct Hpo as [Hdeq Hhead]. rewrite Hdeq. destruct (head_item s Hinv Hhead) as (Hit & Hw & Hno).
  pose proof (pops_le s Hinv) as Hle. pose proof (r_bound s Hinv) as Hb. set (s' := turn _ _ _ _).
  assert (pushes s' = pushes s ∧ pops s' = pops s) as [HE HD] by done.
  assert (∀ q, pops s ≤ q < pops s + n → q ≠ pops s → cell (pops s) ≠ cell q) as Hcell.
  { intros q Hq Hne Hcq. apply Hne. symmetry. apply (cell_window p Hp); [done|lia]. }
  assert (∀ Q V, (∀ y, Q y → a_write y = true) → knows (mem s) Q V → knows (mem s') Q V) as Hwr.
  { intros Q V HQ Hk. apply knows_enter_other; [done|]. intros H%HQ. done. }
  destruct Hhead as (Hlt & Hhead). destruct Hinv as [He Hea Hf _ Hv Hr Hcs Hrd Hpu Hu _]. split; try done.
  - intros q Hq. destruct (Hcs q Hq) as (t & v & W & Hl & Hst). exists t, v, W. split; [done|].
    destruct Hst as [(? & ? & ?)|[?|(? & ? & ? & ?)]]; [left|by right; left|right; right].
    + split_and!; [done|done|]. eapply enter_data_other; [done|by intros y|apply Hcell; [done|lia]].
    + split_and!; [done|done|done|]. apply Hwr; [by intros y [_ ?]|done].
  - by apply knows_enter.
  - intros j. specialize (Hpu j).
    assert (∀ U q it, claims (prods s j) q → owns s U q it → owns s' U q it) as Ho.
    { intros U q it Hcl (Hq & ? & ? & Hk). unfold owns. rewrite HE, HD. split_and!; [lia|lia|done|done|].
      eapply enter_data_other; [done|by intros y|]. apply Hcell; [lia|]. intros ->. by apply (Hno j). }
    simpl. destruct (prods s j) eqn:Hs; simpl in *; try done; [by apply Ho|]. destruct Hpu. split; [by apply Ho|done].
  - unfold pop_ok. cbn [cons turn]. rewrite HD. split_and!; [done| |done]. split; [done|]. destruct Hhead as (t & W & Hl & HW & Ht). exists t, W.
    split_and!; [done|etrans; [done|apply entered_le]|done].
Qed.

Lemma ring_release s out m V :
  ring_inv s → headroom s → cons s = CStore out →
  store (mem s) (cview s) (Sequence (cell (dequeue_pos s))) (wrap64 (wrap64 (dequeue_pos s + (n - 1)) + 1)) true m V →
  ring_inv (note (turn s (CInc out) m V) [] [out] []).
Proof.
  intros Hinv Hh Hc Hst. pose proof (r_pop s Hinv) as Hpo. unfold pop_ok in Hpo. rewrite Hc in Hpo.
  destruct Hpo as (Hdeq & Hhead & Hout). rewrite Hdeq in Hst. destruct (head_item s Hinv Hhead) as (Hit & Hw & Hno).
  pose proof (pops_le s Hinv) as Hle. pose proof (r_bound s Hinv) as Hb. pose proof (size_two p Hp) as H2.
  unfold headroom in Hh. destruct Hst as [t Hfree Ht]. set (D := pops s) in *.
  rewrite (wrap64_id (D + (n - 1))), wrap64_id by range_lia. replace (D + (n - 1) + 1) with (D + n) by lia.
  destruct Hhead as (Hlt & t0 & W0 & Hl0 & HW0 & Ht0). fold D in Hl0, Ht0, Hlt.
  set (W := see _ _ _). set (s' := note _ _ _ _).
  assert (pushes s' = pushes s ∧ pops s' = D + 1) as [HE HD].
  { unfold s', pushes, D, pops. simpl. rewrite app_nil_r, length_app. simpl. split; lia. }
  assert (pushed s' = pushed s) as HP by (simpl; apply app_nil_r).
  assert (0 ≤ D) as HD0 by lia. assert (t0 < t) as Htlt by lia. assert (D + 1 < D + n) as Hhi by lia.
  assert (∀ q, D ≤ q < D + n → q ≠ D → cell q ≠ cell D) as Hcell.
  { intros q Hq Hne Hcq. apply Hne. apply (cell_window p Hp); [done|lia]. }
  split; rewrite ?HE, ?HD, ?HP; try apply Hinv.
  - simpl. destruct (r_fifo s Hinv) as [l Hl]. rewrite Hl in Hout |- *.
    rewrite lookup_app_r, Nat.sub_diag in Hout by done. destruct l as [|y l]; [done|]. injection Hout as ->.
    exists l. by rewrite <- app_assoc.
  - lia.
  - intros q u v1 W1 Hq [Hx|(Hcq & -> & -> & ->)]%stamp_cases.
    + destruct (r_values s Hinv q u v1 W1 Hq Hx) as (q' & ? & ? & Hv). fold D in Hv. exists q'. split_and!; [done|done|lia].
    + exists (D + n). split_and!; [lia|by rewrite cell_next|]. left. lia.
  - intros q u v1 W1 u' v2 W2. by apply (stamp_rising s D t (D + n) t0 (D + 1) W W0).
  - intros q Hq. destruct (decide (q = D + n)) as [->|Hne].
    + exists t, (D + n), W. rewrite cell_next by done. split; [by apply (stamp_last s D t (D + n) t0 (D + 1) W W0)|].
      left. rewrite HE. split_and!; [lia|done|]. apply (knows_le _ _ (cview s)); [|apply see_le].
      intros k y Hy Hd. destruct (a_write y) eqn:Hwy; [by apply (Hw k y)|].
      apply (r_reads s Hinv k y Hy). split; [by exists (cell D)|done].
    + destruct (r_cells s Hinv q) as (u & v1 & W1 & Hl & Hst); [fold D; lia|]. exists u, v1, W1.
      split; [by apply (stamp_other s D t (D + n)); [apply Hcell; lia|]|]. rewrite HE, HP. exact Hst.
  - intros j. pose proof (r_push s Hinv j) as Hpu. simpl.
    assert (∀ U q it, claims (prods s j) q → owns s U q it → owns s' U q it) as Ho.
    { intros U q it Hcl Ho. pose proof Ho as (Hq & _). fold D in Hq.
      assert (q ≠ D) as Hne by (intros ->; by apply (Hno j)).
      apply (stamp_owns s D t (D + n) W U q it Ho); [apply Hcell; lia|done|done|rewrite HD; lia]. }
    destruct (prods s j) eqn:Hs; simpl in *; rewrite ?HE; try done.
    + destruct Hpu as (? & u & W1 & Hm & ?). split; [done|]. exists u, W1. split; [|done].
      by apply (stamp_keeps s D t (D + n) t0 (D + 1) W W0).
    + by apply Ho.
    + destruct Hpu. split; [by apply Ho|done].
  - unfold pop_ok. simpl. fold s'. rewrite HD, Hdeq. lia.
Qed.

(** *** Every step *)

Lemma ring_step s s' : step (n - 1) s s' → ring_inv s → headroom s → ring_inv s'.
Proof.
  intros Hstep Hinv Hh. destruct Hstep as [i x m V Hi Hst|i x Hi|i x m V Hi Hst|i x pos V Hi Hl|i pos x v V d Hi Hl Hd
    |i pos x m V Hi Hex|i pos x pos' V Hi Hl|i pos x Hi|i pos x m V Hi Hst|i pos v V Hi Hl|i pos Hi|i pos e Hi
    |v V d Hc Hl Hd|Hc|out m V Hc Hst|out Hc|out e Hc|out m V Hc Hst].
  - apply ring_move; [done|eapply slot_store; [|done]; by right| |unclaimed Hi|unclaimed Hi|done].
    etrans; [apply (entered_le (mem s))|by eapply store_le].
  - apply ring_error, ring_move; [done|apply slot_enter; by left|apply entered_le|unclaimed Hi|unclaimed Hi|done].
  - apply ring_move; [done|eapply slot_store; [|done]; by right| |unclaimed Hi|unclaimed Hi|done].
    etrans; [apply (entered_le (mem s))|by eapply store_le].
  - destruct Hl as [t pos W Hm Ht]. apply ring_move; [done|apply slot_refl|apply see_le|unclaimed Hi|unclaimed Hi|].
    destruct (r_enqueue s Hinv t pos W Hm). simpl. lia.
  - by apply ring_look with (v := v).
  - by apply ring_reserve.
  - destruct Hl as [t pos' W Hm Ht]. apply ring_move; [done|apply slot_refl|apply see_le|unclaimed Hi|unclaimed Hi|].
    destruct (r_enqueue s Hinv t pos' W Hm). simpl. lia.
  - by apply ring_write.
  - by apply ring_publish with (x := x).
  - apply ring_move; [done|apply slot_enter; by right| |unclaimed Hi|unclaimed Hi|by case_bool_decide].
    etrans; [apply (entered_le (mem s))|by eapply load_le].
  - apply ring_move; [done|apply slot_enter; by left|apply entered_le|unclaimed Hi|unclaimed Hi|done].
  - apply ring_move; [done|apply slot_refl|done|unclaimed Hi|unclaimed Hi|done].
  - by apply ring_pop_look with (v := v).
  - by apply ring_take.
  - by apply ring_release.
  - pose proof (r_pop s Hinv) as Hpo. unfold pop_ok in Hpo. rewrite Hc in Hpo. pose proof (pops_le s Hinv).
    pose proof (size_two p Hp). unfold headroom in Hh.
    apply (ring_inv_same s); [by split|done|by left|]. unfold pop_ok. simpl.
    change (pops (advance _)) with (pops s). rewrite wrap64_id by range_lia. lia.
  - apply ring_note, ring_error, (ring_turn s out.1); [done|apply slot_enter; by left|apply entered_le|].
    pose proof (r_pop s Hinv) as Hpo. unfold pop_ok in *. by rewrite Hc in Hpo.
  - apply (ring_turn s out.1); [done|eapply slot_store; [|done]; by right| |].
    + etrans; [apply (entered_le (mem s))|by eapply store_le].
    + pose proof (r_pop s Hinv) as Hpo. unfold pop_ok in *. by rewrite Hc in Hpo.
Qed.
End Queue.
