(* ===== verification/EngineWeak.v ===== *)
(** * Requests and answers under the C++ memory model

    The machine of [RingWeak], seen from the completion slots: who may touch a
    completion when, and the properties of the whole machine. *)

From stdpp Require Import functions relations.
From S2P Require Import Prelude Types RingBuffer ReleaseAcquire RingWeak.

(** Accesses to [done], those of them that are not atomic, and the accesses to a
    completion that a write to [error] and an atomic one to [done] conflict with. *)
Definition on_done (i : nat) (x : access nloc) : Prop := a_loc x = Done i.
Definition flag_na (i : nat) (x : access nloc) : Prop := a_loc x = Done i ∧ a_atomic x = false.
Definition slot_na (i : nat) (x : access nloc) : Prop := a_loc x = Answer i ∨ flag_na i x.

Section Slots.
Context {T : Type}.
Variable p : Z.
Hypothesis Hp : 1 ≤ p ≤ 62.
Abbreviation n := (2 ^ p).
Abbreviation cell := (cell_of (2 ^ p - 1)).
Implicit Types (s : weak T) (m : memory aloc nloc) (U V W : view aloc).

(** Requests answered, and those whose [done] has been set. *)
Definition served s : Z := Z.of_nat (length (answers s)).
Definition signalled s : Z := match cons s with CSignal _ => served s - 1 | _ => served s end.

(** ** The completion of a thread *)

(** The view [U] covers everything in the way of a write to the completion. *)
Definition slot_seen m (i : nat) U : Prop :=
  knows m (slot_na i) U ∧ latest m (Flag i) (v_at U (Flag i)).
(** All of its history. *)
Definition mine m (i : nat) U : Prop :=
  knows m (on_slot i) U ∧ latest m (Flag i) (v_at U (Flag i)).
(** [done] cannot be seen true, except from the message at [t]. *)
Definition clear_but m (i : nat) U (t : option Z) : Prop :=
  ∀ t' v W, messages m (Flag i) !! t' = Some (v, W) → v_at U (Flag i) ≤ t' → Some t' ≠ t → v = 0.

Definition asked s (i : nat) (pos : Z) : Prop :=
  0 ≤ pos ∧ ∃ x, pushed s !! Z.to_nat pos = Some (i, x).
Definition answered s (pos : Z) (e : LedgerError) : Prop := answers s !! Z.to_nat pos = Some e.

Definition slot_ok s (i : nat) V (st : pstate T) : Prop :=
  match st with
  | PIdle => mine (mem s) i V
  | PWait pos =>
      asked s i pos ∧ knows (mem s) (flag_na i) V ∧
      (signalled s ≤ pos → latest (mem s) (Flag i) (v_at V (Flag i)) ∧ clear_but (mem s) i V None ∧
         knows (mem s) (on_done i) V ∧ (served s ≤ pos → knows (mem s) (on_slot i) V)) ∧
      (pos < signalled s → answered s pos (errors s i) ∧ ∃ t W,
         last_message (mem s) (Flag i) t 1 W ∧ clear_but (mem s) i V (Some t) ∧
         knows (mem s) (on_slot i) (join V W))
  | PRead pos => mine (mem s) i V ∧ asked s i pos ∧ pos < signalled s ∧ answered s pos (errors s i)
  | PGot pos e => mine (mem s) i V ∧ asked s i pos ∧ answered s pos e
  | _ => mine (mem s) i V ∧ clear_but (mem s) i V None
  end.

Definition serve_ok s : Prop :=
  match cons s with
  | CIdle | CTake | CStore _ => served s = pops s
  | CInc out | CServe out =>
      served s + 1 = pops s ∧ pushed s !! length (answers s) = Some out ∧ slot_seen (mem s) out.1 (cview s)
  | CSignal out =>
      served s = pops s ∧ 1 ≤ served s ∧ pushed s !! Z.to_nat (served s - 1) = Some out ∧
      answered s (served s - 1) (errors s out.1) ∧ slot_seen (mem s) out.1 (cview s)
  end.

Record slot_inv s : Prop := mkSlotInv {
  sl_open q it : signalled s ≤ q < pushes s → pushed s !! Z.to_nat q = Some it →
    prods s it.1 = PWait q ∨ claims (prods s it.1) q;
  sl_threads i : slot_ok s i (pview s i) (prods s i);
  sl_cells pos it t W : pops s ≤ pos < pushes s → pushed s !! Z.to_nat pos = Some it →
    messages (mem s) (Sequence (cell pos)) !! t = Some (pos + 1, W) → slot_seen (mem s) it.1 W;
  sl_serve : serve_ok s
}.

Lemma slot_na_on i x : slot_na i x → on_slot i x.
Proof. intros [?|[? _]]; [by left|by right]. Qed.
Lemma latest_le m a t t' : latest m a t → t ≤ t' → latest m a t'.
Proof. intros Hl Ht u msg Hu. apply Hl in Hu. lia. Qed.
Lemma slot_seen_le m i U V : slot_seen m i U → vle U V → slot_seen m i V.
Proof. intros [Hk Hl] HV. split; [by eapply knows_le|]. eapply latest_le; [done|apply HV]. Qed.
Lemma mine_le m i U V : mine m i U → vle U V → mine m i V.
Proof. intros [Hk Hl] HV. split; [by eapply knows_le|]. eapply latest_le; [done|apply HV]. Qed.
Lemma clear_le m i U V t : clear_but m i U t → vle U V → clear_but m i V t.
Proof.
  intros Hc [Ha _] t' v W Hm Ht. apply (Hc t' v W Hm). specialize (Ha (Flag i)). lia.
Qed.
Lemma mine_seen m i U : mine m i U → slot_seen m i U.
Proof. intros [Hk Hl]. split; [|done]. apply (knows_impl _ _ _ _ Hk), slot_na_on. Qed.
Lemma join_mono V V' W : vle V V' → vle (join V W) (join V' W).
Proof.
  intros [Ha Hs]. split; simpl; [|set_solver]. intros a. specialize (Ha a). lia.
Qed.

(** A step that leaves the completion of [j] alone. *)
Record slot_frame s s' (j : nat) : Prop := mkSlotFrame {
  sf_flag : messages (mem s') (Flag j) = messages (mem s) (Flag j);
  sf_log Q U : (∀ x, Q x → on_slot j x) → knows (mem s) Q U → knows (mem s') Q U;
}.

Section Frame.
Variables (s s' : weak T) (j : nat).
Hypothesis Hf : slot_frame s s' j.

Lemma seen_frame U : slot_seen (mem s) j U → slot_seen (mem s') j U.
Proof.
  intros [Hk Hl]. split; [apply (sf_log _ _ _ Hf); [apply slot_na_on|done]|].
  intros t msg. rewrite (sf_flag _ _ _ Hf). apply Hl.
Qed.
Lemma mine_frame U : mine (mem s) j U → mine (mem s') j U.
Proof.
  intros [Hk Hl]. split; [by apply (sf_log _ _ _ Hf)|].
  intros t msg. rewrite (sf_flag _ _ _ Hf). apply Hl.
Qed.
Lemma clear_frame U t : clear_but (mem s) j U t → clear_but (mem s') j U t.
Proof. intros Hc t' v W. rewrite (sf_flag _ _ _ Hf). apply Hc. Qed.

Lemma slot_ok_frame V V' st :
  slot_ok s j V st → vle V V' → errors s' j = errors s j →
  pushed s `prefix_of` pushed s' → answers s `prefix_of` answers s' →
  (∀ pos, asked s j pos → (signalled s' ≤ pos ↔ signalled s ≤ pos)) →
  slot_ok s' j V' st.
Proof.
  intros Hok HV He Hpush Hans Hsig. pose proof (mine_frame V) as Hm. pose proof (clear_frame V) as Hc.
  assert (mine (mem s) j V → mine (mem s') j V') as Hm'.
  { intros H. eapply mine_le; [|done]. auto. }
  assert (∀ t, clear_but (mem s) j V t → clear_but (mem s') j V' t) as Hc'.
  { intros t H. eapply clear_le; [|done]. auto. }
  assert (∀ pos, asked s j pos → asked s' j pos) as Hask.
  { intros pos (? & x & Hx). split; [done|]. exists x. by eapply prefix_lookup_Some. }
  assert (∀ pos e, answered s pos e → answered s' pos e) as Ha.
  { intros pos e Hx. by eapply prefix_lookup_Some. }
  assert (served s ≤ served s') as Hsv by (unfold served; apply prefix_length in Hans; lia).
  destruct st as [| | | | | | | |pos|pos|pos e]; simpl in *;
    try (destruct Hok; split; by auto); [by auto| | |].
  - destruct Hok as (Hq & Hfl & Hbefore & Hafter). pose proof (Hsig pos Hq) as Hs. split_and!; [by apply Hask| | |].
    + eapply knows_le; [|done]. apply (sf_log _ _ _ Hf); [|done]. intros x [? _]. by right.
    + intros Hle%Hs. destruct (Hbefore Hle) as (Hl & Hcl & Hd & Hk). split_and!; [|by apply Hc'| |].
      * intros t msg. rewrite (sf_flag _ _ _ Hf). intros Ht%Hl. destruct HV as [Hat _]. specialize (Hat (Flag j)). lia.
      * eapply knows_le; [|done]. apply (sf_log _ _ _ Hf); [by right|done].
      * intros Hle'. eapply knows_le; [|done]. apply (sf_log _ _ _ Hf); [done|]. apply Hk. lia.
    + intros Hlt. destruct Hafter as (Hans' & t & W & [Hl1 Hl2] & Hcl & Hk); [lia|].
      rewrite He. split; [by apply Ha|]. exists t, W. split_and!; [|by apply Hc'|].
      * split; [by rewrite (sf_flag _ _ _ Hf)|]. intros u msg. rewrite (sf_flag _ _ _ Hf). apply Hl2.
      * eapply knows_le; [|by apply join_mono]. by apply (sf_log _ _ _ Hf).
  - destruct Hok as (? & Hq & ? & ?). pose proof (Hsig pos Hq). rewrite He. split_and!; [auto|by apply Hask|lia|by apply Ha].
  - destruct Hok as (? & Hq & ?). split_and!; [auto|by apply Hask|by apply Ha].
Qed.
End Frame.

(** No request of the thread is waiting for its answer. *)
Definition quiet s (i : nat) : Prop :=
  ∀ q it, signalled s ≤ q < pushes s → pushed s !! Z.to_nat q = Some it → it.1 ≠ i.

Lemma quiet_of s i :
  slot_inv s → (∀ q, prods s i ≠ PWait q ∧ ¬ claims (prods s i) q) → quiet s i.
Proof.
  intros Hinv Hno q it Hq Hit <-. destruct (Hno q) as [H1 H2]. by destruct (sl_open s Hinv q it Hq Hit).
Qed.

Lemma pushed_index s k it : pushed s !! k = Some it → Z.of_nat k < pushes s.
Proof. intros Hk%lookup_lt_Some. unfold pushes. lia. Qed.

Lemma signalled_le s : slot_inv s → 0 ≤ signalled s ∧ signalled s ≤ served s ≤ pops s.
Proof.
  intros Hinv. pose proof (sl_serve s Hinv) as Hs. unfold serve_ok in Hs. unfold signalled.
  assert (0 ≤ served s) by (unfold served; lia).
  destruct (cons s); naive_solver lia.
Qed.

(** *** Steps of a producer *)

Section Local.
Variables (s s' : weak T) (i : nat).
Hypothesis Hinv : slot_inv s.
Hypothesis Hothers : ∀ j, j ≠ i →
  slot_frame s s' j ∧ errors s' j = errors s j ∧ prods s' j = prods s j ∧ pview s' j = pview s j.
Hypothesis Hwriter : cons s' = cons s ∧ cview s' = cview s ∧ popped s' = popped s ∧ answers s' = answers s.
Hypothesis Hseen :
  (∀ U, slot_seen (mem s) i U → slot_seen (mem s') i U) ∧ errors s' i = errors s i ∨ quiet s i.
Hypothesis Hpush : pushed s' = pushed s ∨ ∃ x, pushed s' = pushed s ++ [(i, x)].
Hypothesis Hcells : ∀ pos it t W, pops s ≤ pos < pushes s' → pushed s' !! Z.to_nat pos = Some it →
  messages (mem s') (Sequence (cell pos)) !! t = Some (pos + 1, W) →
  pos < pushes s ∧ messages (mem s) (Sequence (cell pos)) !! t = Some (pos + 1, W) ∨
  slot_seen (mem s') it.1 W.
Hypothesis Hown : ∀ q x, signalled s ≤ q < pushes s' → pushed s' !! Z.to_nat q = Some (i, x) →
  prods s' i = PWait q ∨ claims (prods s' i) q.
Hypothesis Hok : slot_ok s' i (pview s' i) (prods s' i).

Lemma local_counts : signalled s' = signalled s ∧ served s' = served s ∧ pops s' = pops s.
Proof.
  destruct Hwriter as (Hc & _ & Hp' & Ha). unfold signalled, served, pops. by rewrite Hc, Hp', Ha.
Qed.

Lemma local_prefix : pushed s `prefix_of` pushed s'.
Proof. destruct Hpush as [->|[x ->]]; [done|by apply prefix_app_r]. Qed.

Lemma local_old q it : pushed s' !! Z.to_nat q = Some it → it.1 ≠ i → pushed s !! Z.to_nat q = Some it.
Proof.
  destruct Hpush as [->|[x ->]]; [done|]. intros [[_ H]|[_ <-]]%lookup_snoc_Some Hne; [done|by destruct Hne].
Qed.

Lemma local_waiting q it U :
  signalled s ≤ q < pushes s → pushed s !! Z.to_nat q = Some it → slot_seen (mem s) it.1 U →
  slot_seen (mem s') it.1 U ∧ errors s' it.1 = errors s it.1.
Proof.
  intros Hq Hit HU. destruct (decide (it.1 = i)) as [<-|Hne].
  - destruct Hseen as [[Hsn He]|Hqt]; [by auto|]. by destruct (Hqt q it).
  - destruct (Hothers _ Hne) as (Hf & He & _). split; [|done]. by apply (seen_frame s).
Qed.

Lemma local_serve : serve_ok s'.
Proof.
  destruct local_counts as (Hsig & Hsv & Hpo). destruct Hwriter as (Hc & Hcv & _ & Ha).
  pose proof (signalled_le s Hinv) as Hle. pose proof (sl_serve s Hinv) as Hs.
  unfold serve_ok in *. rewrite Hc, Hsv, Hpo, Hcv, Ha. unfold answered. rewrite Ha.
  assert (∀ out U, pushed s !! length (answers s) = Some out → slot_seen (mem s) out.1 U →
    pushed s' !! length (answers s) = Some out ∧ slot_seen (mem s') out.1 U) as Hat.
  { intros out U Hl HU. split; [by eapply prefix_lookup_Some, local_prefix|].
    apply (local_waiting (served s) out U); [|unfold served; by rewrite Nat2Z.id|done].
    pose proof (pushed_index _ _ _ Hl). unfold served in *. lia. }
  destruct (cons s) as [| | |out|out|out] eqn:Hcs; try done.
  - destruct Hs as (? & ? & ?). split; [done|]. by apply Hat.
  - destruct Hs as (? & ? & ?). split; [done|]. by apply Hat.
  - destruct Hs as (? & ? & Hl & He & HU). pose proof (pushed_index _ _ _ Hl).
    destruct (local_waiting (served s - 1) out (cview s)) as [HU' ->]; [|done|done|].
    { unfold signalled. rewrite Hcs. lia. }
    split_and!; [done|done| |done|done]. by eapply prefix_lookup_Some, local_prefix.
Qed.

Lemma slot_local : slot_inv s'.
Proof.
  destruct local_counts as (Hsig & Hsv & Hpo). pose proof (signalled_le s Hinv) as Hle.
  split; rewrite ?Hsig, ?Hpo; [| | |apply local_serve].
  - intros q it Hq Hit. destruct (decide (it.1 = i)) as [<-|Hne].
    { apply (Hown q it.2 Hq). by rewrite Hit, <- surjective_pairing. }
    pose proof (local_old q it Hit Hne) as Hold. destruct (Hothers _ Hne) as (_ & _ & -> & _).
    apply (sl_open s Hinv); [|done]. apply pushed_index in Hold. lia.
  - intros j. destruct (decide (j = i)) as [->|Hne]; [done|].
    destruct (Hothers _ Hne) as (Hf & He & -> & ->). destruct Hwriter as (_ & _ & _ & Ha).
    apply (slot_ok_frame s s' j Hf (pview s j)); [by apply (sl_threads s Hinv)|done|done|apply local_prefix| |].
    + by rewrite Ha.
    + by rewrite Hsig.
  - intros pos it t W Hpos Hit Hm. destruct (Hcells pos it t W Hpos Hit Hm) as [[Hlt Hold]|]; [|done].
    assert (pushed s !! Z.to_nat pos = Some it) as Hit'.
    { destruct Hpush as [He|[x He]]; rewrite He in Hit; [done|].
      apply lookup_snoc_Some in Hit as [[_ ?]|[Hl _]]; [done|]. unfold pushes in Hlt. unfold pops in Hpos. lia. }
    destruct (local_waiting pos it W) as [? _]; [lia|done| |done].
    apply (sl_cells s Hinv pos it t); [lia|done|done].
Qed.
End Local.

Lemma slot_frame_memory s s' i j : j ≠ i → slot_memory i (mem s) (mem s') → slot_frame s s' j.
Proof.
  intros Hne Hm. split; [apply Hm; congruence|]. intros Q U HQ. apply (slot_knows i _ _ _ _ Hm).
  intros x Hx%HQ Hi. destruct Hx, Hi; congruence.
Qed.

(** Memory that differs outside the completions. *)
Definition ring_memory (m m' : memory aloc nloc) : Prop :=
  (∀ j, messages m' (Flag j) = messages m (Flag j)) ∧
  (log m' = log m ∨ ∃ x, (∀ j, ¬ on_slot j x) ∧ log m' = log m ++ [x]).

Lemma ring_memory_enter m x : (∀ j, ¬ on_slot j x) → ring_memory m (enter m x).
Proof. intros Hx. split; [done|right]. by exists x. Qed.
Lemma data_no_slot k b c j : ¬ on_slot j (mkAccess (Data k) b c).
Proof. by intros [?|?]. Qed.

Lemma slot_frame_ring s s' j : ring_memory (mem s) (mem s') → slot_frame s s' j.
Proof.
  intros [Hf Hl]. split; [apply Hf|]. intros Q U HQ Hk. unfold knows in *.
  destruct Hl as [->|(x & Hx & ->)]; [done|]. apply (knows_enter_other (mem s) x Q U Hk).
  intros H%HQ. by apply (Hx j).
Qed.

Lemma slot_move s i st m V :
  slot_inv s → quiet s i → slot_memory i (mem s) m → slot_ok (move s i st m V) i V st →
  slot_inv (move s i st m V).
Proof.
  intros Hinv Hq Hm Hok. apply (slot_local s _ i Hinv); simpl; [|done|by right|by left| | |].
  - intros j Hne. rewrite !fn_lookup_insert_ne by done. split; [by apply (slot_frame_memory _ _ i)|done].
  - intros pos it t W Hpos _ Hw. left. split; [apply Hpos|]. destruct Hm as [Hm _]. by rewrite Hm in Hw.
  - intros q x Hr Hx. by destruct (Hq q _ Hr Hx).
  - by rewrite !fn_lookup_insert.
Qed.

Lemma slot_error s i e :
  slot_inv s → quiet s i → slot_ok (write_error s i e) i (pview s i) (prods s i) →
  slot_inv (write_error s i e).
Proof.
  intros Hinv Hq Hok. apply (slot_local s _ i Hinv); simpl; [|done|by right|by left| | |done].
  - intros j Hne. rewrite fn_lookup_insert_ne by done. split; [by apply slot_frame_ring; split; auto|done].
  - intros pos it t W Hpos _ Hw. left. split; [apply Hpos|done].
  - intros q x Hr Hx. by destruct (Hq q _ Hr Hx).
Qed.

(** Setting [done] to false, from a state in which the thread owns its completion. *)
Lemma slot_clear s i x V m V' :
  mine (mem s) i V → on_slot i x →
  store (enter (mem s) x) (entered (mem s) V) (Flag i) 0 false m V' → mine m i V' ∧ clear_but m i V' None.
Proof.
  intros [Hk Hl] Hx [t Hf Ht]. split; [split|].
  - apply knows_send. eapply knows_le; [by apply knows_enter|apply see_le].
  - rewrite see_at. eapply latest_le; [by apply (latest_send _ _ (v_at V (Flag i)))|]. lia.
  - intros u v W. rewrite send_eq, see_at. intros [[_ H]|[_ Hu]]%lookup_insert_Some Hle _; [by injection H|].
    apply Hl in Hu. simpl in *. lia.
Qed.

(** A thread about to submit has no request waiting. *)
Ltac is_quiet H := apply quiet_of; [done|]; intros ?; rewrite H; simpl; split; [done|tauto].

(** The thread keeps its completion and goes on with the queue. *)
Lemma slot_go s i st V :
  slot_inv s → quiet s i → vle (pview s i) V →
  mine (mem s) i (pview s i) ∧ clear_but (mem s) i (pview s i) None →
  match st with PWait _ | PRead _ | PGot _ _ => False | _ => True end →
  slot_inv (move s i st (mem s) V).
Proof.
  intros Hinv Hq HV [Hm Hc] Hst. apply slot_move; [done|done|apply slot_refl|].
  pose proof (mine_le _ _ _ _ Hm HV). pose proof (clear_le _ _ _ _ _ Hc HV).
  by destruct st.
Qed.

Lemma slot_write s i pos x :
  slot_inv s → prods s i = PWrite pos x →
  slot_inv (write_item (move s i (PPublish pos x) (enter (mem s) (write_na (Data (cell pos))))
                          (entered (mem s) (pview s i))) (cell pos) (i, x)).
Proof.
  intros Hinv Hi. set (s' := write_item _ _ _).
  assert (ring_memory (mem s) (mem s')) as Hm by (apply ring_memory_enter, data_no_slot).
  apply (slot_local s s' i Hinv); [|by repeat split| |by left| | |].
  - intros j Hne. simpl. rewrite !fn_lookup_insert_ne by done. split; [by apply slot_frame_ring|done].
  - left. split; [|done]. intros U. apply (seen_frame s s' i). by apply slot_frame_ring.
  - intros q it t W Hpos _ Hw. left. split; [apply Hpos|done].
  - intros q y Hq Hy. simpl. rewrite fn_lookup_insert. right.
    destruct (sl_open s Hinv q (i, y) Hq Hy) as [H|H]; simpl in H; by rewrite Hi in H.
  - simpl. rewrite !fn_lookup_insert. pose proof (sl_threads s Hinv i) as Hok. rewrite Hi in Hok.
    apply (slot_ok_frame s s' i (slot_frame_ring s s' i Hm) (pview s i)); [done|apply entered_le|done..].
Qed.

Lemma slot_reserve s i pos x m V :
  slot_inv s → ring_inv p s → prods s i = PCas pos x →
  exchange (mem s) (pview s i) Enqueue pos (wrap64 (pos + 1)) m V →
  slot_inv (note (move s i (PWrite pos x) m V) [(i, x)] [] []).
Proof.
  intros Hinv Hr Hi Hex. set (s' := note _ _ _ _).
  destruct (exchange_owner p Hp s i pos x m V Hr Hi Hex) as (-> & Hw & Hm & HV & _).
  pose proof (size_two p Hp) as H2. pose proof (pops_le p s Hr) as Hle.
  assert (ring_memory (mem s) m) as Hrm.
  { subst m. split; [intros j; by rewrite send_ne|by left]. }
  assert (∀ k, messages m (Sequence k) = messages (mem s) (Sequence k)) as Hsm.
  { intros k. subst m. by rewrite send_ne. }
  apply (slot_local s s' i Hinv); simpl; rewrite ?app_nil_r; [|done| |right; by exists x| | |].
  - intros j Hne. rewrite !fn_lookup_insert_ne by done. split; [by apply slot_frame_ring|done].
  - left. split; [|done]. intros U. apply (seen_frame s s' i). by apply slot_frame_ring.
  - intros q it t W Hq _ Hw'. left. rewrite Hsm in Hw'. split; [|done].
    destruct (r_values p s Hr q t (q + 1) W) as (q' & Hq0 & Hc & [[Hv _]|[Hv Hlt]]); [lia|done| |lia].
    subst q'. apply (cell_window p Hp) in Hc; lia.
  - intros q y Hq Hy. right. rewrite fn_lookup_insert. simpl.
    pose proof (signalled_le s Hinv) as Hsl. apply lookup_snoc_Some in Hy as [[Hlt Hy]|[Heq _]].
    + destruct (sl_open s Hinv q (i, y)) as [H|H]; [unfold pushes; lia|done| |];
        simpl in H; by rewrite Hi in H.
    + unfold pushes. lia.
  - rewrite !fn_lookup_insert. pose proof (sl_threads s Hinv i) as Hok. rewrite Hi in Hok.
    destruct Hok as [Hmine Hcl]. split.
    + eapply mine_le; [|exact HV]. by apply (mine_frame s s' i (slot_frame_ring s s' i Hrm)).
    + eapply clear_le; [|exact HV]. by apply (clear_frame s s' i (slot_frame_ring s s' i Hrm)).
Qed.

Lemma slot_publish s i pos x m V :
  slot_inv s → ring_inv p s → headroom p s → prods s i = PPublish pos x →
  store (mem s) (pview s i) (Sequence (cell pos)) (wrap64 (pos + 1)) true m V →
  slot_inv (move s i (PWait pos) m V).
Proof.
  intros Hinv Hr Hh Hi [t Hf Ht]. set (s' := move _ _ _ _ _).
  pose proof (r_push p s Hr i) as Hpu. rewrite Hi in Hpu. destruct Hpu as [(Hpos & Hit & _ & _) _].
  pose proof (sl_threads s Hinv i) as Hok. rewrite Hi in Hok. destruct Hok as [Hmine Hcl].
  pose proof (pops_le p s Hr) as Hle. pose proof (signalled_le s Hinv) as Hsl. pose proof (size_two p Hp) as H2.
  assert (ring_memory (mem s) (mem s')) as Hrm.
  { split; [intros j; simpl; by rewrite fn_lookup_insert_ne|by left]. }
  pose proof (slot_frame_ring s s' i Hrm) as Hfr.
  pose proof (mine_frame s s' i Hfr _ Hmine) as Hmine'. pose proof (clear_frame s s' i Hfr _ _ Hcl) as Hcl'.
  pose proof (see_le (Sequence (cell pos)) t (pview s i)) as HV.
  apply (slot_local s s' i Hinv); [|by repeat split| |by left| | |].
  - intros j Hne. simpl. rewrite !fn_lookup_insert_ne by done. split; [by apply slot_frame_ring|done].
  - left. split; [|done]. intros U. by apply (seen_frame s s' i).
  - intros q it u W Hq Hit' Hw. change (pushes s') with (pushes s) in Hq. simpl in Hit', Hw.
    destruct (decide (cell q = cell pos)) as [Hc|Hc].
    + rewrite Hc, fn_lookup_insert in Hw. apply lookup_insert_Some in Hw as [[_ Hw]|[_ Hw]].
      * injection Hw as Hv <-. unfold headroom in Hh. rewrite wrap64_id in Hv by range_lia.
        assert (q = pos) as -> by lia. right. simplify_eq. eapply slot_seen_le; [by apply mine_seen|done].
      * left. split; [lia|by rewrite Hc].
    + rewrite fn_lookup_insert_ne in Hw by congruence. left. split; [lia|done].
  - intros q y Hq Hy. simpl. rewrite fn_lookup_insert. left.
    destruct (sl_open s Hinv q (i, y) Hq Hy) as [H|H]; simpl in H; rewrite Hi in H; [done|by simpl in H; subst].
  - simpl. rewrite !fn_lookup_insert. split_and!; [split; [lia|by exists x]| | |].
    + eapply knows_le; [|done]. apply (knows_impl _ _ _ _ (proj1 Hmine')). intros y [? _]. by right.
    + intros _. split_and!; [by apply (mine_le _ _ _ _ Hmine' HV)|by eapply clear_le| |].
      * eapply knows_le; [|done]. apply (knows_impl _ _ _ _ (proj1 Hmine')). by right.
      * intros _. by apply (mine_le _ _ _ _ Hmine' HV).
    + change (signalled s') with (signalled s). lia.
Qed.

(** Polling: a message other than the answer leaves the thread waiting; the answer
    gives it back its completion. *)
Lemma slot_poll_wait s i pos V V' :
  slot_ok s i V (PWait pos) → vle (entered (mem s) V) V' →
  slot_ok (move s i (PWait pos) (enter (mem s) (read_at (Done i))) V') i V' (PWait pos).
Proof.
  intros (Hq & Hfl & Hb & Ha) HV. assert (vle V V') as HV' by (etrans; [apply (entered_le (mem s))|done]).
  split_and!; [done| | |].
  - eapply knows_le; [|exact HV]. by apply knows_enter.
  - intros Hle. destruct (Hb Hle) as (Hl & Hc & Hd & Hk). split_and!.
    + eapply latest_le; [done|apply HV'].
    + by eapply (clear_le (mem s)).
    + eapply knows_le; [|exact HV]. by apply knows_enter.
    + intros Hsv. eapply knows_le; [|exact HV]. apply knows_enter. by apply Hk.
  - intros Hlt. destruct (Ha Hlt) as (Hans & t & W & Hl & Hc & Hk). split; [done|]. exists t, W.
    split_and!; [done|by eapply (clear_le (mem s))|].
    apply (knows_le _ _ (entered (mem s) (join V W))); [by apply knows_enter|].
    destruct HV as [Hat Hs]. split; [intros a; specialize (Hat a); simpl in *; lia|simpl in *; set_solver].
Qed.

Lemma slot_poll_done s i pos V t v W :
  slot_ok s i V (PWait pos) → messages (mem s) (Flag i) !! t = Some (v, W) → v_at V (Flag i) ≤ t → v ≠ 0 →
  pos < signalled s ∧
  slot_ok (move s i (PRead pos) (enter (mem s) (read_at (Done i))) (see (Flag i) t (join (entered (mem s) V) W)))
    i (see (Flag i) t (join (entered (mem s) V) W)) (PRead pos).
Proof.
  intros (Hq & Hfl & Hb & Ha) Hm Ht Hv. assert (pos < signalled s) as Hlt.
  { destruct (decide (signalled s ≤ pos)) as [Hle|]; [|lia]. destruct (Hb Hle) as (_ & Hc & _).
    by destruct Hv, (Hc t v W). }
  split; [done|]. destruct (Ha Hlt) as (Hans & t0 & W0 & [Hm0 Hl] & Hc & Hk).
  assert (t = t0) as <-.
  { destruct (decide (t = t0)); [done|]. destruct Hv. apply (Hc t v W); [done|done|congruence]. }
  rewrite Hm in Hm0. injection Hm0 as -> ->. split_and!; [split|done|done|done].
  - apply (knows_le _ _ (entered (mem s) (join V W0))); [by apply knows_enter|].
    etrans; [|apply see_le]. split; [done|simpl; set_solver].
  - rewrite see_at. eapply latest_le; [done|]. lia.
Qed.

Lemma slot_poll s i pos v V :
  slot_inv s → prods s i = PWait pos →
  load (enter (mem s) (read_at (Done i))) (entered (mem s) (pview s i)) (Flag i) true v V →
  slot_inv (move s i (if bool_decide (v = 0) then PWait pos else PRead pos) (enter (mem s) (read_at (Done i))) V).
Proof.
  intros Hinv Hi Hl. set (s' := move _ _ _ _ _).
  pose proof (sl_threads s Hinv i) as Hok. rewrite Hi in Hok. pose proof (load_le _ _ _ _ _ _ Hl) as HV.
  assert (∀ q y, signalled s ≤ q < pushes s → pushed s !! Z.to_nat q = Some (i, y) → q = pos) as Hopen.
  { intros q y Hq Hy. destruct (sl_open s Hinv q (i, y) Hq Hy) as [H|H]; simpl in H; rewrite Hi in H; [by injection H|done]. }
  assert (slot_memory i (mem s) (mem s')) as Hm by (apply slot_enter; by right).
  destruct Hl as [t v W Hw Ht].
  apply (slot_local s s' i Hinv); [|by repeat split| |by left| | |].
  - intros j Hne. simpl. rewrite !fn_lookup_insert_ne by done. split; [by apply (slot_frame_memory _ _ i)|done].
  - left. split; [|done]. intros U [Hk Hl]. split; [|done]. apply knows_enter_other; [done|]. by intros [?|[_ ?]].
  - intros q it u W' Hq _ Hw'. left. split; [apply Hq|done].
  - intros q y Hq Hy. pose proof (Hopen q y Hq Hy) as ->. simpl. rewrite fn_lookup_insert. case_bool_decide as Hv; [by left|].
    destruct (slot_poll_done s i pos (pview s i) t v W Hok Hw Ht Hv). lia.
  - unfold s'. simpl. rewrite !fn_lookup_insert. case_bool_decide as Hv.
    + by apply (slot_poll_wait s i pos (pview s i)).
    + by apply (slot_poll_done s i pos (pview s i) t v W).
Qed.

(** *** Steps of the writer *)

(** The queue only. *)
Lemma slot_turn s s' :
  slot_inv s → ring_memory (mem s) (mem s') → pushed s' = pushed s → answers s' = answers s →
  prods s' = prods s → pview s' = pview s → errors s' = errors s → signalled s' = signalled s →
  pops s ≤ pops s' →
  (∀ pos t W, pops s' ≤ pos < pushes s → messages (mem s') (Sequence (cell pos)) !! t = Some (pos + 1, W) →
     messages (mem s) (Sequence (cell pos)) !! t = Some (pos + 1, W)) →
  serve_ok s' → slot_inv s'.
Proof.
  intros Hinv Hm Hpu Ha Hpr Hpv He Hsig Hpo Hcells Hserve.
  assert (∀ j, slot_frame s s' j) as Hf by (intros j; by apply slot_frame_ring).
  unfold pushes in *. split; [| | |done].
  - intros q it. unfold pushes. rewrite Hpu, Hpr, Hsig. apply Hinv.
  - intros j. rewrite Hpr, Hpv. apply (slot_ok_frame s s' j (Hf j) (pview s j)); [apply Hinv|done|by rewrite He|by rewrite Hpu|by rewrite Ha|].
    by rewrite Hsig.
  - intros pos it t W Hpos Hit Hw. unfold pushes in Hpos. rewrite Hpu in Hpos, Hit. apply (seen_frame s s' _ (Hf _)).
    apply (sl_cells s Hinv pos it t); [unfold pushes; lia|done|]. by apply Hcells.
Qed.

Lemma ring_refl m : ring_memory m m.
Proof. split; auto. Qed.

Lemma slot_release s out m V :
  slot_inv s → ring_inv p s → headroom p s → cons s = CStore out →
  store (mem s) (cview s) (Sequence (cell (dequeue_pos s)))
    (wrap64 (wrap64 (dequeue_pos s + (n - 1)) + 1)) true m V →
  slot_inv (note (turn s (CInc out) m V) [] [out] []).
Proof.
  intros Hinv Hr Hh Hc [t Hf Ht]. pose proof (r_pop p s Hr) as Hpo. unfold pop_ok in Hpo. rewrite Hc in Hpo.
  destruct Hpo as (Hd & (Hlt & u & W & [Hw _] & HW & _) & Hout). rewrite Hd in *.
  pose proof (sl_serve s Hinv) as Hs. unfold serve_ok in Hs. rewrite Hc in Hs.
  pose proof (pops_le p s Hr) as Hle. pose proof (size_two p Hp) as H2. unfold headroom in Hh.
  assert (Hwr : wrap64 (wrap64 (pops s + (n - 1)) + 1) = pops s + n).
  { rewrite (wrap64_id (pops s + _)) by range_lia. rewrite wrap64_id by range_lia. lia. }
  rewrite Hwr. set (s' := note _ _ _ _).
  assert (ring_memory (mem s) (mem s')) as Hm by (split; [intros j; simpl; by rewrite fn_lookup_insert_ne|by left]).
  assert (pops s' = pops s + 1) as Hp1 by (unfold pops, s'; simpl; rewrite length_app; simpl; lia).
  assert (served s' = served s) as Hsv by (unfold served, s'; simpl; by rewrite app_nil_r).
  apply (slot_turn s s' Hinv Hm); [apply app_nil_r|apply app_nil_r|done|done|done| |lia| |].
  - unfold signalled. rewrite Hsv, Hc. done.
  - intros pos v U Hpos. simpl. destruct (decide (cell pos = cell (pops s))) as [Hcl|Hcl].
    + rewrite Hcl, fn_lookup_insert. intros [[_ Hv]|[_ ?]]%lookup_insert_Some; [|done].
      injection Hv as Hv _. apply (cell_window p Hp) in Hcl; lia.
    + by rewrite fn_lookup_insert_ne by congruence.
  - unfold serve_ok. rewrite Hsv, Hp1. simpl. rewrite !app_nil_r. split_and!; [lia| |].
    + rewrite <- Hout. f_equal. unfold served, pops in Hs. lia.
    + apply (seen_frame s s' _ (slot_frame_ring s s' _ Hm)).
      eapply slot_seen_le; [apply (sl_cells s Hinv (pops s) out u); [lia| |exact Hw]|].
      * unfold pops. by rewrite Nat2Z.id.
      * etrans; [exact HW|apply see_le].
Qed.

(** The thread of a request that is being answered is waiting for it. *)
Lemma served_waits s q out :
  slot_inv s → ring_inv p s → signalled s ≤ q < pops s → pushed s !! Z.to_nat q = Some out →
  prods s out.1 = PWait q.
Proof.
  intros Hinv Hr Hq Hl. pose proof (pushed_index _ _ _ Hl) as Hlt. pose proof (signalled_le s Hinv).
  destruct (sl_open s Hinv q out) as [|Hc]; [lia|done|done|]. pose proof (claims_bound p Hp s _ _ Hr Hc). lia.
Qed.

(** No other request of the thread is in the queue meanwhile. *)
Lemma served_alone s q out pos it :
  slot_inv s → ring_inv p s → signalled s ≤ q < pops s → pushed s !! Z.to_nat q = Some out →
  pops s ≤ pos < pushes s → pushed s !! Z.to_nat pos = Some it → it.1 ≠ out.1.
Proof.
  intros Hinv Hr Hq Hl Hpos Hit Heq. pose proof (served_waits s q out Hinv Hr Hq Hl) as Hw.
  pose proof (signalled_le s Hinv).
  destruct (sl_open s Hinv pos it) as [Hw'|Hc]; [lia|done|rewrite Heq, Hw in Hw'; injection Hw'; lia|].
  by rewrite Heq, Hw in Hc.
Qed.

Section Serve.
Variables (s s' : weak T) (q : Z) (out : nat * T).
Hypothesis Hinv : slot_inv s.
Hypothesis Hr : ring_inv p s.
Hypothesis Hq : signalled s ≤ q < pops s.
Hypothesis Hout : pushed s !! Z.to_nat q = Some out.
Hypothesis Hmem : slot_memory out.1 (mem s) (mem s').
Hypothesis Hsame : pushed s' = pushed s ∧ popped s' = popped s ∧ prods s' = prods s ∧ pview s' = pview s.
Hypothesis Herr : ∀ j, j ≠ out.1 → errors s' j = errors s j.
Hypothesis Hans : answers s `prefix_of` answers s'.
Hypothesis Hsig : ∀ pos, pos ≠ q → signalled s' ≤ pos ↔ signalled s ≤ pos.
Hypothesis Hok : slot_ok s' out.1 (pview s out.1) (PWait q).
Hypothesis Hserve : serve_ok s'.

(** The completion of the request is written. *)
Lemma slot_serve : signalled s ≤ signalled s' → slot_inv s'.
Proof.
  intros Hmono. destruct Hsame as (Hpu & Hpo & Hpr & Hpv).
  assert (∀ j, j ≠ out.1 → slot_frame s s' j) as Hf by (intros j Hj; by apply (slot_frame_memory s s' out.1)).
  assert (pushes s' = pushes s ∧ pops s' = pops s) as [HE HD] by (unfold pushes, pops; by rewrite Hpu, Hpo).
  split; rewrite ?HE, ?HD, ?Hpu, ?Hpr; [| | |done].
  - intros r it Hr' Hit. apply (sl_open s Hinv); [lia|done].
  - intros j. rewrite Hpv. destruct (decide (j = out.1)) as [->|Hj].
    + by rewrite (served_waits s q out Hinv Hr Hq Hout).
    + apply (slot_ok_frame s s' j (Hf j Hj) (pview s j)); [apply Hinv|done|by apply Herr|by rewrite Hpu|done|].
      intros pos (Hpos & x & Hx). apply Hsig. intros ->. rewrite Hout in Hx. by injection Hx as ->.
  - intros pos it t W Hpos Hit Hw. destruct Hmem as [Hm _]. rewrite Hm in Hw by done.
    apply (seen_frame s); [apply Hf|by apply (sl_cells s Hinv pos it t)].
    by apply (served_alone s q out pos).
Qed.
End Serve.

Lemma slot_answer s out e :
  slot_inv s → ring_inv p s → cons s = CServe out →
  slot_inv (note (write_error (turn s (CSignal out) (enter (mem s) (write_na (Answer out.1)))
                                 (entered (mem s) (cview s))) out.1 e) [] [] [e]).
Proof.
  intros Hinv Hr Hc. pose proof (sl_serve s Hinv) as Hs. unfold serve_ok in Hs. rewrite Hc in Hs.
  destruct Hs as (Hsv & Hl & HU). set (s' := note _ _ _ _).
  assert (signalled s = served s) as Hsig by (unfold signalled; by rewrite Hc).
  assert (served s' = served s + 1) as Hsv' by (unfold served, s'; simpl; rewrite length_app; simpl; lia).
  assert (signalled s' = served s) as Hsig' by (unfold signalled; simpl; lia).
  assert (Z.to_nat (served s) = length (answers s)) as Hn by (unfold served; lia).
  assert (slot_memory out.1 (mem s) (mem s')) as Hm by (apply slot_enter; by left).
  rewrite <- Hn in Hl. assert (signalled s ≤ served s < pops s) as Hq by lia.
  pose proof (sl_threads s Hinv out.1) as Hok. rewrite (served_waits s _ out Hinv Hr Hq Hl) in Hok.
  destruct Hok as (Hask & Hfl & Hb & _). destruct Hb as (Hlt & Hcl & Hd & _); [lia|].
  apply (slot_serve s s' (served s) out Hinv Hr Hq Hl Hm); simpl; rewrite ?app_nil_r; [done| |by apply prefix_app_r| | | |lia].
  - intros j Hj. by rewrite fn_lookup_insert_ne.
  - intros pos _. lia.
  - split_and!; [by unfold asked in *; simpl; rewrite app_nil_r| | |].
    + apply knows_enter_other; [done|]. by intros [? _].
    + intros _. split_and!; [done|done| |lia]. by apply knows_enter_other.
    + lia.
  - unfold serve_ok. simpl. rewrite Hsv', !app_nil_r, fn_lookup_insert.
    change (pops s') with (Z.of_nat (length (popped s ++ []))). rewrite app_nil_r. fold (pops s).
    replace (served s + 1 - 1) with (served s) by lia.
    split_and!; [lia|unfold served; lia|done| |split].
    + unfold answered. rewrite Hn. simpl. by rewrite lookup_app_r, Nat.sub_diag.
    + apply knows_enter, HU.
    + apply HU.
Qed.

Lemma slot_signal s out m V :
  slot_inv s → ring_inv p s → cons s = CSignal out →
  store (enter (mem s) (write_at (Done out.1))) (entered (mem s) (cview s)) (Flag out.1) 1 true m V →
  slot_inv (turn s CIdle m V).
Proof.
  intros Hinv Hr Hc Hst. pose proof (sl_serve s Hinv) as Hs. unfold serve_ok in Hs. rewrite Hc in Hs.
  destruct Hs as (Hsv & H1 & Hl & Hans & Hk & Hlat).
  assert (signalled s = served s - 1) as Hsig by (unfold signalled; by rewrite Hc).
  assert (slot_memory out.1 (mem s) m) as Hm by (eapply slot_store; [|done]; by right).
  destruct Hst as [t Hf Ht]. simpl in Ht. set (s' := turn _ _ _ _).
  assert (signalled s' = served s) as Hsig' by done.
  assert (signalled s ≤ served s - 1 < pops s) as Hq by lia.
  pose proof (sl_threads s Hinv out.1) as Hok. rewrite (served_waits s _ out Hinv Hr Hq Hl) in Hok.
  destruct Hok as (Hask & Hfl & Hb & _). destruct Hb as (Hlt & Hcl & Hd & _); [lia|].
  apply (slot_serve s s' (served s - 1) out Hinv Hr Hq Hl Hm); [by repeat split|done|done|lia| |done|lia].
  split_and!; [done| |lia|].
  - apply knows_send, knows_enter_other; [done|]. by intros [_ ?].
  - intros _. split; [done|]. eexists t, _. split_and!.
    + split; [simpl; by rewrite fn_lookup_insert, lookup_insert_eq|]. by apply (latest_send _ _ (v_at (cview s) (Flag out.1))).
    + intros u v W. simpl. rewrite fn_lookup_insert. intros [[-> _]|[_ Hu]]%lookup_insert_Some Hle Hne; [done|].
      by apply (Hcl u v W).
    + apply knows_send. apply (knows_le _ _ (entered (mem s) (join (pview s out.1) (cview s)))).
      * apply knows_enter. intros k y Hy [Hy'|Hy'].
        -- assert (k ∈ v_seen (cview s)) by (apply (Hk k y Hy); by left). set_solver.
        -- assert (k ∈ v_seen (pview s out.1)) by (by apply (Hd k y Hy)). set_solver.
      * split; simpl; [|set_solver]. intros a. pose proof (proj1 (see_le (Flag out.1) t (cview s)) a) as Ha. simpl in Ha. lia.
Qed.

(** *** Every step *)

Lemma slot_start dflt : slot_inv (start dflt).
Proof.
  split; [| | |done].
  - by intros q it.
  - intros i. split; [by apply knows_nil|]. by intros t msg.
  - by intros pos it.
Qed.

Lemma slot_step s s' :
  step (n - 1) s s' → slot_inv s → ring_inv p s → headroom p s → slot_inv s'.
Proof.
  intros Hstep Hinv Hr Hh. destruct Hstep as [i x m V Hi Hst|i x Hi|i x m V Hi Hst|i x pos V Hi Hl|i pos x v V d Hi Hl Hd
    |i pos x m V Hi Hex|i pos x pos' V Hi Hl|i pos x Hi|i pos x m V Hi Hst|i pos v V Hi Hl|i pos Hi|i pos e Hi
    |v V d Hc Hl Hd|Hc|out m V Hc Hst|out Hc|out e Hc|out m V Hc Hst];
    try (pose proof (sl_threads s Hinv i) as Hok; rewrite Hi in Hok).
  - apply slot_move; [done|is_quiet Hi|eapply slot_store; [|done]; by right|].
    eapply slot_clear; [exact Hok| |exact Hst]. by right.
  - destruct Hok as [[Hk Hl] Hcl].
    assert (slot_inv (move s i (PReset x) (enter (mem s) (write_na (Answer i))) (entered (mem s) (pview s i)))) as Hmv.
    { apply slot_move; [done|is_quiet Hi|apply slot_enter; by left|]. split; [split; [by apply knows_enter|done]|done]. }
    apply slot_error; [done|apply quiet_of; [done|]|]; simpl; rewrite !fn_lookup_insert; [simpl; split; [done|tauto]|].
    split; [split; [by apply knows_enter|done]|done].
  - apply slot_move; [done|is_quiet Hi|eapply slot_store; [|done]; by right|].
    eapply slot_clear; [exact (proj1 Hok)| |exact Hst]. by right.
  - apply slot_go; [done|is_quiet Hi|by eapply load_le|done|done].
  - apply slot_go; [done|is_quiet Hi|by eapply load_le|done|by repeat case_bool_decide].
  - by apply slot_reserve.
  - apply slot_go; [done|is_quiet Hi|by eapply load_le|done|done].
  - by apply slot_write.
  - by apply slot_publish with (x := x).
  - by apply slot_poll.
  - destruct Hok as ([Hk Hl] & Hask & _ & Hans). apply slot_move; [done|is_quiet Hi|apply slot_enter; by left|].
    split_and!; [split; [by apply knows_enter|done]|done|done].
  - apply slot_move; [done|is_quiet Hi|apply slot_refl|apply Hok].
  - pose proof (sl_serve s Hinv) as Hs. unfold serve_ok in Hs. rewrite Hc in Hs.
    apply (slot_turn s); try done; [apply ring_refl|unfold signalled; simpl; rewrite Hc; by case_bool_decide|].
    unfold serve_ok. simpl. by case_bool_decide.
  - pose proof (sl_serve s Hinv) as Hs. unfold serve_ok in Hs. rewrite Hc in Hs.
    apply (slot_turn s); try done; [|unfold signalled; simpl; by rewrite Hc].
    apply ring_memory_enter, data_no_slot.
  - by apply slot_release.
  - pose proof (sl_serve s Hinv) as Hs. unfold serve_ok in Hs. rewrite Hc in Hs.
    apply (slot_turn s); try done; [apply ring_refl|unfold signalled; simpl; by rewrite Hc].
  - by apply slot_answer.
  - by apply slot_signal with (out := out).
Qed.

Lemma pushes_mono s s' : step (n - 1) s s' → pushes s ≤ pushes s'.
Proof. intros []; unfold pushes; simpl; rewrite ?length_app; simpl; lia. Qed.

Lemma weak_inv dflt s :
  reachable (n - 1) dflt s → headroom p s → ring_inv p s ∧ slot_inv s.
Proof.
  revert s. apply (rtc_ind_r (λ s, headroom p s → ring_inv p s ∧ slot_inv s)).
  { intros _. split; [by apply ring_start|apply slot_start]. }
  intros s s' _ Hstep IH Hh. pose proof (pushes_mono s s' Hstep) as Hmono.
  assert (headroom p s) as Hh' by (unfold headroom in *; lia). destruct (IH Hh') as [Hr Hsl].
  split; [by apply (ring_step p Hp s)|by apply (slot_step s)].
Qed.

(** *** What holds in every reachable state *)

Lemma mine_ordered s i V x : mine (mem s) i V → on_slot i x → ordered (mem s) V x.
Proof.
  intros [Hk _] Hx. apply (knows_impl _ _ _ _ Hk). intros y (Hl & _). unfold on_slot in *. by rewrite Hl.
Qed.

Lemma next_ordered s V x : ring_inv p s → slot_inv s → next_access (n - 1) s V x → ordered (mem s) V x.
Proof.
  intros Hr Hinv Hn. destruct Hn as [i Hi|i y Hi|i y Hi|i pos y Hi|i pos Hi|i pos Hi|Hc|out Hc|out Hc];
    try (pose proof (sl_threads s Hinv i) as Hok; rewrite Hi in Hok).
  - eapply mine_ordered; [exact Hok|by right].
  - eapply mine_ordered; [exact (proj1 Hok)|by left].
  - eapply mine_ordered; [exact (proj1 Hok)|by right].
  - pose proof (r_push p s Hr i) as Hpu. rewrite Hi in Hpu. destruct Hpu as (_ & _ & _ & Hk).
    apply (knows_impl _ _ _ _ Hk). by intros z (Hl & _).
  - destruct Hok as (_ & Hk & _). apply (knows_impl _ _ _ _ Hk). intros z (Hl & _ & [Hz|Hz]); [by split|done].
  - eapply mine_ordered; [exact (proj1 Hok)|by left].
  - pose proof (r_pop p s Hr) as Hpo. unfold pop_ok in Hpo. rewrite Hc in Hpo. destruct Hpo as [-> Hhead].
    destruct (head_item p Hp s Hr Hhead) as (_ & Hk & _). apply (knows_impl _ _ _ _ Hk). intros z (Hl & [Hz|Hz] & _); [by split|done].
  - pose proof (sl_serve s Hinv) as Hs. unfold serve_ok in Hs. rewrite Hc in Hs. destruct Hs as (_ & _ & Hk & _).
    apply (knows_impl _ _ _ _ Hk). intros z (Hl & _). by left.
  - pose proof (sl_serve s Hinv) as Hs. unfold serve_ok in Hs. rewrite Hc in Hs. destruct Hs as (_ & _ & _ & _ & Hk & _).
    apply (knows_impl _ _ _ _ Hk). intros z (Hl & _ & [Hz|Hz]); [by right|done].
Qed.
End Slots.

(** ** No view is ahead of memory *)

Section Closed.
Context {T : Type}.
Variable mask : Z.
Implicit Types s : weak T.

Record views_ok s : Prop := mkViewsOk {
  vo_mem : closed (mem s);
  vo_pview i : bounded (mem s) (pview s i);
  vo_cview : bounded (mem s) (cview s)
}.

Lemma views_start dflt : views_ok (start dflt).
Proof.
  split; [|intros i; apply bounded_bottom|apply bounded_bottom].
  intros [|k|i|] t v W; simpl; [| |done|]; intros [<- H]%lookup_singleton_Some; injection H as <- <-;
    (split; [done|apply bounded_bottom]).
Qed.

Lemma views_move s i st m V :
  views_ok s → closed m → bounded m V → (∀ U, bounded (mem s) U → bounded m U) → views_ok (move s i st m V).
Proof.
  intros [Hm Hpv Hcv] Hc HV Hmono. split; simpl; [done| |by apply Hmono].
  intros j. rewrite fn_insert_cases. case_decide; [done|by apply Hmono].
Qed.
Lemma views_turn s st m V :
  views_ok s → closed m → bounded m V → (∀ U, bounded (mem s) U → bounded m U) → views_ok (turn s st m V).
Proof. intros [Hm Hpv Hcv] Hc HV Hmono. split; simpl; [done| |done]. intros j. by apply Hmono. Qed.

Lemma views_item s k it : views_ok s → views_ok (write_item s k it).
Proof. intros []. by split. Qed.
Lemma views_error s i e : views_ok s → views_ok (write_error s i e).
Proof. intros []. by split. Qed.
Lemma views_note s push pop answer : views_ok s → views_ok (note s push pop answer).
Proof. intros []. by split. Qed.
Lemma views_advance s : views_ok s → views_ok (advance s).
Proof. intros []. by split. Qed.

Lemma views_step s s' : step mask s s' → views_ok s → views_ok s'.
Proof.
  intros Hstep Hv. pose proof Hv as [Hm Hpv Hcv].
  destruct Hstep as [i x m V Hi Hst|i x Hi|i x m V Hi Hst|i x pos V Hi Hl|i pos x v V d Hi Hl Hd
    |i pos x m V Hi Hex|i pos x pos' V Hi Hl|i pos x Hi|i pos x m V Hi Hst|i pos v V Hi Hl|i pos Hi|i pos e Hi
    |v V d Hc Hl Hd|Hc|out m V Hc Hst|out Hc|out e Hc|out m V Hc Hst];
    try (apply load_bounded in Hl; [|exact Hm|by try apply (Hpv i)]);
    try (apply store_bounded in Hst as (? & ? & ?); [|exact Hm|by try apply (Hpv i)]);
    try (apply exchange_bounded in Hex as (? & ? & ?); [|exact Hm|by try apply (Hpv i)]);
    repeat first [apply views_item|apply views_error|apply views_note|apply views_advance];
    first [apply views_move|apply views_turn];
    first [done|exact Hm|exact Hcv|exact (Hpv i)].
Qed.

Lemma views_reachable dflt s : reachable mask dflt s → views_ok s.
Proof.
  revert s. apply (rtc_ind_r views_ok); [apply views_start|]. intros s s' _ Hst IH. by apply (views_step s).
Qed.
End Closed.

(** ** Running the machine *)

Section Run.
Context {T : Type}.
Variable mask : Z.
Implicit Types (s : weak T) (m : memory aloc nloc) (V : view aloc).

(** The accesses at a chosen timestamp. *)
Definition load_at m V (a : aloc) (acquire : bool) (t : Z) : option (Z * view aloc) :=
  '(v, W) ← messages m a !! t;
  guard (v_at V a ≤ t);; Some (v, see a t (if acquire then join V W else V)).
Definition store_at m V (a : aloc) (v : Z) (release : bool) (t : Z) : option (memory aloc nloc * view aloc) :=
  guard (messages m a !! t = None);; guard (v_at V a < t);;
  Some (send m a t v (see a t (if release then V else bottom)), see a t V).
Definition exchange_at m V (a : aloc) (v v' : Z) (t : Z) : option (memory aloc nloc * view aloc) :=
  '(w, W) ← messages m a !! t;
  guard (w = v);; guard (v_at V a ≤ t);; guard (messages m a !! (t + 1) = None);;
  Some (send m a (t + 1) v' (see a (t + 1) W), see a (t + 1) V).

(** What decides a step: a producer, its next transaction, a timestamp and whether
    an exchange succeeds; or a timestamp and the answer, for the writer. *)
Inductive choice := Produce (i : nat) (x : option T) (t : Z) (swap : bool) | Consume (t : Z) (e : LedgerError).

Definition produce s (i : nat) (x : option T) (t : Z) (swap : bool) : option (weak T) :=
  match prods s i with
  | PIdle =>
      x ← x; '(m, V) ← store_at (enter (mem s) (write_na (Done i))) (entered (mem s) (pview s i)) (Flag i) 0 false t;
      Some (move s i (PInit x) m V)
  | PInit y =>
      Some (write_error (move s i (PReset y) (enter (mem s) (write_na (Answer i))) (entered (mem s) (pview s i)))
              i LedgerError.None)
  | PReset y =>
      '(m, V) ← store_at (enter (mem s) (write_at (Done i))) (entered (mem s) (pview s i)) (Flag i) 0 false t;
      Some (move s i (PLoad y) m V)
  | PLoad y => '(pos, V) ← load_at (mem s) (pview s i) Enqueue false t; Some (move s i (PLoop pos y) (mem s) V)
  | PLoop pos y =>
      '(v, V) ← load_at (mem s) (pview s i) (Sequence (cell_of mask pos)) true t;
      diff ← seq_diff v pos;
      Some (move s i (if bool_decide (diff = 0) then PCas pos y
                      else if bool_decide (diff < 0) then PIdle else PLoad y) (mem s) V)
  | PCas pos y =>
      if swap then
        '(m, V) ← exchange_at (mem s) (pview s i) Enqueue pos (wrap64 (pos + 1)) t;
        Some (note (move s i (PWrite pos y) m V) [(i, y)] [] [])
      else '(pos', V) ← load_at (mem s) (pview s i) Enqueue false t; Some (move s i (PLoop pos' y) (mem s) V)
  | PWrite pos y =>
      Some (write_item (move s i (PPublish pos y) (enter (mem s) (write_na (Data (cell_of mask pos))))
                          (entered (mem s) (pview s i))) (cell_of mask pos) (i, y))
  | PPublish pos y =>
      '(m, V) ← store_at (mem s) (pview s i) (Sequence (cell_of mask pos)) (wrap64 (pos + 1)) true t;
      Some (move s i (PWait pos) m V)
  | PWait pos =>
      '(v, V) ← load_at (enter (mem s) (read_at (Done i))) (entered (mem s) (pview s i)) (Flag i) true t;
      Some (move s i (if bool_decide (v = 0) then PWait pos else PRead pos) (enter (mem s) (read_at (Done i))) V)
  | PRead pos =>
      Some (move s i (PGot pos (errors s i)) (enter (mem s) (read_na (Answer i))) (entered (mem s) (pview s i)))
  | PGot _ _ => Some (move s i PIdle (mem s) (pview s i))
  end.

Definition consume s (t : Z) (e : LedgerError) : option (weak T) :=
  match cons s with
  | CIdle =>
      '(v, V) ← load_at (mem s) (cview s) (Sequence (cell_of mask (dequeue_pos s))) true t;
      diff ← seq_diff v (wrap64 (dequeue_pos s + 1));
      Some (turn s (if bool_decide (diff ≠ 0) then CIdle else CTake) (mem s) V)
  | CTake =>
      Some (turn s (CStore (items s (cell_of mask (dequeue_pos s))))
              (enter (mem s) (read_na (Data (cell_of mask (dequeue_pos s))))) (entered (mem s) (cview s)))
  | CStore out =>
      '(m, V) ← store_at (mem s) (cview s) (Sequence (cell_of mask (dequeue_pos s)))
                  (wrap64 (wrap64 (dequeue_pos s + mask) + 1)) true t;
      Some (note (turn s (CInc out) m V) [] [out] [])
  | CInc out => Some (advance (turn s (CServe out) (mem s) (cview s)))
  | CServe out =>
      Some (note (write_error (turn s (CSignal out) (enter (mem s) (write_na (Answer out.1)))
                                 (entered (mem s) (cview s))) out.1 e) [] [] [e])
  | CSignal out =>
      '(m, V) ← store_at (enter (mem s) (write_at (Done out.1))) (entered (mem s) (cview s)) (Flag out.1) 1 true t;
      Some (turn s CIdle m V)
  end.

Definition choose s (c : choice) : option (weak T) :=
  match c with Produce i x t swap => produce s i x t swap | Consume t e => consume s t e end.
Fixpoint run s (cs : list choice) : option (weak T) :=
  match cs with [] => Some s | c :: cs => s' ← choose s c; run s' cs end.

Lemma load_at_spec m V a acq v V' : load m V a acq v V' ↔ ∃ t, load_at m V a acq t = Some (v, V').
Proof.
  split.
  - intros [t w W Hm Ht]. exists t. unfold load_at. rewrite Hm. simpl. by rewrite option_guard_True.
  - intros [t H]. unfold load_at in H. destruct (messages m a !! t) as [[w W]|] eqn:Hm; simplify_option_eq.
    by econstructor.
Qed.
Lemma store_at_spec m V a v r m' V' : store m V a v r m' V' ↔ ∃ t, store_at m V a v r t = Some (m', V').
Proof.
  split.
  - intros [t Hm Ht]. exists t. unfold store_at. by rewrite !option_guard_True.
  - intros [t H]. unfold store_at in H. simplify_option_eq. by constructor.
Qed.
Lemma exchange_at_spec m V a v v' m' V' :
  exchange m V a v v' m' V' ↔ ∃ t, exchange_at m V a v v' t = Some (m', V').
Proof.
  split.
  - intros [t W Hm Ht Hf]. exists t. unfold exchange_at. rewrite Hm. simpl. by rewrite !option_guard_True.
  - intros [t H]. unfold exchange_at in H. destruct (messages m a !! t) as [[w W]|] eqn:Hm; simplify_option_eq.
    by econstructor.
Qed.

(** Splitting off an access. *)
Ltac by_access :=
  match goal with
  | H : (_ ← ?o; _) = Some _ |- _ =>
      destruct o as [[? ?]|] eqn:?; simpl in H; [|discriminate H]
  | H : (_ ← seq_diff ?v ?w; _) = Some _ |- _ =>
      destruct (seq_diff v w) as [?|] eqn:?; simpl in H; [|discriminate H]
  end.
Ltac back := first [apply load_at_spec|apply store_at_spec|apply exchange_at_spec]; eauto.

Lemma produce_step s i x t swap s' : produce s i x t swap = Some s' → step mask s s'.
Proof.
  unfold produce. intros H. destruct (prods s i) eqn:Hi.
  - destruct x as [x|]; [|done]. simpl in H. by_access. simplify_eq. eapply p_construct_done; [done|back].
  - simplify_eq. by apply p_construct_error.
  - by_access. simplify_eq. eapply p_reset; [done|back].
  - by_access. simplify_eq. eapply p_load; [done|back].
  - by_access. by_access. simplify_eq. eapply p_look; [done|back|done].
  - destruct swap; by_access; simplify_eq; [eapply p_cas_ok|eapply p_cas_fail]; (done || back).
  - simplify_eq. by apply p_write.
  - by_access. simplify_eq. eapply p_publish; [done|back].
  - by_access. simplify_eq. eapply p_poll; [done|back].
  - simplify_eq. by apply p_read.
  - simplify_eq. by eapply p_leave.
Qed.

Lemma consume_step s t e s' : consume s t e = Some s' → step mask s s'.
Proof.
  unfold consume. intros H. destruct (cons s) eqn:Hc.
  - by_access. by_access. simplify_eq. eapply c_look; [done|back|done].
  - simplify_eq. by apply c_take.
  - by_access. simplify_eq. eapply c_release; [done|back].
  - simplify_eq. by apply c_inc.
  - simplify_eq. by apply c_answer.
  - by_access. simplify_eq. eapply c_signal; [done|back].
Qed.

(** Every step is one of a choice. *)
Lemma step_choose s s' : step mask s s' → ∃ c, choose s c = Some s'.
Proof.
  intros [i x m V Hi Hst|i x Hi|i x m V Hi Hst|i x pos V Hi Hl|i pos x v V d Hi Hl Hd
    |i pos x m V Hi Hex|i pos x pos' V Hi Hl|i pos x Hi|i pos x m V Hi Hst|i pos v V Hi Hl|i pos Hi|i pos e Hi
    |v V d Hc Hl Hd|Hc|out m V Hc Hst|out Hc|out e Hc|out m V Hc Hst];
    try apply load_at_spec in Hl as [t Hl]; try apply store_at_spec in Hst as [t Hst];
    try apply exchange_at_spec in Hex as [t Hex].
  - exists (Produce i (Some x) t true). simpl. unfold produce. rewrite Hi. simpl. by rewrite Hst.
  - exists (Produce i None 0 true). simpl. unfold produce. by rewrite Hi.
  - exists (Produce i None t true). simpl. unfold produce. by rewrite Hi, Hst.
  - exists (Produce i None t true). simpl. unfold produce. by rewrite Hi, Hl.
  - exists (Produce i None t true). simpl. unfold produce. rewrite Hi, Hl. simpl. by rewrite Hd.
  - exists (Produce i None t true). simpl. unfold produce. by rewrite Hi, Hex.
  - exists (Produce i None t false). simpl. unfold produce. by rewrite Hi, Hl.
  - exists (Produce i None 0 true). simpl. unfold produce. by rewrite Hi.
  - exists (Produce i None t true). simpl. unfold produce. by rewrite Hi, Hst.
  - exists (Produce i None t true). simpl. unfold produce. by rewrite Hi, Hl.
  - exists (Produce i None 0 true). simpl. unfold produce. by rewrite Hi.
  - exists (Produce i None 0 true). simpl. unfold produce. by rewrite Hi.
  - exists (Consume t LedgerError.None). simpl. unfold consume. rewrite Hc, Hl. simpl. by rewrite Hd.
  - exists (Consume 0 LedgerError.None). simpl. unfold consume. by rewrite Hc.
  - exists (Consume t LedgerError.None). simpl. unfold consume. by rewrite Hc, Hst.
  - exists (Consume 0 LedgerError.None). simpl. unfold consume. by rewrite Hc.
  - exists (Consume 0 e). simpl. unfold consume. by rewrite Hc.
  - exists (Consume t LedgerError.None). simpl. unfold consume. by rewrite Hc, Hst.
Qed.

Lemma choose_step s c s' : choose s c = Some s' → step mask s s'.
Proof. destruct c; [apply produce_step|apply consume_step]. Qed.

Lemma run_reachable dflt cs s : run (start dflt) cs = Some s → reachable mask dflt s.
Proof.
  unfold reachable. generalize (start (T := T) dflt). induction cs as [|c cs IH]; intros s0 H; simpl in H.
  { injection H as ->. done. }
  destruct (choose s0 c) as [s1|] eqn:Hc; [|done]. simpl in H. eapply rtc_l; [|by apply IH].
  by eapply choose_step.
Qed.
End Run.

(** One request through a ring of two cells: submitted, answered, a stale look at
    [done], and the answer read. *)
Definition errand : list (choice (T := Z)) :=
  [Produce 0 (Some 7) 1 true; Produce 0 None 0 true; Produce 0 None 2 true; Produce 0 None 0 true;
   Produce 0 None 0 true; Produce 0 None 0 true; Produce 0 None 0 true; Produce 0 None 1 true;
   Consume 1 LedgerError.None; Consume 0 LedgerError.None; Consume 2 LedgerError.None;
   Consume 0 LedgerError.None; Consume 0 LedgerError.InsufficientFunds; Consume 3 LedgerError.None;
   Produce 0 None 2 true; Produce 0 None 3 true; Produce 0 None 0 true].
Definition errand_after (k : nat) : weak Z := default (start (0%nat, 0)) (run 1 (start (0%nat, 0)) (take k errand)).

Lemma errand_reachable k : (k ≤ 17)%nat → reachable 1 (0%nat, 0) (errand_after k).
Proof.
  intros Hk. unfold errand_after. destruct (run 1 _ (take k errand)) as [s|] eqn:Hs; [|apply rtc_refl].
  simpl. by eapply run_reachable.
Qed.

(** ** The theorems *)

Section Theorems.
Context {T : Type}.
Variables (p : Z) (dflt : nat * T) (s : weak T).
Hypothesis Hp : 1 ≤ p ≤ 62.
Hypothesis Hs : reachable (2 ^ p - 1) dflt s.
Hypothesis Hroom : headroom p s.

(** C11: The memory orders the code uses exclude undefined behaviour: in every state
    that any number of producers and the writer can reach, with loads returning any
    value the C++ memory model lets them return, no thread is about to touch a cell of
    the queue, an answer or a completion flag in a race with an earlier access, and the
    difference of a stamp it may load and its position does not overflow.  [headroom]
    keeps the 64-bit positions from wrapping around. *)
Theorem weak_no_ub :
  ¬ racy (2 ^ p - 1) s ∧
  (∀ i pos x v V, prods s i = PLoop pos x →
     load (mem s) (pview s i) (Sequence (cell_of (2 ^ p - 1) pos)) true v V → is_Some (seq_diff v pos)) ∧
  (∀ v V, cons s = CIdle →
     load (mem s) (cview s) (Sequence (cell_of (2 ^ p - 1) (dequeue_pos s))) true v V →
     is_Some (seq_diff v (wrap64 (dequeue_pos s + 1)))).
Proof.
  destruct (weak_inv p Hp dflt s Hs Hroom) as [Hr Hinv]. split_and!.
  - intros (V & x & Hn & Hno). by apply Hno, (next_ordered p Hp).
  - intros i pos x v V Hi Hl. pose proof (r_push p s Hr i) as Hpu. rewrite Hi in Hpu. simpl in Hpu.
    destruct Hl as [t v W Hm _]. eexists. apply (look_defined p Hp s pos t v W); [done|done|lia|done|lia].
  - intros v V Hc Hl. pose proof (r_pop p s Hr) as Hpo. unfold pop_ok in Hpo. rewrite Hc in Hpo. rewrite Hpo in *.
    pose proof (pops_le p s Hr). pose proof (size_two p Hp). destruct Hl as [t v W Hm _].
    rewrite wrap64_id by (unfold headroom in Hroom; range_lia).
    eexists. apply (look_defined p Hp s (pops s) t v W); [done|done|lia|done|lia].
Qed.

(** C13: The queue keeps its promises under the same memory model: what the writer has
    taken is, unchanged and in order, the beginning of what producers have put in,
    never more than the capacity behind, and answers are given in that order to
    requests that were taken. *)
Theorem weak_fifo :
  popped s `prefix_of` pushed s ∧ pushes s ≤ pops s + 2 ^ p ∧ (length (answers s) ≤ length (popped s))%nat.
Proof.
  destruct (weak_inv p Hp dflt s Hs Hroom) as [Hr Hinv]. pose proof (signalled_le p Hp s Hinv) as Hle.
  split_and!; [apply Hr|apply Hr|]. unfold served, pops in Hle. lia.
Qed.

(** C12: The answer a producer reads from its completion is the writer's answer to the
    request the producer submitted: it went through the queue at the position the
    producer reserved, and the error read is the one given to that position. *)
Theorem weak_answer i pos e :
  prods s i = PGot pos e →
  ∃ x, 0 ≤ pos ∧ pushed s !! Z.to_nat pos = Some (i, x) ∧ popped s !! Z.to_nat pos = Some (i, x) ∧
    answers s !! Z.to_nat pos = Some e.
Proof.
  intros Hi. destruct (weak_inv p Hp dflt s Hs Hroom) as [Hr Hinv].
  pose proof (sl_threads p s Hinv i) as Hok. rewrite Hi in Hok. destruct Hok as (_ & (Hpos & x & Hx) & Ha).
  pose proof (signalled_le p Hp s Hinv) as Hle. exists x. split_and!; [done|done| |done].
  apply lookup_lt_Some in Ha as Hlt. destruct (lookup_lt_is_Some_2 (popped s) (Z.to_nat pos)) as [y Hy].
  { unfold served, pops in Hle. lia. }
  rewrite Hy, <- Hx. symmetry. eapply prefix_lookup_Some; [done|apply Hr].
Qed.

(** C24: No answer is lost: once the writer has set [done] for the request a producer
    waits on, the producer's next poll can see it, and a poll that ends the wait finds
    the writer's answer in place. *)
Theorem weak_wakeup i pos :
  prods s i = PWait pos → pos < signalled s →
  (∃ s', step (2 ^ p - 1) s s' ∧ prods s' i = PRead pos) ∧
  (∀ s', step (2 ^ p - 1) s s' → prods s' i = PRead pos → answers s' !! Z.to_nat pos = Some (errors s' i)).
Proof.
  intros Hi Hlt. destruct (weak_inv p Hp dflt s Hs Hroom) as [Hr Hinv]. split.
  - pose proof (sl_threads p s Hinv i) as Hok. rewrite Hi in Hok. destruct Hok as (_ & _ & _ & Ha).
    destruct (Ha Hlt) as (_ & t & W & [Hm Hl] & _). pose proof (views_reachable _ _ _ Hs) as [Hc Hpv _].
    pose proof (bounded_latest _ _ _ _ _ Hc (Hpv i) Hm Hl) as Ht.
    eexists. split; [eapply p_poll; [exact Hi|by apply (load_message _ _ _ _ t 1 W)]|].
    simpl. by rewrite fn_lookup_insert.
  - intros s' Hst Hi'. pose proof (slot_step p Hp s s' Hst Hinv Hr Hroom) as Hinv'.
    pose proof (sl_threads p s' Hinv' i) as Hok. rewrite Hi' in Hok. by destruct Hok as (_ & _ & _ & ?).
Qed.
End Theorems.

Lemma errand_room k : (k ≤ 17)%nat → headroom 1 (errand_after k).
Proof. intros Hk. unfold headroom. do 18 (destruct k as [|k]; [by_compute|]). lia. Qed.

Lemma weak_no_ub_witness : reachable (2 ^ 1 - 1) (0%nat, 0) (errand_after 16) ∧ ¬ racy (2 ^ 1 - 1) (errand_after 16).
Proof.
  assert (reachable (2 ^ 1 - 1) (0%nat, 0) (errand_after 16)) as Hr by (apply errand_reachable; lia).
  split; [exact Hr|]. apply (weak_no_ub 1 (0%nat, 0)); [lia|exact Hr|apply errand_room; lia].
Defined.

Lemma weak_fifo_witness : popped (errand_after 12) = [(0%nat, 7)] ∧ popped (errand_after 12) `prefix_of` pushed (errand_after 12).
Proof.
  split; [by_compute|]. apply (weak_fifo 1 (0%nat, 0)); [lia|apply (errand_reachable 12); lia|apply errand_room; lia].
Defined.

Lemma weak_answer_witness : ∃ x, 0 ≤ 0 ∧ pushed (errand_after 17) !! Z.to_nat 0 = Some (0%nat, x) ∧
  popped (errand_after 17) !! Z.to_nat 0 = Some (0%nat, x) ∧
  answers (errand_after 17) !! Z.to_nat 0 = Some LedgerError.InsufficientFunds.
Proof.
  apply (weak_answer 1 (0%nat, 0)); [lia|apply (errand_reachable 17); lia|apply errand_room; lia|by vm_compute].
Defined.

(** Also after a stale look at [done]. *)
Lemma weak_wakeup_witness : ∃ s', step (2 ^ 1 - 1) (errand_after 15) s' ∧ prods s' 0%nat = PRead 0.
Proof.
  apply (weak_wakeup 1 (0%nat, 0)); [lia|apply (errand_reachable 15); lia|apply errand_room; lia|by vm_compute|by_compute].
Defined.
