(* ===== verification/Engine.v ===== *)
(** * The engine

    [include/ledger/engine.hpp] and [src/engine.cpp]: submission into the ring
    buffer and the writer's event loop, which deduplicates, validates, logs,
    applies, publishes and acknowledges one request after the other.  The
    caller-owned completion slots are a store of their own, addressed by the
    pointers the requests carry. *)

From S2P Require Import Prelude Types Validation LedgerState Crc32 WalCodec Posix WalWriter.
From S2P Require Import WalReader Idempotency RingBuffer.

(** ** The code *)

Record Completion := mkCompletion { done : bool; error : LedgerError }.

Record Config := mkConfig {
  wal_path : string;
  sync_mode : SyncMode;
  ring_buffer_capacity : Z;
  idempotency_capacity : Z;
  publish_snapshot_every_n : Z
}.

(** A request in the queue; the pointer is the address of a completion slot. *)
Record PendingRequest := mkRequest { tx : Transaction; completion : option Z }.
Definition default_request : PendingRequest := mkRequest default_tx None.

Record LedgerEngine := mkEngine {
  config_ : Config;
  wal_writer_ : BinaryWalWriter;
  state_ : LedgerStateStore;
  idempotency_ : IdempotencyCache;
  ring_ : MpscRingBuffer PendingRequest;
  next_tx_id_ : Z;
  processed_since_publish_ : Z
}.

(** The constructor. *)
Definition make_engine (config : Config) : LedgerEngine :=
  mkEngine config new_writer new_store (make_cache (idempotency_capacity config))
    (make_ring default_request (ring_buffer_capacity config)) 0 0.

(** Assignments to the members. *)
Definition with_writer (wr : BinaryWalWriter) (e : LedgerEngine) : LedgerEngine :=
  mkEngine (config_ e) wr (state_ e) (idempotency_ e) (ring_ e) (next_tx_id_ e)
    (processed_since_publish_ e).
Definition with_state (st : LedgerStateStore) (n : Z) (e : LedgerEngine) : LedgerEngine :=
  mkEngine (config_ e) (wal_writer_ e) st (idempotency_ e) (ring_ e) (next_tx_id_ e) n.
Definition with_cache (c : IdempotencyCache) (e : LedgerEngine) : LedgerEngine :=
  mkEngine (config_ e) (wal_writer_ e) (state_ e) c (ring_ e) (next_tx_id_ e)
    (processed_since_publish_ e).
Definition with_ring (r : MpscRingBuffer PendingRequest) (e : LedgerEngine) : LedgerEngine :=
  mkEngine (config_ e) (wal_writer_ e) (state_ e) (idempotency_ e) r (next_tx_id_ e)
    (processed_since_publish_ e).

(** The completion slots of the callers. *)
Definition slots := gmap Z Completion.

(** [*completion] for writing; through a null or dangling pointer it is undefined. *)
Definition write_slot (c : option Z) (f : Completion → Completion) (s : slots) : option slots :=
  a ← c; v ← s !! a; Some (<[a := f v]> s).

Definition complete (c : option Z) (err : LedgerError) (s : slots) : option slots :=
  s ← write_slot c (λ v, mkCompletion (done v) err) s;
  write_slot c (λ v, mkCompletion true (error v)) s.

Definition engine_add_account (account : Account) (e : LedgerEngine) : bool * LedgerEngine :=
  let '(ok, st) := add_account (working_copy (state_ e)) account in
  (ok, with_state (set_working_copy (state_ e) st) (processed_since_publish_ e) e).

Definition allocate_transaction_id (e : LedgerEngine) : Z * LedgerEngine :=
  (wrap64 (next_tx_id_ e + 1),
   mkEngine (config_ e) (wal_writer_ e) (state_ e) (idempotency_ e) (ring_ e)
     (wrap64 (next_tx_id_ e + 1)) (processed_since_publish_ e)).

Definition engine_snapshot (e : LedgerEngine) : LedgerState := snapshot (state_ e).
Definition state_working_copy (e : LedgerEngine) : LedgerState := working_copy (state_ e).
(** Assignment through the reference it returns. *)
Definition set_state_working_copy (st : LedgerState) (e : LedgerEngine) : LedgerEngine :=
  with_state (set_working_copy (state_ e) st) (processed_since_publish_ e) e.
Definition wal_writer (e : LedgerEngine) : BinaryWalWriter := wal_writer_ e.
Definition idempotency_cache (e : LedgerEngine) : IdempotencyCache := idempotency_ e.

Section Code.
Context `{Posix}.
(** [std::hash<std::uint64_t>]. *)
Variable hash64 : Z → Z.

Definition engine_open (e : LedgerEngine) : M (ResultVoid * LedgerEngine) :=
  '(r, wr) ← writer_open (wal_path (config_ e)) (sync_mode (config_ e)) (wal_writer_ e);
  mret (r, with_writer wr e).

Definition submit (t : Transaction) (c : Z) (e : LedgerEngine) (s : slots) :
    M (ResultVoid * LedgerEngine * slots) :=
  now ← monotonic_now_ns;
  let t := mkTx (id t) (idempotency_key t) now (legs t) in
  s ← lift (write_slot (Some c) (λ v, mkCompletion false (error v)) s);
  '(ok, r) ← lift (try_push (mkRequest t (Some c)) (ring_ e));
  mret (if (ok : bool) then LedgerError.None else LedgerError.QueueFull, with_ring r e, s).

(** The tail of the loop body after a successful append. *)
Definition commit (t : Transaction) (e : LedgerEngine) : option LedgerEngine :=
  '(working, _) ← apply (working_copy (state_ e)) t;
  let store := set_working_copy (state_ e) working in
  let n := wrap64 (processed_since_publish_ e + 1) in
  if bool_decide (publish_snapshot_every_n (config_ e) ≤ n)
  then Some (with_state (publish_snapshot store) 0 e)
  else Some (with_state store n e).

(** The loop body of [process_pending], for one request. *)
Definition process_request (request : PendingRequest) (e : LedgerEngine) (s : slots) :
    M (LedgerEngine * slots) :=
  let t := tx request in
  let finish err e := s ← lift (complete (completion request) err s); mret (e, s) in
  '(duplicate, cache) ← lift (check_and_insert hash64 (idempotency_key t) (idempotency_ e));
  let e := with_cache cache e in
  if (duplicate : bool) then finish LedgerError.DuplicateTransaction e
  else
    let shape := validate_transaction_shape t in
    if negb (has_value shape) then finish shape e
    else
      let working := working_copy (state_ e) in
      against_state ← lift (validate_transaction_against_state t (find_account working));
      if negb (has_value against_state) then finish against_state e
      else
        '(appended, wr) ← append t (wal_writer_ e);
        let e := with_writer wr e in
        if negb (has_value appended) then finish appended e
        else
          e ← lift (commit t e);
          finish LedgerError.None e.

(** The loop: at most [max_items] more requests. *)
Fixpoint process_loop (max_items : nat) (processed : Z) (e : LedgerEngine) (s : slots) :
    M (Z * LedgerEngine * slots) :=
  match max_items with
  | O => mret (processed, e, s)
  | S max_items =>
      '(popped, r) ← lift (try_pop (ring_ e));
      let e := with_ring r e in
      match popped with
      | None => mret (processed, e, s)
      | Some request =>
          '(e, s) ← process_request request e s;
          process_loop max_items (processed + 1) e s
      end
  end.

Definition process_pending (max_items : nat) (e : LedgerEngine) (s : slots) :
    M (Z * LedgerEngine * slots) := process_loop max_items 0 e s.
End Code.
