(* ===== verification/ReadersWeak.v ===== *)
(** * Published snapshots under the C++ memory model

    [LedgerStateStore] with its readers: [publish_snapshot] constructs a copy of the
    working state and stores a pointer to it in [published_] (release), [snapshot]
    loads the pointer (acquire), and whoever holds it reads the copy
    (include/ledger/ledger_state.hpp 55-78).  The machine of [RingWeak] is refined:
    between taking a request and answering it, the writer refuses it or applies it,
    counts, and publishes when the count is full (src/engine.cpp 33-79); any thread
    between two submissions may take a snapshot and read it.  [std::atomic] of a
    shared pointer is one atomic location; copies live as long as they are held. *)

From stdpp Require Import functions relations.
From S2P Require Import Prelude Types LedgerState WalCodec WalReader Engine RingBuffer ReleaseAcquire RingWeak EngineWeak.

(** Where the writer is with the request it serves. *)
Inductive phase :=
  | Fresh
  | Make                     (* applied; a snapshot is due *)
  | Publish (k : nat)        (* the copy [k] is constructed *)
  | Reply (e : LedgerError). (* about to [complete] *)

Record readers := mkReaders {
  core : weak Transaction;
  working : LedgerState;
  since : Z;                   (* [processed_since_publish_] *)
  objects : list LedgerState;  (* the copies, in the order they were made *)
  stage : phase;
  hold : nat → option nat;     (* the copy a thread's pointer points to *)
  (* what has happened: the transactions applied, how many of them each copy has,
     and for every answer the copy published then and the number applied by then *)
  commits : list Transaction;
  born : list nat;
  acks : list (nat * nat)
}.

Section Machine.
Variables (mask every : Z).   (* [mask_] and [publish_snapshot_every_n] *)
Implicit Types (q : readers) (s : weak Transaction) (m : memory aloc nloc) (V W : view aloc).

(** The first copy is the one the constructor makes. *)
Definition open_store (st : LedgerStateStore) (dflt : nat * Transaction) : readers :=
  mkReaders (start dflt) (working_ st) 0 [published_ st] Fresh (λ _, None) [] [0%nat] [].

(** The copy that is published. *)
Definition current q : nat :=
  match stage q with Publish k => Nat.pred k | _ => Nat.pred (length (objects q)) end.

Definition with_core q s : readers :=
  mkReaders s (working q) (since q) (objects q) (stage q) (hold q) (commits q) (born q) (acks q).
Definition with_stage q (ph : phase) : readers :=
  mkReaders (core q) (working q) (since q) (objects q) ph (hold q) (commits q) (born q) (acks q).

(** Thread [i] makes an access outside of [submit]. *)
Definition glance s (i : nat) m V : weak Transaction :=
  mkWeak m (items s) (errors s) (<[i := V]> (pview s)) (cview s) (prods s) (cons s)
    (dequeue_pos s) (pushed s) (popped s) (answers s).

(** [working.apply(request.tx)] and [++processed_since_publish_ >= every]. *)
Definition committed q (t : Transaction) (st : LedgerState) : readers :=
  let n := wrap64 (since q + 1) in
  mkReaders (core q) st n (objects q) (if bool_decide (every ≤ n) then Make else Reply LedgerError.None)
    (hold q) (commits q ++ [t]) (born q) (acks q).
(** [std::make_shared<const LedgerState>(working_)] *)
Definition made q : readers :=
  let k := length (objects q) in
  mkReaders (turn (core q) (cons (core q)) (enter (mem (core q)) (write_na (Object k)))
               (entered (mem (core q)) (cview (core q))))
    (working q) (since q) (objects q ++ [working q]) (Publish k) (hold q) (commits q)
    (born q ++ [length (commits q)]) (acks q).
(** [published_.store(..., release); processed_since_publish_ = 0] *)
Definition stored q m V : readers :=
  mkReaders (turn (core q) (cons (core q)) m V) (working q) 0 (objects q) (Reply LedgerError.None)
    (hold q) (commits q) (born q) (acks q).
(** The first half of [complete]. *)
Definition replied q (out : nat * Transaction) (e : LedgerError) : readers :=
  let s := core q in
  mkReaders (note (write_error (turn s (CSignal out) (enter (mem s) (write_na (Answer out.1)))
                                  (entered (mem s) (cview s))) out.1 e) [] [] [e])
    (working q) (since q) (objects q) Fresh (hold q) (commits q) (born q)
    (acks q ++ [(current q, length (commits q))]).
(** [published_.load(acquire)] *)
Definition taken q (i : nat) (v : Z) V : readers :=
  mkReaders (glance (core q) i (mem (core q)) V) (working q) (since q) (objects q) (stage q)
    (<[i := Some (Z.to_nat v)]> (hold q)) (commits q) (born q) (acks q).
(** Reading the copy. *)
Definition looked q (i k : nat) : readers :=
  with_core q (glance (core q) i (enter (mem (core q)) (read_na (Object k)))
                 (entered (mem (core q)) (pview (core q) i))).

(** A thread that is not inside [submit] and has nothing to wait for. *)
Definition between_requests (st : pstate Transaction) : bool :=
  match st with PIdle | PGot _ _ => true | _ => false end.

Inductive rstep q : readers → Prop :=
  | r_core s' : step mask (core q) s' → answers s' = answers (core q) → rstep q (with_core q s')
  | r_refuse out e :
      cons (core q) = CServe out → stage q = Fresh → e ≠ LedgerError.None → rstep q (with_stage q (Reply e))
  | r_commit out st r :
      cons (core q) = CServe out → stage q = Fresh → apply (working q) out.2 = Some (st, r) →
      rstep q (committed q out.2 st)
  | r_make : stage q = Make → rstep q (made q)
  | r_publish k m V :
      stage q = Publish k → store (mem (core q)) (cview (core q)) Published (Z.of_nat k) true m V →
      rstep q (stored q m V)
  | r_reply out e : cons (core q) = CServe out → stage q = Reply e → rstep q (replied q out e)
  | r_snapshot i v V :
      between_requests (prods (core q) i) = true →
      load (mem (core q)) (pview (core q) i) Published true v V → rstep q (taken q i v V)
  | r_read i k : hold q i = Some k → rstep q (looked q i k).

Definition rreachable (st : LedgerStateStore) (dflt : nat * Transaction) q : Prop :=
  rtc rstep (open_store st dflt) q.

(** The accesses to the copies that are about to be made. *)
Inductive next_copy q : view aloc → access nloc → Prop :=
  | next_make : stage q = Make → next_copy q (cview (core q)) (write_na (Object (length (objects q))))
  | next_look i k : hold q i = Some k → next_copy q (pview (core q) i) (read_na (Object k)).
End Machine.

(** The ledger after the transactions [l]. *)
Definition applied (st : LedgerState) (l : list Transaction) : option LedgerState :=
  foldl (λ o t, st ← o; fst <$> apply st t) (Some st) l.

Lemma applied_snoc st l t st' st'' r :
  applied st l = Some st' → apply st' t = Some (st'', r) → applied st (l ++ [t]) = Some st''.
Proof. unfold applied. intros Hl Ha. rewrite foldl_app. simpl. rewrite Hl. simpl. by rewrite Ha. Qed.

(** ** The queue and the completions do not notice *)

(** A step that concerns snapshots only. *)
Record aside (s s' : weak Transaction) : Prop := mkAside {
  as_messages a : a ≠ Published → messages (mem s') a = messages (mem s) a;
  as_log : log (mem s') = log (mem s) ∨ ∃ x k, a_loc x = Object k ∧ log (mem s') = log (mem s) ++ [x];
  as_pview j : vle (pview s j) (pview s' j);
  as_cview : vle (cview s) (cview s');
  as_items : items s' = items s;
  as_errors : errors s' = errors s;
  as_prods : prods s' = prods s;
  as_cons : cons s' = cons s;
  as_dequeue : dequeue_pos s' = dequeue_pos s;
  as_pushed : pushed s' = pushed s;
  as_popped : popped s' = popped s;
  as_answers : answers s' = answers s
}.

Lemma glance_le (f : nat → view aloc) i V j : vle (f i) V → vle (f j) (<[i := V]> f j).
Proof. intros HV. rewrite fn_insert_cases. case_decide; [by subst|done]. Qed.

Lemma aside_made q : aside (core q) (core (made q)).
Proof. split; try done; [right; eexists _, _; by split; [|reflexivity]|apply entered_le]. Qed.
Lemma aside_stored q k m V :
  store (mem (core q)) (cview (core q)) Published (Z.of_nat k) true m V → aside (core q) (core (stored q m V)).
Proof.
  intros Hst. pose proof (store_le _ _ _ _ _ _ _ Hst) as HV. destruct Hst as [t Hf Ht].
  split; try done; [|by left]. intros a Ha. simpl. by rewrite fn_lookup_insert_ne.
Qed.
Lemma aside_taken q i v V :
  load (mem (core q)) (pview (core q) i) Published true v V → aside (core q) (core (taken q i v V)).
Proof. intros Hl. split; try done; [by left|]. intros j. simpl. apply glance_le. by eapply load_le. Qed.
Lemma aside_looked q i k : aside (core q) (core (looked q i k)).
Proof.
  split; try done; [right; eexists _, _; by split; [|reflexivity]|]. intros j. simpl. apply glance_le, entered_le.
Qed.

Section Aside.
Variables s s' : weak Transaction.
Hypothesis Ha : aside s s'.

(** What is known of accesses to anything but copies. *)
Lemma aside_knows (Q : access nloc → Prop) U :
  (∀ x k, Q x → a_loc x ≠ Object k) → knows (mem s) Q U → knows (mem s') Q U.
Proof.
  intros HQ Hk. unfold knows. destruct (as_log _ _ Ha) as [->|(x & k & Hx & ->)]; [done|].
  apply (knows_enter_other (mem s) x Q U Hk). intros H. by apply (HQ x k).
Qed.

Lemma ring_aside p : 1 ≤ p ≤ 62 → ring_inv p s → ring_inv p s'.
Proof.
  intros Hp Hr. assert (ring_same s s') as Hs.
  { split; try apply Ha.
    - intros a Hl. apply Ha. by intros ->.
    - intros Q U HQ. apply aside_knows. intros x k Hx Ho. apply HQ in Hx as [k' ?]. congruence. }
  apply (ring_inv_same p Hp s s' Hs Hr).
  - intros j. left. by rewrite (as_prods _ _ Ha).
  - eapply pop_ok_same; [exact Hp|exact Hs|apply Hr|apply Ha|apply Ha].
Qed.

Lemma aside_frame j : slot_frame s s' j.
Proof.
  split; [by apply Ha|]. intros Q U HQ. apply aside_knows. intros x k [?|?]%HQ; congruence.
Qed.

Lemma aside_signalled : signalled s' = signalled s.
Proof. unfold signalled, served. by rewrite (as_cons _ _ Ha), (as_answers _ _ Ha). Qed.

Lemma slot_aside p : 1 ≤ p ≤ 62 → slot_inv p s → slot_inv p s'.
Proof.
  intros Hp Hinv. pose proof aside_signalled as Hsig.
  assert (pushes s' = pushes s ∧ pops s' = pops s) as [HE HD].
  { unfold pushes, pops. by rewrite (as_pushed _ _ Ha), (as_popped _ _ Ha). }
  split; rewrite ?HE, ?HD, ?(as_pushed _ _ Ha).
  - intros q it. rewrite Hsig, (as_prods _ _ Ha). apply Hinv.
  - intros i. rewrite (as_prods _ _ Ha).
    apply (slot_ok_frame p Hp s s' i (aside_frame i) (pview s i)); [apply Hinv|apply Ha|by rewrite (as_errors _ _ Ha)|..].
    + by rewrite (as_pushed _ _ Ha).
    + by rewrite (as_answers _ _ Ha).
    + by rewrite Hsig.
  - intros pos it t W Hpos Hit. rewrite (as_messages _ _ Ha) by done. intros Hw.
    apply (seen_frame s s' _ (aside_frame _)). by apply (sl_cells p s Hinv pos it t).
  - assert (∀ j, slot_seen (mem s) j (cview s) → slot_seen (mem s') j (cview s')) as Hseen.
    { intros j Hj. eapply slot_seen_le; [by apply (seen_frame s s' _ (aside_frame _))|apply Ha]. }
    pose proof (sl_serve p s Hinv) as Hs. unfold serve_ok, answered, served in *.
    rewrite (as_cons _ _ Ha), (as_answers _ _ Ha), (as_errors _ _ Ha), (as_pushed _ _ Ha), HD.
    destruct (cons s); naive_solver.
Qed.
End Aside.

(** ** Steps of the queue and the completions, seen from the snapshots *)

Record core_same (s s' : weak Transaction) : Prop := mkCoreSame {
  cs_messages : messages (mem s') Published = messages (mem s) Published;
  cs_log : log (mem s') = log (mem s) ∨ ∃ x, (∀ k, a_loc x ≠ Object k) ∧ log (mem s') = log (mem s) ++ [x];
  cs_pview j : vle (pview s j) (pview s' j);
  cs_cview : vle (cview s) (cview s');
  cs_pushed : pushed s `prefix_of` pushed s'
}.

Lemma core_step mask s s' : step mask s s' → core_same s s'.
Proof.
  intros Hstep.
  destruct Hstep as [i x m V Hi Hst|i x Hi|i x m V Hi Hst|i x pos V Hi Hl|i pos x v V d Hi Hl Hd
    |i pos x m V Hi Hex|i pos x pos' V Hi Hl|i pos x Hi|i pos x m V Hi Hst|i pos v V Hi Hl|i pos Hi|i pos e Hi
    |v V d Hc Hl Hd|Hc|out m V Hc Hst|out Hc|out e Hc|out m V Hc Hst];
    try destruct Hst as [t Hf Ht]; try destruct Hex as [t W Hm Ht Hf]; try (apply load_le in Hl);
    (split; simpl; rewrite ?app_nil_r; try (intros j; apply glance_le);
     [by rewrite ?fn_lookup_insert_ne by done|
      first [by left|right; eexists; split; [|reflexivity]; done]|
      first [done|apply entered_le|apply see_le|trans (entered (mem s) (pview s i)); [apply entered_le|exact Hl]
            |trans (entered (mem s) (pview s i)); [apply entered_le|apply see_le]]|
      first [done|apply entered_le|apply see_le
            |trans (entered (mem s) (cview s)); [apply entered_le|apply see_le]]|
      first [done|by apply prefix_app_r]]).
Qed.

Lemma core_refl s : core_same s s.
Proof. split; [done|by left|done|done|done]. Qed.

(** ** The copies *)

Definition copy_write (k : nat) (x : access nloc) : Prop := a_loc x = Object k ∧ a_write x = true.

(** A thread with view [V] has seen the copy [k] published, or a later one. *)
Definition has_seen (m : memory aloc nloc) (V : view aloc) (k : nat) : Prop :=
  ∃ t v W, messages m Published !! t = Some (v, W) ∧ Z.of_nat k ≤ v ∧ t ≤ v_at V Published.

Lemma has_seen_le m V V' k : has_seen m V k → vle V V' → has_seen m V' k.
Proof.
  intros (t & v & W & Hm & Hk & Ht) [Ha _]. exists t, v, W. specialize (Ha Published). auto with lia.
Qed.

(** Copies are published in the order in which they are made, after they are made; a
    thread that has a pointer to a copy knows that it is made. *)
Record pub_inv (q : readers) : Prop := mkPubInv {
  pi_some : (0 < length (objects q))%nat;
  pi_latest : latest (mem (core q)) Published (v_at (cview (core q)) Published);
  pi_current : has_seen (mem (core q)) (cview (core q)) (current q);
  pi_messages t v W : messages (mem (core q)) Published !! t = Some (v, W) →
    ∃ k, v = Z.of_nat k ∧ (k ≤ current q)%nat ∧ knows (mem (core q)) (copy_write k) W;
  pi_rising t v W t' v' W' : messages (mem (core q)) Published !! t = Some (v, W) →
    messages (mem (core q)) Published !! t' = Some (v', W') → t < t' → v < v';
  pi_made n x k : log (mem (core q)) !! n = Some x → a_loc x = Object k → (k < length (objects q))%nat;
  pi_making k : stage q = Publish k →
    length (objects q) = S k ∧ (0 < k)%nat ∧ knows (mem (core q)) (copy_write k) (cview (core q));
  pi_hold i k : hold q i = Some k →
    (k < length (objects q))%nat ∧ knows (mem (core q)) (copy_write k) (pview (core q) i) ∧
    has_seen (mem (core q)) (pview (core q) i) k
}.

(** Later messages are about later copies. *)
Lemma copies_rise q t v W t' v' W' :
  pub_inv q → messages (mem (core q)) Published !! t = Some (v, W) →
  messages (mem (core q)) Published !! t' = Some (v', W') → t ≤ t' → v ≤ v'.
Proof.
  intros Hq Hm Hm' Hle. destruct (decide (t = t')) as [<-|Hne]; [rewrite Hm in Hm'; by injection Hm' as -> _|].
  pose proof (pi_rising q Hq t v W t' v' W' Hm Hm'). lia.
Qed.

Lemma current_lt q : pub_inv q → (current q < length (objects q))%nat.
Proof.
  intros Hq. pose proof (pi_some q Hq). unfold current. destruct (stage q) eqn:Hs; try lia.
  destruct (pi_making q Hq _ Hs) as (? & _). lia.
Qed.

Lemma pub_start st dflt : pub_inv (open_store st dflt).
Proof.
  split; simpl; try done; [lia|..].
  - intros t msg Ht. simpl in Ht. by apply lookup_singleton_Some in Ht as [<- _].
  - exists 0, 0, bottom. split_and!; [simpl; by rewrite lookup_singleton_eq|done|done].
  - intros t v W [_ H]%lookup_singleton_Some. injection H as <- <-. exists 0%nat. split_and!; [done|done|by apply knows_nil].
  - intros t v W t' v' W' [<- _]%lookup_singleton_Some [<- _]%lookup_singleton_Some. lia.
Qed.

(** Steps that leave the copies alone. *)
Lemma pub_core q q' :
  pub_inv q → core_same (core q) (core q') → objects q' = objects q → hold q' = hold q → current q' = current q →
  (∀ k, stage q' = Publish k → stage q = Publish k) → pub_inv q'.
Proof.
  intros [Hso Hla Hcu Hme Hri Hma Hmk Hho] [Hm Hl Hpv Hcv _] Ho Hh Hc Hst.
  assert (∀ k U, knows (mem (core q)) (copy_write k) U → knows (mem (core q')) (copy_write k) U) as Hk.
  { intros k U HU. unfold knows. destruct Hl as [->|(x & Hx & ->)]; [done|].
    apply (knows_enter_other _ x); [done|]. intros [H _]. by apply (Hx k). }
  assert (∀ k U, has_seen (mem (core q)) U k → has_seen (mem (core q')) U k) as Hs.
  { intros k U. unfold has_seen. by rewrite Hm. }
  split; rewrite ?Hm, ?Ho, ?Hh, ?Hc; [done| | |..].
  - unfold latest. rewrite Hm. eapply latest_le; [exact Hla|apply Hcv].
  - eapply has_seen_le; [by apply Hs|done].
  - intros t v W Ht. destruct (Hme t v W Ht) as (k & ? & ? & ?). exists k. auto.
  - done.
  - intros n x k. destruct Hl as [->|(y & Hy & ->)]; [by apply Hma|].
    intros [[_ Hn]|[_ <-]]%lookup_snoc_Some Hx; [by eapply Hma|by destruct (Hy k)].
  - intros k Hk'. apply Hst in Hk'. destruct (Hmk k Hk') as (? & ? & ?). split_and!; [done|done|].
    eapply knows_le; [by apply Hk|done].
  - intros i k Hi. destruct (Hho i k Hi) as (? & ? & ?). split_and!; [done| |].
    + eapply knows_le; [by apply Hk|done].
    + eapply has_seen_le; [by apply Hs|done].
Qed.

Lemma copy_other j k : (k < j)%nat → ¬ copy_write k (write_na (Object j)).
Proof. intros Hk [H _]. injection H. lia. Qed.

Lemma pub_made q : pub_inv q → stage q = Make → pub_inv (made q).
Proof.
  intros Hq Hst. pose proof (current_lt q Hq) as Hlt.
  destruct Hq as [Hso Hla Hcu Hme Hri Hma Hmk Hho].
  assert (current (made q) = current q) as Hc by (unfold current; simpl; by rewrite Hst).
  split; rewrite ?Hc; simpl; rewrite ?length_app; simpl; [lia|done|done| |done|..].
  - intros t v W Ht. destruct (Hme t v W Ht) as (k & ? & ? & ?). exists k. split_and!; [done|done|].
    apply knows_enter_other; [done|]. apply copy_other. lia.
  - intros n x k [[_ Hn]|[_ <-]]%lookup_snoc_Some Hx; [pose proof (Hma _ _ _ Hn Hx); lia|]. injection Hx. lia.
  - intros k [= <-]. split_and!; [lia|done|]. apply knows_enter. intros n x Hn [Hx _]. pose proof (Hma _ _ _ Hn Hx). lia.
  - intros i k Hi. destruct (Hho i k Hi) as (? & ? & ?). split_and!; [lia| |done].
    apply knows_enter_other; [done|]. by apply copy_other.
Qed.

Lemma pub_stored q k m V :
  pub_inv q → stage q = Publish k → store (mem (core q)) (cview (core q)) Published (Z.of_nat k) true m V →
  pub_inv (stored q m V).
Proof.
  intros Hq Hst [t Hf Ht]. destruct (pi_making q Hq k Hst) as (Hlen & Hpos & Hkn).
  destruct Hq as [Hso Hla Hcu Hme Hri Hma Hmk Hho].
  assert (current q = Nat.pred k) as Hcq by (unfold current; by rewrite Hst). rewrite Hcq in *.
  set (q' := stored q _ _). assert (current q' = k) as Hc by (unfold current; simpl; by rewrite Hlen).
  assert (∀ u U, has_seen (mem (core q)) U u → has_seen (mem (core q')) U u) as Hs.
  { intros u U (a & b & W & Ha & ? & ?). exists a, b, W. simpl. rewrite fn_lookup_insert, lookup_insert_ne by congruence. done. }
  split; rewrite ?Hc; simpl; rewrite ?fn_lookup_insert; [done|..].
  - eapply latest_le; [by apply (latest_send _ _ (v_at (cview (core q)) Published))|]. lia.
  - exists t, (Z.of_nat k). eexists. simpl. rewrite !fn_lookup_insert, lookup_insert_eq. split_and!; [done|lia|lia].
  - intros u v W [[_ H]|[_ Hu]]%lookup_insert_Some.
    + injection H as <- <-. exists k. split_and!; [done|done|]. by eapply knows_le; [|apply see_le].
    + destruct (Hme u v W Hu) as (j & ? & ? & ?). exists j. split_and!; [done|lia|done].
  - intros u v W u' v' W' [[<- H]|[_ Hu]]%lookup_insert_Some [[<- H']|[_ Hu']]%lookup_insert_Some Hle; simplify_eq.
    + lia.
    + apply Hla in Hu'. lia.
    + destruct (Hme u v W Hu) as (j & -> & ? & _). lia.
    + by apply (Hri u v W u' v' W').
  - done.
  - done.
  - intros i j Hi. destruct (Hho i j Hi) as (? & ? & ?). split_and!; [done|done|by apply Hs].
Qed.

Lemma pub_taken q i v V :
  pub_inv q → load (mem (core q)) (pview (core q) i) Published true v V → pub_inv (taken q i v V).
Proof.
  intros Hq Hl. pose proof (load_le _ _ _ _ _ _ Hl) as HV. pose proof (current_lt q Hq) as Hlt.
  destruct Hq as [Hso Hla Hcu Hme Hri Hma Hmk Hho]. destruct Hl as [t v W Hm Ht].
  split; try done. intros j k. simpl. rewrite !fn_insert_cases. case_decide as Hij; [subst j|apply Hho].
  intros [= <-]. destruct (Hme t v W Hm) as (k & -> & Hk & Hw). rewrite Nat2Z.id. split_and!; [lia| |].
  - eapply knows_le; [exact Hw|]. etrans; [apply join_r|apply see_le].
  - exists t, (Z.of_nat k), W. rewrite see_at. split_and!; [done|done|lia].
Qed.

Lemma pub_looked q i k : pub_inv q → hold q i = Some k → pub_inv (looked q i k).
Proof.
  intros Hq Hi. destruct (pi_hold q Hq i k Hi) as (Hk & _ & _). destruct Hq as [Hso Hla Hcu Hme Hri Hma Hmk Hho].
  assert (∀ j U, knows (mem (core q)) (copy_write j) U → knows (mem (core (looked q i k))) (copy_write j) U) as Hkn.
  { intros j U HU. apply knows_enter_other; [done|]. by intros [_ ?]. }
  split; try done.
  - intros t v W Ht. destruct (Hme t v W Ht) as (j & ? & ? & ?). exists j. auto.
  - intros n x j [[_ Hn]|[_ <-]]%lookup_snoc_Some Hx; [by eapply Hma|]. injection Hx as <-. done.
  - intros j Hj. destruct (Hmk j Hj) as (? & ? & ?). auto.
  - intros j u Hj. destruct (Hho j u Hj) as (? & Hu & Hs).
    assert (vle (pview (core q) j) (pview (core (looked q i k)) j)) as HV by (simpl; apply glance_le, entered_le).
    split_and!; [done|eapply knows_le; [by apply Hkn|exact HV]|by eapply has_seen_le].
Qed.

(** ** The books *)

Section Books.
Variables (p every : Z) (st0 : LedgerStateStore).
Hypothesis Hp : 1 ≤ p ≤ 62.
Hypothesis Hevery : u64_ok every.
Abbreviation slack := (every `max` 1 - 1).
Implicit Types q : readers.

(** The copy [k] is what the ledger was after [b] transactions, the first one what
    the constructor put there; fewer than [every] of those applied are missing from
    the published copy, except while it is being replaced. *)
Record book_inv q : Prop := mkBookInv {
  bk_born : length (born q) = length (objects q);
  bk_ledger : applied (working_ st0) (commits q) = Some (working q);
  bk_first : objects q !! 0%nat = Some (published_ st0);
  bk_none : born q !! 0%nat = Some 0%nat;
  bk_copy k st b : objects q !! k = Some st → born q !! k = Some b →
    (b ≤ length (commits q))%nat ∧ ((0 < k)%nat → applied (working_ st0) (take b (commits q)) = Some st);
  bk_rising j k b c : born q !! j = Some b → born q !! k = Some c → (j ≤ k)%nat → (b ≤ c)%nat;
  bk_lag : match stage q with
           | Publish k => born q !! k = Some (length (commits q))
           | ph => 0 ≤ since q ∧ (ph = Make ∨ since q ≤ slack) ∧ ∃ b, born q !! current q = Some b ∧
                     Z.of_nat (length (commits q)) = Z.of_nat b + since q
           end;
  bk_serving : stage q ≠ Fresh → ∃ out, cons (core q) = CServe out ∧
    ((∀ e, stage q = Reply e → e = LedgerError.None) → last (commits q) = Some out.2);
  bk_acks : length (acks q) = length (answers (core q));
  bk_ack pos k c : acks q !! pos = Some (k, c) → (c ≤ length (commits q))%nat ∧
    (∃ b, born q !! k = Some b ∧ Z.of_nat c ≤ Z.of_nat b + slack) ∧
    (answers (core q) !! pos = Some LedgerError.None →
       ∃ i t, pushed (core q) !! pos = Some (i, t) ∧ (0 < c)%nat ∧ commits q !! Nat.pred c = Some t)
}.

Lemma book_start dflt : book_inv (open_store st0 dflt).
Proof.
  split; simpl; try done.
  - intros k st b Hk [-> <-]%list_lookup_singleton_Some. split; [done|lia].
  - intros j k b c [-> <-]%list_lookup_singleton_Some [-> <-]%list_lookup_singleton_Some. done.
  - split_and!; [done|right; lia|by exists 0%nat].
Qed.

(** Steps of other threads, and of the writer while it serves nothing. *)
Lemma book_same q s' hold' :
  book_inv q → answers s' = answers (core q) → pushed (core q) `prefix_of` pushed s' →
  (∀ out, cons (core q) = CServe out → cons s' = CServe out) →
  book_inv (mkReaders s' (working q) (since q) (objects q) (stage q) hold' (commits q) (born q) (acks q)).
Proof.
  intros [] Ha Hpu Hc. split; try done; simpl; rewrite ?Ha; [|done|].
  - intros Hst. destruct (bk_serving0 Hst) as (out & ? & ?). exists out. auto.
  - intros pos k c Hpos. destruct (bk_ack0 pos k c Hpos) as (? & ? & Hans). split_and!; [done|done|].
    intros Hn. destruct (Hans Hn) as (i & t & ? & ? & ?). exists i, t. split_and!; [|done|done].
    by eapply prefix_lookup_Some.
Qed.

Lemma serve_stays mask s s' out :
  step mask s s' → answers s' = answers s → cons s = CServe out → cons s' = CServe (T := Transaction) out.
Proof.
  intros [] Ha Hc; simpl in *; try congruence. apply (f_equal length) in Ha. rewrite length_app in Ha. simpl in Ha. lia.
Qed.

Lemma book_refuse q out e :
  book_inv q → cons (core q) = CServe out → stage q = Fresh → e ≠ LedgerError.None →
  book_inv (with_stage q (Reply e)).
Proof.
  intros [] Hc Hst He. rewrite Hst in *. split; try done; simpl.
  - unfold current in *. simpl. rewrite Hst in *. naive_solver.
  - intros _. exists out. split; [done|]. intros H. by destruct He, (H e).
Qed.

Lemma lookup_before {A} (l : list A) k a x : l !! k = Some a → (l ++ [x]) !! k = Some a.
Proof. intros H. apply lookup_app_l_Some, H. Qed.

Lemma book_commit q out st r :
  book_inv q → cons (core q) = CServe out → stage q = Fresh → apply (working q) out.2 = Some (st, r) →
  book_inv (committed every q out.2 st).
Proof.
  intros [] Hc Hst Hap. rewrite Hst in *. destruct bk_lag0 as (H0 & [?|Hs] & b & Hb & Hlen); [done|].
  assert (wrap64 (since q + 1) = since q + 1) as Hw by (apply wrap64_id; range_lia).
  unfold committed. rewrite Hw. set (q' := mkReaders _ _ _ _ _ _ _ _ _).
  assert (current q' = current q) as Hcu by (unfold current; simpl; rewrite Hst; by case_bool_decide).
  split; try done; rewrite ?Hcu; simpl.
  - by eapply applied_snoc.
  - intros k st' c Hk Hb'. destruct (bk_copy0 k st' c Hk Hb') as [Hle Hap']. rewrite length_app. simpl.
    split; [lia|]. by rewrite take_app_le.
  - rewrite length_app. simpl. case_bool_decide; (split_and!; [lia| |exists b; split; [done|lia]]); [by left|right; lia].
  - intros _. exists out. split; [done|]. intros _. apply last_snoc.
  - intros pos k c Hpos. destruct (bk_ack0 pos k c Hpos) as (? & ? & Hans). rewrite length_app. simpl.
    split_and!; [lia|done|]. intros Hn. destruct (Hans Hn) as (i & t & ? & ? & ?). exists i, t.
    split_and!; [done|done|by apply lookup_before].
Qed.

Lemma book_made q : book_inv q → stage q = Make → book_inv (made q).
Proof.
  intros [] Hst. rewrite Hst in *. destruct bk_lag0 as (_ & _ & b0 & Hb0 & Hlen).
  assert (∀ k b, (born q ++ [length (commits q)]) !! k = Some b →
    born q !! k = Some b ∨ k = length (objects q) ∧ b = length (commits q)) as Hsn.
  { intros k b [[_ ?]|[-> <-]]%lookup_snoc_Some; [by left|right; lia]. }
  assert (∀ k b, born q !! k = Some b → (b ≤ length (commits q))%nat ∧ (k < length (objects q))%nat) as Hle.
  { intros k b Hk. apply lookup_lt_Some in Hk as Hlt. rewrite bk_born0 in Hlt.
    destruct (lookup_lt_is_Some_2 (objects q) k Hlt) as [st Hst']. by destruct (bk_copy0 k st b). }
  split; try done; simpl.
  - rewrite !length_app. simpl. lia.
  - by apply lookup_before.
  - by apply lookup_before.
  - intros k st b Hk [Hb|[-> ->]]%Hsn.
    + destruct (Hle k b Hb) as [_ Hlt]. rewrite lookup_app_l in Hk by done. by apply bk_copy0.
    + rewrite lookup_app_r, Nat.sub_diag in Hk by done. injection Hk as <-. split; [done|]. intros _. by rewrite firstn_all.
  - intros j k b c [Hb|[-> ->]]%Hsn [Hc|[-> ->]]%Hsn Hjk; [by eapply bk_rising0|by apply (Hle j)| |done].
    destruct (Hle k c Hc). lia.
  - rewrite lookup_app_r, bk_born0, Nat.sub_diag by lia. done.
  - intros _. destruct bk_serving0 as (out & ? & Hl); [done|]. exists out. split; [done|]. intros _. by apply Hl.
  - intros pos k c Hpos. destruct (bk_ack0 pos k c Hpos) as (? & (b & Hb & ?) & ?). split_and!; [done| |done].
    exists b. split; [by apply lookup_before|done].
Qed.

Lemma book_stored q k m V :
  book_inv q → stage q = Publish k → length (objects q) = S k → book_inv (stored q m V).
Proof.
  intros [] Hst Hk. rewrite Hst in *. split; try done; simpl.
  - unfold current. simpl. rewrite Hk. simpl. split_and!; [done|right; lia|]. eexists. split; [done|lia].
  - intros _. destruct bk_serving0 as (out & ? & Hl); [done|]. exists out. split; [done|]. intros _. by apply Hl.
Qed.

Lemma book_replied q out e :
  book_inv q → cons (core q) = CServe out → stage q = Reply e →
  pushed (core q) !! length (answers (core q)) = Some out → book_inv (replied q out e).
Proof.
  intros [] Hc Hst Hout. rewrite Hst in *. destruct bk_lag0 as (H0 & [?|Hs] & b & Hb & Hlen); [done|].
  destruct bk_serving0 as (out' & Hc' & Hl); [done|]. rewrite Hc in Hc'. injection Hc' as <-.
  assert (current q = Nat.pred (length (objects q))) as Hcu by (unfold current; by rewrite Hst).
  split; try done; simpl; rewrite ?app_nil_r.
  - unfold current at 1. simpl. rewrite <- Hcu. split_and!; [done|by right|by exists b].
  - rewrite !length_app. simpl. lia.
  - intros pos k c [[Hlt Hpos]|[-> [= <- <-]]]%lookup_snoc_Some.
    + destruct (bk_ack0 pos k c Hpos) as (? & ? & Hans). split_and!; [done|done|].
      rewrite lookup_app_l by lia. done.
    + split_and!; [done|exists b; split; [done|lia]|]. rewrite lookup_app_r, bk_acks0, Nat.sub_diag by lia.
      intros [= ->]. exists out.1, out.2. rewrite <- surjective_pairing. split; [done|].
      rewrite last_lookup in Hl. assert (commits q !! Nat.pred (length (commits q)) = Some out.2) as Hlast.
      { apply Hl. by intros e [= <-]. }
      split; [|done]. apply lookup_lt_Some in Hlast. lia.
Qed.
End Books.

(** ** What an answer brings along *)

(** A thread that learns of its answer has seen the copy that was published when the
    answer was given. *)
Definition fresh_ok (q : readers) (i : nat) (V : view aloc) (st : pstate Transaction) : Prop :=
  match st with
  | PWait pos => pos < signalled (core q) → ∀ t W k c, last_message (mem (core q)) (Flag i) t 1 W →
      acks q !! Z.to_nat pos = Some (k, c) → has_seen (mem (core q)) W k
  | PRead pos | PGot pos _ => ∀ k c, acks q !! Z.to_nat pos = Some (k, c) → has_seen (mem (core q)) V k
  | _ => True
  end.

Record fresh_inv (q : readers) : Prop := mkFreshInv {
  fr_writer pos k c : acks q !! pos = Some (k, c) → has_seen (mem (core q)) (cview (core q)) k;
  fr_threads i : fresh_ok q i (pview (core q) i) (prods (core q) i)
}.

(** A step that does not wake thread [i]. *)
Lemma fresh_stay q q' i :
  fresh_ok q i (pview (core q) i) (prods (core q) i) →
  prods (core q') i = prods (core q) i → vle (pview (core q) i) (pview (core q') i) →
  messages (mem (core q')) (Flag i) = messages (mem (core q)) (Flag i) →
  (∀ k U, has_seen (mem (core q)) U k → has_seen (mem (core q')) U k) →
  (∀ pos a, (prods (core q) i = PWait pos ∧ pos < signalled (core q')) ∨ prods (core q) i = PRead pos ∨
     (∃ e, prods (core q) i = PGot pos e) →
     acks q' !! Z.to_nat pos = Some a → acks q !! Z.to_nat pos = Some a) →
  (∀ pos, prods (core q) i = PWait pos → pos < signalled (core q') → pos < signalled (core q)) →
  fresh_ok q' i (pview (core q') i) (prods (core q') i).
Proof.
  intros Hok Hpr HV Hm Hs Ha Hsig. rewrite Hpr. destruct (prods (core q) i) as [| | | | | | | |pos|pos|pos e] eqn:Hi;
    simpl in *; try done.
  - intros Hlt t W k c Hl Hk. apply Hs, (Hok (Hsig pos eq_refl Hlt) t W k c); [|by eauto].
    unfold last_message, latest in *. by rewrite Hm in Hl.
  - intros k c Hk. eapply has_seen_le; [|exact HV]. eapply Hs, Hok, Ha; [by right; left|done].
  - intros k c Hk. eapply has_seen_le; [|exact HV]. eapply Hs, Hok, Ha; [by right; right; exists e|done].
Qed.

Section Fresh.
Variable p : Z.
Hypothesis Hp : 1 ≤ p ≤ 62.
Implicit Types q : readers.

(** Polling that ends the wait: the message read is the one the answer came with. *)
Lemma fresh_poll q i pos t v W :
  fresh_ok q i (pview (core q) i) (PWait pos) → slot_ok (core q) i (pview (core q) i) (PWait pos) →
  messages (mem (core q)) (Flag i) !! t = Some (v, W) → v_at (pview (core q) i) (Flag i) ≤ t → v ≠ 0 →
  ∀ k c, acks q !! Z.to_nat pos = Some (k, c) → has_seen (mem (core q)) W k.
Proof.
  intros Hf Hok Hm Ht Hv k c. destruct (slot_poll_done p Hp _ i pos _ t v W Hok Hm Ht Hv) as [Hlt _].
  destruct Hok as (_ & _ & _ & Ha). destruct (Ha Hlt) as (_ & t0 & W0 & Hl & Hc & _).
  assert (t = t0) as <-.
  { destruct (decide (t = t0)); [done|]. destruct Hv. apply (Hc t v W); [done|done|congruence]. }
  destruct Hl as [Hm0 Hl0]. rewrite Hm in Hm0. injection Hm0 as -> ->. by apply (Hf Hlt t W0 k c).
Qed.

(** The writer sets [done]: the message carries what the writer has seen. *)
Lemma fresh_signal q out m V :
  fresh_inv q → slot_inv p (core q) → ring_inv p (core q) → cons (core q) = CSignal out →
  store (enter (mem (core q)) (write_at (Done out.1))) (entered (mem (core q)) (cview (core q))) (Flag out.1) 1 true m V →
  fresh_inv (with_core q (turn (core q) CIdle m V)).
Proof.
  intros Hf Hinv Hr Hc Hst. set (s := core q) in *. pose proof (sl_serve p s Hinv) as Hs. unfold serve_ok in Hs.
  rewrite Hc in Hs. destruct Hs as (Hsv & H1 & Hl & _ & _ & Hlat).
  assert (signalled s = served s - 1) as Hsig by (unfold signalled; by rewrite Hc).
  pose proof (served_waits p Hp s (served s - 1) out Hinv Hr ltac:(lia) Hl) as Hw.
  pose proof (store_le _ _ _ _ _ _ _ Hst) as HV. destruct Hst as [t Hfree Ht]. simpl in Ht.
  assert (∀ pos k c U, acks q !! pos = Some (k, c) → vle (cview s) U → has_seen (mem s) U k) as Hcv.
  { intros pos k c U Hk HU. eapply has_seen_le; [by eapply (fr_writer q Hf)|done]. }
  assert (vle (cview s) (see (Flag out.1) t (entered (mem s) (cview s)))) as HVs
    by (etrans; [apply (entered_le (mem s))|exact HV]).
  assert (∀ k U, has_seen (mem s) U k →
    has_seen (send (enter (mem s) (write_at (Done out.1))) (Flag out.1) t 1
                (see (Flag out.1) t (entered (mem s) (cview s)))) U k) as Hsame.
  { intros k U (a & b & W & Ha & ? & ?). exists a, b, W. by rewrite send_ne. }
  set (q' := with_core _ _). split.
  - intros pos k c Hk. by apply Hsame, (Hcv pos k c).
  - intros j. destruct (decide (j = out.1)) as [->|Hj].
    + simpl. fold s. rewrite Hw. simpl. intros _ t' W k c [Hm Hl'] Hk. fold s in Hm, Hl'.
      rewrite send_eq in Hm. apply lookup_insert_Some in Hm as [[_ Hm]|[Hne Hm]].
      * injection Hm as <-. by apply Hsame, (Hcv _ k c _ Hk).
      * apply Hlat in Hm. assert (t ≤ t') by (eapply Hl'; rewrite send_eq; apply lookup_insert_eq). lia.
    + apply (fresh_stay q q'); [apply Hf|done|done|simpl; by rewrite fn_lookup_insert_ne by congruence|exact Hsame|done|].
      fold s. simpl. intros pos Hpos Hlt. rewrite Hsig. change (pos < served s) in Hlt.
      destruct (decide (pos = served s - 1)) as [->|]; [|lia].
      pose proof (sl_threads p s Hinv j) as Hok. rewrite Hpos in Hok. destruct Hok as ((_ & x & Hx) & _).
      rewrite Hl in Hx. by injection Hx as ->.
Qed.

(** The number of requests signalled does not change. *)
Ltac signals_same :=
  intros ?pos _; unfold signalled, served; simpl; rewrite ?app_nil_r;
  try match goal with Hc : cons _ = _ |- _ => rewrite Hc end; by repeat case_bool_decide.

Lemma fresh_core q s' :
  fresh_inv q → slot_inv p (core q) → ring_inv p (core q) → step (2 ^ p - 1) (core q) s' →
  answers s' = answers (core q) → fresh_inv (with_core q s').
Proof.
  intros Hf Hinv Hr Hstep Hans. pose proof (core_step _ _ _ Hstep) as [Hpm _ Hpv Hcv _].
  assert (∀ k U, has_seen (mem (core q)) U k → has_seen (mem s') U k) as Hseen.
  { intros k U. unfold has_seen. by rewrite Hpm. }
  assert (∀ j, prods s' j = prods (core q) j → messages (mem s') (Flag j) = messages (mem (core q)) (Flag j) →
    (∀ pos, prods (core q) j = PWait pos → pos < signalled s' → pos < signalled (core q)) →
    fresh_ok (with_core q s') j (pview s' j) (prods s' j)) as Hstay.
  { intros j Hj Hm Hsig. by apply (fresh_stay q (with_core q s')); [apply Hf|..]. }
  assert (∀ pos k c, acks q !! pos = Some (k, c) → has_seen (mem s') (cview s') k) as Hwr.
  { intros pos k c Hk. eapply has_seen_le; [|exact Hcv]. by eapply Hseen, (fr_writer q Hf). }
  set (s := core q) in *.
  destruct Hstep as [i x m V Hi Hst|i x Hi|i x m V Hi Hst|i x pos V Hi Hl|i pos x v V d Hi Hl Hd
    |i pos x m V Hi Hex|i pos x pos' V Hi Hl|i pos x Hi|i pos x m V Hi Hst|i pos v V Hi Hl|i pos Hi|i pos e Hi
    |v V d Hc Hl Hd|Hc|out m V Hc Hst|out Hc|out e Hc|out m V Hc Hst];
    try (split; [exact Hwr|]; intros j; simpl in *; specialize (Hstay j); rewrite !fn_insert_cases in *;
         case_decide; [subst j|apply Hstay; [done| |done];
           first [done|destruct Hst; simpl; by rewrite fn_lookup_insert_ne by congruence
                 |destruct Hex; simpl; by rewrite fn_lookup_insert_ne by congruence]]);
    try done.
  - by repeat case_bool_decide.
  - split; [exact Hwr|]. intros j. simpl in *. specialize (Hstay j). rewrite !fn_insert_cases in *.
    case_decide; [done|]. destruct Hex. apply Hstay; [done|by rewrite send_ne|]. signals_same.
  - intros Hlt. pose proof (r_push p s Hr i) as Hpu. rewrite Hi in Hpu. destruct Hpu as [(Hpos & _) _].
    pose proof (signalled_le p Hp s Hinv). change (pos < signalled s) in Hlt. lia.
  - pose proof (fr_threads q Hf i) as Hfr. fold s in Hfr. rewrite Hi in Hfr.
    pose proof (sl_threads p s Hinv i) as Hok. rewrite Hi in Hok. case_bool_decide as Hv; [exact Hfr|].
    destruct Hl as [t v W Hm Ht]. intros k c Hk. eapply has_seen_le; [by eapply Hseen, fresh_poll|].
    etrans; [apply join_r|apply see_le].
  - pose proof (fr_threads q Hf i) as Hfr. fold s in Hfr. rewrite Hi in Hfr.
    intros k c Hk. by eapply Hseen, Hfr.
  - split; [exact Hwr|]. intros j. apply Hstay; [done|done|]. signals_same.
  - split; [exact Hwr|]. intros j. apply Hstay; [done|done|]. signals_same.
  - split; [exact Hwr|]. intros j. apply Hstay; [done|destruct Hst; simpl; by rewrite fn_lookup_insert_ne|].
    signals_same.
  - split; [exact Hwr|]. intros j. apply Hstay; [done|done|]. signals_same.
  - apply (f_equal length) in Hans. simpl in Hans. rewrite length_app in Hans. simpl in Hans. lia.
  - by apply (fresh_signal q out).
Qed.

Lemma fresh_aside q q' :
  fresh_inv q → aside (core q) (core q') → acks q' = acks q →
  (∀ k U, has_seen (mem (core q)) U k → has_seen (mem (core q')) U k) → fresh_inv q'.
Proof.
  intros Hf Ha Hk Hs. split.
  - intros pos k c. rewrite Hk. intros Hpos. eapply has_seen_le; [by eapply Hs, (fr_writer q Hf)|apply Ha].
  - intros i. apply (fresh_stay q q'); [apply Hf|by rewrite (as_prods _ _ Ha)|apply Ha|by apply Ha|done|by rewrite Hk|].
    intros pos _. by rewrite (aside_signalled _ _ Ha).
Qed.

Lemma fresh_replied q out e :
  fresh_inv q → pub_inv q → slot_inv p (core q) → cons (core q) = CServe out →
  length (acks q) = length (answers (core q)) → fresh_inv (replied q out e).
Proof.
  intros Hf Hpub Hinv Hc Hlen. pose proof (signalled_le p Hp _ Hinv) as Hle.
  split.
  - intros pos k c [[_ Hpos]|[_ [= <- _]]]%lookup_snoc_Some.
    + eapply has_seen_le; [by eapply (fr_writer q Hf)|apply entered_le].
    + eapply has_seen_le; [apply (pi_current q Hpub)|apply entered_le].
  - intros i. apply (fresh_stay q (replied q out e)); try done; [apply Hf| |].
    + intros pos a Hw [[_ ?]|[Heq _]]%lookup_snoc_Some; [done|]. exfalso.
      pose proof (sl_threads p _ Hinv i) as Hok. destruct Hw as [[Hi Hlt]|[Hi|[e' Hi]]]; rewrite Hi in Hok.
      * destruct Hok as ((? & _) & _). unfold signalled, served in Hlt. simpl in Hlt. rewrite length_app in Hlt. simpl in Hlt. lia.
      * destruct Hok as (_ & _ & _ & Hok). apply lookup_lt_Some in Hok. lia.
      * destruct Hok as (_ & _ & Hok). apply lookup_lt_Some in Hok. lia.
    + intros pos _. unfold signalled, served. simpl. rewrite Hc, length_app. simpl. lia.
Qed.
End Fresh.

(** ** Every step *)

Section Reach.
Variables (p every : Z) (st0 : LedgerStateStore).
Hypothesis Hp : 1 ≤ p ≤ 62.
Hypothesis Hevery : u64_ok every.
Implicit Types q : readers.

Record readers_inv q : Prop := mkReadersInv {
  ri_ring : ring_inv p (core q);
  ri_slot : slot_inv p (core q);
  ri_pub : pub_inv q;
  ri_book : book_inv every st0 q;
  ri_fresh : fresh_inv q
}.

Lemma readers_start dflt : readers_inv (open_store st0 dflt).
Proof.
  split; [by apply ring_start|apply slot_start|apply pub_start|apply book_start|]. by split.
Qed.

(** Steps that concern snapshots only. *)
Lemma readers_aside q q' :
  readers_inv q → aside (core q) (core q') → acks q' = acks q →
  (∀ t msg, messages (mem (core q)) Published !! t = Some msg → messages (mem (core q')) Published !! t = Some msg) →
  pub_inv q' → book_inv every st0 q' → readers_inv q'.
Proof.
  intros [] Ha Hk Hm Hpub Hb. split; [by apply (ring_aside (core q))|by apply (slot_aside (core q))|done|done|].
  apply (fresh_aside q); [done|done|done|]. intros k U (t & v & W & Ht & ? & ?). exists t, v, W. auto.
Qed.

Lemma readers_step q q' :
  rstep (2 ^ p - 1) every q q' → readers_inv q → headroom p (core q) → readers_inv q'.
Proof.
  intros Hstep Hq Hh. pose proof Hq as [Hr Hs Hpub Hb Hf].
  destruct Hstep as [s' Hst Hans|out e Hc Hst He|out st r Hc Hst Hap|Hst|k m V Hst Hsto|out e Hc Hst|i v V Hi Hl|i k Hi].
  - pose proof (core_step _ _ _ Hst) as Hcs. split; simpl.
    + by apply (ring_step p Hp (core q)).
    + by apply (slot_step p Hp (core q)).
    + by apply (pub_core q).
    + apply book_same; [done|done|apply Hcs|]. intros out. by apply (serve_stays _ _ _ _ Hst).
    + by apply (fresh_core p).
  - split; [done|done| |by eapply book_refuse|by destruct Hf; split].
    apply (pub_core q); try done; [apply core_refl|unfold current; simpl; by rewrite Hst].
  - split; [done|done| |by eapply book_commit|by destruct Hf; split].
    apply (pub_core q); try done; [apply core_refl|..]; unfold current, committed; simpl; rewrite ?Hst;
      by case_bool_decide.
  - apply (readers_aside q); [done|apply aside_made|done|done|by apply pub_made|by apply book_made].
  - apply (readers_aside q); [done|by eapply aside_stored|done| |by eapply pub_stored|].
    + destruct Hsto as [t Hfree Ht]. intros u msg Hu. simpl. rewrite fn_lookup_insert.
      by rewrite lookup_insert_ne by congruence.
    + eapply book_stored; [done|done|]. by apply (pi_making q Hpub).
  - assert (step (2 ^ p - 1) (core q) (core (replied q out e))) as Hstep by by apply c_answer.
    pose proof (core_step _ _ _ Hstep) as Hcs. split.
    + by apply (ring_step p Hp (core q)).
    + by apply (slot_step p Hp (core q)).
    + apply (pub_core q); try done. unfold current. simpl. by rewrite Hst.
    + apply book_replied; [done|done|done|]. pose proof (sl_serve p _ Hs) as Hse. unfold serve_ok in Hse.
      rewrite Hc in Hse. apply Hse.
    + by apply (fresh_replied p); [..|apply Hb].
  - apply (readers_aside q); [done|by apply aside_taken|done|done|by apply pub_taken|by apply book_same].
  - apply (readers_aside q); [done|by apply aside_looked|done|done|by apply pub_looked|by apply book_same].
Qed.

Lemma readers_pushes q q' : rstep (2 ^ p - 1) every q q' → pushes (core q) ≤ pushes (core q').
Proof.
  intros [s' Hst _| | | | | | |]; unfold pushes; simpl; rewrite ?app_nil_r; try done.
  by apply (pushes_mono p).
Qed.

Lemma readers_reach dflt q :
  rreachable (2 ^ p - 1) every st0 dflt q → headroom p (core q) → readers_inv q.
Proof.
  revert q. apply (rtc_ind_r (λ q, headroom p (core q) → readers_inv q)); [intros _; apply readers_start|].
  intros q q' _ Hstep IH Hh. pose proof (readers_pushes q q' Hstep).
  assert (headroom p (core q)) as Hh' by (unfold headroom in *; lia). by apply (readers_step q); [| apply IH|].
Qed.
End Reach.

(** ** The engine's step *)

(** ** The schedule of publications *)

(** Copies are made after every so many transactions: the copy [k] has [k] times as many. *)
Record schedule (every : Z) (q : readers) : Prop := mkSchedule {
  sc_make : stage q = Make → since q = every `max` 1;
  sc_born k b : born q !! k = Some b → Z.of_nat b = Z.of_nat k * every `max` 1
}.

Lemma schedule_step mask every st0 q q' :
  u64_ok every → rstep mask every q q' → pub_inv q → book_inv every st0 q → schedule every q → schedule every q'.
Proof.
  intros Hev Hstep Hpub Hb [Hmk Hbn].
  destruct Hstep as [s' Hst Hans|out e Hc Hst _|out st r Hc Hst Hap|Hst|k m V Hst Hsto|out e Hc Hst|i v V Hi Hl|i k Hi];
    try (split; simpl; [done|exact Hbn]).
  - pose proof (bk_lag _ _ _ Hb) as Hlag. rewrite Hst in Hlag. destruct Hlag as (H0 & [?|Hs] & _); [done|].
    split; simpl; [|exact Hbn]. rewrite wrap64_id by range_lia. case_bool_decide; [intros _; lia|done].
  - pose proof (bk_lag _ _ _ Hb) as Hlag. rewrite Hst in Hlag. destruct Hlag as (_ & _ & b & Hcur & Hlen).
    split; simpl; [done|]. intros k b' Hk. apply lookup_app_Some in Hk as [Hk|[Hle Hk]]; [by apply Hbn|].
    apply list_lookup_singleton_Some in Hk as [Hk <-]. pose proof (Hbn _ _ Hcur) as Hb'. pose proof (pi_some q Hpub).
    pose proof (bk_born _ _ _ Hb). unfold current in Hb'. rewrite Hst in Hb'. rewrite Hlen, Hb', Hmk by done.
    replace (Z.of_nat k) with (Z.of_nat (Nat.pred (length (objects q))) + 1) by lia. lia.
Qed.

Lemma schedule_reach p every st0 dflt q :
  1 ≤ p ≤ 62 → u64_ok every → rreachable (2 ^ p - 1) every st0 dflt q → headroom p (core q) → schedule every q.
Proof.
  intros Hp Hev. unfold rreachable. revert q. apply (rtc_ind_r (λ q, headroom p (core q) → schedule every q)).
  { intros _. split; [done|]. intros k b [-> <-]%list_lookup_singleton_Some. done. }
  intros q q' Hq Hstep IH Hh. pose proof (readers_pushes p every q q' Hstep).
  assert (headroom p (core q)) as Hh' by (unfold headroom in *; lia).
  destruct (readers_reach p every st0 Hp Hev dflt q Hq Hh') as [_ _ Hpub Hb _].
  eapply schedule_step; [done|exact Hstep|done|exact Hb|by apply IH].
Qed.

(** ** The engine *)

(** What the rest of the development takes as one step, [Engine.commit], for each of
    the transactions [l]. *)
Definition commits_all (e : LedgerEngine) (l : list Transaction) : option LedgerEngine :=
  foldl (λ o t, e ← o; commit t e) (Some e) l.

(** The engine after all that is applied; the copy it has published is in [published_],
    or on its way there. *)
Definition engine_matches (e0 : LedgerEngine) (q : readers) : Prop :=
  ∃ e, commits_all e0 (commits q) = Some e ∧ config_ e = config_ e0 ∧ working_copy (state_ e) = working q ∧
    match stage q with
    | Make => snapshot (state_ e) = working q ∧ processed_since_publish_ e = 0
    | Publish k => objects q !! k = Some (snapshot (state_ e)) ∧ processed_since_publish_ e = 0
    | _ => objects q !! current q = Some (snapshot (state_ e)) ∧ processed_since_publish_ e = since q
    end.

Lemma engine_commit e0 q t st r :
  engine_matches e0 q → stage q = Fresh → apply (working q) t = Some (st, r) →
  engine_matches e0 (committed (publish_snapshot_every_n (config_ e0)) q t st).
Proof.
  intros (e & He & Hcf & Hw & Hst) Hf Hap. rewrite Hf in Hst. destruct Hst as [Hcur Hn].
  unfold current in Hcur. rewrite Hf in Hcur. unfold engine_matches, committed, current. simpl.
  unfold commits_all in *. rewrite foldl_app. simpl. rewrite He. simpl. unfold commit. rewrite Hw, Hap. simpl.
  rewrite Hcf, Hn. case_bool_decide; eexists; (split; [reflexivity|]); by repeat split.
Qed.

Lemma engine_step mask e0 q q' :
  rstep mask (publish_snapshot_every_n (config_ e0)) q q' → pub_inv q → engine_matches e0 q → engine_matches e0 q'.
Proof.
  intros Hstep Hpub He. pose proof (pi_some q Hpub) as Hsome.
  destruct Hstep as [s' Hst Hans|out e Hc Hst _|out st r Hc Hst Hap|Hst|k m V Hst Hsto|out e Hc Hst|i v V Hi Hl|i k Hi];
    try exact He; [..|].
  - destruct He as (e' & He). rewrite Hst in He. exists e'. simpl. unfold current in *. simpl. by rewrite Hst in He.
  - by eapply engine_commit.
  - destruct He as (e & H1 & H2 & H3 & H4). rewrite Hst in H4. exists e. simpl.
    destruct H4 as [-> H4]. split_and!; try done. by rewrite lookup_app_r, Nat.sub_diag by lia.
  - destruct (pi_making q Hpub k Hst) as (Hk & _). destruct He as (e & H1 & H2 & H3 & H4). rewrite Hst in H4.
    exists e. unfold current. simpl. by rewrite Hk.
  - destruct He as (e' & He). rewrite Hst in He. exists e'. simpl. unfold current in *. simpl. by rewrite Hst in He.
Qed.

Lemma engine_reach p e0 dflt q :
  1 ≤ p ≤ 62 → u64_ok (publish_snapshot_every_n (config_ e0)) → processed_since_publish_ e0 = 0 →
  rreachable (2 ^ p - 1) (publish_snapshot_every_n (config_ e0)) (state_ e0) dflt q → headroom p (core q) →
  engine_matches e0 q.
Proof.
  intros Hp Hev Hn. set (every := publish_snapshot_every_n _) in *. unfold rreachable. revert q.
  apply (rtc_ind_r (λ q, headroom p (core q) → engine_matches e0 q)); [intros _; by exists e0|].
  intros q q' Hq Hstep IH Hh. pose proof (readers_pushes p every q q' Hstep).
  assert (headroom p (core q)) as Hh' by (unfold headroom in *; lia).
  apply (engine_step _ _ q q' Hstep); [|by apply IH]. by apply (ri_pub p every (state_ e0)), (readers_reach p every (state_ e0) Hp Hev dflt).
Qed.

(** ** Running the machine *)

Section Run.
Variables (mask every : Z).

Inductive rchoice :=
  | Core (c : choice (T := Transaction))
  | Refuse (e : LedgerError)
  | Commit
  | MakeCopy
  | StoreCopy (t : Z)
  | Complete
  | TakeSnapshot (i : nat) (t : Z)
  | LookAt (i : nat).

Definition rchoose (q : readers) (c : rchoice) : option readers :=
  match c with
  | Core c =>
      s' ← choose mask (core q) c;
      guard (answers s' = answers (core q));; Some (with_core q s')
  | Refuse e =>
      match cons (core q), stage q with
      | CServe _, Fresh => guard (e ≠ LedgerError.None);; Some (with_stage q (Reply e))
      | _, _ => None
      end
  | Commit =>
      match cons (core q), stage q with
      | CServe out, Fresh => '(st, _) ← apply (working q) out.2; Some (committed every q out.2 st)
      | _, _ => None
      end
  | MakeCopy => match stage q with Make => Some (made q) | _ => None end
  | StoreCopy t =>
      match stage q with
      | Publish k =>
          '(m, V) ← store_at (mem (core q)) (cview (core q)) Published (Z.of_nat k) true t; Some (stored q m V)
      | _ => None
      end
  | Complete =>
      match cons (core q), stage q with CServe out, Reply e => Some (replied q out e) | _, _ => None end
  | TakeSnapshot i t =>
      guard (between_requests (prods (core q) i) = true);;
      '(v, V) ← load_at (mem (core q)) (pview (core q) i) Published true t; Some (taken q i v V)
  | LookAt i => k ← hold q i; Some (looked q i k)
  end.
Fixpoint rrun (q : readers) (cs : list rchoice) : option readers :=
  match cs with [] => Some q | c :: cs => q' ← rchoose q c; rrun q' cs end.

Lemma rchoose_step q c q' : rchoose q c = Some q' → rstep mask every q q'.
Proof.
  destruct c as [c|e| | |t| |i t|i]; simpl; intros H.
  - destruct (choose mask (core q) c) as [s'|] eqn:Hc; simplify_option_eq. apply r_core; [by eapply choose_step|done].
  - destruct (cons (core q)) eqn:Hc, (stage q) eqn:Hs; simplify_option_eq. by eapply r_refuse.
  - destruct (cons (core q)) eqn:Hc, (stage q) eqn:Hs; try done.
    destruct (apply _ _) as [[st r]|] eqn:Ha; simplify_option_eq. by eapply r_commit.
  - destruct (stage q) eqn:Hs; simplify_option_eq. by apply r_make.
  - destruct (stage q) eqn:Hs; try done. destruct (store_at _ _ _ _ _ _) as [[m V]|] eqn:Hst; simplify_option_eq.
    eapply r_publish; [done|]. apply store_at_spec. by exists t.
  - destruct (cons (core q)) eqn:Hc, (stage q) eqn:Hs; simplify_option_eq. by apply r_reply.
  - destruct (load_at _ _ _ _ _) as [[v V]|] eqn:Hl; simplify_option_eq. apply r_snapshot; [done|].
    apply load_at_spec. by exists t.
  - destruct (hold q i) as [k|] eqn:Hk; simplify_option_eq. by apply r_read.
Qed.

Lemma rrun_reachable st dflt cs q : rrun (open_store st dflt) cs = Some q → rreachable mask every st dflt q.
Proof.
  unfold rreachable. generalize (open_store st dflt). induction cs as [|c cs IH]; intros q0 H; simpl in H.
  { injection H as ->. done. }
  destruct (rchoose q0 c) as [q1|] eqn:Hc; [|done]. simpl in H. eapply rtc_l; [|by apply IH]. by eapply rchoose_step.
Qed.
End Run.

(** One request in a ring of two cells, each transaction published: submitted, applied,
    published, answered; the thread learns of the answer, takes a snapshot, reads it. *)
Definition store_example : LedgerEngine :=
  set_state_working_copy ExampleLedger.state (make_engine (mkConfig "wal" SyncEveryWrite 2 2 1)).
Definition visit : list rchoice :=
  (Core <$> [Produce 0 (Some (ExampleLedger.tx 1 10)) 1 true; Produce 0 None 0 true; Produce 0 None 2 true;
     Produce 0 None 0 true; Produce 0 None 0 true; Produce 0 None 0 true; Produce 0 None 0 true;
     Produce 0 None 1 true; Consume 1 LedgerError.None; Consume 0 LedgerError.None;
     Consume 2 LedgerError.None; Consume 0 LedgerError.None]) ++
  [Commit; MakeCopy; StoreCopy 1; Complete; Core (Consume 3 LedgerError.None);
   Core (Produce 0 None 3 true); Core (Produce 0 None 0 true); TakeSnapshot 0 1; LookAt 0].
Definition visit_start : readers := open_store (state_ store_example) (0%nat, default_tx).
Definition visit_after (k : nat) : readers := default visit_start (rrun 1 1 visit_start (take k visit)).

Lemma visit_reachable k : rreachable (2 ^ 1 - 1) 1 (state_ store_example) (0%nat, default_tx) (visit_after k).
Proof.
  unfold visit_after. destruct (rrun 1 1 _ (take k visit)) as [q|] eqn:Hq; [|apply rtc_refl].
  simpl. by eapply rrun_reachable.
Qed.
Lemma visit_room k : (k ≤ 21)%nat → headroom 1 (core (visit_after k)).
Proof. intros Hk. unfold headroom. do 22 (destruct k as [|k]; [by_compute|]). lia. Qed.

(** ** The theorems *)

Section Theorems.
Variables (p : Z) (e0 : LedgerEngine) (dflt : nat * Transaction) (q : readers).
Abbreviation every := (publish_snapshot_every_n (config_ e0)).
Hypothesis Hp : 1 ≤ p ≤ 62.
Hypothesis Hevery : u64_ok every.
Hypothesis Hq : rreachable (2 ^ p - 1) every (state_ e0) dflt q.
Hypothesis Hroom : headroom p (core q).

Lemma theorems_inv : readers_inv p every (state_ e0) q.
Proof. by apply (readers_reach p every (state_ e0) Hp Hevery dflt). Qed.

(** [st] is what is published when the [n] first transactions are: the ledger they lead
    to, or, if there are none, the copy that was published at the start. *)
Definition published_after (n : nat) (st : LedgerState) : Prop :=
  if decide (n = 0%nat) then st = snapshot (state_ e0)
  else applied (working_copy (state_ e0)) (take n (commits q)) = Some st.

(** What a pointer to the copy [k] leads to. *)
Lemma copy_content k :
  (k < length (objects q))%nat → ∃ st n, objects q !! k = Some st ∧ born q !! k = Some n ∧ (n ≤ length (commits q))%nat ∧
    published_after n st.
Proof.
  intros Hk. destruct theorems_inv as [_ _ _ [] _]. destruct (lookup_lt_is_Some_2 (objects q) k Hk) as [st Hst].
  destruct (lookup_lt_is_Some_2 (born q) k) as [n Hn]; [by rewrite bk_born0|].
  destruct (bk_copy0 k st n Hst Hn) as [Hle Hap]. exists st, n. split_and!; [done|done|done|].
  pose proof (sc_born _ _ (schedule_reach p every _ dflt q Hp Hevery Hq Hroom) k n Hn) as Hkn.
  unfold published_after. case_decide as H0.
  - assert (k = 0%nat) as -> by nia. rewrite bk_first0 in Hst. by injection Hst as <-.
  - apply Hap. destruct k; lia.
Qed.

(** C16: Taking snapshots is free of data races under the C++ memory model: in every
    state that the writer and any number of threads that submit, take snapshots and read
    them can reach, constructing the copy that is published next and reading a copy
    obtained from [snapshot] race with nothing, and neither do the accesses to the queue
    and to the completions made meanwhile. *)
Theorem snapshot_no_race :
  ¬ racy (2 ^ p - 1) (core q) ∧ ∀ V x, next_copy q V x → ordered (mem (core q)) V x.
Proof.
  destruct theorems_inv as [Hr Hs Hpub _ _]. split.
  - intros (V & x & Hn & Hno). by apply Hno, (next_ordered p Hp).
  - intros V x [Hst|i k Hi] n y Hn (Hl & Hw & _).
    + pose proof (pi_made q Hpub n y _ Hn Hl). lia.
    + destruct (pi_hold q Hpub i k Hi) as (_ & Hk & _). apply (Hk n y Hn). split; [done|]. by destruct Hw.
Qed.

(** C15: A snapshot is never torn and never goes back.  What a thread reads through a
    pointer it got from [snapshot] is the ledger exactly as it was after the first [n] of
    the transactions applied so far, or, as long as none is published, the copy that was
    published when the threads started (the one the constructor of the store makes is
    empty and has not the accounts added since); and any snapshot the thread takes
    afterwards is one after at least [n]. *)
Theorem snapshot_consistent i k :
  hold q i = Some k →
  ∃ st n, objects q !! k = Some st ∧ (n ≤ length (commits q))%nat ∧ published_after n st ∧
    ∀ v V, load (mem (core q)) (pview (core q) i) Published true v V →
      ∃ st' n', objects q !! Z.to_nat v = Some st' ∧ (n ≤ n' ≤ length (commits q))%nat ∧ published_after n' st'.
Proof.
  intros Hi. destruct theorems_inv as [_ _ Hpub Hb _]. destruct (pi_hold q Hpub i k Hi) as (Hk & _ & t & w & W & Hm & Hw & Ht).
  destruct (copy_content k Hk) as (st & n & Hst & Hn & Hle & Hap). exists st, n. split_and!; [done|done|done|].
  intros v V [t' v' W' Hm' Ht']. destruct (pi_messages q Hpub t' v' W' Hm') as (k' & -> & Hk' & _). rewrite Nat2Z.id.
  pose proof (current_lt q Hpub). destruct (copy_content k') as (st' & n' & Hst' & Hn' & Hle' & Hap'); [lia|].
  exists st', n'. split_and!; [done| |done|done]. apply (bk_rising _ _ _ Hb k k' n n' Hn Hn').
  pose proof (copies_rise q t w W t' (Z.of_nat k') W' Hpub Hm Hm'). lia.
Qed.

(** C14: A thread reads its own writes: once it has read the answer "no error" to its
    request, which was the [c]-th transaction applied (counted from zero), every snapshot
    it takes is the ledger after the first [n] transactions, and of the [S c] applied by
    then fewer than [publish_snapshot_every_n] (or than one, if that is zero) are missing
    from it; with one publication per transaction ([every] at most 1) its own is always
    included. *)
Theorem read_your_writes i pos v V :
  prods (core q) i = PGot pos LedgerError.None →
  load (mem (core q)) (pview (core q) i) Published true v V →
  ∃ t c n st, pushed (core q) !! Z.to_nat pos = Some (i, t) ∧ commits q !! c = Some t ∧
    hold (taken q i v V) i = Some (Z.to_nat v) ∧ objects q !! Z.to_nat v = Some st ∧
    Z.of_nat (S c) < Z.of_nat n + every `max` 1 ∧ (every ≤ 1 → (c < n)%nat) ∧ published_after n st.
Proof.
  intros Hi Hl. destruct theorems_inv as [Hr Hs Hpub Hb Hf].
  pose proof (sl_threads p _ Hs i) as Hok. rewrite Hi in Hok. destruct Hok as (_ & (_ & x & Hx) & Ha). unfold answered in Ha.
  pose proof (fr_threads q Hf i) as Hfr. rewrite Hi in Hfr. simpl in Hfr.
  destruct (lookup_lt_is_Some_2 (acks q) (Z.to_nat pos)) as [[k c] Hk].
  { rewrite (bk_acks _ _ _ Hb). by eapply lookup_lt_Some. }
  destruct (bk_ack _ _ _ Hb _ k c Hk) as (_ & (b & Hb' & Hlag) & Hans). destruct (Hans Ha) as (j & t & Hj & Hpos & Ht).
  rewrite Hx in Hj. injection Hj as <- <-. destruct (Hfr k c Hk) as (u & w & W & Hm & Hw & Hu).
  destruct Hl as [t' v' W' Hm' Ht']. destruct (pi_messages q Hpub t' v' W' Hm') as (k' & -> & Hk' & _).
  pose proof (copies_rise q u w W t' (Z.of_nat k') W' Hpub Hm Hm' ltac:(lia)) as Hkk.
  pose proof (current_lt q Hpub). destruct (copy_content k') as (st & n & Hst & Hn & _ & Hap); [lia|].
  pose proof (bk_rising _ _ _ Hb k k' b n Hb' Hn ltac:(lia)) as Hbn.
  exists x, (Nat.pred c), n, st. rewrite Nat2Z.id. split_and!; try done; [|lia|lia].
  simpl. by rewrite fn_lookup_insert, Nat2Z.id.
Qed.

(** The last message is the one about the current copy. *)
Lemma current_published : ∃ t W, last_message (mem (core q)) Published t (Z.of_nat (current q)) W.
Proof.
  destruct theorems_inv as [_ _ Hpub _ _]. destruct (pi_current q Hpub) as (t & v & W & Hm & Hv & Ht).
  destruct (pi_messages q Hpub t v W Hm) as (k & -> & Hk & _). assert (k = current q) as -> by lia.
  exists t, W. split; [done|]. intros u [v' W'] Hu. destruct (decide (u ≤ t)) as [|Hlt]; [done|].
  destruct (pi_messages q Hpub u v' W' Hu) as (k' & -> & Hk' & _).
  pose proof (pi_rising q Hpub t _ W u _ W' Hm Hu). lia.
Qed.

(** C19: Publications come on schedule: when [c] transactions are applied and the writer
    is not in the middle of a publication, [published_] points to a copy of the ledger
    after the largest multiple of [publish_snapshot_every_n] (of one, if that is zero)
    that is at most [c]; before the first interval is over, to the copy that was published
    at the start. *)
Theorem publication_schedule :
  stage q ≠ Make → (∀ k, stage q ≠ Publish k) →
  let c := length (commits q) in let interval := Z.to_nat (every `max` 1) in
  ∃ t W k st, last_message (mem (core q)) Published t (Z.of_nat k) W ∧ objects q !! k = Some st ∧
    published_after (c `div` interval * interval)%nat st.
Proof.
  intros H1 H2 c interval. destruct current_published as (t & W & Hl). exists t, W, (current q).
  destruct theorems_inv as [_ _ Hpub Hb _]. pose proof (bk_lag _ _ _ Hb) as Hlag.
  pose proof (schedule_reach p every _ dflt q Hp Hevery Hq Hroom) as Hs.
  destruct (copy_content (current q) (current_lt q Hpub)) as (st & n & Hst & Hn & _ & Hap).
  exists st. split_and!; [done..|]. replace (c `div` interval * interval)%nat with n; [done|].
  pose proof (sc_born _ _ Hs _ _ Hn) as Hcn.
  assert (0 ≤ since q ≤ every `max` 1 - 1 ∧ Z.of_nat c = Z.of_nat n + since q) as [Hsi Hc].
  { destruct (stage q) eqn:Hst'; [|done|by destruct (H2 k)|];
      destruct Hlag as (H0 & [?|Hle] & b & Hcur & Hlen); try done; rewrite Hn in Hcur; injection Hcur as <-; by split. }
  assert (n = current q * interval)%nat as Hni by (unfold interval; lia).
  rewrite Hni. f_equal. apply (Nat.div_unique c interval (current q) (Z.to_nat (since q))); unfold interval in *; lia.
Qed.

(** The engine of the other files, which applies, counts and publishes in one step, is
    what this code does when the writer is not in the middle of a publication. *)
Lemma publication_matches :
  processed_since_publish_ e0 = 0 → stage q ≠ Make → (∀ k, stage q ≠ Publish k) →
  ∃ e, commits_all e0 (commits q) = Some e ∧ working_copy (state_ e) = working q ∧
    processed_since_publish_ e = since q ∧ objects q !! current q = Some (snapshot (state_ e)).
Proof.
  intros H0 H1 H2. destruct (engine_reach p e0 dflt q) as (e & He & _ & Hw & Hst); try done.
  exists e. destruct (stage q) eqn:Hs; [|done|by destruct (H2 k)|]; by destruct Hst.
Qed.
End Theorems.

(** The thread is about to read the copy it has got. *)
Lemma snapshot_no_race_witness :
  hold (visit_after 20) 0%nat = Some 1%nat ∧
  ordered (mem (core (visit_after 20))) (pview (core (visit_after 20)) 0%nat) (read_na (Object 1)).
Proof.
  assert (hold (visit_after 20) 0%nat = Some 1%nat) as Hh by by_compute. split; [exact Hh|].
  apply (snapshot_no_race 1 store_example (0%nat, default_tx) (visit_after 20));
    [lia|by_compute|apply (visit_reachable 20)|apply visit_room; lia|by apply next_look].
Defined.

Lemma snapshot_consistent_witness :
  ∃ st n, objects (visit_after 21) !! 1%nat = Some st ∧ (n ≤ length (commits (visit_after 21)))%nat ∧
    published_after store_example (visit_after 21) n st.
Proof.
  destruct (snapshot_consistent 1 store_example (0%nat, default_tx) (visit_after 21)) with (i := 0%nat) (k := 1%nat)
    as (st & n & H1 & H2 & H3 & _); [lia|by_compute|apply (visit_reachable 21)|apply visit_room; lia|by_compute|].
  exists st, n. split; [exact H1|]. split; [exact H2|exact H3].
Defined.

Lemma read_your_writes_witness :
  ∃ v V t c n st, load (mem (core (visit_after 19))) (pview (core (visit_after 19)) 0%nat) Published true v V ∧
    commits (visit_after 19) !! c = Some t ∧ (c < n)%nat ∧
    published_after store_example (visit_after 19) n st.
Proof.
  destruct (messages (mem (core (visit_after 19))) Published !! 1) as [[v W]|] eqn:Hm; [|by vm_compute in Hm].
  assert (load (mem (core (visit_after 19))) (pview (core (visit_after 19)) 0%nat) Published true v
    (see Published 1 (join (pview (core (visit_after 19)) 0%nat) W))) as Hl.
  { apply (load_message _ _ _ true 1 v W); [exact Hm|]. by_compute. }
  destruct (read_your_writes 1 store_example (0%nat, default_tx) (visit_after 19)) with (i := 0%nat) (pos := 0)
    (v := v) (V := see Published 1 (join (pview (core (visit_after 19)) 0%nat) W))
    as (t & c & n & st & _ & Hc & _ & _ & _ & Hn & Hap);
    [lia|by_compute|apply (visit_reachable 19)|apply visit_room; lia|by vm_compute|exact Hl|].
  eexists v, _, t, c, n, st. split; [exact Hl|]. split; [exact Hc|]. split; [|exact Hap]. apply Hn. by_compute.
Defined.

Lemma publication_schedule_witness :
  ∃ t W k st, last_message (mem (core (visit_after 21))) Published t (Z.of_nat k) W ∧
    objects (visit_after 21) !! k = Some st ∧ published_after store_example (visit_after 21) 1 st.
Proof.
  destruct (publication_schedule 1 store_example (0%nat, default_tx) (visit_after 21)) as (t & W & k & st & H1 & H2 & H3);
    [lia|by_compute|apply (visit_reachable 21)|apply visit_room; lia|by vm_compute|intros k; by vm_compute|].
  exists t, W, k, st. split; [exact H1|]. split; [exact H2|]. vm_compute in H3. exact H3.
Defined.
