(* ===== verification/EngineSpec.v ===== *)
(** * What the engine does with its requests

    The outcome of one request on every branch of the pipeline, the invariants of
    the event loop, and the relation between the log and the in-memory state. *)

From S2P Require Import Prelude Types Validation LedgerState Crc32 WalCodec Posix WalWriter.
From S2P Require Import WalReader Snapshot SnapshotWrite Recovery Idempotency RingBuffer Engine.

(** ** Room for the amounts *)

Definition balances_within (B : Z) (st : LedgerState) : Prop :=
  map_Forall (λ _ a, Z.abs (balance a) ≤ B) (accounts_ st).
#[export] Instance balances_within_dec B st : Decision (balances_within B st).
Proof. unfold balances_within. apply _. Defined.

(** What a transaction can move: its debits, if its shape is valid. *)
Definition gross (t : Transaction) : Z :=
  if bool_decide (validate_transaction_shape t = LedgerError.None) then debits (tx_legs t) else 0.

Lemma gross_nonneg t : 0 ≤ gross t.
Proof.
  unfold gross. case_bool_decide as Hs; [|lia].
  destruct (shape_valid_inv t Hs) as (_ & (Hp & _) & _). by apply debits_nonneg.
Qed.

Lemma gross_shape t :
  shape_valid t → gross t = debits (tx_legs t) ∧ credits (tx_legs t) = debits (tx_legs t) ∧
    positive_legs (tx_legs t).
Proof.
  intros Hs. destruct (shape_valid_inv t Hs) as (_ & (Hp & _) & He).
  unfold gross. by rewrite bool_decide_true.
Qed.

Lemma projected_within B st t i a :
  balances_within B st → shape_valid t → accounts_ st !! i = Some a →
  Z.abs (projected (tx_legs t) i a) ≤ B + gross t.
Proof.
  intros HB Hs Ha. destruct (gross_shape t Hs) as (-> & Hc & Hp).
  pose proof (HB i a Ha) as Hb. simpl in Hb. pose proof (net_on_volume _ i Hp) as Hn.
  unfold projected, normal_sign. destruct (is_debit_normal (type a)); lia.
Qed.

Lemma within_headroom B st t :
  balances_within B st → shape_valid t → B + gross t ≤ INT64_MAX →
  prefixes_ok st (tx_legs t) ∧ projections_ok (find_account st) (tx_legs t).
Proof.
  intros HB Hs Hroom. destruct (gross_shape t Hs) as (Hg & Hc & Hp). split.
  - apply headroom_prefixes_ok; [done|]. intros i a Ha _. pose proof (HB i a Ha) as Hb. simpl in Hb.
    rewrite Hc, Z.max_id. range_lia.
  - intros i a _ Ha. pose proof (projected_within B st t i a HB Hs Ha). range_lia.
Qed.

(** ** The outcome of one request *)

(** The ledger after an accepted transaction. *)
Definition post_state (st : LedgerState) (t : Transaction) : LedgerState :=
  mkState (post_accounts (tx_legs t) (accounts_ st)) (Z.max (last_applied_id_ st) (id t)).

Section Outcome.
Variable hash64 : Z → Z.

(** The engine can work: its cache represents [lru], its state is well formed
    with balances within [B], and its log is open. *)
Record engine_ok (cap : nat) (B : Z) (e : LedgerEngine) (lru : list (Z * IdempotencyKey))
    (free : list Z) : Prop := mkEngineOk {
  eng_cap : (0 < cap)%nat;
  eng_cache : rep hash64 cap (idempotency_ e) lru free [];
  eng_wf : state_wf (working_copy (state_ e));
  eng_within : balances_within B (working_copy (state_ e));
  eng_fd : 0 ≤ fd_ (wal_writer_ e)
}.

(** The engine after the state [st'] has been committed: published when enough
    transactions have accumulated. *)
Definition after_commit (e : LedgerEngine) (st' : LedgerState) : LedgerEngine :=
  let n := wrap64 (processed_since_publish_ e + 1) in
  if bool_decide (publish_snapshot_every_n (config_ e) ≤ n)
  then with_state (mkStore st' st') 0 e
  else with_state (mkStore st' (published_ (state_ e))) n e.

(** The ways a request can end, with the error reported, the engine and the log
    file after it.  [seen] is the answer of the cache and [c'] the cache then. *)
Inductive processed (seen : bool) (c' : IdempotencyCache) (e : LedgerEngine) (t : Transaction)
    (nd : inode) : LedgerError → LedgerEngine → inode → Prop :=
  | processed_duplicate :
      seen = true →
      processed seen c' e t nd LedgerError.DuplicateTransaction (with_cache c' e) nd
  | processed_bad_shape err :
      seen = false → shape_verdict (tx_legs t) err → err ≠ LedgerError.None →
      processed seen c' e t nd err (with_cache c' e) nd
  | processed_refused err :
      seen = false → shape_valid t →
      against_verdict (find_account (working_copy (state_ e))) (tx_legs t) err →
      err ≠ LedgerError.None →
      processed seen c' e t nd err (with_cache c' e) nd
  | processed_not_logged err wr' ts nd' :
      seen = false → shape_valid t →
      against_verdict (find_account (working_copy (state_ e))) (tx_legs t) LedgerError.None →
      err ≠ LedgerError.None →
      append_result (wal_writer_ e) nd (record_bytes t ts) err wr' nd' →
      processed seen c' e t nd err (with_writer wr' (with_cache c' e)) nd'
  | processed_committed wr' ts nd' :
      seen = false → shape_valid t → s64_ok ts →
      against_verdict (find_account (working_copy (state_ e))) (tx_legs t) LedgerError.None →
      append_result (wal_writer_ e) nd (record_bytes t ts) LedgerError.None wr' nd' →
      processed seen c' e t nd LedgerError.None
        (after_commit (with_writer wr' (with_cache c' e)) (post_state (working_copy (state_ e)) t)) nd'.

Definition log_failure (err : LedgerError) : Prop :=
  err = LedgerError.WalWriteFailed ∨ err = LedgerError.WalSyncFailed.

Lemma complete_ok a v err (s : slots) :
  s !! a = Some v → complete (Some a) err s = Some (<[a := mkCompletion true err]> s).
Proof.
  unfold slots. intros Ha. unfold complete, write_slot, slots in *. ubind. rewrite Ha. ubind.
  rewrite lookup_insert_eq. ubind. simpl. by rewrite insert_insert_eq.
Qed.

Lemma after_commit_working e st' : working_copy (state_ (after_commit e st')) = st'.
Proof. unfold after_commit. by case_bool_decide. Qed.
Lemma after_commit_rest e st' :
  idempotency_ (after_commit e st') = idempotency_ e ∧
  wal_writer_ (after_commit e st') = wal_writer_ e ∧ ring_ (after_commit e st') = ring_ e ∧
  config_ (after_commit e st') = config_ e ∧ next_tx_id_ (after_commit e st') = next_tx_id_ e.
Proof. unfold after_commit. by case_bool_decide. Qed.

(** The commit, for a transaction that passed both checks. *)
Lemma apply_post B st t :
  tx_ok t → state_wf st → balances_within B st → shape_valid t → B + gross t ≤ INT64_MAX →
  validate_transaction_against_state t (find_account st) = Some LedgerError.None →
  let st' := post_state st t in
  apply st t = Some (st', LedgerError.None) ∧ state_wf st' ∧ balances_within (B + gross t) st' ∧
  imbalance st' = imbalance st ∧ (solvent st → solvent st').
Proof.
  intros Htx Hwf HB Hs Hroom Hv st'. destruct (within_headroom B _ t HB Hs Hroom) as [Hpre _].
  destruct (apply_valid _ t Htx Hwf Hs Hv Hpre) as (st1 & Ha & Hacc & Hlast & Hwf' & Himb & Hsol).
  assert (st1 = st') as -> by (destruct st1; unfold st', post_state; simpl in *; congruence).
  split_and!; try done. intros i a. simpl. rewrite lookup_post_accounts, fmap_Some.
  intros (a0 & Ha0 & ->). by apply (projected_within B st t i a0).
Qed.

Lemma commit_ok e t st' :
  apply (working_copy (state_ e)) t = Some (st', LedgerError.None) →
  commit t e = Some (after_commit e st').
Proof. intros Ha. unfold commit, after_commit. rewrite Ha. ubind. by case_bool_decide. Qed.

Lemma verdict_not_log_failure t lookup err :
  shape_verdict (tx_legs t) err ∨ against_verdict lookup (tx_legs t) err → ¬ log_failure err.
Proof. intros [H|H] [->| ->]; inversion H. Qed.

Section Spec.
Context {P : Posix} {L : PosixLaws P}.

(** What is known after a request: [o] is the run of the loop body on [t] with
    the completion slot [a]; the log is the file [i], with the contents [nd]. *)
Definition handled (cap : nat) (B : Z) (e : LedgerEngine) (lru : list (Z * IdempotencyKey))
    (a : Z) (t : Transaction) (s : slots) (w : world) (i : Z) (nd : inode)
    (o : option (LedgerEngine * slots * world)) : Prop :=
  ∃ seen c' err e' w' nd' lru' free',
    o = Some (e', <[a := mkCompletion true err]> s, w') ∧
    lru_check cap (idempotency_key t) lru.*2 = (seen, lru'.*2) ∧
    processed seen c' e t nd err e' nd' ∧ engine_ok cap (B + gross t) e' lru' free' ∧
    open_on (view w') (fd_ (wal_writer_ e')) true true i nd' ∧
    logged i (fd_ (wal_writer_ e)) w nd w' nd' ∧ fd_ (wal_writer_ e') = fd_ (wal_writer_ e) ∧
    ring_ e' = ring_ e ∧ config_ e' = config_ e ∧
    (reliable w → reliable w' ∧ ¬ log_failure err) ∧
    imbalance (working_copy (state_ e')) = imbalance (working_copy (state_ e)) ∧
    (solvent (working_copy (state_ e)) → solvent (working_copy (state_ e'))).

Section Request.
Variables (cap : nat) (B : Z) (e : LedgerEngine) (lru : list (Z * IdempotencyKey)) (free : list Z).
Variables (a : Z) (v : Completion) (t : Transaction) (s : slots) (w : world) (i : Z) (nd : inode).
Variables (seen : bool) (c' : IdempotencyCache) (lru' : list (Z * IdempotencyKey)) (free' : list Z).
Hypothesis Hok : engine_ok cap B e lru free.
Hypothesis Htx : tx_ok t.
Hypothesis Hslot : s !! a = Some v.
Hypothesis Hroom : B + gross t ≤ INT64_MAX.
Hypothesis Hon : open_on (view w) (fd_ (wal_writer_ e)) true true i nd.
Hypothesis Hrep' : rep hash64 cap c' lru' free' [].
Hypothesis Hlru : lru_check cap (idempotency_key t) lru.*2 = (seen, lru'.*2).

Lemma engine_ok_logged wr' :
  fd_ wr' = fd_ (wal_writer_ e) →
  engine_ok cap (B + gross t) (with_writer wr' (with_cache c' e)) lru' free'.
Proof.
  intros Hwr. destruct Hok as [Hcap _ Hwf HB Hfd]. pose proof (gross_nonneg t).
  split; try done; [|simpl; lia]. intros j b Hb. pose proof (HB j b Hb). simpl in *. lia.
Qed.

(** A request that ends before the log is written. *)
Lemma handled_refused err :
  processed seen c' e t nd err (with_cache c' e) nd → ¬ log_failure err →
  handled cap B e lru a t s w i nd
    ((s' ← lift (complete (Some a) err s); mret (with_cache c' e, s')) w).
Proof.
  intros Hp Herr. msimpl. rewrite (complete_ok a v) by done. msimpl.
  exists seen, c', err, (with_cache c' e), w, nd, lru', free'.
  split_and!; try done; [by apply (engine_ok_logged (wal_writer_ e))|apply logged_refl].
Qed.

(** A request that passed the checks. *)
Lemma handled_logged :
  seen = false → shape_valid t →
  against_verdict (find_account (working_copy (state_ e))) (tx_legs t) LedgerError.None →
  validate_transaction_against_state t (find_account (working_copy (state_ e))) = Some LedgerError.None →
  handled cap B e lru a t s w i nd
    (('(appended, wr) ← append t (wal_writer_ e);
      let e := with_writer wr (with_cache c' e) in
      if negb (has_value appended) then s' ← lift (complete (Some a) appended s); mret (e, s')
      else e ← lift (commit t e); s' ← lift (complete (Some a) LedgerError.None s); mret (e, s')) w).
Proof.
  intros Hseen Hs Hv Hval. destruct Hok as [Hcap _ Hwf HB Hfd].
  destruct (append_spec t _ w i nd Htx Hfd Hon) as (r & wr' & w' & ts & nd' & Hrun & [Hts _] & Hres & Hon' & Hfr & Hrel).
  destruct (append_result_inv _ _ _ _ _ _ Hres) as (k & Hwr & _ & _ & Hfail).
  pose proof (engine_ok_logged wr' Hwr) as Hok'.
  msimpl. rewrite Hrun. msimpl. unfold has_value. case_bool_decide as Hr; msimpl.
  - destruct (apply_post B (working_copy (state_ e)) t) as (Ha & Hwf' & HB' & Himb & Hsol); try done.
    set (st' := post_state _ t) in *.
    rewrite (commit_ok (with_writer wr' (with_cache c' e)) t st') by done. msimpl. rewrite (complete_ok a v) by done. msimpl.
    destruct (after_commit_rest (with_writer wr' (with_cache c' e)) st') as (E1 & E2 & E3 & E4 & _).
    exists seen, c', LedgerError.None, (after_commit (with_writer wr' (with_cache c' e)) st'), w', nd', lru', free'.
    rewrite after_commit_working, E2. simpl in *. subst r. rewrite Hwr.
    split_and!; try done; [by econstructor| |].
    + split; rewrite ?after_commit_working, ?E1, ?E2; simpl; try done. by rewrite Hwr.
    + intros Hw. split; [by apply Hrel|]. by intros [?|?].
  - rewrite (complete_ok a v) by done. msimpl.
    exists seen, c', r, (with_writer wr' (with_cache c' e)), w', nd', lru', free'.
    simpl in *. rewrite Hwr.
    split_and!; try done; [by econstructor|]. intros Hw. destruct (Hrel Hw) as [_ ->]. by destruct Hr.
Qed.
End Request.

(** One request, in every environment. *)
Lemma process_request_spec cap B e lru free r a v s w i nd :
  engine_ok cap B e lru free → tx_ok (tx r) → completion r = Some a → s !! a = Some v →
  B + gross (tx r) ≤ INT64_MAX → open_on (view w) (fd_ (wal_writer_ e)) true true i nd →
  handled cap B e lru a (tx r) s w i nd (process_request hash64 r e s w).
Proof.
  intros Hok Htx Hcmp Hslot Hroom Hon. set (t := tx r) in *. pose proof Hok as [Hcap Hrep Hwf HB _].
  destruct (check_and_insert_refines hash64 cap _ lru free (idempotency_key t) Hcap Hrep)
    as (seen & c' & lru' & free' & Hchk & Hrep' & Hlru).
  unfold process_request. fold t. msimpl. rewrite Hchk. msimpl. rewrite Hcmp.
  destruct seen.
  { eapply handled_refused; [done..|by constructor|by intros [?|?]]. }
  pose proof (validate_transaction_shape_verdict t) as Hsv.
  destruct (decide (validate_transaction_shape t = LedgerError.None)) as [Hs|Hs]; cycle 1.
  { unfold has_value at 1. rewrite bool_decide_false by done. cbv iota beta delta [negb].
    eapply handled_refused; [done..|by constructor|].
    apply (verdict_not_log_failure t (λ _, None)). by left. }
  rewrite Hs. cbv iota beta delta [negb has_value].
  destruct (within_headroom B _ t HB Hs Hroom) as [_ Hproj].
  change (working_copy (state_ (with_cache c' e))) with (working_copy (state_ e)).
  destruct (against_verdict_ex (find_account (working_copy (state_ e))) (tx_legs t)) as [err Herr].
  pose proof Herr as Hval. apply (validate_against_state_verdict t) in Hval; [|done|by apply state_wf_lookup|done].
  rewrite bool_decide_true by done. cbv iota. msimpl.
  rewrite Hval. msimpl. destruct (decide (err = LedgerError.None)) as [->|Hne].
  - by apply (handled_logged cap B e lru free a v t s w i nd false c' lru' free').
  - rewrite bool_decide_false by done. cbv iota.
    eapply handled_refused; [done..|by econstructor|].
    eapply verdict_not_log_failure. right. exact Herr.
Qed.

(** The writer's loop body, on one request, in whatever environment: it
    returns and answers the completion slot with [done] set; a duplicate, a
    malformed and a refused transaction change nothing but the cache; otherwise
    the record goes to the log first, and only after it has been written (and
    synchronised, in that mode) is the transaction applied.  The invariant of
    the engine, the balance of the books and the overdraft floors are kept. *)
Theorem process_request_outcome cap B e lru free r a v s w i nd :
  engine_ok cap B e lru free → tx_ok (tx r) → completion r = Some a → s !! a = Some v →
  B + gross (tx r) ≤ INT64_MAX → open_on (view w) (fd_ (wal_writer_ e)) true true i nd →
  handled cap B e lru a (tx r) s w i nd (process_request hash64 r e s w).
Proof. apply process_request_spec. Qed.
End Spec.
End Outcome.

(** ** The ledger the engine implements *)

(** One transaction, on the keys remembered (the latest first) and the ledger:
    the answer, the bytes added to the log, and keys and ledger after it.  The
    only choice is whether the log can be written. *)
Inductive ledger_step (cap : nat) (keys : list IdempotencyKey) (st : LedgerState) (t : Transaction) :
    LedgerError → list byte → list IdempotencyKey → LedgerState → Prop :=
  | step_duplicate keys' :
      lru_check cap (idempotency_key t) keys = (true, keys') →
      ledger_step cap keys st t LedgerError.DuplicateTransaction [] keys' st
  | step_bad_shape err keys' :
      lru_check cap (idempotency_key t) keys = (false, keys') →
      shape_verdict (tx_legs t) err → err ≠ LedgerError.None →
      ledger_step cap keys st t err [] keys' st
  | step_refused err keys' :
      lru_check cap (idempotency_key t) keys = (false, keys') → shape_valid t →
      against_verdict (find_account st) (tx_legs t) err → err ≠ LedgerError.None →
      ledger_step cap keys st t err [] keys' st
  | step_not_logged err keys' ts k :
      lru_check cap (idempotency_key t) keys = (false, keys') → shape_valid t →
      against_verdict (find_account st) (tx_legs t) LedgerError.None → log_failure err →
      ledger_step cap keys st t err (take k (record_bytes t ts)) keys' st
  | step_committed keys' ts :
      lru_check cap (idempotency_key t) keys = (false, keys') → shape_valid t →
      against_verdict (find_account st) (tx_legs t) LedgerError.None → s64_ok ts →
      ledger_step cap keys st t LedgerError.None (record_bytes t ts) keys' (post_state st t).

Inductive ledger_run (cap : nat) : list IdempotencyKey → LedgerState → list Transaction →
    list LedgerError → list byte → list IdempotencyKey → LedgerState → Prop :=
  | run_nil keys st : ledger_run cap keys st [] [] [] keys st
  | run_cons keys st t err chunk keys1 st1 ts errs chunks keys2 st2 :
      ledger_step cap keys st t err chunk keys1 st1 →
      ledger_run cap keys1 st1 ts errs chunks keys2 st2 →
      ledger_run cap keys st (t :: ts) (err :: errs) (chunk ++ chunks) keys2 st2.


Lemma append_result_more wr nd rec r wr' nd' :
  append_result wr nd rec r wr' nd' →
  sync_mode_ wr' = sync_mode_ wr ∧ (r ≠ LedgerError.None → log_failure r).
Proof. unfold log_failure. intros [k Hk|Hm|Hm|Hm]; naive_solver. Qed.

(** A processed request is a step of the ledger; a log that was entirely durable
    stays so in the mode that synchronises every write. *)
Lemma processed_step cap seen c' e t nd err e' nd' keys keys' :
  processed seen c' e t nd err e' nd' →
  lru_check cap (idempotency_key t) keys = (seen, keys') →
  ∃ chunk, ledger_step cap keys (working_copy (state_ e)) t err chunk keys' (working_copy (state_ e')) ∧
    cur nd' = cur nd ++ chunk ∧ sync_mode_ (wal_writer_ e') = sync_mode_ (wal_writer_ e) ∧
    (sync_mode_ (wal_writer_ e) = SyncEveryWrite → ¬ log_failure err → stable nd = cur nd →
     stable nd' = cur nd').
Proof.
  intros Hp Hlru. destruct Hp as [->|err -> Hv Hne|err -> Hs Hv Hne|err wr' ts nd' -> Hs Hv Hne Hres|
    wr' ts nd' -> Hs Hts Hv Hres].
  - exists []. rewrite app_nil_r. by split_and!; [constructor|..].
  - exists []. rewrite app_nil_r. by split_and!; [constructor|..].
  - exists []. rewrite app_nil_r. by split_and!; [econstructor|..].
  - destruct (append_result_inv _ _ _ _ _ _ Hres) as (k & _ & Hcur & _).
    destruct (append_result_more _ _ _ _ _ _ Hres) as [Hm Hf].
    exists (take k (record_bytes t ts)). split_and!; [econstructor; auto|done|done|]. naive_solver.
  - destruct (append_result_inv _ _ _ _ _ _ Hres) as (_ & _ & _ & Hok & _).
    destruct (append_result_more _ _ _ _ _ _ Hres) as [Hm _].
    destruct (Hok eq_refl) as (Hcur & _ & Hst).
    destruct (after_commit_rest (with_writer wr' (with_cache c' e)) (post_state (working_copy (state_ e)) t))
      as (_ & -> & _). rewrite after_commit_working.
    exists (record_bytes t ts). split_and!; [by constructor|done|done|auto].
Qed.

(** ** The published state *)

(** The published state lags behind the working copy by the accepted transactions
    counted since the last publication, fewer than the configured number. *)
Definition published_lag (e : LedgerEngine) : Prop :=
  ∃ l, working_copy (state_ e) = foldl post_state (engine_snapshot e) l ∧
    Z.of_nat (length l) = processed_since_publish_ e ∧
    (l = [] ∨ Z.of_nat (length l) < publish_snapshot_every_n (config_ e)).

Lemma after_commit_lag e t :
  u64_ok (publish_snapshot_every_n (config_ e)) → published_lag e →
  published_lag (after_commit e (post_state (working_copy (state_ e)) t)).
Proof.
  intros Hn (l & Hw & Hl & Hlt). unfold after_commit, published_lag. rewrite <- Hl.
  destruct (decide (publish_snapshot_every_n (config_ e) ≤ wrap64 (Z.of_nat (length l) + 1))) as [Hp|Hp];
    [rewrite bool_decide_true by done; exists []; by split_and!; [..|left]|].
  rewrite bool_decide_false by done. destruct Hlt as [->|Hlt]; simpl in Hp |- *.
  - exists [t]. split_and!; [by rewrite Hw|done|right]. simpl in *. rewrite wrap64_id in Hp by range_lia. lia.
  - rewrite wrap64_id in Hp |- * by range_lia. exists (l ++ [t]). rewrite foldl_app, length_app.
    split_and!; [simpl; by rewrite Hw|simpl; lia|right; simpl; lia].
Qed.

Lemma processed_lag seen c' e t nd err e' nd' :
  processed seen c' e t nd err e' nd' → u64_ok (publish_snapshot_every_n (config_ e)) →
  published_lag e → published_lag e'.
Proof.
  intros [| | | |wr' ts nd1] Hn Hlag; try exact Hlag.
  by apply (after_commit_lag (with_writer wr' (with_cache c' e)) t).
Qed.

(** The writer's offset is the length of the log. *)
Definition offset_right (wr : BinaryWalWriter) (nd : inode) : Prop :=
  offset_ wr = wrap64 (Z.of_nat (length (cur nd))).

Lemma processed_offset seen c' e t nd err e' nd' :
  processed seen c' e t nd err e' nd' → ¬ log_failure err →
  offset_right (wal_writer_ e) nd → offset_right (wal_writer_ e') nd'.
Proof.
  intros [| | |err' wr' ts nd1 _ _ _ Hne Ha|wr' ts nd1 _ _ _ _ Ha] Hno Ho; try exact Ho.
  - destruct (append_result_inv _ _ _ _ _ _ Ha) as (k & _ & _ & _ & Hf). destruct Hno.
    destruct (Hf Hne) as [[-> _]|[-> _]]; [by left|by right].
  - destruct (append_result_inv _ _ _ _ _ _ Ha) as (k & _ & _ & Hf & _). destruct (Hf eq_refl) as (Hc & Hof & _).
    unfold offset_right in *. destruct (after_commit_rest (with_writer wr' (with_cache c' e)) (post_state (working_copy (state_ e)) t)) as (_ & -> & _).
    simpl. rewrite Hof, Ho, Hc, length_app, Nat2Z.inj_add. unfold wrap64. by rewrite Zplus_mod_idemp_l.
Qed.

(** What the writer does not hold for unsynchronised is durable. *)
Definition flushed (wr : BinaryWalWriter) (nd : inode) : Prop :=
  dirty_since_sync_ wr = false → stable nd = cur nd.

Lemma processed_flushed seen c' e t nd err e' nd' :
  processed seen c' e t nd err e' nd' → ¬ log_failure err →
  flushed (wal_writer_ e) nd → flushed (wal_writer_ e') nd'.
Proof.
  intros [| | |err' wr' ts nd1 _ _ _ Hne Ha|wr' ts nd1 _ _ _ _ Ha] Hno Ho; try exact Ho.
  - destruct (append_result_inv _ _ _ _ _ _ Ha) as (k & _ & _ & _ & Hf). destruct Hno.
    destruct (Hf Hne) as [[-> _]|[-> _]]; [by left|by right].
  - destruct (after_commit_rest (with_writer wr' (with_cache c' e)) (post_state (working_copy (state_ e)) t)) as (_ & -> & _).
    unfold flushed. simpl. by inversion Ha.
Qed.

(** ** How much a transaction can move in all *)

Lemma volume_leg m ls l :
  map_zsum (λ a, Z.abs (balance a)) (post_accounts (l :: ls) m) ≤
  map_zsum (λ a, Z.abs (balance a)) (post_accounts ls m) + Z.abs (amount l).
Proof.
  destruct (m !! account_id l) as [a|] eqn:Ha.
  - rewrite <- (post_accounts_cons l ls m a Ha).
    assert (post_accounts ls m !! account_id l = Some (post_account ls (account_id l) a)) as Hp
      by (by rewrite lookup_post_accounts, Ha).
    assert (post_accounts ls (<[account_id l := leg_account l a]> m) =
      <[account_id l := post_account ls (account_id l) (leg_account l a)]> (post_accounts ls m)) as ->.
    { apply map_eq. intros i. rewrite lookup_post_accounts. destruct (decide (account_id l = i)) as [<-|Hne].
      - by rewrite !lookup_insert_eq.
      - by rewrite !lookup_insert_ne, lookup_post_accounts by done. }
    rewrite (map_zsum_insert_old _ _ _ _ _ Hp). cbn [balance post_account set_balance].
    unfold projected, leg_account, leg_value. cbn [balance set_balance type].
    destruct (direction l), (is_debit_normal (type a)) eqn:Hn; unfold normal_sign; cbn [type set_balance dir_sign];
      rewrite ?Hn; lia.
  - assert (post_accounts (l :: ls) m = post_accounts ls m) as ->; [|lia].
    apply map_eq. intros i. rewrite !lookup_post_accounts. destruct (m !! i) as [a|] eqn:Hi; [|done].
    simpl. unfold post_account. rewrite projected_cons_ne; [done|]. congruence.
Qed.

Lemma volume_post st t : shape_valid t → volume (post_state st t) ≤ volume st + 2 * gross t.
Proof.
  intros Hs. destruct (gross_shape t Hs) as (-> & Hc & Hp).
  assert (volume (post_state st t) ≤ volume st + (debits (tx_legs t) + credits (tx_legs t))); [|lia].
  clear Hc Hs. unfold volume, post_state. cbn [accounts_]. induction (tx_legs t) as [|l ls IH].
  { rewrite post_accounts_nil. unfold debits, credits. simpl. lia. }
  pose proof (volume_leg (accounts_ st) ls l). apply Forall_cons in Hp as [Hl Hp]. specialize (IH Hp).
  assert (debits (l :: ls) + credits (l :: ls) = amount l + (debits ls + credits ls)) as ->; [|lia].
  unfold debits, credits. csimpl. destruct (direction l); lia.
Qed.
