(* ===== verification/EngineRun.v ===== *)
(** * Runs of the engine

    The event loop over a whole batch of requests refines the abstract ledger of
    [EngineSpec]; the log it writes determines its in-memory state, so that a
    crash followed by recovery gives that state back. *)

From Stdlib Require Import Sorted.
From S2P Require Import Prelude Types Validation LedgerState Crc32 WalCodec Posix WalWriter.
From S2P Require Import WalReader Snapshot SnapshotWrite Recovery Idempotency RingBuffer Engine EngineSpec.

(** ** Batches *)

(** A request that can be worked on: its values are in range and its completion
    slot exists. *)
Definition request_ok (s : slots) (r : PendingRequest) : Prop :=
  tx_ok (tx r) ∧ from_option (λ a, is_Some (s !! a)) False (completion r).

(** The completion slots after the requests [rs] were answered with [errs]. *)
Fixpoint answer_slots (s : slots) (rs : list PendingRequest) (errs : list LedgerError) : slots :=
  match rs, errs with
  | r :: rs, err :: errs =>
      let s := match completion r with
               | Some a => <[a := mkCompletion true err]> s
               | None => s
               end in
      answer_slots s rs errs
  | _, _ => s
  end.

Definition total_gross (rs : list PendingRequest) : Z := zsum ((λ r, gross (tx r)) <$> rs).

Lemma total_gross_nonneg rs : 0 ≤ total_gross rs.
Proof.
  apply zsum_nonneg, Forall_fmap, Forall_true. intros r. apply gross_nonneg.
Qed.

Lemma request_ok_insert s a v r : request_ok s r → request_ok (<[a := v]> s) r.
Proof.
  unfold request_ok, slots in *. intros [Ht Hc]. split; [done|].
  destruct (completion r) as [b|]; [|done]. simpl in *.
  destruct (decide (a = b)) as [->|Hne].
  - rewrite lookup_insert_eq. by eexists.
  - by rewrite lookup_insert_ne.
Qed.

Section Run.
Variable hash64 : Z → Z.
Context {P : Posix} {L : PosixLaws P}.

(** The outcome of a batch: the requests [rs] were answered with [errs], [chunk]
    was added to the log. *)
Record batch_done (cap : nat) (p B : Z) (e : LedgerEngine) (lru : list (Z * IdempotencyKey))
    (rs rest : list PendingRequest) (w : world) (i : Z) (nd : inode)
    (errs : list LedgerError) (e' : LedgerEngine) (w' : world) : Prop := mkBatch {
  batch_step : ∃ chunk lru' free' nd',
    ledger_run cap lru.*2 (working_copy (state_ e)) (tx <$> rs) errs chunk lru'.*2
      (working_copy (state_ e')) ∧
    cur nd' = cur nd ++ chunk ∧
    engine_ok hash64 cap (B + total_gross rs) e' lru' free' ∧
    open_on (view w') (fd_ (wal_writer_ e')) true true i nd' ∧
    logged i (fd_ (wal_writer_ e)) w nd w' nd' ∧
    (sync_mode_ (wal_writer_ e) = SyncEveryWrite → Forall (λ err, ¬ log_failure err) errs →
     stable nd = cur nd → stable nd' = cur nd') ∧
    (Forall (λ err, ¬ log_failure err) errs →
     (offset_right (wal_writer_ e) nd → offset_right (wal_writer_ e') nd') ∧
     (flushed (wal_writer_ e) nd → flushed (wal_writer_ e') nd'));
  batch_ring : ring_rep p (ring_ e') rest ∧ enqueue_pos_ (ring_ e') = enqueue_pos_ (ring_ e);
  batch_writer : fd_ (wal_writer_ e') = fd_ (wal_writer_ e) ∧
    sync_mode_ (wal_writer_ e') = sync_mode_ (wal_writer_ e);
  batch_reliable : reliable w → reliable w' ∧ Forall (λ err, ¬ log_failure err) errs;
  batch_books : imbalance (working_copy (state_ e')) = imbalance (working_copy (state_ e)) ∧
    (solvent (working_copy (state_ e)) → solvent (working_copy (state_ e')));
  batch_lag : config_ e' = config_ e ∧
    (u64_ok (publish_snapshot_every_n (config_ e)) → published_lag e → published_lag e')
}.

Lemma batch_nil cap p B e lru free rb q w i nd :
  engine_ok hash64 cap B e lru free → ring_rep p rb q → enqueue_pos_ rb = enqueue_pos_ (ring_ e) →
  open_on (view w) (fd_ (wal_writer_ e)) true true i nd →
  batch_done cap p B e lru [] q w i nd [] (with_ring rb e) w.
Proof.
  intros Hok Hring Henq Hon. split; try done.
  exists [], lru, free, nd. rewrite app_nil_r.
  split_and!; [constructor|done| |done|apply logged_refl|auto|auto]. change (total_gross []) with 0. rewrite Z.add_0_r.
  by destruct Hok; split.
Qed.

Lemma process_loop_spec n count cap p B e lru free q s w i nd :
  engine_ok hash64 cap B e lru free → ring_rep p (ring_ e) q → ring_headroom p (ring_ e) →
  Forall (request_ok s) (take n q) → B + total_gross (take n q) ≤ INT64_MAX →
  open_on (view w) (fd_ (wal_writer_ e)) true true i nd →
  ∃ errs e' w',
    process_loop hash64 n count e s w =
      Some (count + Z.of_nat (length (take n q)), e', answer_slots s (take n q) errs, w') ∧
    batch_done cap p B e lru (take n q) (drop n q) w i nd errs e' w'.
Proof.
  revert count B e lru free q s w nd.
  induction n as [|n IH]; intros count B e lru free q s w nd Hok Hring Hroom Hreq HB Hon.
  { exists [], e, w. cbn [process_loop]. msimpl. rewrite take_0, drop_0. simpl. rewrite Z.add_0_r.
    split; [done|]. pose proof (batch_nil cap p B e lru free (ring_ e) q w i nd). destruct e; auto. }
  cbn [process_loop]. msimpl.
  destruct (try_pop_rep p _ q Hring Hroom) as (rb & -> & Hring' & Henq). msimpl. cbv zeta.
  destruct q as [|r q]; cbn [head tail] in *; msimpl.
  { exists [], (with_ring rb e), w. simpl. rewrite Z.add_0_r. split; [done|].
    by eapply batch_nil. }
  cbn [take drop length] in *. apply Forall_cons in Hreq as [[Htx Hslot] Hreq].
  unfold total_gross in HB. cbn [fmap list_fmap zsum foldr] in HB. fold (zsum ((λ r, gross (tx r)) <$> take n q)) in HB.
  fold (total_gross (take n q)) in HB. pose proof (total_gross_nonneg (take n q)) as Hg.
  destruct (completion r) as [a|] eqn:Hc; [|done]. destruct Hslot as [v Hv].
  destruct (process_request_spec hash64 cap B (with_ring rb e) lru free r a v s w i nd)
    as (seen & c' & err & e1 & w1 & nd1 & lru1 & free1 & Hrun & Hlru & Hp & Hok1 & Hon1 & Hfr1 & Hfd1
        & Hring1 & Hcfg1 & Hrel1 & Himb1 & Hsol1); try done; [by destruct Hok; split|lia|].
  rewrite Hrun. msimpl.
  destruct (processed_step cap _ _ _ _ _ _ _ _ lru.*2 _ Hp Hlru) as (chunk & Hstep & Hcur & Hmode & Hst).
  destruct (IH (count + 1) (B + gross (tx r)) e1 lru1 free1 q (<[a := mkCompletion true err]> s) w1 nd1)
    as (errs & e' & w' & Hloop & [Hb1 Hb2 Hb3 Hb4 Hb5 Hb6]); try done.
  { by rewrite Hring1. }
  { rewrite Hring1. unfold ring_headroom in *. simpl. by rewrite Henq. }
  { eapply Forall_impl; [exact Hreq|]. intros r'. by apply request_ok_insert. }
  { lia. }
  exists (err :: errs), e', w'. simpl answer_slots. rewrite Hc, Hloop.
  split; [do 4 f_equal; lia|].
  destruct Hb1 as (chunks & lru' & free' & nd' & Hrun' & Hcur' & Hok' & Hon' & Hlog' & Hst' & Hoff').
  rewrite Hfd1, Hring1, Hmode, Himb1 in *.
  split.
  - exists (chunk ++ chunks), lru', free', nd'. split_and!; [by econstructor|by rewrite Hcur', Hcur, app_assoc| |done|by eapply logged_trans| |].
    + unfold total_gross in *. cbn [fmap list_fmap zsum foldr]. by rewrite Z.add_assoc.
    + intros Hsync Hall Hs0. apply Forall_cons in Hall as [Herr Hall]. simpl in *. auto.
    + intros Hall. apply Forall_cons in Hall as [Herr Hall]. destruct (Hoff' Hall) as [Hoff Hfl]. split; intros Ho.
      * apply Hoff. by apply (processed_offset _ _ _ _ _ _ _ _ Hp).
      * apply Hfl. by apply (processed_flushed _ _ _ _ _ _ _ _ Hp).
  - destruct Hb2 as [? ->]. done.
  - destruct Hb3 as (-> & ->). done.
  - intros Hw. destruct (Hrel1 Hw) as [Hw1 Herr]. destruct (Hb4 Hw1). by split; [|constructor].
  - destruct Hb5. by split; [|auto].
  - destruct Hb6 as [-> Hlag]. rewrite Hcfg1 in *. split; [done|]. intros Hn Hl0.
    apply Hlag; [done|]. by apply (processed_lag _ _ _ _ _ _ _ _ Hp).
Qed.
End Run.

(** ** The log determines the state *)

Lemma replay_txs_app st l1 l2 :
  replay_txs st (l1 ++ l2) = replay_txs st l1 ≫= λ st, replay_txs st l2.
Proof.
  revert st. induction l1 as [|t l1 IH]; intros st; [done|].
  cbn [app]. rewrite !replay_txs_cons. destruct (replay_one st t); [apply IH|done].
Qed.

(** The transactions that were answered with success. *)
Fixpoint accepted (txs : list Transaction) (errs : list LedgerError) : list Transaction :=
  match txs, errs with
  | t :: txs, err :: errs =>
      if has_value err then t :: accepted txs errs else accepted txs errs
  | _, _ => []
  end.

(** A run without log failures, of transactions whose ids increase, logs exactly
    the transactions it commits, and replaying the first of them repeats the run
    up to there. *)
Lemma ledger_run_replay cap keys st txs errs chunk keys' st' B :
  ledger_run cap keys st txs errs chunk keys' st' →
  Forall (λ err, ¬ log_failure err) errs → Forall tx_ok txs →
  state_wf st → balances_within B st → B + zsum (gross <$> txs) ≤ INT64_MAX →
  StronglySorted Z.lt (last_applied_id_ st :: (id <$> txs)) →
  ∃ l, chunk = log_bytes l ∧ Forall entry_ok l ∧ l.*1 = accepted txs errs ∧
    ∀ k, let st'' := foldl post_state st (take k l.*1) in
      replay_txs st (take k l.*1) = Some st'' ∧ imbalance st'' = imbalance st.
Proof.
  intros Hrun. revert B. induction Hrun as [|keys st t err chunk keys1 st1 ts errs chunks keys2 st2 Hstep Hrun IH];
    intros B Hno Htx Hwf HB Hroom Hs; [exists []; split_and!; [done..|by intros []]|].
  apply Forall_cons in Hno as [Herr Hno]. apply Forall_cons in Htx as [Ht Htx].
  cbn [fmap list_fmap zsum foldr] in Hroom. fold (zsum (gross <$> ts)) in Hroom.
  pose proof (gross_nonneg t) as Hg. cbn [fmap list_fmap] in Hs.
  apply StronglySorted_inv in Hs as [Hs Hlt]. apply StronglySorted_inv in Hs as [Hs Hlt'].
  apply Forall_cons in Hlt as [Hid Hlt].
  assert (st1 = st → chunk = [] → err ≠ LedgerError.None →
    ∃ l, chunk ++ chunks = log_bytes l ∧ Forall entry_ok l ∧ l.*1 = accepted (t :: ts) (err :: errs) ∧
      ∀ k, let st'' := foldl post_state st (take k l.*1) in
        replay_txs st (take k l.*1) = Some st'' ∧ imbalance st'' = imbalance st) as Hskip.
  { intros -> -> Hne. cbn [accepted]. unfold has_value. rewrite bool_decide_false by done.
    apply (IH B); try done; [lia|]. by constructor. }
  inversion Hstep as [| | |? ? ? ? ? ? ? Hf|? tstamp Hlru Hshape Hv Hts]; subst; [by apply Hskip..|done|].
  assert (0 ≤ zsum (gross <$> ts)) as Hg'.
  { apply zsum_nonneg, Forall_fmap, Forall_true. apply gross_nonneg. }
  destruct (within_headroom B st t HB Hshape) as [_ Hproj]; [lia|].
  apply (validate_against_state_verdict t) in Hv; [|done|by apply state_wf_lookup|done].
  destruct (apply_post B st t) as (Ha & Hwf1 & HB1 & Himb & _); try done; [lia|].
  destruct (IH (B + gross t)) as (l & -> & Hl & Hacc & Hrep); try done; [lia| |].
  { simpl. rewrite Z.max_r by lia. by constructor. }
  exists ((t, tstamp) :: l). cbn [fmap list_fmap fst accepted]. change (has_value LedgerError.None) with true.
  split_and!; [done|by constructor|by f_equal|].
  intros [|k]; [done|]. cbn [take foldl]. cbv zeta. destruct (Hrep k) as [Hk Himb']. rewrite Himb', Himb.
  split; [|done]. rewrite replay_txs_cons. unfold replay_one.
  rewrite bool_decide_true by (unfold last_applied_id; lia). rewrite Ha. ubind. exact Hk.
Qed.

(** One step either accepts its transaction or leaves the ledger alone. *)
Lemma ledger_step_cases cap keys st t err chunk keys' st' :
  ledger_step cap keys st t err chunk keys' st' →
  (has_value err = true ∧ st' = post_state st t ∧
    lru_check cap (idempotency_key t) keys = (false, keys')) ∨
  (has_value err = false ∧ st' = st ∧ keys' = (lru_check cap (idempotency_key t) keys).2).
Proof.
  unfold has_value. destruct 1 as [keys' Hk|err keys' Hk|err keys' Hk|err keys' ts k Hk ? ? Hf|keys' ts Hk];
    rewrite ?Hk; [right|right|right|right|left]; try (by rewrite bool_decide_false); [|done].
  by destruct Hf as [-> | ->].
Qed.

(** The ledger is moved by the accepted transactions alone. *)
Lemma ledger_run_state cap keys st txs errs chunk keys' st' :
  ledger_run cap keys st txs errs chunk keys' st' →
  length errs = length txs ∧ st' = foldl post_state st (accepted txs errs).
Proof.
  induction 1 as [|keys st t err chunk keys1 st1 ts errs chunks keys2 st2 Hstep _ [Hlen ->]]; [done|].
  split; [simpl; lia|]. cbn [accepted].
  by destruct (ledger_step_cases _ _ _ _ _ _ _ _ Hstep) as [(-> & -> & _)|(-> & -> & _)].
Qed.

Lemma lru_check_keeps cap k l k' :
  (length l < cap)%nat → k' ∈ k :: l → k' ∈ (lru_check cap k l).2.
Proof.
  intros Hlen Hin. unfold lru_check. case_decide as Hk; simpl.
  - destruct (decide (k' = k)) as [->|Hne]; [by left|]. right. apply list_elem_of_filter.
    apply elem_of_cons in Hin as [?|?]; done.
  - by rewrite take_ge by (simpl; lia).
Qed.

Lemma lru_check_length cap k l : (length (lru_check cap k l).2 ≤ S (length l))%nat.
Proof.
  unfold lru_check. case_decide; simpl.
  - pose proof (length_filter (λ k', k' ≠ k) l). lia.
  - rewrite length_take. simpl. lia.
Qed.

(** As long as no key has been evicted, no key is accepted twice. *)
Lemma ledger_run_once cap keys st txs errs chunk keys' st' :
  ledger_run cap keys st txs errs chunk keys' st' → (length keys + length txs ≤ cap)%nat →
  NoDup (idempotency_key <$> accepted txs errs) ∧
  ∀ t, t ∈ accepted txs errs → idempotency_key t ∉ keys.
Proof.
  induction 1 as [|keys st t err chunk keys1 st1 ts errs chunks keys2 st2 Hstep _ IH];
    intros Hlen; [split; [constructor|by intros t ?%elem_of_nil]|].
  cbn [length] in Hlen. pose proof (lru_check_length cap (idempotency_key t) keys) as Hl.
  assert (keys1 = (lru_check cap (idempotency_key t) keys).2) as Hk1.
  { by destruct (ledger_step_cases _ _ _ _ _ _ _ _ Hstep) as [(_ & _ & ->)|(_ & _ & ->)]. }
  destruct IH as [Hnd Hnew]; [rewrite Hk1; lia|].
  assert (∀ t', t' ∈ accepted ts errs → idempotency_key t' ∉ idempotency_key t :: keys) as Hnew'.
  { intros t' Ht' Hin. apply (Hnew t' Ht'). rewrite Hk1. apply lru_check_keeps; [lia|done]. }
  assert (∀ t', t' ∈ accepted ts errs → idempotency_key t' ∉ keys) as Hnew''.
  { intros t' Ht' Hin. apply (Hnew' t' Ht'). by right. }
  cbn [accepted]. destruct (ledger_step_cases _ _ _ _ _ _ _ _ Hstep) as [(-> & _ & Hc)|(-> & _)]; [|done].
  assert (idempotency_key t ∉ keys) as Ht by (unfold lru_check in Hc; by case_decide).
  split.
  - cbn [fmap list_fmap]. constructor; [|done]. intros (t' & Heq & Ht')%list_elem_of_fmap.
    apply (Hnew' t' Ht'). rewrite Heq. by left.
  - intros t' [->|Ht']%elem_of_cons; auto.
Qed.

(** The records of the log [nd] behind the prefix [pre] lead from [base] to the
    engine's state. *)
Definition log_agrees (base : LedgerState) (pre : list byte) (nd : inode) (st : LedgerState) : Prop :=
  ∃ l, cur nd = pre ++ log_bytes l ∧ Forall entry_ok l ∧ replay_txs base l.*1 = Some st.

Lemma log_agrees_extend base pre nd st l nd' st' :
  log_agrees base pre nd st → cur nd' = cur nd ++ log_bytes l → Forall entry_ok l →
  replay_txs st l.*1 = Some st' → log_agrees base pre nd' st'.
Proof.
  intros (l0 & Hcur & Hok & Hrep) Hcur' Hl Hrep'. exists (l0 ++ l). split_and!.
  - by rewrite Hcur', Hcur, log_bytes_app, app_assoc.
  - by apply Forall_app.
  - by rewrite fmap_app, replay_txs_app, Hrep.
Qed.

(** A batch without log failures keeps them in step. *)
Lemma ledger_run_agrees cap keys st txs errs chunk keys' st' B base pre nd nd' :
  ledger_run cap keys st txs errs chunk keys' st' → Forall (λ err, ¬ log_failure err) errs →
  Forall tx_ok txs → state_wf st → balances_within B st → B + zsum (gross <$> txs) ≤ INT64_MAX →
  StronglySorted Z.lt (last_applied_id_ st :: (id <$> txs)) →
  log_agrees base pre nd st → cur nd' = cur nd ++ chunk → log_agrees base pre nd' st'.
Proof.
  intros Hl Hno Htx Hwf HB Hg Hids Hlog Hcur.
  destruct (ledger_run_replay _ _ _ _ _ _ _ _ B Hl Hno) as (l & -> & Hl' & Hacc & Hrep); try done.
  eapply log_agrees_extend; [done|done|done|]. destruct (Hrep (length l.*1)) as [Hr _].
  rewrite take_ge in Hr by done. rewrite Hr, Hacc. f_equal. symmetry. by eapply ledger_run_state.
Qed.

(** A complete snapshot and a complete log, both durable and under durable names. *)
Record on_disk (f : fs) (wal sp : string) (i j : Z) (base : LedgerState) (pre : list byte) : Prop :=
  mkOnDisk {
  disk_wal : dir f !! wal = Some i ∧ sdir f !! wal = Some i;
  disk_snapshot : dir f !! sp = Some j ∧ sdir f !! sp = Some j;
  disk_distinct : i ≠ j;
  disk_base : ∃ c, files f !! j = Some (mkInode c c) ∧
    parse_snapshot c = Value (mkLoaded base (Z.of_nat (length pre)))
}.

Lemma on_disk_frame f f' d wal sp i j base pre :
  frame i d f f' → on_disk f wal sp i j base pre → on_disk f' wal sp i j base pre.
Proof.
  intros (Hdir & Hsdir & _ & Hfiles & _) [Hw Hs Hij (c & Hc & Hp)].
  split; rewrite ?Hdir, ?Hsdir; try done. exists c. by rewrite Hfiles.
Qed.

Section Durability.
Context {P : Posix} {L : PosixLaws P}.

(** A crash leaves such a disk, and recovery finds the state on it. *)
Lemma recover_after_crash f w wal sp i j base pre nd st visit fuel :
  on_disk f wal sp i j base pre → files f !! i = Some nd → stable nd = cur nd →
  log_agrees base pre nd st → imbalance st = 0 → volume st ≤ INT64_MAX → iterates st (visit st) →
  crash f (view w) → reliable w →
  Z.of_nat (length (cur nd)) + 2048 ≤ INT64_MAX → (length (cur nd) < fuel)%nat →
  ∃ w', recover fuel visit wal sp w =
    Some (Some (Value (mkRecovered st (Z.of_nat (length (cur nd))))), w') ∧ view w' = view w.
Proof.
  intros [[Hw Hw'] [Hs Hs'] Hij (c & Hc & Hp)] Hi Hst (l & Hcur & Hok & Hrep) Himb Hvol Hvis
    (Hnames & Hfiles & _) Hrel Hlen Hfuel.
  assert (dir (view w) !! wal = Some i) as Hwal by (destruct (Hnames wal) as [-> | ->]; done).
  assert (dir (view w) !! sp = Some j) as Hsp by (destruct (Hnames sp) as [-> | ->]; done).
  assert (files (view w) !! i = Some nd) as Hnd.
  { destruct nd as [a b]. simpl in *. subst b. by apply Hfiles. }
  pose proof (length_log_bytes_le l) as Hll.
  destruct (recover_records visit wal sp w base (Z.of_nat (length pre)) i nd pre l [] st fuel)
    as (w' & nd' & Hrun & _ & Hv & _ & _ & Hnd'); try done.
  - right. exists j, (mkInode c c). split_and!; [done|by apply Hfiles|done].
  - by rewrite Hcur, app_nil_r.
  - rewrite Hcur, length_app in Hfuel. lia.
  - rewrite (trial_balance_value st) by done. unfold trial_verdict. by rewrite decide_True.
  - exists w'. rewrite Hcur, Hrun. split; [done|]. by rewrite Hv, Hnd', set_file_id.
Qed.
End Durability.

(** ** What the engine guarantees *)

Section Guarantees.
Variable hash64 : Z → Z.
Context {P : Posix} {L : PosixLaws P}.

(** C5: Whatever the environment does, [process_pending] returns, takes the first
    [n] requests off the queue in their order, answers each of them in its
    completion slot, and behaves as the abstract ledger does on their
    transactions: the answers, the keys remembered, the state and the bytes added
    to the log are those of [ledger_run].  If the environment does not fail, no
    answer is a log failure. *)
Theorem process_pending_refines n cap p B e lru free q s w i nd :
  engine_ok hash64 cap B e lru free → ring_rep p (ring_ e) q → ring_headroom p (ring_ e) →
  Forall (request_ok s) (take n q) → B + total_gross (take n q) ≤ INT64_MAX →
  open_on (view w) (fd_ (wal_writer_ e)) true true i nd →
  ∃ errs e' w' chunk lru' free' nd',
    process_pending hash64 n e s w =
      Some (Z.of_nat (length (take n q)), e', answer_slots s (take n q) errs, w') ∧
    ledger_run cap lru.*2 (working_copy (state_ e)) (tx <$> take n q) errs chunk lru'.*2
      (working_copy (state_ e')) ∧
    rep hash64 cap (idempotency_ e') lru' free' [] ∧ ring_rep p (ring_ e') (drop n q) ∧
    open_on (view w') (fd_ (wal_writer_ e')) true true i nd' ∧ cur nd' = cur nd ++ chunk ∧
    frame i (fd_ (wal_writer_ e)) (view w) (view w') ∧
    (reliable w → Forall (λ err, ¬ log_failure err) errs).
Proof.
  intros Hok Hring Hroom Hreq HB Hon.
  destruct (process_loop_spec hash64 n 0 cap p B e lru free q s w i nd)
    as (errs & e' & w' & Hrun & [Hb1 [Hb2 _] _ Hb4 _ _]); try done.
  destruct Hb1 as (chunk & lru' & free' & nd' & Hl & Hcur & [_ Hrep _ _ _] & Hon' & [Hfr _] & _).
  exists errs, e', w', chunk, lru', free', nd'. split_and!; try done.
  intros Hw. by apply Hb4.
Qed.

(** C6: Whatever the environment does, processing keeps the books: the state stays
    well formed, the trial balance is the one before, no debit-normal account is
    driven below its floor, and no balance grows by more than what was moved, so
    that no intermediate sum overflows. *)
Theorem process_pending_keeps_books n cap p B e lru free q s w i nd :
  engine_ok hash64 cap B e lru free → ring_rep p (ring_ e) q → ring_headroom p (ring_ e) →
  Forall (request_ok s) (take n q) → B + total_gross (take n q) ≤ INT64_MAX →
  open_on (view w) (fd_ (wal_writer_ e)) true true i nd →
  ∃ count e' s' w', process_pending hash64 n e s w = Some (count, e', s', w') ∧
    let st := working_copy (state_ e) in let st' := working_copy (state_ e') in
    state_wf st' ∧ imbalance st' = imbalance st ∧ (solvent st → solvent st') ∧
    balances_within (B + total_gross (take n q)) st'.
Proof.
  intros Hok Hring Hroom Hreq HB Hon.
  destruct (process_loop_spec hash64 n 0 cap p B e lru free q s w i nd)
    as (errs & e' & w' & Hrun & [Hb1 _ _ _ [Himb Hsol] _]); try done.
  destruct Hb1 as (chunk & lru' & free' & nd' & _ & _ & [_ _ Hwf Hwithin _] & _).
  do 4 eexists. split; [exact Hrun|]. by split_and!.
Qed.

(** C1: Acknowledged transactions survive a crash, when no system call fails.  The engine
    synchronises every write, snapshot and log are durable, and replaying the log on the
    snapshot gives the engine's state.  Process a batch of requests with ids that
    increase from the last one applied, crash at any later moment, and recover: the
    recovered state is exactly the engine's in-memory state after the batch, with every
    transaction of the batch that was answered with success and none of the others, and
    the log is kept in full.  With failing calls it need not be so:
    [failed_sync_is_replayed], [short_write_loses_later_records]. *)
Theorem commits_survive_crash n cap p B e lru free q s w i nd wal sp j base pre :
  engine_ok hash64 cap B e lru free → ring_rep p (ring_ e) q → ring_headroom p (ring_ e) →
  Forall (request_ok s) (take n q) → B + total_gross (take n q) ≤ INT64_MAX →
  open_on (view w) (fd_ (wal_writer_ e)) true true i nd →
  sync_mode_ (wal_writer_ e) = SyncEveryWrite → reliable w → stable nd = cur nd →
  on_disk (view w) wal sp i j base pre → log_agrees base pre nd (working_copy (state_ e)) →
  imbalance (working_copy (state_ e)) = 0 →
  StronglySorted Z.lt (last_applied_id_ (working_copy (state_ e)) :: (id ∘ tx <$> take n q)) →
  ∃ errs e' w' chunk keys nd',
    process_pending hash64 n e s w =
      Some (Z.of_nat (length (take n q)), e', answer_slots s (take n q) errs, w') ∧
    ledger_run cap lru.*2 (working_copy (state_ e)) (tx <$> take n q) errs chunk keys
      (working_copy (state_ e')) ∧
    working_copy (state_ e') =
      foldl post_state (working_copy (state_ e)) (accepted (tx <$> take n q) errs) ∧
    files (view w') !! i = Some nd' ∧ cur nd' = cur nd ++ chunk ∧
    ∀ w2 visit fuel,
      crash (view w') (view w2) → reliable w2 →
      (∀ st, iterates st (visit st)) → volume (working_copy (state_ e')) ≤ INT64_MAX →
      Z.of_nat (length (cur nd')) + 2048 ≤ INT64_MAX → (length (cur nd') < fuel)%nat →
      ∃ w3, recover fuel visit wal sp w2 =
          Some (Some (Value (mkRecovered (working_copy (state_ e'))
                               (Z.of_nat (length (cur nd'))))), w3) ∧
        view w3 = view w2.
Proof.
  intros Hok Hring Hroom Hreq HB Hon Hsync Hrel Hst Hdisk Hlog Himb Hids.
  destruct (process_loop_spec hash64 n 0 cap p B e lru free q s w i nd)
    as (errs & e' & w' & Hrun & [Hb1 _ _ Hb4 [Himb' _] _]); try done.
  destruct Hb1 as (chunk & lru' & free' & nd' & Hl & Hcur & _ & (pos & _ & Hi') & [Hfr _] & Hst' & _).
  destruct (Hb4 Hrel) as [_ Hno]. exists errs, e', w', chunk, lru'.*2, nd'.
  split_and!; [done|done|by eapply ledger_run_state|done|done|].
  intros w2 visit fuel Hcrash Hrel2 Hvis Hvol Hlen Hfuel.
  apply (recover_after_crash (view w') w2 wal sp i j base pre); try done; [by eapply on_disk_frame|auto| |by rewrite Himb'].
  eapply ledger_run_agrees; [exact Hl|done| |apply Hok|apply Hok| | |done|done].
  - apply Forall_fmap. eapply Forall_impl; [exact Hreq|]. by intros r [? _].
  - unfold total_gross in HB. by rewrite <- list_fmap_compose.
  - by rewrite <- list_fmap_compose.
Qed.

(** C7: No transaction is applied twice: when the batch and the keys remembered
    before it fit into the cache, no two transactions answered with success carry
    the same idempotency key, and none carries a key seen before. *)
Theorem process_pending_exactly_once n cap p B e lru free q s w i nd :
  engine_ok hash64 cap B e lru free → ring_rep p (ring_ e) q → ring_headroom p (ring_ e) →
  Forall (request_ok s) (take n q) → B + total_gross (take n q) ≤ INT64_MAX →
  open_on (view w) (fd_ (wal_writer_ e)) true true i nd →
  (length lru + length (take n q) ≤ cap)%nat →
  ∃ errs e' w', process_pending hash64 n e s w =
      Some (Z.of_nat (length (take n q)), e', answer_slots s (take n q) errs, w') ∧
    length errs = length (take n q) ∧
    let applied := accepted (tx <$> take n q) errs in
    working_copy (state_ e') = foldl post_state (working_copy (state_ e)) applied ∧
    NoDup (idempotency_key <$> applied) ∧ ∀ t, t ∈ applied → idempotency_key t ∉ lru.*2.
Proof.
  intros Hok Hring Hroom Hreq HB Hon Hfit.
  destruct (process_loop_spec hash64 n 0 cap p B e lru free q s w i nd)
    as (errs & e' & w' & Hrun & [Hb1 _ _ _ _ _]); try done.
  destruct Hb1 as (chunk & lru' & free' & nd' & Hl & _).
  destruct (ledger_run_state _ _ _ _ _ _ _ _ Hl) as [Hlen Hst]. rewrite length_fmap in Hlen.
  destruct (ledger_run_once _ _ _ _ _ _ _ _ Hl) as [Hnd Hnew]; [by rewrite !length_fmap|].
  exists errs, e', w'. by split_and!.
Qed.

(** What readers see is never far behind: if the published state lags the
    working copy by fewer accepted transactions than the configured number before
    a batch, then so it does after it, and applying the missing ones to the
    published state gives the working copy. *)
Theorem published_state_lag n cap p B e lru free q s w i nd :
  engine_ok hash64 cap B e lru free → ring_rep p (ring_ e) q → ring_headroom p (ring_ e) →
  Forall (request_ok s) (take n q) → B + total_gross (take n q) ≤ INT64_MAX →
  open_on (view w) (fd_ (wal_writer_ e)) true true i nd →
  u64_ok (publish_snapshot_every_n (config_ e)) → published_lag e →
  ∃ count e' s' w', process_pending hash64 n e s w = Some (count, e', s', w') ∧ published_lag e' ∧
    publish_snapshot_every_n (config_ e') = publish_snapshot_every_n (config_ e).
Proof.
  intros Hok Hring Hroom Hreq HB Hon Hn Hlag.
  destruct (process_loop_spec hash64 n 0 cap p B e lru free q s w i nd)
    as (errs & e' & w' & Hrun & [_ _ _ _ _ [Hcfg Hlag']]); try done.
  do 4 eexists. split; [exact Hrun|]. split; [auto|by rewrite Hcfg].
Qed.

Lemma submit_ok t c v p e q s w :
  ring_rep p (ring_ e) q → ring_headroom p (ring_ e) → s !! c = Some v →
  ∃ now rb w',
    let room := bool_decide (Z.of_nat (length q) < 2 ^ p) in
    let request := mkRequest (mkTx (id t) (idempotency_key t) now (legs t)) (Some c) in
    submit t c e s w =
      Some (if room then LedgerError.None else LedgerError.QueueFull, with_ring rb e,
            <[c := mkCompletion false (error v)]> s, w') ∧
    ring_rep p rb (if room then q ++ [request] else q) ∧ clock_gives w now ∧ view w' = view w ∧
    dequeue_pos_ rb = dequeue_pos_ (ring_ e) ∧ (reliable w → reliable w') ∧ history w' = history w ++ [view w'].
Proof.
  intros Hring Hroom Hc. unfold submit. msimpl.
  destruct (monotonic_now_ok w) as (now & w' & Hclock & Hs64 & Hv & Hrel & Hh).
  assert (clock_gives w now) as Hnow by (split; [done|by exists w']). rewrite Hclock. msimpl.
  unfold write_slot. ubind. rewrite Hc. msimpl. ubind. msimpl.
  destruct (try_push_rep p (ring_ e) q (mkRequest (mkTx (id t) (idempotency_key t) now (legs t)) (Some c))
    Hring Hroom) as (rb & -> & Hring' & Hdeq). msimpl.
  exists now, rb, w'. by case_bool_decide.
Qed.

(** C38: [submit] stamps the transaction with the monotonic clock, clears the done
    flag of its completion slot, and enqueues it behind the requests already
    there; if the queue is full it reports [QueueFull] and the queue is as before.
    Nothing else of the engine, and nothing on disk, changes. *)
Theorem submit_spec t c v p e q s w :
  ring_rep p (ring_ e) q → ring_headroom p (ring_ e) → s !! c = Some v →
  ∃ now rb w',
    let room := bool_decide (Z.of_nat (length q) < 2 ^ p) in
    let request := mkRequest (mkTx (id t) (idempotency_key t) now (legs t)) (Some c) in
    submit t c e s w =
      Some (if room then LedgerError.None else LedgerError.QueueFull, with_ring rb e,
            <[c := mkCompletion false (error v)]> s, w') ∧
    ring_rep p rb (if room then q ++ [request] else q) ∧ clock_gives w now ∧ view w' = view w.
Proof.
  intros Hring Hroom Hc. destruct (submit_ok t c v p e q s w Hring Hroom Hc)
    as (now & rb & w' & Hrun & Hrep & Hnow & Hv & _). by exists now, rb, w'.
Qed.

(** A freshly constructed engine whose log opens is ready: its cache is empty,
    its queue is empty, its ledger is empty and balanced, and its writer is
    positioned at the end of the log; if the log does not open, that is reported.
    Without failures of the environment it opens. *)
Theorem engine_open_ready config p w :
  1 ≤ p ≤ 62 → ring_buffer_capacity config = 2 ^ p → idempotency_capacity config < 2147483648 →
  ∃ r e w', engine_open (make_engine config) w = Some (r, e, w') ∧
    (reliable w → contents (view w) (wal_path config) ≠ None ∨ dir (view w) !! wal_path config = None →
     r = LedgerError.None) ∧
    (r = LedgerError.WalOpenFailed ∨
     r = LedgerError.None ∧
       engine_ok hash64 (cache_cap (idempotency_capacity config)) 0 e []
         (Z.of_nat <$> seq 0 (cache_cap (idempotency_capacity config))) ∧
       ring_rep p (ring_ e) [] ∧ sync_mode_ (wal_writer_ e) = sync_mode config ∧
       imbalance (working_copy (state_ e)) = 0 ∧ solvent (working_copy (state_ e)) ∧
       ∃ i nd, open_on (view w') (fd_ (wal_writer_ e)) true true i nd ∧
         dir (view w') !! wal_path config = Some i ∧
         offset_ (wal_writer_ e) = wrap64 (Z.of_nat (length (cur nd)))).
Proof.
  intros Hp Hring Hcap. unfold engine_open. msimpl.
  destruct (writer_open_spec (wal_path config) (sync_mode config) new_writer w) as
    (r & wr & w' & Hrun & Hrel & Hcase); [done|].
  change (wal_path (config_ (make_engine config))) with (wal_path config).
  change (sync_mode (config_ (make_engine config))) with (sync_mode config).
  change (wal_writer_ (make_engine config)) with new_writer. rewrite Hrun. msimpl.
  do 3 eexists. split; [done|]. split; [intros Hw; by apply Hrel|].
  destruct Hcase as [[-> _]|(-> & Hfd & i & nd & Hwr & Hon & Hdir & _)]; [by left|right].
  split_and!; [done| |simpl; rewrite Hring; by apply make_ring_rep|by rewrite Hwr|done|done|].
  - split; simpl; [unfold cache_cap; lia|by apply make_cache_rep|by split|done|done].
  - exists i, nd. split_and!; [done|done|]. simpl. by rewrite Hwr.
Qed.
End Guarantees.

(** ** Scenarios *)

Module ExampleEngine.
(** The chart of accounts of [src/main.cpp] on disk, an empty log, and an engine on
    them with three requests waiting, the second of which repeats the key of the
    first. *)
Definition hash64 (z : Z) : Z := z.
Definition config : Config := mkConfig "/d/wal" SyncEveryWrite 4 4 2.
Definition repeat : Transaction :=
  mkTx 2 (mkKey 1 1) 0 (LegList.of_list [mkLeg 2 Debit 10; mkLeg 1 Credit 10]).
Definition requests : list PendingRequest :=
  [mkRequest (ExampleLedger.tx 1 10) (Some 0); mkRequest repeat (Some 1);
   mkRequest (ExampleLedger.tx 3 20) (Some 2)].
Definition pending : slots :=
  {[0 := mkCompletion false LedgerError.None; 1 := mkCompletion false LedgerError.None;
    2 := mkCompletion false LedgerError.None]}.
Definition push (rb : MpscRingBuffer PendingRequest) (r : PendingRequest) : MpscRingBuffer PendingRequest :=
  match try_push r rb with Some (_, rb) => rb | None => rb end.
Definition ring : MpscRingBuffer PendingRequest := foldl push (make_ring default_request 4) requests.
Definition disk : MemFs.mem := MemFs.boot [("/d/wal", []); ("/d/snap", ExampleRecovery.chart)] [].
Definition world : MemFs.mem := (MemFs.m_open "/d/wal" O_CREAT_WRONLY_APPEND disk).2.
Definition engine : LedgerEngine :=
  mkEngine config (mkWriter 3 SyncEveryWrite 0 false) (mkStore ExampleLedger.state ExampleLedger.state)
    (make_cache 4) ring 0 0.
Definition run (n : nat) := process_pending (H := MemFs.posix) hash64 n engine pending world.
End ExampleEngine.

#[export] Instance ring_headroom_dec {T} p (rb : MpscRingBuffer T) : Decision (ring_headroom p rb).
Proof. unfold ring_headroom. apply _. Defined.

Lemma push_rep p rb q r :
  ring_rep p rb q → ring_headroom p rb → Z.of_nat (length q) < 2 ^ p →
  ring_rep p (ExampleEngine.push rb r) (q ++ [r]).
Proof.
  intros Hrep Hroom Hlt. unfold ExampleEngine.push.
  destruct (try_push_rep p rb q r Hrep Hroom) as (rb' & -> & Hrep' & _). by rewrite bool_decide_true in Hrep'.
Qed.

Lemma example_ring : ring_rep 2 (ring_ ExampleEngine.engine) ExampleEngine.requests.
Proof.
  change (ring_ ExampleEngine.engine) with ExampleEngine.ring. unfold ExampleEngine.ring.
  unfold ExampleEngine.requests. cbn [foldl].
  apply (push_rep 2 _ [_; _]); [|by_compute..]. apply (push_rep 2 _ [_]); [|by_compute..].
  apply (push_rep 2 _ []); [|by_compute..]. by apply (make_ring_rep default_request 2).
Qed.

Lemma example_engine_ok :
  engine_ok ExampleEngine.hash64 4 0 ExampleEngine.engine [] (Z.of_nat <$> seq 0 4).
Proof.
  split; [lia|by apply (make_cache_rep ExampleEngine.hash64 4)|by_compute..].
Qed.

Lemma example_requests n :
  Forall (request_ok ExampleEngine.pending) (take n ExampleEngine.requests).
Proof.
  apply Forall_take. repeat constructor; try by_compute; by eexists.
Qed.

Lemma example_open : open_on (MemFs.mfs ExampleEngine.world) 3 true true 0 (mkInode [] []).
Proof. exists 0%nat. split; reflexivity. Qed.

Lemma process_pending_refines_witness :
  ∃ errs e' w' chunk lru' free' nd',
    ExampleEngine.run 3 =
      Some (3, e', answer_slots ExampleEngine.pending ExampleEngine.requests errs, w') ∧
    ledger_run 4 [] ExampleLedger.state (tx <$> ExampleEngine.requests) errs chunk lru'.*2
      (working_copy (state_ e')) ∧
    rep ExampleEngine.hash64 4 (idempotency_ e') lru' free' [] ∧ ring_rep 2 (ring_ e') [] ∧
    open_on (MemFs.mfs w') (fd_ (wal_writer_ e')) true true 0 nd' ∧ cur nd' = chunk ∧
    frame 0 3 (MemFs.mfs ExampleEngine.world) (MemFs.mfs w') ∧
    (MemFs.faults ExampleEngine.world = [] → Forall (λ err, ¬ log_failure err) errs).
Proof.
  apply (process_pending_refines (L := MemFs.posix_laws) ExampleEngine.hash64 3 4 2 0
    ExampleEngine.engine [] (Z.of_nat <$> seq 0 4) ExampleEngine.requests ExampleEngine.pending
    ExampleEngine.world 0 (mkInode [] [])).
  - apply example_engine_ok.
  - apply example_ring.
  - by_compute.
  - apply example_requests.
  - by_compute.
  - apply example_open.
Defined.

Lemma process_pending_keeps_books_witness :
  ∃ count e' s' w', ExampleEngine.run 2 = Some (count, e', s', w') ∧
    state_wf (working_copy (state_ e')) ∧ imbalance (working_copy (state_ e')) = 0 ∧
    (solvent ExampleLedger.state → solvent (working_copy (state_ e'))) ∧
    balances_within 20 (working_copy (state_ e')).
Proof.
  apply (process_pending_keeps_books (L := MemFs.posix_laws) ExampleEngine.hash64 2 4 2 0
    ExampleEngine.engine [] (Z.of_nat <$> seq 0 4) ExampleEngine.requests ExampleEngine.pending
    ExampleEngine.world 0 (mkInode [] [])).
  - apply example_engine_ok.
  - apply example_ring.
  - by_compute.
  - apply (example_requests 2).
  - by_compute.
  - apply example_open.
Defined.

Lemma process_pending_exactly_once_witness :
  ∃ errs e' w', ExampleEngine.run 3 =
      Some (3, e', answer_slots ExampleEngine.pending ExampleEngine.requests errs, w') ∧
    length errs = 3%nat ∧
    let applied := accepted (tx <$> ExampleEngine.requests) errs in
    working_copy (state_ e') = foldl post_state ExampleLedger.state applied ∧
    NoDup (idempotency_key <$> applied) ∧ ∀ t, t ∈ applied → idempotency_key t ∉ [].
Proof.
  apply (process_pending_exactly_once (L := MemFs.posix_laws) ExampleEngine.hash64 3 4 2 0
    ExampleEngine.engine [] (Z.of_nat <$> seq 0 4) ExampleEngine.requests ExampleEngine.pending
    ExampleEngine.world 0 (mkInode [] [])).
  - apply example_engine_ok.
  - apply example_ring.
  - by_compute.
  - apply example_requests.
  - by_compute.
  - apply example_open.
  - by_compute.
Defined.

Lemma published_state_lag_witness :
  ∃ count e' s' w', ExampleEngine.run 3 = Some (count, e', s', w') ∧ published_lag e' ∧
    publish_snapshot_every_n (config_ e') = 2.
Proof.
  apply (published_state_lag (L := MemFs.posix_laws) ExampleEngine.hash64 3 4 2 0
    ExampleEngine.engine [] (Z.of_nat <$> seq 0 4) ExampleEngine.requests ExampleEngine.pending
    ExampleEngine.world 0 (mkInode [] [])).
  - apply example_engine_ok.
  - apply example_ring.
  - by_compute.
  - apply example_requests.
  - by_compute.
  - apply example_open.
  - by_compute.
  - exists []. by split_and!; [..|left].
Defined.

Lemma submit_spec_witness :
  ∃ now rb w',
    let request := mkRequest (mkTx 9 (mkKey 9 9) now (legs (ExampleLedger.tx 9 5))) (Some 2) in
    submit (H := MemFs.posix) (ExampleLedger.tx 9 5) 2 ExampleEngine.engine ExampleEngine.pending
      ExampleEngine.world =
      Some (LedgerError.None, with_ring rb ExampleEngine.engine,
            <[2 := mkCompletion false LedgerError.None]> ExampleEngine.pending, w') ∧
    ring_rep 2 rb (ExampleEngine.requests ++ [request]) ∧ clock_gives (P := MemFs.posix) ExampleEngine.world now ∧
    MemFs.mfs w' = MemFs.mfs ExampleEngine.world.
Proof.
  apply (submit_spec (L := MemFs.posix_laws) (ExampleLedger.tx 9 5) 2
    (mkCompletion false LedgerError.None) 2 ExampleEngine.engine ExampleEngine.requests
    ExampleEngine.pending ExampleEngine.world).
  - apply example_ring.
  - by_compute.
  - reflexivity.
Defined.

(** The machine restarted on what a crash left, with all descriptors gone. *)
Definition restarted (w : MemFs.mem) : MemFs.mem :=
  let f := MemFs.mfs w in
  let f' := mkFs (sdir f) (sdir f) (dirs f) (files f) ∅ in MemFs.mkMem f' [f'] [] 1.

Lemma commits_survive_crash_witness :
  match ExampleEngine.run 3 with
  | Some (3, e', _, w') =>
      balance <$> find_account (working_copy (state_ e')) 1 = Some (-30) ∧
      ∃ len w3, recover (H := MemFs.posix) 1000 ExampleRecovery.visit "/d/wal" "/d/snap" (restarted w') =
        Some (Some (Value (mkRecovered (working_copy (state_ e')) len)), w3)
  | _ => False
  end.
Proof.
  destruct (commits_survive_crash (L := MemFs.posix_laws) ExampleEngine.hash64 3 4 2 0
    ExampleEngine.engine [] (Z.of_nat <$> seq 0 4) ExampleEngine.requests ExampleEngine.pending
    ExampleEngine.world 0 (mkInode [] []) "/d/wal" "/d/snap" 1 ExampleLedger.state [])
    as (errs & e' & w' & chunk & keys & nd' & Hrun & _ & _ & Hnd & _ & Hrec).
  - apply example_engine_ok.
  - apply example_ring.
  - by_compute.
  - apply example_requests.
  - by_compute.
  - apply example_open.
  - reflexivity.
  - reflexivity.
  - reflexivity.
  - split; [by split|by split|done|]. exists ExampleRecovery.chart. split; [done|].
    vm_compute. reflexivity.
  - exists []. by split_and!.
  - by_compute.
  - repeat constructor; by_compute.
  - assert (match ExampleEngine.run 3 with
            | Some (_, e', _, w') => volume (working_copy (state_ e')) ≤ INT64_MAX ∧
                balance <$> find_account (working_copy (state_ e')) 1 = Some (-30) ∧
                length ∘ cur <$> files (MemFs.mfs w') !! 0 = Some 166%nat
            | None => False
            end) as Hfacts.
    { vm_compute. split; [discriminate|split; reflexivity]. }
    unfold ExampleEngine.run in Hfacts |- *. rewrite Hrun in Hfacts |- *.
    destruct Hfacts as (Hvol & Hbal & Hlen). simpl view in Hnd. rewrite Hnd in Hlen. injection Hlen as Hlen.
    change (Z.of_nat (length (take 3 ExampleEngine.requests))) with 3. split; [done|].
    destruct (Hrec (restarted w') ExampleRecovery.visit 1000%nat) as (w3 & Hr & _).
    + split_and!; [by right|done|done].
    + done.
    + intros st. apply Permutation_refl.
    + exact Hvol.
    + rewrite Hlen. by_compute.
    + rewrite Hlen. lia.
    + by exists (Z.of_nat (length (cur nd'))), w3.
Defined.

Lemma engine_open_ready_witness :
  ∃ r e w', engine_open (H := MemFs.posix) (make_engine ExampleEngine.config) ExampleEngine.disk
      = Some (r, e, w') ∧
    (MemFs.faults ExampleEngine.disk = [] →
     contents (MemFs.mfs ExampleEngine.disk) "/d/wal" ≠ None ∨
       dir (MemFs.mfs ExampleEngine.disk) !! "/d/wal" = None →
     r = LedgerError.None) ∧
    (r = LedgerError.WalOpenFailed ∨
     r = LedgerError.None ∧
       engine_ok ExampleEngine.hash64 4 0 e [] (Z.of_nat <$> seq 0 4) ∧
       ring_rep 2 (ring_ e) [] ∧ sync_mode_ (wal_writer_ e) = SyncEveryWrite ∧
       imbalance (working_copy (state_ e)) = 0 ∧ solvent (working_copy (state_ e)) ∧
       ∃ i nd, open_on (MemFs.mfs w') (fd_ (wal_writer_ e)) true true i nd ∧
         dir (MemFs.mfs w') !! "/d/wal" = Some i ∧
         offset_ (wal_writer_ e) = wrap64 (Z.of_nat (length (cur nd)))).
Proof.
  apply (engine_open_ready (L := MemFs.posix_laws) ExampleEngine.hash64 ExampleEngine.config 2
    ExampleEngine.disk).
  - lia.
  - reflexivity.
  - by_compute.
Defined.

Lemma process_request_outcome_witness :
  handled (L := MemFs.posix_laws) ExampleEngine.hash64 4 0 ExampleEngine.engine [] 1
    ExampleEngine.repeat ExampleEngine.pending ExampleEngine.world 0 (mkInode [] [])
    (process_request (H := MemFs.posix) ExampleEngine.hash64 (mkRequest ExampleEngine.repeat (Some 1))
       ExampleEngine.engine ExampleEngine.pending ExampleEngine.world).
Proof.
  apply (process_request_outcome (L := MemFs.posix_laws) ExampleEngine.hash64 4 0
    ExampleEngine.engine [] (Z.of_nat <$> seq 0 4) (mkRequest ExampleEngine.repeat (Some 1)) 1
    (mkCompletion false LedgerError.None)).
  - apply example_engine_ok.
  - by_compute.
  - reflexivity.
  - reflexivity.
  - by_compute.
  - apply example_open.
Defined.

(** ** A log that is created is not durable by name *)

(** [BinaryWalWriter::open] creates the log but does not synchronise its
    directory.  A transaction appended and synchronised in [SyncEveryWrite] mode
    can then be lost with the name of the log: after the crash, recovery finds no
    log and reports the empty first-boot state. *)
Theorem created_log_lost_with_its_name :
  match writer_open (H := MemFs.posix) "/d/wal" SyncEveryWrite new_writer (MemFs.boot [] []) with
  | Some (_, wr, w) =>
      match append (H := MemFs.posix) (ExampleLedger.tx 1 10) wr w with
      | Some (r, _, w') =>
          r = LedgerError.None ∧ crash (MemFs.mfs w') (MemFs.mfs (restarted w')) ∧
          match recover (H := MemFs.posix) 8 ExampleRecovery.visit "/d/wal" "/d/snap" (restarted w') with
          | Some (Some (Value rs), _) => rs = mkRecovered empty_state 0
          | _ => False
          end
      | None => False
      end
  | None => False
  end.
Proof.
  destruct (writer_open (H := MemFs.posix) "/d/wal" SyncEveryWrite new_writer (MemFs.boot [] []))
    as [[[r wr] w]|] eqn:Ho; [|vm_compute in Ho; discriminate].
  destruct (append (H := MemFs.posix) (ExampleLedger.tx 1 10) wr w) as [[[r' wr'] w']|] eqn:Ha.
  - split; [|split]; [|split_and!; [by right|done|done]|]; vm_compute in Ho;
      injection Ho as <- <- <-; vm_compute in Ha; injection Ha as <- <- <-; vm_compute; reflexivity.
  - vm_compute in Ho. injection Ho as <- <- <-. vm_compute in Ha. discriminate.
Qed.
