(* ===== verification/EngineCrash.v ===== *)
(** * Crashes in the middle of a batch

    The process can die between any two system calls of [process_pending] and in
    the middle of a [write].  Whatever it leaves of the log, recovery finds the
    ledger after some first transactions of the batch, never half of one. *)

From Stdlib Require Import Sorted.
From S2P Require Import Prelude Types Validation LedgerState Crc32 WalCodec Posix WalWriter.
From S2P Require Import WalReader Snapshot SnapshotWrite Recovery Idempotency RingBuffer Engine.
From S2P Require Import EngineSpec EngineRun.

(** What may be left of a file that is to change from [lo] to the longer [hi], or back:
    the bytes [lo], and behind them any bytes, not more than [hi] has.  Only, where those
    are not the bytes of [hi], the checks of the reader do not take them for a record. *)
Definition survives (lo hi c : list byte) : Prop :=
  lo `prefix_of` c ∧ (length c ≤ length hi)%nat ∧
  ∀ o tx n, take o c = take o hi → parse_next (drop o c) = POk tx n → take (o + n) c = take (o + n) hi.

(** What may be found after a crash in view [f] when files were only appended to:
    of a file whose durable contents are the beginning of its current ones, those and
    what survives of the rest.  A process that is killed loses nothing of what it wrote;
    a loss of power may lose all that was not synchronised, or leave blocks with other
    contents; a [write] may have got any part of its bytes into the file. *)
Definition torn_crash (f f' : fs) : Prop :=
  (∀ p, dir f' !! p = dir f !! p ∨ dir f' !! p = sdir f !! p) ∧
  (∀ i nd, files f !! i = Some nd → stable nd `prefix_of` cur nd →
    ∃ c, files f' !! i = Some (mkInode c c) ∧ survives (stable nd) (cur nd) c) ∧
  fds f' = ∅.

(** It is enough to look at the offsets there are, and there where the magic is. *)
Definition genuine (hi c : list byte) (o : nat) : Prop :=
  le_combine (take 4 (drop o c)) = kMagic →
  match parse_next (drop o c) with
  | POk _ n => take o c = take o hi → take (o + n) c = take (o + n) hi
  | _ => True
  end.
#[export] Instance byte_eq_decision : EqDecision byte := Byte.byte_eq_dec.
#[export] Instance genuine_dec hi c o : Decision (genuine hi c o).
Proof.
  unfold genuine. destruct (decide (le_combine (take 4 (drop o c)) = kMagic)); [|by left].
  destruct (parse_next _); apply _.
Defined.

Lemma parse_next_magic a tx n : parse_next a = POk tx n → le_combine (take 4 a) = kMagic.
Proof.
  unfold parse_next. case_bool_decide; [done|]. case_bool_decide; [done|]. case_bool_decide as Hg; [|done].
  intros _. destruct Hg as [Hm _]. rewrite <- Hm. unfold header_of_bytes, kHeaderSize; cbn [magic]. by rewrite take_take.
Qed.

Lemma survives_offsets lo hi c :
  lo `prefix_of` c ∧ (length c ≤ length hi)%nat ∧ Forall (genuine hi c) (seq 0 (length c)) → survives lo hi c.
Proof.
  intros (Hlo & Hlen & Hall). split_and!; [done..|]. intros o tx n Ho Hp.
  destruct (decide (o < length c)%nat) as [Hlt|Hge].
  - rewrite Forall_forall in Hall. specialize (Hall o). unfold genuine in Hall. rewrite Hp in Hall.
    apply Hall; [apply elem_of_seq; lia|by eapply parse_next_magic|done].
  - by rewrite drop_ge in Hp by lia.
Qed.

(** Any part that was written survives. *)
Lemma prefix_survives lo hi c : lo `prefix_of` c → c `prefix_of` hi → survives lo hi c.
Proof.
  intros Hlo [x ->]. split_and!; [done|rewrite length_app; lia|]. intros o tx n _ Hp.
  destruct (parse_next_local _ (drop o c) tx n Hp eq_refl) as [_ Hn]. rewrite length_drop in Hn.
  rewrite take_app_le by lia. done.
Qed.

Lemma survives_same lo c : survives lo lo c → c = lo.
Proof.
  intros ([x ->] & Hl & _). rewrite length_app in Hl. destruct x; [apply app_nil_r|simpl in Hl; lia].
Qed.

(** A beginning of a log is a log with a torn record behind it. *)
Lemma log_bytes_prefix l c :
  Forall entry_ok l → c `prefix_of` log_bytes l →
  ∃ k torn, (k ≤ length l)%nat ∧ c = log_bytes (take k l) ++ torn ∧ (torn = [] ∨ torn_tail torn).
Proof.
  intros Hl. revert c. induction Hl as [|en l [Htx Hts] Hl IH]; intros c Hc.
  { exists 0%nat, []. apply prefix_nil_inv in Hc as ->. split_and!; [simpl; lia|done|by left]. }
  change (log_bytes (en :: l)) with (entry_bytes en ++ log_bytes l) in Hc.
  destruct (decide (length (entry_bytes en) ≤ length c)%nat) as [Hle|Hgt].
  - assert (entry_bytes en `prefix_of` c) as [c' ->].
    { destruct Hc as [rest Hc]. exists (drop (length (entry_bytes en)) c).
      rewrite <- (take_drop (length (entry_bytes en)) c) at 1. f_equal.
      rewrite <- (take_app_le c rest) by done. by rewrite <- Hc, take_app_length. }
    apply prefix_app_inv in Hc. destruct (IH c' Hc) as (k & torn & Hk & -> & Ht).
    exists (S k), torn. cbn [take length]. split; [lia|].
    change (log_bytes (en :: take k l)) with (entry_bytes en ++ log_bytes (take k l)).
    by rewrite app_assoc.
  - exists 0%nat, c. split_and!; [lia|done|right]. exists en.1, en.2, (length c). split_and!; [done|done|unfold entry_bytes in Hgt; lia|].
    destruct Hc as [rest Hc]. fold (entry_bytes en).
    rewrite <- (take_app_le (entry_bytes en) (log_bytes l)), Hc by lia. by rewrite take_app_length.
Qed.

(** [c] is the log [lo] with the first of the records [l] and, behind them, bytes that
    reading stops at. *)
Definition torn (lo : list byte) (l : list (Transaction * Z)) (c : list byte) : Prop :=
  (length c ≤ length (lo ++ log_bytes l))%nat ∧
  ∃ k tail, (k ≤ length l)%nat ∧ c = lo ++ log_bytes (take k l) ++ tail ∧ refused tail.

Lemma torn_lo lo l c : torn lo l c → lo `prefix_of` c.
Proof. intros (_ & k & tail & _ & -> & _). by apply prefix_app_r. Qed.

Lemma log_bytes_take k l : (length (log_bytes (take k l)) ≤ length (log_bytes l))%nat.
Proof. rewrite <- (take_drop k l) at 2. rewrite log_bytes_app, length_app. lia. Qed.

Lemma torn_records lo l k : (k ≤ length l)%nat → torn lo l (lo ++ log_bytes (take k l)).
Proof.
  intros Hk. pose proof (log_bytes_take k l). split; [rewrite !length_app; lia|].
  exists k, []. by rewrite app_nil_r.
Qed.

Lemma torn_prefix lo l c :
  Forall entry_ok l → lo `prefix_of` c → c `prefix_of` lo ++ log_bytes l → torn lo l c.
Proof.
  intros Hl [x ->] Hc. split; [by apply prefix_length|]. apply prefix_app_inv in Hc.
  destruct (log_bytes_prefix l x Hl Hc) as (k & tail & Hk & -> & Ht). exists k, tail. split_and!; [done..|].
  destruct Ht as [->|Ht]; [done|by apply torn_tail_refused].
Qed.

Lemma torn_nil lo : torn lo [] lo.
Proof. rewrite <- (app_nil_r lo) at 2. by apply (torn_records lo [] 0). Qed.

Lemma torn_more lo l c : torn lo [] c → torn lo l c.
Proof.
  intros (Hlen & k & tail & Hk & -> & Ht). simpl in Hk. assert (k = 0%nat) as -> by lia.
  change (log_bytes (take 0 [])) with (@nil byte) in *. change (log_bytes []) with (@nil byte) in Hlen.
  split; [rewrite !length_app in *; simpl in *; lia|]. exists 0%nat, tail. split_and!; [lia|done|done].
Qed.

Lemma log_bytes_step l j k e :
  l !! j = Some e → (j < k)%nat → log_bytes (drop j (take k l)) = entry_bytes e ++ log_bytes (drop (S j) (take k l)).
Proof.
  intros He Hj. rewrite (drop_S (take k l) e j); [done|]. by rewrite lookup_take_lt.
Qed.

(** Where the records of [c] and those of the file agree, a further record of [c] is
    the file's next one. *)
Lemma survives_record lo l k tail s c j rest tx n :
  Forall entry_ok l → (j ≤ k ≤ length l)%nat → refused tail →
  survives s (lo ++ log_bytes (take k l) ++ tail) c → c = (lo ++ log_bytes (take j l)) ++ rest →
  parse_next rest = POk tx n →
  (j < k)%nat ∧ ∃ rest', c = (lo ++ log_bytes (take (S j) l)) ++ rest'.
Proof.
  intros Hl Hj Ht (_ & _ & Hsur) Hc Hp. set (y := log_bytes (drop j (take k l)) ++ tail).
  assert (lo ++ log_bytes (take k l) ++ tail = (lo ++ log_bytes (take j l)) ++ y) as Hhi.
  { unfold y. rewrite <- (take_drop j (take k l)) at 1. rewrite take_take, Nat.min_l by lia.
    by rewrite log_bytes_app, <- !app_assoc. }
  rewrite Hhi in Hsur. rewrite Hc in Hsur.
  specialize (Hsur (length (lo ++ log_bytes (take j l))) tx n).
  rewrite !take_app_length, drop_app_length, !take_app_add in Hsur.
  specialize (Hsur eq_refl Hp). apply app_inv_head in Hsur.
  destruct (parse_next_local rest y tx n Hp Hsur) as [Hpy _].
  destruct (decide (j = k)) as [->|Hne].
  { unfold y in Hpy. rewrite drop_ge in Hpy by (rewrite length_take; lia). unfold refused in Ht. simpl in Hpy. by rewrite Hpy in Ht. }
  split; [lia|]. destruct (lookup_lt_is_Some_2 l j ltac:(lia)) as [e He].
  pose proof (proj1 (Forall_lookup _ _) Hl j e He) as [Htx Hts].
  unfold y in Hpy, Hsur. rewrite (log_bytes_step l j k e He), <- app_assoc in Hpy, Hsur by lia.
  destruct (parse_next_record e.1 e.2 (log_bytes (drop (S j) (take k l)) ++ tail) Htx Hts) as (tx' & Hpe & _).
  fold (entry_bytes e) in Hpe. rewrite Hpy in Hpe.
  assert (n = length (entry_bytes e)) as -> by congruence.
  rewrite take_app_length in Hsur. exists (drop (length (entry_bytes e)) rest).
  rewrite Hc, (take_S_r _ _ _ He), log_bytes_app. rewrite <- (take_drop (length (entry_bytes e)) rest) at 1.
  rewrite Hsur. change (log_bytes [e]) with (entry_bytes e ++ []). by rewrite app_nil_r, <- !app_assoc.
Qed.

(** Reading what survives stops where reading the file does, or before. *)
Lemma torn_survives lo l hi s c :
  Forall entry_ok l → torn lo l hi → lo `prefix_of` s → survives s hi c → torn lo l c.
Proof.
  intros Hl (Hlen & k & tail & Hk & -> & Ht) [s0 ->] Hsur. pose proof Hsur as ([c0 Hc0] & Hle & _).
  split; [lia|].
  assert (∀ m j : nat, (j + m = k)%nat → ∀ rest, c = (lo ++ log_bytes (take j l)) ++ rest →
    ∃ k tail, (k ≤ length l)%nat ∧ c = lo ++ log_bytes (take k l) ++ tail ∧ refused tail) as Hmain.
  2: { apply (Hmain k 0%nat eq_refl (s0 ++ c0)). by rewrite Hc0, app_nil_r, <- app_assoc. }
  induction m as [|m IH]; intros j Hj rest Hc.
  all: destruct (decide (refused rest)) as [Hr|Hr]; [exists j, rest; rewrite app_assoc; split_and!; [lia|done|done]|].
  all: unfold refused in Hr; destruct (parse_next rest) as [tx n| | |] eqn:Hp; try done; clear Hr.
  all: destruct (survives_record lo l k tail _ c j rest tx n Hl ltac:(lia) Ht Hsur Hc Hp) as (Hlt & rest' & Hc').
  - lia.
  - apply (IH (S j) ltac:(lia) rest' Hc').
Qed.

Section Crash.
Context {P : Posix} {L : PosixLaws P}.

(** Recovery of a log that breaks off somewhere in the records [l], behind a part [nd]
    that agrees with the snapshot. *)
Lemma recover_torn_log w wal sp i j cb c base pre nd st l visit fuel :
  dir (view w) !! sp = Some j → files (view w) !! j = Some (mkInode cb cb) →
  parse_snapshot cb = Value (mkLoaded base (Z.of_nat (length pre))) →
  dir (view w) !! wal = Some i → files (view w) !! i = Some (mkInode c c) →
  torn (cur nd) l c → log_agrees base pre nd st → Forall entry_ok l →
  (∀ k, let st' := foldl post_state st (take k l.*1) in
    replay_txs st (take k l.*1) = Some st' ∧ imbalance st' = 0 ∧ volume st' ≤ INT64_MAX) →
  (∀ st, iterates st (visit st)) → reliable w →
  Z.of_nat (length (cur nd ++ log_bytes l)) + 2048 ≤ INT64_MAX →
  (length (cur nd ++ log_bytes l) < fuel)%nat →
  ∃ k w' nd', (k ≤ length l)%nat ∧
    recover fuel visit wal sp w =
      Some (Some (Value (mkRecovered (foldl post_state st (take k l.*1)) (Z.of_nat (length (cur nd'))))), w') ∧
    reliable w' ∧ view w' = set_file (view w) i nd' ∧ cur nd' `prefix_of` c ∧
    cur nd' = cur nd ++ log_bytes (take k l) ∧ stable nd' = cur nd' ∧
    log_agrees base pre nd' (foldl post_state st (take k l.*1)).
Proof.
  intros Hsp Hj Hp Hwal Hi (Hc & k & tail & Hk & -> & Htail) (l0 & Hcur & Hl0 & Hrep0) Hl Hrep Hvis Hrel Hlen Hfuel.
  destruct (Hrep k) as (Hr & Himb & Hvol). pose proof (log_bytes_take k l) as Hle.
  pose proof (length_log_bytes_le (l0 ++ take k l)) as Hll. rewrite log_bytes_app, !length_app in Hll.
  rewrite Hcur, !length_app in Hfuel.
  destruct (recover_records visit wal sp w base (Z.of_nat (length pre)) i
    (mkInode (cur nd ++ log_bytes (take k l) ++ tail) (cur nd ++ log_bytes (take k l) ++ tail)) pre (l0 ++ take k l) tail
    (foldl post_state st (take k l.*1)) fuel) as (w' & nd' & Hrun & Hrel' & Hv & Hcur' & Ht1 & Ht2); try done.
  - right. by exists j, (mkInode cb cb).
  - simpl. by rewrite Hcur, log_bytes_app, <- !app_assoc.
  - apply Forall_app. split; [done|by apply Forall_take].
  - simpl. lia.
  - rewrite length_app. lia.
  - rewrite fmap_app, fmap_take, replay_txs_app, Hrep0. exact Hr.
  - rewrite (trial_balance_value (foldl post_state st (take k l.*1))) by done. unfold trial_verdict. by rewrite decide_True.
  - exists k, w', nd'. rewrite <- Hcur' in Hrun.
    assert (cur nd' = cur nd ++ log_bytes (take k l)) as Hnd' by (by rewrite Hcur', Hcur, log_bytes_app, app_assoc).
    split_and!; [lia|done|done|done|rewrite Hnd', app_assoc; by apply prefix_app_r|done| |].
    + destruct (decide (tail = [])) as [->|Hne]; [by rewrite Ht2|by apply Ht1].
    + exists (l0 ++ take k l). split_and!; [done|apply Forall_app; split; [done|by apply Forall_take]|].
      rewrite fmap_app, fmap_take, replay_txs_app, Hrep0. exact Hr.
Qed.

(** What a crash in a view [f] leaves of the log [nf], which started as [nd] and was
    to get the records [l]. *)
Lemma torn_crash_log f f' i nd nf l :
  torn_crash f f' → files f !! i = Some nf → stable nd = cur nd → grows nd nf →
  Forall entry_ok l → cur nf `prefix_of` cur nd ++ log_bytes l →
  ∃ c, files f' !! i = Some (mkInode c c) ∧ torn (cur nd) l c.
Proof.
  intros (_ & Hfiles & _) Hnf Hst [_ Hg] Hl Hpre. rewrite Hst in Hg. destruct (Hg (reflexivity _)) as [Hsn Hsc].
  destruct (Hfiles i nf Hnf Hsc) as (c & Hc & Hsur). exists c. split; [done|].
  eapply torn_survives; [done| |exact Hsn|exact Hsur]. apply torn_prefix; [done|by etrans|done].
Qed.
Lemma torn_crash_durable f f' j c :
  torn_crash f f' → files f !! j = Some (mkInode c c) → files f' !! j = Some (mkInode c c).
Proof.
  intros (_ & Hfiles & _) Hj. destruct (Hfiles j _ Hj) as (c' & Hc & Hsur); [done|].
  by apply survives_same in Hsur as ->.
Qed.

(** Recovery after a crash in a view [f] of a run that started with the log [nd]
    and the state [st] and went on to write the records [l]. *)
Lemma recover_after_torn_crash f w wal sp i j base pre nd nf st l visit fuel :
  on_disk f wal sp i j base pre → files f !! i = Some nf →
  stable nd = cur nd → grows nd nf → cur nf `prefix_of` cur nd ++ log_bytes l →
  log_agrees base pre nd st → Forall entry_ok l →
  (∀ k, let st' := foldl post_state st (take k l.*1) in
    replay_txs st (take k l.*1) = Some st' ∧ imbalance st' = 0 ∧ volume st' ≤ INT64_MAX) →
  (∀ st, iterates st (visit st)) → torn_crash f (view w) → reliable w →
  Z.of_nat (length (cur nd ++ log_bytes l)) + 2048 ≤ INT64_MAX →
  (length (cur nd ++ log_bytes l) < fuel)%nat →
  ∃ k w' nd', (k ≤ length l)%nat ∧
    recover fuel visit wal sp w =
      Some (Some (Value (mkRecovered (foldl post_state st (take k l.*1)) (Z.of_nat (length (cur nd'))))), w') ∧
    files (view w') !! i = Some nd' ∧ cur nd' = cur nd ++ log_bytes (take k l) ∧ stable nd' = cur nd' ∧
    log_agrees base pre nd' (foldl post_state st (take k l.*1)).
Proof.
  intros [[Hw Hw'] [Hs Hs'] Hij (cb & Hcb & Hp)] Hnf Hst Hg Hpre Hlog Hl Hrep Hvis Htorn Hrel Hlen Hfuel.
  destruct (torn_crash_log f _ i nd nf l Htorn Hnf Hst Hg Hl Hpre) as (c & Hc & Hbreak).
  pose proof (torn_crash_durable f _ j cb Htorn Hcb) as Hj. destruct Htorn as [Hnames _].
  destruct (recover_torn_log w wal sp i j cb c base pre nd st l visit fuel)
    as (k & w' & nd' & Hk & Hrun & _ & Hv & _ & Hrest); try done; [by destruct (Hnames sp) as [-> | ->]
      |by destruct (Hnames wal) as [-> | ->]|].
  exists k, w', nd'. split_and!; [done|done| |apply Hrest..]. rewrite Hv. simpl. by rewrite lookup_insert_eq.
Qed.

Variable hash64 : Z → Z.

(** C2: A crash at any point of a batch is a crash between two transactions.  As in
    [commits_survive_crash], with increasing ids and calls that do not fail but in either
    mode, the crash strikes in any view the process goes through while it works on the
    batch.  It keeps what was synchronised; of the bytes written since it may leave any
    part, or others in their place that do not pass for a record.  Recovery returns the
    ledger before the batch moved by the first [k] of the transactions the batch would
    have accepted; it keeps the whole log from before the batch, with everything
    acknowledged until then, cuts the torn record off, and leaves a durable log that
    holds exactly the recovered transactions, so that work can go on. *)
Theorem crash_between_transactions n cap p B e lru free q s w i nd wal sp j base pre :
  engine_ok hash64 cap B e lru free → ring_rep p (ring_ e) q → ring_headroom p (ring_ e) →
  Forall (request_ok s) (take n q) → B + total_gross (take n q) ≤ INT64_MAX →
  open_on (view w) (fd_ (wal_writer_ e)) true true i nd → reliable w → stable nd = cur nd →
  on_disk (view w) wal sp i j base pre → log_agrees base pre nd (working_copy (state_ e)) →
  imbalance (working_copy (state_ e)) = 0 →
  StronglySorted Z.lt (last_applied_id_ (working_copy (state_ e)) :: (id ∘ tx <$> take n q)) →
  ∃ errs e' w' hs nd',
    process_pending hash64 n e s w =
      Some (Z.of_nat (length (take n q)), e', answer_slots s (take n q) errs, w') ∧
    history w' = history w ++ hs ∧ files (view w') !! i = Some nd' ∧
    let applied := accepted (tx <$> take n q) errs in
    let ledger k := foldl post_state (working_copy (state_ e)) (take k applied) in
    working_copy (state_ e') = ledger (length applied) ∧
    ∀ f w2 visit fuel,
      f ∈ hs → torn_crash f (view w2) → reliable w2 →
      (∀ st, iterates st (visit st)) → (∀ k, volume (ledger k) ≤ INT64_MAX) →
      Z.of_nat (length (cur nd')) + 2048 ≤ INT64_MAX → (length (cur nd') < fuel)%nat →
      ∃ k w3 nd3, (k ≤ length applied)%nat ∧
        recover fuel visit wal sp w2 =
          Some (Some (Value (mkRecovered (ledger k) (Z.of_nat (length (cur nd3))))), w3) ∧
        files (view w3) !! i = Some nd3 ∧ stable nd3 = cur nd3 ∧
        cur nd `prefix_of` cur nd3 ∧ cur nd3 `prefix_of` cur nd' ∧ log_agrees base pre nd3 (ledger k).
Proof.
  intros Hok Hring Hroom Hreq HB Hon Hrel Hst Hdisk Hlog Himb Hids.
  destruct (process_loop_spec hash64 n 0 cap p B e lru free q s w i nd)
    as (errs & e' & w' & Hrun & [Hb1 _ _ Hb4 _ _]); try done.
  destruct Hb1 as (chunk & lru' & free' & nd' & Hl & Hcur & _ & (pos & _ & Hi') & (_ & _ & hs & Hh & Hall) & _).
  destruct (Hb4 Hrel) as [_ Hno]. exists errs, e', w', hs, nd'. split_and!; [done..|].
  destruct (ledger_run_replay _ _ _ _ _ _ _ _ B Hl Hno) as (l & -> & Hl' & Hacc & Hrep).
  { apply Forall_fmap. eapply Forall_impl; [exact Hreq|]. by intros r [? _]. }
  { apply Hok. } { apply Hok. } { unfold total_gross in HB. by rewrite <- list_fmap_compose. }
  { by rewrite <- list_fmap_compose. }
  intros applied ledger. assert (l.*1 = applied) as Hl1 by done. split.
  { unfold ledger. rewrite take_ge by done. by eapply ledger_run_state. }
  intros f w2 visit fuel Hf Hcr Hrel2 Hvis Hvol Hlen Hfuel.
  rewrite Forall_forall in Hall. destruct (Hall f Hf) as (Hfr & nf & Hnf & Hg & [Hg' _]).
  rewrite Hcur in Hg', Hlen, Hfuel. rewrite Hl1 in Hrep.
  destruct (recover_after_torn_crash f w2 wal sp i j base pre nd nf (working_copy (state_ e)) l visit fuel)
    as (k & w3 & nd3 & Hk & Hrec & Hnd3 & Hcur3 & Hst3 & Hlog3); try done; [by eapply on_disk_frame| |].
  { intros k. rewrite Hl1. destruct (Hrep k) as [Hr Hi]. split_and!; [done|by rewrite Hi|apply Hvol]. }
  rewrite Hl1 in Hrec, Hlog3. exists k, w3, nd3. split_and!; try done.
  - by rewrite <- Hl1, length_fmap.
  - rewrite Hcur3. by apply prefix_app_r.
  - rewrite Hcur3, Hcur. apply prefix_app. rewrite <- (take_drop k l) at 2. rewrite log_bytes_app. by apply prefix_app_r.
Qed.
End Crash.

(** *** A crash while the second record is being written *)
Module ExampleCrash.
(** The view after the second [write] and before its [fsync]. *)
Definition seen : fs :=
  match ExampleEngine.run 3 with
  | Some (_, _, _, w') => default (MemFs.mfs w') (MemFs.hist w' !! 6%nat)
  | None => MemFs.mfs ExampleEngine.world
  end.
Definition log : inode := default (mkInode [] []) (files seen !! 0).
(** Seventeen bytes of the record got to disk, the next twenty are zeros. *)
Definition torn : list byte := take 100 (cur log) ++ replicate 20 Byte.x00.
Definition left : MemFs.mem :=
  let f := mkFs (dir seen) (sdir seen) (dirs seen) (<[0 := mkInode torn torn]> (files seen)) ∅ in
  MemFs.mkMem f [f] [] 1.
End ExampleCrash.

Lemma torn_crash_cut f sd i nd c :
  files f !! i = Some nd → survives (stable nd) (cur nd) c →
  map_Forall (λ j nd', j = i ∨ stable nd' = cur nd') (files f) →
  torn_crash f (mkFs (dir f) sd (dirs f) (<[i := mkInode c c]> (files f)) ∅).
Proof.
  intros Hi Hsur Hall. split_and!; [by left| |done]. simpl. intros j nd' Hj _.
  destruct (decide (i = j)) as [->|Hne].
  - simplify_eq. exists c. by rewrite lookup_insert_eq.
  - exists (cur nd'). rewrite lookup_insert_ne by done. destruct (Hall j nd' Hj) as [->|Hs]; [done|].
    rewrite Hs. split; [|by apply prefix_survives]. rewrite Hj. destruct nd'. simpl in *. by subst.
Qed.

Lemma example_torn_crash : torn_crash ExampleCrash.seen (MemFs.mfs ExampleCrash.left).
Proof.
  apply (torn_crash_cut _ _ 0 ExampleCrash.log).
  - vm_compute. reflexivity.
  - apply survives_offsets. by_compute.
  - apply map_Forall_to_list. vm_compute.
    repeat (apply Forall_cons; split; [first [left; reflexivity|right; reflexivity]|]). by apply Forall_nil.
Qed.

Lemma example_volumes errs k :
  volume (foldl post_state ExampleLedger.state (take k (accepted (tx <$> ExampleEngine.requests) errs))) ≤ INT64_MAX.
Proof.
  destruct errs as [|e1 [|e2 [|e3 errs]]]; unfold ExampleEngine.requests; cbn [fmap list_fmap accepted tx];
    repeat case_match; do 4 (destruct k as [|k]; [by_compute|]); by_compute.
Qed.

Lemma crash_between_transactions_witness :
  ∃ errs k w3 len,
    recover (H := MemFs.posix) 1000 ExampleRecovery.visit "/d/wal" "/d/snap" ExampleCrash.left =
      Some (Some (Value (mkRecovered
        (foldl post_state ExampleLedger.state (take k (accepted (tx <$> ExampleEngine.requests) errs))) len)), w3).
Proof.
  destruct (crash_between_transactions (L := MemFs.posix_laws) ExampleEngine.hash64 3 4 2 0
    ExampleEngine.engine [] (Z.of_nat <$> seq 0 4) ExampleEngine.requests ExampleEngine.pending
    ExampleEngine.world 0 (mkInode [] []) "/d/wal" "/d/snap" 1 ExampleLedger.state [])
    as (errs & e' & w' & hs & nd' & Hrun & Hh & Hnd & _ & Hrec).
  - apply example_engine_ok.
  - apply example_ring.
  - by_compute.
  - apply example_requests.
  - by_compute.
  - apply example_open.
  - reflexivity.
  - reflexivity.
  - split; [by split|by split|done|]. exists ExampleRecovery.chart. split; [done|].
    vm_compute. reflexivity.
  - exists []. by split_and!.
  - by_compute.
  - repeat constructor; by_compute.
  - assert (match ExampleEngine.run 3 with
            | Some (_, _, _, w') => length ∘ cur <$> files (MemFs.mfs w') !! 0 = Some 166%nat ∧
                MemFs.hist w' !! 6%nat = Some ExampleCrash.seen
            | None => False
            end) as Hfacts.
    { vm_compute. split; reflexivity. }
    unfold ExampleEngine.run in Hfacts. rewrite Hrun in Hfacts. destruct Hfacts as [Hlen Hseen].
    simpl view in Hnd. rewrite Hnd in Hlen. injection Hlen as Hlen.
    destruct (Hrec ExampleCrash.seen ExampleCrash.left ExampleRecovery.visit 1000%nat)
      as (k & w3 & nd3 & _ & Hr & _).
    + simpl history in Hh. rewrite Hh, lookup_app_r in Hseen by (vm_compute; lia).
      by eapply list_elem_of_lookup_2.
    + apply example_torn_crash.
    + reflexivity.
    + intros st. apply Permutation_refl.
    + intros k. apply example_volumes.
    + rewrite Hlen. by_compute.
    + rewrite Hlen. lia.
    + by exists errs, k, w3, (Z.of_nat (length (cur nd3))).
Defined.
