(* ===== verification/EngineLife.v ===== *)
(** * The life of a ledger

    An engine is started on what recovery found, takes requests, works on them and
    writes snapshots, until the process dies; then recovery runs and an engine is
    started again, any number of times.  The theorems follow a ledger through such
    a life: nothing that was committed is ever lost, nothing is applied twice, and
    each start finds a disk on which the next one can go on. *)

From Stdlib Require Import Sorted.
From S2P Require Import Prelude Types Validation LedgerState Crc32 WalCodec Posix WalWriter.
From S2P Require Import WalReader Snapshot SnapshotWrite Recovery RecoveryHistory Idempotency RingBuffer Engine.
From S2P Require Import EngineSpec EngineRun EngineCrash.

(** ** A session *)

(** What a running engine is asked to do: a producer submits, the writer works on
    at most [n] requests, or the writer's state is saved with the length of the log. *)
Inductive event := Submit (t : Transaction) (c : Z) | Process (n : nat) | Checkpoint.

Section Session.
Context `{Posix}.
Variable hash64 : Z → Z.
Variables (pad : list byte) (visit : LedgerState → list (AccountId * Account)).
Variables (config : Config) (sp : string).

(** Starting an engine on a recovered state. *)
Definition resume (st : LedgerState) : M (ResultVoid * LedgerEngine) :=
  '(opened, e) ← engine_open (make_engine config);
  mret (opened, set_state_working_copy st e).

Definition handle (ev : event) (e : LedgerEngine) (s : slots) : M (LedgerEngine * slots) :=
  match ev with
  | Submit t c => '(_, e, s) ← submit t c e s; mret (e, s)
  | Process n => '(_, e, s) ← process_pending hash64 n e s; mret (e, s)
  | Checkpoint =>
      let st := state_working_copy e in
      _ ← write_snapshot pad (visit st) sp st (size_bytes (wal_writer e));
      mret (e, s)
  end.

Fixpoint serve (evs : list event) (e : LedgerEngine) (s : slots) : M (LedgerEngine * slots) :=
  match evs with
  | [] => mret (e, s)
  | ev :: evs => '(e, s) ← handle ev e s; serve evs e s
  end.
End Session.

Definition submitted : list event → list Transaction :=
  omap (λ ev, match ev with Submit t _ => Some t | _ => None end).
Definition slots_used : list event → list Z :=
  omap (λ ev, match ev with Submit _ c => Some c | _ => None end).

(** ** Crashes *)

(** What a loss of power in view [f] may leave: as [torn_crash]; of a file that was cut
    and not synchronised its new contents and what survives of the old ones; all that is
    left is on stable storage; every name refers to a file; and since [rename] is
    atomic, no two names refer to one file that did not do so at the crash or at the
    last synchronisation. *)
Definition power_cycle (f f' : fs) : Prop :=
  torn_crash f f' ∧
  (∀ i nd, files f !! i = Some nd → cur nd `prefix_of` stable nd →
    ∃ c, files f' !! i = Some (mkInode c c) ∧ survives (cur nd) (stable nd) c) ∧
  sdir f' = dir f' ∧
  (∀ q k, dir f' !! q = Some k → is_Some (files f' !! k)) ∧
  (∀ q q' k, dir f' !! q = Some k → dir f' !! q' = Some k → q = q' ∨
    (dir f !! q = Some k ∧ dir f !! q' = Some k) ∨ (sdir f !! q = Some k ∧ sdir f !! q' = Some k)).

(** A log that got from [lo], here and on stable storage, to some of the records [l]. *)
Definition between (lo : list byte) (l : list (Transaction * Z)) (nd : inode) : Prop :=
  torn lo l (cur nd) ∧ torn lo l (stable nd) ∧ (stable nd `prefix_of` cur nd ∨ cur nd `prefix_of` stable nd).

Lemma power_cycle_between f f' i lo l nd :
  power_cycle f f' → files f !! i = Some nd → Forall entry_ok l → between lo l nd →
  ∃ c, files f' !! i = Some (mkInode c c) ∧ torn lo l c.
Proof.
  intros ((_ & Htorn & _) & Hcut & _) Hi Hl (H1 & H2 & [H|H]).
  - destruct (Htorn i nd Hi H) as (c & Hc & Hsur). exists c. split; [done|].
    exact (torn_survives lo l (cur nd) (stable nd) c Hl H1 (torn_lo _ _ _ H2) Hsur).
  - destruct (Hcut i nd Hi H) as (c & Hc & Hsur). exists c. split; [done|].
    exact (torn_survives lo l (stable nd) (cur nd) c Hl H2 (torn_lo _ _ _ H1) Hsur).
Qed.

Lemma between_same lo l c : torn lo l c → between lo l (mkInode c c).
Proof. intros Hc. by split_and!; [..|left]. Qed.

(** ** The ledger after some transactions *)

Lemma volume_nonneg st : 0 ≤ volume st.
Proof. apply zsum_nonneg, Forall_fmap, Forall_true. intros a. simpl. lia. Qed.

Lemma balances_volume st : balances_within (volume st) st.
Proof.
  intros i a Ha. unfold volume. rewrite <- (insert_delete_id (accounts_ st) i a Ha).
  rewrite map_zsum_insert_new by apply lookup_delete_eq.
  assert (0 ≤ map_zsum (λ a, Z.abs (balance a)) (delete i (accounts_ st))); [|lia].
  apply zsum_nonneg, Forall_fmap, Forall_true. intros b. simpl. lia.
Qed.

Lemma post_state_size st t : base.size (accounts_ (post_state st t)) = base.size (accounts_ st).
Proof.
  rewrite <- !size_dom. f_equal. apply set_eq. intros i. rewrite !elem_of_dom. simpl.
  rewrite lookup_post_accounts. by destruct (accounts_ st !! i).
Qed.

Lemma foldl_post_size st l : base.size (accounts_ (foldl post_state st l)) = base.size (accounts_ st).
Proof. revert st. induction l as [|t l IH]; intros st; [done|]. simpl. by rewrite IH, post_state_size. Qed.

Lemma foldl_post_volume st l :
  Forall shape_valid l → volume (foldl post_state st l) ≤ volume st + 2 * zsum (gross <$> l).
Proof.
  intros Hl. revert st. induction Hl as [|t l Ht Hl IH]; intros st; csimpl; [lia|].
  specialize (IH (post_state st t)). pose proof (volume_post st t Ht). lia.
Qed.

Lemma foldl_post_last st l x :
  last_applied_id_ st < x → Forall (λ t, id t < x) l → last_applied_id_ (foldl post_state st l) < x.
Proof.
  intros Hx Hl. revert st Hx. induction Hl as [|t l Ht Hl IH]; intros st Hx; [done|]. simpl. apply IH. simpl. lia.
Qed.

Lemma update_account_wf st i a b :
  state_wf st → accounts_ st !! i = Some a → s64_ok b → state_wf (update_account st i (set_balance a b)).
Proof.
  intros [Hl Hm] Ha Hb. split; [done|]. apply map_Forall_insert_2; [|done].
  destruct (Hm i a Ha) as (Hid & (? & ? & _ & ?) & ?). by split_and!.
Qed.

Lemma apply_wf st t st' r : apply st t = Some (st', r) → state_wf st → tx_ok t → state_wf st'.
Proof.
  intros Ha Hst Ht. unfold apply in Ha. destruct (apply_legs st _) as [[st1 r1]|] eqn:Hl; [|done]. simpl in Ha.
  assert (state_wf st1) as Hst1.
  { clear Ha. revert st Hst Hl. induction (LegList.span (legs t)) as [|l ls IH]; intros st Hst; cbn [apply_legs].
    { by intros [= -> _]. }
    destruct (find_account st (account_id l)) as [a|] eqn:Hf; [|by intros [= -> _]].
    destruct (signed_delta _ _ _) as [d|]; [|done]. simpl. destruct (sadd64 _ _) as [b|] eqn:Hb; [|done]. simpl.
    apply IH. apply sadd64_Some in Hb as [-> Hb]. by apply update_account_wf. }
  destruct (has_value r1); injection Ha as <- _; [|done]. case_bool_decide; [|done].
  destruct Hst1 as [_ Hm]. split; [apply Ht|done].
Qed.

Lemma replay_wf st l st' : replay_txs st l = Some st' → state_wf st → Forall tx_ok l → state_wf st'.
Proof.
  intros Hr Hst Hl. revert st Hst Hr. induction Hl as [|t l Ht Hl IH]; intros st Hst.
  { by intros [= ->]. }
  rewrite replay_txs_cons. destruct (replay_one st t) as [st1|] eqn:H1; [|done]. simpl. apply IH.
  unfold replay_one in H1. case_bool_decide; [|by injection H1 as <-].
  destruct (apply st t) as [[st2 r]|] eqn:Ha; [|done]. simpl in H1. injection H1 as <-. by eapply apply_wf.
Qed.

(** What a run without log failures accepts. *)
Lemma ledger_run_shapes cap keys st txs errs chunk keys' st' :
  ledger_run cap keys st txs errs chunk keys' st' → Forall shape_valid (accepted txs errs).
Proof.
  induction 1 as [|keys st t err chunk keys1 st1 ts errs chunks keys2 st2 Hstep _ IH]; [done|].
  cbn [accepted]. destruct (has_value err) eqn:He; [|done]. constructor; [|done].
  unfold has_value in He. apply bool_decide_eq_true in He. subst err.
  by inversion Hstep as [| | |? ? ? ? ? ? ? Hf|]; subst; [| |destruct Hf|].
Qed.

Lemma accepted_sublist txs errs : accepted txs errs `sublist_of` txs.
Proof.
  revert errs. induction txs as [|t txs IH]; intros errs; [by destruct errs|].
  destruct errs as [|err errs]; [apply sublist_nil_l|]. cbn [accepted].
  destruct (has_value err); [by apply sublist_skip|by apply sublist_cons].
Qed.

Lemma Forall_sub {A} (Q : A → Prop) l k : l `sublist_of` k → Forall Q k → Forall Q l.
Proof. induction 1; rewrite ?Forall_cons; intuition. Qed.

Lemma gross_sublist l k : l `sublist_of` k → zsum (gross <$> l) ≤ zsum (gross <$> k).
Proof.
  induction 1 as [|t l k Hl IH|t l k Hl IH]; csimpl; [lia|lia|]. pose proof (gross_nonneg t). lia.
Qed.

(** ** The disk *)

Section Disk.
Variables wal sp : string.
Let tmp := tmp_path_of sp.
Hypothesis Hdistinct : wal ≠ sp ∧ wal ≠ tmp.

(** The files the snapshot's name may refer to after a crash. *)
Definition candidate (f : fs) (j : Z) : Prop := dir f !! sp = Some j ∨ sdir f !! sp = Some j.

(** The names of log and snapshot are durable, and not links to the temporary file. *)
Record names_ok (f : fs) (i : Z) : Prop := mkNamesOk {
  nm_wal : dir f !! wal = Some i ∧ sdir f !! wal = Some i;
  nm_sp : is_Some (dir f !! sp) ∧ is_Some (sdir f !! sp);
  nm_tmp : dir f !! tmp ≠ Some i ∧ sdir f !! tmp ≠ Some i;
  nm_apart j : (dir f !! sp = Some j → dir f !! tmp ≠ Some j) ∧ (sdir f !! sp = Some j → sdir f !! tmp ≠ Some j)
}.

(** Every snapshot that may be found leads with the rest of the log [nd] to [st]. *)
Definition snapshots_agree (f : fs) (i : Z) (nd : inode) (st : LedgerState) : Prop :=
  ∀ j, candidate f j → j ≠ i ∧ ∃ c base pre,
    files f !! j = Some (mkInode c c) ∧ parse_snapshot c = Value (mkLoaded base (Z.of_nat (length pre))) ∧
    log_agrees base pre nd st.

(** Between two events: the log is complete and durable. *)
Record at_rest (f : fs) (i : Z) (nd : inode) (st : LedgerState) : Prop := mkAtRest {
  rest_names : names_ok f i;
  rest_snapshots : snapshots_agree f i nd st;
  rest_log : files f !! i = Some nd;
  rest_stable : stable nd = cur nd;
  rest_tmp j : candidate f j → dir f !! tmp ≠ Some j;
  rest_tmp_file : contents f tmp ≠ None ∨ dir f !! tmp = None
}.

(** While the records [l] are being written. *)
Record in_flight (f : fs) (i : Z) (nd : inode) (st : LedgerState) (l : list (Transaction * Z)) : Prop :=
  mkInFlight {
  fly_names : names_ok f i;
  fly_snapshots : snapshots_agree f i nd st;
  fly_log : ∃ nf, files f !! i = Some nf ∧ between (cur nd) l nf
}.

Lemma rest_in_flight f i nd st : at_rest f i nd st → in_flight f i nd st [].
Proof.
  intros [? ? ? Hst]. split; [done|done|]. exists nd. split; [done|]. destruct nd as [c s]. simpl in Hst. subst s.
  apply between_same, torn_nil.
Qed.

Lemma in_flight_more f i nd st l : in_flight f i nd st [] → in_flight f i nd st l.
Proof.
  intros [Hn Hs (nf & Hnf & H1 & H2 & H3)]. split; [done|done|]. exists nf. split; [done|].
  split_and!; [by apply torn_more..|done].
Qed.

(** Descriptors do not matter. *)
Lemma at_rest_fds f f' i nd st :
  at_rest f i nd st → dir f' = dir f → sdir f' = sdir f → files f' = files f → at_rest f' i nd st.
Proof.
  intros [[Hw Hs Ht Ha] Hag Hl Hst Htm Hc] Hd Hsd Hf.
  split; [split| | | | |]; unfold snapshots_agree, candidate, contents, file_at in *; rewrite ?Hd, ?Hsd, ?Hf; done.
Qed.

(** Appending to the log. *)
Lemma names_frame f f' i d : frame i d f f' → names_ok f i → names_ok f' i.
Proof.
  intros (Hd & Hsd & _) [Hw Hs Ht Ha]. split; rewrite ?Hd, ?Hsd; done.
Qed.
Lemma snapshots_frame f f' i d nd st :
  frame i d f f' → snapshots_agree f i nd st → snapshots_agree f' i nd st.
Proof.
  intros (Hd & Hsd & _ & Hf & _) Hag j Hj. unfold candidate in Hj. rewrite Hd, Hsd in Hj.
  destruct (Hag j Hj) as (Hne & c & base & pre & Hc & Hrest). split; [done|]. exists c, base, pre. by rewrite Hf.
Qed.
Lemma snapshots_extend f i nd st l nd' st' :
  snapshots_agree f i nd st → cur nd' = cur nd ++ log_bytes l → Forall entry_ok l →
  replay_txs st l.*1 = Some st' → snapshots_agree f i nd' st'.
Proof.
  intros Hag Hc Hl Hr j Hj. destruct (Hag j Hj) as (Hne & c & base & pre & Hcb & Hp & Hlog). split; [done|].
  exists c, base, pre. split_and!; [done|done|]. by eapply log_agrees_extend.
Qed.

(** A crash in flight leaves a disk that recovery can read, and recovery one at rest. *)
Lemma power_cycle_names f f' i :
  names_ok f i → power_cycle f f' → names_ok f' i ∧ (∀ j, candidate f' j → candidate f j ∧ dir f' !! tmp ≠ Some j).
Proof.
  intros [[Hw Hw'] [[j Hj] [j' Hj']] [Ht Ht'] Ha] ((Hnames & _) & _ & Hsd & _ & Hlinks).
  assert (∀ k, dir f' !! sp = Some k → candidate f k ∧ dir f' !! tmp ≠ Some k) as Hcand.
  { intros k Hk. split.
    - destruct (Hnames sp) as [H|H]; rewrite Hk in H; [by left|by right].
    - intros Hk'. destruct (Hlinks sp tmp k Hk Hk') as [He|[[H1 H2]|[H1 H2]]].
      + by destruct (tmp_path_ne sp).
      + by destruct (Ha k) as [H _]; apply H.
      + by destruct (Ha k) as [_ H]; apply H. }
  split; [split|]; rewrite ?Hsd.
  - by destruct (Hnames wal) as [-> | ->].
  - assert (is_Some (dir f' !! sp)) by (destruct (Hnames sp) as [-> | ->]; by eexists). done.
  - by destruct (Hnames tmp) as [-> | ->].
  - intros k. split; intros Hk; rewrite ?Hsd in Hk |- *; by apply Hcand.
  - intros k [Hk|Hk]; rewrite ?Hsd in Hk; by apply Hcand.
Qed.

(** The disk when the machine is up again. *)
Record crashed (f : fs) (i : Z) (nd : inode) (st : LedgerState) (l : list (Transaction * Z)) : Prop := mkCrashed {
  cr_flight : in_flight f i nd st l;
  cr_log : ∃ c, files f !! i = Some (mkInode c c) ∧ torn (cur nd) l c;
  cr_synced : sdir f = dir f;
  cr_files q k : dir f !! q = Some k → is_Some (files f !! k);
  cr_tmp j : candidate f j → dir f !! tmp ≠ Some j
}.

Lemma cycle_crashed f f' i nd st l :
  in_flight f i nd st l → Forall entry_ok l → power_cycle f f' → crashed f' i nd st l.
Proof.
  intros [Hnm Hag (nf & Hnf & Hb)] Hl Hcyc. destruct (power_cycle_names f _ i Hnm Hcyc) as [Hnm' Hcand].
  pose proof Hcyc as (Htorn & _ & Hsd & Hfile & _).
  destruct (power_cycle_between f f' i _ _ nf Hcyc Hnf Hl Hb) as (c & Hc & Ht).
  split; [|by exists c|done|done|intros j Hj; by apply Hcand]. split; [done| |by exists (mkInode c c); split; [|apply between_same]].
  intros j Hj. destruct (Hcand j Hj) as [Hj' _]. destruct (Hag j Hj') as (Hne & cb & base & pre & Hcb & Hp & Hlog).
  split; [done|]. exists cb, base, pre. split_and!; [by eapply torn_crash_durable|done|done].
Qed.

Context {P : Posix} {L : PosixLaws P}.

Lemma recover_crashed w i nd st l visit fuel :
  crashed (view w) i nd st l → Forall entry_ok l →
  (∀ k, let st' := foldl post_state st (take k l.*1) in
    replay_txs st (take k l.*1) = Some st' ∧ imbalance st' = 0 ∧ volume st' ≤ INT64_MAX) →
  (∀ st, iterates st (visit st)) → reliable w →
  Z.of_nat (length (cur nd ++ log_bytes l)) + 2048 ≤ INT64_MAX →
  (length (cur nd ++ log_bytes l) < fuel)%nat →
  ∃ k w' nd', (k ≤ length l)%nat ∧
    recover fuel visit wal sp w =
      Some (Some (Value (mkRecovered (foldl post_state st (take k l.*1)) (Z.of_nat (length (cur nd'))))), w') ∧
    reliable w' ∧ at_rest (view w') i nd' (foldl post_state st (take k l.*1)) ∧
    cur nd' = cur nd ++ log_bytes (take k l) ∧
    (∀ c, files (view w) !! i = Some (mkInode c c) → cur nd' `prefix_of` c).
Proof.
  intros [[Hnm Hag _] (c & Hc & Hbreak) Hsd Hfile Htmp] Hl Hrep Hvis Hrel Hlen Hfuel.
  pose proof (nm_wal _ _ Hnm) as [Hwal _]. destruct (nm_sp _ _ Hnm) as [[j Hj] _].
  destruct (Hag j (or_introl Hj)) as (Hne & cb & base & pre & Hcb & Hp & Hlog).
  destruct (recover_torn_log w wal sp i j cb c base pre nd st l visit fuel)
    as (k & w' & nd' & Hk & Hrun & Hrel' & Hv & Hpre & Hcur & Hst' & Hlog'); try done.
  exists k, w', nd'. split_and!; [done|done|done| |done|intros c'; rewrite Hc; by intros [= ->]]. rewrite Hv.
  split; [|..|done| |]; simpl.
  - by destruct Hnm; split.
  - intros j' Hj'. assert (j' = j) as ->.
    { destruct Hj' as [H|H]; simpl in H; rewrite ?Hsd in H; congruence. }
    split; [done|]. exists cb, base, pre. simpl. by rewrite lookup_insert_ne.
  - by rewrite lookup_insert_eq.
  - intros j' Hj'. by apply Htmp.
  - destruct (dir (view w) !! tmp) as [k'|] eqn:Ht; [left|by right]. unfold contents, file_at. simpl. rewrite Ht. simpl.
    destruct (Hfile tmp k' Ht) as [nt Hnt]. rewrite lookup_insert_ne, Hnt; [done|].
    intros ->. by destruct (nm_tmp _ _ Hnm).
Qed.

(** While recovery runs, a crash leaves a disk that recovery can read. *)
Lemma cutting_in_flight f i nd st l c c' g :
  in_flight f i nd st l → cutting f i (mkInode c c) c' g →
  torn (cur nd) l c → torn (cur nd) l c' → c' `prefix_of` c → in_flight g i nd st l.
Proof.
  intros [[Hw Hs Ht Ha] Hag _] (Hd & Hsd & Hf & nf & Hnf & Hcur & Hst) H1 H2 H3. simpl in *. split.
  - split; by rewrite ?Hd, ?Hsd.
  - intros j Hj. unfold candidate in Hj. rewrite Hd, Hsd in Hj.
    destruct (Hag j Hj) as (Hne & cb & base & pre & Hcb & Hrest). split; [done|]. exists cb, base, pre. by rewrite Hf.
  - exists nf. split; [done|]. destruct Hcur as [Hcur|Hcur], Hst as [Hst|Hst]; unfold between; rewrite Hcur, Hst; split_and!; auto.
Qed.

(** Appending the records [l] to the log. *)
Lemma frame_at_rest f f' i d nd st l nd' st' :
  at_rest f i nd st → frame i d f f' → files f' !! i = Some nd' → cur nd' = cur nd ++ log_bytes l →
  stable nd' = cur nd' → Forall entry_ok l → replay_txs st l.*1 = Some st' → at_rest f' i nd' st'.
Proof.
  intros [Hn Hs Hlog Hst Htm Htf] Hfr Hi Hcur Hst' Hl Hr. pose proof Hfr as (Hd & Hsd & _ & Hf & _).
  split; [by eapply names_frame| |done|done| |].
  - eapply snapshots_extend; [by eapply snapshots_frame|done..].
  - unfold candidate in *. by rewrite Hd, Hsd.
  - unfold contents, file_at in *. rewrite Hd. destruct Htf as [Ht|Ht]; [left|by right].
    destruct (dir f !! tmp) as [k|] eqn:Hk; [|done]. simpl in *. rewrite Hf; [done|].
    intros ->. by destruct (nm_tmp _ _ Hn).
Qed.

Lemma frame_in_flight f f' i d nd st l nf :
  at_rest f i nd st → frame i d f f' → files f' !! i = Some nf → grows nd nf → Forall entry_ok l →
  cur nf `prefix_of` cur nd ++ log_bytes l → in_flight f' i nd st l.
Proof.
  intros [Hn Hs _ Hst _ _] Hfr Hi [Hc Hg] Hl Hpre. split; [by eapply names_frame|by eapply snapshots_frame|].
  rewrite Hst in Hg. destruct Hg as [Hlo Hhi]; [done|]. exists nf. split; [done|].
  split_and!; [by apply torn_prefix|apply torn_prefix; [done|done|by trans (cur nf)]|by left].
Qed.

(** *** Writing a snapshot *)

Lemma rest_durable f i nd st j : at_rest f i nd st → candidate f j ∨ j = i → ∃ c, durable sp f j c.
Proof.
  intros [Hnm Hag Hl Hst Htm _] [Hj| ->].
  - destruct (Hag j Hj) as (_ & c & _ & _ & Hc & _). exists c. split; [done|by apply Htm].
  - exists (cur nd). split; [|apply (nm_tmp _ _ Hnm)]. rewrite Hl. destruct nd as [a b]. simpl in *. by subst b.
Qed.

Lemma rest_bystander f i nd st : at_rest f i nd st → bystander sp f wal i.
Proof.
  intros [Hnm _ Hl _ _ _]. split_and!; [apply Hdistinct|apply Hdistinct|apply (nm_wal _ _ Hnm)
    |apply (nm_tmp _ _ Hnm)|by rewrite Hl].
Qed.

Section Written.
Variables (f0 f : fs) (i : Z) (nd : inode) (st : LedgerState).
Hypothesis Hrest : at_rest f0 i nd st.

Lemma kept_log : durable_kept sp f0 f → files f !! i = Some nd.
Proof.
  intros Hk. destruct (rest_durable f0 i nd st i Hrest) as [c [Hc Ht]]; [by right|].
  rewrite (Hk i c) by done. rewrite (rest_log _ _ _ _ Hrest) in Hc. by symmetry.
Qed.

Lemma kept_wal : others_kept sp f0 f → dir f !! wal = Some i ∧ sdir f !! wal = Some i.
Proof.
  intros Ho. destruct (proj1 Ho wal i (rest_bystander _ _ _ _ Hrest)) as (Hd & _ & Hs). split; [done|].
  destruct Hs as [->|]; [apply (nm_wal _ _ (rest_names _ _ _ _ Hrest))|done].
Qed.

Lemma kept_snapshot j :
  durable_kept sp f0 f → candidate f0 j →
  j ≠ i ∧ ∃ c base pre, files f !! j = Some (mkInode c c) ∧
    parse_snapshot c = Value (mkLoaded base (Z.of_nat (length pre))) ∧ log_agrees base pre nd st.
Proof.
  intros Hk Hj. destruct (rest_snapshots _ _ _ _ Hrest j Hj) as (Hne & c & base & pre & Hc & Hrest').
  split; [done|]. exists c, base, pre. split; [|done]. apply Hk. split; [done|by apply (rest_tmp _ _ _ _ Hrest)].
Qed.

Lemma before_in_flight : before sp f0 f → in_flight f i nd st [].
Proof.
  intros (Hold & Hd & Hs & Ht & Ho & Hto & Hfd & Hst & Hk & Hdt). fold tmp in Ht, Hst, Hdt. pose proof (rest_names _ _ _ _ Hrest) as Hnm.
  pose proof (kept_log Hk) as Hlog. split.
  - split; rewrite ?Hd, ?Hs, ?Hst; [by apply kept_wal|apply Hnm| |].
    + split; [|apply Hnm]. destruct (rest_durable f0 i nd st i Hrest) as [c Hc]; [by right|]. by apply (Hdt i c).
    + intros j. split; [apply Ht|apply Hnm].
  - intros j Hj. apply kept_snapshot; [done|]. unfold candidate in *. by rewrite Hd, Hs in Hj.
  - exists nd. split; [done|]. destruct (fly_log _ _ _ _ _ (rest_in_flight _ _ _ _ Hrest)) as (nf & Hnf & Hb).
    rewrite (rest_log _ _ _ _ Hrest) in Hnf. by injection Hnf as ->.
Qed.

Lemma after_at_rest bytes :
  parse_snapshot bytes = Value (mkLoaded st (Z.of_nat (length (cur nd)))) → after sp f0 bytes f → at_rest f i nd st.
Proof.
  intros Hparse (Hold & Ho & Hfd & k & Hd & Hb & Hs & Ht & Hk & Hnew). fold tmp in Hs, Ht. pose proof (rest_names _ _ _ _ Hrest) as Hnm.
  pose proof (kept_log Hk) as Hlog. destruct (nm_sp _ _ Hnm) as [_ Hs0].
  assert (i ≠ k) as Hik.
  { destruct (rest_durable f0 i nd st i Hrest) as [c Hc]; [by right|]. by apply (Hnew i c). }
  assert (sdir f !! tmp ≠ Some i) as Htmpi.
  { destruct Hs as [[_ ->]|[_ ->]]; [apply Hnm|done]. }
  split; [split| |done|apply (rest_stable _ _ _ _ Hrest)| |]; rewrite ?Hd, ?Ht; try done.
  - by apply kept_wal.
  - split; [done|]. destruct Hs as [[-> _]|[-> _]]; done.
  - intros j. split; [done|]. destruct Hs as [[-> ->]|[-> ->]]; [apply Hnm|done].
  - intros j Hj. assert (j = k ∨ candidate f0 j) as [->|Hj'].
    { destruct Hj as [Hj|Hj]; [left; congruence|]. destruct Hs as [[Hs _]|[Hs _]]; rewrite Hs in Hj; [right; by right|left; congruence]. }
    + split; [done|]. exists bytes, st, (cur nd). split_and!; [done|done|]. exists []. by rewrite app_nil_r.
    + by apply kept_snapshot.
  - by right.
Qed.
End Written.

Lemma checkpoint_spec pad order w i nd st :
  at_rest (view w) i nd st → snapshot_ok pad order st (Z.of_nat (length (cur nd))) → reliable w →
  ∃ w' hs, write_snapshot pad order sp st (Z.of_nat (length (cur nd))) w = Some (LedgerError.None, w') ∧
    reliable w' ∧ history w' = history w ++ hs ∧ Forall (λ f, in_flight f i nd st []) hs ∧
    at_rest (view w') i nd st ∧ ∀ d o, fds (view w) !! d = Some o → fds (view w') !! d = Some o.
Proof.
  intros Hrest Hok Hrel. pose proof Hok as (Hpad & Hit & _).
  assert (apart sp (view w)) as Hap.
  { intros j Hj. split; [by apply (rest_tmp _ _ _ _ Hrest); left|].
    destruct (rest_snapshots _ _ _ _ Hrest j (or_introl Hj)) as (_ & c & _ & _ & Hc & _). by exists c. }
  destruct (write_snapshot_spec pad order sp st (Z.of_nat (length (cur nd))) w Hpad Hit Hap)
    as (r & w' & Hrun & (hs & Hh & Hall) & Hres & Hr).
  destruct Hr as [Hrel' ->]; [done|apply (rest_tmp_file _ _ _ _ Hrest)|].
  assert (parse_snapshot (snapshot_bytes pad order st (Z.of_nat (length (cur nd)))) =
    Value (mkLoaded st (Z.of_nat (length (cur nd))))) as Hparse.
  { rewrite <- (app_nil_r (snapshot_bytes _ _ _ _)). by apply parse_snapshot_bytes. }
  destruct Hres as [[_ Haft]|[[?|?] _]]; [|done..].
  exists w', hs. split_and!; [done|done|done| |by eapply after_at_rest|apply Haft].
  eapply Forall_impl; [exact Hall|]. intros f [Hb|Ha]; [by eapply before_in_flight|].
  eapply rest_in_flight, after_at_rest; done.
Qed.
End Disk.

(** ** Running *)

(** Opening a log that exists changes nothing but the descriptors. *)
Lemma writer_open_existing {P : Posix} {L : PosixLaws P} path mode w i nd :
  dir (view w) !! path = Some i → files (view w) !! i = Some nd → reliable w →
  ∃ d w', writer_open path mode new_writer w =
      Some (LedgerError.None, mkWriter d mode (wrap64 (Z.of_nat (length (cur nd)))) false, w') ∧
    0 ≤ d ∧ reliable w' ∧ open_on (view w') d true true i nd ∧
    dir (view w') = dir (view w) ∧ sdir (view w') = sdir (view w) ∧ files (view w') = files (view w).
Proof.
  intros Hp Hi Hrel. unfold writer_open, writer_close, UniqueFd.reset, UniqueFd.valid.
  rewrite (bool_decide_false (0 ≤ fd_ new_writer)) by (simpl; lia). msimpl.
  pose proof (reliable_open path O_CREAT_WRONLY_APPEND w Hrel) as Hr.
  pose proof (open_reliable path O_CREAT_WRONLY_APPEND w Hrel) as Ho.
  destruct (sys_open path O_CREAT_WRONLY_APPEND w) as [d w1] eqn:Hop. simpl in Hr, Ho. msimpl.
  assert (0 ≤ d) as Hd. { apply Ho. left. unfold contents, file_at. rewrite Hp. simpl. by rewrite Hi. }
  rewrite (bool_decide_false (d < 0)) by lia.
  destruct (open_law _ _ _ _ _ Hop) as [(? & _)|(_ & _ & He & _)]; [lia|].
  assert (view w1 = set_fd (view w) d (FdFile i true true 0)) as Hv.
  { inversion He as [i' nd' Hp' Hi' Heq|i' Hp'|]; [|congruence|done]. assert (i' = i) as -> by congruence.
    assert (nd' = nd) as -> by congruence. simpl. by rewrite set_file_id. }
  msimpl. pose proof (reliable_fstat d w1 Hr) as Hr1.
  destruct (sys_fstat d w1) as [st w2] eqn:Hst. simpl in Hr1. msimpl.
  destruct (fstat_law _ _ _ _ i true true 0%nat nd Hst) as (Hv2 & _ & Hsz & Hok).
  { rewrite Hv. simpl. by rewrite lookup_insert_eq. } { by rewrite Hv. }
  destruct st as [sz|]; [|by destruct Hok]. destruct Hsz as [|[= ->]]; [done|]. msimpl.
  exists d, w2. rewrite Hv2, Hv. split_and!; try done. exists 0%nat. simpl. by rewrite lookup_insert_eq.
Qed.

Lemma sorted_remove {A} (R : A → A → Prop) l x k : StronglySorted R (l ++ x :: k) → StronglySorted R (l ++ k).
Proof.
  induction l as [|y l IH]; simpl; [by intros [? _]%StronglySorted_inv|].
  intros [Hs Hf]%StronglySorted_inv. constructor; [by apply IH|]. apply Forall_app in Hf as [? [_ ?]%Forall_cons].
  by apply Forall_app.
Qed.

Lemma sorted_prefix {A} (R : A → A → Prop) l k : StronglySorted R (l ++ k) → StronglySorted R l.
Proof.
  induction l as [|y l IH]; simpl; [constructor|]. intros [Hs Hf]%StronglySorted_inv.
  constructor; [by apply IH|]. by apply Forall_app in Hf as [? _].
Qed.

Lemma sorted_sublist {A} (R : A → A → Prop) l k : l `sublist_of` k → StronglySorted R k → StronglySorted R l.
Proof.
  induction 1 as [|x l k Hl IH|x l k Hl IH]; [done|..]; intros [Hs Hf]%StronglySorted_inv; [|by apply IH].
  constructor; [by apply IH|by eapply Forall_sub].
Qed.

(** Ids that increase behind a ledger and then behind the ledger after them. *)
Lemma sorted_join st l k :
  StronglySorted Z.lt (last_applied_id_ st :: (id <$> l)) →
  StronglySorted Z.lt (last_applied_id_ (foldl post_state st l) :: (id <$> k)) →
  StronglySorted Z.lt (last_applied_id_ st :: (id <$> l ++ k)).
Proof.
  revert st. induction l as [|t l IH]; intros st; cbn [fmap list_fmap app foldl]; [done|].
  intros Hl Hk. apply StronglySorted_inv in Hl as [Hl Hf]. apply Forall_cons in Hf as [Ht Hf].
  assert (last_applied_id_ (post_state st t) = id t) as Hlast by (simpl; lia).
  specialize (IH (post_state st t)). rewrite Hlast in IH. specialize (IH Hl Hk).
  constructor; [done|]. apply StronglySorted_inv in IH as [_ Hall]. constructor; [done|].
  eapply Forall_impl; [exact Hall|]. intros x. simpl. lia.
Qed.

(** Everything behind the part worked on has a greater id than all of it. *)
Lemma sorted_after st l k x :
  StronglySorted Z.lt (last_applied_id_ st :: (id <$> l) ++ x) → k `sublist_of` l →
  StronglySorted Z.lt (last_applied_id_ (foldl post_state st k) :: x).
Proof.
  intros Hs Hk. apply StronglySorted_inv in Hs as [Hs Hf]. apply Forall_app in Hf as [_ Hf].
  assert (∀ y, y ∈ x → Forall (λ t, id t < y) l) as Hl.
  { intros y Hy. clear Hf Hk. induction l as [|t l IH]; [constructor|]. cbn [fmap list_fmap app] in Hs.
    apply StronglySorted_inv in Hs as [Hs Hf]. constructor; [|by apply IH].
    rewrite Forall_forall in Hf. apply Hf, elem_of_app. by right. }
  constructor; [by induction (id <$> l); [|apply IHl0; by apply StronglySorted_inv in Hs as [? _]]|].
  apply Forall_forall. intros y Hy. rewrite Forall_forall in Hf. apply foldl_post_last; [by apply Hf|].
  eapply Forall_sub; [done|by apply Hl].
Qed.

Lemma answer_slots_dom s rs errs a : is_Some (s !! a) → is_Some (answer_slots s rs errs !! a).
Proof.
  revert s errs. induction rs as [|r rs IH]; intros s [|err errs] Ha; simpl; try done. apply IH.
  destruct (completion r) as [b|]; [|done]. unfold slots in *. rewrite lookup_insert. by case_decide.
Qed.
Lemma request_ok_dom s s' r : (∀ a, is_Some (s !! a) → is_Some (s' !! a)) → request_ok s r → request_ok s' r.
Proof. intros Hs [Ht Hc]. split; [done|]. destruct (completion r); [by apply Hs|done]. Qed.

(** A transaction that was submitted, but for the time stamp it was given. *)
Definition comes_from (pool : list Transaction) (t : Transaction) : Prop :=
  ∃ t0, t0 ∈ pool ∧ id t = id t0 ∧ idempotency_key t = idempotency_key t0 ∧ legs t = legs t0.

(** A ledger an engine can be started on. *)
Definition ledger_ok (st : LedgerState) : Prop :=
  state_wf st ∧ imbalance st = 0 ∧ Z.of_nat (base.size (accounts_ st)) < 4294967296.

Section Life.
Context {P : Posix} {L : PosixLaws P}.
Variable hash64 : Z → Z.
Variables (pad : list byte) (visit : LedgerState → list (AccountId * Account)).
Variables (config : Config) (sp : string) (p : Z).
Hypothesis Hp : 1 ≤ p ≤ 62.
Hypothesis Hring : ring_buffer_capacity config = 2 ^ p.
Hypothesis Hcache : idempotency_capacity config < 2147483648.
Hypothesis Hmode : sync_mode config = SyncEveryWrite.
Hypothesis Hpaths : wal_path config ≠ sp ∧ wal_path config ≠ tmp_path_of sp.
Hypothesis Hpad : length pad = 4%nat.
Hypothesis Hvisit : ∀ st, iterates st (visit st).

Abbreviation wal := (wal_path config).
Abbreviation ledger e := (working_copy (state_ e)).

(** A session can take the events [evs] when their transactions are well formed, have
    increasing ids behind those of the ledger, and move amounts that fit, and when the
    log has room for them. *)
Record plan_ok (room : nat) (st : LedgerState) (f : fs) (evs : list event) (s : slots) : Prop := mkPlan {
  plan_txs : Forall tx_ok (submitted evs);
  plan_slots : Forall (λ c, is_Some (s !! c)) (slots_used evs);
  plan_ids : StronglySorted Z.lt (last_applied_id_ st :: (id <$> submitted evs));
  plan_amounts : volume st + 2 * zsum (gross <$> submitted evs) ≤ INT64_MAX;
  plan_positions : Z.of_nat (length (submitted evs)) + 2 ^ p < INT64_MAX;
  plan_log : ∀ c, contents f wal = Some c → (length c + 321 * length (submitted evs) ≤ room)%nat;
  plan_room : Z.of_nat room + 2048 ≤ INT64_MAX
}.

Section Running.
Variables (room : nat) (pool : list Transaction) (i : Z).
Hypothesis Hfits : Z.of_nat room + 2048 ≤ INT64_MAX.

(** The engine between two events, with [evs] still to come. *)
Record running (evs : list event) (nd : inode) (q : list PendingRequest) (e : LedgerEngine) (s : slots)
    (w : world) : Prop := mkRunning {
  run_rest : at_rest wal sp (view w) i nd (ledger e);
  run_open : open_on (view w) (fd_ (wal_writer_ e)) true true i nd;
  run_offset : offset_right (wal_writer_ e) nd;
  run_mode : sync_mode_ (wal_writer_ e) = SyncEveryWrite;
  run_engine : ∃ cap lru free, engine_ok hash64 cap (volume (ledger e)) e lru free;
  run_ring : ring_rep p (ring_ e) q;
  run_queue : Forall (request_ok s) q;
  run_from : Forall (λ r, comes_from pool (tx r)) q;
  run_slots : Forall (λ c, is_Some (s !! c)) (slots_used evs);
  run_txs : Forall (λ t, tx_ok t ∧ t ∈ pool) (submitted evs);
  run_ids : StronglySorted Z.lt (last_applied_id_ (ledger e) :: (id ∘ tx <$> q) ++ (id <$> submitted evs));
  run_amounts : volume (ledger e) + 2 * (total_gross q + zsum (gross <$> submitted evs)) ≤ INT64_MAX;
  run_positions : enqueue_pos_ (ring_ e) + Z.of_nat (length (submitted evs)) + 2 ^ p < INT64_MAX;
  run_length : (length (cur nd) + 321 * (length q + length (submitted evs)) ≤ room)%nat;
  run_ledger : ledger_ok (ledger e);
  run_reliable : reliable w
}.

(** The records [l] that an event adds to the log: recovery can stop after any of them. *)
Record flight (nd : inode) (st : LedgerState) (l : list (Transaction * Z)) : Prop := mkFlight {
  fl_entries : Forall entry_ok l;
  fl_room : (length (cur nd ++ log_bytes l) ≤ room)%nat;
  fl_from : Forall (comes_from pool) l.*1;
  fl_ids : StronglySorted Z.lt (last_applied_id_ st :: (id <$> l.*1));
  fl_replay k : let st' := foldl post_state st (take k l.*1) in
    replay_txs st (take k l.*1) = Some st' ∧ ledger_ok st' ∧ volume st' ≤ INT64_MAX
}.

(** What an event does. *)
Definition event_done (ev : event) (evs : list event) (nd : inode) (e : LedgerEngine) (s : slots) (w : world) : Prop :=
  ∃ e' s' w' hs nd' q' l,
    handle hash64 pad visit sp ev e s w = Some (e', s', w') ∧ history w' = history w ++ hs ∧
    Forall (λ f, in_flight wal sp f i nd (ledger e) l) hs ∧ flight nd (ledger e) l ∧
    ledger e' = foldl post_state (ledger e) l.*1 ∧ running evs nd' q' e' s' w'.

Lemma flight_nil nd st : (length (cur nd) ≤ room)%nat → ledger_ok st → volume st ≤ INT64_MAX → flight nd st [].
Proof.
  intros Hl Hst Hv. split; [constructor|by rewrite app_nil_r|constructor|by repeat constructor|]. intros k. cbn [fmap list_fmap]. by rewrite take_nil.
Qed.

Lemma gross_stamp t now : gross (mkTx (id t) (idempotency_key t) now (legs t)) = gross t.
Proof. done. Qed.

Lemma run_room evs nd q e s w :
  running evs nd q e s w → flight nd (ledger e) [].
Proof.
  intros Hr. apply flight_nil; [pose proof (run_length _ _ _ _ _ _ Hr); lia|apply (run_ledger _ _ _ _ _ _ Hr)|].
  pose proof (run_amounts _ _ _ _ _ _ Hr). pose proof (total_gross_nonneg q).
  assert (0 ≤ zsum (gross <$> submitted evs)) by (apply zsum_nonneg, Forall_fmap, Forall_true, gross_nonneg). lia.
Qed.

Lemma submit_done t c evs nd q e s w :
  running (Submit t c :: evs) nd q e s w → event_done (Submit t c) evs nd e s w.
Proof.
  intros Hr. pose proof (run_room _ _ _ _ _ _ Hr) as Hfl.
  destruct Hr as [Hrest Hopen Hoff Hm He Hrg Hq Hfrom Hsl Htx Hids Ham Hpos Hlen Hled Hrel].
  cbn [submitted slots_used omap list_omap length fmap list_fmap] in *.
  apply Forall_cons in Hsl as [[v Hv] Hsl]. apply Forall_cons in Htx as [[Ht Hin] Htx].
  destruct (submit_ok t c v p e q s w Hrg) as (now & rb & w' & Hrun & Hrep & [Hnow _] & Hview & Hdeq & Hr' & Hh).
  { unfold ring_headroom. lia. } { done. }
  set (room' := bool_decide _) in *. set (req := mkRequest _ _) in *.
  exists (with_ring rb e), (<[c := mkCompletion false (error v)]> s), w', [view w'], nd,
    (if room' then q ++ [req] else q), []. simpl. msimpl. rewrite Hrun. msimpl.
  split_and!; [done|done| |done|done|].
  { apply Forall_singleton. rewrite Hview. by apply rest_in_flight. }
  assert (∀ a, is_Some (s !! a) → is_Some (<[c := mkCompletion false (error v)]> s !! a)) as Hdom.
  { intros a Ha. unfold slots in *. rewrite lookup_insert. by case_decide. }
  pose proof (ring_enq _ _ _ Hrg) as E1. pose proof (ring_enq _ _ _ Hrep) as E2. pose proof (gross_nonneg t) as Hg.
  assert (Forall (request_ok (<[c := mkCompletion false (error v)]> s)) q) as Hq'.
  { eapply Forall_impl; [exact Hq|]. intros r. by apply request_ok_dom. }
  split; cbn [state_ with_ring wal_writer_ ring_]; try done; rewrite ?Hview; try done; try by auto.
  - destruct He as (cap & lru & free & []). exists cap, lru, free. by split.
  - destruct room'; [|done]. apply Forall_app. split; [done|]. apply Forall_singleton. split.
    + destruct Ht as (? & ? & _ & ? & ?). by split_and!.
    + simpl. unfold slots in *. by rewrite lookup_insert_eq.
  - destruct room'; [|done]. apply Forall_app. split; [done|]. apply Forall_singleton. by exists t.
  - eapply Forall_impl; [exact Hsl|]. by intros a; apply Hdom.
  - destruct room'; [by rewrite fmap_app, <- app_assoc|].
    rewrite app_comm_cons in Hids |- *. by apply (sorted_remove _ _ (id t)).
  - csimpl in Ham. destruct room'; [|lia]. unfold total_gross in *. rewrite fmap_app, zsum_app. csimpl.
    unfold req. simpl. rewrite gross_stamp. lia.
  - destruct room'; rewrite ?length_app in E2; simpl in E2; lia.
  - destruct room'; rewrite ?length_app; simpl; lia.
Qed.

(** The records of a batch. *)
Lemma batch_flight cap lru st txs errs chunk lru' st' nd :
  ledger_run cap lru st txs errs chunk lru' st' → Forall (λ err, ¬ log_failure err) errs →
  Forall tx_ok txs → Forall (comes_from pool) txs → ledger_ok st →
  volume st + 2 * zsum (gross <$> txs) ≤ INT64_MAX →
  StronglySorted Z.lt (last_applied_id_ st :: (id <$> txs)) →
  (length (cur nd) + 321 * length txs ≤ room)%nat →
  ∃ l, chunk = log_bytes l ∧ l.*1 = accepted txs errs ∧ flight nd st l ∧ st' = foldl post_state st l.*1 ∧
    replay_txs st l.*1 = Some st'.
Proof.
  intros Hrun Hno Htx Hfrom (Hwf & Himb & Hsz) Ham Hids Hlen.
  assert (0 ≤ zsum (gross <$> txs)) as Hg by (apply zsum_nonneg, Forall_fmap, Forall_true, gross_nonneg).
  destruct (ledger_run_replay _ _ _ _ _ _ _ _ (volume st) Hrun Hno Htx Hwf (balances_volume st)) as (l & -> & Hl & Hacc & Hrep);
    [lia|done|]. pose proof (accepted_sublist txs errs) as Hsub. rewrite <- Hacc in Hsub.
  pose proof (ledger_run_shapes _ _ _ _ _ _ _ _ Hrun) as Hshape. rewrite <- Hacc in Hshape.
  destruct (ledger_run_state _ _ _ _ _ _ _ _ Hrun) as [_ Hst']. rewrite <- Hacc in Hst'.
  assert (∀ k, ledger_ok (foldl post_state st (take k l.*1)) ∧ volume (foldl post_state st (take k l.*1)) ≤ INT64_MAX) as Hk.
  { intros k. destruct (Hrep k) as [Hr Hi].
    assert (take k l.*1 `sublist_of` l.*1) as Hsk by (rewrite <- (take_drop k l.*1) at 2; apply sublist_inserts_r, reflexivity).
    split; [split_and!|].
    - eapply replay_wf; [exact Hr|done|]. eapply Forall_sub; [by etrans|done].
    - by rewrite Hi.
    - by rewrite foldl_post_size.
    - pose proof (foldl_post_volume st (take k l.*1) (Forall_take _ _ _ Hshape)).
      pose proof (gross_sublist (take k l.*1) txs ltac:(by etrans)). lia. }
  exists l. split_and!; [done|done| |done|].
  - split; [done| |by eapply Forall_sub| |].
    + pose proof (log_bytes_bound l Hl). pose proof (sublist_length _ _ Hsub) as Hle. rewrite length_fmap in Hle.
      rewrite length_app. lia.
    + eapply sorted_sublist; [|exact Hids]. by apply sublist_skip, fmap_sublist.
    + intros k. cbv zeta. split; [apply Hrep|apply Hk].
  - destruct (Hrep (length l)) as [Hr _]. rewrite take_ge in Hr by (by rewrite length_fmap). by rewrite Hr, Hst'.
Qed.

Lemma total_gross_txs rs : total_gross rs = zsum (gross <$> (tx <$> rs)).
Proof. unfold total_gross. by rewrite <- list_fmap_compose. Qed.

Lemma total_gross_split n q : total_gross q = total_gross (take n q) + total_gross (drop n q).
Proof. unfold total_gross. rewrite <- zsum_app, <- fmap_app. by rewrite take_drop. Qed.

Lemma process_done n evs nd q e s w :
  running (Process n :: evs) nd q e s w → event_done (Process n) evs nd e s w.
Proof.
  intros [Hrest Hopen Hoff Hm He Hrg Hq Hfrom Hsl Htx Hids Ham Hpos Hlen Hled Hrel].
  cbn [submitted slots_used omap list_omap] in *. fold (submitted evs) in *. fold (slots_used evs) in *.
  destruct He as (cap & lru & free & He).
  assert (0 ≤ zsum (gross <$> submitted evs)) as HG by (apply zsum_nonneg, Forall_fmap, Forall_true, gross_nonneg).
  rewrite <- (take_drop n q) in Hq, Hfrom, Hids, Hlen. rewrite fmap_app, <- app_assoc in Hids. rewrite length_app in Hlen.
  apply Forall_app in Hq as [Hq1 Hq2]. apply Forall_app in Hfrom as [Hf1 Hf2].
  rewrite (total_gross_split n q) in Ham. rewrite list_fmap_compose in Hids.
  pose proof (total_gross_nonneg (take n q)). pose proof (total_gross_nonneg (drop n q)). pose proof (volume_nonneg (ledger e)).
  destruct (process_loop_spec hash64 n 0 cap p (volume (ledger e)) e lru free q s w i nd)
    as (errs & e' & w' & Hrun & [Hb1 [Hrg' Henq] [Hfd' Hm'] Hb4 _ _]); try done; [unfold ring_headroom; lia|lia|].
  destruct Hb1 as (chunk & lru' & free' & nd' & Hl & Hcur & Hok' & Hopen' & (Hfr & _ & hs & Hh & Hall) & Hst' & Hoff').
  destruct (Hb4 Hrel) as [Hrel' Hno].
  destruct (batch_flight cap lru.*2 (ledger e) (tx <$> take n q) errs chunk lru'.*2 (ledger e') nd)
    as (l & -> & Hacc & Hfl & Hled' & Hrep); try done.
  { apply Forall_fmap. eapply Forall_impl; [exact Hq1|]. by intros r [? _]. }
  { by apply Forall_fmap. }
  { rewrite <- total_gross_txs. lia. }
  { rewrite app_comm_cons in Hids. by apply sorted_prefix in Hids. }
  { rewrite length_fmap. lia. }
  assert (l.*1 `sublist_of` (tx <$> take n q)) as Hsub by (rewrite Hacc; apply accepted_sublist).
  exists e', (answer_slots s (take n q) errs), w', hs, nd', (drop n q), l.
  simpl. unfold process_pending. msimpl. rewrite Hrun. msimpl. split_and!; [done|done| |done|done|].
  { eapply Forall_impl; [exact Hall|]. intros f (Hff & nf & Hnf & Hg1 & [Hg2 _]).
    eapply frame_in_flight; try done; [apply Hfl|by rewrite <- Hcur]. }
  assert (∀ a, is_Some (s !! a) → is_Some (answer_slots s (take n q) errs !! a)) as Hdom by (intros a; apply answer_slots_dom).
  pose proof (fl_replay _ _ _ Hfl (length l)) as (_ & Hlok & _). rewrite take_ge, <- Hled' in Hlok by (by rewrite length_fmap).
  pose proof (fl_room _ _ _ Hfl) as Hroom. rewrite <- Hcur in Hroom.
  assert (volume (ledger e') ≤ volume (ledger e) + 2 * total_gross (take n q)) as Hvol.
  { rewrite Hled'. pose proof (ledger_run_shapes _ _ _ _ _ _ _ _ Hl) as Hs. rewrite <- Hacc in Hs.
    pose proof (foldl_post_volume (ledger e) l.*1 Hs). pose proof (gross_sublist _ _ Hsub).
    rewrite total_gross_txs. lia. }
  split; try done.
  - destruct Hopen' as (? & _ & Hnd'). apply (frame_at_rest wal sp (view w) _ i (fd_ (wal_writer_ e)) nd (ledger e) l); try done.
    + apply Hst'; [done|done|apply Hrest].
    + apply Hfl.
  - by apply Hoff'.
  - by rewrite Hm'.
  - exists cap, lru', free'. destruct Hok'. split; try done. apply balances_volume.
  - eapply Forall_impl; [exact Hq2|]. intros r. by apply request_ok_dom.
  - eapply Forall_impl; [exact Hsl|]. intros a. apply Hdom.
  - rewrite Hled'. by eapply sorted_after.
  - lia.
  - by rewrite Henq.
  - pose proof (log_bytes_bound l (fl_entries _ _ _ Hfl)). pose proof (sublist_length _ _ Hsub) as Hle.
    rewrite !length_fmap in Hle. rewrite Hcur, length_app. lia.
Qed.

Lemma checkpoint_done evs nd q e s w :
  running (Checkpoint :: evs) nd q e s w → event_done Checkpoint evs nd e s w.
Proof.
  intros Hr. pose proof (run_room _ _ _ _ _ _ Hr) as Hfl.
  destruct Hr as [Hrest Hopen Hoff Hm He Hrg Hq Hfrom Hsl Htx Hids Ham Hpos Hlen Hled Hrel].
  cbn [submitted slots_used omap list_omap] in *. fold (submitted evs) in *. fold (slots_used evs) in *.
  assert (Z.of_nat (length (cur nd)) + 2048 ≤ INT64_MAX) as Hsize by lia. unfold INT64_MAX in Hsize.
  destruct (checkpoint_spec wal sp Hpaths pad (visit (ledger e)) w i nd (ledger e) Hrest)
    as (w' & hs & Hrun & Hrel' & Hh & Hall & Hrest' & Hfds); [|done|].
  { destruct Hled as (? & ? & ?). split_and!; try done; range_lia. }
  exists e, s, w', hs, nd, q, []. unfold handle, size_bytes, wal_writer, state_working_copy. cbv zeta.
  unfold offset_right in Hoff. rewrite wrap64_id in Hoff by range_lia. rewrite Hoff. msimpl. rewrite Hrun. msimpl.
  split_and!; [done|done|done|done|done|]. split; try done.
  - destruct Hopen as (pos & Hd & _). exists pos. split; [by apply Hfds|apply Hrest'].
  - unfold offset_right. by rewrite wrap64_id by range_lia.
Qed.

Lemma handle_done ev evs nd q e s w : running (ev :: evs) nd q e s w → event_done ev evs nd e s w.
Proof. destruct ev; [apply submit_done|apply process_done|apply checkpoint_done]. Qed.

Lemma serve_done done evs nd q e s w :
  running (done ++ evs) nd q e s w →
  ∃ e' s' w' nd' q' l, serve hash64 pad visit sp done e s w = Some (e', s', w') ∧
    ledger e' = foldl post_state (ledger e) l ∧ Forall (comes_from pool) l ∧
    StronglySorted Z.lt (last_applied_id_ (ledger e) :: (id <$> l)) ∧ running evs nd' q' e' s' w'.
Proof.
  revert nd q e s w. induction done as [|ev done IH]; intros nd q e s w Hr; cbn [app serve] in *.
  { exists e, s, w, nd, q, []. msimpl. split_and!; try done. by repeat constructor. }
  destruct (handle_done _ _ _ _ _ _ _ Hr) as (e1 & s1 & w1 & hs & nd1 & q1 & l & Hrun & _ & _ & Hfl & Hl & Hr1).
  destruct (IH _ _ _ _ _ Hr1) as (e' & s' & w' & nd' & q' & l' & Hrun' & Hl' & Hf & Hs & Hr').
  exists e', s', w', nd', q', (l.*1 ++ l'). msimpl. rewrite Hrun. msimpl. split_and!; [done| | | |done].
  - by rewrite foldl_app, <- Hl.
  - apply Forall_app. split; [apply Hfl|done].
  - apply sorted_join; [apply Hfl|by rewrite <- Hl].
Qed.
End Running.

(** A ledger on disk that recovery has read. *)
Definition healthy (st : LedgerState) (w : world) : Prop :=
  reliable w ∧ ledger_ok st ∧ ∃ i nd, at_rest wal sp (view w) i nd st.

Lemma resume_running room evs s st w :
  healthy st w → plan_ok room st (view w) evs s →
  ∃ i nd e w', resume config st w = Some (LedgerError.None, e, w') ∧ ledger e = st ∧
    running room (submitted evs) i evs nd [] e s w'.
Proof.
  intros (Hrel & Hled & i & nd & Hrest) [Htx Hsl Hids Ham Hpos Hlog Hroom].
  pose proof (nm_wal _ _ _ _ (rest_names _ _ _ _ _ _ Hrest)) as [Hw _]. pose proof (rest_log _ _ _ _ _ _ Hrest) as Hi.
  destruct (writer_open_existing wal (sync_mode config) w i nd Hw Hi Hrel)
    as (d & w' & Hop & Hd & Hrel' & Hon & Hdir & Hsdir & Hfiles).
  unfold resume, engine_open. eexists i, nd, _, w'. cbn [config_ make_engine wal_writer_]. msimpl. rewrite Hop. msimpl.
  split; [done|]. split; [done|].
  assert (at_rest wal sp (view w') i nd st) as Hrest' by (by eapply at_rest_fds).
  assert (contents (view w) wal = Some (cur nd)) as Hc by (unfold contents, file_at; rewrite Hw; simpl; by rewrite Hi).
  specialize (Hlog _ Hc). change (total_gross []) with 0.
  split; cbn [state_ wal_writer_ ring_ set_state_working_copy with_state with_writer make_engine set_working_copy working_copy
    fd_ offset_ sync_mode_ fmap list_fmap app length enqueue_pos_ make_ring] in *; try done.
  - exists (cache_cap (idempotency_capacity config)), [], (Z.of_nat <$> seq 0 (cache_cap (idempotency_capacity config))).
    split; simpl; [unfold cache_cap; lia|by apply make_cache_rep|apply Hled|apply balances_volume|done].
  - rewrite Hring. by apply make_ring_rep.
  - apply Forall_forall. intros t Ht. split; [|done]. by rewrite Forall_forall in Htx; apply Htx.
Qed.

Lemma session_runs room evs ev s st w :
  healthy st w → plan_ok room st (view w) (evs ++ [ev]) s →
  ∃ i nd q e1 w1 e2 s2 w2 applied,
    resume config st w = Some (LedgerError.None, e1, w1) ∧
    serve hash64 pad visit sp evs e1 s w1 = Some (e2, s2, w2) ∧
    ledger e2 = foldl post_state st applied ∧ Forall (comes_from (submitted (evs ++ [ev]))) applied ∧
    StronglySorted Z.lt (last_applied_id_ st :: (id <$> applied)) ∧
    running room (submitted (evs ++ [ev])) i [ev] nd q e2 s2 w2.
Proof.
  intros Hw Hplan. pose proof (plan_room _ _ _ _ _ Hplan) as Hroom.
  destruct (resume_running room _ s st w Hw Hplan) as (i & nd & e1 & w1 & Hres & Hl1 & Hr1).
  destruct (serve_done room _ i Hroom evs [ev] nd [] e1 s w1 Hr1) as (e2 & s2 & w2 & nd2 & q2 & applied & Hrun & Hl2 & Hf & Hs & Hr2).
  rewrite Hl1 in Hl2, Hs. by exists i, nd2, q2, e1, w1, e2, s2, w2, applied.
Qed.

(** *** Coming up again *)

(** After a loss of power in view [f] the machine is up in world [w], perhaps after
    recoveries that were themselves cut short by a loss of power. *)
Inductive boots (fuel : nat) (f : fs) : world → Prop :=
  | boot_now w : power_cycle f (view w) → reliable w → boots fuel f w
  | boot_again w r w1 hs g w2 :
      boots fuel f w → recover fuel visit wal sp w = Some (r, w1) → history w1 = history w ++ hs →
      g ∈ view w :: hs → power_cycle g (view w2) → reliable w2 → boots fuel f w2.

Section Boots.
Variables (room : nat) (pool : list Transaction) (i : Z) (fuel : nat) (nd : inode) (st : LedgerState).
Variables (l : list (Transaction * Z)).
Hypothesis Hroom : Z.of_nat room + 2048 ≤ INT64_MAX.
Hypothesis Hfuel : (room < fuel)%nat.
Hypothesis Hfl : flight room pool nd st l.

Lemma flight_recovers w :
  crashed wal sp (view w) i nd st l → reliable w →
  ∃ k w' nd', (k ≤ length l)%nat ∧
    recover fuel visit wal sp w =
      Some (Some (Value (mkRecovered (foldl post_state st (take k l.*1)) (Z.of_nat (length (cur nd'))))), w') ∧
    reliable w' ∧ at_rest wal sp (view w') i nd' (foldl post_state st (take k l.*1)) ∧
    cur nd' = cur nd ++ log_bytes (take k l) ∧
    (∀ c, files (view w) !! i = Some (mkInode c c) → cur nd' `prefix_of` c).
Proof.
  intros Hw Hrel. destruct Hfl as [Hl Hlen _ _ Hrep]. apply recover_crashed; try done; [|lia|lia].
  intros k. destruct (Hrep k) as (Hr & (_ & Hi & _) & Hv). by split_and!.
Qed.

(** Every view on the way can be lost power in. *)
Lemma recovery_in_flight w r w1 hs g :
  crashed wal sp (view w) i nd st l → reliable w → recover fuel visit wal sp w = Some (r, w1) →
  history w1 = history w ++ hs → g ∈ view w :: hs → in_flight wal sp g i nd st l.
Proof.
  intros Hw Hrel Hrun Hh Hg. pose proof (cr_flight _ _ _ _ _ _ _ Hw) as Hfly.
  apply elem_of_cons in Hg as [->|Hg]; [done|].
  destruct (flight_recovers w Hw Hrel) as (k & w' & nd' & Hk & Hrun' & _ & Hrest & Hcur & Hpre).
  rewrite Hrun in Hrun'. injection Hrun' as -> <-. destruct (cr_log _ _ _ _ _ _ _ Hw) as (c & Hc & Hbreak).
  destruct (nm_wal _ _ _ _ (fly_names _ _ _ _ _ _ _ Hfly)) as [Hwal _].
  assert (is_Some (file_at (view w) sp)) as Hsp.
  { destruct (nm_sp _ _ _ _ (fly_names _ _ _ _ _ _ _ Hfly)) as [[j Hj] _]. unfold file_at. rewrite Hj.
    by apply (cr_files _ _ _ _ _ _ _ Hw sp). }
  destruct (recover_views fuel visit wal sp w _ w1 i _ Hsp Hwal Hc Hrun) as (nd1 & Hs & (hs' & Hh' & Hall) & _).
  rewrite Hh in Hh'. apply app_inv_head in Hh' as <-. rewrite Forall_forall in Hall.
  assert (nd1 = nd') as ->.
  { destruct Hs as (_ & _ & _ & Hs). pose proof (rest_log _ _ _ _ _ _ Hrest) as Hlog. rewrite Hs in Hlog.
    simpl in Hlog. rewrite lookup_insert_eq in Hlog. by injection Hlog. }
  eapply cutting_in_flight; [exact Hfly|by apply Hall|done| |by apply Hpre].
  rewrite Hcur. by apply torn_records.
Qed.

Lemma boots_crashed f w :
  in_flight wal sp f i nd st l → boots fuel f w → crashed wal sp (view w) i nd st l ∧ reliable w.
Proof.
  intros Hf. induction 1 as [w Hcyc Hrel|w r w1 hs g w2 _ [Hw Hrel] Hrun Hh Hg Hcyc Hrel2].
  - split; [eapply cycle_crashed; [done|apply Hfl|done]|done].
  - split; [|done]. eapply cycle_crashed; [|apply Hfl|exact Hcyc]. by eapply recovery_in_flight.
Qed.

(** A loss of power while an event is worked on, or before. *)
Lemma crash_recovers f w :
  in_flight wal sp f i nd st l → boots fuel f w →
  ∃ k off w', (k ≤ length l.*1)%nat ∧
    recover fuel visit wal sp w = Some (Some (Value (mkRecovered (foldl post_state st (take k l.*1)) off)), w') ∧
    healthy (foldl post_state st (take k l.*1)) w'.
Proof.
  intros Hf Hb. destruct (boots_crashed f w Hf Hb) as [Hw Hrel].
  destruct (flight_recovers w Hw Hrel) as (k & w' & nd' & Hk & Hrun & Hrel' & Hrest & _).
  exists k, (Z.of_nat (length (cur nd'))), w'. rewrite length_fmap. split_and!; [done|done|].
  split_and!; [done|apply (fl_replay _ _ _ _ _ Hfl k)|by exists i, nd'].
Qed.
End Boots.

(** C4: A session can be cut short anywhere without losing the ledger.  The engine
    synchronises every write, no system call fails, the ids that are submitted increase
    from the ledger's last one, and amounts and log have room ([plan_ok]).  On a disk that
    recovery has read, an engine starts and works through any such events [evs] and a last
    one [ev]; its ledger is the one it started from after some of the submitted
    transactions.  Let the machine then lose power before the last event or at any of the
    points the environment passes through during it, and again during any number of
    recoveries.  Each time the synchronised bytes of the log are there, and behind them
    any others, up to the length of the log, that do not pass for a record which was not
    written ([survives]); the snapshot's name is bound to the old or the new file.  Then
    recovery ends and gives the ledger before the event after some first transactions the
    event was committing, and leaves a disk on which the next engine can be started the
    same way. *)
Theorem session_recovers room fuel evs ev s st w :
  healthy st w → plan_ok room st (view w) (evs ++ [ev]) s → (room < fuel)%nat →
  ∃ e1 w1 e2 s2 w2 e3 s3 w3 hs applied extra,
    resume config st w = Some (LedgerError.None, e1, w1) ∧
    serve hash64 pad visit sp evs e1 s w1 = Some (e2, s2, w2) ∧
    handle hash64 pad visit sp ev e2 s2 w2 = Some (e3, s3, w3) ∧ history w3 = history w2 ++ hs ∧
    ledger e2 = foldl post_state st applied ∧ ledger e3 = foldl post_state (ledger e2) extra ∧
    Forall (comes_from (submitted (evs ++ [ev]))) (applied ++ extra) ∧
    StronglySorted Z.lt (last_applied_id_ st :: (id <$> applied ++ extra)) ∧
    ∀ f w4, f ∈ view w2 :: hs → boots fuel f w4 →
      ∃ k off w5, (k ≤ length extra)%nat ∧
        recover fuel visit wal sp w4 =
          Some (Some (Value (mkRecovered (foldl post_state (ledger e2) (take k extra)) off)), w5) ∧
        healthy (foldl post_state (ledger e2) (take k extra)) w5.
Proof.
  intros Hw Hplan Hfuel. pose proof (plan_room _ _ _ _ _ Hplan) as Hroom.
  destruct (session_runs room evs ev s st w Hw Hplan)
    as (i & nd & q & e1 & w1 & e2 & s2 & w2 & applied & Hres & Hserve & Hl2 & Hfrom & Hids & Hrun).
  destruct (handle_done _ _ _ Hroom _ _ _ _ _ _ _ Hrun) as (e3 & s3 & w3 & hs & nd3 & q3 & l & Hev & Hh & Hall & Hfl & Hl3 & _).
  exists e1, w1, e2, s2, w2, e3, s3, w3, hs, applied, l.*1. split_and!; try done.
  - apply Forall_app. split; [done|apply Hfl].
  - apply sorted_join; [done|]. rewrite <- Hl2. apply Hfl.
  - intros f w4 Hf Hboot. pose proof (run_rest _ _ _ _ _ _ _ _ _ Hrun) as Hrest.
    eapply crash_recovers; try done. apply elem_of_cons in Hf as [->|Hf].
    + by apply in_flight_more, rest_in_flight.
    + rewrite Forall_forall in Hall. by apply Hall.
Qed.

(** *** Restarts *)

(** Sessions one after the other, each ended by a loss of power and followed by
    recovery, on whose result the next engine is started; [reached] are the ledgers
    the engines had before the events that were cut short, [pool] is all that was
    ever submitted. *)
Inductive life (fuel : nat) (st0 : LedgerState) (w0 : world) :
    list Transaction → list LedgerState → LedgerState → world → Prop :=
  | life_start : life fuel st0 w0 [] [] st0 w0
  | life_session pool reached st w room evs ev s e1 w1 e2 s2 w2 e3 s3 w3 hs f w4 rs w5 :
      life fuel st0 w0 pool reached st w →
      plan_ok room st (view w) (evs ++ [ev]) s → (room < fuel)%nat →
      resume config st w = Some (LedgerError.None, e1, w1) →
      serve hash64 pad visit sp evs e1 s w1 = Some (e2, s2, w2) →
      handle hash64 pad visit sp ev e2 s2 w2 = Some (e3, s3, w3) → history w3 = history w2 ++ hs →
      f ∈ view w2 :: hs → boots fuel f w4 →
      recover fuel visit wal sp w4 = Some (Some (Value rs), w5) →
      life fuel st0 w0 (pool ++ submitted (evs ++ [ev])) (reached ++ [ledger e2]) (rec_state rs) w5.

Lemma comes_from_mono pool pool' t : pool ⊆ pool' → comes_from pool t → comes_from pool' t.
Proof. intros Hp' (t0 & Hin & Hrest). exists t0. split; [by apply Hp'|done]. Qed.

(** One session of a life. *)
Lemma session_cut fuel room evs ev s st w e1 w1 e2 s2 w2 e3 s3 w3 hs f w4 rs w5 :
  healthy st w → plan_ok room st (view w) (evs ++ [ev]) s → (room < fuel)%nat →
  resume config st w = Some (LedgerError.None, e1, w1) →
  serve hash64 pad visit sp evs e1 s w1 = Some (e2, s2, w2) →
  handle hash64 pad visit sp ev e2 s2 w2 = Some (e3, s3, w3) → history w3 = history w2 ++ hs →
  f ∈ view w2 :: hs → boots fuel f w4 →
  recover fuel visit wal sp w4 = Some (Some (Value rs), w5) →
  healthy (rec_state rs) w5 ∧ ∃ applied extra, ledger e2 = foldl post_state st applied ∧
    rec_state rs = foldl post_state st (applied ++ extra) ∧
    Forall (comes_from (submitted (evs ++ [ev]))) (applied ++ extra) ∧
    StronglySorted Z.lt (last_applied_id_ st :: (id <$> applied ++ extra)).
Proof.
  intros Hw Hplan Hfuel Hres Hserve Hev Hh Hf Hboot Hrec. pose proof (plan_room _ _ _ _ _ Hplan) as Hroom.
  destruct (session_runs room evs ev s _ w Hw Hplan)
    as (i & nd & q & ? & ? & ? & ? & ? & applied & Hres' & Hserve' & Hl2 & Hfrom & Hids & Hrun).
  rewrite Hres in Hres'. injection Hres' as <- <-. rewrite Hserve in Hserve'. injection Hserve' as <- <- <-.
  destruct (handle_done room _ i Hroom _ _ _ _ _ _ _ Hrun) as (? & ? & ? & hs' & nd3 & q3 & l & Hev' & Hh' & Hall & Hfl & _ & _).
  rewrite Hev in Hev'. injection Hev' as <- <- <-. rewrite Hh in Hh'. apply app_inv_head in Hh' as <-.
  pose proof (run_rest _ _ _ _ _ _ _ _ _ Hrun) as Hrest.
  destruct (crash_recovers room (submitted (evs ++ [ev])) i fuel nd (ledger e2) l Hroom Hfuel Hfl f w4)
    as (k & off & w' & Hk & Hrec' & Hw'); try done.
  { apply elem_of_cons in Hf as [->|Hf]; [by apply in_flight_more, rest_in_flight|].
    rewrite Forall_forall in Hall. by apply Hall. }
  rewrite Hrec in Hrec'. injection Hrec' as -> <-. split; [done|]. simpl.
  exists applied, (take k l.*1). split_and!; [done|by rewrite foldl_app, <- Hl2| |].
  - apply Forall_app. split; [done|apply Forall_take, Hfl].
  - apply sorted_join; [done|]. rewrite <- Hl2. eapply sorted_sublist, (fl_ids _ _ _ _ _ Hfl).
    apply sublist_skip, fmap_sublist. rewrite <- (take_drop k l.*1) at 2. by apply sublist_inserts_r.
Qed.

(** The state of a life, and what it came from. *)
Definition life_kept (st0 : LedgerState) (pool : list Transaction) (reached : list LedgerState) (st : LedgerState)
    (w : world) : Prop :=
  healthy st w ∧ ∃ applied, st = foldl post_state st0 applied ∧ Forall (comes_from pool) applied ∧
    StronglySorted Z.lt (last_applied_id_ st0 :: (id <$> applied)) ∧
    Forall (λ old, ∃ pre, pre `prefix_of` applied ∧ old = foldl post_state st0 pre) reached.

(** C3: A life never loses and never repeats.  The engines synchronise every write, no
    system call fails, and each session submits ids that increase from the last one of
    its ledger, and fits ([plan_ok]).  After any number of sessions, each on what recovery
    made of the one before, with losses of power as in [session_recovers] anywhere in
    sessions and recoveries, the ledger is the first one after a sequence of submitted
    transactions with strictly increasing ids, so that none is applied twice; every ledger
    an engine had reached before the event that was cut short is a prefix of that history;
    and the disk is ready for the next session. *)
Theorem restarts_lose_nothing fuel st0 w0 pool reached st w :
  healthy st0 w0 → life fuel st0 w0 pool reached st w → life_kept st0 pool reached st w.
Proof.
  intros Hw0. induction 1 as [|pool reached st w room evs ev s e1 w1 e2 s2 w2 e3 s3 w3 hs f w4 rs w5 _ IH
    Hplan Hfuel Hres Hserve Hev Hh Hf Hboot Hrec].
  { split; [done|]. exists []. split_and!; [done|constructor|by repeat constructor|constructor]. }
  destruct IH as (Hw & old & Hst & Hold & Hids & Hreach).
  destruct (session_cut fuel room evs ev s st w e1 w1 e2 s2 w2 e3 s3 w3 hs f w4 rs w5)
    as (Hw' & applied & extra & Hl2 & Hrs & Hfrom & Hids'); try done.
  split; [done|]. exists (old ++ applied ++ extra). split_and!.
  - by rewrite foldl_app, <- Hst.
  - apply Forall_app. split; (eapply Forall_impl; [eassumption|]); intros t; apply comes_from_mono; set_solver.
  - apply sorted_join; [done|by rewrite <- Hst].
  - apply Forall_app. split.
    + eapply Forall_impl; [exact Hreach|]. intros x (pre & Hpre & ->). exists pre. split; [by apply prefix_app_r|done].
    + apply Forall_singleton. exists (old ++ applied). split; [by apply prefix_app, prefix_app_r|].
      by rewrite foldl_app, <- Hst.
Qed.
End Life.

(** ** A life with two sessions *)

Module ExampleLife.
Definition pad : list byte := ExampleSnapshot.pad.
Definition config : Config := ExampleEngine.config.
Definition hash64 : Z → Z := ExampleEngine.hash64.
Definition visit : LedgerState → list (AccountId * Account) := ExampleRecovery.visit.
Definition pending : slots := ExampleEngine.pending.

(** Starting an engine, working through the events, and one more. *)
Record session := mkSession {
  started : LedgerEngine * MemFs.mem;
  served : LedgerEngine * slots * MemFs.mem;
  ended : LedgerEngine * slots * MemFs.mem
}.
Definition play (st : LedgerState) (w : MemFs.mem) (evs : list event) (ev : event) : option session :=
  '(r, e1, w1) ← resume (H := MemFs.posix) config st w;
  '(e2, s2, w2) ← serve (H := MemFs.posix) hash64 pad visit "/d/snap" evs e1 pending w1;
  '(e3, s3, w3) ← handle (H := MemFs.posix) hash64 pad visit "/d/snap" ev e2 s2 w2;
  if has_value r then Some (mkSession (e1, w1) (e2, s2, w2) (e3, s3, w3)) else None.

(** Two transfers with a snapshot between them; power is lost while the second is
    written to the log, and seventeen bytes of its record are on disk, and zeros behind
    them. *)
Definition first_events : list event :=
  [Submit (ExampleLedger.tx 1 10) 0; Process 1; Checkpoint; Submit (ExampleLedger.tx 3 20) 1].
Definition first : option session := play ExampleLedger.state ExampleEngine.disk first_events (Process 5).
Definition nowhere : fs := MemFs.disk [].
Definition first_seen : fs :=
  match first with
  | Some x => default nowhere (MemFs.hist (ended x).2 !! S (length (MemFs.hist (served x).2)))
  | None => nowhere
  end.
(** What is left when the log has the contents [c]. *)
Definition power_up (f : fs) (c : list byte) : MemFs.mem :=
  let f' := mkFs (dir f) (dir f) (dirs f) (<[0 := mkInode c c]> (files f)) ∅ in MemFs.mkMem f' [f'] [] 1.
Definition log_of (f : fs) : inode := default (mkInode [] []) (files f !! 0).
Definition first_left : MemFs.mem := power_up first_seen (take 100 (cur (log_of first_seen)) ++ replicate 20 Byte.x00).
Definition recovered (w : MemFs.mem) : LedgerState * MemFs.mem :=
  match recover (H := MemFs.posix) 2000 visit "/d/wal" "/d/snap" w with
  | Some (Some (Value rs), w') => (rec_state rs, w')
  | _ => (empty_state, w)
  end.

(** Power is lost again while recovery cuts the log: it has done so, but the disk has
    twelve of the bytes that are to go, and five others. *)
Definition again_seen : fs :=
  match recover (H := MemFs.posix) 2000 visit "/d/wal" "/d/snap" first_left with
  | Some (_, w') => default nowhere (list_find (λ f, length (cur (log_of f)) ≠ length (stable (log_of f))) (MemFs.hist w') ≫= λ x, Some x.2)
  | None => nowhere
  end.
Definition again_left : MemFs.mem := power_up again_seen (take 95 (stable (log_of again_seen)) ++ replicate 5 Byte.xff).

(** One more transfer; power is lost while a snapshot is written, after [rename]. *)
Definition second_events : list event := [Submit (ExampleLedger.tx 4 5) 0; Process 1].
Definition second : option session :=
  let '(st, w) := recovered again_left in play st w second_events Checkpoint.
Definition second_seen : fs :=
  match second with
  | Some x => default nowhere (MemFs.hist (ended x).2 !! (5 + length (MemFs.hist (served x).2))%nat)
  | None => nowhere
  end.
Definition second_left : MemFs.mem := power_up second_seen (cur (log_of second_seen)).
(** The ledger after both. *)
Definition final : LedgerState := (recovered second_left).1.
End ExampleLife.

Abbreviation example_healthy := (healthy (L := MemFs.posix_laws) ExampleLife.config "/d/snap").
Abbreviation example_plan := (plan_ok ExampleLife.config 2 1000).
Abbreviation example_lives := (life (L := MemFs.posix_laws) ExampleLife.hash64 ExampleLife.pad ExampleLife.visit
  ExampleLife.config "/d/snap" 2 2000 ExampleLedger.state ExampleEngine.disk).
Abbreviation example_boots := (boots (L := MemFs.posix_laws) ExampleLife.visit ExampleLife.config "/d/snap" 2000).

Lemma example_healthy_disk : example_healthy ExampleLedger.state ExampleEngine.disk.
Proof.
  split; [done|]. split; [split_and!; by_compute|]. exists 0, (mkInode [] []). split; try done.
  - intros j Hj. assert (j = 1) as -> by (destruct Hj as [[= <-]|[= <-]]; done). split; [done|].
    exists ExampleRecovery.chart, ExampleLedger.state, []. split_and!; [done|vm_compute; reflexivity|].
    exists []. by split_and!.
  - by right.
Qed.

(** The contents [c] a file may be left with. *)
Definition survived (lo hi c : list byte) : Prop :=
  lo `prefix_of` c ∧ (length c ≤ length hi)%nat ∧ Forall (genuine hi c) (seq 0 (length c)).
Definition leaves (nd : inode) (c : list byte) : Prop :=
  (stable nd `prefix_of` cur nd → survived (stable nd) (cur nd) c) ∧
  (cur nd `prefix_of` stable nd → survived (cur nd) (stable nd) c).
#[local] Instance survived_dec lo hi c : Decision (survived lo hi c).
Proof. unfold survived. apply _. Defined.
#[local] Instance leaves_dec nd c : Decision (leaves nd c).
Proof. unfold leaves. apply _. Defined.

Lemma power_up_cycle f c nd :
  files f !! 0 = Some nd → leaves nd c →
  map_Forall (λ j nd', j = 0 ∨ stable nd' = cur nd') (files f) → map_Forall (λ _ k, is_Some (files f !! k)) (dir f) →
  power_cycle f (MemFs.mfs (ExampleLife.power_up f c)).
Proof.
  intros Hi [Hgrow Hcut] Hall Hnames.
  assert (∀ j nd', files f !! j = Some nd' → j ≠ 0 → files f !! j = Some (mkInode (cur nd') (cur nd')) ∧ stable nd' = cur nd') as Hold.
  { intros j nd' Hj Hne. destruct (Hall j nd' Hj) as [?|Hs]; [done|]. split; [|done]. destruct nd'. simpl in *. by subst. }
  split_and!; [split_and!; [by left| |done]| |done| |naive_solver]; simpl.
  1, 2: intros j nd' Hj Hpre; (destruct (decide (0 = j)) as [<-|Hne];
    [simplify_eq; exists c; rewrite lookup_insert_eq; split; [done|apply survives_offsets; first [exact (Hgrow Hpre)|exact (Hcut Hpre)]]|]);
    destruct (Hold j nd' Hj) as [Hj' Hs]; [done|]; exists (cur nd'); rewrite lookup_insert_ne, Hs by done; (split; [done|by apply prefix_survives]).
  intros q k Hq. destruct (decide (0 = k)) as [<-|Hk]; [by rewrite lookup_insert_eq|].
  rewrite lookup_insert_ne by done. by apply (Hnames q).
Qed.

Lemma play_inv st w evs ev x :
  ExampleLife.play st w evs ev = Some x →
  resume (H := MemFs.posix) ExampleLife.config st w =
    Some (LedgerError.None, (ExampleLife.started x).1, (ExampleLife.started x).2) ∧
  serve (H := MemFs.posix) ExampleLife.hash64 ExampleLife.pad ExampleLife.visit "/d/snap" evs
    (ExampleLife.started x).1 ExampleLife.pending (ExampleLife.started x).2 = Some (ExampleLife.served x) ∧
  handle (H := MemFs.posix) ExampleLife.hash64 ExampleLife.pad ExampleLife.visit "/d/snap" ev
    (ExampleLife.served x).1.1 (ExampleLife.served x).1.2 (ExampleLife.served x).2 = Some (ExampleLife.ended x).
Proof.
  unfold ExampleLife.play. destruct (resume _ _ _) as [[[r e1] w1]|]; [|done]. simpl.
  destruct (serve _ _ _ _ _ _ _ _) as [[[e2 s2] w2]|] eqn:Hs; [|done]. simpl.
  destruct (handle _ _ _ _ _ _ _ _) as [[[e3 s3] w3]|] eqn:Hh; [|done]. simpl.
  destruct (has_value r) eqn:Hr; [|done]. intros [= <-]. simpl. unfold has_value in Hr.
  apply bool_decide_eq_true in Hr as ->. by rewrite Hs.
Qed.

Lemma play_life pool reached st w evs ev x n f w4 rs w5 :
  example_lives pool reached st w → example_plan st (MemFs.mfs w) (evs ++ [ev]) ExampleLife.pending →
  ExampleLife.play st w evs ev = Some x →
  take (length (MemFs.hist (ExampleLife.served x).2)) (MemFs.hist (ExampleLife.ended x).2) =
    MemFs.hist (ExampleLife.served x).2 →
  MemFs.hist (ExampleLife.ended x).2 !! (n + length (MemFs.hist (ExampleLife.served x).2))%nat = Some f →
  example_boots f w4 →
  recover (H := MemFs.posix) 2000 ExampleLife.visit "/d/wal" "/d/snap" w4 = Some (Some (Value rs), w5) →
  example_lives (pool ++ submitted (evs ++ [ev]))
    (reached ++ [working_copy (state_ (ExampleLife.served x).1.1)]) (rec_state rs) w5.
Proof.
  intros Hl Hplan Hx Hh Hf Hboot Hrec. destruct (play_inv _ _ _ _ _ Hx) as (Hres & Hserve & Hev).
  destruct (ExampleLife.served x) as [[e2 s2] w2], (ExampleLife.ended x) as [[e3 s3] w3]. simpl in *.
  eapply (life_session (L := MemFs.posix_laws)) with (hs := drop (length (MemFs.hist w2)) (MemFs.hist w3));
    [exact Hl|exact Hplan|lia|exact Hres|exact Hserve|exact Hev|..|exact Hboot|exact Hrec].
  - simpl. rewrite <- Hh at 1. by rewrite take_drop.
  - apply elem_of_cons. right. apply (list_elem_of_lookup_2 _ n). rewrite lookup_drop, Nat.add_comm. exact Hf.
Qed.

(** What a session of the example did, by evaluation. *)
Definition example_facts (o : option ExampleLife.session) (n : nat) (f : fs) (st : LedgerState) : Prop :=
  match o with
  | Some x => let before := MemFs.hist (ExampleLife.served x).2 in let hist := MemFs.hist (ExampleLife.ended x).2 in
      take (length before) hist = before ∧ hist !! (n + length before)%nat = Some f ∧
      working_copy (state_ (ExampleLife.served x).1.1) = st
  | None => False
  end.

(** A view in which only the log may not be synchronised. *)
Definition example_view (f : fs) : Prop :=
  map_Forall (λ j nd, j = 0 ∨ stable nd = cur nd) (files f) ∧ map_Forall (λ _ k, is_Some (files f !! k)) (dir f).

Lemma example_step pool reached st w evs ev n f w4 mid :
  example_lives pool reached st w → example_plan st (MemFs.mfs w) (evs ++ [ev]) ExampleLife.pending →
  example_facts (ExampleLife.play st w evs ev) n f mid → example_boots f w4 →
  (∃ rs, recover (H := MemFs.posix) 2000 ExampleLife.visit "/d/wal" "/d/snap" w4 =
    Some (Some (Value rs), (ExampleLife.recovered w4).2)) →
  example_lives (pool ++ submitted (evs ++ [ev])) (reached ++ [mid])
    (ExampleLife.recovered w4).1 (ExampleLife.recovered w4).2.
Proof.
  intros Hl Hplan Hfacts Hboot [rs Hrec]. unfold example_facts in Hfacts.
  destruct (ExampleLife.play st w evs ev) as [x|] eqn:Hx; [|done]. destruct Hfacts as (Hh & Hf & <-).
  replace (ExampleLife.recovered w4).1 with (rec_state rs) by (unfold ExampleLife.recovered; by rewrite Hrec).
  by eapply play_life.
Qed.

Lemma example_boot f c :
  files f !! 0 = Some (ExampleLife.log_of f) → leaves (ExampleLife.log_of f) c → example_view f →
  example_boots f (ExampleLife.power_up f c).
Proof. intros Hi Hc [Hall Hnames]. apply boot_now; [by eapply power_up_cycle|done]. Qed.

Lemma example_boot_again f w r w1 g c :
  example_boots f w → recover (H := MemFs.posix) 2000 ExampleLife.visit "/d/wal" "/d/snap" w = Some (r, w1) →
  take (length (MemFs.hist w)) (MemFs.hist w1) = MemFs.hist w → g ∈ drop (length (MemFs.hist w)) (MemFs.hist w1) →
  files g !! 0 = Some (ExampleLife.log_of g) → leaves (ExampleLife.log_of g) c → example_view g →
  example_boots f (ExampleLife.power_up g c).
Proof.
  intros Hb Hrun Hh Hg Hi Hc [Hall Hnames].
  eapply (boot_again (L := MemFs.posix_laws) _ _ _ _ _ w r w1 (drop (length (MemFs.hist w)) (MemFs.hist w1)) g);
    [done|exact Hrun| |by right|by eapply power_up_cycle|done].
  simpl. rewrite <- Hh at 1. by rewrite take_drop.
Qed.

Lemma example_log f nd :
  from_option (λ i, i = 0) False (dir f !! "/d/wal") → files f !! 0 = Some nd → (length (cur nd) ≤ 358)%nat →
  ∀ c, contents f "/d/wal" = Some c → (length c + 321 * 2 ≤ 1000)%nat.
Proof.
  intros Hd Hi Hlen c. unfold contents, file_at. destruct (dir f !! "/d/wal"); [|done]. simpl in *. subst.
  rewrite Hi. simpl. intros [= <-]. lia.
Qed.

Lemma example_first_plan :
  example_plan ExampleLedger.state (MemFs.mfs ExampleEngine.disk) (ExampleLife.first_events ++ [Process 5])
    ExampleLife.pending.
Proof.
  split; [repeat constructor; by_compute|repeat constructor; by eexists|repeat constructor; by_compute|by_compute..| |by_compute].
  by eapply example_log; [|reflexivity|simpl; lia].
Qed.

Ltac all_inodes :=
  apply map_Forall_to_list; vm_compute;
  repeat (apply Forall_cons; split; [first [left; reflexivity|right; reflexivity|eexists; reflexivity]|]); by apply Forall_nil.

Lemma example_first_boots : example_boots ExampleLife.first_seen ExampleLife.again_left.
Proof.
  destruct (recover (H := MemFs.posix) 2000 ExampleLife.visit "/d/wal" "/d/snap" ExampleLife.first_left)
    as [[r w1]|] eqn:Hrun; [|vm_compute in Hrun; discriminate].
  assert (match recover (H := MemFs.posix) 2000 ExampleLife.visit "/d/wal" "/d/snap" ExampleLife.first_left with
          | Some (_, w1) => take 1 (MemFs.hist w1) = MemFs.hist ExampleLife.first_left ∧
              drop 1 (MemFs.hist w1) !! 9%nat = Some ExampleLife.again_seen
          | None => False
          end) as Hfacts by (vm_compute; split; reflexivity).
  rewrite Hrun in Hfacts. destruct Hfacts as [Hh Hg].
  eapply example_boot_again; [|exact Hrun|exact Hh|by eapply list_elem_of_lookup_2|vm_compute; reflexivity|by_compute|split; all_inodes].
  apply example_boot; [vm_compute; reflexivity|by_compute|split; all_inodes].
Qed.

Lemma example_first : example_lives (submitted (ExampleLife.first_events ++ [Process 5]))
  [post_state ExampleLedger.state (ExampleLedger.tx 1 10)]
  (ExampleLife.recovered ExampleLife.again_left).1 (ExampleLife.recovered ExampleLife.again_left).2.
Proof.
  apply (example_step [] [] ExampleLedger.state ExampleEngine.disk ExampleLife.first_events (Process 5) 1
    ExampleLife.first_seen).
  - apply life_start.
  - apply example_first_plan.
  - vm_compute. split_and!; reflexivity.
  - apply example_first_boots.
  - eexists. vm_compute. reflexivity.
Qed.

Lemma example_second_plan :
  example_plan (ExampleLife.recovered ExampleLife.again_left).1
    (MemFs.mfs (ExampleLife.recovered ExampleLife.again_left).2) (ExampleLife.second_events ++ [Checkpoint])
    ExampleLife.pending.
Proof.
  split; [repeat constructor; by_compute|repeat constructor; by eexists|repeat constructor; by_compute|by_compute..| |by_compute].
  intros c Hc. cut (length c + 321 * 2 ≤ 1000)%nat; [simpl; lia|]. revert c Hc.
  eapply example_log; [vm_compute; reflexivity|vm_compute; reflexivity|vm_compute; lia].
Qed.

Lemma example_second : example_lives
  (submitted (ExampleLife.first_events ++ [Process 5]) ++ submitted (ExampleLife.second_events ++ [Checkpoint]))
  [post_state ExampleLedger.state (ExampleLedger.tx 1 10);
   post_state (post_state ExampleLedger.state (ExampleLedger.tx 1 10)) (ExampleLedger.tx 4 5)]
  ExampleLife.final (ExampleLife.recovered ExampleLife.second_left).2.
Proof.
  apply (example_step _ [_] _ _ ExampleLife.second_events Checkpoint 5 ExampleLife.second_seen
    ExampleLife.second_left _ example_first).
  - apply example_second_plan.
  - vm_compute. split_and!; reflexivity.
  - apply example_boot; [vm_compute; reflexivity|by_compute|split; all_inodes].
  - eexists. vm_compute. reflexivity.
Qed.

(** The first session of the example, cut short before its last event or during it. *)
Lemma session_recovers_witness :
  ∃ e1 w1 e2 s2 w2 e3 s3 w3 hs applied extra,
    resume (H := MemFs.posix) ExampleLife.config ExampleLedger.state ExampleEngine.disk =
      Some (LedgerError.None, e1, w1) ∧
    serve (H := MemFs.posix) ExampleLife.hash64 ExampleLife.pad ExampleLife.visit "/d/snap" ExampleLife.first_events
      e1 ExampleLife.pending w1 = Some (e2, s2, w2) ∧
    handle (H := MemFs.posix) ExampleLife.hash64 ExampleLife.pad ExampleLife.visit "/d/snap" (Process 5) e2 s2 w2 =
      Some (e3, s3, w3) ∧ MemFs.hist w3 = MemFs.hist w2 ++ hs ∧
    working_copy (state_ e2) = foldl post_state ExampleLedger.state applied ∧
    working_copy (state_ e3) = foldl post_state (working_copy (state_ e2)) extra ∧
    Forall (comes_from [ExampleLedger.tx 1 10; ExampleLedger.tx 3 20]) (applied ++ extra) ∧
    StronglySorted Z.lt (0 :: (id <$> applied ++ extra)) ∧
    ∀ f w4, f ∈ MemFs.mfs w2 :: hs → example_boots f w4 →
      ∃ k off w5, (k ≤ length extra)%nat ∧
        recover (H := MemFs.posix) 2000 ExampleLife.visit "/d/wal" "/d/snap" w4 =
          Some (Some (Value (mkRecovered (foldl post_state (working_copy (state_ e2)) (take k extra)) off)), w5) ∧
        example_healthy (foldl post_state (working_copy (state_ e2)) (take k extra)) w5.
Proof.
  apply (session_recovers (L := MemFs.posix_laws) ExampleLife.hash64 ExampleLife.pad ExampleLife.visit
    ExampleLife.config "/d/snap" 2) with (room := 1000%nat); try done.
  - intros st. apply Permutation_refl.
  - apply example_healthy_disk.
  - apply example_first_plan.
  - lia.
Defined.

(** After the two sessions. *)
Lemma restarts_lose_nothing_witness :
  example_healthy ExampleLife.final (ExampleLife.recovered ExampleLife.second_left).2 ∧
  ∃ applied, ExampleLife.final = foldl post_state ExampleLedger.state applied ∧
    Forall (comes_from [ExampleLedger.tx 1 10; ExampleLedger.tx 3 20; ExampleLedger.tx 4 5]) applied ∧
    StronglySorted Z.lt (0 :: (id <$> applied)) ∧
    Forall (λ old, ∃ pre, pre `prefix_of` applied ∧ old = foldl post_state ExampleLedger.state pre)
      [post_state ExampleLedger.state (ExampleLedger.tx 1 10);
       post_state (post_state ExampleLedger.state (ExampleLedger.tx 1 10)) (ExampleLedger.tx 4 5)].
Proof.
  apply (restarts_lose_nothing (L := MemFs.posix_laws) ExampleLife.hash64 ExampleLife.pad ExampleLife.visit
    ExampleLife.config "/d/snap" 2) with (fuel := 2000%nat) (w0 := ExampleEngine.disk); try done.
  - intros st. apply Permutation_refl.
  - apply example_healthy_disk.
  - apply example_second.
Defined.
