(* ===== verification/Demo.v ===== *)
(** * The demonstration driver

    [src/main.cpp]: boot an engine with two accounts, let producer threads submit
    transactions while the writer drains the queue, then snapshot, recover and
    report.  Threads are interleaved at the calls they make on the engine; what
    happens inside [try_push] and [try_pop] is in [RingConcurrent]. *)

From S2P Require Import Prelude Types Validation LedgerState Crc32 WalCodec Posix WalWriter.
From S2P Require Import WalReader Snapshot SnapshotWrite Recovery Idempotency RingBuffer Engine.

(** ** The code *)

Definition kCash : AccountId := 1.
Definition kRevenue : AccountId := 2.
Definition kProducers : nat := 4.
Definition kTxPerProducer : nat := 500.

(** The options [main] sets, with the default capacity of the cache. *)
Definition demo_config (path : string) : Config := mkConfig path SyncEveryWrite 1024 131072 16.

Definition cash_account : Account := mkAccount kCash Asset 0 50000.
Definition revenue_account : Account := mkAccount kRevenue Revenue 0 0.

(** The transaction a producer builds around a fresh id. *)
Definition demo_tx (i : TransactionId) : Transaction :=
  let l := (LegList.push_back LegList.make (mkLeg kRevenue Debit 10)).2 in
  let l := (LegList.push_back l (mkLeg kCash Credit 10)).2 in
  mkTx i (mkKey i i) 0 l.

(** Where a producer is, with the number of iterations that follow the current
    one: at the top of its loop, before [submit], spinning on its completion, or
    at its end. *)
Inductive producer :=
  | Produce (left : nat)
  | Submitting (left : nat) (tx : Transaction)
  | Awaiting (left : nat)
  | Finished.

Section Code.
Context `{Posix}.
Variable hash64 : Z → Z.
(** Padding bytes of the snapshot header, and the iteration order of the table. *)
Variable pad : list byte.
Variable visit : LedgerState → list (AccountId * Account).

(** The engine at the start of the threads; [None] when [main] gives up. *)
Definition boot (wal_path snapshot_path : string) : M (option LedgerEngine) :=
  '(opened, e) ← engine_open (make_engine (demo_config wal_path));
  if negb (has_value opened) then mret None
  else
    let e := (engine_add_account cash_account e).2 in
    let e := (engine_add_account revenue_account e).2 in
    let st := state_working_copy e in
    _ ← write_snapshot pad (visit st) snapshot_path st 0;
    mret (Some e).

(** What the threads share.  The completion of thread [p], a local variable of
    its loop body, is the slot [p]. *)
Record demo := mkDemo {
  engine : LedgerEngine;
  completions : slots;
  env : world;
  threads : list producer;
  accepted_count : Z;
  rejected_count : Z
}.

Definition demo_start (e : LedgerEngine) (w : world) : demo :=
  mkDemo e ∅ w (replicate kProducers (Produce kTxPerProducer)) 0 0.

Inductive demo_step : demo → demo → Prop :=
  | demo_allocate D p n i e' :
      threads D !! p = Some (Produce (S n)) →
      allocate_transaction_id (engine D) = (i, e') →
      demo_step D
        (mkDemo e' (<[Z.of_nat p := mkCompletion false LedgerError.None]> (completions D)) (env D)
           (<[p := Submitting n (demo_tx i)]> (threads D)) (accepted_count D) (rejected_count D))
  | demo_submit D p n tx r e' s' w' :
      threads D !! p = Some (Submitting n tx) →
      submit tx (Z.of_nat p) (engine D) (completions D) (env D) = Some (r, e', s', w') →
      demo_step D
        (mkDemo e' s' w' (<[p := if has_value r then Awaiting n else Produce n]> (threads D))
           (accepted_count D) (rejected_count D + if has_value r then 0 else 1))
  | demo_observe D p n c :
      threads D !! p = Some (Awaiting n) → completions D !! Z.of_nat p = Some c → done c = true →
      demo_step D
        (mkDemo (engine D) (completions D) (env D) (<[p := Produce n]> (threads D))
           (accepted_count D + if bool_decide (error c = LedgerError.None) then 1 else 0)
           (rejected_count D + if bool_decide (error c = LedgerError.None) then 0 else 1))
  | demo_leave D p :
      threads D !! p = Some (Produce 0) →
      demo_step D
        (mkDemo (engine D) (completions D) (env D) (<[p := Finished]> (threads D))
           (accepted_count D) (rejected_count D))
  (* one iteration of the loop in [process_pending]; a call is a sequence of these,
     and the writer goes on with calls until it sees every producer finished *)
  | demo_write D k e' s' w' :
      process_pending hash64 1 (engine D) (completions D) (env D) = Some (k, e', s', w') →
      demo_step D
        (mkDemo e' s' w' (threads D) (accepted_count D) (rejected_count D)).

(** The rest of [main] after the threads have been joined: what it prints, the
    balances of the published state and of the recovered one. *)
Definition finish (fuel : nat) (wal_path snapshot_path : string) (e : LedgerEngine) (s : slots) :
    M (option (Result (Amount * Amount * (Amount * Amount)))) :=
  '(_, e, _) ← process_pending hash64 (Z.to_nat (Z.shiftl 1 20)) e s;
  let snap := engine_snapshot e in
  cash ← lift (find_account snap kCash);
  revenue ← lift (find_account snap kRevenue);
  _ ← write_snapshot pad (visit snap) snapshot_path snap (size_bytes (wal_writer e));
  recovered ← recover fuel visit wal_path snapshot_path;
  match recovered with
  | None => mret None
  | Some (Error err) => mret (Some (Error err))
  | Some (Value rs) =>
      cash' ← lift (find_account (rec_state rs) kCash);
      revenue' ← lift (find_account (rec_state rs) kRevenue);
      mret (Some (Value (balance cash, balance revenue, (balance cash', balance revenue'))))
  end.
End Code.
