(* ===== verification/DemoSpec.v ===== *)
(** * The demonstration driver is correct

    Under every interleaving of the four producers and the writer, in an
    environment that does not fail, all two thousand transactions are accepted,
    and the report at the end, of the published state and of the recovered one, is
    the one the README shows. *)

From stdpp Require Import relations.
From S2P Require Import Prelude Types Validation LedgerState Crc32 WalCodec Posix WalWriter.
From S2P Require Import WalReader Snapshot SnapshotWrite Recovery Idempotency RingBuffer Engine.
From S2P Require Import EngineSpec EngineRun Demo.

(** ** The accounts after [m] transactions *)

Definition demo_accounts (m : Z) : gmap Z Account :=
  {[kCash := mkAccount kCash Asset (-10 * m) 50000; kRevenue := mkAccount kRevenue Revenue (-10 * m) 0]}.

(** A transaction of a producer, stamped by [submit]. *)
Definition stamped (i now : Z) : Transaction := mkTx i (mkKey i i) now (legs (demo_tx i)).

Lemma stamped_legs i now : tx_legs (stamped i now) = [mkLeg kRevenue Debit 10; mkLeg kCash Credit 10].
Proof. done. Qed.

Lemma stamped_ok i now : u64_ok i → s64_ok now → tx_ok (stamped i now).
Proof.
  intros Hi Hn. split_and!; [done|by split|done|by_compute|].
  fold (tx_legs (stamped i now)). rewrite stamped_legs. by_compute.
Qed.

Lemma stamped_shape i now : shape_valid (stamped i now).
Proof. done. Qed.

Lemma stamped_gross i now : gross (stamped i now) = 10.
Proof. done. Qed.

Lemma demo_accounts_lookup m i a :
  demo_accounts m !! i = Some a →
  i = kCash ∧ a = mkAccount kCash Asset (-10 * m) 50000 ∨
  i = kRevenue ∧ a = mkAccount kRevenue Revenue (-10 * m) 0.
Proof.
  unfold demo_accounts. rewrite lookup_insert_Some, lookup_singleton_Some. naive_solver.
Qed.

Lemma demo_accounts_post m i now :
  post_accounts (tx_legs (stamped i now)) (demo_accounts m) = demo_accounts (m + 1).
Proof.
  rewrite stamped_legs. apply map_eq. intros j. rewrite lookup_post_accounts.
  unfold demo_accounts, kCash, kRevenue.
  destruct (decide (j = 1)) as [->|H1]; [|destruct (decide (j = 2)) as [->|H2]].
  - rewrite !lookup_insert_eq. simpl. unfold post_account, set_balance, projected. simpl.
    do 2 f_equal. unfold net, leg_value, normal_sign. simpl. lia.
  - rewrite !(lookup_insert_ne _ 1), !lookup_singleton_eq by done. simpl.
    unfold post_account, set_balance, projected. simpl.
    do 2 f_equal. unfold net, leg_value, normal_sign. simpl. lia.
  - by rewrite !lookup_insert_ne, !lookup_singleton_ne by congruence.
Qed.

Lemma demo_accepts st m i now :
  accounts_ st = demo_accounts m → m + 1 ≤ 5000 →
  against_verdict (find_account st) (tx_legs (stamped i now)) LedgerError.None.
Proof.
  intros Hst Hm. rewrite stamped_legs. unfold find_account. rewrite Hst. constructor.
  - repeat constructor; by eexists.
  - intros j a _ [[-> ->]|[-> ->]]%demo_accounts_lookup Hn; [|done].
    unfold projected, net, leg_value, normal_sign. simpl. lia.
Qed.

(** ** Threads *)

Definition remaining (t : producer) : Z :=
  match t with
  | Produce n => Z.of_nat n
  | Submitting n _ | Awaiting n => Z.of_nat n + 1
  | Finished => 0
  end.
Definition unallocated (t : producer) : Z :=
  match t with
  | Produce n | Submitting n _ | Awaiting n => Z.of_nat n
  | Finished => 0
  end.
Definition submitting_id (t : producer) : list Z :=
  match t with Submitting _ tx => [id tx] | _ => [] end.
Definition submitting (ts : list producer) : list Z := concat (submitting_id <$> ts).

Lemma zsum_insert {A} (f : A → Z) (l : list A) p x y :
  l !! p = Some x → zsum (f <$> <[p := y]> l) = zsum (f <$> l) - f x + f y.
Proof.
  revert p. induction l as [|z l IH]; intros [|p] Hx; simplify_eq/=; [lia|].
  rewrite (IH p Hx). lia.
Qed.

Lemma submitting_insert ts p x y :
  ts !! p = Some x → submitting_id x ++ submitting (<[p := y]> ts) ≡ₚ submitting_id y ++ submitting ts.
Proof.
  unfold submitting. revert p. induction ts as [|z ts IH]; intros [|p] Hx; simplify_eq/=.
  - rewrite !app_assoc. by rewrite (Permutation_app_comm (submitting_id x)).
  - rewrite !(Permutation_app_swap_app _ (submitting_id z)). by rewrite (IH p Hx).
Qed.

Lemma nonneg_zsum (f : producer → Z) ts : (∀ t, 0 ≤ f t) → 0 ≤ zsum (f <$> ts).
Proof. intros Hf. apply zsum_nonneg, Forall_fmap, Forall_true. done. Qed.
Lemma remaining_nonneg ts : 0 ≤ zsum (remaining <$> ts).
Proof. apply nonneg_zsum. intros []; simpl; lia. Qed.
Lemma unallocated_nonneg ts : 0 ≤ zsum (unallocated <$> ts).
Proof. apply nonneg_zsum. intros []; simpl; lia. Qed.

(** ** The invariant *)

Section Invariant.
Variable hash64 : Z → Z.
Context {P : Posix} {L : PosixLaws P}.
Variables (wal sp : string).

(** The engine after [m] transactions: balances, and the publication every
    sixteenth time. *)
Record engine_inv (cap : nat) (e : LedgerEngine) (m : Z) (lru : list (Z * IdempotencyKey))
    (free : list Z) : Prop := mkEngineInv {
  ei_ok : engine_ok hash64 cap (10 * m) e lru free;
  ei_accounts : accounts_ (working_copy (state_ e)) = demo_accounts m;
  ei_every : publish_snapshot_every_n (config_ e) = 16;
  ei_since : processed_since_publish_ e = m `mod` 16;
  ei_published : m ≠ 0 → m `mod` 16 = 0 → engine_snapshot e = working_copy (state_ e)
}.

(** The log holds [m] records of 83 bytes; the snapshot is another file. *)
Record disk_inv (e : LedgerEngine) (w : world) (m : Z) (i : Z) (nd : inode) : Prop := mkDiskInv {
  di_open : open_on (view w) (fd_ (wal_writer_ e)) true true i nd;
  di_len : Z.of_nat (length (cur nd)) = 83 * m;
  di_off : offset_ (wal_writer_ e) = 83 * m;
  di_reliable : reliable w;
  di_wal : dir (view w) !! wal = Some i;
  di_snapshot : apart sp (view w) ∧ dir (view w) !! tmp_path_of sp = None ∧
    ∀ j, dir (view w) !! sp = Some j → j ≠ i
}.

Lemma disk_inv_frame e e' w w' m m' i nd nd' :
  disk_inv e w m i nd → frame i (fd_ (wal_writer_ e)) (view w) (view w') → reliable w' →
  open_on (view w') (fd_ (wal_writer_ e')) true true i nd' → Z.of_nat (length (cur nd')) = 83 * m' →
  offset_ (wal_writer_ e') = 83 * m' → disk_inv e' w' m' i nd'.
Proof.
  intros [_ _ _ _ Hw (Hset & Ht & Hj)] (Hdir & _ & _ & Hf & _) Hrel Hon Hlen Hoff.
  split; try done; [by rewrite Hdir|]. unfold apart. rewrite Hdir.
  split_and!; [|done|done]. intros j Hsp. destruct (Hset j Hsp) as (Hne & c & Hc).
  split; [done|]. exists c. rewrite Hf; [done|]. by apply Hj.
Qed.

Lemma disk_inv_same e e' w w' m i nd :
  disk_inv e w m i nd → view w' = view w → reliable w' → wal_writer_ e' = wal_writer_ e →
  disk_inv e' w' m i nd.
Proof. intros [] Hv Hr Hwr. split; rewrite ?Hv, ?Hwr; done. Qed.

Lemma engine_inv_same cap e e' m lru free :
  engine_inv cap e m lru free → state_ e' = state_ e → idempotency_ e' = idempotency_ e →
  wal_writer_ e' = wal_writer_ e → config_ e' = config_ e →
  processed_since_publish_ e' = processed_since_publish_ e → engine_inv cap e' m lru free.
Proof.
  intros [[] ? ? ? ?] Hs Hc Hw Hcf Hp. split; [split|..]; unfold engine_snapshot in *;
    rewrite ?Hs, ?Hc, ?Hw, ?Hcf, ?Hp; done.
Qed.

Lemma lru_check_new cap k l l' : lru_check cap k l = (false, l') → ∀ k', k' ∈ l' → k' = k ∨ k' ∈ l.
Proof.
  unfold lru_check. case_decide; [done|]. intros [= <-] k' Hk%subseteq_take. by apply elem_of_cons.
Qed.

(** A producer's transaction with a fresh id is committed. *)
Lemma processed_fresh cap e m lru free j now seen c' nd err e' nd' keys' :
  engine_inv cap e m lru free → 0 ≤ m < 5000 → s64_ok now →
  (∀ k, k ∈ lru.*2 → high k ≠ j) → ¬ log_failure err →
  lru_check cap (mkKey j j) lru.*2 = (seen, keys') →
  processed seen c' e (stamped j now) nd err e' nd' →
  err = LedgerError.None ∧ (∀ k, k ∈ keys' → k = mkKey j j ∨ k ∈ lru.*2) ∧
  ∃ wr' ts, append_result (wal_writer_ e) nd (record_bytes (stamped j now) ts) LedgerError.None wr' nd' ∧
    e' = after_commit (with_writer wr' (with_cache c' e)) (post_state (working_copy (state_ e)) (stamped j now)).
Proof.
  intros Hinv Hm Hnow Hnew Hno Hlru Hp.
  assert (seen = false) as ->.
  { unfold lru_check in Hlru. case_decide as Hin; [|congruence].
    exfalso. by apply (Hnew (mkKey j j) Hin). }
  destruct Hinv as [[_ _ Hwf HB _] Hacc _ _ _].
  pose proof (demo_accepts _ m j now Hacc ltac:(lia)) as Hok.
  destruct Hp as [|err _ Hv Hne|err _ _ Hv Hne|err wr' ts nd' _ _ _ Hne Hres|wr' ts nd' _ _ _ _ Hres]; [done| | | |].
  - destruct Hne. eapply shape_verdict_det; [exact Hv|].
    rewrite <- (stamped_shape j now). apply validate_transaction_shape_verdict.
  - destruct Hne. destruct (within_headroom (10 * m) _ (stamped j now) HB (stamped_shape j now)) as [_ Hproj].
    { rewrite stamped_gross. range_lia. }
    apply (validate_against_state_verdict (stamped j now)) in Hv, Hok; try done; try by apply state_wf_lookup.
    congruence.
  - destruct Hno. by apply (append_result_more _ _ _ _ _ _ Hres).
  - split_and!; [done|by eapply lru_check_new|]. by exists wr', ts.
Qed.

Lemma after_commit_served e m st' :
  publish_snapshot_every_n (config_ e) = 16 → processed_since_publish_ e = m `mod` 16 → 0 ≤ m →
  processed_since_publish_ (after_commit e st') = (m + 1) `mod` 16 ∧
  ((m + 1) `mod` 16 = 0 → engine_snapshot (after_commit e st') = st').
Proof.
  intros He Hs Hm. unfold after_commit. rewrite He, Hs.
  pose proof (Z.mod_pos_bound m 16 ltac:(lia)) as Hb.
  rewrite wrap64_id by range_lia. rewrite <- (Zplus_mod_idemp_l m 1 16).
  case_bool_decide.
  - replace (m `mod` 16 + 1) with 16 by lia. done.
  - rewrite (Z.mod_small (m `mod` 16 + 1)) by lia. simpl. split; [done|lia].
Qed.

(** The writer takes a request off a queue that is not empty. *)
Lemma serve cap e m lru free i nd w s j now a v Q :
  engine_inv cap e m lru free → disk_inv e w m i nd → 0 ≤ m < 5000 → u64_ok j → s64_ok now →
  (∀ k, k ∈ lru.*2 → high k ≠ j) → s !! a = Some v →
  ring_rep 10 (ring_ e) (mkRequest (stamped j now) (Some a) :: Q) → ring_headroom 10 (ring_ e) →
  ∃ e' w' lru' free' nd',
    process_pending hash64 1 e s w = Some (1, e', <[a := mkCompletion true LedgerError.None]> s, w') ∧
    engine_inv cap e' (m + 1) lru' free' ∧ disk_inv e' w' (m + 1) i nd' ∧
    ring_rep 10 (ring_ e') Q ∧ enqueue_pos_ (ring_ e') = enqueue_pos_ (ring_ e) ∧
    next_tx_id_ e' = next_tx_id_ e ∧ ∀ k, k ∈ lru'.*2 → k = mkKey j j ∨ k ∈ lru.*2.
Proof.
  intros Hei Hdi Hm Hj Hnow Hnew Ha Hring Hroom.
  unfold process_pending. cbn [process_loop]. msimpl.
  destruct (try_pop_rep 10 _ _ Hring Hroom) as (rb & -> & Hring' & Henq). msimpl. cbv zeta.
  cbn [head tail] in *. msimpl.
  assert (engine_inv cap (with_ring rb e) m lru free) as Hei' by by eapply engine_inv_same.
  destruct (process_request_spec hash64 cap (10 * m) (with_ring rb e) lru free (mkRequest (stamped j now) (Some a)) a v s w i nd)
    as (seen & c' & err & e1 & w1 & nd1 & lru1 & free1 & Hrun & Hlru & Hp & Hok1 & Hon1 & [Hfr1 _] & Hfd1
        & Hring1 & Hcfg1 & Hrel1 & _); try done.
  { apply Hei'. } { by apply stamped_ok. } { cbn [tx]. rewrite stamped_gross. range_lia. } { apply Hdi. }
  rewrite Hrun. msimpl. destruct (Hrel1 (di_reliable _ _ _ _ _ Hdi)) as [Hrel Hno].
  destruct (processed_fresh cap (with_ring rb e) m lru free j now seen c' nd err e1 nd1 lru1.*2)
    as (-> & Hkeys & wr' & ts & Hres & ->); try done.
  destruct (append_result_inv _ _ _ _ _ _ Hres) as (_ & Hwfd & _ & Hok & _).
  destruct (Hok eq_refl) as (Hcur & Hoff & _). cbn [wal_writer_ with_ring] in *.
  set (e0 := with_writer wr' (with_cache c' (with_ring rb e))) in *.
  set (st' := post_state (working_copy (state_ (with_ring rb e))) (stamped j now)) in *.
  destruct (after_commit_rest e0 st') as (E1 & E2 & E3 & E4 & E5).
  destruct Hei as [_ Hacc Hev Hsince _].
  destruct (after_commit_served e0 m st' Hev Hsince ltac:(lia)) as [Hs Hpub].
  exists (after_commit e0 st'), w1, lru1, free1, nd1. split_and!; [done| | | | |by rewrite E5|done].
  - split; rewrite ?after_commit_working; [|unfold st', post_state; simpl; by rewrite Hacc, demo_accounts_post
      |rewrite E4; exact Hev|exact Hs|auto].
    cbn [tx] in Hok1. rewrite stamped_gross in Hok1. by replace (10 * (m + 1)) with (10 * m + 10) by lia.
  - apply (disk_inv_frame e (after_commit e0 st') w w1 m (m + 1) i nd nd1); try done; rewrite ?E2.
    + rewrite Hcur, length_app, length_record_bytes, stamped_legs. simpl length. pose proof (di_len _ _ _ _ _ Hdi). lia.
    + cbn [wal_writer_ with_writer e0]. rewrite Hoff, length_record_bytes, stamped_legs. simpl length.
      rewrite (di_off _ _ _ _ _ Hdi), wrap64_id by range_lia. lia.
  - by rewrite E3.
  - by rewrite E3.
Qed.

(** The writer finds nothing to do. *)
Lemma serve_none n e s w :
  ring_rep 10 (ring_ e) [] → ring_headroom 10 (ring_ e) →
  ∃ rb, process_pending hash64 n e s w = Some (0, with_ring rb e, s, w) ∧
    ring_rep 10 rb [] ∧ enqueue_pos_ rb = enqueue_pos_ (ring_ e).
Proof.
  intros Hring Hroom. unfold process_pending. destruct n as [|n]; cbn [process_loop]; msimpl.
  - exists (ring_ e). by destruct e.
  - destruct (try_pop_rep 10 _ _ Hring Hroom) as (rb & -> & Hring' & Henq). msimpl. by exists rb.
Qed.

(** Threads, their completions and the queue: a spinning thread has been answered
    or has exactly one request in the queue. *)
Record thread_inv (ts : list producer) (s : slots) (Q : list PendingRequest) : Prop := mkThreadInv {
  ti_submitting : ∀ p n tx, ts !! p = Some (Submitting n tx) →
    tx = demo_tx (id tx) ∧ s !! Z.of_nat p = Some (mkCompletion false LedgerError.None);
  ti_queue : ∀ r, r ∈ Q → ∃ i now p n, r = mkRequest (stamped i now) (Some (Z.of_nat p)) ∧ s64_ok now ∧
    ts !! p = Some (Awaiting n) ∧ s !! Z.of_nat p = Some (mkCompletion false LedgerError.None);
  ti_once : NoDup (completion <$> Q);
  ti_awaiting : ∀ p n, ts !! p = Some (Awaiting n) →
    s !! Z.of_nat p = Some (mkCompletion true LedgerError.None) ∨
    s !! Z.of_nat p = Some (mkCompletion false LedgerError.None) ∧ Some (Z.of_nat p) ∈ completion <$> Q
}.

Lemma queue_short ts s Q : thread_inv ts s Q → (length Q ≤ length ts)%nat.
Proof.
  intros [_ Hq Hnd _]. rewrite <- (length_fmap completion Q).
  rewrite <- (length_seq (length ts) 0), <- (length_fmap (λ p, Some (Z.of_nat p)) (seq _ _)).
  apply submseteq_length, NoDup_submseteq; [done|].
  intros c (r & -> & Hr)%list_elem_of_fmap. destruct (Hq r Hr) as (i & now & p & n & -> & _ & Hp & _).
  apply list_elem_of_fmap. exists p. split; [done|]. apply elem_of_seq. apply lookup_lt_Some in Hp. lia.
Qed.

(** A case analysis on whether thread [q] is the one that moved. *)
Ltac moved q p :=
  destruct (decide (q = p)) as [->|];
    [rewrite ?list_lookup_insert_eq in * by (by eapply lookup_lt_Some)
    |rewrite ?list_lookup_insert_ne in * by done].

Lemma slot_insert (s : slots) p v : <[p := v]> s !! p = Some v.
Proof. apply (lookup_insert_eq (M := gmap Z)). Qed.
Lemma slot_insert_ne (s : slots) p q v : p ≠ q → <[Z.of_nat p := v]> s !! Z.of_nat q = s !! Z.of_nat q.
Proof. intros Hne. apply (lookup_insert_ne (M := gmap Z)). lia. Qed.

Lemma thread_allocate ts s Q p n i :
  thread_inv ts s Q → ts !! p = Some (Produce (S n)) →
  thread_inv (<[p := Submitting n (demo_tx i)]> ts)
    (<[Z.of_nat p := mkCompletion false LedgerError.None]> s) Q.
Proof.
  intros [Hsub Hq Hnd Haw] Hp. split; [| |done|].
  - intros q n' tx Hx. moved q p; [simplify_eq; by rewrite slot_insert|].
    rewrite slot_insert_ne by done. by eapply Hsub.
  - intros r Hr. destruct (Hq r Hr) as (j & now & q & n' & -> & Hnow & Hts & Hs).
    exists j, now, q, n'. assert (p ≠ q) by congruence.
    rewrite list_lookup_insert_ne, slot_insert_ne by done. done.
  - intros q n' Hx. moved q p; [done|]. rewrite slot_insert_ne by done. by eapply Haw.
Qed.

Lemma thread_submit ts s Q p n i now :
  thread_inv ts s Q → ts !! p = Some (Submitting n (demo_tx i)) → s64_ok now →
  thread_inv (<[p := Awaiting n]> ts) (<[Z.of_nat p := mkCompletion false LedgerError.None]> s)
    (Q ++ [mkRequest (stamped i now) (Some (Z.of_nat p))]).
Proof.
  intros [Hsub Hq Hnd Haw] Hp Hnow.
  assert (∀ r, r ∈ Q → ∃ q, completion r = Some (Z.of_nat q) ∧ q ≠ p) as Hother.
  { intros r Hr. destruct (Hq r Hr) as (j & now' & q & n' & -> & _ & Hts & _). exists q. split; [done|congruence]. }
  split.
  - intros q n' tx Hx. moved q p; [done|]. rewrite slot_insert_ne by done. by eapply Hsub.
  - intros r [Hr|Hr%list_elem_of_singleton]%elem_of_app.
    + destruct (Hq r Hr) as (j & now' & q & n' & -> & Hnow' & Hts & Hs).
      exists j, now', q, n'. assert (p ≠ q) by congruence.
      rewrite list_lookup_insert_ne, slot_insert_ne by done. done.
    + exists i, now, p, n. rewrite list_lookup_insert_eq by (by eapply lookup_lt_Some).
      by rewrite slot_insert.
  - rewrite fmap_app. apply NoDup_app. split_and!; [done| |apply NoDup_singleton].
    intros c (r & -> & Hr)%list_elem_of_fmap Hc%list_elem_of_singleton.
    destruct (Hother r Hr) as (q & Heq & Hne). rewrite Heq in Hc. simplify_eq/=.
  - intros q n' Hx. rewrite fmap_app, elem_of_app. moved q p.
    + right. rewrite slot_insert. split; [done|]. right. by left.
    + rewrite slot_insert_ne by done. destruct (Haw q n' Hx) as [?|[? ?]]; [by left|right; tauto].
Qed.

Lemma thread_move ts s Q p n y :
  thread_inv ts s Q →
  (ts !! p = Some (Produce n) ∧ y = Finished) ∨
  (ts !! p = Some (Awaiting n) ∧ y = Produce n ∧ (Some (Z.of_nat p) ∉ completion <$> Q)) →
  thread_inv (<[p := y]> ts) s Q.
Proof.
  intros [Hsub Hq Hnd Haw] Hp.
  assert ((p < length ts)%nat) as Hlt by (destruct Hp as [[Hp _]|[Hp _]]; by eapply lookup_lt_Some).
  assert (y = Finished ∨ y = Produce n) as Hy by tauto.
  split; [| |done|].
  - intros q n' tx Hx. destruct (decide (q = p)) as [->|].
    + rewrite list_lookup_insert_eq in Hx by done. destruct Hy; simplify_eq.
    + rewrite list_lookup_insert_ne in Hx by done. by eapply Hsub.
  - intros r Hr. destruct (Hq r Hr) as (j & now & q & n' & -> & Hnow & Hts & Hs).
    exists j, now, q, n'. split_and!; [done|done| |done]. rewrite list_lookup_insert_ne; [done|].
    intros ->. destruct Hp as [[Hp _]|(_ & _ & Hnot)]; [congruence|].
    apply Hnot, list_elem_of_fmap. eexists. split; [|exact Hr]. done.
  - intros q n' Hx. destruct (decide (q = p)) as [->|].
    + rewrite list_lookup_insert_eq in Hx by done. destruct Hy; simplify_eq.
    + rewrite list_lookup_insert_ne in Hx by done. by eapply Haw.
Qed.

Lemma thread_serve ts s Q p r :
  thread_inv ts s (r :: Q) → completion r = Some (Z.of_nat p) →
  thread_inv ts (<[Z.of_nat p := mkCompletion true LedgerError.None]> s) Q.
Proof.
  intros [Hsub Hq Hnd Haw] Hr. cbn [fmap list_fmap] in Hnd. apply NoDup_cons in Hnd as [Hnot Hnd].
  destruct (Hq r) as (j & now & q & n & -> & _ & Hts & _); [by left|]. simpl in Hr, Hnot. injection Hr as Hr.
  apply Nat2Z.inj in Hr as ->. split; [| |done|].
  - intros q n' tx Hx. rewrite slot_insert_ne by congruence. by eapply Hsub.
  - intros r' Hr'. destruct (Hq r') as (j' & now' & q & n' & -> & Hnow & Hts' & Hs); [by right|].
    exists j', now', q, n'. split_and!; [done..|]. rewrite slot_insert_ne; [done|]. intros ->.
    apply Hnot, list_elem_of_fmap. eexists. split; [|exact Hr']. done.
  - intros q n' Hx. destruct (decide (q = p)) as [->|]; [left; by rewrite slot_insert|].
    rewrite slot_insert_ne by done. destruct (Haw q n' Hx) as [?|[? Hin]]; [by left|right].
    split; [done|]. apply elem_of_cons in Hin as [Heq|?]; [|done]. simpl in Heq. simplify_eq.
Qed.

Definition demo_total : Z := Z.of_nat kProducers * Z.of_nat kTxPerProducer.

(** The whole state: [Q] is the queue, [proc] the ids processed so far.  Every id
    allocated is held by a producer about to submit it, in the queue, or
    processed, and by exactly one of them. *)
Record demo_inv (cap : nat) (D : demo) (Q : list PendingRequest) (proc : list Z)
    (lru : list (Z * IdempotencyKey)) (free : list Z) (i : Z) (nd : inode) : Prop := mkDemoInv {
  inv_engine : engine_inv cap (engine D) (Z.of_nat (length proc)) lru free;
  inv_disk : disk_inv (engine D) (env D) (Z.of_nat (length proc)) i nd;
  inv_threads : thread_inv (threads D) (completions D) Q;
  inv_ring : ring_rep 10 (ring_ (engine D)) Q;
  inv_enq : enqueue_pos_ (ring_ (engine D)) = Z.of_nat (length proc) + Z.of_nat (length Q);
  inv_ids : submitting (threads D) ++ (id ∘ tx <$> Q) ++ proc ≡ₚ seqZ 1 (next_tx_id_ (engine D));
  inv_alloc : 0 ≤ next_tx_id_ (engine D) ∧
    next_tx_id_ (engine D) + zsum (unallocated <$> threads D) = demo_total;
  inv_keys : ∀ k, k ∈ lru.*2 → high k ∈ proc;
  inv_counts : accepted_count D + zsum (remaining <$> threads D) = demo_total ∧ rejected_count D = 0;
  inv_len : length (threads D) = kProducers
}.

(** What follows about sizes. *)
Lemma demo_inv_sizes cap D Q proc lru free i nd :
  demo_inv cap D Q proc lru free i nd →
  Z.of_nat (length proc) + Z.of_nat (length Q) ≤ next_tx_id_ (engine D) ≤ 2000 ∧
  Z.of_nat (length Q) ≤ 4 ∧ ring_headroom 10 (ring_ (engine D)).
Proof.
  intros [_ _ Hth _ Henq Hids [Ha Halloc] _ _ Hlen].
  pose proof (unallocated_nonneg (threads D)) as Hu. change demo_total with 2000 in Halloc.
  apply Permutation_length in Hids. rewrite !length_app, length_fmap, length_seqZ in Hids.
  pose proof (queue_short _ _ _ Hth) as Hq. rewrite Hlen in Hq. unfold kProducers in Hq.
  split_and!; [lia..|]. unfold ring_headroom. rewrite Henq. change (2 ^ 10) with 1024. range_lia.
Qed.

Lemma demo_inv_id cap D Q proc lru free i nd j :
  demo_inv cap D Q proc lru free i nd →
  j ∈ submitting (threads D) ++ (id ∘ tx <$> Q) ++ proc → 1 ≤ j ≤ 2000.
Proof.
  intros Hinv Hj. pose proof (demo_inv_sizes _ _ _ _ _ _ _ _ Hinv) as (Hs & _).
  rewrite (inv_ids _ _ _ _ _ _ _ _ Hinv) in Hj. apply elem_of_seqZ in Hj. lia.
Qed.

Lemma demo_allocate_inv cap D Q proc lru free i nd p n j e' :
  demo_inv cap D Q proc lru free i nd → threads D !! p = Some (Produce (S n)) →
  allocate_transaction_id (engine D) = (j, e') →
  demo_inv cap (mkDemo e' (<[Z.of_nat p := mkCompletion false LedgerError.None]> (completions D)) (env D)
     (<[p := Submitting n (demo_tx j)]> (threads D)) (accepted_count D) (rejected_count D))
    Q proc lru free i nd.
Proof.
  intros Hinv Hp He. pose proof (demo_inv_sizes _ _ _ _ _ _ _ _ Hinv) as (Hsz & _).
  destruct Hinv as [Hei Hdi Hth Hring Henq Hids [Ha Halloc] Hkeys [Hcnt Hrej] Hlen].
  unfold allocate_transaction_id in He. rewrite wrap64_id in He by range_lia. injection He as <- <-.
  split; simpl; try done.
  - by eapply engine_inv_same.
  - by apply (disk_inv_same (engine D) _ (env D)); [..|apply Hdi|].
  - by apply (thread_allocate _ _ _ p n).
  - pose proof (submitting_insert (threads D) p _ (Submitting n (demo_tx (next_tx_id_ (engine D) + 1))) Hp) as Hsub.
    simpl in Hsub. rewrite Hsub. simpl. rewrite Hids, seqZ_app by lia.
    change (seqZ (1 + next_tx_id_ (engine D)) 1) with [1 + next_tx_id_ (engine D)].
    rewrite (Permutation_app_comm (seqZ _ _)). cbn [app]. by rewrite (Z.add_comm 1).
  - rewrite (zsum_insert _ _ _ _ _ Hp). simpl in *. lia.
  - rewrite (zsum_insert _ _ _ _ _ Hp). simpl in *. lia.
  - by rewrite length_insert.
Qed.

Lemma demo_submit_run cap D Q proc lru free i nd p n tx :
  demo_inv cap D Q proc lru free i nd → threads D !! p = Some (Submitting n tx) →
  ∃ e' s' w' now, submit tx (Z.of_nat p) (engine D) (completions D) (env D) = Some (LedgerError.None, e', s', w') ∧
    demo_inv cap (mkDemo e' s' w' (<[p := Awaiting n]> (threads D)) (accepted_count D) (rejected_count D))
      (Q ++ [mkRequest (stamped (id tx) now) (Some (Z.of_nat p))]) proc lru free i nd.
Proof.
  intros Hinv Hp. pose proof (demo_inv_sizes _ _ _ _ _ _ _ _ Hinv) as (Hsz & HQ & Hroom).
  destruct Hinv as [Hei Hdi Hth Hring Henq Hids Halloc Hkeys [Hcnt Hrej] Hlen].
  destruct (ti_submitting _ _ _ Hth p n tx Hp) as [Htx Hslot]. rewrite Htx in Hp.
  destruct (submit_ok tx (Z.of_nat p) _ 10 (engine D) Q (completions D) (env D) Hring Hroom Hslot)
    as (now & rb & w' & Hrun & Hring' & [Hnow _] & Hv & Hdeq & Hrel).
  cbv zeta in Hrun, Hring'. change (2 ^ 10) with 1024 in Hrun, Hring'. rewrite bool_decide_true in Hrun, Hring' by lia.
  assert (mkTx (id tx) (idempotency_key tx) now (legs tx) = stamped (id tx) now) as Hst by by rewrite Htx.
  rewrite Hst in Hring'. do 3 eexists. exists now. split; [exact Hrun|].
  pose proof (ring_enq _ _ _ Hring) as He1. pose proof (ring_enq _ _ _ Hring') as He2.
  rewrite length_app in He2. simpl in He2.
  split; simpl; try done.
  - by eapply engine_inv_same.
  - apply (disk_inv_same (engine D) _ (env D)); try done. by apply Hrel, Hdi.
  - by apply (thread_submit _ _ _ p n (id tx)).
  - rewrite length_app. simpl. lia.
  - pose proof (submitting_insert (threads D) p _ (Awaiting n) Hp) as Hsub. simpl in Hsub.
    rewrite <- Hids, <- Hsub, fmap_app. simpl. rewrite <- app_assoc, (Permutation_app_comm _ proc). simpl.
    rewrite <- !Permutation_middle. by rewrite (Permutation_app_comm proc).
  - rewrite (zsum_insert _ _ _ _ _ Hp). simpl in *. lia.
  - rewrite (zsum_insert _ _ _ _ _ Hp). simpl in *. lia.
  - by rewrite length_insert.
Qed.

Lemma demo_move_inv cap D Q proc lru free i nd p x y acc :
  demo_inv cap D Q proc lru free i nd → threads D !! p = Some x →
  thread_inv (<[p := y]> (threads D)) (completions D) Q →
  submitting_id x = [] → submitting_id y = [] → unallocated x = unallocated y →
  acc + remaining y = accepted_count D + remaining x →
  demo_inv cap (mkDemo (engine D) (completions D) (env D) (<[p := y]> (threads D)) acc (rejected_count D))
    Q proc lru free i nd.
Proof.
  intros [Hei Hdi Hth Hring Henq Hids Halloc Hkeys [Hcnt Hrej] Hlen] Hp Hth' Hx Hy Hu Hr.
  split; simpl; try done.
  - pose proof (submitting_insert (threads D) p x y Hp) as Hsub. rewrite Hx, Hy in Hsub. simpl in Hsub.
    by rewrite Hsub.
  - rewrite (zsum_insert _ _ _ _ _ Hp). lia.
  - rewrite (zsum_insert _ _ _ _ _ Hp). lia.
  - by rewrite length_insert.
Qed.

(** The writer: it serves the head of the queue, or there is none. *)
Lemma demo_write_inv cap D Q proc lru free i nd :
  demo_inv cap D Q proc lru free i nd →
  ∃ k e' s' w' Q' proc' lru' free' nd',
    process_pending hash64 1 (engine D) (completions D) (env D) = Some (k, e', s', w') ∧
    demo_inv cap (mkDemo e' s' w' (threads D) (accepted_count D) (rejected_count D))
      Q' proc' lru' free' i nd' ∧ Q' = tail Q.
Proof.
  intros Hinv. pose proof (demo_inv_sizes _ _ _ _ _ _ _ _ Hinv) as (Hsz & HQ & Hroom).
  pose proof (λ j, demo_inv_id _ _ _ _ _ _ _ _ j Hinv) as Hid.
  pose proof Hinv as [Hei Hdi Hth Hring Henq Hids Halloc Hkeys Hcnt Hlen].
  destruct Q as [|r Q].
  { destruct (serve_none 1 (engine D) (completions D) (env D) Hring Hroom) as (rb & Hrun & Hring' & Henq').
    do 4 eexists. exists [], proc, lru, free, nd. split_and!; [exact Hrun| |done]. split; simpl; try done.
    - by eapply engine_inv_same.
    - by apply (disk_inv_same (engine D) _ (env D)); [..|apply Hdi|].
    - by rewrite Henq'. }
  destruct (ti_queue _ _ _ Hth r) as (j & now & p & n & -> & Hnow & Hts & Hslot); [by left|].
  cbn [fmap list_fmap compose tx stamped id] in Hids, Hid.
  assert (1 ≤ j ≤ 2000) as Hj by (apply Hid; set_solver).
  assert (j ∉ proc) as Hfresh.
  { pose proof (NoDup_seqZ 1 (next_tx_id_ (engine D))) as Hnd. rewrite <- Hids in Hnd.
    apply NoDup_app in Hnd as (_ & _ & Hnd). apply NoDup_cons in Hnd as [Hnd _]. set_solver. }
  destruct (serve cap (engine D) _ lru free i nd (env D) (completions D) j now (Z.of_nat p) (mkCompletion false LedgerError.None) Q Hei Hdi)
    as (e' & w' & lru' & free' & nd' & Hrun & Hei' & Hdi' & Hring' & Henq' & Hnext & Hlru');
    [simpl in Hsz; lia|range_lia|done| |exact Hslot|done|done|].
  { intros k Hk Heq. apply Hfresh. rewrite <- Heq. by apply Hkeys. }
  do 4 eexists. exists Q, (j :: proc), lru', free', nd'. split_and!; [exact Hrun| |done].
  assert (Z.of_nat (length (j :: proc)) = Z.of_nat (length proc) + 1) as Hm by (simpl; lia).
  split; simpl engine; simpl env; simpl threads; simpl completions; rewrite ?Hm; try done.
  - by eapply thread_serve.
  - rewrite Henq', Henq. simpl. lia.
  - rewrite Hnext, <- Hids. apply Permutation_app_head. by rewrite <- Permutation_middle.
  - by rewrite Hnext.
  - intros k [->|Hk]%Hlru'; [by left|]. right. by apply Hkeys.
Qed.

(** A thread that sees its completion sees an acceptance, and has left the queue. *)
Lemma thread_answered ts s Q p n c :
  thread_inv ts s Q → ts !! p = Some (Awaiting n) → s !! Z.of_nat p = Some c → done c = true →
  c = mkCompletion true LedgerError.None ∧ Some (Z.of_nat p) ∉ completion <$> Q.
Proof.
  intros [_ Hq _ Haw] Hp Hc Hd. split.
  - destruct (Haw p n Hp) as [Hs|[Hs _]]; rewrite Hs in Hc; injection Hc as <-; done.
  - intros (r & Hr & Hin)%list_elem_of_fmap. destruct (Hq r Hin) as (i & now & q & n' & -> & _ & _ & Hs).
    simpl in Hr. by simplify_eq.
Qed.

Definition demo_good (cap : nat) (D : demo) : Prop :=
  ∃ Q proc lru free i nd, demo_inv cap D Q proc lru free i nd.

Lemma demo_step_good cap D D' : demo_step hash64 D D' → demo_good cap D → demo_good cap D'.
Proof.
  intros Hstep (Q & proc & lru & free & i & nd & Hinv). pose proof (inv_threads _ _ _ _ _ _ _ _ Hinv) as Hth.
  destruct Hstep as [D p n j e' Hp He|D p n tx r e' s' w' Hp Hrun|D p n c Hp Hc Hd|D p Hp|D k e' s' w' Hrun].
  - do 6 eexists. by eapply demo_allocate_inv.
  - destruct (demo_submit_run cap D Q proc lru free i nd p n tx Hinv Hp) as (e1 & s1 & w1 & now & Hrun' & Hinv').
    rewrite Hrun' in Hrun. injection Hrun as <- <- <- <-. do 6 eexists. simpl. rewrite Z.add_0_r. exact Hinv'.
  - destruct (thread_answered _ _ _ _ _ _ Hth Hp Hc Hd) as [-> Hnot]. simpl. rewrite Z.add_0_r.
    do 6 eexists. apply (demo_move_inv _ _ _ _ _ _ _ _ p (Awaiting n) _ _ Hinv); try done; [|simpl; lia].
    apply (thread_move _ _ _ p n); auto.
  - do 6 eexists. apply (demo_move_inv _ _ _ _ _ _ _ _ p (Produce 0) _ _ Hinv); try done.
    apply (thread_move _ _ _ p 0); auto.
  - destruct (demo_write_inv cap D Q proc lru free i nd Hinv)
      as (k1 & e1 & s1 & w1 & Q' & proc' & lru' & free' & nd' & Hrun' & Hinv' & _).
    rewrite Hrun' in Hrun. injection Hrun as <- <- <- <-. by do 6 eexists.
Qed.

Lemma demo_steps_good cap D D' : rtc (demo_step hash64) D D' → demo_good cap D → demo_good cap D'.
Proof. induction 1; eauto using demo_step_good. Qed.

(** A whole call of [process_pending] is a sequence of steps of the writer, between
    which the producers can move. *)
Lemma writer_batch n D k e' s' w' :
  process_pending hash64 n (engine D) (completions D) (env D) = Some (k, e', s', w') →
  rtc (demo_step hash64) D (mkDemo e' s' w' (threads D) (accepted_count D) (rejected_count D)).
Proof.
  unfold process_pending. generalize 0 as c. revert D.
  induction n as [|n IH]; intros D c; cbn [process_loop]; msimpl.
  { intros [= _ <- <- <-]. by destruct D. }
  intros Hrun. destruct (try_pop (ring_ (engine D))) as [[[r|] rb]|] eqn:Hpop; [| |done]; msimpl in Hrun.
  - destruct (process_request hash64 r (with_ring rb (engine D)) (completions D) (env D))
      as [[[e1 s1] w1]|] eqn:Hreq; [|done]. msimpl in Hrun. eapply rtc_l.
    + apply (demo_write hash64 D 1 e1 s1 w1). unfold process_pending. cbn [process_loop]. msimpl.
      rewrite Hpop. msimpl. by rewrite Hreq.
    + by apply (IH (mkDemo e1 s1 w1 (threads D) (accepted_count D) (rejected_count D)) _ Hrun).
  - injection Hrun as _ <- <- <-. apply rtc_once, (demo_write hash64 D 0).
    unfold process_pending. cbn [process_loop]. msimpl. by rewrite Hpop.
Qed.

(** ** Progress *)

(** Steps a thread still needs, its request's service not counted. *)
Definition work (t : producer) : Z :=
  match t with
  | Finished => 0
  | Produce n => 4 * Z.of_nat n + 1
  | Awaiting n => 4 * Z.of_nat n + 2
  | Submitting n _ => 4 * Z.of_nat n + 4
  end.
Definition all_finished (D : demo) : Prop := Forall (eq Finished) (threads D).

Lemma find_unfinished ts : Forall (eq Finished) ts ∨ ∃ p t, ts !! p = Some t ∧ t ≠ Finished.
Proof.
  induction ts as [|t ts [IH|(p & x & Hp & Hx)]]; [by left| |right; by exists (S p), x].
  destruct t; [right; by eexists 0%nat, _..|left; by constructor].
Qed.

(** A state in which some thread has not finished has a step that does some of
    the work. *)
Lemma demo_progress cap D Q proc lru free i nd :
  demo_inv cap D Q proc lru free i nd → ¬ all_finished D →
  ∃ D' Q' proc' lru' free' nd', demo_step hash64 D D' ∧ demo_inv cap D' Q' proc' lru' free' i nd' ∧
    zsum (work <$> threads D') + Z.of_nat (length Q') < zsum (work <$> threads D) + Z.of_nat (length Q).
Proof.
  intros Hinv Hnot. pose proof (inv_threads _ _ _ _ _ _ _ _ Hinv) as Hth.
  destruct (find_unfinished (threads D)) as [?|(p & t & Hp & Ht)]; [done|].
  destruct t as [[|n]|n tx|n|]; [..|done].
  - eexists. exists Q, proc, lru, free, nd. split_and!.
    + by apply (demo_leave _ D p).
    + apply (demo_move_inv _ _ _ _ _ _ _ _ p (Produce 0) _ _ Hinv); try done. apply (thread_move _ _ _ p 0); auto.
    + cbn [threads]. rewrite (zsum_insert _ _ _ _ _ Hp). simpl. lia.
  - destruct (allocate_transaction_id (engine D)) as [j e'] eqn:He.
    eexists. exists Q, proc, lru, free, nd. split_and!.
    + by apply (demo_allocate _ D p n j e').
    + by eapply demo_allocate_inv.
    + cbn [threads]. rewrite (zsum_insert _ _ _ _ _ Hp). simpl. lia.
  - destruct (demo_submit_run cap D Q proc lru free i nd p n tx Hinv Hp) as (e1 & s1 & w1 & now & Hrun & Hinv').
    eexists. do 2 eexists. exists lru, free, nd. split_and!; [by eapply (demo_submit _ D p n tx)| |].
    + simpl. rewrite Z.add_0_r. exact Hinv'.
    + cbn [threads has_value]. rewrite (zsum_insert _ _ _ _ _ Hp), length_app. simpl. lia.
  - destruct (ti_awaiting _ _ _ Hth p n Hp) as [Hc|[_ Hin]].
    + destruct (thread_answered _ _ _ _ _ _ Hth Hp Hc eq_refl) as [_ Hq].
      eexists. exists Q, proc, lru, free, nd. split_and!; [by eapply (demo_observe _ D p n)| |].
      * simpl. rewrite Z.add_0_r. apply (demo_move_inv _ _ _ _ _ _ _ _ p (Awaiting n) _ _ Hinv); try done; [|simpl; lia].
        apply (thread_move _ _ _ p n); auto.
      * cbn [threads]. rewrite (zsum_insert _ _ _ _ _ Hp). simpl. lia.
    + destruct (demo_write_inv cap D Q proc lru free i nd Hinv)
        as (k1 & e1 & s1 & w1 & Q' & proc' & lru' & free' & nd' & Hrun & Hinv' & ->).
      eexists. do 5 eexists. split_and!; [by eapply demo_write|exact Hinv'|].
      cbn [threads]. destruct Q; [by apply elem_of_nil in Hin|]. simpl. lia.
Qed.

Lemma work_nonneg ts : 0 ≤ zsum (work <$> ts).
Proof. apply nonneg_zsum. intros []; simpl; lia. Qed.

Lemma demo_finishes cap D Q proc lru free i nd :
  demo_inv cap D Q proc lru free i nd → ∃ D', rtc (demo_step hash64) D D' ∧ all_finished D'.
Proof.
  remember (Z.to_nat (zsum (work <$> threads D) + Z.of_nat (length Q))) as m eqn:Hm.
  revert D Q proc lru free nd Hm. induction m as [m IH] using lt_wf_ind.
  intros D Q proc lru free nd -> Hinv.
  destruct (find_unfinished (threads D)) as [Hf|(p & t & Hp & Ht)]; [by exists D|].
  destruct (demo_progress cap D Q proc lru free i nd Hinv) as (D' & Q' & proc' & lru' & free' & nd' & Hstep & Hinv' & Hlt).
  { intros Hf. apply Ht. symmetry. by apply (Forall_lookup_1 _ _ p _ Hf). }
  pose proof (work_nonneg (threads D')). 
  destruct (IH (Z.to_nat (zsum (work <$> threads D') + Z.of_nat (length Q'))) ltac:(lia) D' Q' proc' lru' free' nd' eq_refl Hinv') as (D'' & Hs & Hf).
  exists D''. split; [by eapply rtc_l|done].
Qed.

(** ** Before and after the threads *)

Variables (pad : list byte) (visit : LedgerState → list (AccountId * Account)).
Hypothesis Hpad : length pad = 4%nat.
Hypothesis Hvisit : ∀ st, iterates st (visit st).
Hypothesis Hnames : wal ≠ sp ∧ wal ≠ tmp_path_of sp.

(** A snapshot written next to the log. *)
Lemma snapshot_beside st off w i nd :
  reliable w → apart sp (view w) → dir (view w) !! tmp_path_of sp = None →
  dir (view w) !! wal = Some i → files (view w) !! i = Some nd →
  ∃ w' nd' j c, write_snapshot pad (visit st) sp st off w = Some (LedgerError.None, w') ∧ reliable w' ∧
    dir (view w') !! wal = Some i ∧ files (view w') !! i = Some nd' ∧ cur nd' = cur nd ∧
    (∀ d o, fds (view w) !! d = Some o → fds (view w') !! d = Some o) ∧
    dir (view w') !! sp = Some j ∧ files (view w') !! j = Some (mkInode c c) ∧
    c = snapshot_bytes pad (visit st) st off ∧ dir (view w') !! tmp_path_of sp = None.
Proof.
  intros Hrel Hap Htmp Hw Hi. destruct Hnames as [Hn1 Hn2].
  destruct (write_snapshot_spec pad (visit st) sp st off w Hpad (Hvisit st) Hap) as (r & w' & Hrun & _ & Hres & Hr).
  destruct Hr as [Hrel' ->]; [done|by right|].
  destruct Hres as [[_ (_ & Ho & Hfd & j & Hd & Hj & _ & Ht & _)]|[[?|?] _]]; [|done..].
  destruct (proj1 Ho wal i) as (Hwal & Hcur & _).
  { split_and!; [done|done|done|by rewrite Htmp|by rewrite Hi]. }
  rewrite Hi in Hcur. destruct (files (view w') !! i) as [nd'|] eqn:Hi'; [|done].
  exists w', nd', j, (snapshot_bytes pad (visit st) st off). split_and!; try done. by injection Hcur.
Qed.

Lemma demo_accounts_within : balances_within 0 (mkState (demo_accounts 0) 0) ∧ state_wf (mkState (demo_accounts 0) 0).
Proof. split; [|split; [done|]]; by_compute. Qed.

(** Seeding the chart of accounts. *)
Lemma demo_chart e :
  working_copy (state_ e) = empty_state →
  ∃ st, (engine_add_account revenue_account (engine_add_account cash_account e).2).2 =
      with_state st (processed_since_publish_ e) e ∧ working_copy st = mkState (demo_accounts 0) 0.
Proof.
  intros He. unfold engine_add_account. rewrite He. eexists. split; [reflexivity|]. reflexivity.
Qed.

Lemma demo_start_inv cap free e w i nd :
  (0 < cap)%nat → rep hash64 cap (idempotency_ e) [] free [] → 0 ≤ fd_ (wal_writer_ e) →
  working_copy (state_ e) = mkState (demo_accounts 0) 0 → publish_snapshot_every_n (config_ e) = 16 →
  processed_since_publish_ e = 0 → next_tx_id_ e = 0 → ring_rep 10 (ring_ e) [] → enqueue_pos_ (ring_ e) = 0 →
  disk_inv e w 0 i nd → demo_inv cap (demo_start e w) [] [] [] free i nd.
Proof.
  intros Hcap Hrep Hfd Hst Hev Hs Hn Hring Henq Hdisk. destruct demo_accounts_within as [Hwithin Hwf].
  split; simpl engine; simpl env; try done.
  - split; [|by rewrite Hst|done|done|done]. split; [done|done|by rewrite Hst..|done].
  - split; [| |by apply NoDup_nil|]; cbn [threads demo_start].
    + by intros p n tx [? _]%lookup_replicate.
    + by intros r ?%elem_of_nil.
    + by intros p n [? _]%lookup_replicate.
  - by rewrite Hn.
  - by rewrite Hn.
  - by intros k ?%elem_of_nil.
Qed.

Lemma demo_boot w :
  reliable w → dir (view w) !! wal = None → dir (view w) !! sp = None → dir (view w) !! tmp_path_of sp = None →
  ∃ e w' i nd, boot pad visit wal sp w = Some (Some e, w') ∧
    demo_inv (cache_cap 131072) (demo_start e w') [] [] [] (Z.of_nat <$> seq 0 (cache_cap 131072)) i nd.
Proof.
  intros Hrel Hw Hsp Htmp. destruct Hnames as [Hn1 Hn2]. unfold boot, engine_open, state_working_copy. msimpl.
  destruct (writer_open_spec wal SyncEveryWrite new_writer w) as (r & wr & w1 & Hrun & Hr & Hcase); [done|].
  change (wal_path (config_ (make_engine (demo_config wal)))) with wal.
  change (sync_mode (config_ (make_engine (demo_config wal)))) with SyncEveryWrite.
  change (wal_writer_ (make_engine (demo_config wal))) with new_writer.
  rewrite Hrun. destruct (Hr Hrel) as [Hrel1 Hok]. specialize (Hok (or_intror Hw)) as ->.
  destruct Hcase as [[Hbad _]|(_ & Hfd & i & nd & Hwr & (pos & Hfd1 & Hi) & Hdir & _ & Hoth & [[? _]|[_ ->]])]; [discriminate Hbad|congruence|].
  msimpl. change (has_value LedgerError.None) with true. cbv iota.
  destruct (demo_chart (with_writer wr (make_engine (demo_config wal))) eq_refl) as (st & -> & Hst).
  destruct (snapshot_beside (working_copy st) 0 w1 i (mkInode [] []) Hrel1)
    as (w2 & nd' & j & c & Hsnap & Hrel2 & Hwal & Hi2 & Hcur & Hfds & Hj & Hfj & Hc & Htmp2).
  { intros k Hk. rewrite Hoth in Hk by done. congruence. }
  { by rewrite Hoth by done. } { done. } { done. }
  msimpl. simpl state_. rewrite Hsnap. msimpl. do 2 eexists. exists i, nd'. split; [reflexivity|].
  apply demo_start_inv; [unfold cache_cap; lia|by apply make_cache_rep|exact Hfd|exact Hst|
    reflexivity|reflexivity|reflexivity|by apply (make_ring_rep _ 10)|reflexivity|].
  - split; [by exists pos; auto|by rewrite Hcur|by simpl; rewrite Hwr|done|done|].
    split_and!; [|done|].
    + intros k Hk. assert (k = j) as -> by congruence. rewrite Htmp2. split; [done|by exists c].
    + intros k Hk ->. assert (i = j) as -> by congruence. by simplify_eq.
Qed.

Lemma finished_zsum (f : producer → Z) ts : Forall (eq Finished) ts → f Finished = 0 → zsum (f <$> ts) = 0.
Proof. intros Hts Hf. induction Hts as [|t ts <- _ IH]; [done|]. cbn. rewrite Hf. exact IH. Qed.
Lemma finished_submitting ts : Forall (eq Finished) ts → submitting ts = [].
Proof. unfold submitting. by induction 1 as [|t ts <- _ IH]. Qed.

(** When every thread has finished, everything submitted has been processed. *)
Lemma finished_all cap D Q proc lru free i nd :
  demo_inv cap D Q proc lru free i nd → all_finished D →
  Q = [] ∧ Z.of_nat (length proc) = 2000 ∧ accepted_count D = 2000 ∧ rejected_count D = 0.
Proof.
  intros [_ _ Hth _ _ Hids [_ Halloc] _ [Hcnt Hrej] _] Hf. unfold all_finished in Hf.
  change demo_total with 2000 in *.
  rewrite (finished_zsum _ _ Hf) in Hcnt by done. rewrite (finished_zsum _ _ Hf) in Halloc by done.
  assert (Q = []) as ->.
  { destruct Q as [|r Q]; [done|]. destruct (ti_queue _ _ _ Hth r) as (j & now & p & n & _ & _ & Hp & _); [by left|].
    by apply (Forall_lookup_1 _ _ _ _ Hf) in Hp. }
  rewrite (finished_submitting _ Hf) in Hids. apply Permutation_length in Hids. rewrite length_seqZ in Hids.
  simpl in Hids. split_and!; [done|lia..].
Qed.

Lemma demo_sum m (f : Account → Z) :
  map_zsum f (demo_accounts m) =
    f (mkAccount kCash Asset (-10 * m) 50000) + f (mkAccount kRevenue Revenue (-10 * m) 0).
Proof.
  unfold demo_accounts. rewrite map_zsum_insert_new by done. rewrite <- insert_empty.
  rewrite map_zsum_insert_new, map_zsum_empty by done. lia.
Qed.

Lemma demo_trial m st :
  accounts_ st = demo_accounts m → 0 ≤ m ≤ 2000 → validate_trial_balance (visit st) = Some LedgerError.None.
Proof.
  intros Hst Hm. rewrite (trial_balance_value st); [|done|unfold volume; rewrite Hst, demo_sum; cbn [balance]; range_lia].
  unfold trial_verdict, imbalance. rewrite Hst, demo_sum. cbn [type balance].
  change (normal_sign Asset) with 1. change (normal_sign Revenue) with (-1). by rewrite decide_True by lia.
Qed.

(** What [main] reports once the threads have been joined. *)
Lemma demo_finish cap D Q proc lru free i nd fuel :
  demo_inv cap D Q proc lru free i nd → all_finished D → (0 < fuel)%nat →
  ∃ w', finish hash64 pad visit fuel wal sp (engine D) (completions D) (env D) =
    Some (Some (Value (-20000, -20000, (-20000, -20000))), w').
Proof.
  intros Hinv Hf Hfuel. destruct (finished_all _ _ _ _ _ _ _ _ Hinv Hf) as (-> & Hm & _).
  destruct (demo_inv_sizes _ _ _ _ _ _ _ _ Hinv) as (_ & _ & Hroom).
  destruct Hinv as [[[_ _ Hwf _ _] Hacc _ _ Hpub] [(pos & _ & Hi) Hlen Hoff Hrel Hwal (Hap & Htmp & _)] _ Hring _ _ _ _ _ _].
  rewrite Hm in *. unfold finish. set (n := Z.to_nat _). clearbody n. msimpl.
  destruct (serve_none n (engine D) (completions D) (env D) Hring Hroom) as (rb & -> & _). msimpl.
  change (engine_snapshot (with_ring rb (engine D))) with (engine_snapshot (engine D)).
  rewrite (Hpub ltac:(done) eq_refl). set (st := working_copy (state_ (engine D))) in *.
  assert (find_account st kCash = Some (mkAccount kCash Asset (-20000) 50000)) as Hcash by (unfold find_account; by rewrite Hacc).
  assert (find_account st kRevenue = Some (mkAccount kRevenue Revenue (-20000) 0)) as Hrev by (unfold find_account; by rewrite Hacc).
  rewrite Hcash, Hrev. msimpl. unfold size_bytes, wal_writer. simpl wal_writer_. rewrite Hoff.
  destruct (snapshot_beside st (83 * 2000) (env D) i nd Hrel Hap Htmp Hwal Hi)
    as (w2 & nd' & j & c & -> & Hrel2 & Hwal2 & Hi2 & Hcur & _ & Hj & Hfj & Hc & _). msimpl.
  destruct (recover_records visit wal sp w2 st (83 * 2000) i nd' (cur nd') [] [] st fuel Hrel2)
    as (w3 & nd3 & -> & _); try done.
  - right. exists j, (mkInode c c). split_and!; [done|done|]. simpl. rewrite Hc, <- (app_nil_r (snapshot_bytes _ _ _ _)).
    apply parse_snapshot_bytes. split_and!; [done|apply Hvisit|done|by rewrite Hacc|by_compute].
  - simpl. by rewrite app_nil_r.
  - by rewrite Hcur.
  - rewrite Hcur. range_lia.
  - by apply (demo_trial 2000).
  - msimpl. cbn [rec_state]. rewrite Hcash, Hrev. msimpl. by eexists.
Qed.

(** C22: The demonstration does what its README shows, under every interleaving.
    In an environment that does not fail, started on an empty directory, [main]
    boots; and in whatever order the four producers and the writer took their
    steps, when all producers have finished, all 2000 transactions have been
    accepted and none rejected, and the rest of [main] returns and reports the
    same balances for the published and for the recovered state. *)
Theorem demo_report w fuel :
  reliable w → dir (view w) !! wal = None → dir (view w) !! sp = None → dir (view w) !! tmp_path_of sp = None →
  (0 < fuel)%nat →
  ∃ e w', boot pad visit wal sp w = Some (Some e, w') ∧
    ∀ D, rtc (demo_step hash64) (demo_start e w') D → all_finished D →
      accepted_count D = 2000 ∧ rejected_count D = 0 ∧
      ∃ w'', finish hash64 pad visit fuel wal sp (engine D) (completions D) (env D) =
        Some (Some (Value (-20000, -20000, (-20000, -20000))), w'').
Proof.
  intros Hrel Hw Hsp Htmp Hfuel. destruct (demo_boot w Hrel Hw Hsp Htmp) as (e & w' & i & nd & Hboot & Hinv).
  exists e, w'. split; [done|]. intros D Hreach Hf.
  apply (demo_steps_good (cache_cap 131072)) in Hreach as (Q & proc & lru & free & i' & nd' & Hinv'); [|by do 6 eexists].
  destruct (finished_all _ _ _ _ _ _ _ _ Hinv' Hf) as (_ & _ & Hacc & Hrej).
  split_and!; [done|done|]. by eapply demo_finish.
Qed.

(** C23: The demonstration cannot get stuck: in an environment that does not fail,
    from every state the threads can reach there are steps that lead to one in
    which every producer has finished. *)
Theorem demo_no_deadlock w :
  reliable w → dir (view w) !! wal = None → dir (view w) !! sp = None → dir (view w) !! tmp_path_of sp = None →
  ∃ e w', boot pad visit wal sp w = Some (Some e, w') ∧
    ∀ D, rtc (demo_step hash64) (demo_start e w') D →
      ∃ D', rtc (demo_step hash64) D D' ∧ all_finished D'.
Proof.
  intros Hrel Hw Hsp Htmp. destruct (demo_boot w Hrel Hw Hsp Htmp) as (e & w' & i & nd & Hboot & Hinv).
  exists e, w'. split; [done|]. intros D Hreach.
  apply (demo_steps_good (cache_cap 131072)) in Hreach as (Q & proc & lru & free & i' & nd' & Hinv'); [|by do 6 eexists].
  by eapply demo_finishes.
Qed.
End Invariant.

(** *** A run in an empty directory *)
Module ExampleDemo.
Definition hash64 (z : Z) : Z := z.
Definition pad : list byte := replicate 4 Byte.x00.
Definition visit (st : LedgerState) : list (AccountId * Account) := map_to_list (accounts_ st).
Definition disk := MemFs.boot [] [].
End ExampleDemo.

Lemma demo_report_witness :
  ∃ e w', boot (H := MemFs.posix) ExampleDemo.pad ExampleDemo.visit "/d/wal.bin" "/d/snapshot.bin"
      ExampleDemo.disk = Some (Some e, w') ∧
    ∀ D, rtc (demo_step (H := MemFs.posix) ExampleDemo.hash64) (demo_start (H := MemFs.posix) e w') D →
      all_finished D →
      accepted_count D = 2000 ∧ rejected_count D = 0 ∧
      ∃ w'', finish (H := MemFs.posix) ExampleDemo.hash64 ExampleDemo.pad ExampleDemo.visit 1 "/d/wal.bin"
        "/d/snapshot.bin" (engine D) (completions D) (env D) =
        Some (Some (Value (-20000, -20000, (-20000, -20000))), w'').
Proof.
  apply (demo_report (L := MemFs.posix_laws) ExampleDemo.hash64 "/d/wal.bin" "/d/snapshot.bin" ExampleDemo.pad
    ExampleDemo.visit eq_refl (λ st, Permutation_refl _) ltac:(by_compute) ExampleDemo.disk 1).
  - reflexivity.
  - reflexivity.
  - reflexivity.
  - reflexivity.
  - lia.
Defined.

Lemma demo_no_deadlock_witness :
  ∃ e w', boot (H := MemFs.posix) ExampleDemo.pad ExampleDemo.visit "/d/wal.bin" "/d/snapshot.bin"
      ExampleDemo.disk = Some (Some e, w') ∧
    ∀ D, rtc (demo_step (H := MemFs.posix) ExampleDemo.hash64) (demo_start (H := MemFs.posix) e w') D →
      ∃ D', rtc (demo_step (H := MemFs.posix) ExampleDemo.hash64) D D' ∧ all_finished D'.
Proof.
  apply (demo_no_deadlock (L := MemFs.posix_laws) ExampleDemo.hash64 "/d/wal.bin" "/d/snapshot.bin" ExampleDemo.pad
    ExampleDemo.visit eq_refl (λ st, Permutation_refl _) ltac:(by_compute) ExampleDemo.disk).
  - reflexivity.
  - reflexivity.
  - reflexivity.
  - reflexivity.
Defined.
