(* ===== verification/TestPrograms.v ===== *)
(** * The test programs

    [tests/test_validation.cpp], [tests/test_wal.cpp] and [tests/fault_injection_test.cpp]
    as programs over the model, with [LEDGER_CHECK] ending the program.  The tests run on
    one machine with one clock; the theorems are that their checks hold in every
    environment that does not fail, for every padding and iteration order. *)

From Stdlib Require Import Sorted.
From S2P Require Import Prelude Types Validation LedgerState Crc32 WalCodec Posix WalWriter.
From S2P Require Import WalReader Snapshot SnapshotWrite Recovery.

(** ** Checks *)

(** [LEDGER_CHECK] leaves the program when the condition is false: the result of a test
    is [None] from there on. *)
Section Checked.
Context `{Posix}.

Definition Test (A : Type) : Type := M (option A).
Definition perform {A} (m : M A) : Test A := mbind (M := M) (λ a, mret (M := M) (Some a)) m.
Definition LEDGER_CHECK (cond : bool) : Test unit := mret (M := M) (if cond then Some tt else None).
Definition expect {A} (o : option A) : Test A := mret (M := M) o.
Definition andthen {A B} (m : Test A) (k : A → Test B) : Test B :=
  mbind (M := M) (λ o : option A, match o with Some a => k a | None => λ w, Some (None, w) end) m.

Lemma andthen_unfold {A B} (m : Test A) (k : A → Test B) w :
  andthen m k w = match m w with
                  | Some (Some a, w') => k a w'
                  | Some (None, w') => Some (None, w')
                  | None => None
                  end.
Proof. unfold andthen. msimpl. by destruct (m w) as [[[a|] w']|]. Qed.
Lemma perform_unfold {A B} (m : M A) (k : A → Test B) w a w' :
  m w = Some (a, w') → andthen (perform m) k w = k a w'.
Proof. intros Hm. rewrite andthen_unfold. unfold perform. msimpl. by rewrite Hm. Qed.
Lemma check_unfold {B} (b : bool) (k : unit → Test B) w : b = true → andthen (LEDGER_CHECK b) k w = k tt w.
Proof. by intros ->. Qed.
End Checked.
Notation "x ⇐ m ; k" := (andthen m (λ x, k)) (at level 20, m at level 100, k at level 200, right associativity).

(** A transaction of a test; [None] when a check on [push_back] fails. *)
Fixpoint push_legs (l : LegList.t) (ls : list EntryLeg) : option LegList.t :=
  match ls with
  | [] => Some l
  | leg :: ls => let '(ok, l) := LegList.push_back l leg in if (ok : bool) then push_legs l ls else None
  end.
Definition make_tx (i : TransactionId) (key : IdempotencyKey) (ls : list EntryLeg) : option Transaction :=
  mkTx i key 0 <$> push_legs LegList.make ls.

(** ** [test_validation.cpp] *)

Module TestValidation.
Definition zero_key : IdempotencyKey := mkKey 0 0.
Definition check_tx (i : TransactionId) (ls : list EntryLeg) (k : Transaction → option bool) : option bool :=
  match make_tx i zero_key ls with Some tx => k tx | None => Some false end.
(** The checks after a rejection: no value, and the error. *)
Definition rejected_with (e : LedgerError) (r : ResultVoid) : bool := negb (has_value r) && bool_decide (r = e).

Definition test_balanced_transaction_is_valid : option bool :=
  check_tx 1 [mkLeg 1 Debit 1000; mkLeg 2 Credit 1000] (λ tx, Some (has_value (validate_transaction_shape tx))).
Definition test_unbalanced_transaction_is_rejected : option bool :=
  check_tx 2 [mkLeg 1 Debit 1000; mkLeg 2 Credit 999]
    (λ tx, Some (rejected_with LedgerError.UnbalancedTransaction (validate_transaction_shape tx))).
Definition test_single_leg_transaction_is_rejected : option bool :=
  check_tx 3 [mkLeg 1 Debit 1000] (λ tx, Some (rejected_with LedgerError.TooFewLegs (validate_transaction_shape tx))).
Definition test_zero_amount_leg_is_rejected : option bool :=
  check_tx 4 [mkLeg 1 Debit 0; mkLeg 2 Credit 0]
    (λ tx, Some (rejected_with LedgerError.ZeroAmountLeg (validate_transaction_shape tx))).

Definition checking (limit : Amount) : Account := mkAccount 1 Asset 500 limit.
Definition revenue : Account := mkAccount 2 Revenue 0 0.
Definition test_overdraft_limit_enforced : option bool :=
  let lookup i := if bool_decide (i = 1) then Some (checking 200)
                  else if bool_decide (i = 2) then Some revenue else None in
  check_tx 5 [mkLeg 2 Debit 800; mkLeg 1 Credit 800] (λ over_limit,
    rejected ← validate_transaction_against_state over_limit lookup;
    if negb (rejected_with LedgerError.InsufficientFunds rejected) then Some false
    else check_tx 6 [mkLeg 2 Debit 700; mkLeg 1 Credit 700] (λ within_limit,
      r ← validate_transaction_against_state within_limit lookup; Some (has_value r))).
Definition test_unknown_account_is_rejected : option bool :=
  let lookup i := if bool_decide (i = 1) then Some (checking 0) else None in
  check_tx 7 [mkLeg 1 Debit 10; mkLeg 999 Credit 10] (λ tx,
    r ← validate_transaction_against_state tx lookup; Some (rejected_with LedgerError.AccountNotFound r)).

Definition tests : list (option bool) :=
  [test_balanced_transaction_is_valid; test_unbalanced_transaction_is_rejected;
   test_single_leg_transaction_is_rejected; test_zero_amount_leg_is_rejected;
   test_overdraft_limit_enforced; test_unknown_account_is_rejected].
End TestValidation.

(** Every check of [test_validation.cpp] holds. *)
Theorem test_validation_passes : Forall (eq (Some true)) TestValidation.tests.
Proof. repeat constructor; by vm_compute. Qed.

(** ** Files outside of the engine *)

(** What the tests use of the C++ library to tamper with files and to look at them:
    [overwrite] is the block that opens a file with "r+b", reads the byte at an offset and
    puts another in its place, [append_raw] an [ofstream] opened with [app] that is written
    and destroyed.  The booleans say whether the file could be opened. *)
Class StdFiles (P : Posix) := {
  overwrite : string → Z → (Z → Z) → world → bool * world;
  append_raw : string → list byte → world → bool * world;
  file_size : string → world → Z * world
}.

Definition tamper (c : list byte) (off : Z) (g : Z → Z) : list byte :=
  alter (λ b, byte.of_Z (g (byte.unsigned b))) (Z.to_nat off) c.

Class StdFilesLaws (P : Posix) (L : PosixLaws P) (S : StdFiles P) := {
  overwrite_law p off g w i nd : reliable w → dir (view w) !! p = Some i → files (view w) !! i = Some nd →
    0 ≤ off < Z.of_nat (length (cur nd)) →
    ∃ w', overwrite p off g w = (true, w') ∧ reliable w' ∧
      view w' = set_file (view w) i (mkInode (tamper (cur nd) off g) (stable nd));
  append_raw_law p bs w i nd : reliable w → dir (view w) !! p = Some i → files (view w) !! i = Some nd →
    ∃ w', append_raw p bs w = (true, w') ∧ reliable w' ∧
      view w' = set_file (view w) i (mkInode (cur nd ++ bs) (stable nd));
  file_size_law p w i nd : reliable w → dir (view w) !! p = Some i → files (view w) !! i = Some nd →
    ∃ w', file_size p w = (Z.of_nat (length (cur nd)), w') ∧ reliable w' ∧ view w' = view w
}.

(** ** [test_wal.cpp] *)

Section Programs.
Context `{P : Posix} `{S : !StdFiles P}.

Definition wal_tx (i : TransactionId) (amount : Amount) : option Transaction :=
  make_tx i (mkKey i (wrap64 (i * 7))) [mkLeg 1 Debit amount; mkLeg 2 Credit amount].

(** The first block: two records, each through [append]; the destructor closes the file. *)
Definition write_two (path : string) : Test unit :=
  opened ⇐ perform (writer_open path SyncEveryWrite new_writer);
  _ ⇐ LEDGER_CHECK (has_value opened.1);
  tx ⇐ expect (wal_tx 1 100);
  a ⇐ perform (append tx opened.2);
  _ ⇐ LEDGER_CHECK (has_value a.1);
  tx ⇐ expect (wal_tx 2 250);
  b ⇐ perform (append tx a.2);
  _ ⇐ LEDGER_CHECK (has_value b.1);
  _ ⇐ perform (UniqueFd.reset (fd_ b.2) (-1));
  expect (Some tt).

(** The second block; the offset behind the first record. *)
Definition read_back (path : string) : Test Z :=
  opened ⇐ perform (reader_open path new_reader);
  _ ⇐ LEDGER_CHECK (has_value opened.1);
  first ⇐ perform (read_next opened.2);
  _ ⇐ LEDGER_CHECK (bool_decide (outcome first.1 = ReadOutcome.Ok));
  _ ⇐ LEDGER_CHECK (bool_decide (id (transaction first.1) = 1));
  leg ⇐ perform (lift (tx_legs (transaction first.1) !! 0%nat));
  _ ⇐ LEDGER_CHECK (bool_decide (amount leg = 100));
  second ⇐ perform (read_next first.2);
  _ ⇐ LEDGER_CHECK (bool_decide (outcome second.1 = ReadOutcome.Ok));
  _ ⇐ LEDGER_CHECK (bool_decide (id (transaction second.1) = 2));
  eof ⇐ perform (read_next second.2);
  _ ⇐ LEDGER_CHECK (bool_decide (outcome eof.1 = ReadOutcome.EndOfLog));
  _ ⇐ perform (UniqueFd.reset (rd_fd eof.2) (-1));
  expect (Some (last_valid_offset first.2)).

(** The fourth, after a byte of the second record was inverted: reading stops there. *)
Definition read_damaged (path : string) (offset_after_first_record : Z) : Test unit :=
  opened ⇐ perform (reader_open path new_reader);
  _ ⇐ LEDGER_CHECK (has_value opened.1);
  first ⇐ perform (read_next opened.2);
  _ ⇐ LEDGER_CHECK (bool_decide (outcome first.1 = ReadOutcome.Ok));
  _ ⇐ LEDGER_CHECK (bool_decide (last_valid_offset first.2 = offset_after_first_record));
  corrupt ⇐ perform (read_next first.2);
  _ ⇐ LEDGER_CHECK (bool_decide (outcome corrupt.1 = ReadOutcome.Corrupt));
  _ ⇐ LEDGER_CHECK (bool_decide (last_valid_offset corrupt.2 = offset_after_first_record));
  _ ⇐ perform (UniqueFd.reset (rd_fd corrupt.2) (-1));
  expect (Some tt).

Definition test_roundtrip_and_corruption_detection (path : string) : Test unit :=
  _ ⇐ write_two path;
  offset_after_first_record ⇐ read_back path;
  f ⇐ perform (call (overwrite path (offset_after_first_record + 20) (λ byte, Z.lxor byte 0xFF)));
  _ ⇐ LEDGER_CHECK f;
  _ ⇐ read_damaged path offset_after_first_record;
  r ⇐ perform (truncate_wal path offset_after_first_record);
  _ ⇐ LEDGER_CHECK (has_value r);
  size ⇐ perform (call (file_size path));
  LEDGER_CHECK (bool_decide (size = offset_after_first_record)).

(** ** [fault_injection_test.cpp] *)

Definition fault_tx (i : TransactionId) (amount : Amount) : option Transaction :=
  make_tx i (mkKey i i) [mkLeg 1 Debit amount; mkLeg 2 Credit amount].

Fixpoint append_and_apply (ids : list TransactionId) (writer : BinaryWalWriter) (expected : LedgerState) :
    Test (BinaryWalWriter * LedgerState) :=
  match ids with
  | [] => expect (Some (writer, expected))
  | i :: ids =>
      amount ⇐ perform (lift (smul64 (to_s64 i) 1000));
      tx ⇐ expect (fault_tx i amount);
      a ⇐ perform (append tx writer);
      _ ⇐ LEDGER_CHECK (has_value a.1);
      b ⇐ perform (lift (apply expected tx));
      _ ⇐ LEDGER_CHECK (has_value b.2);
      append_and_apply ids a.2 b.1
  end.

Definition torn_header : list byte :=
  [Byte.x4c; Byte.x45; Byte.x44; Byte.x47; Byte.x01; Byte.x00; Byte.x00; Byte.x00; Byte.x20; Byte.x00; Byte.x00; Byte.x00].

(** The balance behind a pointer that is dereferenced without a test. *)
Definition balance_of (st : LedgerState) (i : AccountId) : M Amount := lift (balance <$> find_account st i).

Definition run_fault_injection_scenario (fuel : nat) (pad : list byte)
    (visit : LedgerState → list (AccountId * Account)) (wal_path snapshot_path : string) : Test unit :=
  let '(ok1, seed_state) := add_account empty_state (mkAccount 1 Asset 0 0) in
  _ ⇐ LEDGER_CHECK ok1;
  let '(ok2, seed_state) := add_account seed_state (mkAccount 2 Revenue 0 0) in
  _ ⇐ LEDGER_CHECK ok2;
  r ⇐ perform (write_snapshot pad (visit seed_state) snapshot_path seed_state 0);
  _ ⇐ LEDGER_CHECK (has_value r);
  opened ⇐ perform (writer_open wal_path SyncEveryWrite new_writer);
  _ ⇐ LEDGER_CHECK (has_value opened.1);
  written ⇐ append_and_apply [1; 2; 3; 4; 5] opened.2 seed_state;
  let valid_wal_length := size_bytes written.1 in
  let expected := written.2 in
  _ ⇐ perform (UniqueFd.reset (fd_ written.1) (-1));
  raw ⇐ perform (call (append_raw wal_path torn_header));
  _ ⇐ LEDGER_CHECK raw;
  recovered ⇐ perform (recover fuel visit wal_path snapshot_path);
  match recovered with
  | Some (Value rs) =>
      let state := rec_state rs in
      cash ⇐ perform (balance_of state 1); expected_cash ⇐ perform (balance_of expected 1);
      _ ⇐ LEDGER_CHECK (bool_decide (cash = expected_cash));
      revenue ⇐ perform (balance_of state 2); expected_revenue ⇐ perform (balance_of expected 2);
      _ ⇐ LEDGER_CHECK (bool_decide (revenue = expected_revenue));
      trial ⇐ perform (lift (validate_trial_balance (visit state)));
      _ ⇐ LEDGER_CHECK (has_value trial);
      _ ⇐ LEDGER_CHECK (bool_decide (wal_valid_length rs = valid_wal_length));
      size ⇐ perform (call (file_size wal_path));
      LEDGER_CHECK (bool_decide (size = valid_wal_length))
  | _ => expect None
  end.
End Programs.

(** ** In every environment that does not fail *)

Section Passes.
Context {P : Posix} {L : PosixLaws P} {S : StdFiles P} {SL : StdFilesLaws P L S}.

(** A file under its name, no matter which descriptors are open. *)
Definition file_is (f : fs) (path : string) (i : Z) (c : list byte) : Prop :=
  dir f !! path = Some i ∧ ∃ s, files f !! i = Some (mkInode c s).

Lemma append_reliable tx wr w i nd :
  tx_ok tx → 0 ≤ fd_ wr → open_on (view w) (fd_ wr) true true i nd → reliable w →
  ∃ wr' w' ts nd', append tx wr w = Some (LedgerError.None, wr', w') ∧ reliable w' ∧ s64_ok ts ∧
    fd_ wr' = fd_ wr ∧ offset_ wr' = wrap64 (offset_ wr + Z.of_nat (length (record_bytes tx ts))) ∧
    open_on (view w') (fd_ wr') true true i nd' ∧ cur nd' = cur nd ++ record_bytes tx ts ∧
    frame i (fd_ wr) (view w) (view w').
Proof.
  intros Htx Hfd Hon Hrel. destruct (append_spec tx wr w i nd Htx Hfd Hon)
    as (r & wr' & w' & ts & nd' & Hrun & [Hts _] & Hres & Hon' & [Hfr _] & Hr). destruct (Hr Hrel) as [Hrel' ->].
  destruct (append_result_inv _ _ _ _ _ _ Hres) as (k & Hfd' & _ & Hok & _). destruct (Hok eq_refl) as (Hcur & Hoff & _).
  exists wr', w', ts, nd'. rewrite Hfd'. by split_and!.
Qed.

(** A writer that creates its log. *)
Lemma writer_create path w :
  reliable w → dir (view w) !! path = None →
  ∃ wr w' i, writer_open path SyncEveryWrite new_writer w = Some (LedgerError.None, wr, w') ∧ reliable w' ∧
    0 ≤ fd_ wr ∧ offset_ wr = 0 ∧ dir (view w') !! path = Some i ∧
    open_on (view w') (fd_ wr) true true i (mkInode [] []) ∧
    (∀ q, q ≠ path → dir (view w') !! q = dir (view w) !! q).
Proof.
  intros Hrel Hno. destruct (writer_open_spec path SyncEveryWrite new_writer w) as (r & wr & w' & Hrun & Hr & Hc); [done|].
  destruct (Hr Hrel) as [Hrel' Hok]. rewrite Hok in * by auto.
  destruct Hc as [[? _]|(_ & Hfd & i & nd & Hwr & Hon & Hd & _ & Hq & [[? _]|[_ ->]])]; [done|congruence|].
  exists wr, w', i. split_and!; try done. by rewrite Hwr.
Qed.

(** Closing a descriptor leaves the files alone. *)
Lemma reset_run d w :
  reliable w → ∃ w', UniqueFd.reset d (-1) w = Some (-1, w') ∧ reliable w' ∧
    dir (view w') = dir (view w) ∧ files (view w') = files (view w).
Proof.
  intros Hrel. unfold UniqueFd.reset. destruct (UniqueFd.valid d); [|by exists w].
  exists (sys_close d w). destruct (close_law d w) as [-> _]. auto using reliable_close.
Qed.

Lemma truncated_length nd n nd' : truncated LedgerError.None nd n = Some nd' → length (cur nd') = n.
Proof. intros [= <-]. simpl. unfold resize. len. Qed.

(** Opening a reader, one call of it. *)
Lemma reader_start path w i c :
  reliable w → file_is (view w) path i c →
  ∃ rd w', reader_open path new_reader w = Some (LedgerError.None, rd, w') ∧ reliable w' ∧
    0 ≤ rd_fd rd ∧ rd = mkReader (rd_fd rd) 0 0 ∧ (∃ s, open_on (view w') (rd_fd rd) false false i (mkInode c s)) ∧
    file_is (view w') path i c.
Proof.
  intros Hrel [Hd [s Hi]]. destruct (reader_open_spec path new_reader w i _ eq_refl Hd Hi) as (r & rd & w' & Hrun & Hr & Hc).
  destruct (Hr Hrel) as [Hrel' ->]. destruct Hc as [[? _]|(_ & Hfd & Heq & _ & Hv)]; [done|].
  exists rd, w'. rewrite Hv. split_and!; try done; [exists s; by apply open_on_set_fd|]. split; [done|by exists s].
Qed.

Lemma read_reliable rd w i nd p :
  reliable w → 0 ≤ rd_fd rd → open_on (view w) (rd_fd rd) false false i nd →
  0 ≤ cursor_ rd → cursor_ rd + 1024 ≤ INT64_MAX →
  parse_next (drop (Z.to_nat (cursor_ rd)) (cur nd)) = p →
  ∃ res rd' w', read_next rd w = Some (res, rd', w') ∧ reliable w' ∧ view w' = view w ∧ read_matches rd p res rd'.
Proof.
  intros Hrel Hfd Hon H0 Hmax Hp. destruct (read_next_spec rd w _ _ i nd Hfd Hon H0 Hmax)
    as (res & rd' & w' & Hrun & Hv & Hr & [_ Ha]). rewrite Hp in Ha. exists res, rd', w'. auto.
Qed.

(** *** [test_wal.cpp] *)

Section Wal.
Variable path : string.

Definition tx1 : Transaction := default default_tx (wal_tx 1 100).
Definition tx2 : Transaction := default default_tx (wal_tx 2 250).
Lemma wal_txs : wal_tx 1 100 = Some tx1 ∧ wal_tx 2 250 = Some tx2 ∧ tx_ok tx1 ∧ tx_ok tx2.
Proof. split_and!; [done|done|by_compute|by_compute]. Qed.

Lemma write_two_run w :
  reliable w → dir (view w) !! path = None →
  ∃ w' i ts1 ts2, write_two path w = Some (Some tt, w') ∧ reliable w' ∧ s64_ok ts1 ∧ s64_ok ts2 ∧
    file_is (view w') path i (record_bytes tx1 ts1 ++ record_bytes tx2 ts2).
Proof.
  intros Hrel Hno. destruct wal_txs as (Ht1 & Ht2 & Hok1 & Hok2). unfold write_two.
  destruct (writer_create path w Hrel Hno) as (wr & w1 & i & H1 & Hr1 & Hfd & _ & Hd & Hon & _).
  rewrite (perform_unfold _ _ _ _ _ H1), check_unfold by done. rewrite Ht1, andthen_unfold. cbn [snd expect mret M_ret].
  destruct (append_reliable tx1 wr w1 i _ Hok1 Hfd Hon Hr1) as (wr2 & w2 & ts1 & nd2 & H2 & Hr2 & Hts1 & Hfd2 & _ & Hon2 & Hc2 & Hf2).
  rewrite (perform_unfold _ _ _ _ _ H2), check_unfold by done. rewrite Ht2, andthen_unfold. cbn [snd expect mret M_ret].
  destruct (append_reliable tx2 wr2 w2 i nd2 Hok2) as (wr3 & w3 & ts2 & nd3 & H3 & Hr3 & Hts2 & Hfd3 & _ & Hon3 & Hc3 & Hf3);
    [by rewrite Hfd2|done|done|].
  rewrite (perform_unfold _ _ _ _ _ H3), check_unfold by done. cbn [snd].
  destruct (reset_run (fd_ wr3) w3 Hr3) as (w4 & H4 & Hr4 & Hd4 & Hf4). rewrite (perform_unfold _ _ _ _ _ H4).
  exists w4, i, ts1, ts2. split_and!; try done. unfold file_is. rewrite Hd4, Hf4.
  destruct Hf2 as (Hd2 & _), Hf3 as (Hd3 & _). rewrite Hd3, Hd2. split; [done|]. destruct Hon3 as (? & _ & Hi).
  exists (stable nd3). rewrite Hi. f_equal. destruct nd3 as [c s]. simpl in *. by rewrite Hc3, Hc2.
Qed.

Lemma length_tx1 ts : length (record_bytes tx1 ts) = 83%nat.
Proof. by rewrite length_record_bytes. Qed.
Lemma length_tx2 ts : length (record_bytes tx2 ts) = 83%nat.
Proof. by rewrite length_record_bytes. Qed.

Lemma read_back_run w i ts1 ts2 :
  reliable w → s64_ok ts1 → s64_ok ts2 → file_is (view w) path i (record_bytes tx1 ts1 ++ record_bytes tx2 ts2) →
  ∃ w', read_back path w = Some (Some 83, w') ∧ reliable w' ∧
    file_is (view w') path i (record_bytes tx1 ts1 ++ record_bytes tx2 ts2).
Proof.
  intros Hrel Hts1 Hts2 Hfile. destruct wal_txs as (_ & _ & Hok1 & Hok2). unfold read_back.
  destruct (reader_start path w i _ Hrel Hfile) as (rd & w1 & H1 & Hr1 & Hfd & Hrd & (s & Hon) & Hfile1).
  destruct (parse_next_record tx1 ts1 (record_bytes tx2 ts2) Hok1 Hts1) as (t1 & Hp1 & Hid1 & _ & _ & _ & Hlegs1).
  destruct (parse_next_record tx2 ts2 [] Hok2 Hts2) as (t2 & Hp2 & Hid2 & _). rewrite app_nil_r in Hp2.
  rewrite length_tx1 in Hp1. rewrite length_tx2 in Hp2.
  rewrite (perform_unfold _ _ _ _ _ H1), check_unfold by done. cbn [snd]. rewrite Hrd.
  destruct (read_reliable (mkReader (rd_fd rd) 0 0) w1 i _ _ Hr1 Hfd Hon ltac:(done) ltac:(done) Hp1)
    as (res1 & rd1 & w2 & H2 & Hr2 & Hv2 & Ho1 & Hres1 & ->).
  rewrite (perform_unfold _ _ _ _ _ H2). cbn [fst snd]. rewrite check_unfold by (by rewrite Ho1).
  rewrite check_unfold by (rewrite Hres1, Hid1; done).
  assert (lift (tx_legs (transaction res1) !! 0%nat) w2 = Some (mkLeg 1 Debit 100, w2)) as H3.
  { by rewrite Hres1, Hlegs1. }
  rewrite (perform_unfold _ _ _ _ _ H3), check_unfold by done. cbn [rd_fd cursor_]. rewrite <- Hv2 in Hon.
  destruct (read_reliable (mkReader (rd_fd rd) 83 83) w2 i _ (POk t2 83) Hr2 Hfd Hon) as (res2 & rd2 & w3 & H4 & Hr3 & Hv3 & Ho2 & Hres2 & ->);
    [done|done|cbn [cursor_ cur]; rewrite drop_app_exact by apply length_tx1; exact Hp2|].
  rewrite (perform_unfold _ _ _ _ _ H4). cbn [fst snd]. rewrite check_unfold by (by rewrite Ho2).
  rewrite check_unfold by (rewrite Hres2, Hid2; done). rewrite <- Hv3 in Hon.
  destruct (read_reliable (mkReader (rd_fd rd) 166 166) w3 i _ PEndOfLog Hr3 Hfd Hon) as (res3 & rd3 & w4 & H5 & Hr4 & Hv4 & Ho3 & ->);
    [done|done|cbn [cursor_ cur]; by rewrite drop_ge by (by rewrite length_app, length_tx1, length_tx2)|].
  cbn [rd_fd cursor_] in *. rewrite (perform_unfold _ _ _ _ _ H5). cbn [fst snd]. rewrite check_unfold by (by rewrite Ho3).
  destruct (reset_run (rd_fd rd) w4 Hr4) as (w5 & H6 & Hr5 & Hd5 & Hf5). rewrite (perform_unfold _ _ _ _ _ H6).
  exists w5. split_and!; [done|done|]. unfold file_is. rewrite Hd5, Hf5, Hv4, Hv3, Hv2. exact Hfile1.
Qed.

(** Inverting a byte changes it, and only it. *)
Lemma invert_byte b : byte.of_Z (Z.lxor (byte.unsigned b) 0xFF) ≠ b.
Proof. by destruct b; vm_compute. Qed.

Lemma tamper_second ts1 ts2 :
  ∃ bad, tamper (record_bytes tx1 ts1 ++ record_bytes tx2 ts2) (83 + 20) (λ byte, Z.lxor byte 0xFF) =
      record_bytes tx1 ts1 ++ bad ∧
    damaged (record_bytes tx2 ts2) bad.
Proof.
  set (g := λ byte, Z.lxor byte 0xFF). set (f := λ b, byte.of_Z (g (byte.unsigned b))).
  pose proof (length_tx2 ts2) as Hl. set (r2 := record_bytes tx2 ts2) in *.
  destruct (lookup_lt_is_Some_2 r2 20) as [b Hb]; [lia|].
  pose proof (take_drop_middle _ _ _ Hb) as Hcut. assert (length (take 20 r2) = 20%nat) as H20 by len.
  exists (take 20 r2 ++ [f b] ++ drop 21 r2). split.
  - unfold tamper. fold f. rewrite <- Hcut at 1.
    replace (Z.to_nat (83 + 20)) with (length (record_bytes tx1 ts1) + (length (take 20 r2) + 0))%nat
      by (rewrite length_tx1, H20; done).
    by rewrite !alter_app_r.
  - exists (take 20 r2), [b], [f b], (drop 21 r2).
    split_and!; [done|done|done|simpl; lia|intros [= H]; by apply (invert_byte b)|].
    rewrite <- Hcut at 2. by rewrite !drop_app_le, !take_app_le by len.
Qed.

Lemma read_damaged_run w i ts1 ts2 bad :
  reliable w → s64_ok ts1 → s64_ok ts2 → damaged (record_bytes tx2 ts2) bad →
  file_is (view w) path i (record_bytes tx1 ts1 ++ bad) →
  ∃ w', read_damaged path 83 w = Some (Some tt, w') ∧ reliable w' ∧
    file_is (view w') path i (record_bytes tx1 ts1 ++ bad).
Proof.
  intros Hrel Hts1 Hts2 Hdam Hfile. destruct wal_txs as (_ & _ & Hok1 & Hok2). unfold read_damaged.
  destruct (reader_start path w i _ Hrel Hfile) as (rd & w1 & H1 & Hr1 & Hfd & Hrd & (s & Hon) & Hfile1).
  destruct (parse_next_record tx1 ts1 bad Hok1 Hts1) as (t1 & Hp1 & _).
  rewrite length_tx1 in Hp1. pose proof (parse_next_damaged tx2 ts2 bad [] Hok2 Hts2 Hdam) as Hp2. rewrite app_nil_r in Hp2.
  rewrite (perform_unfold _ _ _ _ _ H1), check_unfold by done. cbn [snd]. rewrite Hrd.
  destruct (read_reliable (mkReader (rd_fd rd) 0 0) w1 i _ _ Hr1 Hfd Hon ltac:(done) ltac:(done) Hp1)
    as (res1 & rd1 & w2 & H2 & Hr2 & Hv2 & Ho1 & _ & ->).
  rewrite (perform_unfold _ _ _ _ _ H2). cbn [fst snd]. rewrite check_unfold by (by rewrite Ho1).
  rewrite check_unfold by done. cbn [rd_fd cursor_]. rewrite <- Hv2 in Hon.
  destruct (read_reliable (mkReader (rd_fd rd) 83 83) w2 i _ PCorrupt Hr2 Hfd Hon) as (res2 & rd2 & w3 & H4 & Hr3 & Hv3 & Ho2 & ->);
    [done|done|cbn [cursor_ cur]; rewrite drop_app_exact by apply length_tx1; exact Hp2|].
  cbn [rd_fd cursor_] in *. rewrite (perform_unfold _ _ _ _ _ H4). cbn [fst snd]. rewrite check_unfold by (by rewrite Ho2).
  rewrite check_unfold by done.
  destruct (reset_run (rd_fd rd) w3 Hr3) as (w5 & H6 & Hr5 & Hd5 & Hf5). cbn [rd_fd]. rewrite (perform_unfold _ _ _ _ _ H6).
  exists w5. split_and!; [done|done|]. unfold file_is. rewrite Hd5, Hf5, Hv3, Hv2. exact Hfile1.
Qed.

(** [test_wal.cpp] passes in every environment that does not fail: the records come back,
    the inverted byte is caught by the checksum without the reader moving, and the log is
    cut behind the first record. *)
Theorem test_wal_passes w :
  reliable w → dir (view w) !! path = None →
  ∃ w', test_roundtrip_and_corruption_detection path w = Some (Some tt, w').
Proof.
  intros Hrel Hno. unfold test_roundtrip_and_corruption_detection. rewrite andthen_unfold.
  destruct (write_two_run w Hrel Hno) as (w1 & i & ts1 & ts2 & -> & Hr1 & Hts1 & Hts2 & Hf1). rewrite andthen_unfold.
  destruct (read_back_run w1 i ts1 ts2 Hr1 Hts1 Hts2 Hf1) as (w2 & -> & Hr2 & Hd2 & s2 & Hf2).
  destruct (overwrite_law path (83 + 20) (λ byte, Z.lxor byte 0xFF) w2 i _ Hr2 Hd2 Hf2) as (w3 & H3 & Hr3 & Hv3).
  { cbn [cur]. rewrite length_app, length_tx1, length_tx2. lia. }
  assert (call (overwrite path (83 + 20) (λ byte, Z.lxor byte 0xFF)) w2 = Some (true, w3)) as H3' by (unfold call; by rewrite H3).
  rewrite (perform_unfold _ _ _ _ _ H3'), check_unfold, andthen_unfold by done.
  destruct (tamper_second ts1 ts2) as (bad & Hbad & Hdam). cbn [cur stable] in Hv3. rewrite Hbad in Hv3.
  destruct (read_damaged_run w3 i ts1 ts2 bad Hr3 Hts1 Hts2 Hdam) as (w4 & -> & Hr4 & Hd4 & s4 & Hf4).
  { rewrite Hv3. split; [done|]. exists s2. simpl files. by rewrite lookup_insert_eq. }
  assert (0 ≤ 83 ≤ INT64_MAX) as Hrange by range_lia.
  destruct (truncate_wal_spec path 83 w4 i _ Hd4 Hf4 Hrange) as (r & w5 & nd & H5 & Hnd & Hv5 & Hr5).
  destruct (Hr5 Hr4) as [Hr5' ->]. rewrite (perform_unfold _ _ _ _ _ H5), check_unfold by done.
  destruct (file_size_law path w5 i nd Hr5') as (w6 & H6 & _ & _);
    [by rewrite Hv5|rewrite Hv5; simpl; by rewrite lookup_insert_eq|].
  assert (call (file_size path) w5 = Some (Z.of_nat (length (cur nd)), w6)) as H6' by (unfold call; by rewrite H6).
  rewrite (perform_unfold _ _ _ _ _ H6'). exists w6.
  pose proof (truncated_length _ _ _ Hnd) as Hlen.
  unfold LEDGER_CHECK. rewrite Hlen. reflexivity.
Qed.
End Wal.

(** *** [fault_injection_test.cpp] *)

Section Fault.
Variables (wal sp : string) (pad : list byte) (visit : LedgerState → list (AccountId * Account)).
Hypothesis Hpad : length pad = 4%nat.
Hypothesis Hvisit : ∀ st, iterates st (visit st).
Hypothesis Hnames : wal ≠ sp ∧ wal ≠ tmp_path_of sp.

Definition seed : LedgerState := (add_account (add_account empty_state (mkAccount 1 Asset 0 0)).2 (mkAccount 2 Revenue 0 0)).2.
Definition fault_txn (i : TransactionId) : Transaction := default default_tx (fault_tx i (i * 1000)).

(** The ledger after transactions that all apply. *)
Fixpoint all_applied (st : LedgerState) (txs : list Transaction) : option LedgerState :=
  match txs with
  | [] => Some st
  | t :: txs => '(st', r) ← apply st t; if has_value r then all_applied st' txs else None
  end.

Definition fault_ok (i : TransactionId) : Prop :=
  smul64 (to_s64 i) 1000 = Some (i * 1000) ∧ fault_tx i (i * 1000) = Some (fault_txn i) ∧
  tx_ok (fault_txn i) ∧ length (tx_legs (fault_txn i)) = 2%nat.

(** The loop: the records of the transactions are in the log, and the ledger kept beside
    it has them applied. *)
Lemma append_and_apply_run ids wr st st' w i nd :
  Forall fault_ok ids → all_applied st (fault_txn <$> ids) = Some st' →
  reliable w → 0 ≤ fd_ wr → offset_ wr = Z.of_nat (length (cur nd)) →
  Z.of_nat (length (cur nd)) + 83 * Z.of_nat (length ids) ≤ INT64_MAX →
  open_on (view w) (fd_ wr) true true i nd →
  ∃ wr' w' l nd', append_and_apply ids wr st w = Some (Some (wr', st'), w') ∧ reliable w' ∧
    Forall entry_ok l ∧ l.*1 = fault_txn <$> ids ∧ open_on (view w') (fd_ wr') true true i nd' ∧
    cur nd' = cur nd ++ log_bytes l ∧ size_bytes wr' = Z.of_nat (length (cur nd')) ∧ dir (view w') = dir (view w) ∧
    (∀ j, j ≠ i → files (view w') !! j = files (view w) !! j).
Proof.
  intros Hids. revert wr st w nd. induction Hids as [|k ids (Hmul & Htx & Hok & Hlegs) _ IH];
    intros wr st w nd Hap Hrel Hfd Hoff Hlen Hon; cbn [append_and_apply].
  { simpl in Hap. injection Hap as <-. exists wr, w, [], nd. rewrite app_nil_r. by split_and!. }
  rewrite (perform_unfold _ _ w (k * 1000) w) by (by rewrite lift_unfold, Hmul).
  rewrite Htx, andthen_unfold. cbn [expect mret M_ret].
  destruct (append_reliable (fault_txn k) wr w i nd Hok Hfd Hon Hrel)
    as (wr1 & w1 & ts & nd1 & H1 & Hr1 & Hts & Hfd1 & Hoff1 & Hon1 & Hc1 & (Hd1 & _ & _ & Hf1 & _)).
  rewrite (perform_unfold _ _ _ _ _ H1), check_unfold by done. cbn [snd].
  cbn [fmap list_fmap all_applied] in Hap. destruct (apply st (fault_txn k)) as [[st1 r]|] eqn:Ha; [|done].
  simpl in Hap. destruct (has_value r) eqn:Hv; [|done].
  rewrite (perform_unfold _ _ w1 (st1, r) w1) by (by rewrite lift_unfold). cbn [fst snd].
  rewrite check_unfold by done. cbn [length] in Hlen.
  assert (length (cur nd1) = length (cur nd) + 83)%nat as Hl1 by (rewrite Hc1, length_app, length_record_bytes, Hlegs; lia).
  destruct (IH wr1 st1 w1 nd1) as (wr' & w' & l & nd' & Hrun & Hr' & Hl & Hl1' & Hon' & Hc' & Hsz & Hd' & Hf'); try done.
  { by rewrite Hfd1. }
  { rewrite Hoff1, Hoff, length_record_bytes, Hlegs, wrap64_id by range_lia. lia. }
  { lia. }
  exists wr', w', ((fault_txn k, ts) :: l), nd'. split_and!; try done.
  - by constructor.
  - cbn [fmap list_fmap fst]. by rewrite Hl1'.
  - by rewrite Hc', Hc1, <- app_assoc.
  - by rewrite Hd', Hd1.
  - intros j Hj. by rewrite Hf', Hf1.
Qed.

Definition fault_final : LedgerState := default seed (all_applied seed (fault_txn <$> [1; 2; 3; 4; 5])).
Lemma fault_run_facts :
  Forall fault_ok [1; 2; 3; 4; 5] ∧ all_applied seed (fault_txn <$> [1; 2; 3; 4; 5]) = Some fault_final ∧
  replay_txs seed (fault_txn <$> [1; 2; 3; 4; 5]) = Some fault_final ∧
  imbalance fault_final = 0 ∧ volume fault_final ≤ INT64_MAX.
Proof.
  split_and!; [|by vm_compute..]. repeat constructor; try by_compute; by vm_compute.
Qed.

Lemma fault_trial : validate_trial_balance (visit fault_final) = Some LedgerError.None.
Proof.
  destruct fault_run_facts as (_ & _ & _ & Hi & Hv). rewrite (trial_balance_value fault_final) by done.
  unfold trial_verdict. by rewrite decide_True.
Qed.

(** The snapshot of the chart of accounts, in an empty directory. *)
Lemma seed_snapshot w :
  reliable w → dir (view w) !! wal = None → dir (view w) !! sp = None → dir (view w) !! tmp_path_of sp = None →
  ∃ w' j c, write_snapshot pad (visit seed) sp seed 0 w = Some (LedgerError.None, w') ∧ reliable w' ∧
    dir (view w') !! wal = None ∧ dir (view w') !! sp = Some j ∧ files (view w') !! j = Some (mkInode c c) ∧
    parse_snapshot c = Value (mkLoaded seed 0).
Proof.
  intros Hrel Hw Hsp Htmp. destruct Hnames as [Hn1 Hn2].
  destruct (write_snapshot_spec pad (visit seed) sp seed 0 w Hpad (Hvisit seed)) as (r & w' & Hrun & _ & Hres & Hr).
  { intros i. by rewrite Hsp. }
  destruct (Hr Hrel (or_intror Htmp)) as [Hrel' ->].
  destruct Hres as [[_ (_ & [_ Hnm] & _ & j & Hd & Hj & _)]|[[?|?] _]]; [|done..].
  exists w', j, (snapshot_bytes pad (visit seed) seed 0). split_and!; try done; [by rewrite Hnm|].
  rewrite <- (app_nil_r (snapshot_bytes _ _ _ _)). apply parse_snapshot_bytes.
  split_and!; [done|apply Hvisit|by_compute|done|by_compute].
Qed.

(** Opening a log leaves every file that exists as it is. *)
Lemma writer_open_files path mode wr w r wr' w' j nd :
  fd_ wr < 0 → writer_open path mode wr w = Some (r, wr', w') →
  files (view w) !! j = Some nd → files (view w') !! j = Some nd.
Proof.
  intros Hfd Hrun Hj. unfold writer_open, writer_close, UniqueFd.reset, UniqueFd.valid in Hrun.
  rewrite (bool_decide_false (0 ≤ fd_ wr)) in Hrun by lia. msimpl in Hrun.
  destruct (sys_open path O_CREAT_WRONLY_APPEND w) as [d w1] eqn:Hop. msimpl in Hrun.
  destruct (open_law _ _ _ _ _ Hop) as [(Hd & Hv & _)|(Hd & _ & He & _)].
  { rewrite bool_decide_true in Hrun by done. msimpl in Hrun. simplify_eq. by rewrite Hv. }
  assert (files (view w1) !! j = Some nd ∧ ∃ i nd', open_on (view w1) d true true i nd') as (Hj1 & i & nd1 & pos & Hd1 & Hi1).
  { destruct He as [i nd' Hp Hi|i Hp _ Hi|_ _ ? _]; [..|done]; simpl.
    - split; [destruct (decide (i = j)) as [->|]; [rewrite lookup_insert_eq; congruence|by rewrite lookup_insert_ne]|].
      exists i, nd', 0%nat. simpl. by rewrite !lookup_insert_eq.
    - split; [rewrite lookup_insert_ne by congruence; done|].
      exists i, (mkInode [] []), 0%nat. simpl. by rewrite !lookup_insert_eq. }
  rewrite bool_decide_false in Hrun by lia. msimpl in Hrun.
  destruct (sys_fstat d w1) as [st w2] eqn:Hst. destruct (fstat_law _ _ _ _ _ _ _ _ _ Hst Hd1 Hi1) as (Hv2 & _).
  destruct st as [sz|]; msimpl in Hrun; simplify_eq.
  - cbn [fd_]. rewrite ?(bool_decide_false (0 ≤ fd_ wr)) by lia. by rewrite Hv2.
  - destruct (close_law d w2) as [-> _]. simpl. by rewrite Hv2.
Qed.

(** The log that is opened next to the snapshot. *)
Lemma log_beside w j c :
  reliable w → dir (view w) !! wal = None → dir (view w) !! sp = Some j → files (view w) !! j = Some (mkInode c c) →
  parse_snapshot c = Value (mkLoaded seed 0) →
  ∃ wr w' i, writer_open wal SyncEveryWrite new_writer w = Some (LedgerError.None, wr, w') ∧ reliable w' ∧
    0 ≤ fd_ wr ∧ offset_ wr = 0 ∧ dir (view w') !! wal = Some i ∧ dir (view w') !! sp = Some j ∧
    open_on (view w') (fd_ wr) true true i (mkInode [] []) ∧ j ≠ i ∧ files (view w') !! j = Some (mkInode c c).
Proof.
  intros Hrel Hw Hsp Hj Hc. destruct (writer_create wal w Hrel Hw) as (wr & w' & i & Hrun & Hrel' & Hfd & Hoff & Hd & Hon & Hq).
  assert (files (view w') !! j = Some (mkInode c c)) as Hj' by (by eapply writer_open_files; [|exact Hrun|]). exists wr, w', i.
  split_and!; try done; [rewrite Hq; [done|by destruct Hnames]|]. intros <-. destruct Hon as (? & _ & Hi). rewrite Hi in Hj'.
  injection Hj' as <-. by vm_compute in Hc.
Qed.

(** Recovery of the five records and the torn header. *)
Lemma fault_recovers w i j c nd l fuel :
  reliable w → dir (view w) !! wal = Some i → files (view w) !! i = Some (mkInode (cur nd ++ torn_header) (stable nd)) →
  dir (view w) !! sp = Some j → files (view w) !! j = Some (mkInode c c) → parse_snapshot c = Value (mkLoaded seed 0) →
  cur nd = [] ++ log_bytes l → Forall entry_ok l → l.*1 = fault_txn <$> [1; 2; 3; 4; 5] → (5 < fuel)%nat →
  ∃ w' nd', recover fuel visit wal sp w =
      Some (Some (Value (mkRecovered fault_final (Z.of_nat (length (cur nd))))), w') ∧ reliable w' ∧
    dir (view w') !! wal = Some i ∧ files (view w') !! i = Some nd' ∧ length (cur nd') = length (cur nd).
Proof.
  intros Hrel Hw Hi Hsp Hj Hc Hcur Hl Hl1 Hfuel. destruct fault_run_facts as (_ & _ & Hrep & _).
  assert (length l = 5%nat) as Hlen by (by rewrite <- (length_fmap fst l), Hl1).
  destruct (recover_records visit wal sp w seed 0 i (mkInode (cur nd ++ torn_header) (stable nd)) [] l torn_header fault_final fuel Hrel)
    as (w' & nd' & Hrun & Hrel' & Hv & Hc' & _); try done.
  - right. by exists j, (mkInode c c).
  - cbn [cur]. by rewrite Hcur, <- app_assoc.
  - cbn [cur]. rewrite Hcur, !length_app. pose proof (log_bytes_bound l Hl). simpl length. range_lia.
  - lia.
  - by rewrite Hl1.
  - apply fault_trial.
  - exists w', nd'. rewrite Hrun, Hv, Hc', Hcur. simpl. by rewrite lookup_insert_eq.
Qed.

(** The checks on what recovery returned. *)
Lemma fault_checks w i nd (valid : Z) :
  reliable w → dir (view w) !! wal = Some i → files (view w) !! i = Some nd → Z.of_nat (length (cur nd)) = valid →
  ∃ w', (cash ⇐ perform (balance_of fault_final 1); expected_cash ⇐ perform (balance_of fault_final 1);
    _ ⇐ LEDGER_CHECK (bool_decide (cash = expected_cash));
    revenue ⇐ perform (balance_of fault_final 2); expected_revenue ⇐ perform (balance_of fault_final 2);
    _ ⇐ LEDGER_CHECK (bool_decide (revenue = expected_revenue));
    trial ⇐ perform (lift (validate_trial_balance (visit fault_final)));
    _ ⇐ LEDGER_CHECK (has_value trial);
    _ ⇐ LEDGER_CHECK (bool_decide (valid = valid));
    size ⇐ perform (call (file_size wal));
    LEDGER_CHECK (bool_decide (size = valid))) w = Some (Some tt, w').
Proof.
  intros Hrel Hd Hi <-. rewrite !(perform_unfold (balance_of fault_final 1) _ w 15000 w) by (by vm_compute).
  rewrite check_unfold by done. rewrite !(perform_unfold (balance_of fault_final 2) _ w 15000 w) by (by vm_compute).
  rewrite check_unfold by done. rewrite (perform_unfold _ _ w LedgerError.None w) by (by rewrite lift_unfold, fault_trial).
  rewrite check_unfold by done. rewrite check_unfold by (by rewrite bool_decide_true).
  destruct (file_size_law wal w i nd Hrel Hd Hi) as (w' & H & _).
  rewrite (perform_unfold _ _ w (Z.of_nat (length (cur nd))) w') by (unfold call; by rewrite H).
  exists w'. unfold LEDGER_CHECK. by rewrite bool_decide_true.
Qed.

(** C39: The fault-injection test passes wherever it is run: in every environment that does
    not fail, whatever its clock shows, whatever the padding bytes of the snapshot and the
    iteration order of the hash table, started without the two files, the program passes
    every check: after five transactions and a torn header, recovery returns the balances
    of the ledger kept beside the log, a balanced one, and cuts the log back to exactly the
    five records. *)
Theorem fault_injection_passes w fuel :
  reliable w → dir (view w) !! wal = None → dir (view w) !! sp = None → dir (view w) !! tmp_path_of sp = None →
  (5 < fuel)%nat →
  ∃ w', run_fault_injection_scenario fuel pad visit wal sp w = Some (Some tt, w').
Proof.
  intros Hrel Hw Hsp Htmp Hfuel. destruct fault_run_facts as (Hids & Hap & Hrep & _).
  unfold run_fault_injection_scenario. cbv zeta. change (add_account _ (mkAccount 1 Asset 0 0)) with (true, (add_account empty_state (mkAccount 1 Asset 0 0)).2).
  cbv iota beta. rewrite check_unfold by done.
  change (add_account _ (mkAccount 2 Revenue 0 0)) with (true, seed). cbv iota beta. rewrite check_unfold by done.
  destruct (seed_snapshot w Hrel Hw Hsp Htmp) as (w1 & j & c & H1 & Hr1 & Hw1 & Hsp1 & Hj1 & Hc).
  rewrite (perform_unfold _ _ _ _ _ H1), check_unfold by done.
  destruct (log_beside w1 j c Hr1 Hw1 Hsp1 Hj1 Hc) as (wr & w2 & i & H2 & Hr2 & Hfd & Hoff & Hw2 & Hsp2 & Hon & Hne & Hj2).
  rewrite (perform_unfold _ _ _ _ _ H2), check_unfold, andthen_unfold by done. cbn [snd].
  destruct (append_and_apply_run [1; 2; 3; 4; 5] wr seed fault_final w2 i (mkInode [] []) Hids Hap Hr2 Hfd Hoff ltac:(done) Hon)
    as (wr3 & w3 & l & nd3 & -> & Hr3 & Hl & Hl1 & (? & _ & Hi3) & Hc3 & Hsz & Hd3 & Hf3).
  cbn [fst snd]. destruct (reset_run (fd_ wr3) w3 Hr3) as (w4 & H4 & Hr4 & Hd4 & Hf4). rewrite (perform_unfold _ _ _ _ _ H4).
  destruct (append_raw_law wal torn_header w4 i nd3 Hr4) as (w5 & H5 & Hr5 & Hv5);
    [by rewrite Hd4, Hd3|by rewrite Hf4|].
  assert (call (append_raw wal torn_header) w4 = Some (true, w5)) as H5' by (unfold call; by rewrite H5).
  rewrite (perform_unfold _ _ _ _ _ H5'), check_unfold by done.
  destruct (fault_recovers w5 i j c nd3 l fuel) as (w6 & nd6 & H6 & Hr6 & Hw6 & Hi6 & Hc6); try done.
  { rewrite Hv5. simpl. by rewrite Hd4, Hd3. }
  { rewrite Hv5. simpl. by rewrite lookup_insert_eq. }
  { rewrite Hv5. simpl. by rewrite Hd4, Hd3. }
  { rewrite Hv5. simpl. rewrite lookup_insert_ne by done. by rewrite Hf4, Hf3. }
  rewrite (perform_unfold _ _ _ _ _ H6). cbn [rec_state wal_valid_length].
  rewrite Hsz. apply (fault_checks w6 i nd6); [done..|by rewrite Hc6].
Qed.
End Fault.
End Passes.

(** *** On the in-memory file system *)

Module ExampleTests.
(** Replaces the contents of a file. *)
Definition rewrite_file (p : string) (h : list byte → list byte) (w : MemFs.mem) : bool * MemFs.mem :=
  match dir (MemFs.mfs w) !! p with
  | Some i =>
      match files (MemFs.mfs w) !! i with
      | Some nd => (true, MemFs.goto w (set_file (MemFs.mfs w) i (mkInode (h (cur nd)) (stable nd))))
      | None => (false, w)
      end
  | None => (false, w)
  end.
Definition size_of (p : string) (w : MemFs.mem) : Z * MemFs.mem :=
  (default (-1) (Z.of_nat ∘ length <$> contents (MemFs.mfs w) p), w).

Definition std_files : StdFiles MemFs.posix := {|
  overwrite p off g := rewrite_file p (λ c, tamper c off g) : @world MemFs.posix → bool * @world MemFs.posix;
  append_raw p bs := rewrite_file p (λ c, c ++ bs) : @world MemFs.posix → bool * @world MemFs.posix;
  file_size := size_of : string → @world MemFs.posix → Z * @world MemFs.posix
|}.

Lemma rewrite_file_law p h w i nd :
  MemFs.faults w = [] → dir (MemFs.mfs w) !! p = Some i → files (MemFs.mfs w) !! i = Some nd →
  ∃ w', rewrite_file p h w = (true, w') ∧ MemFs.faults w' = [] ∧
    MemFs.mfs w' = set_file (MemFs.mfs w) i (mkInode (h (cur nd)) (stable nd)).
Proof.
  intros Hw Hp Hi. unfold rewrite_file. rewrite Hp, Hi. eexists. split_and!; [done|by apply MemFs.goto_faults|done].
Qed.

Definition std_laws : StdFilesLaws MemFs.posix MemFs.posix_laws std_files.
Proof.
  split.
  - intros p off g w i nd Hw Hp Hi _. by apply rewrite_file_law.
  - intros p bs w i nd Hw Hp Hi. by apply (rewrite_file_law p (λ c, c ++ bs)).
  - intros p w i nd Hw Hp Hi. exists w. simpl. unfold size_of, contents, file_at. simpl in Hp, Hi. rewrite Hp. simpl. by rewrite Hi.
Qed.

Definition visit (st : LedgerState) : list (AccountId * Account) := map_to_list (accounts_ st).
Definition disk : MemFs.mem := MemFs.boot [] [].
End ExampleTests.

Lemma fault_injection_passes_witness :
  ∃ w', run_fault_injection_scenario (P := MemFs.posix) (S := ExampleTests.std_files) 6 (replicate 4 Byte.x00)
    ExampleTests.visit "/d/wal.bin" "/d/snapshot.bin" ExampleTests.disk = Some (Some tt, w').
Proof.
  apply (fault_injection_passes (L := MemFs.posix_laws) (SL := ExampleTests.std_laws) "/d/wal.bin" "/d/snapshot.bin"
    (replicate 4 Byte.x00) ExampleTests.visit eq_refl (λ st, Permutation_refl _) ltac:(by_compute) ExampleTests.disk 6).
  - reflexivity.
  - reflexivity.
  - reflexivity.
  - reflexivity.
  - lia.
Defined.
